(* ===== verification/_CoqProject ===== *)
-Q . S2P
Prelude.v
Base64.v
Protocol.v
Store.v
Statistics.v
Broker.v
SimpleBroker.v
ServerSession.v
Api.v
Redialer.v
SeenState.v
ClientSession.v
Keeper.v
HelperPool.v
Mbox.v
Click.v
Nih.v
Connectivity.v
Poller.v
Postal.v
PushClient.v
Hosts.v
Presenters.v
Messaging.v
PostalStart.v
PollerStart.v
Config.v
Endpoint.v
Launchers.v
Server.v
HttpText.v
HttpBody.v
HttpTransfer.v
HttpMessage.v
HttpResponse.v
HttpLogging.v
HttpClient.v
HttpTransport.v
HttpPool.v
EndToEnd.v
Answering.v
Reconnect.v
AcceptanceClient.v
Condition.v
TestingEndpoint.v
CBindings.v
Tracker.v
