(* ===== verification/Prelude.v ===== *)
(** * A verification development for the ubuntu push notification system

    The repository holds a push server, a client daemon, and the protocol
    between them. An application server posts notifications to the server's
    HTTP API; the API stores them in a pending store and tells the broker; the
    broker feeds exchanges into the sessions of the connected devices; a
    session sends them over a TCP connection. On the device the client session
    keeps a connection up, answers the messages, filters out what it has seen
    and hands the rest to the daemon, which runs the application's helper and
    puts the result in a mail box or in front of the user.

    The library models both sides as executable definitions, one file per
    component, named after the source's functions and types:

    - [Prelude]: outcomes of Go functions, the state-and-error monad with its
      Hoare triples, machine integers, slices, strings, lists.
    - [Base64]: the standard library's codec, which tokens go through.
    - [Protocol] (protocol/): framing ([Wire]), the messages ([Msg]) and the
      splitting of large ones ([BroadcastMsg_Split], [NotificationsMsg_Split]).
    - [Store] (server/store/): channel ids, filters, the in-memory store
      ([InMemoryPendingStore]); the interface is the class [PendingStore], its
      laws [PendingStoreLaws], both instantiated at the end of the file.
    - [Statistics] (server/statistics/): counters over sliding windows.
    - [Broker] (server/broker/): sessions, exchanges, [FeedPending], against
      the interface of the store.
    - [SimpleBroker] (server/broker/simple/): the agent goroutine and its
      callers as a labelled state machine with bounded channels.
    - [ServerSession] (server/session/): [Session] from the handshake to the
      loop over ping timer and exchanges, with a script of the environment.
    - [Api] (server/api/): the HTTP handlers, their checks and errors.
    - [Redialer] (util/redialer.go): [Redial] and [Stop] as threads.
    - [SeenState] (client/session/seenstate/): the interface, its laws, the
      in-memory and the SQLite implementations.
    - [ClientSession] (client/session/session.go): all of [clientSession].
    - [Keeper] (client/session/session.go): its goroutines. The keeper, the
      redial goroutines inside [Dial] and the loops, over the locks, channels
      and connections they share.
    - [HelperPool] (launch_helper/): the pool of application helpers as a
      labelled state machine.
    - [Mbox] (client/service/mbox.go), [Click] (click/click.go), [Nih]
      (nih/nih.go): mail boxes, application ids, path quoting.
    - [Connectivity] (bus/connectivity/, bus/networkmanager/state.go): the
      connectivity tracker as a labelled state machine, with [webcheck].
    - [Poller] (poller/): the goroutines [control] and [run] over their
      channels, with the wake-ups and the wakelock.
    - [Postal] (client/service/): the postal and push services; [ServiceSpec]
      gives each application a bounded queue, which the mail boxes refine.
    - [PushClient] (client/client.go, bus/systemimage/, identifier/): the
      daemon's start-up, its addressee checks (an instance of the class
      [AddresseeChecking] of [ClientSession]), the broadcast filter, and its
      loop interleaved with the session's goroutine ([Daemon]).
    - [Hosts] (client/gethosts/, external/murmur3/): the digests, incremental
      and one-shot, on machine words, and the host finder that uses them.
    - [Presenters] (bus/notifications/, bus/haptic/, bus/emblemcounter/,
      sounds/, bus/accounts/, click/cnotificationsettings/, bus/windowstack/,
      bus/unitygreeter/, urldispatcher/): what each presenter decides and
      calls, under the user's settings; [Path] is the cleaning of file paths.
    - [Messaging] (messaging/): the table of cards against the messaging menu,
      an interface with laws.
    - [Config] (config/, logger/): configuration structs through reflection,
      their sources (files, defaults, the command line), the log levels.
    - [Endpoint] (bus/bus.go, bus/endpoint.go and the wrappers of
      NetworkManager, URfkill, powerd and polld): D-Bus values, dialing,
      calls, watches and serving; [PostalBus] serves the methods of [Postal].
    - [Launchers] (launch_helper/legacy/, helper_finder/, cual/): what starts
      the helpers that [HelperPool] runs.
    - [PostalStart] (client/service/): how the two services start, the postal
      one over the redialers of its endpoints, and its goroutines;
      [PollerStart] (poller/): how the poller does.
    - [CBindings] (urldispatcher/curldispatcher/, click/cappinfo/, click/cclick/,
      launch_helper/cual/, messaging/cmessaging/, nih/cnih/): the bindings to C,
      both sides, over a heap of strings and objects.
    - [Tracker] (server/session/tracker.go): session ids and the log.
    - [Server] (server/): accepting devices, TLS files, the runners, and the
      development server's [main] and handlers, on top of [Config].
    - The patched copy of Go's HTTP client (http13client/), from the bottom up:
      [HttpText] (tokens, header values, cookies), [HttpBody] (buffered
      reading, chunked bodies, the readers of a body), [HttpTransfer] (how the
      length of a body is decided, written and read), [HttpMessage] (requests
      and responses on the wire, forms, limits; URLs are the class [URLLib]),
      [HttpResponse] (a response from one end to the other), [HttpLogging]
      (the logging connection, errors), [HttpClient] (sending, cookies, the redirect loop), [HttpTransport]
      (proxies, keys of connections, dialing and tunnels) and [HttpPool] (the
      pool of idle connections, with the requests that wait for, dial or use
      one and the two goroutines of each, as a labelled state machine).
    - [EndToEnd] and [Answering]: a session of [ServerSession] and a loop of
      [ClientSession] joined by a wire; what gets across, and why a connection
      ends. [Reconnect]: connections one after the other, each with its
      handshake, over the server's store and the device's record.
    - [AcceptanceClient] (server/acceptance/): the second client of the server,
      with the client of the API and the command around it; [Condition]
      (testing/condition/): the conditions that test doubles consult;
      [TestingEndpoint] (bus/testing/): the bus double, its watches as
      goroutines.

    How they call each other: [Api] and [Broker] are proved against the class
    [PendingStore], [SimpleBroker] and [ServerSession] use the exchanges of
    [Broker]; [ClientSession] is proved against [SeenState] and
    [AddresseeChecking]; [PushClient] drives [ClientSession] and hands
    messages to [Postal], whose helper runs are the inputs of [HelperPool] and
    whose presenters are those of [Presenters] and [Messaging]; [Endpoint]
    carries the calls of applications to [Postal]. The push service
    registers with the server through the HTTP client, whose layers are each
    proved on top of the one before.

    ** How state and effects are modelled

    A Go function that can fail or panic returns an [outcome]; stateful code
    is in the monad [st], which threads the state past errors, as Go does. A
    panic is an outcome of its own, and theorems say when it cannot happen.
    Slices whose windows overlap or grow again are [slice]s over a backing
    array; Go maps are [gmap]s, integers are [Z] with their wrap-around where
    it can be reached ([i64], [u32], [u16]). Goroutines that share state are
    steps of a labelled machine ([SimpleBroker], [Redialer], [Keeper],
    [HelperPool], [Connectivity], [Poller], [Daemon], [HttpPool]): a lock section or a channel
    operation is one step, and the theorems hold for every interleaving. What the
    environment answers (reads, writes, clocks, dialing, launching) is a
    script in the state, or an argument, so that every run evaluates.
    Libraries are parameters: JSON codecs, media types, UUIDs, TLS, the SQL
    engine, D-Bus and the messaging menu (with laws for what is used), the
    click database, parsers of durations and addresses, net/url, the reader of
    MIME headers, multipart forms and gzip.

    ** What the theorems show

    - From end to end: [delivered_end_to_end] (a notification pending on the
      server is handed to its application, found to have none, or still
      pending, however the two ends and the wire between them fail),
      [everything_arrives] (without failures, all of what was pending has been
      handed on when the session is back in its loop),
      [answering_client_kept] (a session gives up on a device only for a
      missing or a wrong answer, and the client gives the right ones),
      [reconnections_lose_nothing] (through any number of connections that
      break anywhere) and [reconnected_delivery] (the first delivery that goes
      through empties the channel).
    - Delivery on the server: [session_no_loss], [unicast_delivered],
      [session_conforms] (the wire dialogue of a session), [broadcast_once],
      [broadcast_prepare], [broadcast_fanout], [one_session_per_device].
    - The store: [store_refines_log] (the interface's operations refine a log
      of live entries), the filters' specifications, the round trips of tokens
      and channel ids.
    - The API: [unicast_request], [broadcast_request], [read_body_checks],
      [token_decides].
    - The wire: [wire_roundtrip], [broadcast_split_correct],
      [notifications_split_fits] (of the JSON text as encoding/json writes it,
      escapes included, when they do not make it longer than counted), and the
      limits that are not kept, [wire_oversize], [broadcast_split_overflow] and
      [notifications_escape_overflow].
    - The client's session: [client_loop_conforms] (every message is answered,
      levels and ids are recorded before they are acknowledged, exactly the
      notifications not seen before are handed on, and the only panic is that of
      a deadline that cannot be set),
      [dial_outcome], [host_rotation], [seen_exactly_once] (no redelivery
      reaches an application twice), [redialer_stop_barrier],
      [redialer_stop_terminates], [redial_backoff]; [one_dial_at_a_time] (in
      every interleaving one dial at most, by the current retrier, and no
      connection left open) and [keeper_stop_ends] (handling an event waits for
      a dial's exchanges at most). Each retrier of [Keeper] is a system of
      [Redialer], so its theorems apply there.
    - The daemon: [client_batch] and [daemon_batch] (each notification of a
      batch is posted or its application unregistered, once, for every
      interleaving), [daemon_terminates], [told_in_order], [start_daemon],
      [broadcast_filtered]; [connectivity_edges], [poller_wakelock];
      [murmur_incremental].
    - Applications: [postal_mailboxes], [postal_bus] (the service behind the
      bus answers every message once, does not panic, and its boxes are
      bounded queues), [dbus_caller], [result_presented], [push_register],
      [postal_starts] and [postal_waits] (when the service starts running),
      [poller_starts], [poller_waits],
      [pool_results] (one result per input, in order), [pool_limits],
      [mbox_bounded_queue], [parse_app_id_roundtrip], [verify_app_id],
      [nih_roundtrip], [legacy_stop], [helper_cache].
    - What the user sees: [settings_respected], [sound_path_confined],
      [menu_refines_shown].
    - The HTTP client: [chunked_body_complete], [request_body_roundtrip] and
      [request_wire_roundtrip], [response_wire_roundtrip] (what is written is
      read back, for messages whose end can be found),
      [max_reader_limit], [client_redirects] (the loop ends, each request goes
      where the answer before sends it with just what belongs in it, no body
      left open), [useProxy_spec], [key_same_target],
      [body_signal], [transport_pool] (a connection is in one place at a time,
      whatever the schedule), [requests_in_order], [logging_transparent] and
      [names_unique].
    - The log: [session_ids_differ], [tracked_session].
    - Configuration and processes: [config_well_typed], [config_sources],
      [command_line_config], [compare_config], [server_boot], [accept_loop],
      [stats_auth], [network_state], [dial_outcome_bus].
    - Trying it out: [acceptance_answers] (each message once and in order),
      [condition_answers], [fail2work_calls], [chain_in_turn],
      [watch_in_order], [watch_completes], [cancel_is_final].
    - The C bindings: what each answers, and what it leaves on the C heap
      ([TestURL_spec], [TestURL_own_app], [AppIconFromDesktopId_spec],
      [CGetVersion_spec], [Stop_spec], [menu_entry_points]; the strings and
      objects that leak in [appSymbolicIconFromDesktopId_spec] and
      [Launch_spec]); the table of menu applications keeps the laws of
      [MenuLaws].
    - Behaviour that is probably not meant: [broker_blocks],
      [userid_notifications_lost], [unacked_notifications_lost],
      [hosts_shrink_panic], [shutdown_deadlock], [two_loops_one_connection],
      [deadline_on_closed_connection],
      [cookie_after_reset], [connectivity_stale_check], [poller_hangs],
      [waits_for_poller],
      [hook_files_leak], [watch_error_dropped], [proxy_error_bypassed],
      [useProxy_port_entry], [cancel_twice], [dead_connection_pooled],
      [broken_keep_places], [unknown_length_refused],
      [chunked_head_leaves_line], [no_content_body_left], [first_read_empty],
      [empty_chain_panics], [second_watch_crashes].

    ** Bounds and fuel

    [ServerSession.send_loop] has two rounds more than there are replies
    left: each round but the last consumes one. [ClientSession.loop_rounds]
    has one more than there are frames left: each consumes one, and without
    one the loop ends; [client_loop_conforms] shows it is never short.
    [ClientSession.connect_loop] has [leftToTry] rounds, one per host.
    [Redialer.solo] is given three steps per attempt ([redial_backoff]), and
    three suffice once stopped ([redialer_stop_terminates]); with the steps of a
    dial counted, fourteen ([keeper_stop_ends]).
    [Mbox.evict_loop] has one round per message. [Strconv.FormatInt] writes at
    most 13 digits, which every 64-bit number fits in
    ([ParseInt_FormatInt]). [Bufio.ReadSlice] has as many rounds as the buffer
    has bytes: each fill adds one or meets the end. The loops over chunks have
    rounds enough for every byte still to come ([Read_fuel], [ReadAll]). The
    redirect loop takes its rounds as an argument; ten are enough for the
    default policy ([client_redirects]).
    [PostalStart.redial] has three steps per attempt. The other recursions are
    structural, on the input, the script or the list of labels.

    ** What is not modelled

    the C libraries behind the bindings (their answers are parameters), and in
    the bindings finalizers, main loops and the installing of observers; the
    dump of goroutines on SIGQUIT; log output (beside the sessions' tracker) and
    the text forms of objects in it; the test suites, which are runs of the program,
    and the remaining doubles and helpers for tests, which hold fields or read
    files of the source tree; the run timeout of the acceptance command;
    constructors that only fill in fields, and getters. Of the HTTP client,
    TLS, net/url, the reader of MIME headers, multipart forms and gzip are
    parameters, and the reading of what is left of a small redirect body
    before it is closed is left out. [Answering] and [Reconnect] take a device
    whose own writes and database work, as [unacked_notifications_lost] says
    they must; [Reconnect] takes each connection from the handshake on, while
    the dialing before it is in [ClientSession], [Redialer] and [Keeper]. In
    [ServerSession] deadlines can always be set: the server's connection is
    closed by its own session only. In [Keeper] the deadlines that [start] sets on
    the connection it just made can be set too, and a dial that panics for want
    of hosts ([hosts_shrink_panic]) is not among the network's answers. *)

From stdpp Require Export base tactics option list list_numbers numbers fin_maps gmap strings.
From Stdlib Require Export Ascii Lia.

#[export] Set Default Goal Selector "!".

(** ** Scope of the development *)
Declare Scope push_scope.
Delimit Scope push_scope with push.

(** Shared databases: [len] rewrites lengths, [push] resolves the side
    conditions the components share. *)
Create HintDb push.

(** ** Outcomes of Go functions

    A Go function that returns [(A, error)] and may panic is modelled by
    [outcome E A]: a normal return, a returned error, or a panic (index or
    slice bounds out of range, nil dereference, explicit [panic(...)]). *)
Inductive outcome (E A : Type) : Type :=
| Ok (a : A)
| Err (e : E)
| Panic.
Arguments Ok {E A} _.
Arguments Err {E A} _.
Arguments Panic {E A}.

#[export] Instance outcome_ret E : MRet (outcome E) := fun _ a => Ok a.
#[export] Instance outcome_bind E : MBind (outcome E) := fun _ _ f m =>
  match m with Ok a => f a | Err e => Err e | Panic => Panic end.
#[export] Instance outcome_fmap E : FMap (outcome E) := fun _ _ f m =>
  match m with Ok a => Ok (f a) | Err e => Err e | Panic => Panic end.

Definition is_ok {E A} (o : outcome E A) : bool :=
  match o with Ok _ => true | _ => false end.

(** Stateful Go code: the state is threaded through, also past an error. *)
Definition st (S E A : Type) : Type := S → S * outcome E A.

#[export] Instance st_ret S E : MRet (st S E) := fun _ a s => (s, Ok a).
#[export] Instance st_bind S E : MBind (st S E) := fun _ _ f m s =>
  match m s with
  | (s', Ok a) => f a s'
  | (s', Err e) => (s', Err e)
  | (s', Panic) => (s', Panic)
  end.

Definition st_err {S E A} (e : E) : st S E A := λ s, (s, Err e).
Definition st_panic {S E A} : st S E A := λ s, (s, Panic).
(** [x, err := m; if err != nil { ... }]: the error becomes a value. *)
Definition st_try {S E E' A} (m : st S E A) : st S E' (A + E) := λ s,
  match m s with
  | (s', Ok a) => (s', Ok (inl a))
  | (s', Err e) => (s', Ok (inr e))
  | (s', Panic) => (s', Panic)
  end.

Lemma st_bind_Ok {S E A B} (m : st S E A) (f : A → st S E B) s s' a :
  m s = (s', Ok a) → (m ≫= f) s = f a s'.
Proof. intros Hm. unfold mbind, st_bind. by rewrite Hm. Qed.

Lemma st_try_Ok {S E E' A} (m : st S E A) s s' a :
  m s = (s', Ok a) → st_try (E' := E') m s = (s', Ok (inl a)).
Proof. intros Hm. unfold st_try. by rewrite Hm. Qed.

(** Hoare triples for it: [Q] after a normal return, [R] after an error
    ([Some e]) or a panic ([None]). *)
Definition triple {S E A} (P : S → Prop) (m : st S E A) (Q : A → S → Prop)
    (R : option E → S → Prop) : Prop :=
  ∀ s, P s →
  match m s with (s', Ok a) => Q a s' | (s', Err e) => R (Some e) s' | (s', Panic) => R None s' end.

Section triples.
Context {S E : Type}.
Implicit Types (P : S → Prop) (R : option E → S → Prop).

Lemma triple_ret {A} P (a : A) (Q : A → S → Prop) R :
  (∀ s, P s → Q a s) → triple (E := E) P (mret a) Q R.
Proof. intros HQ s Hs. by apply HQ. Qed.

Lemma triple_err {A} P (e : E) (Q : A → S → Prop) R :
  (∀ s, P s → R (Some e) s) → triple P (st_err e) Q R.
Proof. intros HR s Hs. by apply HR. Qed.

Lemma triple_panic {A} P (Q : A → S → Prop) R :
  (∀ s, P s → R None s) → triple (E := E) P st_panic Q R.
Proof. intros HR s Hs. by apply HR. Qed.

Lemma triple_bind {A B} P (m : st S E A) (f : A → st S E B) Q R T :
  triple P m Q R → (∀ a, triple (Q a) (f a) T R) → triple P (m ≫= f) T R.
Proof.
  intros Hm Hf s Hs. specialize (Hm s Hs). unfold mbind, st_bind.
  destruct (m s) as [s' [a|e|]]; [by apply Hf|done..].
Qed.

Lemma triple_weaken {A} P P' (m : st S E A) (Q Q' : A → S → Prop) R R' :
  triple P' m Q' R' → (∀ s, P s → P' s) → (∀ a s, Q' a s → Q a s) →
  (∀ e s, R' e s → R e s) → triple P m Q R.
Proof.
  intros Hm HP HQ HR s Hs. specialize (Hm s (HP s Hs)). destruct (m s) as [s' [a|e|]]; auto.
Qed.

Lemma triple_pre {A} P P' (m : st S E A) (Q : A → S → Prop) R :
  triple P' m Q R → (∀ s, P s → P' s) → triple P m Q R.
Proof. intros Hm HP s Hs. by apply Hm, HP. Qed.

Lemma triple_fail {A} P (m : st S E A) (Q : A → S → Prop) R R' :
  triple P m Q R' → (∀ e s, R' e s → R e s) → triple P m Q R.
Proof. intros Hm HR. by eapply triple_weaken. Qed.

(** A hypothesis that does not depend on the state. *)
Lemma triple_pure {A} (X : Prop) P (m : st S E A) Q R :
  (X → triple P m Q R) → triple (λ s, X ∧ P s) m Q R.
Proof. intros Hm s [HX Hs]. by apply Hm. Qed.

Lemma triple_or {A} P P' (m : st S E A) Q R :
  triple P m Q R → triple P' m Q R → triple (λ s, P s ∨ P' s) m Q R.
Proof. intros Hm Hm' s [Hs|Hs]; [by apply Hm|by apply Hm']. Qed.
End triples.

Lemma triple_try {S E E' A} (P : S → Prop) (m : st S E' A) (Q : A → S → Prop)
    (R : option E' → S → Prop) (R' : option E → S → Prop) :
  triple P m Q R → (∀ s, R None s → R' None s) →
  triple P (st_try m) (λ r s, match r with inl a => Q a s | inr e => R (Some e) s end) R'.
Proof.
  intros Hm HR s Hs. specialize (Hm s Hs). unfold st_try.
  destruct (m s) as [s' [a|e|]]; auto.
Qed.

(** Tactic: case analysis on every scrutinee of the goal, then close the
    easy branches. *)
Ltac branch :=
  repeat (case_match || case_decide || case_bool_decide); simplify_eq/=; try done.

Lemma bind_Ok {E A B} (m : outcome E A) (f : A → outcome E B) b :
  (m ≫= f) = Ok b ↔ ∃ a, m = Ok a ∧ f a = Ok b.
Proof. destruct m; cbn; naive_solver. Qed.

(** ** Machine integers

    [uN w] and [sN w] are the values a [w]-bit unsigned, respectively
    two's-complement signed, Go integer takes when the exact result is [z]. *)
Definition uN (w z : Z) : Z := z `mod` 2 ^ w.
Definition sN (w z : Z) : Z := (z + 2 ^ (w - 1)) `mod` 2 ^ w - 2 ^ (w - 1).
Abbreviation u16 := (uN 16).
Abbreviation u32 := (uN 32).
Abbreviation u64 := (uN 64).
Abbreviation i32 := (sN 32).
Abbreviation i64 := (sN 64).

Definition in_sN (w z : Z) : Prop := (- 2 ^ (w - 1) ≤ z < 2 ^ (w - 1))%Z.

Section words.
Context (w : Z) (Hw : (0 < w)%Z).
Local Open Scope Z_scope.

Lemma pow2_double : 2 ^ w = 2 * 2 ^ (w - 1).
Proof using Hw. rewrite <- Z.pow_succ_r by lia. f_equal. lia. Qed.

Lemma pow2_half_pos : 0 < 2 ^ (w - 1).
Proof using Hw. apply Z.pow_pos_nonneg; lia. Qed.

Lemma uN_range z : 0 ≤ uN w z < 2 ^ w.
Proof using Hw. apply Z.mod_pos_bound, Z.pow_pos_nonneg; lia. Qed.

Lemma uN_small z : 0 ≤ z < 2 ^ w → uN w z = z.
Proof. apply Z.mod_small. Qed.

Lemma sN_range z : in_sN w (sN w z).
Proof using Hw.
  unfold in_sN, sN. pose proof pow2_half_pos. pose proof pow2_double.
  pose proof (Z.mod_pos_bound (z + 2 ^ (w - 1)) (2 ^ w)). lia.
Qed.

Lemma sN_small z : in_sN w z → sN w z = z.
Proof using Hw.
  unfold in_sN, sN. intros. pose proof pow2_double.
  rewrite Z.mod_small; lia.
Qed.

(** Two's-complement results only depend on the class modulo [2^w]. *)
Lemma sN_cong a b : a `mod` 2 ^ w = b `mod` 2 ^ w → sN w a = sN w b.
Proof.
  intros E. unfold sN. f_equal.
  by rewrite <- (Zplus_mod_idemp_l a), E, Zplus_mod_idemp_l.
Qed.

Lemma sN_mod z : sN w z `mod` 2 ^ w = z `mod` 2 ^ w.
Proof. unfold sN. rewrite Zminus_mod_idemp_l. f_equal. lia. Qed.

Lemma sN_add_l a b : sN w (sN w a + b) = sN w (a + b).
Proof.
  apply sN_cong. by rewrite <- Zplus_mod_idemp_l, sN_mod, Zplus_mod_idemp_l.
Qed.

Lemma sN_sub_l a b : sN w (sN w a - b) = sN w (a - b).
Proof. unfold Z.sub. apply sN_add_l. Qed.
End words.

#[export] Hint Resolve uN_range sN_range : push.

(** ** Lists *)
Section lists.
Context {A : Type}.
Implicit Types l k : list A.

Lemma take_drop_split n l : l = take n l ++ drop n l.
Proof. by rewrite take_drop. Qed.

Lemma filter_all (P : A → Prop) `{∀ x, Decision (P x)} l :
  Forall P l → filter P l = l.
Proof. induction 1; cbn; [done|]. rewrite decide_True by done. by f_equal. Qed.

Lemma filter_none (P : A → Prop) `{∀ x, Decision (P x)} l :
  Forall (λ x, ¬ P x) l → filter P l = [].
Proof. induction 1; cbn; [done|]. by rewrite decide_False. Qed.

Lemma filter_Forall (P Q : A → Prop) `{∀ x, Decision (P x)} l :
  Forall Q l → Forall Q (filter P l).
Proof. rewrite !Forall_forall. intros HQ x Hx%list_elem_of_filter. naive_solver. Qed.

Lemma filter_iff (P Q : A → Prop) `{∀ x, Decision (P x), ∀ x, Decision (Q x)} l :
  Forall (λ x, P x ↔ Q x) l → filter P l = filter Q l.
Proof.
  induction 1 as [|x l Hx _ IH]; [done|]. rewrite !filter_cons, IH.
  by repeat case_decide; try tauto.
Qed.
End lists.

Fixpoint sum_Z {A} (f : A → Z) (l : list A) : Z :=
  match l with [] => 0 | x :: l => f x + sum_Z f l end.

Lemma sum_Z_app {A} (f : A → Z) l k : sum_Z f (l ++ k) = (sum_Z f l + sum_Z f k)%Z.
Proof. induction l; cbn; lia. Qed.

Lemma sum_Z_nonneg {A} (f : A → Z) l : (∀ x, 0 ≤ f x)%Z → (0 ≤ sum_Z f l)%Z.
Proof. intros Hf. induction l as [|x l IH]; cbn; [done|]. specialize (Hf x). lia. Qed.

#[export] Hint Resolve sum_Z_nonneg : push.

(** ** Go slices

    A slice is a window of a backing array; [cap] runs to the end of the
    array. [x[i:j]] is bounds-checked against the capacity, not the length,
    so it can extend a window that was shrunk before. *)
Record slice (A : Type) := Slice { s_arr : list A; s_off : nat; s_len : nat }.
Arguments Slice {A} _ _ _.
Arguments s_arr {A} _.
Arguments s_off {A} _.
Arguments s_len {A} _.

Section slices.
Context {A : Type}.
Implicit Types s : slice A.

Definition s_cap s : nat := length (s_arr s) - s_off s.
Definition s_elems s : list A := take (s_len s) (drop (s_off s) (s_arr s)).

(** [s[i:j]] *)
Definition reslice s (i j : nat) : option (slice A) :=
  if bool_decide (i ≤ j ∧ j ≤ s_cap s)
  then Some (Slice (s_arr s) (s_off s + i) (j - i)) else None.

(** A freshly made slice that holds exactly [l]. *)
Definition s_of_list (l : list A) : slice A := Slice l 0 (length l).

Definition s_wf s : Prop := s_len s ≤ s_cap s.

Lemma s_of_list_wf l : s_wf (s_of_list l).
Proof. unfold s_wf, s_cap; cbn. lia. Qed.

Lemma s_elems_of_list l : s_elems (s_of_list l) = l.
Proof. unfold s_elems; cbn. by rewrite drop_0, firstn_all. Qed.

Lemma length_s_elems s : s_wf s → length (s_elems s) = s_len s.
Proof.
  unfold s_wf, s_cap, s_elems. intros. rewrite length_take, length_drop. lia.
Qed.
End slices.
#[export] Hint Resolve s_of_list_wf : push.

(** ** Strings

    Go strings and byte slices are sequences of 8-bit values: [string]. *)
Abbreviation len s := (Z.of_nat (String.length s)).

(** The double-quote character, and a JSON string literal without escapes. *)
Definition dquote : string := String (ascii_of_nat 34) EmptyString.
Definition quoted (s : string) : string := dquote +:+ s +:+ dquote.

Fixpoint str_drop (n : nat) (s : string) : string :=
  match n, s with
  | S n, String _ s => str_drop n s
  | _, _ => s
  end.

(** [strings.HasPrefix] is [String.prefix]; [strings.HasSuffix] goes through
    the reversed list of characters. *)
Definition has_prefix (s p : string) : bool := String.prefix p s.

(** First occurrence of [c]: the text before it and the text after it. *)
Fixpoint cut_at (c : ascii) (s : string) : option (string * string) :=
  match s with
  | EmptyString => None
  | String a s' =>
      if decide (a = c) then Some (EmptyString, s')
      else match cut_at c s' with
           | Some (l, r) => Some (String a l, r)
           | None => None
           end
  end.

(** [strings.Split(s, c)] for a one-character separator. *)
Fixpoint split_on (c : ascii) (s : string) : list string :=
  match s with
  | EmptyString => [EmptyString]
  | String a s' =>
      if decide (a = c) then EmptyString :: split_on c s'
      else match split_on c s' with
           | h :: t => String a h :: t
           | [] => [String a EmptyString]
           end
  end.

(** [strings.SplitN(s, c, 2)] *)
Definition splitN2 (c : ascii) (s : string) : list string :=
  match cut_at c s with Some (l, r) => [l; r] | None => [s] end.

Fixpoint in_string (c : ascii) (s : string) : bool :=
  match s with
  | EmptyString => false
  | String a s' => bool_decide (a = c) || in_string c s'
  end.

Section strings.
  Implicit Types s : string.
#[local] Arguments String.append !s1 s2 / : simpl nomatch.

Lemma str_app_nil s : "" +:+ s = s.
Proof. done. Qed.

Lemma str_app_cons a s1 s2 : String a s1 +:+ s2 = String a (s1 +:+ s2).
Proof. done. Qed.

Lemma str_app_assoc s1 s2 s3 : s1 +:+ (s2 +:+ s3) = (s1 +:+ s2) +:+ s3.
Proof. induction s1; cbn; [done|]. by f_equal. Qed.

Lemma str_app_nil_r s : s +:+ "" = s.
Proof. induction s; cbn; [done|]. by f_equal. Qed.

Lemma length_str_app s1 s2 :
  String.length (s1 +:+ s2) = String.length s1 + String.length s2.
Proof. induction s1; cbn; [done|]. by f_equal. Qed.

Lemma prefix_app s1 s2 : String.prefix s1 (s1 +:+ s2) = true.
Proof. induction s1; cbn; [by destruct s2|]. by destruct (ascii_dec _ _). Qed.

Lemma str_drop_app s1 s2 : str_drop (String.length s1) (s1 +:+ s2) = s2.
Proof. induction s1; cbn; [by destruct s2|]. done. Qed.

Lemma prefix_inv p s :
  String.prefix p s = true → s = p +:+ str_drop (String.length p) s.
Proof.
  revert s. induction p as [|a p IH]; intros [|b s]; cbn; try done.
  destruct (ascii_dec a b) as [->|]; [|done]. intros H'. f_equal. by apply IH.
Qed.

Lemma cut_at_app c s1 s2 :
  in_string c s1 = false → cut_at c (s1 +:+ String c s2) = Some (s1, s2).
Proof.
  induction s1 as [|a s1 IH]; cbn; [by rewrite decide_True|].
  intros [Ha Hs]%orb_false_iff. apply bool_decide_eq_false in Ha.
  by rewrite decide_False, (IH Hs).
Qed.

Lemma cut_at_Some c s l r :
  cut_at c s = Some (l, r) → s = l +:+ String c r ∧ in_string c l = false.
Proof.
  revert l r. induction s as [|a s IH]; intros l r; cbn; [done|].
  case_decide; [intros [= <- <-]; by subst|].
  destruct (cut_at c s) as [[l' r']|] eqn:E; [|done].
  intros [= <- <-]. destruct (IH l' r' eq_refl) as [-> Hl]. cbn.
  by rewrite bool_decide_eq_false_2, Hl.
Qed.

Lemma cut_at_None c s : cut_at c s = None ↔ in_string c s = false.
Proof.
  induction s as [|a s IH]; cbn; [done|].
  case_decide; [rewrite bool_decide_eq_true_2 by done; by split|].
  rewrite bool_decide_eq_false_2 by done. cbn. rewrite <- IH.
  destruct (cut_at c s) as [[??]|]; naive_solver.
Qed.

Lemma split_on_none c s : in_string c s = false → split_on c s = [s].
Proof.
  induction s as [|a s IH]; cbn; [done|].
  intros [Ha Hs]%orb_false_iff. apply bool_decide_eq_false in Ha.
  by rewrite decide_False, (IH Hs).
Qed.

Lemma split_on_app c s1 s2 :
  in_string c s1 = false → split_on c (s1 +:+ String c s2) = s1 :: split_on c s2.
Proof.
  induction s1 as [|a s1 IH]; cbn; [by rewrite decide_True|].
  intros [Ha Hs]%orb_false_iff. apply bool_decide_eq_false in Ha.
  by rewrite decide_False, (IH Hs).
Qed.

Lemma in_string_app c s1 s2 :
  in_string c (s1 +:+ s2) = in_string c s1 || in_string c s2.
Proof. induction s1; cbn; [done|]. by rewrite IHs1, orb_assoc. Qed.
End strings.

#[export] Hint Rewrite @length_app @length_take @length_drop @length_fmap
  length_str_app : len.
