(* ===== verification/Base64.v ===== *)
(** encoding/base64 [StdEncoding] as server/store/inmemory.go and
    server/api/handlers.go use it: [EncodeToString] and [DecodeString] of the
    Go standard library (padded, not strict about trailing bits, carriage
    returns and newlines ignored on input). *)

From S2P Require Import Prelude.

Local Open Scope Z_scope.

Definition byte_val (a : ascii) : Z := Z.of_N (N_of_ascii a).
Definition val_byte (z : Z) : ascii := ascii_of_N (Z.to_N (z `mod` 256)).

Lemma byte_val_range a : 0 ≤ byte_val a < 256.
Proof. unfold byte_val. pose proof (N_ascii_bounded a). lia. Qed.

Lemma val_byte_val a : val_byte (byte_val a) = a.
Proof.
  unfold val_byte. rewrite Z.mod_small by apply byte_val_range.
  unfold byte_val. by rewrite N2Z.id, ascii_N_embedding.
Qed.

(** The alphabet A-Z a-z 0-9 + / *)
Definition b64_char (v : Z) : ascii :=
  if v <? 26 then val_byte (65 + v)
  else if v <? 52 then val_byte (97 + (v - 26))
  else if v <? 62 then val_byte (48 + (v - 52))
  else if v =? 62 then "+" else "/".

Definition b64_val (a : ascii) : option Z :=
  let c := byte_val a in
  if (65 <=? c) && (c <=? 90) then Some (c - 65)
  else if (97 <=? c) && (c <=? 122) then Some (c - 97 + 26)
  else if (48 <=? c) && (c <=? 57) then Some (c - 48 + 52)
  else if c =? 43 then Some 62
  else if c =? 47 then Some 63
  else None.

Fixpoint EncodeToString (s : string) : string :=
  match s with
  | EmptyString => EmptyString
  | String a EmptyString =>
      let a := byte_val a in
      String (b64_char (a / 4)) (String (b64_char (a `mod` 4 * 16)) "==")
  | String a (String b EmptyString) =>
      let a := byte_val a in let b := byte_val b in
      String (b64_char (a / 4)) (String (b64_char (a `mod` 4 * 16 + b / 16))
        (String (b64_char (b `mod` 16 * 4)) "="))
  | String a (String b (String c s)) =>
      let a := byte_val a in let b := byte_val b in let c := byte_val c in
      String (b64_char (a / 4)) (String (b64_char (a `mod` 4 * 16 + b / 16))
        (String (b64_char (b `mod` 16 * 4 + c / 64))
          (String (b64_char (c `mod` 64)) (EncodeToString s))))
  end.

(** Quanta of four characters; padding is only legal in the last one. *)
Fixpoint decode_quanta (s : string) : option string :=
  match s with
  | EmptyString => Some EmptyString
  | String a (String b (String c (String d s))) =>
      va ← b64_val a; vb ← b64_val b;
      let x := val_byte (va * 4 + vb / 16) in
      if decide (c = "="%char) then
        if decide (d = "="%char) then
          match s with EmptyString => Some (String x EmptyString) | _ => None end
        else None
      else
        vc ← b64_val c;
        let y := val_byte (vb `mod` 16 * 16 + vc / 4) in
        if decide (d = "="%char) then
          match s with EmptyString => Some (String x (String y EmptyString)) | _ => None end
        else
          vd ← b64_val d;
          let z := val_byte (vc `mod` 4 * 64 + vd) in
          rest ← decode_quanta s;
          Some (String x (String y (String z rest)))
  | _ => None
  end.

Definition is_newline (a : ascii) : bool :=
  let c := byte_val a in (c =? 10) || (c =? 13).

Fixpoint strip_newlines (s : string) : string :=
  match s with
  | EmptyString => EmptyString
  | String a s => if is_newline a then strip_newlines s else String a (strip_newlines s)
  end.

Definition DecodeString (s : string) : option string := decode_quanta (strip_newlines s).

(** ** Round trip *)

Lemma b64_sextet v :
  0 ≤ v < 64 →
  b64_val (b64_char v) = Some v ∧ b64_char v ≠ "="%char ∧ is_newline (b64_char v) = false.
Proof.
  intros Hv.
  assert (∃ n : nat, (n < 64)%nat ∧ v = Z.of_nat n) as (n & Hn & ->)
    by (exists (Z.to_nat v); lia).
  clear Hv. do 64 (destruct n as [|n]; [by vm_compute|]). lia.
Qed.

Lemma b64_val_char v : 0 ≤ v < 64 → b64_val (b64_char v) = Some v.
Proof. intros H. by apply b64_sextet in H as (? & _). Qed.
Lemma b64_char_pad v : 0 ≤ v < 64 → b64_char v ≠ "="%char.
Proof. intros H. by apply b64_sextet in H as (_ & ? & _). Qed.
Lemma b64_char_nl v : 0 ≤ v < 64 → is_newline (b64_char v) = false.
Proof. intros H. by apply b64_sextet in H as (_ & _ & ?). Qed.

(** Every sextet the encoder computes is below 64. *)
Ltac sextet :=
  repeat match goal with
  | |- context [byte_val ?a] =>
      lazymatch goal with
      | _ : 0 ≤ byte_val a < 256 |- _ => fail
      | _ => pose proof (byte_val_range a)
      end
  end; Z.div_mod_to_equations; lia.

Lemma val_byte_id z a : z = byte_val a → val_byte z = a.
Proof. intros ->. apply val_byte_val. Qed.

(** Induction by groups of three bytes. *)
Lemma string_ind3 (P : string → Prop) :
  P "" → (∀ a, P (String a "")) → (∀ a b, P (String a (String b ""))) →
  (∀ a b c s, P s → P (String a (String b (String c s)))) → ∀ s, P s.
Proof.
  intros H0 H1 H2 H3. fix IH 1.
  intros [|a [|b [|c s]]]; [done|by apply H1|by apply H2|apply H3, IH].
Qed.

Lemma encode_no_newline s : strip_newlines (EncodeToString s) = EncodeToString s.
Proof.
  induction s as [|a|a b|a b c s IH] using string_ind3; cbn [EncodeToString strip_newlines].
  - done.
  - by rewrite !b64_char_nl by sextet.
  - by rewrite !b64_char_nl by sextet.
  - by rewrite !b64_char_nl, IH by sextet.
Qed.

Lemma decode_quanta_encode s : decode_quanta (EncodeToString s) = Some s.
Proof.
  induction s as [|a|a b|a b c s IH] using string_ind3; cbn [EncodeToString decode_quanta].
  - done.
  - rewrite !b64_val_char by sextet. cbn. do 2 f_equal. apply val_byte_id. sextet.
  - rewrite !b64_val_char by sextet. cbn.
    rewrite decide_False by (apply b64_char_pad; sextet).
    do 2 f_equal; [|f_equal]; apply val_byte_id; sextet.
  - rewrite !b64_val_char by sextet. cbn.
    rewrite !decide_False by (apply b64_char_pad; sextet).
    rewrite IH. cbn. do 2 f_equal; [|f_equal; [|f_equal]]; apply val_byte_id; sextet.
Qed.

Lemma DecodeString_EncodeToString s : DecodeString (EncodeToString s) = Some s.
Proof. unfold DecodeString. by rewrite encode_no_newline, decode_quanta_encode. Qed.
#[export] Hint Resolve DecodeString_EncodeToString : push.
