(* ===== verification/Protocol.v ===== *)
(** The wire protocol: protocol/protocol.go (framing of JSON messages with a
    big-endian uint16 length) and protocol/messages.go (the message types and
    the splitting of BROADCAST and NOTIFICATIONS messages).

    - Module [Wire]: [ReadWireFormatVersion], [ReadMessage], [WriteMessage].
      encoding/json is a parameter of the section ([encode], [unmarshal]).
    - Module [Msg]: the message structs, [Split], [Reset], [ExtractPayloads].
    - Module [SplitSpec]: the greedy chunking that [Split] implements.
    - Module [Encoding]: the JSON text of the split messages, escapes included. *)

From stdpp Require Import pretty.
From S2P Require Import Prelude.

Local Open Scope Z_scope.

Abbreviation bytes := (list ascii).

Definition byte_of_Z (z : Z) : ascii := ascii_of_N (Z.to_N (z `mod` 256)).
Definition Z_of_byte (a : ascii) : Z := Z.of_N (N_of_ascii a).

Lemma Z_of_byte_of_Z z : Z_of_byte (byte_of_Z z) = z `mod` 256.
Proof.
  unfold Z_of_byte, byte_of_Z. pose proof (Z.mod_pos_bound z 256 eq_refl).
  rewrite N_ascii_embedding; lia.
Qed.

Module Wire.
Section wire.
(** [json.Encoder.Encode] (without the newline it appends; [None]: it
    returns an error) and [json.Unmarshal] ([None]: it returns an error)
    for the message type at hand. *)
Context {M : Type} (encode : M → option bytes) (unmarshal : bytes → option M).

(** The connection: the bytes still to be read before end of file, the
    bytes written so far, and whether [Write] fails. *)
Record conn := Conn { c_in : bytes; c_out : bytes; c_werr : bool }.

Inductive wire_err := EOF | WriteFailed | BadJSON.

Definition set_in (c : conn) (i : bytes) : conn := Conn i (c_out c) (c_werr c).

(** [io.CopyN(buf, conn, n)]: short input is consumed and reported. *)
Definition copyN (c : conn) (n : Z) : outcome wire_err bytes * conn :=
  let n := Z.to_nat n in
  if bool_decide (n ≤ length (c_in c))%nat
  then (Ok (take n (c_in c)), set_in c (drop n (c_in c)))
  else (Err EOF, set_in c []).

(** [binary.BigEndian.Uint16] and [PutUint16] on the first two bytes. *)
Definition be_uint16 (b : bytes) : Z :=
  match b with hi :: lo :: _ => Z_of_byte hi * 256 + Z_of_byte lo | _ => 0 end.
Definition put_uint16 (v : Z) (b : bytes) : bytes :=
  match b with
  | _ :: _ :: b => byte_of_Z (v / 256) :: byte_of_Z v :: b
  | _ => b
  end.

Definition conn_write (c : conn) (b : bytes) : outcome wire_err unit * conn :=
  if c_werr c then (Err WriteFailed, c)
  else (Ok (), Conn (c_in c) (c_out c ++ b) (c_werr c)).

Definition ReadWireFormatVersion (c : conn) : outcome wire_err Z * conn :=
  match c_in c with
  | [] => (Err EOF, c)
  | b :: rest => (Ok (Z_of_byte b), set_in c rest)
  end.

Definition ProtocolWireVersion : Z := 0.

Definition ReadMessage (c : conn) : outcome wire_err M * conn :=
  match copyN c 2 with
  | (Ok hdr, c) =>
      let length := be_uint16 hdr in
      match copyN c length with
      | (Ok body, c) =>
          (match unmarshal body with Some m => Ok m | None => Err BadJSON end, c)
      | (Err e, c) => (Err e, c)
      | (Panic, c) => (Panic, c)
      end
  | (Err e, c) => (Err e, c)
  | (Panic, c) => (Panic, c)
  end.

Definition newline : ascii := ascii_of_N 10.

Definition WriteMessage (c : conn) (msg : M) : outcome wire_err unit * conn :=
  match encode msg with
  | None => (Panic, c)
  | Some body =>
      let buffer := [zero; zero] ++ body ++ [newline] in
      let msgLen := Z.of_nat (length buffer) - 3 in
      let toWrite := put_uint16 (u16 msgLen) buffer in
      conn_write c (take (Z.to_nat (msgLen + 2)) toWrite)
  end.

(** Sequences of messages over one connection. *)
Fixpoint write_all (c : conn) (msgs : list M) : outcome wire_err unit * conn :=
  match msgs with
  | [] => (Ok (), c)
  | m :: msgs => match WriteMessage c m with
                 | (Ok _, c) => write_all c msgs
                 | r => r
                 end
  end.

Fixpoint read_all (c : conn) (n : nat) : outcome wire_err (list M) * conn :=
  match n with
  | O => (Ok [], c)
  | S n => match ReadMessage c with
           | (Ok m, c) => match read_all c n with
                          | (Ok ms, c) => (Ok (m :: ms), c)
                          | r => r
                          end
           | (Err e, c) => (Err e, c)
           | (Panic, c) => (Panic, c)
           end
  end.

(** What one written message looks like on the wire. *)
Definition frame (body : bytes) : bytes :=
  byte_of_Z (u16 (Z.of_nat (length body)) / 256)
  :: byte_of_Z (u16 (Z.of_nat (length body))) :: body.
#[local] Arguments frame : simpl never.

Lemma be_uint16_frame body :
  be_uint16 (take 2 (frame body)) = Z.of_nat (length body) `mod` 65536.
Proof.
  unfold frame. cbn [take be_uint16]. rewrite !Z_of_byte_of_Z. unfold uN.
  change (2 ^ 16) with 65536. set (z := Z.of_nat _).
  pose proof (Z.mod_pos_bound z 65536 eq_refl).
  rewrite (Z.mod_small (_ / 256) 256).
  - rewrite Z.mul_comm, <- Z.div_mod; lia.
  - split; [apply Z.div_pos; lia|]. apply Z.div_lt_upper_bound; lia.
Qed.

Lemma WriteMessage_frame c m body :
  encode m = Some body →
  WriteMessage c m = conn_write c (frame body).
Proof.
  intros E. unfold WriteMessage. rewrite E. f_equal.
  cbn [app length put_uint16].
  replace (Z.of_nat (S (S (length (body ++ [newline])))) - 3)
    with (Z.of_nat (length body)) by (rewrite length_app; cbn [length]; lia).
  replace (Z.to_nat (Z.of_nat (length body) + 2)) with (S (S (length body))) by lia.
  cbn [take]. unfold frame. do 2 f_equal. by rewrite take_app_length.
Qed.

Lemma copyN_app c n b rest :
  c_in c = b ++ rest → Z.to_nat n = length b →
  copyN c n = (Ok b, set_in c rest).
Proof.
  intros E Hn. unfold copyN. rewrite E, Hn, bool_decide_eq_true_2.
  - by rewrite take_app_length, drop_app_length.
  - rewrite length_app. lia.
Qed.

(** Reading one frame, whatever the length of its body: the reader takes
    the length modulo 2^16. *)
Lemma ReadMessage_frame c body rest :
  c_in c = frame body ++ rest →
  let k := Z.to_nat (Z.of_nat (length body) `mod` 65536) in
  ReadMessage c =
    (match unmarshal (take k body) with Some m => Ok m | None => Err BadJSON end,
     set_in c (drop k body ++ rest)).
Proof.
  intros E k. unfold ReadMessage.
  rewrite (copyN_app c 2 (take 2 (frame body)) (body ++ rest)) by done.
  rewrite be_uint16_frame.
  assert (k ≤ length body)%nat as Hk.
  { subst k. pose proof (Z.mod_le (Z.of_nat (length body)) 65536). lia. }
  rewrite (copyN_app _ _ (take k body) (drop k body ++ rest)); [done|..].
  - cbn. by rewrite app_assoc, take_drop.
  - rewrite length_take. fold k. lia.
Qed.

Definition sendable (m : M) : Prop :=
  ∃ b, encode m = Some b ∧ unmarshal b = Some m ∧ Z.of_nat (length b) < 65536.

Lemma ReadMessage_sendable c m b rest :
  encode m = Some b → unmarshal b = Some m → Z.of_nat (length b) < 65536 →
  c_in c = frame b ++ rest →
  ReadMessage c = (Ok m, set_in c rest).
Proof.
  intros _ Hu Hl E. rewrite (ReadMessage_frame c b rest E).
  rewrite Z.mod_small, Nat2Z.id by lia.
  by rewrite firstn_all, drop_all, Hu.
Qed.

Lemma write_all_frames c msgs bs :
  c_werr c = false → Forall2 (λ m b, encode m = Some b) msgs bs →
  write_all c msgs =
    (Ok (), Conn (c_in c) (c_out c ++ concat (frame <$> bs)) false).
Proof.
  intros Hw H. revert c Hw. induction H as [|m b msgs bs E _ IH]; intros c Hw.
  - cbn. destruct c; cbn in *. by rewrite Hw, app_nil_r.
  - cbn [write_all]. rewrite (WriteMessage_frame c m b E).
    unfold conn_write. rewrite Hw. rewrite IH by done. cbn.
    by rewrite app_assoc.
Qed.

Lemma read_all_frames msgs bs : Forall2 (λ m b,
    encode m = Some b ∧ unmarshal b = Some m ∧ Z.of_nat (length b) < 65536) msgs bs →
  ∀ c rest, c_in c = concat (frame <$> bs) ++ rest →
  read_all c (length msgs) = (Ok msgs, set_in c rest).
Proof.
  induction 1 as [|m b msgs bs (He & Hu & Hl) _ IH]; intros c rest E.
  - cbn in *. subst. by destruct c.
  - cbn [length read_all].
    erewrite (ReadMessage_sendable c m b (concat (frame <$> bs) ++ rest)); [|done..|].
    + by erewrite IH.
    + rewrite E. cbn. by rewrite app_assoc.
Qed.
End wire.
Arguments conn : clear implicits.
End Wire.

(** JSON values as Go's [interface{}] holds them after [json.Unmarshal]. A
    number is a float64, written as the dyadic [JNum m e] = m * 2^e. *)
Inductive jvalue :=
| JNull
| JBool (b : bool)
| JNum (m e : Z)
| JStr (s : string)
| JArr (l : list jvalue)
| JObj (l : list (string * jvalue)).

Module Msg.

(** System channel id: the shortened form of the nil UUID. *)
Definition SystemChannelId : string := "0".

Record ConnectMsg := {
  cm_Type : string;
  cm_ClientVer : string;
  cm_DeviceId : string;
  cm_Authorization : string;
  cm_Cookie : string;
  cm_Info : gmap string jvalue;
  cm_Levels : gmap string Z
}.

Record ConnAckMsg := { ca_Type : string; ca_PingInterval : string }.

Record ConnBrokenMsg := { cb_Type : string; cb_Reason : string }.
Record ConnWarnMsg := { cw_Type : string; cw_Reason : string }.
Record SetParamsMsg := { sp_Type : string; sp_SetCookie : string }.
Record PingPongMsg := { pp_Type : string }.
Record AckMsg := { ack_Type : string }.

Definition BrokenHostMismatch : string := "host-mismatch".
Definition WarnUnauthorized : string := "unauthorized".

(** The oneway messages: [Split] is immediately done, [OnewayContinue] says
    whether the session goes on. *)
Inductive OnewayMsg :=
| ConnBroken (m : ConnBrokenMsg)
| ConnWarn (m : ConnWarnMsg)
| SetParams (m : SetParamsMsg).

Definition Oneway_Split (m : OnewayMsg) : bool :=
  match m with ConnBroken _ | ConnWarn _ | SetParams _ => true end.

Definition OnewayContinue (m : OnewayMsg) : bool :=
  match m with ConnBroken _ => false | ConnWarn _ => true | SetParams _ => true end.

Definition maxPayloadSize : Z := 62 * 1024.

(** A single unicast notification. *)
Record Notification := { AppId : string; MsgId : string; Payload : string }.

#[export] Instance Notification_eq_dec : EqDecision Notification.
Proof. solve_decision. Defined.

(** [json.Marshal(Notification{})]: no string needs escaping and the nil
    payload is [null]. *)
Definition marshal_empty_notification : string :=
  "{" +:+ quoted "A" +:+ ":" +:+ quoted "" +:+ "," +:+ quoted "M" +:+ ":" +:+
  quoted "" +:+ "," +:+ quoted "P" +:+ ":null}".

Definition notificationOverhead : Z := len marshal_empty_notification - 4.

(** The loop shared by the two [Split] methods: the index of the first
    element with which the accumulated size exceeds the maximum. *)
Fixpoint split_scan {A} (sizeof : A → Z) (l : list A) (size : Z) (i : nat) : option nat :=
  match l with
  | [] => None
  | x :: l =>
      let size := size + sizeof x in
      if maxPayloadSize <? size then Some i else split_scan sizeof l size (S i)
  end.

Record BroadcastMsg := {
  b_Type : string;
  b_AppId : string;
  b_ChanId : string;
  b_TopLevel : Z;
  b_Payloads : slice string;
  b_splitting : nat
}.

(** [None]: a slice expression is out of range (panic). *)
Definition BroadcastMsg_Split (m : BroadcastMsg) : option (bool * BroadcastMsg) :=
  '(prevTop, m) ←
    (if bool_decide (b_splitting m = 0%nat)
     then Some (i64 (b_TopLevel m - Z.of_nat (s_len (b_Payloads m))), m)
     else
       let prevTop := b_TopLevel m in
       P ← reslice (b_Payloads m) (s_len (b_Payloads m)) (b_splitting m);
       Some (prevTop,
         {| b_Type := b_Type m; b_AppId := b_AppId m; b_ChanId := b_ChanId m;
            b_TopLevel := i64 (prevTop + Z.of_nat (s_len P));
            b_Payloads := P; b_splitting := b_splitting m |}));
  let payloads := b_Payloads m in
  match split_scan (λ p, len p) (s_elems payloads) 0 0 with
  | Some i =>
      P ← reslice payloads 0 i;
      Some (false,
        {| b_Type := b_Type m; b_AppId := b_AppId m; b_ChanId := b_ChanId m;
           b_TopLevel := i64 (prevTop + Z.of_nat i);
           b_Payloads := P; b_splitting := s_len payloads |})
  | None => Some (true, m)
  end.

Definition BroadcastMsg_Reset (m : BroadcastMsg) : BroadcastMsg :=
  {| b_Type := "broadcast"; b_AppId := b_AppId m; b_ChanId := b_ChanId m;
     b_TopLevel := b_TopLevel m; b_Payloads := b_Payloads m; b_splitting := 0 |}.

Record NotificationsMsg := {
  n_Type : string;
  n_Notifications : slice Notification;
  n_splitting : nat
}.

Definition NotificationsMsg_Reset (m : NotificationsMsg) : NotificationsMsg :=
  {| n_Type := "notifications"; n_Notifications := n_Notifications m; n_splitting := 0 |}.

Definition notification_size (notif : Notification) : Z :=
  len (Payload notif) + len (AppId notif) + len (MsgId notif) + notificationOverhead.

Definition NotificationsMsg_Split (m : NotificationsMsg) : option (bool * NotificationsMsg) :=
  m ← (if bool_decide (n_splitting m = 0%nat) then Some m
       else N ← reslice (n_Notifications m) (s_len (n_Notifications m)) (n_splitting m);
            Some {| n_Type := n_Type m; n_Notifications := N; n_splitting := n_splitting m |});
  let notifs := n_Notifications m in
  match split_scan notification_size (s_elems notifs) 0 0 with
  | Some i =>
      N ← reslice notifs 0 i;
      Some (false, {| n_Type := n_Type m; n_Notifications := N; n_splitting := s_len notifs |})
  | None => Some (true, m)
  end.

(** [ExtractPayloads]: the payloads of a slice of notifications. *)
Definition ExtractPayloads (notifications : list Notification) : list string :=
  Payload <$> notifications.

End Msg.

(** ** Greedy chunking, the specification of [Split] *)
Module SplitSpec.
Import Msg.
Section chunks.
Context {A : Type} (sizeof : A → Z).

(** The chunks sent for [l]: each the longest prefix that fits. *)
Fixpoint chunks (fuel : nat) (l : list A) : list (list A) :=
  match fuel with
  | O => []
  | S fuel =>
      match split_scan sizeof l 0 0 with
      | Some i => take i l :: chunks fuel (drop i l)
      | None => [l]
      end
  end.

Definition fits (l : list A) : Prop := sum_Z sizeof l ≤ maxPayloadSize.

Lemma split_scan_shift l size i :
  split_scan sizeof l size i = (λ k, i + k)%nat <$> split_scan sizeof l size 0.
Proof.
  revert size i. induction l as [|x l IH]; intros size i; cbn; [done|].
  case_match; cbn; [f_equal; lia|]. rewrite (IH _ (S i)), (IH _ 1%nat).
  destruct (split_scan sizeof l _ 0); cbn; [f_equal; lia|done].
Qed.

Lemma split_scan_None l size :
  (∀ x, 0 ≤ sizeof x) → split_scan sizeof l size 0 = None → size ≤ maxPayloadSize →
  size + sum_Z sizeof l ≤ maxPayloadSize.
Proof.
  intros Hp. revert size. induction l as [|x l IH]; intros size; cbn; [lia|].
  destruct (Z.ltb_spec maxPayloadSize (size + sizeof x)); [done|].
  rewrite split_scan_shift. intros E%fmap_None Hs.
  specialize (IH (size + sizeof x) E). lia.
Qed.

Lemma split_scan_Some l size i :
  size ≤ maxPayloadSize → split_scan sizeof l size 0 = Some i →
  (i < length l)%nat ∧ size + sum_Z sizeof (take i l) ≤ maxPayloadSize ∧
  ∃ x, l !! i = Some x ∧ maxPayloadSize < size + sum_Z sizeof (take i l) + sizeof x.
Proof.
  revert size i. induction l as [|x l IH]; intros size i Hs; cbn; [done|].
  destruct (Z.ltb_spec maxPayloadSize (size + sizeof x)).
  - intros [= <-]. cbn. split; [lia|]. split; [lia|]. exists x. split; [done|lia].
  - rewrite split_scan_shift.
    intros (k & E & ->)%fmap_Some. cbn.
    destruct (IH (size + sizeof x) k) as (Hk & Hsum & y & Hy & Hbig); [lia|done|].
    split; [lia|]. split; [lia|]. exists y. split; [done|lia].
Qed.

(** An element that fits by itself is never cut off at index 0. *)
Lemma split_scan_progress x l i :
  sizeof x ≤ maxPayloadSize → split_scan sizeof (x :: l) 0 0 = Some i → (0 < i)%nat.
Proof.
  intros Hx. cbn. destruct (Z.ltb_spec maxPayloadSize (0 + sizeof x)); [lia|].
  rewrite split_scan_shift. intros (k & _ & ->)%fmap_Some. lia.
Qed.
(** With enough fuel the chunks are a partition of [l] into runs that fit. *)
Lemma chunks_spec fuel l :
  (∀ x, 0 ≤ sizeof x) → Forall (λ x, sizeof x ≤ maxPayloadSize) l → (length l < fuel)%nat →
  concat (chunks fuel l) = l ∧ Forall fits (chunks fuel l).
Proof.
  intros Hpos. revert l. induction fuel as [|fuel IH]; intros l Hl Hfuel; [lia|].
  cbn. destruct (split_scan sizeof l 0 0) as [i|] eqn:E.
  - destruct (split_scan_Some l 0 i ltac:(done) E) as (Hi & Hsum & _).
    destruct l as [|x l]; [done|].
    pose proof (split_scan_progress x l i (Forall_inv Hl) E).
    destruct (IH (drop i (x :: l))) as [Hc Hf].
    + by apply Forall_drop.
    + rewrite length_drop. lia.
    + cbn. rewrite Hc. split; [apply take_drop|by constructor].
  - cbn. rewrite app_nil_r. split; [done|]. constructor; [|done].
    by pose proof (split_scan_None l 0 Hpos E ltac:(done)).
Qed.
End chunks.
End SplitSpec.

(** ** [Split] refines greedy chunking *)
Module SplitProof.
Import Msg SplitSpec.

(** The slice a call to [Split] looks at: the current one, or its extension
    up to the remaining elements. *)
Section window.
Context {A : Type}.
Implicit Types s : slice A.

Definition pending (s : slice A) (splitting : nat) : list A :=
  if bool_decide (splitting = 0%nat) then s_elems s
  else take (splitting - s_len s) (drop (s_off s + s_len s) (s_arr s)).

Definition window_wf (s : slice A) (splitting : nat) : Prop :=
  s_wf s ∧ (splitting ≠ 0%nat → s_len s ≤ splitting ∧ splitting ≤ s_cap s)%nat.

Lemma reslice_head s i :
  (i ≤ s_len s)%nat → s_wf s →
  ∃ s', reslice s 0 i = Some s' ∧ s_elems s' = take i (s_elems s) ∧
        window_wf s' (s_len s) ∧ s_len s' = i ∧
        ((0 < s_len s)%nat → pending s' (s_len s) = drop i (s_elems s)).
Proof.
  unfold s_wf. intros Hi Hs. unfold reslice. rewrite bool_decide_eq_true_2 by lia.
  eexists; split; [done|]. unfold s_elems, window_wf, pending, s_wf, s_cap in *; cbn.
  rewrite Nat.add_0_r, Nat.sub_0_r, take_take, Nat.min_l by lia.
  repeat (split; [done || lia|]). intros.
  rewrite bool_decide_eq_false_2 by lia.
  by rewrite <- drop_drop, skipn_firstn_comm.
Qed.

Lemma reslice_next s splitting :
  splitting ≠ 0%nat → window_wf s splitting →
  ∃ s', reslice s (s_len s) splitting = Some s' ∧ s_wf s' ∧
        s_elems s' = pending s splitting.
Proof.
  intros Hn [Hs Hw]. destruct (Hw Hn) as [H1 H2].
  unfold reslice. rewrite bool_decide_eq_true_2 by lia.
  eexists; split; [done|]. unfold s_wf, s_cap, s_elems, pending in *; cbn.
  rewrite bool_decide_eq_false_2 by done. split; [lia|done].
Qed.
End window.

(** The messages a session sends for one BROADCAST, one [Split] per message,
    until [Split] says it is done. *)
Fixpoint broadcast_sends (fuel : nat) (m : BroadcastMsg) : option (list BroadcastMsg * bool) :=
  match fuel with
  | O => Some ([], false)
  | S fuel =>
      '(done, m) ← BroadcastMsg_Split m;
      if (done : bool) then Some ([m], true)
      else '(ms, d) ← broadcast_sends fuel m; Some (m :: ms, d)
  end.

Fixpoint notifications_sends (fuel : nat) (m : NotificationsMsg)
  : option (list NotificationsMsg * bool) :=
  match fuel with
  | O => Some ([], false)
  | S fuel =>
      '(done, m) ← NotificationsMsg_Split m;
      if (done : bool) then Some ([m], true)
      else '(ms, d) ← notifications_sends fuel m; Some (m :: ms, d)
  end.

Definition b_size (p : string) : Z := len p.

(** The level reached before the pending payloads. *)
Definition b_base (m : BroadcastMsg) : Z :=
  if bool_decide (b_splitting m = 0%nat)
  then i64 (b_TopLevel m - Z.of_nat (s_len (b_Payloads m))) else b_TopLevel m.

Definition b_wf (m : BroadcastMsg) : Prop := window_wf (b_Payloads m) (b_splitting m).
Definition b_pending (m : BroadcastMsg) : list string :=
  pending (b_Payloads m) (b_splitting m).
Definition b_shown (m : BroadcastMsg) : list string := s_elems (b_Payloads m).

(** One [Split] of a BROADCAST in terms of the pending payloads. *)
Lemma BroadcastMsg_Split_spec m :
  b_wf m → in_sN 64 (b_TopLevel m) →
  match split_scan b_size (b_pending m) 0 0 with
  | Some i => ∃ m', BroadcastMsg_Split m = Some (false, m') ∧ b_wf m' ∧
      b_shown m' = take i (b_pending m) ∧ b_pending m' = drop i (b_pending m) ∧
      b_splitting m' ≠ 0%nat ∧ b_TopLevel m' = i64 (b_base m + Z.of_nat i)
  | None => ∃ m', BroadcastMsg_Split m = Some (true, m') ∧
      b_shown m' = b_pending m ∧
      b_TopLevel m' = i64 (b_base m + Z.of_nat (length (b_pending m)))
  end.
Proof.
  intros Hwf Htop. unfold BroadcastMsg_Split, b_base.
  assert (∃ P tl m1, (if bool_decide (b_splitting m = 0%nat)
     then Some (i64 (b_TopLevel m - Z.of_nat (s_len (b_Payloads m))), m)
     else P ← reslice (b_Payloads m) (s_len (b_Payloads m)) (b_splitting m);
       Some (b_TopLevel m,
         {| b_Type := b_Type m; b_AppId := b_AppId m; b_ChanId := b_ChanId m;
            b_TopLevel := i64 (b_TopLevel m + Z.of_nat (s_len P));
            b_Payloads := P; b_splitting := b_splitting m |})) = Some (tl, m1) ∧
     b_Payloads m1 = P ∧ s_wf P ∧ s_elems P = b_pending m ∧
     b_TopLevel m1 = i64 (tl + Z.of_nat (s_len P)) ∧
     tl = (if bool_decide (b_splitting m = 0%nat)
           then i64 (b_TopLevel m - Z.of_nat (s_len (b_Payloads m))) else b_TopLevel m))
    as (P & tl & m1 & -> & <- & HP & Hel & Htl & <-).
  { case_bool_decide as Hsp.
    - do 3 eexists. split; [done|]. split; [done|]. split; [apply Hwf|].
      split; [unfold b_pending, pending; by rewrite bool_decide_eq_true_2|].
      split; [|done]. rewrite sN_add_l, Z.sub_add by done. by rewrite sN_small.
    - destruct (reslice_next _ _ Hsp Hwf) as (P & -> & HP & Hel).
      cbn. do 3 eexists. split; [done|]. cbn. done. }
  cbn. rewrite <- Hel. fold b_size.
  pose proof (length_s_elems _ HP) as HlenP.
  destruct (split_scan b_size (s_elems (b_Payloads m1)) 0 0) as [i|] eqn:E.
  - destruct (split_scan_Some b_size _ 0 i ltac:(done) E) as (Hi & _ & _).
    rewrite HlenP in Hi.
    destruct (reslice_head (b_Payloads m1) i) as (s' & -> & Hs' & Hw' & Hl' & Hp');
      [lia|done|].
    cbn. eexists; split; [done|]. unfold b_wf, b_shown, b_pending; cbn.
    rewrite Hs', Hp' by lia. repeat (split; [done || lia|]). done.
  - eexists; split; [done|]. split; [done|]. by rewrite Htl, HlenP.
Qed.

Lemma in_sN_i64 z : in_sN 64 (i64 z).
Proof. by apply sN_range. Qed.

Lemma b_size_nonneg x : 0 ≤ b_size x.
Proof. unfold b_size. lia. Qed.

(** Every message of a sequence of sends: its payloads are the chunks of
    [SplitSpec], its TopLevel counts the payloads sent so far. *)
Lemma broadcast_sends_spec fuel m :
  b_wf m → in_sN 64 (b_TopLevel m) →
  Forall (λ p, b_size p ≤ maxPayloadSize) (b_pending m) →
  (length (b_pending m) < fuel)%nat →
  ∃ ms, broadcast_sends fuel m = Some (ms, true) ∧
    b_shown <$> ms = chunks b_size fuel (b_pending m) ∧
    ∀ k mk, ms !! k = Some mk →
      b_TopLevel mk =
        i64 (b_base m + Z.of_nat (length (concat (take (S k) (b_shown <$> ms))))).
Proof.
  revert m. induction fuel as [|fuel IH]; intros m Hwf Htop Hfit Hfuel; [lia|].
  cbn [broadcast_sends chunks].
  pose proof (BroadcastMsg_Split_spec m Hwf Htop) as H.
  destruct (split_scan b_size (b_pending m) 0 0) as [i|] eqn:E.
  - destruct H as (m' & -> & Hwf' & Hsh & Hpe & Hsp & Htl). cbn.
    destruct (split_scan_Some b_size _ 0 i ltac:(done) E) as (Hi & _ & _).
    destruct (b_pending m) as [|x l] eqn:Epm; [done|].
    pose proof (split_scan_progress b_size x l i (Forall_inv Hfit) E).
    destruct (IH m') as (ms & -> & Hch & Hlev); [done| | | |].
    + rewrite Htl. apply in_sN_i64.
    + rewrite Hpe. by apply Forall_drop.
    + rewrite Hpe, length_drop. lia.
    + cbn. eexists; split; [done|]. split.
      { cbn [fmap list_fmap]. by rewrite Hsh, Hch, Hpe. }
      intros [|k] mk; cbn.
      { intros [= <-]. rewrite app_nil_r, Hsh, length_take, Htl.
        do 2 f_equal. cbn [length] in *. lia. }
      intros Hk. rewrite (Hlev k mk Hk), length_app, Hsh, length_take.
      unfold b_base at 1. rewrite bool_decide_eq_false_2, Htl, sN_add_l by done.
      f_equal. cbn [length] in *. lia.
  - destruct H as (m' & -> & Hsh & Htl). cbn.
    eexists; split; [done|]. cbn. rewrite Hsh. split; [done|].
    intros [|k] mk; cbn; [|done].
    intros [= <-]. by rewrite app_nil_r, Htl.
Qed.

(** A first payload that does not fit by itself is never sent: each [Split]
    returns an empty message and is never done. *)
Lemma broadcast_sends_stuck fuel m x l :
  b_wf m → in_sN 64 (b_TopLevel m) → b_pending m = x :: l →
  maxPayloadSize < b_size x →
  ∃ ms, broadcast_sends fuel m = Some (ms, false) ∧ length ms = fuel ∧
        Forall (λ mk, b_shown mk = []) ms.
Proof.
  revert m. induction fuel as [|fuel IH]; intros m Hwf Htop Hp Hx.
  { exists []. by repeat constructor. }
  cbn [broadcast_sends]. pose proof (BroadcastMsg_Split_spec m Hwf Htop) as H.
  rewrite Hp in H. cbn [split_scan] in H.
  destruct (Z.ltb_spec maxPayloadSize (0 + b_size x)); [|lia].
  destruct H as (m' & -> & Hwf' & Hsh & Hpe & Hsp & Htl). cbn.
  destruct (IH m') as (ms & -> & Hlen & Hall);
    [done|rewrite Htl; apply in_sN_i64|by rewrite Hpe|done|].
  cbn. eexists; split; [done|]. cbn. split; [by f_equal|]. by constructor.
Qed.

Definition n_wf (m : NotificationsMsg) : Prop :=
  window_wf (n_Notifications m) (n_splitting m).
Definition n_pending (m : NotificationsMsg) : list Notification :=
  pending (n_Notifications m) (n_splitting m).
Definition n_shown (m : NotificationsMsg) : list Notification := s_elems (n_Notifications m).

Lemma notification_size_pos n : 0 < notification_size n.
Proof. unfold notification_size. change notificationOverhead with 20. lia. Qed.

Lemma NotificationsMsg_Split_spec m :
  n_wf m →
  match split_scan notification_size (n_pending m) 0 0 with
  | Some i => ∃ m', NotificationsMsg_Split m = Some (false, m') ∧ n_wf m' ∧
      n_shown m' = take i (n_pending m) ∧ n_pending m' = drop i (n_pending m)
  | None => ∃ m', NotificationsMsg_Split m = Some (true, m') ∧ n_shown m' = n_pending m
  end.
Proof.
  intros Hwf. unfold NotificationsMsg_Split.
  assert (∃ m1, (if bool_decide (n_splitting m = 0%nat) then Some m
       else N ← reslice (n_Notifications m) (s_len (n_Notifications m)) (n_splitting m);
            Some {| n_Type := n_Type m; n_Notifications := N;
                    n_splitting := n_splitting m |}) = Some m1 ∧
     s_wf (n_Notifications m1) ∧ s_elems (n_Notifications m1) = n_pending m)
    as (m1 & -> & HP & Hel).
  { case_bool_decide as Hsp.
    - eexists. split; [done|]. split; [apply Hwf|].
      unfold n_pending, pending. by rewrite bool_decide_eq_true_2.
    - destruct (reslice_next _ _ Hsp Hwf) as (P & -> & HP & Hel). cbn. by eexists. }
  cbn. rewrite <- Hel. pose proof (length_s_elems _ HP) as HlenP.
  destruct (split_scan notification_size (s_elems (n_Notifications m1)) 0 0) as [i|] eqn:E.
  - destruct (split_scan_Some notification_size _ 0 i ltac:(done) E) as (Hi & _ & _).
    rewrite HlenP in Hi.
    destruct (reslice_head (n_Notifications m1) i) as (s' & -> & Hs' & Hw' & Hl' & Hp');
      [lia|done|].
    cbn. eexists; split; [done|]. unfold n_wf, n_shown, n_pending; cbn.
    rewrite Hs', Hp' by lia. done.
  - eexists; split; done.
Qed.

Lemma notifications_sends_spec fuel m :
  n_wf m → Forall (λ p, notification_size p ≤ maxPayloadSize) (n_pending m) →
  (length (n_pending m) < fuel)%nat →
  ∃ ms, notifications_sends fuel m = Some (ms, true) ∧
    n_shown <$> ms = chunks notification_size fuel (n_pending m).
Proof.
  revert m. induction fuel as [|fuel IH]; intros m Hwf Hfit Hfuel; [lia|].
  cbn [notifications_sends chunks].
  pose proof (NotificationsMsg_Split_spec m Hwf) as H.
  destruct (split_scan notification_size (n_pending m) 0 0) as [i|] eqn:E.
  - destruct H as (m' & -> & Hwf' & Hsh & Hpe). cbn.
    destruct (split_scan_Some notification_size _ 0 i ltac:(done) E) as (Hi & _ & _).
    destruct (n_pending m) as [|x l] eqn:Epm; [done|].
    pose proof (split_scan_progress notification_size x l i (Forall_inv Hfit) E).
    destruct (IH m') as (ms & -> & Hch); [done| | |].
    + rewrite Hpe. by apply Forall_drop.
    + rewrite Hpe, length_drop. lia.
    + cbn. eexists; split; [done|]. cbn [fmap list_fmap]. by rewrite Hsh, Hch, Hpe.
  - destruct H as (m' & -> & Hsh). cbn. eexists; split; [done|]. cbn. by rewrite Hsh.
Qed.

Lemma initial_pending {A} (l : list A) : pending (s_of_list l) 0 = l.
Proof. unfold pending. cbn. apply s_elems_of_list. Qed.

Lemma initial_window_wf {A} (l : list A) : window_wf (s_of_list l) 0.
Proof. split; [apply s_of_list_wf|done]. Qed.
End SplitProof.

(** ** The JSON text of the split messages

    [json.Encoder.Encode], with its default HTML escaping, of a BROADCAST and of
    a NOTIFICATIONS message; the splitting state is unexported and not part of
    it. A string is written by [encode_string] and a [json.RawMessage] by
    [encode_raw]: an invalid one is an error ([None]), a nil one is [null], and
    a valid one loses the white space around its tokens and has its [<], [>],
    [&], U+2028 and U+2029 escaped. Whether a payload is a JSON text is the
    parameter [Valid] (encoding/json's scanner). *)
Module Encoding.
Import Msg SplitSpec SplitProof.

Fixpoint join_comma (l : list string) : string :=
  match l with
  | [] => ""
  | x :: l => match l with [] => x | _ => x +:+ "," +:+ join_comma l end
  end.

Definition between (lo hi : Z) (c : ascii) : bool := (lo <=? Z_of_byte c) && (Z_of_byte c <=? hi).

Definition hex_digit (n : Z) : ascii := byte_of_Z (if n <? 10 then 48 + n else 87 + n).

(** [\u00] and the two digits of a byte. *)
Definition u00 (c : ascii) : string :=
  "\u00" +:+ String (hex_digit (Z_of_byte c / 16)) (String (hex_digit (Z_of_byte c `mod` 16)) "").

Definition html_special (c : ascii) : bool := bool_decide (c = "<"%char ∨ c = ">"%char ∨ c = "&"%char).

(** A byte below 0x80 in a string. *)
Definition encode_ascii (c : ascii) : string :=
  if bool_decide (c = "\"%char ∨ Z_of_byte c = 34) then String "\" (String c "")
  else if Z_of_byte c =? 10 then "\n"
  else if Z_of_byte c =? 13 then "\r"
  else if Z_of_byte c =? 9 then "\t"
  else if (Z_of_byte c <? 32) || html_special c then u00 c
  else String c "".

(** The well-formed UTF-8 sequences of two, three and four bytes. *)
Definition utf8_2 (c d : ascii) : bool := between 194 223 c && between 128 191 d.
Definition utf8_3 (c d e : ascii) : bool :=
  ((Z_of_byte c =? 224) && between 160 191 d
   || (between 225 236 c || between 238 239 c) && between 128 191 d
   || (Z_of_byte c =? 237) && between 128 159 d) && between 128 191 e.
Definition utf8_4 (c d e f : ascii) : bool :=
  ((Z_of_byte c =? 240) && between 144 191 d
   || between 241 243 c && between 128 191 d
   || (Z_of_byte c =? 244) && between 128 143 d) && between 128 191 e && between 128 191 f.

(** U+2028 and U+2029, the line and the paragraph separator. *)
Definition line_separator (c d e : ascii) : bool :=
  (Z_of_byte c =? 226) && (Z_of_byte d =? 128) && between 168 169 e.
Definition u202 (e : ascii) : string := "\u202" +:+ String (hex_digit (Z_of_byte e `mod` 16)) "".

(** The characters of a string: what is not UTF-8 becomes [\ufffd], byte by
    byte. *)
Fixpoint encode_chars (s : string) : string :=
  match s with
  | "" => ""
  | String c s1 =>
      if Z_of_byte c <? 128 then encode_ascii c +:+ encode_chars s1 else
      match s1 with
      | String d s2 =>
          if utf8_2 c d then String c (String d (encode_chars s2)) else
          match s2 with
          | String e s3 =>
              if line_separator c d e then u202 e +:+ encode_chars s3
              else if utf8_3 c d e then String c (String d (String e (encode_chars s3))) else
              match s3 with
              | String f s4 =>
                  if utf8_4 c d e f then String c (String d (String e (String f (encode_chars s4))))
                  else "\ufffd" +:+ encode_chars s1
              | "" => "\ufffd" +:+ encode_chars s1
              end
          | "" => "\ufffd" +:+ encode_chars s1
          end
      | "" => "\ufffd" +:+ encode_chars s1
      end
  end.

Definition encode_string (s : string) : string := quoted (encode_chars s).

(** [compact] of a valid JSON text, with escaping; [instr]: inside a string,
    [esc]: after a backslash there. *)
Fixpoint compact (instr esc : bool) (s : string) : string :=
  match s with
  | "" => ""
  | String c s1 =>
      let instr' := if instr then esc || negb (Z_of_byte c =? 34) else Z_of_byte c =? 34 in
      let esc' := instr && negb esc && bool_decide (c = "\"%char) in
      if html_special c then u00 c +:+ compact instr' esc' s1
      else if negb instr && bool_decide (Z_of_byte c ∈ [9; 10; 13; 32]) then compact instr' esc' s1
      else
        match s1 with
        | String d (String e s3) =>
            if line_separator c d e then u202 e +:+ compact instr' esc' s3
            else String c (compact instr' esc' s1)
        | _ => String c (compact instr' esc' s1)
        end
  end.

Section text.
Context (Valid : string → bool).

Definition encode_raw (p : string) : option string :=
  if decide (p = "") then Some "null" else if Valid p then Some (compact false false p) else None.

Definition field (name value : string) : string := quoted name +:+ ":" +:+ value.

Definition marshal_BroadcastMsg (m : BroadcastMsg) : option string :=
  payloads ← mapM encode_raw (b_shown m);
  Some ("{" +:+ field "T" (encode_string (b_Type m)) +:+
    (if decide (b_AppId m = "") then "" else "," +:+ field "AppId" (encode_string (b_AppId m))) +:+
    "," +:+ field "ChanId" (encode_string (b_ChanId m)) +:+
    "," +:+ field "TopLevel" (pretty (b_TopLevel m)) +:+
    "," +:+ field "Payloads" ("[" +:+ join_comma payloads +:+ "]") +:+ "}").

Definition marshal_Notification (n : Notification) : option string :=
  payload ← encode_raw (Payload n);
  Some ("{" +:+ field "A" (encode_string (AppId n)) +:+
    "," +:+ field "M" (encode_string (MsgId n)) +:+ "," +:+ field "P" payload +:+ "}").

Definition marshal_NotificationsMsg (m : NotificationsMsg) : option string :=
  notifications ← mapM marshal_Notification (n_shown m);
  Some ("{" +:+ field "T" (encode_string (n_Type m)) +:+ "," +:+
    field "Notifications" ("[" +:+ join_comma notifications +:+ "]") +:+ "}").

(** What [Split] relies on: the JSON text of the notification is no longer than
    what it counts for it. *)
Definition counted (n : Notification) : Prop :=
  ∃ t, marshal_Notification n = Some t ∧ len t ≤ notification_size n.
End text.

(** A byte that is written as it is, in a string and in a payload. *)
Definition plain_char (c : ascii) : bool := between 32 127 c && bool_decide (encode_ascii c = String c "").
Fixpoint plain (s : string) : bool :=
  match s with "" => true | String c s => plain_char c && plain s end.
(** A byte of a payload that is not escaped: ASCII other than [<], [>], [&]. *)
Fixpoint plain_raw (s : string) : bool :=
  match s with "" => true | String c s => between 0 127 c && negb (html_special c) && plain_raw s end.

Lemma len_app s1 s2 : len (s1 +:+ s2) = len s1 + len s2.
Proof. rewrite length_str_app. lia. Qed.

Lemma len_quoted s : len (quoted s) = len s + 2.
Proof. unfold quoted. rewrite !len_app. cbn. lia. Qed.

Lemma len_field n v : len (field n v) = len n + len v + 3.
Proof. unfold field. rewrite !len_app, len_quoted. cbn. lia. Qed.

Lemma len_join l :
  len (join_comma l) = sum_Z (λ s, len s) l + Z.max 0 (Z.of_nat (length l) - 1).
Proof.
  induction l as [|x l IH]; [done|]. destruct l as [|y l]; [cbn; lia|].
  change (join_comma (x :: y :: l)) with (x +:+ "," +:+ join_comma (y :: l)).
  rewrite !len_app, IH. cbn [sum_Z length]. change (len ",") with 1. lia.
Qed.

Lemma encode_chars_plain s : plain s = true → encode_chars s = s.
Proof.
  induction s as [|c s IH]; [done|]. cbn [plain encode_chars]. rewrite andb_true_iff. intros [Hc Hs].
  unfold plain_char, between in Hc. rewrite !andb_true_iff, bool_decide_eq_true in Hc.
  destruct Hc as [[_ Hhi] ->]. apply Z.leb_le in Hhi.
  rewrite (proj2 (Z.ltb_lt _ _)) by lia. by rewrite IH.
Qed.

Lemma compact_plain instr esc s : plain_raw s = true → len (compact instr esc s) ≤ len s.
Proof.
  revert instr esc. induction s as [|c s IH]; intros instr esc; [done|].
  cbn [plain_raw]. rewrite !andb_true_iff, negb_true_iff. intros [[Hc Hh] Hs].
  unfold between in Hc. rewrite andb_true_iff in Hc. destruct Hc as [_ Hhi]. apply Z.leb_le in Hhi.
  assert (∀ d e, line_separator c d e = false) as Hsep.
  { intros d e. unfold line_separator. by rewrite (proj2 (Z.eqb_neq _ _)) by lia. }
  assert (∀ i e, len (String c (compact i e s)) ≤ len (String c s)) as Hkeep.
  { intros i e. specialize (IH i e Hs). cbn [String.length]. lia. }
  cbn [compact]. rewrite Hh. destruct (negb instr && _).
  - pose proof (IH (if instr then esc || negb (Z_of_byte c =? 34) else Z_of_byte c =? 34)
      (instr && negb esc && bool_decide (c = "\"%char)) Hs) as H. cbn [String.length]. lia.
  - destruct s as [|d [|e s]]; [apply Hkeep..|]. rewrite Hsep. apply Hkeep.
Qed.

(** The overhead the code computes in [init] is exact. *)
Lemma len_marshal_Notification Valid n p :
  encode_raw Valid (Payload n) = Some p →
  ∃ t, marshal_Notification Valid n = Some t ∧
    len t = len (encode_chars (AppId n)) + len (encode_chars (MsgId n)) + len p + notificationOverhead.
Proof.
  intros E. unfold marshal_Notification. rewrite E. cbn. eexists. split; [done|].
  change notificationOverhead with 20. unfold encode_string.
  rewrite !len_app, !len_field, !len_quoted. cbn. lia.
Qed.

(** Ids and payloads without a character to escape are counted right. *)
Lemma plain_counted Valid n :
  plain (AppId n) = true → plain (MsgId n) = true → plain_raw (Payload n) = true →
  Payload n ≠ "" → Valid (Payload n) = true → counted Valid n.
Proof.
  intros Ha Hm Hp Hne Hv. unfold counted.
  destruct (len_marshal_Notification Valid n (compact false false (Payload n))) as (t & Ht & Hl).
  { unfold encode_raw. by rewrite decide_False, Hv. }
  exists t. split; [done|]. rewrite Hl, !encode_chars_plain by done.
  pose proof (compact_plain false false (Payload n) Hp). unfold notification_size. lia.
Qed.

Lemma counted_texts Valid ns :
  Forall (counted Valid) ns →
  ∃ ts, mapM (marshal_Notification Valid) ns = Some ts ∧ length ts = length ns ∧
    sum_Z (λ s, len s) ts ≤ sum_Z notification_size ns.
Proof.
  induction 1 as [|n ns (t & Ht & Hl) _ (ts & Hts & Hlen & Hsum)]; [by exists []|].
  exists (t :: ts). cbn [mapM]. rewrite Ht. cbn. rewrite Hts. cbn. repeat split; lia.
Qed.

Lemma len_marshal_NotificationsMsg Valid m :
  Forall (counted Valid) (n_shown m) → plain (n_Type m) = true →
  ∃ t, marshal_NotificationsMsg Valid m = Some t ∧
    len t ≤ 27 + len (n_Type m) + sum_Z notification_size (n_shown m)
      + Z.max 0 (Z.of_nat (length (n_shown m)) - 1).
Proof.
  intros Hc Hp. destruct (counted_texts Valid _ Hc) as (ts & Hts & Hlen & Hsum).
  unfold marshal_NotificationsMsg. rewrite Hts. cbn. eexists. split; [done|].
  unfold encode_string. rewrite (encode_chars_plain _ Hp), !len_app, !len_field, !len_app, len_quoted, len_join.
  rewrite Hlen. cbn [String.length]. lia.
Qed.

Lemma sum_Z_lower {A} (f : A → Z) k l :
  Forall (λ x, k ≤ f x) l → k * Z.of_nat (length l) ≤ sum_Z f l.
Proof. induction 1; cbn [sum_Z length]; lia. Qed.

End Encoding.

(** ** Properties *)
Section properties.
Import Msg SplitSpec SplitProof Encoding.

(** C15: Round trip of the wire framing: if each message of a sequence encodes
    to fewer than 2^16 bytes that decode back to it, then reading as many
    messages from the bytes that writing them produced returns the same
    messages in order and leaves exactly the bytes that follow them. *)
Theorem wire_roundtrip {M} (encode : M → option bytes) (unmarshal : bytes → option M)
    (c : Wire.conn) (msgs : list M) (rest : bytes) :
  Wire.c_werr c = false → Wire.c_out c = [] →
  Forall (Wire.sendable encode unmarshal) msgs →
  ∃ c', Wire.write_all encode c msgs = (Ok (), c') ∧
    Wire.read_all unmarshal (Wire.Conn (Wire.c_out c' ++ rest) [] false) (length msgs) =
      (Ok msgs, Wire.Conn rest [] false).
Proof.
  intros Hw Ho Hs.
  assert (∃ bs, Forall2 (λ m b, encode m = Some b ∧ unmarshal b = Some m ∧
            Z.of_nat (length b) < 65536) msgs bs) as [bs Hbs].
  { clear -Hs. induction Hs as [|m msgs (b & Hb) _ [bs IH]]; [by exists []|].
    exists (b :: bs). by constructor. }
  eexists. split.
  - apply (Wire.write_all_frames _ c msgs bs Hw).
    eapply Forall2_impl; [exact Hbs|]. by intros ?? (?&?&?).
  - rewrite Ho. by apply (Wire.read_all_frames encode _ msgs bs).
Qed.

Lemma wire_roundtrip_witness :
  ∃ c', Wire.write_all Some (Wire.Conn [] [] false) [["a"%char]; ["b"%char; "c"%char]]
          = (Ok (), c') ∧
    Wire.read_all Some (Wire.Conn (Wire.c_out c' ++ ["z"%char]) [] false) 2 =
      (Ok [["a"%char]; ["b"%char; "c"%char]], Wire.Conn ["z"%char] [] false).
Proof.
  apply (wire_roundtrip Some Some (Wire.Conn [] [] false)
           [["a"%char]; ["b"%char; "c"%char]] ["z"%char]); [done|done|].
  repeat constructor; eexists; (split; [reflexivity|split; [reflexivity|reflexivity]]).
Defined.

(** A message whose JSON text is [2^16] bytes or longer desynchronises the
    stream: the length prefix wraps, so the peer decodes only the first
    [length mod 2^16] bytes and takes the rest of the body for the next
    frames. *)
Theorem wire_oversize {M} (encode : M → option bytes) (unmarshal : bytes → option M)
    (m : M) (body rest : bytes) :
  encode m = Some body → 65536 ≤ Z.of_nat (length body) →
  ∃ c', Wire.WriteMessage encode (Wire.Conn [] [] false) m = (Ok (), c') ∧
    let k := Z.to_nat (Z.of_nat (length body) `mod` 65536) in
    (k < length body)%nat ∧
    Wire.ReadMessage unmarshal (Wire.Conn (Wire.c_out c' ++ rest) [] false) =
      (match unmarshal (take k body) with Some m' => Ok m' | None => Err Wire.BadJSON end,
       Wire.Conn (drop k body ++ rest) [] false).
Proof.
  intros E Hl. eexists. split; [by rewrite (Wire.WriteMessage_frame _ _ _ _ E)|].
  intros k. split.
  - subst k. pose proof (Z.mod_pos_bound (Z.of_nat (length body)) 65536). lia.
  - by apply (Wire.ReadMessage_frame unmarshal (Wire.Conn _ _ _) body rest).
Qed.

Lemma wire_oversize_witness :
  ∃ c', Wire.WriteMessage Some (Wire.Conn [] [] false) (replicate (Z.to_nat 65537) zero)
          = (Ok (), c').
Proof.
  destruct (wire_oversize Some Some (replicate (Z.to_nat 65537) zero)
    (replicate (Z.to_nat 65537) zero) []) as [c' [H _]]; [reflexivity| |by exists c'].
  rewrite length_replicate, Z2Nat.id; done.
Defined.

(** C11: Splitting a BROADCAST message: when every payload fits in a message by
    itself, at most one [Split] per payload plus one is needed until it is
    done, the messages sent carry the original payloads in order without loss
    or repetition, each message's payloads fit the maximum size, the k-th
    message's TopLevel is the level reached with the payloads sent so far
    (modulo the int64 wrap), and the last message has the original TopLevel. *)
Theorem broadcast_split_correct (m : BroadcastMsg) :
  b_splitting m = 0%nat → s_wf (b_Payloads m) → in_sN 64 (b_TopLevel m) →
  Forall (λ p, len p ≤ maxPayloadSize) (b_shown m) →
  ∃ ms, broadcast_sends (S (length (b_shown m))) m = Some (ms, true) ∧
    concat (b_shown <$> ms) = b_shown m ∧
    Forall (λ mk, sum_Z b_size (b_shown mk) ≤ maxPayloadSize) ms ∧
    (∀ k mk, ms !! k = Some mk →
       b_TopLevel mk = i64 (b_TopLevel m - Z.of_nat (length (b_shown m))
         + Z.of_nat (length (concat (take (S k) (b_shown <$> ms)))))) ∧
    b_TopLevel <$> last ms = Some (b_TopLevel m).
Proof.
  intros Hsp Hwf Htop Hfit.
  assert (b_pending m = b_shown m) as Hp.
  { unfold b_pending, pending. by rewrite bool_decide_eq_true_2. }
  destruct (broadcast_sends_spec (S (length (b_shown m))) m) as (ms & Hs & Hch & Hlev);
    [by split|done|by rewrite Hp|rewrite Hp; lia|].
  rewrite Hp in Hch.
  destruct (chunks_spec b_size (S (length (b_shown m))) (b_shown m) b_size_nonneg Hfit
    ltac:(lia)) as [Hcat Hf]. rewrite <- Hch in Hcat, Hf.
  assert (∀ k mk, ms !! k = Some mk →
       b_TopLevel mk = i64 (b_TopLevel m - Z.of_nat (length (b_shown m))
         + Z.of_nat (length (concat (take (S k) (b_shown <$> ms)))))) as Hlev'.
  { intros k mk Hk. rewrite (Hlev k mk Hk). unfold b_base.
    rewrite bool_decide_eq_true_2, sN_add_l by done.
    unfold b_shown. by rewrite (length_s_elems _ Hwf). }
  exists ms. repeat (split; [done|]). split; [rewrite Forall_fmap in Hf; exact Hf|]. split; [done|].
  destruct ms as [|mk ms] using rev_ind.
  { cbn [broadcast_sends] in Hs.
    destruct (BroadcastMsg_Split m) as [[[] m']|]; cbn in Hs; [done| |done].
    by destruct (broadcast_sends _ m') as [[??]|]. }
  rewrite last_snoc. cbn. f_equal. rewrite (Hlev' (length ms) mk).
  - rewrite firstn_all2 by (rewrite length_fmap, length_app; cbn; lia).
    rewrite Hcat, Z.sub_add. by apply sN_small.
  - by rewrite lookup_app_r, Nat.sub_diag by lia.
Qed.

Definition example_broadcast : BroadcastMsg :=
  {| b_Type := "broadcast"; b_AppId := ""; b_ChanId := "0"; b_TopLevel := 5;
     b_Payloads := s_of_list ["{}"; "[1]"]; b_splitting := 0 |}.

Lemma broadcast_split_correct_witness :
  ∃ ms, broadcast_sends 3 example_broadcast = Some (ms, true) ∧
        b_TopLevel <$> last ms = Some 5.
Proof.
  destruct (broadcast_split_correct example_broadcast) as (ms & H & _ & _ & _ & Hl);
    [done|apply s_of_list_wf|by split|repeat constructor; by vm_compute|].
  by exists ms.
Defined.

(** C12: Splitting a NOTIFICATIONS message: when every notification fits by
    itself, the messages sent carry the original notifications in order
    without loss or repetition. The JSON text the encoder makes of every
    message sent is shorter than [2^16] bytes, so its frame never wraps, if
    moreover every notification has a message id of 24 bytes (a base64
    TimeUUID, as the server generates), a non-empty payload, and a JSON text,
    with the escapes encoding/json puts in, that is no longer than [Split]
    counts for it. [plain_counted] gives that last condition for payloads
    that are JSON texts of ASCII characters other than the three HTML escapes,
    and ids without characters to escape; [notifications_escape_overflow] shows
    a message outside it whose frame wraps. *)
Theorem notifications_split_fits (Valid : string → bool) (m : NotificationsMsg) :
  n_splitting m = 0%nat → s_wf (n_Notifications m) → n_Type m = "notifications" →
  Forall (λ n, notification_size n ≤ maxPayloadSize) (n_shown m) →
  ∃ ms, notifications_sends (S (length (n_shown m))) m = Some (ms, true) ∧
    concat (n_shown <$> ms) = n_shown m ∧
    (Forall (λ n, len (MsgId n) = 24 ∧ Payload n ≠ "" ∧ counted Valid n) (n_shown m) →
     Forall (λ mk, ∃ t, marshal_NotificationsMsg Valid
         {| n_Type := n_Type m; n_Notifications := n_Notifications mk; n_splitting := 0 |} = Some t ∧
       len t < 65536) ms).
Proof.
  intros Hsp Hwf Hty Hfit.
  assert (n_pending m = n_shown m) as Hp.
  { unfold n_pending, pending. by rewrite bool_decide_eq_true_2. }
  destruct (notifications_sends_spec (S (length (n_shown m))) m) as (ms & Hs & Hch);
    [by split|by rewrite Hp|rewrite Hp; lia|].
  rewrite Hp in Hch.
  destruct (chunks_spec notification_size (S (length (n_shown m))) (n_shown m))
    as [Hcat Hf]; [|done|lia|].
  { intros x. pose proof (notification_size_pos x). lia. }
  rewrite <- Hch in Hcat, Hf. exists ms. do 2 (split; [done|]). intros Hid.
  rewrite Forall_fmap in Hf. apply Forall_forall. intros mk Hmk.
  rewrite Forall_forall in Hf. specialize (Hf mk Hmk). cbn in Hf. unfold fits in Hf.
  rewrite <- Hcat in Hid. apply Forall_concat in Hid.
  rewrite Forall_fmap, Forall_forall in Hid. specialize (Hid mk Hmk). cbn in Hid.
  destruct (len_marshal_NotificationsMsg Valid
    {| n_Type := n_Type m; n_Notifications := n_Notifications mk; n_splitting := 0 |}) as (t & Ht & Hl).
  { eapply Forall_impl; [exact Hid|]. by intros ? (_ & _ & ?). }
  { cbn [n_Type]. by rewrite Hty. }
  exists t. split; [exact Ht|]. cbn [n_Type] in Hl. rewrite Hty in Hl.
  change (len "notifications") with 13 in Hl.
  change (n_shown {| n_Type := _; n_Notifications := n_Notifications mk; n_splitting := _ |})
    with (n_shown mk) in Hl.
  assert (45 * Z.of_nat (length (n_shown mk)) ≤ sum_Z notification_size (n_shown mk)).
  { apply sum_Z_lower. eapply Forall_impl; [exact Hid|]. intros n (Hn & Hpl & _).
    unfold notification_size. change notificationOverhead with 20.
    destruct (Payload n); [done|]. cbn [String.length]. lia. }
  unfold maxPayloadSize in Hf. lia.
Qed.

Definition example_notifications : NotificationsMsg :=
  {| n_Type := "notifications";
     n_Notifications := s_of_list
       [{| AppId := "com.example_app"; MsgId := "0123456789abcdef01234567"; Payload := "{}" |}];
     n_splitting := 0 |}.

Lemma notifications_split_fits_witness :
  ∃ ms, notifications_sends 2 example_notifications = Some (ms, true) ∧
        concat (n_shown <$> ms) = n_shown example_notifications ∧
        Forall (λ mk, ∃ t, marshal_NotificationsMsg (λ _, true)
          {| n_Type := "notifications"; n_Notifications := n_Notifications mk; n_splitting := 0 |} = Some t ∧
          len t < 65536) ms.
Proof.
  destruct (notifications_split_fits (λ _, true) example_notifications) as (ms & H & Hc & Hl);
    [done|apply s_of_list_wf|done|repeat constructor; by vm_compute|].
  exists ms. split; [done|]. split; [done|]. apply Hl.
  apply Forall_singleton. split; [done|]. split; [done|]. by apply plain_counted.
Defined.
End properties.

(** ** Divergences the model shows

    [Split] counts neither the commas between payloads nor the envelope: a
    BROADCAST of 3000 payloads of 21 bytes each is "done" after one [Split]
    and its JSON text does not fit a frame. *)
Section divergence.
Import Msg SplitProof Encoding.

Definition many_payloads : BroadcastMsg :=
  {| b_Type := "broadcast"; b_AppId := ""; b_ChanId := "0"; b_TopLevel := 3000;
     b_Payloads := s_of_list (replicate (Z.to_nat 3000) "{_im/model_:[1,_ch_]}");
     b_splitting := 0 |}.

(** [Split] of a BROADCAST counts the payloads only: there is a message of
    many small payloads that it declares done although its JSON text, with the
    separators and the envelope, exceeds the largest frame. *)
Lemma broadcast_split_overflow :
  ∃ m' t, BroadcastMsg_Split many_payloads = Some (true, m') ∧
          marshal_BroadcastMsg (λ _, true) m' = Some t ∧ 65536 <= len t.
Proof.
  eexists _, _. split; [vm_compute; reflexivity|]. split; [reflexivity|].
  apply Z.leb_le. vm_compute. reflexivity.
Qed.

(** One notification of a payload that the API accepts: a JSON string of 2000
    characters, every one of which the encoder writes as six. *)
Definition escaped_notification : Notification :=
  {| AppId := "com.example_app"; MsgId := "0123456789abcdef01234567";
     Payload := quoted (Nat.iter (Z.to_nat 2000) (String "<") "") |}.

Definition escaped_notifications : NotificationsMsg :=
  {| n_Type := "notifications"; n_Notifications := s_of_list (replicate 6 escaped_notification);
     n_splitting := 0 |}.

(** [Split] of a NOTIFICATIONS counts the bytes of the ids and payloads, not
    the escapes they are written with: six payloads of 2002 bytes are sent in
    one message, whose JSON text does not fit a frame. *)
Lemma notifications_escape_overflow :
  ∃ m' t, NotificationsMsg_Split escaped_notifications = Some (true, m') ∧
          marshal_NotificationsMsg (λ _, true) m' = Some t ∧ 65536 <= len t.
Proof.
  eexists _, _. split; [vm_compute; reflexivity|]. split; [reflexivity|].
  apply Z.leb_le. vm_compute. reflexivity.
Qed.
End divergence.
