(* ===== verification/Store.v ===== *)
(** Pending-notification store: [server/store/store.go] and
    [server/store/inmemory.go].

    [InternalChannelId]s and their textual forms, the two filters of
    [store.go], and the in-memory store, operation by operation. The store is
    a map from internal ids to channels; a channel keeps its notifications and
    their metadata in two parallel slices. Module [StoreSpec] gives the
    abstract view, one list of (notification, metadata) pairs per channel, and
    the theorems at the end of the file show that the detailed operations
    implement it. Class [PendingStore] is the Go interface of the same name,
    [PendingStoreLaws] what its clients rely on. *)

From S2P Require Import Prelude Base64 Protocol.
Import Msg.

Module Store.

(** ** Internal channel ids *)
Abbreviation InternalChannelId := string (only parsing).

Inductive store_err :=
| ErrUnknownChannel
| ErrUnknownToken
| ErrUnauthorized
| ErrFull
| ErrExpected128BitsHexRepr
| ErrOther (msg : string).

#[export] Instance store_err_eq_dec : EqDecision store_err.
Proof. solve_decision. Defined.

(** [icid[0]] panics on the empty id. *)
Definition marker (icid : InternalChannelId) : option ascii :=
  match icid with String c _ => Some c | EmptyString => None end.

Definition BroadcastChannel (icid : InternalChannelId) : option bool :=
  (λ m, bool_decide (m = "B"%char) || bool_decide (m = "0"%char)) <$> marker icid.

Definition UnicastChannel (icid : InternalChannelId) : option bool :=
  (λ m, bool_decide (m = "U"%char)) <$> marker icid.

Definition UnicastUserAndDevice (icid : InternalChannelId) : option (string * string) :=
  u ← UnicastChannel icid;
  if negb u then None
  else let parts := splitN2 ":"%char (str_drop 1 icid) in
       p0 ← parts !! 0; p1 ← parts !! 1; Some (p0, p1).

Definition SystemInternalChannelId : InternalChannelId := "0".
Definition noId : InternalChannelId := "".

Definition InternalChannelIdToHex (chanId : InternalChannelId) : option string :=
  if decide (chanId = SystemInternalChannelId) then Some "0"
  else b ← BroadcastChannel chanId;
       if negb b then None else Some (str_drop 1 chanId).

(** [encoding/hex]: both cases of the letters are accepted, an odd digit
    count or another character is an error. *)
Definition hex_val (c : ascii) : option Z :=
  let n := Z.of_nat (nat_of_ascii c) in
  if decide (48 ≤ n ≤ 57)%Z then Some (n - 48)%Z
  else if decide (97 ≤ n ≤ 102)%Z then Some (n - 87)%Z
  else if decide (65 ≤ n ≤ 70)%Z then Some (n - 55)%Z
  else None.

Fixpoint hex_decode (s : string) : option (list Z) :=
  match s with
  | EmptyString => Some []
  | String a (String b s') =>
      x ← hex_val a; y ← hex_val b; l ← hex_decode s'; Some ((x * 16 + y)%Z :: l)
  | String _ EmptyString => None
  end.

Definition zero128 : list Z := replicate 16 0%Z.

Definition HexToInternalChannelId (hexRepr : string) : outcome store_err InternalChannelId :=
  if decide (hexRepr = "0") then Ok SystemInternalChannelId
  else if negb (bool_decide (len hexRepr = 32)%Z) then Err ErrExpected128BitsHexRepr
  else match hex_decode hexRepr with
       | None => Err ErrExpected128BitsHexRepr
       | Some idbytes =>
           if decide (idbytes = zero128) then Ok SystemInternalChannelId
           else Ok ("B" +:+ hexRepr)
       end.

Definition UnicastInternalChannelId (userId deviceId : string) : InternalChannelId :=
  "U" +:+ userId +:+ ":" +:+ deviceId.

(** ** Metadata and filters *)

(** Times are nanosecond counts. *)
Record Metadata := MkMeta { Expiration : Z; ReplaceTag : string; Obsolete : bool }.

#[export] Instance Metadata_eq_dec : EqDecision Metadata.
Proof. solve_decision. Defined.

Definition Before (m : Metadata) (ref : Z) : bool := bool_decide (Expiration m < ref)%Z.

Definition set_obsolete (m : Metadata) : Metadata := MkMeta (Expiration m) (ReplaceTag m) true.

(** The head-removal loop, [i] from [t-1] down to [0]. *)
Fixpoint head_matches (orig targets : list Notification) (i : nat) : bool :=
  match i with
  | 0 => true
  | S i' =>
      bool_decide (MsgId <$> targets !! i = MsgId <$> orig !! i) && head_matches orig targets i'
  end.

Definition target_ids (targets : list Notification) : gset string :=
  foldl (λ ids target, {[MsgId target]} ∪ ids) ∅ targets.

Definition FilterOutByMsgId (orig targets : list Notification) : list Notification :=
  let n := length orig in
  let t := length targets in
  if bool_decide (0 < t ∧ t ≤ n)
     && bool_decide (MsgId <$> targets !! 0 = MsgId <$> orig !! 0)
     && head_matches orig targets (t - 1)
  then drop t orig
  else let ids := target_ids targets in
       foldl (λ acc notif, if decide (MsgId notif ∈ ids) then acc else acc ++ [notif]) [] orig.

(** The backward walk of [FilterOutObsolete]: [j] entries remain. *)
Fixpoint walk (now : Z) (notifications : list Notification) (j : nat)
    (meta : list Metadata) (seenTags : gset (string * string)) (n : nat)
    : option (list Metadata * nat) :=
  match j with
  | 0 => Some (meta, n)
  | S j =>
      m ← meta !! j;
      if Before m now then
        walk now notifications j (<[j := set_obsolete m]> meta) seenTags n
      else if decide (ReplaceTag m = "") then
        walk now notifications j meta seenTags (S n)
      else
        notif ← notifications !! j;
        let key := (AppId notif, ReplaceTag m) in
        if decide (key ∈ seenTags) then
          walk now notifications j (<[j := set_obsolete m]> meta) seenTags n
        else
          walk now notifications j meta ({[key]} ∪ seenTags) (S n)
  end.

(** The forward loop: [meta] is what is left of the slice from index [i]. *)
Fixpoint fill (notifications : list Notification) (i : nat) (meta : list Metadata)
    (j : nat) (res : list Notification) : option (list Notification) :=
  match meta with
  | [] => Some res
  | m :: meta =>
      if Obsolete m then fill notifications (S i) meta j res
      else notif ← notifications !! i;
           if decide (j < length res)
           then fill notifications (S i) meta (S j) (<[j := notif]> res)
           else None
  end.

Definition zero_notification : Notification := {| AppId := ""; MsgId := ""; Payload := "" |}.

(** Returns the filtered notifications and the metadata slice, which is
    marked in place. [None] is an index out of range. *)
Definition FilterOutObsolete (now : Z) (notifications : list Notification)
    (meta : list Metadata) : option (list Notification * list Metadata) :=
  '(meta', n) ← walk now notifications (length meta) meta ∅ 0;
  res ← fill notifications 0 meta' 0 (replicate n zero_notification);
  Some (res, meta').

(** ** The in-memory store *)
Record channel := MkChannel {
  topLevel : Z;
  notifications : list Notification;
  meta : list Metadata;
}.

Abbreviation InMemoryPendingStore := (gmap string channel).

Definition NewInMemoryPendingStore : InMemoryPendingStore := ∅.

Definition Register (deviceId appId : string) : string :=
  EncodeToString (appId +:+ "::" +:+ deviceId).

(** Tokens are computed, not stored: nothing to forget. *)
Definition Unregister (deviceId appId : string) (sto : InMemoryPendingStore)
    : InMemoryPendingStore := sto.

Definition GetInternalChannelIdFromToken (token appId userId deviceId : string)
    : outcome store_err InternalChannelId :=
  if bool_decide (token ≠ "") && bool_decide (appId ≠ "") then
    match DecodeString token with
    | None => Err ErrUnknownToken
    | Some token =>
        if negb (has_prefix token (appId +:+ "::")) then Err ErrUnauthorized
        else let deviceId := str_drop (String.length appId + 2) token in
             Ok (UnicastInternalChannelId deviceId deviceId)
    end
  else if bool_decide (userId ≠ "") && bool_decide (deviceId ≠ "") then
    Ok (UnicastInternalChannelId userId deviceId)
  else Err ErrUnknownToken.

Definition GetInternalChannelId (name : string) : outcome store_err InternalChannelId :=
  if decide (name = "system") then Ok SystemInternalChannelId else Err ErrUnknownChannel.

Definition appendToChannel (chanId : InternalChannelId) (newNotification : Notification)
    (inc : Z) (meta1 : Metadata) (sto : InMemoryPendingStore) : InMemoryPendingStore :=
  let prev := default (MkChannel 0 [] []) (sto !! chanId) in
  <[chanId := MkChannel (i64 (topLevel prev + inc)) (notifications prev ++ [newNotification])
                        (meta prev ++ [meta1])]> sto.

Definition AppendToChannel (chanId : InternalChannelId) (notificationPayload : string)
    (expiration : Z) (sto : InMemoryPendingStore) : InMemoryPendingStore :=
  appendToChannel chanId {| AppId := ""; MsgId := ""; Payload := notificationPayload |}
    1 (MkMeta expiration "" false) sto.

Definition AppendToUnicastChannel (chanId : InternalChannelId) (appId notificationPayload msgId : string)
    (m : Metadata) (sto : InMemoryPendingStore) : InMemoryPendingStore :=
  appendToChannel chanId
    {| AppId := appId; MsgId := msgId; Payload := notificationPayload |} 0 m sto.

(** [copy(res, channel.notifications)] and [copy(meta, channel.meta)] into
    slices made of the length of the former. *)
Definition copy_padded {A} (zero : A) (n : nat) (l : list A) : list A :=
  take n l ++ replicate (n - length l) zero.

Definition getChannelUnfiltered (chanId : InternalChannelId) (sto : InMemoryPendingStore)
    : option (channel * list Notification * list Metadata) :=
  c ← sto !! chanId;
  let n := length (notifications c) in
  Some (c, copy_padded zero_notification n (notifications c),
        copy_padded (MkMeta 0 "" false) n (meta c)).

Definition GetChannelUnfiltered (chanId : InternalChannelId) (sto : InMemoryPendingStore)
    : Z * option (list Notification * list Metadata) :=
  match getChannelUnfiltered chanId sto with
  | None => (0%Z, None)
  | Some (c, res, m) => (topLevel c, Some (res, m))
  end.

(** [None] is a panic of [FilterOutObsolete]. *)
Definition GetChannelSnapshot (now : Z) (chanId : InternalChannelId) (sto : InMemoryPendingStore)
    : option (Z * list Notification) :=
  match GetChannelUnfiltered chanId sto with
  | (_, None) => Some (0%Z, [])
  | (top, Some (res, m)) =>
      '(res, _) ← FilterOutObsolete now res m;
      Some (top, res)
  end.

(** The loop of [Scrub] over the marked metadata; [fresh[i]] is
    bounds-checked. *)
Fixpoint scrub_loop (appId replaceTag : string) (fresh : list Notification) (i : nat)
    (meta : list Metadata) (res : list Notification) (resMeta : list Metadata)
    : option (list Notification * list Metadata) :=
  match meta with
  | [] => Some (res, resMeta)
  | m :: meta =>
      if Obsolete m then scrub_loop appId replaceTag fresh i meta res resMeta
      else
        notif ← fresh !! i;
        let skip :=
          if decide (replaceTag = "") then bool_decide (AppId notif = appId)
          else bool_decide (AppId notif = appId) && bool_decide (ReplaceTag m = replaceTag) in
        if skip then scrub_loop appId replaceTag fresh (S i) meta res resMeta
        else scrub_loop appId replaceTag fresh (S i) meta (res ++ [notif]) (resMeta ++ [m])
  end.

Definition scrub_criteria (criteria : list string) : option (string * string) :=
  match criteria with
  | [] => Some ("", "")
  | [appId] => Some (appId, "")
  | [appId; replaceTag] => Some (appId, replaceTag)
  | _ => None
  end.

Definition Scrub (now : Z) (chanId : InternalChannelId) (criteria : list string)
    (sto : InMemoryPendingStore) : option InMemoryPendingStore :=
  '(appId, replaceTag) ← scrub_criteria criteria;
  match getChannelUnfiltered chanId sto with
  | None => Some sto
  | Some (c, res, m) =>
      '(fresh, m) ← FilterOutObsolete now res m;
      '(res, resMeta) ← scrub_loop appId replaceTag fresh 0 m [] [];
      Some (<[chanId := MkChannel (topLevel c) res resMeta]> sto)
  end.

(** [metaById]: later notifications overwrite earlier ones; [channel.meta[i]]
    is bounds-checked. *)
Fixpoint meta_by_id (ns : list Notification) (ms : list Metadata)
    (metaById : gmap string Metadata) : option (gmap string Metadata) :=
  match ns, ms with
  | [], _ => Some metaById
  | n :: ns, m :: ms => meta_by_id ns ms (<[MsgId n := m]> metaById)
  | _ :: _, [] => None
  end.

Definition DropByMsgId (chanId : InternalChannelId) (targets : list Notification)
    (sto : InMemoryPendingStore) : option InMemoryPendingStore :=
  match sto !! chanId with
  | None => Some sto
  | Some c =>
      metaById ← meta_by_id (notifications c) (meta c) ∅;
      let ns := FilterOutByMsgId (notifications c) targets in
      Some (<[chanId := MkChannel (topLevel c) ns
              ((λ n, default (MkMeta 0 "" false) (metaById !! MsgId n)) <$> ns)]> sto)
  end.

End Store.

(** ** Abstract view

    An entry is a notification with its metadata; a channel is its top level
    and the list of its entries, oldest first. *)
Module StoreSpec.
Import Store.

Abbreviation entry := (Notification * Metadata)%type.

(** [y] is newer than [x], still alive, and carries the same replace tag for
    the same application. *)
Definition supersedes (now : Z) (x y : entry) : bool :=
  negb (Before y.2 now) && bool_decide (AppId y.1 = AppId x.1)
  && bool_decide (ReplaceTag y.2 = ReplaceTag x.2).

(** [x], followed by [later], is expired or superseded. *)
Definition dead (now : Z) (x : entry) (later : list entry) : bool :=
  Before x.2 now
  || bool_decide (ReplaceTag x.2 ≠ "") && existsb (supersedes now x) later.

Fixpoint live (now : Z) (l : list entry) : list entry :=
  match l with
  | [] => []
  | x :: l => if dead now x l then live now l else x :: live now l
  end.

Fixpoint marked (now : Z) (l : list entry) : list Metadata :=
  match l with
  | [] => []
  | x :: l => (if dead now x l then set_obsolete x.2 else x.2) :: marked now l
  end.

Definition not_obsolete (l : list entry) : Prop := Forall (λ x, Obsolete x.2 = false) l.

Definition matches_criteria (appId replaceTag : string) (x : entry) : bool :=
  bool_decide (AppId x.1 = appId)
  && (bool_decide (replaceTag = "") || bool_decide (ReplaceTag x.2 = replaceTag)).

Definition scrubbed (now : Z) (appId replaceTag : string) (l : list entry) : list entry :=
  filter (λ x, matches_criteria appId replaceTag x = false) (live now l).

Definition without_ids (targets : list Notification) {A} (f : A → Notification) (l : list A) : list A :=
  filter (λ x, MsgId (f x) ∉ MsgId <$> targets) l.

(** *** The backward walk *)
Section walk.
Context (now : Z).

(** The replace-tag keys alive in a suffix. *)
Definition key_in (l : list entry) (k : string * string) : Prop :=
  k.2 ≠ "" ∧ ∃ y, y ∈ l ∧ Before y.2 now = false ∧ AppId y.1 = k.1 ∧ ReplaceTag y.2 = k.2.

Lemma existsb_supersedes x l :
  ReplaceTag x.2 ≠ "" →
  existsb (supersedes now x) l = true ↔ key_in l (AppId x.1, ReplaceTag x.2).
Proof.
  intros Ht. unfold key_in, supersedes; cbn. rewrite existsb_exists. split.
  - intros (y & Hy%list_elem_of_In & H). split; [done|]. exists y.
    rewrite !andb_true_iff, negb_true_iff, !bool_decide_eq_true in H. naive_solver.
  - intros (_ & y & Hy%list_elem_of_In & ? & ? & ?). exists y. split; [done|].
    rewrite !andb_true_iff, negb_true_iff, !bool_decide_eq_true. done.
Qed.

Lemma length_marked l : length (marked now l) = length l.
Proof. induction l; cbn; congruence. Qed.

Lemma insert_middle {A} (l k : list A) x y i :
  i = length l → <[i := y]> (l ++ x :: k) = l ++ y :: k.
Proof. intros ->. by rewrite insert_app_r_alt, Nat.sub_diag by lia. Qed.

(** State of the walk once the suffix [done] is processed. *)
Lemma walk_spec todo done seen n :
  (∀ k, k ∈ seen ↔ key_in done k) →
  n = length (live now done) →
  walk now (todo ++ done).*1 (length todo) (todo.*2 ++ marked now done) seen n
  = Some (marked now (todo ++ done), length (live now (todo ++ done))).
Proof.
  revert done seen n. induction todo as [|x todo IH] using rev_ind;
    intros done seen n Hseen Hn; [cbn; by subst|].
  rewrite length_app, Nat.add_comm; cbn.
  rewrite !fmap_app, <- !app_assoc; cbn.
  rewrite !list_lookup_middle by (by rewrite length_fmap). cbn.
  rewrite insert_middle by (by rewrite length_fmap).
  replace (todo.*1 ++ x.1 :: done.*1) with (todo ++ x :: done).*1 by (by rewrite fmap_app).
  specialize (IH (x :: done)). cbn in IH. unfold dead in IH.
  destruct (Before x.2 now) eqn:Hb; cbn in IH.
  { apply IH; [|done]. intros k. rewrite Hseen. unfold key_in.
    setoid_rewrite elem_of_cons. split; [naive_solver|].
    intros (? & y & [->|?] & ?); naive_solver congruence. }
  destruct (decide (ReplaceTag x.2 = "")) as [Ht|Ht].
  { rewrite bool_decide_eq_false_2 in IH by tauto. cbn in IH.
    apply IH; [|by subst]. intros k. rewrite Hseen. unfold key_in.
    setoid_rewrite elem_of_cons. split; [naive_solver|].
    intros (? & y & [->|?] & ?); [|naive_solver]. destruct k; naive_solver congruence. }
  rewrite bool_decide_eq_true_2 in IH by done. cbn in IH.
  pose proof (existsb_supersedes x done Ht) as He.
  destruct (decide ((AppId x.1, ReplaceTag x.2) ∈ seen)) as [Hk|Hk]; rewrite Hseen, <- He in Hk.
  - rewrite Hk in IH. apply IH; [|done]. intros k. rewrite Hseen. unfold key_in.
    setoid_rewrite elem_of_cons. split; [naive_solver|].
    apply He in Hk as (_ & z & Hz). intros (? & y & [->|?] & ?); [|naive_solver].
    split; [done|]. exists z. cbn in *. intuition congruence.
  - apply not_true_iff_false in Hk. rewrite Hk in IH. cbn in IH.
    apply IH; [|by subst]. intros k. rewrite elem_of_union, elem_of_singleton, Hseen.
    unfold key_in. setoid_rewrite elem_of_cons. split.
    + intros [->|?]; [|naive_solver]. split; [done|]. exists x. naive_solver.
    + intros (? & y & [->|?] & ?); [left|naive_solver]. destruct k; naive_solver.
Qed.

Lemma marked_Obsolete l :
  not_obsolete l → Forall2 (λ (x : entry) m, ReplaceTag m = ReplaceTag x.2) l (marked now l).
Proof. induction 1; cbn; constructor; [by destruct (dead _ _ _)|done]. Qed.

Lemma insert_zeros {A} (zero : A) res (r : A) k :
  <[length res := r]> (res ++ replicate (S k) zero) = (res ++ [r]) ++ replicate k zero.
Proof. cbn. rewrite insert_middle by done. by rewrite <- app_assoc. Qed.

(** The forward loop copies exactly the live entries. *)
Lemma fill_spec pre l res :
  not_obsolete l →
  fill (pre ++ l.*1) (length pre) (marked now l) (length res)
    (res ++ replicate (length (live now l)) zero_notification)
  = Some (res ++ (live now l).*1).
Proof.
  intros Hl. revert pre res. induction Hl as [|x l Hx Hl IH]; intros pre res; [done|].
  cbn [marked fill live]. destruct (dead now x l) eqn:Hd.
  - cbn [set_obsolete Obsolete]. specialize (IH (pre ++ [x.1]) res).
    rewrite length_app, Nat.add_comm, <- app_assoc in IH. exact IH.
  - rewrite Hx. cbn [fmap list_fmap].
    rewrite list_lookup_middle by done. cbn [mbind option_bind length].
    rewrite decide_True by (rewrite length_app, length_replicate; lia).
    rewrite insert_zeros.
    specialize (IH (pre ++ [x.1]) (res ++ [x.1])).
    rewrite !length_app, <- !app_assoc, !(Nat.add_comm _ (length [x.1])) in IH.
    rewrite <- app_assoc. exact IH.
Qed.
End walk.

Lemma FilterOutObsolete_live now l :
  not_obsolete l → FilterOutObsolete now l.*1 l.*2 = Some ((live now l).*1, marked now l).
Proof.
  intros Hl. unfold FilterOutObsolete. rewrite length_fmap.
  pose proof (walk_spec now l [] ∅ 0) as H. cbn in H. rewrite !app_nil_r in H.
  rewrite H; [|unfold key_in; set_solver|done]. cbn.
  pose proof (fill_spec now [] l [] Hl) as F. cbn in F. by rewrite F.
Qed.

(** *** Scrubbing *)
Lemma live_elem now l x : x ∈ live now l → x ∈ l.
Proof.
  induction l as [|y l IH]; cbn; [done|]. destruct (dead now y l); set_solver.
Qed.

Lemma live_sublist now l : live now l `sublist_of` l.
Proof. induction l as [|y l IH]; cbn; [done|]. destruct (dead now y l); by constructor. Qed.

Lemma live_alive now l : Forall (λ x : entry, Before x.2 now = false) (live now l).
Proof.
  induction l as [|x l IH]; cbn; [done|]. destruct (dead now x l) eqn:E; [done|].
  constructor; [|done]. by apply orb_false_iff in E as [].
Qed.

Lemma not_superseded now x l y :
  dead now x l = false → ReplaceTag x.2 ≠ "" → y ∈ l → supersedes now x y = false.
Proof.
  intros [_ Hd]%orb_false_iff Ht Hy.
  rewrite bool_decide_eq_true_2, andb_true_l in Hd by done.
  destruct (supersedes now x y) eqn:E; [|done]. rewrite <- Hd. symmetry.
  apply existsb_exists. exists y. by rewrite <- list_elem_of_In.
Qed.

Lemma live_unique now l i j x y :
  i < j → live now l !! i = Some x → live now l !! j = Some y → ReplaceTag x.2 ≠ "" →
  supersedes now x y = false.
Proof.
  revert i j. induction l as [|z l IH]; intros i j Hij; cbn; [done|].
  destruct (dead now z l) eqn:E; [by apply IH|].
  destruct j as [|j]; [lia|]. destruct i as [|i]; cbn.
  - intros [= ->] Hy Ht. apply (not_superseded _ _ l); [done|done|].
    apply live_elem with now. by eapply list_elem_of_lookup_2.
  - intros Hx Hy. apply (IH i j); [lia|done|done].
Qed.

Lemma supersedes_trans now x y z :
  supersedes now x y = true → supersedes now y z = true → supersedes now x z = true.
Proof.
  unfold supersedes. rewrite !andb_true_iff, !bool_decide_eq_true.
  intros [[? E1] E2] [[? E3] E4]. split_and!; congruence.
Qed.

Lemma live_covers now l i x :
  l !! i = Some x → Before x.2 now = false →
  x ∈ live now l ∨ ∃ y, y ∈ drop (S i) l ∧ y ∈ live now l ∧ supersedes now x y = true.
Proof.
  (* by induction on the suffix after [x] *)
  revert i x. induction l as [|z l IH]; intros i x; [done|].
  destruct i as [|i].
  - intros [= ->] Hb. cbn. destruct (dead now x l) eqn:E; [|left; set_solver].
    right. apply orb_true_iff in E as [E|[_ E]%andb_true_iff]; [congruence|].
    apply existsb_exists in E as (y & Hy%list_elem_of_In & Hs).
    pose proof Hs as Hs'. unfold supersedes in Hs'. rewrite !andb_true_iff, negb_true_iff in Hs'.
    apply list_elem_of_lookup_1 in Hy as [k Hk].
    destruct (IH k y Hk) as [Hin|(w & Hw & Hin & Hs2)]; [tauto| |].
    + exists y. rewrite drop_0. split_and!; [by eapply list_elem_of_lookup_2|done|done].
    + exists w. rewrite drop_0. split_and!; [|done|by eapply supersedes_trans].
      eapply elem_of_sublist; [exact Hw|apply sublist_drop].
  - cbn. intros Hx Hb. destruct (IH i x Hx Hb) as [H|(y & Hy & Hin & Hs)];
      destruct (dead now z l); rewrite ?elem_of_cons; eauto.
    right. exists y. rewrite elem_of_cons. eauto.
Qed.

Lemma skip_matches appId replaceTag (x : entry) :
  (if decide (replaceTag = "") then bool_decide (AppId x.1 = appId)
   else bool_decide (AppId x.1 = appId) && bool_decide (ReplaceTag x.2 = replaceTag))
  = matches_criteria appId replaceTag x.
Proof. unfold matches_criteria. by repeat case_decide; repeat case_bool_decide. Qed.

Lemma scrub_loop_spec now appId replaceTag pre l res resMeta :
  not_obsolete l →
  scrub_loop appId replaceTag (pre ++ (live now l).*1) (length pre) (marked now l) res resMeta
  = Some (res ++ (scrubbed now appId replaceTag l).*1, resMeta ++ (scrubbed now appId replaceTag l).*2).
Proof.
  intros Hl. revert pre res resMeta. unfold scrubbed.
  induction Hl as [|x l Hx Hl IH]; intros pre res resMeta; [by cbn; rewrite !app_nil_r|].
  cbn [marked live scrub_loop]. destruct (dead now x l) eqn:Hd; [by apply IH|].
  rewrite Hx, filter_cons. cbn [fmap list_fmap].
  rewrite list_lookup_middle by done. cbn [mbind option_bind].
  specialize (IH (pre ++ [x.1])).
  rewrite length_app, <- app_assoc, (Nat.add_comm _ (length [x.1])) in IH.
  rewrite skip_matches. destruct (matches_criteria appId replaceTag x); cbn [decide].
  - apply IH.
  - cbn. rewrite (IH (res ++ [x.1])), <- !app_assoc. done.
Qed.

(** *** Filtering by message id *)
Lemma elem_of_target_ids targets k : k ∈ target_ids targets ↔ k ∈ MsgId <$> targets.
Proof.
  unfold target_ids.
  assert (∀ acc : gset string,
    k ∈ foldl (λ ids target, {[MsgId target]} ∪ ids) acc targets
    ↔ k ∈ acc ∨ k ∈ MsgId <$> targets) as H.
  { induction targets as [|x targets IH]; intros acc; cbn; [set_solver|].
    rewrite IH. set_solver. }
  rewrite H. set_solver.
Qed.

Lemma foldl_filter {A} (P : A → Prop) `{∀ x, Decision (P x)} (l acc : list A) :
  foldl (λ acc x, if decide (P x) then acc else acc ++ [x]) acc l
  = acc ++ filter (λ x, ¬ P x) l.
Proof.
  revert acc. induction l as [|x l IH]; intros acc; cbn; [by rewrite app_nil_r|].
  rewrite IH. do 2 case_decide; try done. by rewrite <- app_assoc.
Qed.

Lemma head_matches_spec orig targets i :
  head_matches orig targets i = true →
  ∀ k, 0 < k ≤ i → MsgId <$> targets !! k = MsgId <$> orig !! k.
Proof.
  induction i as [|i IH]; cbn; [lia|].
  intros [H%bool_decide_eq_true Hr]%andb_true_iff k Hk.
  destruct (decide (k = S i)) as [->|]; [done|]. apply IH; [done|lia].
Qed.

Lemma head_matches_take orig targets :
  0 < length targets ≤ length orig →
  MsgId <$> targets !! 0 = MsgId <$> orig !! 0 →
  head_matches orig targets (length targets - 1) = true →
  MsgId <$> targets = MsgId <$> take (length targets) orig.
Proof.
  intros Hlen H0 Hm. apply list_eq. intros k. rewrite !list_lookup_fmap.
  destruct (decide (k < length targets)).
  - rewrite lookup_take_lt by done. destruct (decide (k = 0)) as [->|]; [done|].
    apply (head_matches_spec _ _ _ Hm). lia.
  - rewrite lookup_take_ge by lia. rewrite (lookup_ge_None_2 targets) by lia. done.
Qed.

Lemma FilterOutByMsgId_spec orig targets :
  NoDup (MsgId <$> orig) → FilterOutByMsgId orig targets = without_ids targets id orig.
Proof.
  intros Hnd. unfold FilterOutByMsgId, without_ids; cbn.
  case_match eqn:Hc.
  - rewrite !andb_true_iff, !bool_decide_eq_true in Hc. destruct Hc as [[Hlen H0] Hm].
    pose proof (head_matches_take _ _ Hlen H0 Hm) as Ht.
    rewrite <- (take_drop (length targets) orig) in Hnd |- * at 2.
    rewrite fmap_app, NoDup_app in Hnd. destruct Hnd as (_ & Hdisj & _).
    rewrite filter_app, filter_none, filter_all; [done| |].
    + apply Forall_forall. intros x Hx Hin. rewrite Ht in Hin.
      apply (Hdisj _ Hin). by apply list_elem_of_fmap_2.
    + apply Forall_forall. intros x Hx Hin. apply Hin. rewrite Ht.
      by apply list_elem_of_fmap_2.
  - rewrite foldl_filter; cbn. apply filter_iff, Forall_forall. intros x _.
    by rewrite elem_of_target_ids.
Qed.

Lemma meta_by_id_lookup (l : list entry) m0 :
  NoDup (MsgId <$> l.*1) →
  ∃ m, meta_by_id l.*1 l.*2 m0 = Some m
    ∧ (∀ x, x ∈ l → m !! MsgId x.1 = Some x.2)
    ∧ (∀ k, k ∉ MsgId <$> l.*1 → m !! k = m0 !! k).
Proof.
  revert m0. induction l as [|x l IH]; intros m0; cbn.
  { exists m0. set_solver. }
  intros [Hx Hnd]%NoDup_cons.
  destruct (IH (<[MsgId x.1 := x.2]> m0) Hnd) as (m & Hm & Hin & Hout).
  exists m. split; [done|]. split.
  - intros y [->|Hy]%elem_of_cons; [|by apply Hin].
    rewrite Hout by done. by rewrite lookup_insert_eq.
  - intros k Hk. rewrite Hout by set_solver. rewrite lookup_insert_ne by set_solver. done.
Qed.

Lemma filter_fst (P : Notification → Prop) `{∀ x, Decision (P x)} (l : list entry) :
  filter P l.*1 = (filter (λ x, P x.1) l).*1.
Proof.
  induction l as [|x l IH]; [done|]. cbn [fmap list_fmap]. rewrite !filter_cons.
  change (list_fmap _ _ fst l) with (l.*1). rewrite IH. by case_decide.
Qed.

(** *** The log of a store *)

(** One operation of the interface that changes or reads a channel. *)
Inductive op :=
| OpAppend (chanId payload : string) (expiration : Z)
| OpAppendUnicast (chanId appId payload msgId : string) (m : Metadata)
| OpScrub (chanId : string) (criteria : list string)
| OpDropByMsgId (chanId : string) (targets : list Notification)
| OpSnapshot (chanId : string)
| OpUnfiltered (chanId : string).

Inductive answer :=
| AnsUnit
| AnsSnapshot (top : Z) (ns : list Notification)
| AnsUnfiltered (top : Z) (r : option (list Notification * list Metadata)).

(** The in-memory store; [None] is a panic. *)
Definition exec (now : Z) (o : op) (sto : InMemoryPendingStore)
    : option (InMemoryPendingStore * answer) :=
  match o with
  | OpAppend c p e => Some (AppendToChannel c p e sto, AnsUnit)
  | OpAppendUnicast c a p i m => Some (AppendToUnicastChannel c a p i m sto, AnsUnit)
  | OpScrub c cr => sto' ← Scrub now c cr sto; Some (sto', AnsUnit)
  | OpDropByMsgId c ts => sto' ← DropByMsgId c ts sto; Some (sto', AnsUnit)
  | OpSnapshot c => '(top, ns) ← GetChannelSnapshot now c sto; Some (sto, AnsSnapshot top ns)
  | OpUnfiltered c => let '(top, r) := GetChannelUnfiltered c sto in Some (sto, AnsUnfiltered top r)
  end.

(** What each operation promises, on the log of entries of its channel. *)
Abbreviation chan := (Z * list entry)%type.
Abbreviation log := (gmap string chan).

Definition channel_of (a : log) (c : string) : chan := default (0%Z, []) (a !! c).

Definition spec_append (c : string) (x : entry) (inc : Z) (a : log) : log :=
  <[c := (i64 ((channel_of a c).1 + inc), (channel_of a c).2 ++ [x])]> a.

Definition spec (now : Z) (o : op) (a : log) : log * answer :=
  match o with
  | OpAppend c p e =>
      (spec_append c (Build_Notification "" "" p, MkMeta e "" false) 1 a, AnsUnit)
  | OpAppendUnicast c app p i m =>
      (spec_append c (Build_Notification app i p, m) 0 a, AnsUnit)
  | OpScrub c cr =>
      let '(app, tag) := default ("", "") (scrub_criteria cr) in
      (alter (λ ch, (ch.1, scrubbed now app tag ch.2)) c a, AnsUnit)
  | OpDropByMsgId c ts =>
      (alter (λ ch, (ch.1, without_ids ts fst ch.2)) c a, AnsUnit)
  | OpSnapshot c =>
      (a, AnsSnapshot (channel_of a c).1 (live now (channel_of a c).2).*1)
  | OpUnfiltered c =>
      (a, AnsUnfiltered (channel_of a c).1 ((λ ch : chan, (ch.2.*1, ch.2.*2)) <$> a !! c))
  end.

Definition ids (l : list entry) : list string := MsgId <$> l.*1.

(** What callers respect: message ids are fresh on unicast channels, only
    unicast channels are dropped from by id, stored metadata is not marked
    obsolete, and [Scrub] gets at most two criteria. *)
Definition admissible (a : log) (o : op) : Prop :=
  match o with
  | OpAppend c _ _ => UnicastChannel c ≠ Some true
  | OpAppendUnicast c _ _ i m =>
      Obsolete m = false ∧ (UnicastChannel c = Some true → i ∉ ids (channel_of a c).2)
  | OpScrub _ cr => length cr ≤ 2
  | OpDropByMsgId c _ => UnicastChannel c = Some true
  | _ => True
  end.

(** Invariant of a channel's log. *)
Definition chan_ok (c : string) (ch : chan) : Prop :=
  not_obsolete ch.2 ∧ in_sN 64 ch.1 ∧ (UnicastChannel c = Some true → NoDup (ids ch.2)).
Definition log_ok (a : log) : Prop := map_Forall chan_ok a.

(** The concrete channel that represents a log. *)
Definition conc (ch : chan) : channel := MkChannel ch.1 ch.2.*1 ch.2.*2.
Definition repr (a : log) : InMemoryPendingStore := conc <$> a.

Lemma copy_padded_id {A} (zero : A) n l : n = length l → copy_padded zero n l = l.
Proof. intros ->. unfold copy_padded. by rewrite take_ge, Nat.sub_diag, app_nil_r by lia. Qed.

Lemma getChannelUnfiltered_repr a c :
  getChannelUnfiltered c (repr a)
  = (λ ch : chan, (conc ch, ch.2.*1, ch.2.*2)) <$> a !! c.
Proof.
  unfold getChannelUnfiltered, repr. rewrite lookup_fmap.
  destruct (a !! c) as [ch|]; cbn -[copy_padded]; [|done].
  by rewrite !copy_padded_id by (by rewrite !length_fmap).
Qed.

Lemma appendToChannel_repr c n inc m a :
  appendToChannel c n inc m (repr a) = repr (spec_append c (n, m) inc a).
Proof.
  unfold appendToChannel, repr, spec_append, channel_of. rewrite fmap_insert, lookup_fmap.
  destruct (a !! c); cbn; unfold conc; cbn; [by rewrite !fmap_app|done].
Qed.

Lemma chan_ok_of a c : log_ok a → chan_ok c (channel_of a c).
Proof.
  intros Ha. unfold channel_of. destruct (a !! c) eqn:E; cbn; [by eapply Ha|].
  split_and!; [constructor|done|intros _; constructor].
Qed.

Lemma spec_append_ok c x inc a :
  log_ok a → Obsolete x.2 = false →
  (UnicastChannel c = Some true → MsgId x.1 ∉ ids (channel_of a c).2) →
  log_ok (spec_append c x inc a).
Proof.
  intros Ha Hx Hid. pose proof (chan_ok_of a c Ha) as (Ho & Hr & Hn).
  apply map_Forall_insert_2; [|done]. split_and!; cbn.
  - apply Forall_app. split; [done|]. by constructor.
  - by apply sN_range.
  - intros Hc. unfold ids in *. rewrite !fmap_app. apply NoDup_app. split_and!; [auto| |].
    + intros k Hk. cbn. specialize (Hid Hc). set_solver.
    + apply NoDup_singleton.
Qed.

Lemma alter_ok (f : chan → chan) c a :
  log_ok a → (∀ ch, chan_ok c ch → chan_ok c (f ch)) → log_ok (alter f c a).
Proof.
  intros Ha Hf i ch. destruct (decide (i = c)) as [->|].
  - rewrite lookup_alter_eq. intros (ch' & E & ->)%fmap_Some. apply Hf. by eapply Ha.
  - rewrite lookup_alter_ne by done. apply Ha.
Qed.

(** Keeping a sublist of the entries preserves the invariant. *)
Lemma chan_ok_sublist c top l l' :
  l' `sublist_of` l → chan_ok c (top, l) → chan_ok c (top, l').
Proof.
  intros Hs (Ho & Hr & Hn). split_and!; cbn in *.
  - unfold not_obsolete in *. rewrite Forall_forall in Ho |- *. intros x Hx. apply Ho. by eapply elem_of_sublist.
  - done.
  - intros Hc. eapply sublist_NoDup; [by apply Hn|]. unfold ids. by do 2 apply fmap_sublist.
Qed.

Lemma scrubbed_sublist now app tag l : scrubbed now app tag l `sublist_of` l.
Proof. etrans; [apply sublist_filter|apply live_sublist]. Qed.

Lemma Scrub_repr now c cr a :
  log_ok a → length cr ≤ 2 → Scrub now c cr (repr a) = Some (repr (spec now (OpScrub c cr) a).1).
Proof.
  intros Ha Hcr. unfold Scrub; cbn.
  destruct (scrub_criteria cr) as [[app tag]|] eqn:Ecr; [|by do 3 (destruct cr; try done; cbn in Hcr; try lia)].
  cbn. rewrite getChannelUnfiltered_repr. destruct (a !! c) as [ch|] eqn:E; cbn.
  - destruct (Ha c ch E) as (Ho & _).
    rewrite (FilterOutObsolete_live _ _ Ho); cbn.
    pose proof (scrub_loop_spec now app tag [] ch.2 [] [] Ho) as Hs. cbn in Hs. rewrite Hs; cbn.
    f_equal. unfold repr. apply map_eq. intros i. rewrite lookup_fmap.
    destruct (decide (i = c)) as [->|].
    + by rewrite lookup_insert_eq, lookup_alter_eq, E.
    + by rewrite lookup_insert_ne, lookup_alter_ne, lookup_fmap.
  - f_equal. unfold repr. apply map_eq. intros i. rewrite !lookup_fmap.
    destruct (decide (i = c)) as [->|]; [by rewrite lookup_alter_eq, E|by rewrite lookup_alter_ne].
Qed.

Lemma repr_insert_alter (f : chan → chan) c a ch :
  a !! c = Some ch → <[c := conc (f ch)]> (repr a) = repr (alter f c a).
Proof.
  intros E. unfold repr. apply map_eq. intros i. rewrite lookup_fmap.
  destruct (decide (i = c)) as [->|].
  - by rewrite lookup_insert_eq, lookup_alter_eq, E.
  - by rewrite lookup_insert_ne, lookup_alter_ne, lookup_fmap.
Qed.

Lemma repr_alter_absent (f : chan → chan) c a :
  a !! c = None → repr a = repr (alter f c a).
Proof.
  intros E. unfold repr. apply map_eq. intros i. rewrite !lookup_fmap.
  destruct (decide (i = c)) as [->|]; [by rewrite lookup_alter_eq, E|by rewrite lookup_alter_ne].
Qed.

Lemma DropByMsgId_repr c ts a :
  log_ok a → UnicastChannel c = Some true →
  DropByMsgId c ts (repr a)
  = Some (repr (alter (λ ch, (ch.1, without_ids ts fst ch.2)) c a)).
Proof.
  intros Ha Hc. unfold DropByMsgId. unfold repr at 1. rewrite lookup_fmap.
  destruct (a !! c) as [ch|] eqn:E; cbn -[meta_by_id FilterOutByMsgId].
  2: { f_equal. by apply repr_alter_absent. }
  destruct (Ha c ch E) as (_ & _ & Hn). specialize (Hn Hc).
  destruct (meta_by_id_lookup ch.2 ∅ Hn) as (m & -> & Hin & _). cbn -[FilterOutByMsgId].
  rewrite FilterOutByMsgId_spec by done. unfold without_ids. rewrite filter_fst.
  f_equal. rewrite <- (repr_insert_alter _ c a ch E). f_equal. unfold conc; cbn. f_equal.
  rewrite <- list_fmap_compose. apply list_fmap_ext. intros i x Hx; cbn.
  apply list_elem_of_lookup_2, list_elem_of_filter in Hx as [_ Hx]. by rewrite (Hin _ Hx).
Qed.

Lemma exec_spec now o a :
  log_ok a → admissible a o →
  exec now o (repr a) = Some (prod_map repr id (spec now o a)).
Proof.
  intros Ha Ho. destruct o as [c p e|c app p i m|c cr|c ts|c|c]; cbn in Ho.
  - cbn. unfold AppendToChannel. by rewrite appendToChannel_repr.
  - cbn. unfold AppendToUnicastChannel. by rewrite appendToChannel_repr.
  - cbn [exec]. rewrite Scrub_repr by done. cbn.
    by destruct (default ("", "") (scrub_criteria cr)).
  - cbn [exec]. by rewrite DropByMsgId_repr.
  - cbn. unfold GetChannelSnapshot, GetChannelUnfiltered, channel_of.
    rewrite getChannelUnfiltered_repr. destruct (a !! c) as [ch|] eqn:E; cbn; [|done].
    destruct (Ha c ch E) as (Hno & _). by rewrite FilterOutObsolete_live.
  - cbn. unfold GetChannelUnfiltered, channel_of. rewrite getChannelUnfiltered_repr.
    by destruct (a !! c).
Qed.

Lemma spec_ok now o a : log_ok a → admissible a o → log_ok (spec now o a).1.
Proof.
  intros Ha Ho. destruct o as [c p e|c app p i m|c cr|c ts|c|c]; cbn in *; try done.
  - by apply spec_append_ok.
  - apply spec_append_ok; [done|..]; naive_solver.
  - destruct (default ("", "") (scrub_criteria cr)) as [app tag]. cbn. apply alter_ok; [done|].
    intros [top l]. apply chan_ok_sublist, scrubbed_sublist.
  - apply alter_ok; [done|]. intros [top l]. apply chan_ok_sublist, sublist_filter.
Qed.

(** *** Runs *)
Fixpoint run (os : list (Z * op)) (sto : InMemoryPendingStore)
    : option (InMemoryPendingStore * list answer) :=
  match os with
  | [] => Some (sto, [])
  | (now, o) :: os =>
      '(sto, x) ← exec now o sto;
      '(sto, xs) ← run os sto;
      Some (sto, x :: xs)
  end.

Fixpoint spec_run (os : list (Z * op)) (a : log) : log * list answer :=
  match os with
  | [] => (a, [])
  | (now, o) :: os =>
      let '(a, x) := spec now o a in
      let '(a, xs) := spec_run os a in
      (a, x :: xs)
  end.

Fixpoint admissible_run (os : list (Z * op)) (a : log) : Prop :=
  match os with
  | [] => True
  | (now, o) :: os => admissible a o ∧ admissible_run os (spec now o a).1
  end.

Lemma run_spec os a :
  log_ok a → admissible_run os a →
  run os (repr a) = Some (prod_map repr id (spec_run os a)) ∧ log_ok (spec_run os a).1.
Proof.
  revert a. induction os as [|[now o] os IH]; intros a Ha; [done|].
  cbn -[spec exec repr]. intros [Ho Hos]. rewrite exec_spec by done.
  pose proof (spec_ok now o a Ha Ho) as Ha'.
  destruct (spec now o a) as [a' x] eqn:E. cbn -[spec exec repr] in *.
  destruct (IH a' Ha' Hos) as [-> Hok]. cbn. by destruct (spec_run os a').
Qed.

Lemma repr_empty : repr ∅ = NewInMemoryPendingStore.
Proof. apply fmap_empty. Qed.

(** *** Textual forms *)
Lemma UnicastUserAndDevice_roundtrip userId deviceId :
  in_string ":"%char userId = false →
  UnicastUserAndDevice (UnicastInternalChannelId userId deviceId) = Some (userId, deviceId).
Proof.
  intros Hu. unfold UnicastUserAndDevice, UnicastInternalChannelId.
  rewrite str_app_cons, str_app_nil. cbn -[splitN2]. unfold splitN2.
  change ("U" =? "U")%char with true. cbn -[cut_at].
  rewrite str_app_cons, str_app_nil, cut_at_app by done. done.
Qed.

Lemma UnicastInternalChannelId_unicast userId deviceId :
  UnicastChannel (UnicastInternalChannelId userId deviceId) = Some true.
Proof. done. Qed.

Lemma str_drop_add n m s : str_drop (n + m) s = str_drop m (str_drop n s).
Proof.
  revert s. induction n as [|n IH]; intros s; cbn; [done|]. destruct s; [by destruct m|done].
Qed.

(** Two application ids can only be confused through a [:] in one of them. *)
Lemma prefix_sep a b r :
  in_string ":"%char a = false → in_string ":"%char b = false →
  has_prefix (a +:+ "::" +:+ r) (b +:+ "::") = true → a = b.
Proof.
  unfold has_prefix. revert b. induction a as [|x a IH]; intros [|y b]; cbn [in_string];
    rewrite ?orb_false_iff, ?bool_decide_eq_false, ?str_app_nil, ?str_app_cons;
    intros Ha Hb; cbn [String.prefix].
  - done.
  - destruct (ascii_dec y ":"); [by destruct Hb|done].
  - destruct (ascii_dec ":" x) as [<-|]; [by destruct Ha|done].
  - destruct (ascii_dec y x) as [->|]; [|done]. intros H. f_equal. naive_solver.
Qed.

Lemma Register_nonempty deviceId appId : appId ≠ "" → Register deviceId appId ≠ "".
Proof.
  unfold Register. intros Ha H. apply (f_equal DecodeString) in H.
  rewrite DecodeString_EncodeToString in H. injection H. by destruct appId.
Qed.

Lemma Register_resolves deviceId appId userId otherDevice :
  appId ≠ "" →
  GetInternalChannelIdFromToken (Register deviceId appId) appId userId otherDevice
  = Ok (UnicastInternalChannelId deviceId deviceId).
Proof.
  intros Ha. pose proof (Register_nonempty deviceId appId Ha) as Ht.
  unfold GetInternalChannelIdFromToken.
  rewrite (bool_decide_eq_true_2 (_ ≠ "")), bool_decide_eq_true_2 by done; cbn -[has_prefix].
  unfold Register. rewrite DecodeString_EncodeToString.
  rewrite str_app_assoc. unfold has_prefix. rewrite prefix_app; cbn -[str_drop].
  replace (String.length appId + 2) with (String.length (appId +:+ "::"))
    by (by rewrite length_str_app).
  by rewrite str_drop_app.
Qed.

End StoreSpec.

(** ** The interface *)
Import Store StoreSpec.

(** [PendingStore] of [store.go]; every operation may fail. *)
Class PendingStore (S : Type) := {
  ps_Register : string → string → st S store_err string;
  ps_Unregister : string → string → st S store_err unit;
  ps_GetInternalChannelId : string → st S store_err string;
  ps_AppendToChannel : string → string → Z → st S store_err unit;
  ps_GetInternalChannelIdFromToken : string → string → string → string → st S store_err string;
  ps_AppendToUnicastChannel : string → string → string → string → Metadata → st S store_err unit;
  ps_GetChannelSnapshot : Z → string → st S store_err (Z * list Notification);
  ps_GetChannelUnfiltered : string → st S store_err (Z * option (list Notification * list Metadata));
  ps_Scrub : Z → string → list string → st S store_err unit;
  ps_DropByMsgId : string → list Notification → st S store_err unit;
}.

Definition ps_exec {S} `{PendingStore S} (now : Z) (o : op) : st S store_err answer :=
  match o with
  | OpAppend c p e => ps_AppendToChannel c p e ≫= λ _, mret AnsUnit
  | OpAppendUnicast c a p i m => ps_AppendToUnicastChannel c a p i m ≫= λ _, mret AnsUnit
  | OpScrub c cr => ps_Scrub now c cr ≫= λ _, mret AnsUnit
  | OpDropByMsgId c ts => ps_DropByMsgId c ts ≫= λ _, mret AnsUnit
  | OpSnapshot c => ps_GetChannelSnapshot now c ≫= λ r, mret (AnsSnapshot r.1 r.2)
  | OpUnfiltered c => ps_GetChannelUnfiltered c ≫= λ r, mret (AnsUnfiltered r.1 r.2)
  end.

(** What clients rely on: a store represents a log of entries per channel; an
    operation that succeeds acts on it as [spec] says, one that fails leaves
    it unchanged, and admissible operations do not panic. *)
Class PendingStoreLaws (S : Type) `{PendingStore S} := {
  ps_inv : S → Prop;
  ps_log : S → gmap string chan;
  ps_log_ok s : ps_inv s → log_ok (ps_log s);
  ps_exec_spec now o s : ps_inv s → admissible (ps_log s) o →
    match ps_exec now o s with
    | (s', Ok a) => ps_inv s' ∧ (ps_log s', a) = spec now o (ps_log s)
    | (s', Err _) => ps_inv s' ∧ ps_log s' = ps_log s
    | (_, Panic) => False
    end;
  ps_Register_log d a s : ps_inv s →
    let '(s', r) := ps_Register d a s in ps_inv s' ∧ ps_log s' = ps_log s ∧ r ≠ Panic;
  ps_Unregister_log d a s : ps_inv s →
    let '(s', r) := ps_Unregister d a s in ps_inv s' ∧ ps_log s' = ps_log s ∧ r ≠ Panic;
  ps_GetInternalChannelId_log n s : ps_inv s →
    let '(s', r) := ps_GetInternalChannelId n s in
    ps_inv s' ∧ ps_log s' = ps_log s ∧ r ≠ Panic
      ∧ (∀ c, r = Ok c → UnicastChannel c ≠ Some true);
  ps_GetInternalChannelIdFromToken_log t a u d s : ps_inv s →
    let '(s', r) := ps_GetInternalChannelIdFromToken t a u d s in
    ps_inv s' ∧ ps_log s' = ps_log s ∧ r ≠ Panic
      ∧ (∀ c, r = Ok c → UnicastChannel c = Some true);
}.

(** The laws of the single operations clients call. *)
Section laws.
Context {S : Type} `{PendingStoreLaws S}.
Implicit Types s : S.

Lemma ps_snapshot_spec now c s :
  ps_inv s →
  match ps_GetChannelSnapshot now c s with
  | (s', Ok (top, ns)) => ps_inv s' ∧ ps_log s' = ps_log s ∧
      top = (channel_of (ps_log s) c).1 ∧ ns = (live now (channel_of (ps_log s) c).2).*1
  | (s', Err _) => ps_inv s' ∧ ps_log s' = ps_log s
  | (_, Panic) => False
  end.
Proof.
  intros Hs. pose proof (ps_exec_spec now (OpSnapshot c) s Hs I) as Hx.
  unfold ps_exec, mbind, st_bind in Hx.
  destruct (ps_GetChannelSnapshot now c s) as [s' [[top ns]|e|]]; cbn in *; [|done..].
  destruct Hx as [? [= ???]]. done.
Qed.

Lemma ps_unfiltered_spec c s :
  ps_inv s →
  match ps_GetChannelUnfiltered c s with
  | (s', Ok (top, r)) => ps_inv s' ∧ ps_log s' = ps_log s ∧
      top = (channel_of (ps_log s) c).1 ∧ r = (λ ch : chan, (ch.2.*1, ch.2.*2)) <$> ps_log s !! c
  | (s', Err _) => ps_inv s' ∧ ps_log s' = ps_log s
  | (_, Panic) => False
  end.
Proof.
  intros Hs. pose proof (ps_exec_spec 0 (OpUnfiltered c) s Hs I) as Hx.
  unfold ps_exec, mbind, st_bind in Hx.
  destruct (ps_GetChannelUnfiltered c s) as [s' [[top ns]|e|]]; cbn in *; [|done..].
  destruct Hx as [? [= ???]]. done.
Qed.

Lemma ps_drop_spec c ts s :
  ps_inv s → UnicastChannel c = Some true →
  match ps_DropByMsgId c ts s with
  | (s', Ok _) => ps_inv s' ∧
      ps_log s' = alter (λ ch, (ch.1, without_ids ts fst ch.2)) c (ps_log s)
  | (s', Err _) => ps_inv s' ∧ ps_log s' = ps_log s
  | (_, Panic) => False
  end.
Proof.
  intros Hs Hc. pose proof (ps_exec_spec 0 (OpDropByMsgId c ts) s Hs Hc) as Hx.
  unfold ps_exec, mbind, st_bind in Hx.
  destruct (ps_DropByMsgId c ts s) as [s' [[]|e|]]; cbn in *; [|done..].
  destruct Hx as [? [= ?]]. done.
Qed.

Lemma ps_scrub_spec now c cr s :
  ps_inv s → length cr ≤ 2 →
  match ps_Scrub now c cr s with
  | (s', Ok _) => ps_inv s' ∧ ps_log s' = (spec now (OpScrub c cr) (ps_log s)).1
  | (s', Err _) => ps_inv s' ∧ ps_log s' = ps_log s
  | (_, Panic) => False
  end.
Proof.
  intros Hs Hc. pose proof (ps_exec_spec now (OpScrub c cr) s Hs Hc) as Hx.
  unfold ps_exec, mbind, st_bind in Hx.
  destruct (ps_Scrub now c cr s) as [s' [[]|e|]]; cbn in *; [|done..].
  destruct Hx as [? Hx]. split; [done|]. by rewrite <- Hx.
Qed.

Lemma ps_append_spec c p e s :
  ps_inv s → UnicastChannel c ≠ Some true →
  match ps_AppendToChannel c p e s with
  | (s', Ok _) => ps_inv s' ∧
      ps_log s' = spec_append c (Build_Notification "" "" p, MkMeta e "" false) 1 (ps_log s)
  | (s', Err _) => ps_inv s' ∧ ps_log s' = ps_log s
  | (_, Panic) => False
  end.
Proof.
  intros Hs Hc. pose proof (ps_exec_spec 0 (OpAppend c p e) s Hs Hc) as Hx.
  unfold ps_exec, mbind, st_bind in Hx.
  destruct (ps_AppendToChannel c p e s) as [s' [[]|er|]]; cbn in *; [|done..].
  destruct Hx as [? [= ?]]. done.
Qed.

Lemma ps_append_unicast_spec c a p i m s :
  ps_inv s → Obsolete m = false →
  (UnicastChannel c = Some true → i ∉ ids (channel_of (ps_log s) c).2) →
  match ps_AppendToUnicastChannel c a p i m s with
  | (s', Ok _) => ps_inv s' ∧
      ps_log s' = spec_append c (Build_Notification a i p, m) 0 (ps_log s)
  | (s', Err _) => ps_inv s' ∧ ps_log s' = ps_log s
  | (_, Panic) => False
  end.
Proof.
  intros Hs Hm Hi. pose proof (ps_exec_spec 0 (OpAppendUnicast c a p i m) s Hs (conj Hm Hi)) as Hx.
  unfold ps_exec, mbind, st_bind in Hx.
  destruct (ps_AppendToUnicastChannel c a p i m s) as [s' [[]|er|]]; cbn in *; [|done..].
  destruct Hx as [? [= ?]]. done.
Qed.
End laws.

Definition of_update {S E} (f : S → option S) : st S E unit := λ s,
  match f s with Some s' => (s', Ok ()) | None => (s, Panic) end.
Definition of_read {S E A} (f : S → option A) : st S E A := λ s,
  match f s with Some a => (s, Ok a) | None => (s, Panic) end.

#[export] Instance InMemory_PendingStore : PendingStore (gmap string channel) := {|
  ps_Register d a s := (s, Ok (Register d a));
  ps_Unregister d a s := (Unregister d a s, Ok ());
  ps_GetInternalChannelId n s := (s, GetInternalChannelId n);
  ps_AppendToChannel c p e s := (AppendToChannel c p e s, Ok ());
  ps_GetInternalChannelIdFromToken t a u d s := (s, GetInternalChannelIdFromToken t a u d);
  ps_AppendToUnicastChannel c a p i m s := (AppendToUnicastChannel c a p i m s, Ok ());
  ps_GetChannelSnapshot now c := of_read (GetChannelSnapshot now c);
  ps_GetChannelUnfiltered c s := (s, Ok (GetChannelUnfiltered c s));
  ps_Scrub now c cr := of_update (Scrub now c cr);
  ps_DropByMsgId c ts := of_update (DropByMsgId c ts);
|}.

(** The in-memory store runs the interface the way [exec] does. *)
Lemma ps_exec_exec now o (sto : gmap string channel) :
  ps_exec now o sto
  = match exec now o sto with Some (s', a) => (s', Ok a) | None => (sto, Panic) end.
Proof.
  unfold ps_exec, exec, mbind, st_bind; destruct o; cbn; unfold of_update, of_read; try done.
  - by destruct (Scrub _ _ _ _).
  - by destruct (DropByMsgId _ _ _).
  - by destruct (GetChannelSnapshot _ _ _) as [[]|].
  - by destruct (GetChannelUnfiltered _ _).
Qed.

Definition log_of (sto : gmap string channel) : gmap string chan :=
  (λ c, (topLevel c, zip (notifications c) (meta c))) <$> sto.

Lemma log_of_repr a : log_of (repr a) = a.
Proof.
  unfold log_of, repr. rewrite <- map_fmap_compose.
  trans (id <$> a); [|apply map_fmap_id]. apply map_fmap_ext. intros i [top l] _. cbn. by rewrite zip_fst_snd.
Qed.

Lemma GetInternalChannelIdFromToken_unicast t a u d c :
  GetInternalChannelIdFromToken t a u d = Ok c → UnicastChannel c = Some true.
Proof.
  unfold GetInternalChannelIdFromToken. intros H. branch; by injection H as <-.
Qed.

#[export] Program Instance InMemory_PendingStoreLaws : PendingStoreLaws (gmap string channel) := {|
  ps_inv sto := ∃ a, log_ok a ∧ sto = repr a;
  ps_log := log_of;
|}.
Next Obligation. intros s (a & Ha & ->). by rewrite log_of_repr. Qed.
Next Obligation.
  intros now o s (a & Ha & ->). rewrite log_of_repr. intros Ho.
  rewrite ps_exec_exec, exec_spec by done.
  pose proof (spec_ok now o a Ha Ho). destruct (spec now o a) as [a' x]; cbn [prod_map fst snd] in *.
  rewrite log_of_repr. naive_solver.
Qed.
Next Obligation. cbn. naive_solver. Qed.
Next Obligation. cbn. naive_solver. Qed.
Next Obligation.
  intros n s Hs; cbn. unfold GetInternalChannelId.
  split_and!; [done|done|by case_decide|]. intros c. case_decide; [|done]. by intros [= <-].
Qed.
Next Obligation.
  intros t a u d s Hs; cbn. split_and!; [done|done| |apply GetInternalChannelIdFromToken_unicast].
  unfold GetInternalChannelIdFromToken. by branch.
Qed.

Lemma run_inv os sto xs :
  admissible_run os ∅ → run os NewInMemoryPendingStore = Some (sto, xs) → ps_inv sto.
Proof.
  rewrite <- repr_empty. intros Ha Hr. destruct (run_spec os ∅ (map_Forall_empty _) Ha) as [E Hok].
  rewrite E in Hr. injection Hr as <- _. by eexists.
Qed.

(** ** Properties *)
Section properties.

(** C10: The in-memory store implements the log specification: for every
    sequence of admissible operations from an empty store, no operation
    panics, every answer (snapshots, unfiltered contents) is the one computed
    from the list of entries per channel, the two parallel slices of a channel
    always represent that list, and the log invariant (no stored entry marked
    obsolete, unique ids on unicast channels, levels within int64) holds. *)
Theorem store_refines_log (os : list (Z * op)) :
  admissible_run os ∅ →
  run os NewInMemoryPendingStore = Some (prod_map repr id (spec_run os ∅)) ∧
  log_ok (spec_run os ∅).1.
Proof. rewrite <- repr_empty. apply run_spec, map_Forall_empty. Qed.

Definition example_ops : list (Z * op) :=
  [(1%Z, OpAppend "0" "{}" 10); (2%Z, OpAppendUnicast "Uu:d" "app" "1" "m1" (MkMeta 9 "t" false));
   (3%Z, OpAppendUnicast "Uu:d" "app" "2" "m2" (MkMeta 9 "t" false)); (4%Z, OpSnapshot "Uu:d");
   (4%Z, OpDropByMsgId "Uu:d" [Build_Notification "" "m1" ""]); (5%Z, OpUnfiltered "Uu:d");
   (5%Z, OpScrub "Uu:d" ["app"; "t"]); (5%Z, OpSnapshot "0"); (11%Z, OpSnapshot "0")].

Lemma store_refines_log_witness :
  ∃ s, run example_ops NewInMemoryPendingStore = Some (s,
    [AnsUnit; AnsUnit; AnsUnit; AnsSnapshot 0 [Build_Notification "app" "m2" "2"]; AnsUnit;
     AnsUnfiltered 0 (Some ([Build_Notification "app" "m2" "2"], [MkMeta 9 "t" false])); AnsUnit;
     AnsSnapshot 1 [Build_Notification "" "" "{}"]; AnsSnapshot 1 []]).
Proof.
  destruct (store_refines_log example_ops) as [-> _]; [|by eexists].
  cbn; split_and!; try done; try (intros _); vm_compute; try set_solver.
Defined.

(** [FilterOutObsolete] on paired slices without marked entries never goes
    out of bounds and returns, in order, exactly the live notifications: none
    is expired, no two of them share an application and a replace tag, and a
    notification that was left out although it has not expired has a later
    live one with its application and tag. *)
Theorem FilterOutObsolete_correct (now : Z) (l : list entry) :
  not_obsolete l →
  ∃ k meta', FilterOutObsolete now l.*1 l.*2 = Some (k.*1, meta') ∧
    length meta' = length l ∧ k `sublist_of` l ∧
    Forall (λ x, Before x.2 now = false) k ∧
    (∀ i j x y, i < j → k !! i = Some x → k !! j = Some y → ReplaceTag x.2 ≠ "" →
       supersedes now x y = false) ∧
    (∀ i x, l !! i = Some x → Before x.2 now = false →
       x ∈ k ∨ ∃ y, y ∈ drop (S i) l ∧ y ∈ k ∧ supersedes now x y = true).
Proof.
  intros Hl. exists (live now l), (marked now l).
  split_and!; [by apply FilterOutObsolete_live|apply length_marked|apply live_sublist|
    apply live_alive|apply live_unique|apply live_covers].
Qed.

Lemma FilterOutObsolete_correct_witness :
  let l := [(Build_Notification "a" "1" "", MkMeta 5 "t" false);
            (Build_Notification "a" "2" "", MkMeta 1 "t" false);
            (Build_Notification "a" "3" "", MkMeta 5 "t" false)] in
  ∃ k meta', FilterOutObsolete 3 l.*1 l.*2 = Some (k, meta') ∧ length meta' = 3.
Proof.
  cbn zeta. edestruct (FilterOutObsolete_correct 3) as (k & m & H & Hm & _).
  2: { exists k.*1, m. split; [exact H|exact Hm]. }
  by repeat constructor.
Defined.

(** The optimised removal by message id agrees with the plain filter: when
    the ids of [orig] are distinct, whether the head shortcut or the slow path
    is taken, the result is the notifications of [orig], in order, whose id is
    not the id of a target. *)
Theorem FilterOutByMsgId_correct (orig targets : list Notification) :
  NoDup (MsgId <$> orig) →
  FilterOutByMsgId orig targets = filter (λ n, MsgId n ∉ MsgId <$> targets) orig.
Proof. apply FilterOutByMsgId_spec. Qed.

Lemma FilterOutByMsgId_correct_witness :
  let n i := Build_Notification "a" i "" in
  FilterOutByMsgId [n "1"; n "2"; n "3"] [n "1"; n "2"] = [n "3"] ∧
  FilterOutByMsgId [n "1"; n "2"; n "3"] [n "1"; n "3"] = [n "2"].
Proof.
  cbn zeta. split; (rewrite FilterOutByMsgId_correct; [by vm_compute|]);
    by apply (bool_decide_unpack _).
Defined.

(** Tokens: the token [Register] gives for a device and application
    resolves, presented with that application, to the unicast channel of that
    device; presented with another application id it is refused as
    unauthorized, provided neither id has a colon; an undecodable token is
    unknown. *)
Theorem token_roundtrip (deviceId appId userId otherDevice : string) :
  appId ≠ "" →
  GetInternalChannelIdFromToken (Register deviceId appId) appId userId otherDevice
    = Ok (UnicastInternalChannelId deviceId deviceId) ∧
  (∀ appId', appId' ≠ "" → appId' ≠ appId →
     in_string ":"%char appId = false → in_string ":"%char appId' = false →
     GetInternalChannelIdFromToken (Register deviceId appId) appId' userId otherDevice
       = Err ErrUnauthorized).
Proof.
  intros Ha. split; [by apply Register_resolves|]. intros appId' Ha' Hne Hc Hc'.
  pose proof (Register_nonempty deviceId appId Ha) as Ht.
  unfold GetInternalChannelIdFromToken.
  rewrite (bool_decide_eq_true_2 (_ ≠ "")), bool_decide_eq_true_2 by done; cbn -[has_prefix].
  unfold Register. rewrite DecodeString_EncodeToString.
  destruct (has_prefix _ _) eqn:E; [|done]. by apply prefix_sep in E.
Qed.

Lemma token_roundtrip_witness :
  GetInternalChannelIdFromToken (Register "dev" "app1") "app1" "" "" = Ok "Udev:dev" ∧
  GetInternalChannelIdFromToken (Register "dev" "app1") "app2" "" "" = Err ErrUnauthorized.
Proof.
  destruct (token_roundtrip "dev" "app1" "" "") as [-> H]; [done|]. split; [done|].
  by apply (H "app2").
Defined.

(** Channel ids in hexadecimal: [HexToInternalChannelId] accepts exactly
    ["0"] and the 32-digit strings, gives a broadcast channel, and
    [InternalChannelIdToHex] reads the digits back, the all-zero id being the
    system channel ["0"]. *)
Theorem hex_channel_roundtrip (h : string) :
  match HexToInternalChannelId h with
  | Ok chanId =>
      BroadcastChannel chanId = Some true ∧
      InternalChannelIdToHex chanId
        = Some (if decide (h = "0" ∨ hex_decode h = Some zero128) then "0" else h)
  | Err e => e = ErrExpected128BitsHexRepr ∧ h ≠ "0" ∧ (len h ≠ 32%Z ∨ hex_decode h = None)
  | Panic => False
  end.
Proof.
  unfold HexToInternalChannelId. destruct (decide (h = "0")) as [->|H0]; [done|].
  case_bool_decide as Hl; cbn -[hex_decode zero128]; [|naive_solver].
  destruct (hex_decode h) as [b|] eqn:E; [|naive_solver].
  destruct (decide (b = zero128)) as [->|Hb]; cbn -[zero128].
  - by rewrite decide_True by naive_solver.
  - rewrite decide_False by naive_solver. rewrite str_app_cons, str_app_nil. split; [done|].
    unfold InternalChannelIdToHex. rewrite decide_False; [done|].
    intros [=].
Qed.

End properties.
