(* ===== verification/Statistics.v ===== *)
(** Usage statistics of the server: [server/statistics/statistics.go].

    Each counted quantity keeps its value for the current five minutes and
    three rings of past values, as [int32]. A ring is the list of its cells
    from the current one on; [None] is a cell never written. *)

From S2P Require Import Prelude.

Module Statistics.
Local Open Scope Z_scope.

Abbreviation ring := (list (option Z)).
Definition ring_New (n : nat) : ring := replicate n None.

(** [r.Value = v; r = r.Next()] *)
Definition ring_push (v : Z) (r : ring) : ring :=
  match r with [] => [] | _ :: r => r ++ [Some v] end.

Record StatsValue := MkStatsValue {
  val5min : Z;
  val60min : ring;
  val1day : ring;
  val7day : ring;
}.

Definition NewStatsValue : StatsValue :=
  MkStatsValue 0 (ring_New 12) (ring_New 288) (ring_New 2016).

Definition StatsValue_Accumulate (v : StatsValue) : StatsValue :=
  MkStatsValue (val5min v) (ring_push (val5min v) (val60min v))
    (ring_push (val5min v) (val1day v)) (ring_push (val5min v) (val7day v)).

Definition StatsValue_Reset5min (v : StatsValue) : StatsValue :=
  MkStatsValue 0 (val60min v) (val1day v) (val7day v).

(** The closure passed to [Do], over all cells; additions wrap. *)
Definition ring_sum (r : ring) : Z :=
  foldl (λ acc p, match p with Some v => i32 (acc + v) | None => acc end) 0 r.

(** Go's integer division truncates. *)
Definition Report (v : StatsValue) : Z * Z * Z * Z :=
  (val5min v, Z.quot (ring_sum (val60min v)) 12, Z.quot (ring_sum (val1day v)) 288,
   Z.quot (ring_sum (val7day v)) 2016).

Record Statistics := MkStatistics {
  devices_online : StatsValue;
  unicasts_total : StatsValue;
  broadcasts_total : StatsValue;
  devices_specific : gmap string StatsValue;
  channel_specific : gmap string StatsValue;
}.

Definition NewStatistics : Statistics :=
  MkStatistics NewStatsValue NewStatsValue NewStatsValue ∅ ∅.

Definition Accumulate (stats : Statistics) : Statistics :=
  MkStatistics (StatsValue_Accumulate (devices_online stats))
    (StatsValue_Accumulate (unicasts_total stats))
    (StatsValue_Accumulate (broadcasts_total stats))
    (StatsValue_Accumulate <$> devices_specific stats)
    (StatsValue_Accumulate <$> channel_specific stats).

Definition Reset5min (stats : Statistics) : Statistics :=
  MkStatistics (devices_online stats) (StatsValue_Reset5min (unicasts_total stats))
    (StatsValue_Reset5min (broadcasts_total stats))
    (devices_specific stats) (channel_specific stats).

(** [val5min++] and [val5min--], with the int32 wrap. *)
Definition add5min (d : Z) (v : StatsValue) : StatsValue :=
  MkStatsValue (i32 (val5min v + d)) (val60min v) (val1day v) (val7day v).

(** The map entry, created on first use, plus [d]. *)
Definition add_entry (d : Z) (name : string) (m : gmap string StatsValue)
    : gmap string StatsValue :=
  <[name := add5min d (default NewStatsValue (m !! name))]> m.

Definition DecreaseDevices (device_name channel_name : string) (stats : Statistics) : Statistics :=
  MkStatistics (add5min (-1) (devices_online stats)) (unicasts_total stats)
    (broadcasts_total stats) (add_entry (-1) device_name (devices_specific stats))
    (add_entry (-1) channel_name (channel_specific stats)).

Definition IncreaseDevices (device_name channel_name : string) (stats : Statistics) : Statistics :=
  MkStatistics (add5min 1 (devices_online stats)) (unicasts_total stats)
    (broadcasts_total stats) (add_entry 1 device_name (devices_specific stats))
    (add_entry 1 channel_name (channel_specific stats)).

Definition IncreaseUnicasts (stats : Statistics) : Statistics :=
  MkStatistics (devices_online stats) (add5min 1 (unicasts_total stats))
    (broadcasts_total stats) (devices_specific stats) (channel_specific stats).

Definition IncreaseBroadcasts (stats : Statistics) : Statistics :=
  MkStatistics (devices_online stats) (unicasts_total stats)
    (add5min 1 (broadcasts_total stats)) (devices_specific stats) (channel_specific stats).

(** One round of [PrintStats], without its log lines. *)
Definition PrintStats_tick (stats : Statistics) : Statistics := Reset5min (Accumulate stats).

Record StatsData := MkStatsData {
  DevicesOnline : Z * Z * Z * Z;
  UnicastsTotal : Z * Z * Z * Z;
  BroadcastsTotal : Z * Z * Z * Z;
  Devices : gmap string (Z * Z * Z * Z);
  Channels : gmap string (Z * Z * Z * Z);
}.

(** The detail lists in map form: Go's iteration order is unspecified. *)
Definition GetStats (stats : Statistics) : StatsData :=
  MkStatsData (Report (devices_online stats)) (Report (unicasts_total stats))
    (Report (broadcasts_total stats)) (Report <$> devices_specific stats)
    (Report <$> channel_specific stats).

(** ** Sliding windows *)

(** The ring after [vs] was pushed into a fresh ring of [n] cells: the last
    [n] values, after the cells not yet written. *)
Definition window (n : nat) (vs : list Z) : ring :=
  drop (length vs) (replicate n None ++ (Some <$> vs)).

Lemma length_window n vs : length (window n vs) = n.
Proof.
  unfold window. rewrite length_drop, length_app, length_replicate, length_fmap. lia.
Qed.

Lemma ring_push_window n v vs :
  (0 < n)%nat → ring_push v (window n vs) = window n (vs ++ [v]).
Proof.
  intros Hn. unfold window at 2.
  rewrite fmap_app, app_assoc, length_app; cbn [length].
  rewrite <- drop_drop, drop_app_le by (rewrite length_app, length_replicate, length_fmap; lia).
  fold (window n vs). pose proof (length_window n vs).
  destruct (window n vs); [cbn in *; lia|done].
Qed.

(** What is left of the history when it is summed up. *)
Definition last_n (n : nat) (vs : list Z) : list Z := drop (length vs - n) vs.

Lemma window_omap n vs : omap id (window n vs) = last_n n vs.
Proof.
  unfold window, last_n. rewrite drop_app, length_replicate.
  rewrite omap_app. replace (omap id (drop (length vs) (replicate n None))) with (@nil Z).
  - cbn. generalize (length vs - n)%nat as k. intros k.
    rewrite <- fmap_drop. by induction (drop k vs) as [|x l IH]; cbn; [|f_equal].
  - rewrite drop_replicate. by induction (n - length vs)%nat.
Qed.

Lemma ring_sum_omap r : ring_sum r = i32 (sum_Z id (omap id r)).
Proof.
  unfold ring_sum.
  assert (∀ acc, in_sN 32 acc →
    foldl (λ acc p, match p with Some v => i32 (acc + v) | None => acc end) acc r
    = i32 (acc + sum_Z id (omap id r))) as Hr.
  { induction r as [|[v|] r IH]; intros acc Ha; cbn.
    - by rewrite Z.add_0_r, sN_small.
    - rewrite IH by (by apply sN_range). 
      rewrite sN_add_l by done. f_equal. unfold id. lia.
    - by apply IH. }
  by rewrite Hr.
Qed.

Lemma ring_sum_window n vs : ring_sum (window n vs) = i32 (sum_Z id (last_n n vs)).
Proof. by rewrite ring_sum_omap, window_omap. Qed.

(** The history of a value: the five-minute values accumulated so far. *)
Definition has_history (v : StatsValue) (vs : list Z) : Prop :=
  val60min v = window 12 vs ∧ val1day v = window 288 vs ∧ val7day v = window 2016 vs.

Lemma NewStatsValue_history : has_history NewStatsValue [].
Proof. split_and!; unfold window; cbn [fmap list_fmap length]; by rewrite drop_0, app_nil_r. Qed.

Lemma StatsValue_Accumulate_history v vs :
  has_history v vs → has_history (StatsValue_Accumulate v) (vs ++ [val5min v]).
Proof.
  intros (E1 & E2 & E3). unfold has_history; cbn -[ring_push].
  rewrite E1, E2, E3, !ring_push_window by lia. done.
Qed.

Lemma Report_history v vs :
  has_history v vs →
  Report v = (val5min v, Z.quot (i32 (sum_Z id (last_n 12 vs))) 12,
    Z.quot (i32 (sum_Z id (last_n 288 vs))) 288, Z.quot (i32 (sum_Z id (last_n 2016 vs))) 2016).
Proof.
  intros (E1 & E2 & E3). unfold Report. by rewrite E1, E2, E3, !ring_sum_window.
Qed.

(** ** Operations in sequence *)
Inductive stats_op :=
| OpIncreaseDevices (d c : string)
| OpDecreaseDevices (d c : string)
| OpIncreaseUnicasts
| OpIncreaseBroadcasts
| OpTick.

Definition stats_step (stats : Statistics) (o : stats_op) : Statistics :=
  match o with
  | OpIncreaseDevices d c => IncreaseDevices d c stats
  | OpDecreaseDevices d c => DecreaseDevices d c stats
  | OpIncreaseUnicasts => IncreaseUnicasts stats
  | OpIncreaseBroadcasts => IncreaseBroadcasts stats
  | OpTick => PrintStats_tick stats
  end.

(** The unicasts counted since the last tick, and the counts of the ticks
    before, for a run of operations. *)
Fixpoint unicast_counts (os : list stats_op) (cur : Z) (past : list Z) : Z * list Z :=
  match os with
  | [] => (cur, past)
  | OpIncreaseUnicasts :: os => unicast_counts os (cur + 1) past
  | OpTick :: os => unicast_counts os 0 (past ++ [i32 cur])
  | _ :: os => unicast_counts os cur past
  end.

Lemma has_history_add5min d v vs : has_history v vs → has_history (add5min d v) vs.
Proof. done. Qed.
Lemma has_history_reset v vs : has_history v vs → has_history (StatsValue_Reset5min v) vs.
Proof. done. Qed.

Lemma unicast_counts_spec os stats cur past :
  val5min (unicasts_total stats) = i32 cur → has_history (unicasts_total stats) past →
  let '(cur', past') := unicast_counts os cur past in
  let v := unicasts_total (foldl stats_step stats os) in
  val5min v = i32 cur' ∧ has_history v past'.
Proof.
  revert stats cur past. induction os as [|o os IH]; intros stats cur past Hc Hp; [done|].
  destruct o; cbn [unicast_counts foldl]; try (by apply IH).
  - apply IH; [|done]. cbn. by rewrite Hc, sN_add_l.
  - apply IH; [done|]. rewrite <- Hc. by apply has_history_reset, StatsValue_Accumulate_history.
Qed.

(** The device counters: the sum of a detail map's current values. *)
Definition map_total (m : gmap string StatsValue) : Z := map_fold (λ _ v acc, val5min v + acc) 0 m.

Lemma map_total_insert k v m :
  m !! k = None → map_total (<[k := v]> m) = val5min v + map_total m.
Proof. intros. unfold map_total. rewrite map_fold_insert_L; [done|lia|done]. Qed.

Lemma map_total_add_entry d k m :
  map_total (add_entry d k m) `mod` 2 ^ 32 = (map_total m + d) `mod` 2 ^ 32.
Proof.
  assert (∀ v r, map_total m = v + r →
    (i32 (v + d) + r) `mod` 2 ^ 32 = (map_total m + d) `mod` 2 ^ 32) as Hm.
  { intros v r ->. rewrite <- Zplus_mod_idemp_l, sN_mod, Zplus_mod_idemp_l.
    f_equal. lia. }
  unfold add_entry. destruct (m !! k) as [v|] eqn:E; cbn [default].
  - assert (map_total m = val5min v + map_total (delete k m)) as Hd.
    { rewrite <- (insert_delete_id m k v E) at 1.
      rewrite map_total_insert; [done|]. apply lookup_delete_eq. }
    rewrite <- (insert_delete_eq m), map_total_insert by apply lookup_delete_eq. by apply Hm.
  - rewrite map_total_insert by done. by apply Hm.
Qed.

Lemma map_total_fmap f m :
  (∀ v, val5min (f v) = val5min v) → map_total (f <$> m) = map_total m.
Proof.
  intros Hf. induction m as [|k v m Hk IH] using map_ind.
  - by rewrite fmap_empty.
  - rewrite fmap_insert, !map_total_insert by (by rewrite ?lookup_fmap, ?Hk). by rewrite Hf, IH.
Qed.

Definition totals_agree (stats : Statistics) : Prop :=
  val5min (devices_online stats) `mod` 2 ^ 32 = map_total (devices_specific stats) `mod` 2 ^ 32 ∧
  val5min (devices_online stats) `mod` 2 ^ 32 = map_total (channel_specific stats) `mod` 2 ^ 32.

Lemma add_agree a b d :
  a `mod` 2 ^ 32 = b `mod` 2 ^ 32 → i32 (a + d) `mod` 2 ^ 32 = (b + d) `mod` 2 ^ 32.
Proof. intros E. by rewrite sN_mod, <- Zplus_mod_idemp_l, E, Zplus_mod_idemp_l. Qed.

Lemma totals_agree_step stats o : totals_agree stats → totals_agree (stats_step stats o).
Proof.
  intros [H1 H2]. destruct o; cbn; unfold totals_agree;
    cbn [devices_online devices_specific channel_specific IncreaseDevices DecreaseDevices
         val5min add5min PrintStats_tick Reset5min Accumulate IncreaseUnicasts IncreaseBroadcasts
         StatsValue_Accumulate];
    rewrite ?map_total_add_entry, ?map_total_fmap by done; try done;
    by split; apply add_agree.
Qed.
End Statistics.

(** ** Properties *)
Section properties.
Import Statistics.
Local Open Scope Z_scope.

(** The reported averages are those of sliding windows: after any
    sequence of counter updates and five-minute rounds, the hour, day and week
    figures of the unicast counter are the truncated averages over 12, 288 and
    2016 intervals of the int32 counts of the last 12, 288 and 2016 completed
    intervals, and the five-minute figure is the count of the current one. *)
Theorem statistics_windows (os : list stats_op) :
  let '(cur, past) := unicast_counts os 0 [] in
  UnicastsTotal (GetStats (foldl stats_step NewStatistics os))
  = (i32 cur, Z.quot (i32 (sum_Z id (last_n 12 past))) 12,
     Z.quot (i32 (sum_Z id (last_n 288 past))) 288,
     Z.quot (i32 (sum_Z id (last_n 2016 past))) 2016).
Proof.
  pose proof (unicast_counts_spec os NewStatistics 0 [] eq_refl NewStatsValue_history) as Hs.
  destruct (unicast_counts os 0 []) as [cur past]. cbn [GetStats UnicastsTotal].
  destruct Hs as [Hc Hp]. by rewrite (Report_history _ _ Hp), Hc.
Qed.

(** The device counters agree: after any sequence of operations the number
    of devices online equals, modulo 2^32, the sum of the per-model counters
    and the sum of the per-channel counters. *)
Theorem statistics_totals (os : list stats_op) :
  totals_agree (foldl stats_step NewStatistics os).
Proof.
  assert (totals_agree NewStatistics) as H by done. revert H.
  generalize NewStatistics. induction os as [|o os IH]; intros stats H; [done|].
  by apply IH, totals_agree_step.
Qed.
End properties.
