(* ===== verification/Broker.v ===== *)
(** Sessions and exchanges of the broker: [server/broker/broker.go] and
    [server/broker/exchanges.go].

    A broker session keeps the device's description, the channel levels the
    device has seen and the scratch area its messages are built in. An
    exchange prepares a message from the store and the session and deals with
    its acknowledgement. Both are state transformers over the pair of the
    store (any instance of [PendingStore]) and the session. *)

From S2P Require Import Prelude Protocol Store.
Import Msg Store StoreSpec.

Module Broker.

(** Errors of sessions and exchanges: [ErrAbort], [ErrNop], the [errOneway] of
    the session loop, and what the store and the wire return. *)
Inductive berr :=
| ErrAbort (Reason : string)
| ErrNop
| ErrOneway
| ErrStore (e : store_err)
| ErrWire (e : Wire.wire_err).

Definition ErrUnexpectedValue : berr := ErrAbort "unexpected value in message".

(** ** Information in the CONNECT message *)
Definition GetInfoString (msg : ConnectMsg) (name defaultVal : string) : outcome berr string :=
  match cm_Info msg !! name with
  | None => Ok defaultVal
  | Some (JStr s) => Ok s
  | Some _ => Err ErrUnexpectedValue
  end.

(** [int(n)] truncates; a value outside int64 is implementation-dependent,
    [conv m e] there. *)
Definition float_to_int (conv : Z → Z → Z) (m e : Z) : Z :=
  let n := if decide (0 ≤ e)%Z then (m * 2 ^ e)%Z else Z.quot m (2 ^ (- e)) in
  if decide (- 2 ^ 63 ≤ n < 2 ^ 63)%Z then n else conv m e.

Definition GetInfoInt (conv : Z → Z → Z) (msg : ConnectMsg) (name : string) (defaultVal : Z)
    : outcome berr Z :=
  match cm_Info msg !! name with
  | None => Ok defaultVal
  | Some (JNum m e) => Ok (float_to_int conv m e)
  | Some _ => Err ErrUnexpectedValue
  end.

(** ** Sessions *)
Abbreviation LevelsMap := (gmap string Z).

Record ExchangesScratchArea := Scratch {
  broadcastMsg : BroadcastMsg;
  notificationsMsg : NotificationsMsg;
  ackMsg : AckMsg;
}.

Record BrokerSession := Session {
  deviceId : string;
  model : string;
  imageChannel : string;
  levels : LevelsMap;
  exchgScratch : ExchangesScratchArea;
}.

Definition empty_scratch : ExchangesScratchArea :=
  Scratch {| b_Type := ""; b_AppId := ""; b_ChanId := ""; b_TopLevel := 0;
             b_Payloads := s_of_list []; b_splitting := 0 |}
          {| n_Type := ""; n_Notifications := s_of_list []; n_splitting := 0 |}
          {| ack_Type := "" |}.

Definition set_levels (l : LevelsMap) (s : BrokerSession) : BrokerSession :=
  Session (deviceId s) (model s) (imageChannel s) l (exchgScratch s).
Definition set_scratch (x : ExchangesScratchArea) (s : BrokerSession) : BrokerSession :=
  Session (deviceId s) (model s) (imageChannel s) (levels s) x.
Definition set_broadcastMsg (m : BroadcastMsg) (s : BrokerSession) : BrokerSession :=
  set_scratch (Scratch m (notificationsMsg (exchgScratch s)) (ackMsg (exchgScratch s))) s.
Definition set_notificationsMsg (m : NotificationsMsg) (s : BrokerSession) : BrokerSession :=
  set_scratch (Scratch (broadcastMsg (exchgScratch s)) m (ackMsg (exchgScratch s))) s.
Definition set_ackMsg (m : AckMsg) (s : BrokerSession) : BrokerSession :=
  set_scratch (Scratch (broadcastMsg (exchgScratch s)) (notificationsMsg (exchgScratch s)) m) s.

Definition level_of (s : BrokerSession) (chanId : string) : Z := default 0%Z (levels s !! chanId).

Definition InternalChannelId (s : BrokerSession) : string :=
  UnicastInternalChannelId (deviceId s) (deviceId s).

(** ** Exchanges *)
Record BroadcastExchange := MkBroadcastExchange {
  be_ChanId : string;
  be_TopLevel : Z;
  be_Notifications : list Notification;
  be_Decoded : list (gmap string jvalue);
}.

Record UnicastExchange := MkUnicastExchange { ue_ChanId : string; ue_CachedOk : bool }.

Inductive Exchange :=
| Broadcast (sbe : BroadcastExchange)
| ConnMeta (Msg : OnewayMsg)
| Unicast (sue : UnicastExchange).

(** The outgoing message of an exchange: the two splittable messages live in
    the session's scratch area, so a reference to them is returned. *)
Inductive out_msg := OutBroadcast | OutNotifications | OutOneway (m : OnewayMsg).

Section broker.
Context {S : Type} `{PendingStore S}.
(** [json.Unmarshal] into a [map[string]interface{}]: [None] is an error; the
    map of [null] is empty. *)
Context (unmarshal_map : string → option (gmap string jvalue)).

(** What an exchange works on: the store and the session. *)
Abbreviation world := (S * BrokerSession)%type.
Abbreviation M := (st world berr).

Definition get_session : M BrokerSession := λ w, (w, Ok w.2).
Definition modify_session (f : BrokerSession → BrokerSession) : M unit :=
  λ w, ((w.1, f w.2), Ok ()).
(** A store operation inside an exchange. *)
Definition with_store {A} (m : st S store_err A) : M A := λ w,
  match m w.1 with
  | (s, Ok a) => ((s, w.2), Ok a)
  | (s, Err e) => ((s, w.2), Err (ErrStore e))
  | (s, Panic) => ((s, w.2), Panic)
  end.

(** [Init]: decode the payloads, once for all sessions. *)
Definition Init (sbe : BroadcastExchange) : BroadcastExchange :=
  MkBroadcastExchange (be_ChanId sbe) (be_TopLevel sbe) (be_Notifications sbe)
    ((λ notif, default ∅ (unmarshal_map (Payload notif))) <$> be_Notifications sbe).

Definition filterByLevel (clientLevel topLevel : Z) (notifs : list Notification)
    : list Notification :=
  let c := Z.of_nat (length notifs) in
  if decide (c = 0)%Z then []
  else
    let delta := i64 (topLevel - clientLevel) in
    let delta := if decide (delta < 0)%Z then 1%Z else delta in
    if decide (delta < c)%Z then drop (Z.to_nat (c - delta)) notifs else notifs.

(** The loop over the decoded payloads, beside their notifications. *)
Fixpoint filter_tagged (tag : string) (notifs : list Notification)
    (decoded : list (gmap string jvalue)) : list string :=
  match notifs, decoded with
  | notif :: notifs, decoded1 :: decoded =>
      match decoded1 !! tag with
      | Some _ => Payload notif :: filter_tagged tag notifs decoded
      | None => filter_tagged tag notifs decoded
      end
  | _, _ => []
  end.

(** [None]: [decoded[len(decoded)-len(notifs):]] is out of range. *)
Definition channelFilter (tag chanId : string) (notifs : list Notification)
    (decoded : list (gmap string jvalue)) : option (list string) :=
  if decide (length notifs ≠ 0 ∧ chanId = SystemInternalChannelId) then
    if decide (length notifs ≤ length decoded)
    then Some (filter_tagged tag notifs (drop (length decoded - length notifs) decoded))
    else None
  else Some (ExtractPayloads notifs).

Definition tag_of (sess : BrokerSession) : string :=
  imageChannel sess +:+ "/" +:+ model sess.

Definition lift {A} (o : option A) : M A :=
  match o with Some a => mret a | None => st_panic end.

Definition BroadcastExchange_Prepare (sbe : BroadcastExchange) : M (out_msg * bool) :=
  sess ← get_session;
  let clientLevel := level_of sess (be_ChanId sbe) in
  let notifs := filterByLevel clientLevel (be_TopLevel sbe) (be_Notifications sbe) in
  payloads ← lift (channelFilter (tag_of sess) (be_ChanId sbe) notifs (be_Decoded sbe));
  if bool_decide (length payloads = 0) && bool_decide (clientLevel ≤ be_TopLevel sbe)%Z
  then st_err ErrNop
  else
    hexId ← lift (InternalChannelIdToHex (be_ChanId sbe));
    modify_session (λ sess,
      let m := BroadcastMsg_Reset (broadcastMsg (exchgScratch sess)) in
      set_broadcastMsg {| b_Type := b_Type m; b_AppId := b_AppId m; b_ChanId := hexId;
        b_TopLevel := be_TopLevel sbe; b_Payloads := s_of_list payloads;
        b_splitting := b_splitting m |} sess);;
    mret (OutBroadcast, true).

Definition BroadcastExchange_Acked (sbe : BroadcastExchange) (done : bool) : M unit :=
  sess ← get_session;
  if decide (ack_Type (ackMsg (exchgScratch sess)) = "ack")
  then modify_session (λ sess, set_levels (<[be_ChanId sbe := be_TopLevel sbe]> (levels sess)) sess)
  else st_err (ErrAbort "expected ACK message").

Definition UnicastExchange_Prepare (now : Z) (sue : UnicastExchange) : M (out_msg * bool) :=
  r ← with_store (ps_GetChannelSnapshot now (ue_ChanId sue));
  let notifs := r.2 in
  if decide (length notifs = 0) then st_err ErrNop
  else
    modify_session (λ sess,
      let m := NotificationsMsg_Reset (notificationsMsg (exchgScratch sess)) in
      set_notificationsMsg {| n_Type := n_Type m; n_Notifications := s_of_list notifs;
        n_splitting := n_splitting m |} sess);;
    mret (OutNotifications, true).

Definition UnicastExchange_Acked (sue : UnicastExchange) (done : bool) : M unit :=
  sess ← get_session;
  if decide (ack_Type (ackMsg (exchgScratch sess)) = "ack")
  then with_store (ps_DropByMsgId (ue_ChanId sue)
         (s_elems (n_Notifications (notificationsMsg (exchgScratch sess)))))
  else st_err (ErrAbort "expected ACK message").

(** [Prepare] and [Acked] of the interface [Exchange]. *)
Definition Prepare (now : Z) (e : Exchange) : M (out_msg * bool) :=
  match e with
  | Broadcast sbe => BroadcastExchange_Prepare sbe
  | ConnMeta m => mret (OutOneway m, false)
  | Unicast sue => UnicastExchange_Prepare now sue
  end.

Definition Acked (e : Exchange) (done : bool) : M unit :=
  match e with
  | Broadcast sbe => BroadcastExchange_Acked sbe done
  | ConnMeta _ => st_panic
  | Unicast sue => UnicastExchange_Acked sue done
  end.

(** The exchanges [FeedPending] feeds into the session, in order. A failing
    [Get] of the system channel is skipped. *)
Definition FeedPending (now : Z) : M (list Exchange) :=
  sess ← get_session;
  r ← st_try (with_store (ps_GetChannelSnapshot now SystemInternalChannelId));
  mret (match r with
        | inl (topLevel, notifications) =>
            if decide (level_of sess SystemInternalChannelId ≠ topLevel)
            then [Broadcast (Init (MkBroadcastExchange SystemInternalChannelId topLevel
                                     notifications []))]
            else []
        | inr _ => []
        end ++ [Unicast (MkUnicastExchange (InternalChannelId sess) true)]).
End broker.
End Broker.

(** ** Specification *)
Module BrokerSpec.
Import Broker.

(** How many of the newest [n] notifications a client at [clientLevel] gets:
    those it has not seen, or only the last one if it is ahead. *)
Definition pending_count (clientLevel topLevel : Z) (n : nat) : nat :=
  if decide (topLevel < clientLevel)%Z then n `min` 1
  else n `min` Z.to_nat (topLevel - clientLevel).

Section spec.
Context {S : Type} `{PendingStore S} (unmarshal_map : string → option (gmap string jvalue)).

Definition decoded_of (n : Notification) : gmap string jvalue :=
  default ∅ (unmarshal_map (Payload n)).

(** On the system channel a device only gets what is tagged for it. *)
Definition relevant (tag chanId : string) (n : Notification) : Prop :=
  chanId ≠ SystemInternalChannelId ∨ is_Some (decoded_of n !! tag).
#[export] Instance relevant_dec tag chanId n : Decision (relevant tag chanId n).
Proof. apply _. Defined.

Definition due (sess : BrokerSession) (chanId : string) (topLevel : Z)
    (ns : list Notification) : list Notification :=
  let k := pending_count (level_of sess chanId) topLevel (length ns) in
  filter (relevant (tag_of sess) chanId) (drop (length ns - k) ns).

Lemma filterByLevel_spec c t l :
  in_sN 64 (t - c) →
  filterByLevel c t l = drop (length l - pending_count c t (length l)) l.
Proof.
  intros Hr. unfold filterByLevel, pending_count.
  case_decide as H0; [by destruct l|].
  rewrite (sN_small 64) by done.
  destruct (decide (t < c)%Z) as [Hlt|Hge].
  - rewrite (decide_True (P := (t - c < 0)%Z)) by lia.
    case_decide.
    + f_equal. lia.
    + replace (length l - _) with 0 by lia. by rewrite drop_0.
  - rewrite (decide_False (P := (t - c < 0)%Z)) by lia.
    case_decide.
    + f_equal. lia.
    + replace (length l - _) with 0 by lia. by rewrite drop_0.
Qed.

Lemma filter_tagged_spec tag l :
  filter_tagged tag l (decoded_of <$> l)
  = Payload <$> filter (relevant tag SystemInternalChannelId) l.
Proof.
  induction l as [|n l IH]; [done|]. cbn [filter_tagged fmap list_fmap].
  rewrite filter_cons. change (list_fmap _ _ decoded_of l) with (decoded_of <$> l).
  destruct (decide (relevant tag SystemInternalChannelId n)) as [[?|[v E]]|Hn]; [done|..].
  - rewrite E. cbn. by rewrite IH.
  - destruct (decoded_of n !! tag) eqn:E; [|done].
    destruct Hn. right. rewrite E. by eexists.
Qed.

Lemma channelFilter_spec tag chanId l j :
  channelFilter tag chanId (drop j l) (decoded_of <$> l)
  = Some (Payload <$> filter (relevant tag chanId) (drop j l)).
Proof.
  unfold channelFilter. case_decide as Hc.
  - destruct Hc as [Hl ->]. rewrite decide_True by (autorewrite with len; lia).
    rewrite length_fmap, length_drop in *.
    replace (length l - (length l - j)) with j by lia.
    by rewrite <- fmap_drop, filter_tagged_spec.
  - unfold ExtractPayloads. destruct (drop j l) as [|n k] eqn:E; [done|].
    rewrite filter_all; [done|]. apply Forall_forall. intros x _. left. naive_solver.
Qed.

Lemma payloads_spec sess sbe :
  in_sN 64 (be_TopLevel sbe - level_of sess (be_ChanId sbe)) →
  be_Decoded sbe = decoded_of <$> be_Notifications sbe →
  channelFilter (tag_of sess) (be_ChanId sbe)
    (filterByLevel (level_of sess (be_ChanId sbe)) (be_TopLevel sbe) (be_Notifications sbe))
    (be_Decoded sbe)
  = Some (Payload <$> due sess (be_ChanId sbe) (be_TopLevel sbe) (be_Notifications sbe)).
Proof. intros Hr ->. rewrite filterByLevel_spec by done. apply channelFilter_spec. Qed.

(** The session with the prepared BROADCAST in its scratch area. *)
Definition with_broadcast (hexId : string) (top : Z) (ps : list string)
    (sess : BrokerSession) : BrokerSession :=
  set_broadcastMsg {| b_Type := "broadcast"; b_AppId := b_AppId (broadcastMsg (exchgScratch sess));
    b_ChanId := hexId; b_TopLevel := top; b_Payloads := s_of_list ps; b_splitting := 0 |} sess.

Lemma BroadcastExchange_Prepare_spec (s : S) sess sbe hexId :
  in_sN 64 (be_TopLevel sbe - level_of sess (be_ChanId sbe)) →
  be_Decoded sbe = decoded_of <$> be_Notifications sbe →
  InternalChannelIdToHex (be_ChanId sbe) = Some hexId →
  let ns := due sess (be_ChanId sbe) (be_TopLevel sbe) (be_Notifications sbe) in
  BroadcastExchange_Prepare sbe (s, sess)
  = if decide (ns = [] ∧ (level_of sess (be_ChanId sbe) ≤ be_TopLevel sbe)%Z)
    then ((s, sess), Err ErrNop)
    else ((s, with_broadcast hexId (be_TopLevel sbe) (Payload <$> ns) sess),
          Ok (OutBroadcast, true)).
Proof.
  intros Hr Hd Hh ns. unfold BroadcastExchange_Prepare, mbind, st_bind, get_session.
  cbn [fst snd]. rewrite payloads_spec by done. fold ns. cbn [lift mret st_ret].
  rewrite length_fmap.
  destruct (decide (ns = [])) as [->|Hne]; cbn [length].
  - rewrite (bool_decide_eq_true_2 (0 = 0)), andb_true_l by done. case_bool_decide.
    + by rewrite decide_True.
    + rewrite decide_False by tauto. by rewrite Hh.
  - rewrite bool_decide_eq_false_2, andb_false_l by (by destruct ns).
    rewrite decide_False by tauto. by rewrite Hh.
Qed.

Lemma UnicastExchange_Prepare_spec now (s s' : S) sess sue top ns :
  ps_GetChannelSnapshot now (ue_ChanId sue) s = (s', Ok (top, ns)) →
  UnicastExchange_Prepare now sue (s, sess)
  = if decide (ns = []) then ((s', sess), Err ErrNop)
    else ((s', set_notificationsMsg {| n_Type := "notifications";
             n_Notifications := s_of_list ns; n_splitting := 0 |} sess),
          Ok (OutNotifications, true)).
Proof.
  intros E. unfold UnicastExchange_Prepare, mbind, st_bind, with_store. cbn [fst snd].
  rewrite E. cbn [fst snd]. by destruct ns.
Qed.
End spec.
End BrokerSpec.

(** ** Properties *)
Section properties.
Import Broker BrokerSpec.
Context {S : Type} `{PendingStore S} (unmarshal_map : string → option (gmap string jvalue)).

(** Preparing an initialised broadcast for a session: the session gets a
    BROADCAST for the channel with the exchange's top level and, in order,
    the payloads it has not seen yet (only the last one if it claims to be
    ahead), on the system channel those tagged with its image channel and
    model; if there is none and the session is not ahead, nothing is sent
    and nothing changes. In no case does it panic. *)
Theorem broadcast_prepare (s : S) (sess : BrokerSession) (chanId : string) (top : Z)
    (ns : list Notification) :
  BroadcastChannel chanId = Some true →
  in_sN 64 (top - level_of sess chanId) →
  let sbe := Init unmarshal_map (MkBroadcastExchange chanId top ns []) in
  let '((s', sess'), r) := BroadcastExchange_Prepare sbe (s, sess) in
  let pending := due unmarshal_map sess chanId top ns in
  s' = s ∧ levels sess' = levels sess ∧
  (r = Err ErrNop ∧ sess' = sess ∧ pending = [] ∧ (level_of sess chanId ≤ top)%Z
   ∨ r = Ok (OutBroadcast, true) ∧ (pending ≠ [] ∨ (top < level_of sess chanId)%Z) ∧
     let m := broadcastMsg (exchgScratch sess') in
     b_Type m = "broadcast" ∧ b_TopLevel m = top ∧ b_splitting m = 0 ∧
     Some (b_ChanId m) = InternalChannelIdToHex chanId ∧
     s_elems (b_Payloads m) = Payload <$> pending).
Proof.
  intros Hb Hr sbe.
  assert (∃ h, InternalChannelIdToHex chanId = Some h) as [h Hh].
  { unfold InternalChannelIdToHex. rewrite Hb. case_decide; by eexists. }
  pose proof (BroadcastExchange_Prepare_spec unmarshal_map s sess sbe h Hr eq_refl Hh) as E.
  cbn zeta in E. rewrite E. clear E. cbn -[due with_broadcast].
  case_decide as Hc; cbn -[due]; cbn zeta.
  - destruct Hc. split_and!; [done|done|]. left. done.
  - split_and!; [done|done|]. right. split_and!; try done.
    + destruct (decide (due unmarshal_map sess chanId top ns = [])); [right|by left].
      destruct (decide (level_of sess chanId ≤ top)%Z); [tauto|lia].
    + apply s_elems_of_list.
Qed.

(** C14: Once a session acknowledged a broadcast, preparing the same exchange
    again for it has nothing to send: no notification is sent twice. *)
Theorem broadcast_once (s s' : S) (sess sess' : BrokerSession) (sbe : BroadcastExchange)
    (done : bool) :
  BroadcastExchange_Acked sbe done (s, sess) = ((s', sess'), Ok ()) →
  BroadcastExchange_Prepare sbe (s', sess') = ((s', sess'), Err ErrNop).
Proof.
  unfold BroadcastExchange_Acked, mbind, st_bind, get_session, modify_session. cbn [fst snd].
  case_decide; [|done]. intros [= <- <-].
  unfold BroadcastExchange_Prepare, mbind, st_bind, get_session. cbn [fst snd].
  assert (level_of (set_levels (<[be_ChanId sbe := be_TopLevel sbe]> (levels sess)) sess)
    (be_ChanId sbe) = be_TopLevel sbe) as ->.
  { unfold level_of; cbn. by rewrite lookup_insert_eq. }
  rewrite filterByLevel_spec by (by rewrite Z.sub_diag).
  assert (pending_count (be_TopLevel sbe) (be_TopLevel sbe) (length (be_Notifications sbe)) = 0)
    as ->. { unfold pending_count. rewrite decide_False by lia. lia. }
  rewrite Nat.sub_0_r, drop_all. cbn.
  by rewrite bool_decide_eq_true_2.
Qed.
End properties.

Section witnesses.
Import Broker BrokerSpec.

Definition example_unmarshal (payload : string) : option (gmap string jvalue) :=
  if decide (payload = "{img1/m1:[]}") then Some {[ "img1/m1" := JArr [] ]} else None.

Definition example_session : BrokerSession :=
  Session "dev" "m1" "img1" {[ SystemInternalChannelId := 1%Z ]}
    (Scratch (broadcastMsg empty_scratch) (notificationsMsg empty_scratch) {| ack_Type := "ack" |}).

Definition example_notifications : list Notification :=
  [Build_Notification "" "" "{img1/m1:[]}"; Build_Notification "" "" "{img1/m1:[]}";
   Build_Notification "" "" "{}"].

Definition example_exchange : BroadcastExchange :=
  Init example_unmarshal (MkBroadcastExchange "0" 3 example_notifications []).

Lemma broadcast_prepare_witness :
  let '((s', sess'), r) :=
    BroadcastExchange_Prepare example_exchange (NewInMemoryPendingStore, example_session) in
  r = Ok (OutBroadcast, true) ∧
  s_elems (b_Payloads (broadcastMsg (exchgScratch sess'))) = ["{img1/m1:[]}"].
Proof.
  pose proof (broadcast_prepare example_unmarshal NewInMemoryPendingStore example_session
    "0" 3 example_notifications eq_refl) as Hp.
  fold example_exchange in Hp. cbn zeta in Hp.
  destruct (BroadcastExchange_Prepare _ _) as [[s' sess'] r] eqn:E.
  apply (f_equal snd) in E.
  destruct Hp as (_ & _ & [(-> & _)|(-> & _ & _ & _ & _ & _ & ->)]); [by split| |].
  - vm_compute in E. discriminate.
  - split; [done|]. by vm_compute.
Defined.

Lemma broadcast_once_witness :
  let sbe := example_exchange in
  ∃ sess' : BrokerSession, BroadcastExchange_Prepare sbe (NewInMemoryPendingStore, sess')
    = ((NewInMemoryPendingStore, sess'), Err ErrNop) ∧ level_of sess' "0" = 3%Z.
Proof.
  cbn zeta. eexists. split.
  - eapply (broadcast_once (S := gmap string channel) NewInMemoryPendingStore
      NewInMemoryPendingStore example_session _ _ true). reflexivity.
  - reflexivity.
Defined.
End witnesses.
