(* ===== verification/SimpleBroker.v ===== *)
(** The single-process broker: [server/broker/simple/simple.go].

    The broker's agent ([run]) is one goroutine; every session, every caller
    of [Broadcast]/[Unicast] and every [Register]/[Unregister] call is another.
    They interact through the channels [sessionCh], [deliveryCh] and, per
    session, [exchanges], so the model is a state machine: [step] gives, for
    each labelled action of one of the goroutines, the next state, or [None]
    when the action is blocked. The agent's sends inside a [case] of its select
    are actions of their own ([pc] says which sends are left), since each of
    them can block. Session objects live in a heap of their own ([sessions]),
    so the registry and the channels hold references to them. *)

From S2P Require Import Prelude Protocol Store Statistics Broker.
Import Msg Store StoreSpec Broker.

Module SimpleBroker.

Record BrokerConfig := MkConfig { SessionQueueSize : nat; BrokerQueueSize : nat }.

(** Where the goroutine of a session is: in [Register], waiting for [done];
    released by the agent; feeding the pending exchanges; in the session loop;
    out of it, about to call [Unregister]; past [Unregister]. *)
Inductive phase :=
| Waiting
| Released
| Feeding (todo : list Exchange)
| Active
| Ending
| Gone.

(** [sess.exchanges] is the sequence of everything sent on it ([None] is the
    nil exchange) and how much of it was received. *)
Record simpleBrokerSession := MkSession {
  ss_session : BrokerSession;
  ss_registered : bool;
  ss_sent : list (option Exchange);
  ss_received : nat;
  ss_phase : phase;
}.

Definition queue (s : simpleBrokerSession) : list (option Exchange) :=
  drop (ss_received s) (ss_sent s).
Definition ss_deviceId (s : simpleBrokerSession) : string := deviceId (ss_session s).

Definition set_phase (p : phase) (s : simpleBrokerSession) : simpleBrokerSession :=
  MkSession (ss_session s) (ss_registered s) (ss_sent s) (ss_received s) p.
Definition push_exchange (e : option Exchange) (s : simpleBrokerSession) : simpleBrokerSession :=
  MkSession (ss_session s) (ss_registered s) (ss_sent s ++ [e]) (ss_received s) (ss_phase s).
Definition pop_exchange (s : simpleBrokerSession) : simpleBrokerSession :=
  MkSession (ss_session s) (ss_registered s) (ss_sent s) (S (ss_received s)) (ss_phase s).

Inductive delivery :=
| broadcastDelivery (chanId : string)
| unicastDelivery (chanId : string).

(** The agent: at its select, or at a send inside one of its cases. *)
Inductive loop_pc :=
| Select
| Kick (prev new : nat)
| SendAll (exchg : Exchange) (todo : list nat)
| SendOne (exchg : Exchange) (sid : nat)
| Stopped
| Crashed.

Definition store_err_Error (e : store_err) : string :=
  match e with
  | ErrUnknownChannel => "unknown channel name"
  | ErrUnknownToken => "unknown token"
  | ErrUnauthorized => "unauthorized"
  | ErrFull => "channel is full"
  | ErrExpected128BitsHexRepr => "expected 128 bits hex repr"
  | ErrOther msg => msg
  end.

(** The levels of a CONNECT, in the order [range] visits them. *)
Fixpoint build_levels (kvs : list (string * Z)) (levels : LevelsMap) : outcome berr LevelsMap :=
  match kvs with
  | [] => Ok levels
  | (hexId, v) :: kvs =>
      match HexToInternalChannelId hexId with
      | Ok id => build_levels kvs (<[id := v]> levels)
      | Err err => Err (ErrAbort (store_err_Error err))
      | Panic => Panic
      end
  end.

(** The first part of [Register]: the new session, or its error. *)
Definition new_session (connect : ConnectMsg) (kvs : list (string * Z)) : outcome berr BrokerSession :=
  model ← GetInfoString connect "device" "?";
  imageChannel ← GetInfoString connect "channel" "?";
  levels ← build_levels kvs ∅;
  Ok (Session (cm_DeviceId connect) model imageChannel levels empty_scratch).

Section simple.
Context {S : Type} `{PendingStore S}.
Context (unmarshal_map : string → option (gmap string jvalue)) (cfg : BrokerConfig).

Record SimpleBroker := MkBroker {
  sto : S;
  pc : loop_pc;
  registry : gmap string nat;
  sessions : gmap nat simpleBrokerSession;
  next : nat;
  sessionCh : list nat;
  deliveryCh : list delivery;
  currentStats : option Statistics.Statistics;
}.

Definition NewSimpleBroker (s : S) (stats : option Statistics.Statistics) : SimpleBroker :=
  MkBroker s Select ∅ ∅ 0 [] [] stats.

Definition set_sto x b := MkBroker x (pc b) (registry b) (sessions b) (next b) (sessionCh b) (deliveryCh b) (currentStats b).
Definition set_pc x b := MkBroker (sto b) x (registry b) (sessions b) (next b) (sessionCh b) (deliveryCh b) (currentStats b).
Definition set_registry x b := MkBroker (sto b) (pc b) x (sessions b) (next b) (sessionCh b) (deliveryCh b) (currentStats b).
Definition set_sessions x b := MkBroker (sto b) (pc b) (registry b) x (next b) (sessionCh b) (deliveryCh b) (currentStats b).
Definition set_sessionCh x b := MkBroker (sto b) (pc b) (registry b) (sessions b) (next b) x (deliveryCh b) (currentStats b).
Definition set_deliveryCh x b := MkBroker (sto b) (pc b) (registry b) (sessions b) (next b) (sessionCh b) x (currentStats b).
Definition on_stats f b := MkBroker (sto b) (pc b) (registry b) (sessions b) (next b) (sessionCh b) (deliveryCh b) (f <$> currentStats b).
Definition set_session sid s b := set_sessions (<[sid := s]> (sessions b)) b.

(** [sess.exchanges <- e]: blocked while the queue is full. *)
Definition send (sid : nat) (e : option Exchange) (b : SimpleBroker) : option SimpleBroker :=
  s ← sessions b !! sid;
  if decide (length (queue s) < SessionQueueSize cfg)
  then Some (set_session sid (push_exchange e s) b) else None.

(** [b.sessionCh <- sess], [b.deliveryCh <- d] *)
Definition enqueue_session (sid : nat) (b : SimpleBroker) : option SimpleBroker :=
  if decide (length (sessionCh b) < BrokerQueueSize cfg)
  then Some (set_sessionCh (sessionCh b ++ [sid]) b) else None.
Definition enqueue_delivery (d : delivery) (b : SimpleBroker) : option SimpleBroker :=
  if decide (length (deliveryCh b) < BrokerQueueSize cfg)
  then Some (set_deliveryCh (deliveryCh b ++ [d]) b) else None.

(** *** [Register] and [Unregister] *)

(** Up to the wait for [done]. An error returns at once. *)
Definition Register_start (connect : ConnectMsg) (kvs : list (string * Z)) (b : SimpleBroker)
    : option SimpleBroker :=
  match new_session connect kvs with
  | Ok s =>
      let sid := next b in
      b ← enqueue_session sid b;
      Some (MkBroker (sto b) (pc b) (registry b)
             (<[sid := MkSession s false [] 0 Waiting]> (sessions b)) (Datatypes.S sid)
             (sessionCh b) (deliveryCh b) (currentStats b))
  | _ => Some b
  end.

(** After [<-sess.done]: [FeedPending] reads the store... *)
Definition Register_pending (now : Z) (sid : nat) (b : SimpleBroker) : option SimpleBroker :=
  s ← sessions b !! sid;
  match ss_phase s with
  | Released =>
      match FeedPending unmarshal_map now (sto b, ss_session s) with
      | ((x, _), Ok es) => Some (set_sto x (set_session sid (set_phase (Feeding es) s) b))
      | _ => Some (set_pc Crashed b)
      end
  | _ => None
  end.

(** ... and feeds each exchange; then the session is returned. *)
Definition Register_feed (sid : nat) (b : SimpleBroker) : option SimpleBroker :=
  s ← sessions b !! sid;
  match ss_phase s with
  | Feeding (e :: es) =>
      if decide (length (queue s) < SessionQueueSize cfg)
      then Some (set_session sid (set_phase (Feeding es) (push_exchange (Some e) s)) b) else None
  | Feeding [] =>
      Some (on_stats (Statistics.IncreaseDevices (model (ss_session s)) (imageChannel (ss_session s)))
             (set_session sid (set_phase Active s) b))
  | _ => None
  end.

Definition Unregister (sid : nat) (b : SimpleBroker) : option SimpleBroker :=
  s ← sessions b !! sid;
  match ss_phase s with
  | Ending =>
      b ← enqueue_session sid b;
      Some (on_stats (Statistics.DecreaseDevices (model (ss_session s)) (imageChannel (ss_session s)))
             (set_session sid (set_phase Gone s) b))
  | _ => None
  end.

(** *** The agent *)

(** [b.registry[sess.deviceId] = sess; sess.registered = true; sess.done <- true] *)
Definition complete_register (sid : nat) (b : SimpleBroker) : option SimpleBroker :=
  s ← sessions b !! sid;
  Some (set_pc Select (set_registry (<[ss_deviceId s := sid]> (registry b))
         (set_session sid (MkSession (ss_session s) true (ss_sent s) (ss_received s) Released) b))).

Definition run_session (b : SimpleBroker) : option SimpleBroker :=
  match pc b, sessionCh b with
  | Select, sid :: ch =>
      s ← sessions b !! sid;
      let b := set_sessionCh ch b in
      if ss_registered s then
        (* unregister only current *)
        if decide (registry b !! ss_deviceId s = Some sid)
        then Some (set_registry (delete (ss_deviceId s) (registry b)) b)
        else Some b
      else
        match registry b !! ss_deviceId s with
        | Some prev => Some (set_pc (Kick prev sid) b)
        | None => complete_register sid b
        end
  | _, _ => None
  end.

(** After the last send of a broadcast. *)
Definition settle (b : SimpleBroker) : SimpleBroker :=
  match pc b with
  | SendAll _ [] => on_stats Statistics.IncreaseBroadcasts (set_pc Select b)
  | _ => b
  end.

Definition run_delivery (now : Z) (order : list nat) (b : SimpleBroker) : option SimpleBroker :=
  match pc b, deliveryCh b with
  | Select, broadcastDelivery c :: ch =>
      match ps_GetChannelSnapshot now c (sto b) with
      | (x, Ok (topLevel, notifications)) =>
          let exchg := Init unmarshal_map (MkBroadcastExchange c topLevel notifications []) in
          if decide (order ≡ₚ (map_to_list (registry b)).*2)
          then Some (settle (set_pc (SendAll (Broadcast exchg) order)
                       (set_sto x (set_deliveryCh ch b))))
          else None
      | (x, Err _) => Some (set_sto x (set_deliveryCh ch b))
      | (_, Panic) => Some (set_pc Crashed b)
      end
  | Select, unicastDelivery c :: ch =>
      let b := set_deliveryCh ch b in
      match UnicastUserAndDevice c with
      | None => Some (set_pc Crashed b)
      | Some (_, devId) =>
          match registry b !! devId with
          | Some sid => Some (set_pc (SendOne (Unicast (MkUnicastExchange c false)) sid) b)
          | None => Some (on_stats Statistics.IncreaseUnicasts b)
          end
      end
  | _, _ => None
  end.

Definition run_send (b : SimpleBroker) : option SimpleBroker :=
  match pc b with
  | Kick prev new => b ← send prev None b; complete_register new b
  | SendAll e (sid :: todo) => b ← send sid (Some e) b; Some (settle (set_pc (SendAll e todo) b))
  | SendOne e sid =>
      b ← send sid (Some e) b; Some (on_stats Statistics.IncreaseUnicasts (set_pc Select b))
  | _ => None
  end.

(** *** The state machine *)
Inductive label :=
| LRegister (connect : ConnectMsg) (kvs : list (string * Z))
| LPending (now : Z) (sid : nat)
| LFeed (sid : nat)
| LReceive (sid : nat)
| LEnd (sid : nat)
| LUnregister (sid : nat)
| LBroadcast (chanId : string)
| LUnicast (chanId : string)
| LStore (now : Z) (o : op)
| LRunSession
| LRunDelivery (now : Z) (order : list nat)
| LRunSend
| LStop
| LStart.

Definition step (b : SimpleBroker) (l : label) : option SimpleBroker :=
  match l with
  | LRegister connect kvs =>
      if decide (kvs ≡ₚ map_to_list (cm_Levels connect)) then Register_start connect kvs b else None
  | LPending now sid => Register_pending now sid b
  | LFeed sid => Register_feed sid b
  | LReceive sid =>
      s ← sessions b !! sid;
      match ss_phase s, queue s with
      | Active, _ :: _ => Some (set_session sid (pop_exchange s) b)
      | _, _ => None
      end
  | LEnd sid =>
      s ← sessions b !! sid;
      match ss_phase s with
      | Active => Some (set_session sid (set_phase Ending s) b)
      | _ => None
      end
  | LUnregister sid => Unregister sid b
  | LBroadcast c => enqueue_delivery (broadcastDelivery c) b
  | LUnicast c => enqueue_delivery (unicastDelivery c) b
  | LStore now o => Some (set_sto (ps_exec now o (sto b)).1 b)
  | LRunSession => run_session b
  | LRunDelivery now order => run_delivery now order b
  | LRunSend => run_send b
  | LStop => match pc b with Select => Some (set_pc Stopped b) | _ => None end
  | LStart => match pc b with Stopped => Some (set_pc Select b) | _ => None end
  end.

Fixpoint steps (b : SimpleBroker) (ls : list label) : option SimpleBroker :=
  match ls with
  | [] => Some b
  | l :: ls => b ← step b l; steps b ls
  end.

Inductive reachable (s0 : S) (stats : option Statistics.Statistics) : SimpleBroker → Prop :=
| reach_init : reachable s0 stats (NewSimpleBroker s0 stats)
| reach_step b l b' : reachable s0 stats b → step b l = Some b' → reachable s0 stats b'.
End simple.
Arguments SimpleBroker S : clear implicits.
End SimpleBroker.

(** ** Invariant *)
Module SimpleBrokerInv.
Import SimpleBroker.

Section inv.
Context {S : Type} `{PendingStore S}.
Context (unmarshal_map : string → option (gmap string jvalue)) (cfg : BrokerConfig).
Implicit Types (b : SimpleBroker S) (s : simpleBrokerSession) (sid : nat).
Abbreviation stepb := (step unmarshal_map cfg).
Abbreviation heap := (gmap nat simpleBrokerSession).

Definition queue_ok s : Prop :=
  ss_received s ≤ length (ss_sent s) ∧ length (queue s) ≤ SessionQueueSize cfg.

(** What holds of the agent's position, the registry, the session heap, the
    next reference and the queue of sessions. *)
Record inv_on (pc0 : loop_pc) (reg : gmap string nat) (ss : heap) (nx : nat)
    (ch : list nat) : Prop := {
  inv_next sid s : ss !! sid = Some s → sid < nx;
  inv_registry dev sid : reg !! dev = Some sid →
    ∃ s, ss !! sid = Some s ∧ ss_registered s = true ∧ ss_deviceId s = dev;
  inv_nodup : NoDup ch;
  inv_ch sid : sid ∈ ch → ∃ s, ss !! sid = Some s ∧ (ss_phase s = Waiting ∨ ss_phase s = Gone);
  inv_phase sid s : ss !! sid = Some s → ss_registered s = false ↔ ss_phase s = Waiting;
  inv_kick prev new : pc0 = Kick prev new →
    new ∉ ch ∧ ∃ s, ss !! new = Some s ∧ ss_phase s = Waiting ∧ reg !! ss_deviceId s = Some prev;
  inv_queue sid s : ss !! sid = Some s → queue_ok s;
  (* a registered session that is not its device's current one was sent nil *)
  inv_current sid s : ss !! sid = Some s → ss_registered s = true → ss_phase s ≠ Gone →
    reg !! ss_deviceId s = Some sid ∨ None ∈ ss_sent s;
}.

Definition inv b : Prop := inv_on (pc b) (registry b) (sessions b) (next b) (sessionCh b).

Lemma inv_pc pc0 pc1 reg ss nx ch :
  (∀ p n, pc1 ≠ Kick p n) → inv_on pc0 reg ss nx ch → inv_on pc1 reg ss nx ch.
Proof. intros Hp [????????]. split; try done. intros p n E. by destruct (Hp p n). Qed.

(** Changing one session without touching its identity. *)
Lemma inv_update pc0 reg ss nx ch sid s s' :
  inv_on pc0 reg ss nx ch → ss !! sid = Some s →
  ss_registered s' = ss_registered s → ss_deviceId s' = ss_deviceId s →
  ss_sent s `prefix_of` ss_sent s' → queue_ok s' →
  (ss_phase s' = Waiting ↔ ss_phase s = Waiting) →
  (ss_phase s = Gone → ss_phase s' = Gone) →
  inv_on pc0 reg (<[sid := s']> ss) nx ch.
Proof.
  intros [H1 H2 H3 H4 H5 H6 H7 H8] E Er Ed Es Hq Hw Hg. split.
  - intros i x [[-> <-]|[? Hx]]%lookup_insert_Some; eauto.
  - intros dev i Hi. destruct (H2 dev i Hi) as (x & Hx & Hr & Hd).
    destruct (decide (i = sid)) as [->|].
    + exists s'. rewrite lookup_insert_eq. naive_solver congruence.
    + exists x. by rewrite lookup_insert_ne.
  - done.
  - intros i Hi. destruct (H4 i Hi) as (x & Hx & Hp). destruct (decide (i = sid)) as [->|].
    + exists s'. rewrite lookup_insert_eq. naive_solver congruence.
    + exists x. by rewrite lookup_insert_ne.
  - intros i x [[-> <-]|[? Hx]]%lookup_insert_Some; [|by eapply H5].
    rewrite Er, Hw. by eapply H5.
  - intros p n Hk. destruct (H6 p n Hk) as (Hn & x & Hx & Hp & Hr). split; [done|].
    destruct (decide (n = sid)) as [->|].
    + exists s'. rewrite lookup_insert_eq. naive_solver congruence.
    + exists x. by rewrite lookup_insert_ne.
  - intros i x [[-> <-]|[? Hx]]%lookup_insert_Some; eauto.
  - intros i x [[-> <-]|[? Hx]]%lookup_insert_Some; [|by apply H8].
    rewrite Er, Ed. intros Hr Hng. destruct (H8 i s E Hr) as [?|Hk]; [naive_solver|by left|].
    right. destruct Es as [k ->]. rewrite elem_of_app. by left.
Qed.

Lemma queue_push e s : ss_received s ≤ length (ss_sent s) →
  queue (push_exchange e s) = queue s ++ [e].
Proof. intros Hr. unfold queue; cbn. by rewrite drop_app_le. Qed.

Lemma queue_ok_push e s :
  queue_ok s → length (queue s) < SessionQueueSize cfg → queue_ok (push_exchange e s).
Proof.
  intros [Hr Hq] Hl. split; cbn [push_exchange ss_received ss_sent].
  - rewrite length_app. lia.
  - rewrite queue_push, length_app by done. cbn. lia.
Qed.

Lemma queue_ok_pop s e q : queue_ok s → queue s = e :: q → queue_ok (pop_exchange s).
Proof.
  unfold queue_ok, queue; cbn. intros [Hr Hq] E.
  pose proof (f_equal length E) as El. rewrite length_drop in *. cbn in El. lia.
Qed.

Lemma inv_push pc0 reg ss nx ch sid s e p :
  inv_on pc0 reg ss nx ch → ss !! sid = Some s →
  length (queue s) < SessionQueueSize cfg →
  (p = Waiting ↔ ss_phase s = Waiting) → (ss_phase s = Gone → p = Gone) →
  inv_on pc0 reg (<[sid := set_phase p (push_exchange e s)]> ss) nx ch.
Proof.
  intros Hi E Hl Hw Hg. eapply inv_update; [done|done|done|done| |apply queue_ok_push, Hl|done|done].
  - by eexists.
  - exact (inv_queue _ _ _ _ _ Hi _ _ E).
Qed.

Lemma inv_set_phase pc0 reg ss nx ch sid s p :
  inv_on pc0 reg ss nx ch → ss !! sid = Some s →
  (p = Waiting ↔ ss_phase s = Waiting) → (ss_phase s = Gone → p = Gone) →
  inv_on pc0 reg (<[sid := set_phase p s]> ss) nx ch.
Proof.
  intros Hi E Hw Hg. eapply inv_update; [done|done|done|done|done| |done|done].
  exact (inv_queue _ _ _ _ _ Hi _ _ E).
Qed.

Lemma push_set_phase e s : push_exchange e s = set_phase (ss_phase s) (push_exchange e s).
Proof. done. Qed.

Lemma send_inv sid e b b' : inv b → send cfg sid e b = Some b' → inv b'.
Proof.
  unfold send. intros Hi Hs. apply bind_Some in Hs as (s & E & Hs).
  case_decide; [|done]. injection Hs as <-. unfold inv; cbn.
  rewrite push_set_phase. by apply inv_push.
Qed.

(** Putting a session that is not there on the session queue. *)
Lemma inv_enqueue pc0 reg ss nx ch sid s :
  inv_on pc0 reg ss nx ch → ss !! sid = Some s → ss_phase s = Gone → sid ∉ ch →
  inv_on pc0 reg ss nx (ch ++ [sid]).
Proof.
  intros [H1 H2 H3 H4 H5 H6 H7 H8] E Hg Hn. split; try done.
  - apply NoDup_app. split_and!; [done|set_solver|apply NoDup_singleton].
  - intros i [Hi| ->%list_elem_of_singleton]%elem_of_app; eauto.
  - intros p n Hk. destruct (H6 p n Hk) as (Hnc & x & Hx & Hp & Hr). split; [|by eauto].
    rewrite elem_of_app, list_elem_of_singleton. intros [?| ->]; [done|]. congruence.
Qed.

(** Taking one off it. *)
Lemma inv_dequeue pc0 reg ss nx sid ch :
  inv_on pc0 reg ss nx (sid :: ch) → inv_on pc0 reg ss nx ch.
Proof.
  intros [H1 H2 H3 H4 H5 H6 H7 H8]. apply NoDup_cons in H3 as [Hn H3]. split; try done.
  - intros i Hi. apply H4. set_solver.
  - intros p n Hk. destruct (H6 p n Hk) as [? ?]. set_solver.
Qed.

(** A fresh session enters the heap and the queue. *)
Lemma inv_fresh pc0 reg ss nx ch s :
  inv_on pc0 reg ss nx ch → ss_registered s = false → ss_phase s = Waiting → queue_ok s →
  inv_on pc0 reg (<[nx := s]> ss) (Datatypes.S nx) (ch ++ [nx]).
Proof.
  intros [H1 H2 H3 H4 H5 H6 H7 H8] Hr Hp Hq.
  assert (∀ i x, ss !! i = Some x → i ≠ nx) as Hne.
  { intros i x Hx ->. specialize (H1 nx x Hx). lia. }
  assert (ss !! nx = None) as Hnone. { destruct (ss !! nx) eqn:E; [|done]. by destruct (Hne nx s0). }
  assert (nx ∉ ch) as Hch. { intros Hin. destruct (H4 nx Hin) as (x & Hx & _). congruence. }
  split.
  - intros i x [[-> <-]|[? Hx]]%lookup_insert_Some; [lia|]. specialize (H1 i x Hx). lia.
  - intros dev i Hi. destruct (H2 dev i Hi) as (x & Hx & ?). exists x.
    rewrite lookup_insert_ne by (symmetry; by eapply Hne). done.
  - apply NoDup_app. split_and!; [done|set_solver|apply NoDup_singleton].
  - intros i [Hi| ->%list_elem_of_singleton]%elem_of_app.
    + destruct (H4 i Hi) as (x & Hx & ?). exists x.
      rewrite lookup_insert_ne by (symmetry; by eapply Hne). done.
    + exists s. rewrite lookup_insert_eq. eauto.
  - intros i x [[-> <-]|[? Hx]]%lookup_insert_Some; [by split|by eapply H5].
  - intros p n Hk. destruct (H6 p n Hk) as (Hnc & x & Hx & ? & ?). split.
    + rewrite elem_of_app, list_elem_of_singleton. intros [?| ->]; congruence.
    + exists x. rewrite lookup_insert_ne by (symmetry; by eapply Hne). done.
  - intros i x [[-> <-]|[? Hx]]%lookup_insert_Some; eauto.
  - intros i x [[-> <-]|[? Hx]]%lookup_insert_Some; [congruence|by apply H8].
Qed.

(** The agent completes a registration: the new session becomes its device's
    current one; the one before, if any, was sent nil. *)
Lemma inv_complete pc0 reg ss nx ch sid s :
  inv_on pc0 reg ss nx ch → ss !! sid = Some s → ss_phase s = Waiting → sid ∉ ch →
  (∀ prev p, reg !! ss_deviceId s = Some prev → ss !! prev = Some p → None ∈ ss_sent p) →
  inv_on Select (<[ss_deviceId s := sid]> reg)
    (<[sid := MkSession (ss_session s) true (ss_sent s) (ss_received s) Released]> ss) nx ch.
Proof.
  intros [H1 H2 H3 H4 H5 H6 H7 H8] E Hw Hn Hprev. split.
  - intros i x [[-> <-]|[? Hx]]%lookup_insert_Some; eauto.
  - intros dev i [[<- <-]|[? Hi]]%lookup_insert_Some.
    + eexists. rewrite lookup_insert_eq. done.
    + destruct (H2 dev i Hi) as (x & Hx & Hr & Hd). exists x.
      rewrite lookup_insert_ne; [done|]. intros ->. congruence.
  - done.
  - intros i Hi. destruct (H4 i Hi) as (x & Hx & Hp). exists x.
    rewrite lookup_insert_ne; [done|]. intros ->. congruence.
  - intros i x [[-> <-]|[? Hx]]%lookup_insert_Some; [by split|by eapply H5].
  - done.
  - intros i x [[-> <-]|[? Hx]]%lookup_insert_Some; [by eapply (H7 i s)|eauto].
  - intros i x [[-> <-]|[Hne Hx]]%lookup_insert_Some; cbn; intros Hr Hg.
    + left. apply lookup_insert_eq.
    + destruct (H8 i x Hx Hr Hg) as [Hc|?]; [|by right].
      destruct (decide (ss_deviceId s = ss_deviceId x)) as [Ed|].
      * right. apply (Hprev i x); [by rewrite Ed|done].
      * left. by rewrite lookup_insert_ne.
Qed.

(** The agent forgets the current session of a device that is gone. *)
Lemma inv_unregister pc0 reg ss nx ch sid s :
  inv_on pc0 reg ss nx ch → ss !! sid = Some s → ss_phase s = Gone →
  reg !! ss_deviceId s = Some sid → (∀ p n, pc0 ≠ Kick p n) →
  inv_on pc0 (delete (ss_deviceId s) reg) ss nx ch.
Proof.
  intros [H1 H2 H3 H4 H5 H6 H7 H8] E Hg Hc Hpc. split; try done.
  - intros dev i [? Hi]%lookup_delete_Some. by apply H2.
  - intros p n Hk. by destruct (Hpc p n).
  - intros i x Hx Hr Hng. destruct (H8 i x Hx Hr Hng) as [Hcx|?]; [|by right].
    left. rewrite lookup_delete_ne; [done|]. intros Ed. congruence.
Qed.

Lemma complete_register_inv sid b b' s :
  inv b → sessions b !! sid = Some s → ss_phase s = Waiting → sid ∉ sessionCh b →
  (∀ prev p, registry b !! ss_deviceId s = Some prev → sessions b !! prev = Some p →
     None ∈ ss_sent p) →
  complete_register sid b = Some b' → inv b'.
Proof.
  intros Hi E Hw Hn Hp. unfold complete_register. rewrite E. cbn. intros [= <-].
  unfold inv; cbn. by eapply inv_complete.
Qed.

Lemma settle_inv b : inv b → inv (settle b).
Proof.
  unfold settle. destruct (pc b) as [| |e [|]| | |] eqn:E; try done.
  unfold inv. cbn. by apply inv_pc.
Qed.

Lemma run_session_inv b b' : inv b → run_session b = Some b' → inv b'.
Proof.
  unfold run_session. intros Hi Hr. destruct (pc b) eqn:Ep; try done.
  destruct (sessionCh b) as [|sid ch] eqn:Ech; [done|].
  apply bind_Some in Hr as (s & E & Hr). cbn -[complete_register] in Hr.
  assert (inv_on (pc b) (registry b) (sessions b) (next b) ch) as Hd.
  { unfold inv in Hi. rewrite Ech in Hi. by eapply inv_dequeue. }
  pose proof (inv_nodup _ _ _ _ _ Hi) as Hnd. rewrite Ech in Hnd.
  apply NoDup_cons in Hnd as [Hnin _].
  destruct (inv_ch _ _ _ _ _ Hi sid) as (s' & E' & Hph); [rewrite Ech; set_solver|].
  simplify_eq. pose proof (inv_phase _ _ _ _ _ Hi sid s E) as Hrw.
  destruct (ss_registered s) eqn:Ereg.
  - assert (ss_phase s = Gone) as Hg by naive_solver.
    case_decide as Hc; injection Hr as <-; unfold inv; cbn; [|done].
    eapply inv_unregister; [done..|]. by rewrite Ep.
  - assert (ss_phase s = Waiting) as Hw by naive_solver.
    destruct (registry b !! ss_deviceId s) as [prev|] eqn:Eprev.
    + injection Hr as <-. unfold inv; cbn.
      destruct Hd as [H1 H2 H3 H4 H5 H6 H7 H8]. split; try done.
      intros p n [= <- <-]. eauto.
    + eapply complete_register_inv; [..|exact Hr]; try done. cbn. congruence.
Qed.

Lemma run_send_inv b b' : inv b → run_send cfg b = Some b' → inv b'.
Proof.
  unfold run_send. intros Hi Hr. destruct (pc b) as [|prev new|e [|sid todo]|e sid| |] eqn:Ep; try done.
  - apply bind_Some in Hr as (b1 & Hs & Hr).
    pose proof (send_inv _ _ _ _ Hi Hs) as Hi1.
    unfold send in Hs. apply bind_Some in Hs as (p & Eprev & Hs).
    case_decide; [|done]. injection Hs as <-.
    destruct (inv_kick _ _ _ _ _ Hi prev new Ep) as (Hn & s & E & Hw & Hreg).
    assert (prev ≠ new) as Hne.
    { intros ->.
      destruct (inv_registry _ _ _ _ _ Hi _ _ Hreg) as (x & Hx & Hrx & _).
      rewrite E in Hx. injection Hx as <-.
      apply (inv_phase _ _ _ _ _ Hi _ _ E) in Hw. congruence. }
    eapply (complete_register_inv new _ _ s); [exact Hi1|..|exact Hr]; cbn; try done.
    + by rewrite lookup_insert_ne.
    + intros prev' p' Hr'. rewrite Hreg in Hr'. injection Hr' as <-.
      rewrite lookup_insert_eq. intros [= <-]. cbn. set_solver.
  - apply bind_Some in Hr as (b1 & Hs & Hr). injection Hr as <-.
    apply settle_inv. unfold inv; cbn. eapply inv_pc; [done|]. by eapply send_inv.
  - apply bind_Some in Hr as (b1 & Hs & Hr). injection Hr as <-.
    unfold inv; cbn. eapply inv_pc; [done|]. by eapply send_inv.
Qed.

Lemma run_delivery_inv now order b b' :
  inv b → run_delivery unmarshal_map now order b = Some b' → inv b'.
Proof.
  unfold run_delivery. intros Hi Hr. destruct (pc b) eqn:Ep; try done.
  destruct (deliveryCh b) as [|[c|c] ch]; [done|..].
  - destruct (ps_GetChannelSnapshot now c (sto b)) as [x [[top ns]|err|]].
    + case_decide; [|done]. injection Hr as <-. apply settle_inv. unfold inv; cbn. by eapply inv_pc.
    + injection Hr as <-. done.
    + injection Hr as <-. unfold inv; cbn. by eapply inv_pc.
  - destruct (UnicastUserAndDevice c) as [[u dev]|].
    + cbn in Hr. destruct (registry b !! dev); injection Hr as <-; [|done]. unfold inv; cbn. by eapply inv_pc.
    + injection Hr as <-. unfold inv; cbn. by eapply inv_pc.
Qed.

Lemma step_inv b l b' : inv b → stepb b l = Some b' → inv b'.
Proof.
  intros Hi. destruct l as [connect kvs|now sid|sid|sid|sid|sid|c|c|now o| |now order| | |]; cbn.
  - case_decide; [|done]. unfold Register_start, enqueue_session.
    destruct (new_session connect kvs); [|by intros [= <-]..].
    case_decide; [|done]. intros [= <-]. unfold inv; cbn. apply inv_fresh; [done..|].
    split; cbn; lia.
  - unfold Register_pending. intros (s & E & Hs)%bind_Some.
    destruct (ss_phase s) eqn:Ep; try done.
    destruct (FeedPending _ _ _) as [[x y] [es|err|]]; injection Hs as <-; unfold inv; cbn.
    + apply inv_set_phase; [done|done|by rewrite Ep|by rewrite Ep].
    + by eapply inv_pc.
    + by eapply inv_pc.
  - unfold Register_feed. intros (s & E & Hs)%bind_Some.
    destruct (ss_phase s) as [| |[|e es]| | |] eqn:Ep; try done.
    + injection Hs as <-. unfold inv; cbn. apply inv_set_phase; [done|done|by rewrite Ep|by rewrite Ep].
    + case_decide; [|done]. injection Hs as <-. unfold inv; cbn.
      apply inv_push; [done|done|done|by rewrite Ep|by rewrite Ep].
  - intros (s & E & Hs)%bind_Some. destruct (ss_phase s) eqn:Ep; try done.
    destruct (queue s) as [|e q] eqn:Eq; [done|]. injection Hs as <-. unfold inv; cbn.
    eapply inv_update; [done|done|done|done|done| |done|done].
    eapply queue_ok_pop; [|done]. exact (inv_queue _ _ _ _ _ Hi _ _ E).
  - intros (s & E & Hs)%bind_Some. destruct (ss_phase s) eqn:Ep; try done.
    injection Hs as <-. unfold inv; cbn. apply inv_set_phase; [done|done|by rewrite Ep|by rewrite Ep].
  - unfold Unregister, enqueue_session. intros (s & E & Hs)%bind_Some.
    destruct (ss_phase s) eqn:Ep; try done. case_decide; [|done]. injection Hs as <-.
    unfold inv; cbn. eapply inv_enqueue.
    + apply inv_set_phase; [exact Hi|done|by rewrite Ep|done].
    + apply lookup_insert_eq.
    + done.
    + intros Hin. destruct (inv_ch _ _ _ _ _ Hi sid Hin) as (x & Hx & Hp). naive_solver congruence.
  - unfold enqueue_delivery. case_decide; [|done]. by intros [= <-].
  - unfold enqueue_delivery. case_decide; [|done]. by intros [= <-].
  - by intros [= <-].
  - by apply run_session_inv.
  - by apply run_delivery_inv.
  - by apply run_send_inv.
  - destruct (pc b) eqn:Ep; try done. intros [= <-]. unfold inv; cbn. by eapply inv_pc.
  - destruct (pc b) eqn:Ep; try done. intros [= <-]. unfold inv; cbn. by eapply inv_pc.
Qed.

Lemma reachable_inv (x0 : S) stats b : reachable unmarshal_map cfg x0 stats b → inv b.
Proof.
  induction 1 as [|b l b' _ IH Hs]; [|by eapply step_inv].
  split; cbn; try done; try apply NoDup_nil_2; set_solver.
Qed.
End inv.
End SimpleBrokerInv.

(** ** Delivery and blocking *)
Module SimpleBrokerDelivery.
Import SimpleBroker SimpleBrokerInv.

Section delivery.
Context {S : Type} `{PendingStore S}.
Context (unmarshal_map : string → option (gmap string jvalue)) (cfg : BrokerConfig).
Implicit Types (b : SimpleBroker S) (s : simpleBrokerSession) (sid : nat).
Abbreviation stepb := (step unmarshal_map cfg).
Abbreviation stepsb := (steps unmarshal_map cfg).

Definition has_room b sid : Prop :=
  ∃ s, sessions b !! sid = Some s ∧ length (queue s) < SessionQueueSize cfg.

Definition fed (e : Exchange) (todo : list nat) sid : simpleBrokerSession → simpleBrokerSession :=
  if decide (sid ∈ todo) then push_exchange (Some e) else id.

Lemma send_all e todo b :
  pc b = SendAll e todo → NoDup todo → Forall (has_room b) todo →
  ∃ b', stepsb (settle b) (replicate (length todo) LRunSend) = Some b' ∧
    pc b' = Select ∧ registry b' = registry b ∧ sto b' = sto b ∧
    sessionCh b' = sessionCh b ∧ deliveryCh b' = deliveryCh b ∧
    currentStats b' = Statistics.IncreaseBroadcasts <$> currentStats b ∧
    ∀ sid, sessions b' !! sid = fed e todo sid <$> sessions b !! sid.
Proof.
  revert b. induction todo as [|sid todo IH]; intros b Hpc Hnd Hroom.
  { unfold settle. rewrite Hpc. eexists. split; [done|]. split_and!; try done.
    intros sid. cbn. unfold fed. rewrite decide_False by set_solver. by rewrite option_fmap_id. }
  apply NoDup_cons in Hnd as [Hnin Hnd]. apply Forall_cons in Hroom as [(s & E & Hl) Hroom].
  unfold settle. rewrite Hpc. cbn [length replicate steps step].
  unfold run_send. rewrite Hpc. unfold send. rewrite E. cbn [mbind option_bind].
  rewrite decide_True by done. cbn [mbind option_bind].
  destruct (IH (set_pc (SendAll e todo) (set_session sid (push_exchange (Some e) s) b)))
    as (b' & Hs & Hp & Hr & Hst & Hc & Hd & Hcs & Hss); [done|done| |].
  { eapply Forall_impl; [apply Forall_and; split; [exact Hroom|apply Forall_forall; intros x Hx; exact Hx]|].
    cbn. intros x [(sx & Ex & Hx) Hin]. exists sx. cbn. rewrite lookup_insert_ne; [done|].
    intros ->. done. }
  exists b'. split; [exact Hs|]. split_and!; try done.
  intros i. rewrite Hss. cbn. unfold fed. destruct (decide (i = sid)) as [->|Hne].
  - rewrite lookup_insert_eq, E. cbn. rewrite decide_False by done.
    by rewrite decide_True by set_solver.
  - rewrite lookup_insert_ne by done. destruct (decide (i ∈ todo)).
    + by rewrite decide_True by set_solver.
    + by rewrite decide_False by set_solver.
Qed.

Definition registered_sids b : list nat := (map_to_list (registry b)).*2.

Lemma elem_of_registered b sid :
  sid ∈ registered_sids b ↔ ∃ dev, registry b !! dev = Some sid.
Proof.
  unfold registered_sids. rewrite list_elem_of_fmap. split.
  - intros ([dev x] & -> & Hx%elem_of_map_to_list). by exists dev.
  - intros [dev Hd]. exists (dev, sid). by rewrite elem_of_map_to_list.
Qed.

Lemma registered_current b sid s :
  inv cfg b → sessions b !! sid = Some s →
  sid ∈ registered_sids b ↔ registry b !! ss_deviceId s = Some sid.
Proof.
  intros Hi E. rewrite elem_of_registered. split; [|by eexists].
  intros [dev Hd]. destruct (inv_registry _ _ _ _ _ _ Hi dev sid Hd) as (x & Hx & _ & <-). congruence.
Qed.

Lemma NoDup_registered b : inv cfg b → NoDup (registered_sids b).
Proof.
  intros Hi. unfold registered_sids. apply NoDup_fmap_2_strong; [|apply NoDup_map_to_list].
  intros [d1 x1] [d2 x2] H1%elem_of_map_to_list H2%elem_of_map_to_list. cbn. intros ->.
  f_equal. destruct (inv_registry _ _ _ _ _ _ Hi _ _ H1) as (s1 & E1 & _ & <-).
  destruct (inv_registry _ _ _ _ _ _ Hi _ _ H2) as (s2 & E2 & _ & <-). congruence.
Qed.

(** The agent is inside a send to [sid]. *)
Definition sending_to (p : loop_pc) sid : Prop :=
  match p with
  | Kick prev _ => prev = sid
  | SendAll _ (x :: _) => x = sid
  | SendOne _ x => x = sid
  | _ => False
  end.

(** ... whose queue is full, and whose loop, the only reader of the queue,
    is over. *)
Definition stuck b sid : Prop :=
  sending_to (pc b) sid ∧
  ∃ s, sessions b !! sid = Some s ∧ (ss_phase s = Ending ∨ ss_phase s = Gone) ∧
    SessionQueueSize cfg ≤ length (queue s).

Lemma stuck_pc b sid : stuck b sid → pc b ≠ Select ∧ pc b ≠ Stopped ∧ settle b = b.
Proof.
  intros [Hp _]. unfold settle, sending_to in *. by destruct (pc b) as [| |e [|]| | |].
Qed.

Lemma stuck_set_session b sid sid' s s' :
  stuck b sid → sessions b !! sid' = Some s →
  (sid' = sid → (ss_phase s' = Ending ∨ ss_phase s' = Gone) ∧ queue s' = queue s) →
  stuck (set_session sid' s' b) sid.
Proof.
  intros [Hp (x & Ex & Hph & Hq)] E Hs. split; [done|]. cbn.
  destruct (decide (sid' = sid)) as [->|].
  - destruct (Hs eq_refl) as [? Hqs]. exists s'. rewrite lookup_insert_eq.
    split_and!; [done|done|]. rewrite Hqs. congruence.
  - exists x. by rewrite lookup_insert_ne.
Qed.

Lemma send_stuck b sid e : stuck b sid → send cfg sid e b = None.
Proof.
  intros [_ (s & E & _ & Hq)]. unfold send. rewrite E. cbn. by rewrite decide_False by lia.
Qed.

Lemma run_send_stuck b sid : stuck b sid → run_send cfg b = None.
Proof.
  intros Hst. pose proof (λ e, send_stuck b sid e Hst) as Hn. destruct Hst as [Hp _].
  unfold run_send, sending_to in *.
  destruct (pc b) as [|prev new|e [|x todo]|e x| |]; subst; try done; by rewrite Hn.
Qed.

Lemma run_delivery_at_select b now order :
  pc b ≠ Select → run_delivery unmarshal_map now order b = None.
Proof. unfold run_delivery. by destruct (pc b). Qed.

Lemma run_session_at_select b : pc b ≠ Select → run_session b = None.
Proof. unfold run_session. by destruct (pc b). Qed.

(** The agent makes no progress: it is still where it was (or the process
    crashed), and the registry and the deliveries in its queue are
    untouched. *)
Definition no_progress b b' : Prop :=
  (pc b' = pc b ∨ pc b' = Crashed) ∧ registry b' = registry b ∧
  deliveryCh b `prefix_of` deliveryCh b' ∧ sessionCh b `prefix_of` sessionCh b'.

#[export] Instance no_progress_refl : Reflexive no_progress.
Proof. intros b. split_and!; auto. Qed.

#[export] Instance no_progress_trans : Transitive no_progress.
Proof.
  intros b1 b2 b3 (H1 & H2 & H3 & H4) (K1 & K2 & K3 & K4).
  split_and!; [|congruence|by etrans|by etrans].
  destruct K1 as [K1|?]; [|by right]. rewrite K1. done.
Qed.

Lemma no_progress_mono b b' x :
  pc b' = pc b → registry b' = registry b → deliveryCh b' = deliveryCh b ++ x →
  sessionCh b' = sessionCh b → no_progress b b'.
Proof.
  intros H1 H2 H3 H4. split_and!; [by left|done|by eexists|by rewrite H4].
Qed.

Lemma no_progress_grow b b' x :
  pc b' = pc b → registry b' = registry b → deliveryCh b' = deliveryCh b →
  sessionCh b' = sessionCh b ++ x → no_progress b b'.
Proof.
  intros H1 H2 H3 H4. split_and!; [by left|done|by rewrite H3|by eexists].
Qed.

Lemma no_progress_crash b b' :
  pc b' = Crashed → registry b' = registry b → deliveryCh b' = deliveryCh b →
  sessionCh b' = sessionCh b → no_progress b b'.
Proof. intros H1 H2 H3 H4. split_and!; [by right|done|by rewrite H3|by rewrite H4]. Qed.

Definition out b sid : Prop := inv cfg b ∧ (pc b = Crashed ∨ stuck b sid).

Lemma out_pc b sid :
  out b sid → pc b ≠ Select ∧ pc b ≠ Stopped ∧ run_send cfg b = None.
Proof.
  intros [_ [Hc|Hs]].
  - unfold run_send. by rewrite Hc.
  - pose proof (stuck_pc b sid Hs) as (? & ? & _). split_and!; [done|done|by eapply run_send_stuck].
Qed.

(** Rebuilds [out] for a step that touches one session. *)
Lemma out_set_session b sid sid' s s' :
  (pc b = Crashed ∨ stuck b sid) → sessions b !! sid' = Some s →
  (sid' = sid → (ss_phase s = Ending ∨ ss_phase s = Gone) →
     (ss_phase s' = Ending ∨ ss_phase s' = Gone) ∧ queue s' = queue s) →
  pc b = Crashed ∨ stuck (set_session sid' s' b) sid.
Proof.
  intros [?|Hs] E Hs'; [by left|right]. pose proof Hs as [_ (x & Ex & Hph & _)].
  eapply stuck_set_session; [done|done|]. intros ->. simplify_eq. by apply Hs'.
Qed.

Lemma out_step b sid l b' :
  out b sid → stepb b l = Some b' → no_progress b b' ∧ out b' sid.
Proof.
  intros Ho Hstep. pose proof (out_pc b sid Ho) as (Hsel & Hstop & Hsend).
  destruct Ho as [Hi Hst]. pose proof (step_inv unmarshal_map cfg b l b' Hi Hstep) as Hi'.
  cut (no_progress b b' ∧ (pc b' = Crashed ∨ stuck b' sid)); [unfold out; tauto|].
  revert Hstep.
  destruct l as [connect kvs|now x|x|x|x|x|c|c|now o| |now order| | |]; cbn.
  - case_decide; [|done]. unfold Register_start, enqueue_session.
    destruct (new_session connect kvs); [|by intros [= <-]..].
    case_decide; [|done]. intros [= <-]. split; [by eapply no_progress_grow|].
    destruct Hst as [?|[Hp (s & E & Hs)]]; [by left|right]. split; [done|].
    exists s. cbn. rewrite lookup_insert_ne; [done|].
    pose proof (inv_next _ _ _ _ _ _ Hi sid s E). lia.
  - unfold Register_pending. intros (s & E & Hs)%bind_Some.
    destruct (ss_phase s) eqn:Ep; try done.
    destruct (FeedPending _ _ _) as [[y z] [es|err|]]; injection Hs as <-.
    + split; [by apply (no_progress_mono _ _ []); rewrite ?app_nil_r|].
      refine (out_set_session b sid x s _ Hst E _). rewrite Ep. naive_solver.
    + split; [by apply no_progress_crash|by left].
    + split; [by apply no_progress_crash|by left].
  - unfold Register_feed. intros (s & E & Hs)%bind_Some.
    destruct (ss_phase s) as [| |[|e es]| | |] eqn:Ep; try done; [|case_decide; [|done]];
      injection Hs as <-;
      (split; [by apply (no_progress_mono _ _ []); rewrite ?app_nil_r|]);
      (refine (out_set_session b sid x s _ Hst E _); rewrite Ep; naive_solver).
  - intros (s & E & Hs)%bind_Some. destruct (ss_phase s) eqn:Ep; try done.
    destruct (queue s) as [|e q] eqn:Eq; [done|]. injection Hs as <-.
    split; [by apply (no_progress_mono _ _ []); rewrite ?app_nil_r|].
    refine (out_set_session b sid x s _ Hst E _). rewrite Ep. naive_solver.
  - intros (s & E & Hs)%bind_Some. destruct (ss_phase s) eqn:Ep; try done.
    injection Hs as <-. split; [by apply (no_progress_mono _ _ []); rewrite ?app_nil_r|].
    refine (out_set_session b sid x s _ Hst E _). rewrite Ep. naive_solver.
  - unfold Unregister, enqueue_session. intros (s & E & Hs)%bind_Some.
    destruct (ss_phase s) eqn:Ep; try done. case_decide; [|done]. injection Hs as <-.
    split; [by eapply no_progress_grow|].
    eapply (out_set_session (set_sessionCh (sessionCh b ++ [x]) b) sid x s); [exact Hst|exact E|].
    intros -> _. split; [by right|done].
  - unfold enqueue_delivery. case_decide; [|done]. intros [= <-].
    split; [by eapply no_progress_mono|exact Hst].
  - unfold enqueue_delivery. case_decide; [|done]. intros [= <-].
    split; [by eapply no_progress_mono|exact Hst].
  - intros [= <-]. split; [by apply (no_progress_mono _ _ []); rewrite ?app_nil_r|exact Hst].
  - by rewrite run_session_at_select.
  - by rewrite run_delivery_at_select.
  - by rewrite Hsend.
  - destruct (pc b) eqn:Ep; done.
  - destruct (pc b) eqn:Ep; done.
Qed.

Lemma out_steps b sid ls b' :
  out b sid → stepsb b ls = Some b' → no_progress b b' ∧ out b' sid.
Proof.
  revert b. induction ls as [|l ls IH]; intros b Ho; cbn [steps].
  - by intros [= <-].
  - intros (b1 & H1 & H2)%bind_Some. destruct (out_step _ _ _ _ Ho H1) as [Hp1 Ho1].
    destruct (IH _ Ho1 H2) as [Hp2 Ho2]. split; [by etrans|done].
Qed.
End delivery.
End SimpleBrokerDelivery.

(** ** Properties *)
Section properties.
Import SimpleBroker SimpleBrokerInv SimpleBrokerDelivery.
Context {S : Type} `{PendingStore S}.
Context (unmarshal_map : string → option (gmap string jvalue)) (cfg : BrokerConfig).

(** C8: One live session per device: in every reachable state, whatever the
    interleaving, of two registered sessions of the same device that have
    not been unregistered at least one was sent the nil exchange that
    terminates it; the registry maps a device to a registered session of
    that device; and no exchange queue exceeds its configured size. *)
Theorem one_session_per_device (x0 : S) stats b :
  reachable unmarshal_map cfg x0 stats b →
  (∀ i1 i2 s1 s2, i1 ≠ i2 → sessions b !! i1 = Some s1 → sessions b !! i2 = Some s2 →
     ss_deviceId s1 = ss_deviceId s2 → ss_registered s1 = true → ss_registered s2 = true →
     ss_phase s1 ≠ Gone → ss_phase s2 ≠ Gone → None ∈ ss_sent s1 ∨ None ∈ ss_sent s2) ∧
  (∀ dev sid, registry b !! dev = Some sid →
     ∃ s, sessions b !! sid = Some s ∧ ss_registered s = true ∧ ss_deviceId s = dev) ∧
  (∀ sid s, sessions b !! sid = Some s → length (queue s) ≤ SessionQueueSize cfg).
Proof.
  intros Hi%reachable_inv. split_and!.
  - intros i1 i2 s1 s2 Hne E1 E2 Ed Hr1 Hr2 Hg1 Hg2.
    destruct (inv_current _ _ _ _ _ _ Hi _ _ E1 Hr1 Hg1) as [H1|?]; [|by left].
    destruct (inv_current _ _ _ _ _ _ Hi _ _ E2 Hr2 Hg2) as [H2|?]; [|by right].
    rewrite Ed in H1. congruence.
  - apply (inv_registry _ _ _ _ _ _ Hi).
  - intros sid s E. apply (inv_queue _ _ _ _ _ _ Hi _ _ E).
Qed.

(** C13: A broadcast reaches every registered session once: when the agent
    takes a broadcast request whose channel it can read, and the queues of
    the registered sessions have room, then after one send per registered
    session, in any order, it is back at its select, the same initialised
    exchange has been appended to the exchanges of each device's current
    session and nothing was sent to any other, and one broadcast was
    counted. *)
Theorem broadcast_fanout (x0 : S) stats b now c ch x top ns order :
  reachable unmarshal_map cfg x0 stats b →
  pc b = Select → deliveryCh b = broadcastDelivery c :: ch →
  ps_GetChannelSnapshot now c (sto b) = (x, Ok (top, ns)) →
  order ≡ₚ registered_sids b → Forall (has_room cfg b) order →
  let e := Broadcast (Init unmarshal_map (MkBroadcastExchange c top ns [])) in
  ∃ b', steps unmarshal_map cfg b (LRunDelivery now order :: replicate (length order) LRunSend) = Some b' ∧
    pc b' = Select ∧ registry b' = registry b ∧ deliveryCh b' = ch ∧
    currentStats b' = Statistics.IncreaseBroadcasts <$> currentStats b ∧
    ∀ sid s, sessions b !! sid = Some s → sessions b' !! sid =
      Some (if decide (registry b !! ss_deviceId s = Some sid) then push_exchange (Some e) s else s).
Proof.
  intros Hi%reachable_inv Hpc Hd Hsnap Hord Hroom e.
  destruct (send_all unmarshal_map cfg e order
    (set_pc (SendAll e order) (set_sto x (set_deliveryCh ch b))))
    as (b' & Hs & Hp & Hr & _ & _ & Hdc & Hcs & Hss); [done| |done|].
  { rewrite Hord. by eapply NoDup_registered. }
  exists b'. split_and!; try done.
  - cbn [steps step]. unfold run_delivery. rewrite Hpc, Hd, Hsnap.
    rewrite decide_True by done. exact Hs.
  - intros sid s E. rewrite Hss. cbn. rewrite E. cbn. unfold fed. f_equal.
    pose proof (registered_current cfg b sid s Hi E) as Hc. rewrite <- Hord in Hc.
    by do 2 case_decide; try tauto.
Qed.

(** The agent can block for ever: once it sends to a session whose queue
    is full and whose loop has ended, no further action of any goroutine
    brings it back to its select; no registration, unregistration or
    delivery is processed any more. *)
Theorem broker_blocks (x0 : S) stats b sid ls b' :
  reachable unmarshal_map cfg x0 stats b → stuck cfg b sid →
  steps unmarshal_map cfg b ls = Some b' → no_progress b b' ∧ pc b' ≠ Select.
Proof.
  intros Hi%reachable_inv Hst Hs.
  destruct (out_steps unmarshal_map cfg b sid ls b') as [Hn Ho]; [by split; [|right]|done|].
  split; [done|]. by apply out_pc in Ho as [? _].
Qed.
End properties.

Section witnesses.
Import SimpleBroker SimpleBrokerInv SimpleBrokerDelivery.

Lemma steps_reachable {S} `{PendingStore S} u cfg (x0 : S) stats b ls b' :
  reachable u cfg x0 stats b → steps u cfg b ls = Some b' → reachable u cfg x0 stats b'.
Proof.
  revert b. induction ls as [|l ls IH]; intros b Hr; cbn [steps]; [by intros [= <-]|].
  intros (b1 & H1 & H2)%bind_Some. eapply IH; [|exact H2]. by eapply reach_step.
Qed.

Definition example_cfg : BrokerConfig := MkConfig 2 2.
Definition example_connect (dev : string) : ConnectMsg :=
  {| cm_Type := "connect"; cm_ClientVer := ""; cm_DeviceId := dev; cm_Authorization := "";
     cm_Cookie := ""; cm_Info := ∅; cm_Levels := ∅ |}.
Definition example_steps (ls : list label) : option (SimpleBroker (gmap string channel)) :=
  steps example_unmarshal example_cfg (NewSimpleBroker NewInMemoryPendingStore None) ls.

Definition register_labels (sid : nat) : list label :=
  [LRegister (example_connect "d") []; LRunSession; LPending 0 sid; LFeed sid; LFeed sid].

Definition kick_labels : list label :=
  register_labels 0 ++ [LRegister (example_connect "d") []; LRunSession; LRunSend].

Lemma one_session_per_device_witness :
  ∃ b s0 s1, example_steps kick_labels = Some b ∧
    sessions b !! 0 = Some s0 ∧ sessions b !! 1 = Some s1 ∧
    (None ∈ ss_sent s0 ∨ None ∈ ss_sent s1).
Proof.
  assert (∃ b s0 s1, example_steps kick_labels = Some b ∧
    sessions b !! 0 = Some s0 ∧ sessions b !! 1 = Some s1 ∧ ss_deviceId s0 = ss_deviceId s1 ∧
    ss_registered s0 = true ∧ ss_registered s1 = true ∧ ss_phase s0 ≠ Gone ∧ ss_phase s1 ≠ Gone)
    as (b & s0 & s1 & E & E0 & E1 & Hd & Hr0 & Hr1 & Hg0 & Hg1).
  { eexists _, _, _. split; [vm_compute; reflexivity|]. split; [reflexivity|].
    split; [reflexivity|]. by split_and!. }
  exists b, s0, s1. split_and!; [done..|].
  apply (one_session_per_device example_unmarshal example_cfg NewInMemoryPendingStore None b)
    with 0 1; [|done..].
  eapply steps_reachable; [apply reach_init|exact E].
Defined.

Lemma broadcast_fanout_witness :
  ∃ b b', example_steps (register_labels 0 ++ [LReceive 0; LBroadcast "0"]) = Some b ∧
    steps example_unmarshal example_cfg b [LRunDelivery 0 [0]; LRunSend] = Some b' ∧
    length <$> (ss_sent <$> sessions b' !! 0) = Some 2.
Proof.
  assert (∃ b, example_steps (register_labels 0 ++ [LReceive 0; LBroadcast "0"]) = Some b ∧
    pc b = Select ∧ deliveryCh b = [broadcastDelivery "0"] ∧ sto b = ∅ ∧ registered_sids b = [0] ∧
    ∃ s, sessions b !! 0 = Some s ∧ queue s = [] ∧ length (ss_sent s) = 1 ∧
      registry b !! ss_deviceId s = Some 0) as (b & E & Hpc & Hd & Hs & Hr & s & Es & Hq & Hl & Hc).
  { eexists. split; [vm_compute; reflexivity|]. split_and!; try reflexivity.
    eexists. split; [reflexivity|]. by vm_compute. }
  destruct (broadcast_fanout example_unmarshal example_cfg NewInMemoryPendingStore None
    b 0 "0" [] ∅ 0 [] [0]) as (b' & Hb' & _ & _ & _ & _ & Hss).
  - eapply steps_reachable; [apply reach_init|exact E].
  - done.
  - done.
  - by rewrite Hs.
  - by rewrite Hr.
  - repeat constructor. exists s. rewrite Hq. cbn. split; [done|lia].
  - exists b, b'. split_and!; [done|exact Hb'|].
    rewrite (Hss 0 s Es), decide_True by done. cbn. by rewrite length_app, Hl.
Defined.

(** A device connects, its connection breaks, and three broadcasts come
    before its session is unregistered. *)
Definition blocking_labels : list label :=
  register_labels 0 ++
  [LEnd 0; LBroadcast "0"; LRunDelivery 0 [0]; LRunSend; LBroadcast "0"; LRunDelivery 0 [0]].

Lemma broker_blocks_witness :
  ∃ b b', example_steps blocking_labels = Some b ∧
    steps example_unmarshal example_cfg b [LUnregister 0; LBroadcast "0"] = Some b' ∧
    no_progress b b' ∧ pc b' ≠ Select.
Proof.
  assert (∃ b b', example_steps blocking_labels = Some b ∧
    steps example_unmarshal example_cfg b [LUnregister 0; LBroadcast "0"] = Some b' ∧
    stuck example_cfg b 0) as (b & b' & E & E' & Hst).
  { eexists _, _. split; [vm_compute; reflexivity|]. split; [vm_compute; reflexivity|].
    split; [done|]. eexists. split; [reflexivity|]. split; [by left|]. cbn. lia. }
  exists b, b'. split; [done|]. split; [done|].
  eapply (broker_blocks example_unmarshal example_cfg NewInMemoryPendingStore None b 0);
    [|exact Hst|exact E'].
  eapply steps_reachable; [apply reach_init|exact E].
Defined.
End witnesses.
