(* ===== verification/ServerSession.v ===== *)
(** Long-lived device connections on the server: [server/session/session.go].

    A session reads the wire version and CONNECT, writes CONNACK, registers
    with the broker and then loops over ping-timer expiries and exchanges. The
    loop is modelled as a state transformer over what it touches: the store,
    the broker session, the ping timer, the clock, and the connection. The
    environment is a script: the events the select picks, the results of
    reads and writes, and the values of the clock. The trace of the messages
    sent and received is part of the state. *)

From S2P Require Import Prelude Protocol Store Broker.
Import Msg Store StoreSpec Broker SplitProof.

Module ServerSession.

(** Messages the server writes. *)
Inductive out :=
| OConnAck (PingInterval : string)
| OPing
| OBroadcast (m : BroadcastMsg)
| ONotifications (m : NotificationsMsg)
| OOneway (m : OnewayMsg).

(** The result of a [ReadMessage] in the loop: the [T] field of the message,
    which [json.Unmarshal] leaves alone when it is absent, or an error. *)
Inductive reply :=
| Reply (T : option string)
| ReplyErr (e : Wire.wire_err).

Inductive tev :=
| Sent (m : out)
| Received (T : option string)
| Registered
| Unregistered.

(** What the select of the loop can pick: the ping timer's channel, an
    exchange (nil terminates). Between selects the timer may expire and others
    may use the store. *)
Inductive event :=
| EvTimerExpires
| EvPing
| EvExchange (exchg : option Exchange)
| EvStore (now : Z) (o : op).

(** [pingTimer]: [t_armed], and [t_fired] for a value in its channel, which
    neither [Stop] nor [Reset] drains. *)
Record timer := Timer { t_armed : bool; t_fired : bool }.

Section session.
Context {S : Type} `{PendingStore S}.
Context (pingInterval : Z) (pingIntervalString : string).
(** The [n]th reading of the clock. *)
Context (clock : nat → Z).

Record loop := Loop {
  l_world : S * BrokerSession;
  l_timer : timer;
  l_intervalStart : Z;
  l_ticks : nat;
  l_reads : list reply;
  l_writes : list (option Wire.wire_err);
  l_trace : list tev;
}.

Abbreviation M := (st loop berr).

Definition set_world w l := Loop w (l_timer l) (l_intervalStart l) (l_ticks l) (l_reads l) (l_writes l) (l_trace l).
Definition set_timer t l := Loop (l_world l) t (l_intervalStart l) (l_ticks l) (l_reads l) (l_writes l) (l_trace l).
Definition set_intervalStart t l := Loop (l_world l) (l_timer l) t (l_ticks l) (l_reads l) (l_writes l) (l_trace l).
Definition log_event e l := Loop (l_world l) (l_timer l) (l_intervalStart l) (l_ticks l) (l_reads l) (l_writes l) (l_trace l ++ [e]).

Definition modify (f : loop → loop) : M unit := λ l, (f l, Ok ()).
Definition gets {A} (f : loop → A) : M A := λ l, (l, Ok (f l)).

Definition in_world {A} (m : st (S * BrokerSession) berr A) : M A := λ l,
  let '(w, r) := m (l_world l) in (set_world w l, r).

(** [time.Now()] *)
Definition time_Now : M Z := λ l,
  (Loop (l_world l) (l_timer l) (l_intervalStart l) (Datatypes.S (l_ticks l)) (l_reads l)
     (l_writes l) (l_trace l), Ok (clock (l_ticks l))).

(** [proto.WriteMessage]: the script says which writes fail. *)
Definition WriteMessage (m : out) : M unit := λ l,
  match l_writes l with
  | Some e :: ws =>
      (Loop (l_world l) (l_timer l) (l_intervalStart l) (l_ticks l) (l_reads l) ws (l_trace l),
       Err (ErrWire e))
  | ws =>
      (Loop (l_world l) (l_timer l) (l_intervalStart l) (l_ticks l) (l_reads l) (tail ws)
         (l_trace l ++ [Sent m]), Ok ())
  end.

(** [proto.ReadMessage]: when the script is over the peer is gone. *)
Definition ReadMessage : M (option string) := λ l,
  match l_reads l with
  | [] => (l, Err (ErrWire Wire.EOF))
  | ReplyErr e :: rs =>
      (Loop (l_world l) (l_timer l) (l_intervalStart l) (l_ticks l) rs (l_writes l) (l_trace l),
       Err (ErrWire e))
  | Reply T :: rs =>
      (Loop (l_world l) (l_timer l) (l_intervalStart l) (l_ticks l) rs (l_writes l)
         (l_trace l ++ [Received T]), Ok T)
  end.

(** [exchange] without the store into [inMsg]: [answer] is [inMsg != nil],
    [continue] is [OnewayContinue]. *)
Definition exchange (outMsg : out) (answer continue : bool) : M (option string) :=
  time_Now;; (* SetDeadline *)
  WriteMessage outMsg;;
  if negb answer then
    if continue then st_err ErrOneway else st_err (ErrAbort "session broken for reason")
  else ReadMessage.

Definition pingTimerReset (totalReset : bool) : M bool :=
  interval ←
    (if totalReset then mret pingInterval
     else now ← time_Now; start ← gets l_intervalStart; mret (pingInterval - (now - start))%Z);
  if negb totalReset && bool_decide (interval ≤ 0)%Z then mret false (* late *)
  else
    modify (λ l, set_timer (Timer true (t_fired (l_timer l))) l);;
    (if totalReset then now ← time_Now; modify (set_intervalStart now) else mret ());;
    mret true.

Definition doPing : M unit :=
  time_Now;; (* EffectivePingInterval *)
  T ← exchange OPing true false;
  if decide (default "" T = "pong") then pingTimerReset true;; mret ()
  else st_err (ErrAbort "expected PONG message").

(** [outMsg.Split()], in the scratch area for the two splittable messages. *)
Definition Split (m : out_msg) : M bool :=
  match m with
  | OutOneway m => mret (Oneway_Split m)
  | OutBroadcast =>
      w ← gets l_world;
      match BroadcastMsg_Split (broadcastMsg (exchgScratch w.2)) with
      | Some (done, b) => modify (set_world (w.1, set_broadcastMsg b w.2));; mret done
      | None => st_panic
      end
  | OutNotifications =>
      w ← gets l_world;
      match NotificationsMsg_Split (notificationsMsg (exchgScratch w.2)) with
      | Some (done, n) => modify (set_world (w.1, set_notificationsMsg n w.2));; mret done
      | None => st_panic
      end
  end.

(** The message a reference stands for now. *)
Definition deref (m : out_msg) (sess : BrokerSession) : out :=
  match m with
  | OutBroadcast => OBroadcast (broadcastMsg (exchgScratch sess))
  | OutNotifications => ONotifications (notificationsMsg (exchgScratch sess))
  | OutOneway m => OOneway m
  end.

Definition continues (m : out_msg) : bool :=
  match m with OutOneway m => OnewayContinue m | _ => false end.

(** [l.exchange(outMsg, inMsg)] for an exchange: the answer goes into the
    scratch area's [ackMsg]. *)
Definition exchange_msg (m : out_msg) (answer : bool) : M unit :=
  w ← gets l_world;
  T ← exchange (deref m w.2) answer (continues m);
  modify (λ l, match T with
               | Some T => set_world ((l_world l).1, set_ackMsg {| ack_Type := T |} (l_world l).2) l
               | None => l
               end).

(** The inner loop: split, send, wait for the ACK. *)
Fixpoint send_loop (fuel : nat) (exchg : Exchange) (outMsg : out_msg) (answer : bool) : M unit :=
  match fuel with
  | 0 => st_panic
  | Datatypes.S fuel =>
      done ← Split outMsg;
      r ← st_try (exchange_msg outMsg answer);
      match r with
      | inr ErrOneway => pingTimerReset true;; mret ()
      | inr err => st_err err
      | inl _ =>
          (if (done : bool) then pingTimerReset true;; mret () else mret ());;
          in_world (Acked exchg done);;
          if (done : bool) then mret () else send_loop fuel exchg outMsg answer
      end
  end.

Definition run_exchange (exchg : Exchange) : M unit :=
  now ← time_Now; (* the store's clock *)
  r ← st_try (in_world (Prepare now exchg));
  match r with
  | inr ErrNop =>
      ok ← pingTimerReset false;
      if negb ok then doPing (* late *) else mret ()
  | inr err => st_err err
  | inl (outMsg, answer) =>
      (* each round but the last of the inner loop consumes a reply *)
      fuel ← gets (λ l, 2 + length (l_reads l));
      send_loop fuel exchg outMsg answer
  end.

(** One iteration of [run]. An expiry or a ping that is not due does not
    happen. *)
Definition run_event (e : event) : M unit :=
  match e with
  | EvTimerExpires =>
      modify (λ l, if t_armed (l_timer l) then set_timer (Timer false true) l else l)
  | EvPing =>
      fired ← gets (λ l, t_fired (l_timer l));
      if (fired : bool) then modify (λ l, set_timer (Timer (t_armed (l_timer l)) false) l);; doPing
      else mret ()
  | EvExchange exchg =>
      modify (λ l, set_timer (Timer false (t_fired (l_timer l))) l);;
      match exchg with
      | None => st_err (ErrAbort "terminated")
      | Some exchg => run_exchange exchg
      end
  | EvStore now o =>
      modify (λ l, set_world ((ps_exec now o (l_world l).1).1, (l_world l).2) l)
  end.

(** [run] over the events of the script; a normal return is a session that
    is still waiting. *)
Fixpoint run (es : list event) : M unit :=
  match es with
  | [] => mret ()
  | e :: es => run_event e;; run es
  end.

(** [brkr.Register(&connMsg, track)] *)
Definition register_session (Register : ConnectMsg → st S berr BrokerSession)
    (connMsg : ConnectMsg) : M unit := λ l,
  match Register connMsg (l_world l).1 with
  | (x, Ok sess) => (log_event Registered (set_world (x, sess) l), Ok ())
  | (x, Err e) => (set_world (x, (l_world l).2) l, Err e)
  | (x, Panic) => (set_world (x, (l_world l).2) l, Panic)
  end.

(** [sessionStart]; [connMsg] is the result of reading CONNECT, [Register]
    the broker. *)
Definition sessionStart (connMsg : outcome Wire.wire_err ConnectMsg)
    (Register : ConnectMsg → st S berr BrokerSession) : M unit :=
  time_Now;; (* SetDeadline *)
  match connMsg with
  | Err e => st_err (ErrWire e)
  | Panic => st_panic
  | Ok connMsg =>
      if decide (cm_Type connMsg = "connect") then
        WriteMessage (OConnAck pingIntervalString);;
        register_session Register connMsg
      else st_err (ErrAbort "expected CONNECT message")
  end.

Definition sessionLoop (es : list event) : M unit :=
  now ← time_Now;
  modify (λ l, set_intervalStart now (set_timer (Timer true false) l));;
  run es.

(** [defer brkr.Unregister(sess)] around the loop. *)
Definition with_unregister (m : M unit) : M unit := λ l,
  match m l with
  | (l, Ok _) => (l, Ok ())
  | (l, r) => (log_event Unregistered l, r)
  end.

(** [Session]: [version] is the result of reading the wire version. The
    deferred [Unregister] runs when the loop returns. *)
Definition Session (version : outcome Wire.wire_err Z)
    (connMsg : outcome Wire.wire_err ConnectMsg)
    (Register : ConnectMsg → st S berr BrokerSession) (es : list event) : M unit :=
  match version with
  | Err e => st_err (ErrWire e)
  | Panic => st_panic
  | Ok v =>
      if decide (v = Wire.ProtocolWireVersion) then
        sessionStart connMsg Register;;
        with_unregister (sessionLoop es)
      else st_err (ErrAbort "unexpected wire format version")
  end.
End session.
Arguments loop : clear implicits.
End ServerSession.

(** ** Protocol conformance *)
Module SessionSpec.
Import ServerSession.

(** The states of [protocol/state-diag-session.gv] from CONNACK on. *)
Inductive pstate := PStart | PConnAcked | PLoop | PPongWait | PAckWait | PStop | PUnregistered.

(** A missing [T] leaves the type of the last ACK in place, so it can count as
    one. *)
Definition is_ack (T : option string) : bool :=
  match T with None => true | Some T => bool_decide (T = "ack") end.

Definition proto_step (q : pstate) (e : tev) : option pstate :=
  match q, e with
  | PStart, Sent (OConnAck _) => Some PConnAcked
  | PConnAcked, Registered => Some PLoop
  | PLoop, Sent OPing => Some PPongWait
  | PLoop, Sent (OBroadcast _) => Some PAckWait
  | PLoop, Sent (ONotifications _) => Some PAckWait
  | PLoop, Sent (OOneway m) => Some (if OnewayContinue m then PLoop else PStop)
  | PPongWait, Received T => Some (if decide (default "" T = "pong") then PLoop else PStop)
  | PAckWait, Received T => Some (if is_ack T then PLoop else PStop)
  | (PLoop | PPongWait | PAckWait | PStop), Unregistered => Some PUnregistered
  | _, _ => None
  end.

Fixpoint proto_run (q : pstate) (tr : list tev) : option pstate :=
  match tr with
  | [] => Some q
  | e :: tr => q ← proto_step q e; proto_run q tr
  end.

Lemma proto_run_app q tr1 tr2 :
  proto_run q (tr1 ++ tr2) = proto_run q tr1 ≫= λ q, proto_run q tr2.
Proof.
  revert q. induction tr1 as [|e tr1 IH]; intros q; cbn; [done|].
  destruct (proto_step q e); cbn; [apply IH|done].
Qed.

Section conf.
Context {S : Type} `{PendingStore S}.
Context (pingInterval : Z) (pingIntervalString : string) (clock : nat → Z).
Implicit Types (l : loop S) (q : pstate).

Definition conf q l : Prop := proto_run PStart (l_trace l) = Some q.

(** The session is past registration and its trace is one of the protocol. *)
Definition conf_any l : Prop := ∃ q, conf q l ∧ is_Some (proto_step q Unregistered).
Definition any (e : option berr) l : Prop := conf_any l.

Lemma conf_Loop_any l : conf PLoop l → conf_any l.
Proof. intros Hc. exists PLoop. split; [done|by eexists]. Qed.
Hint Resolve conf_Loop_any : push.

Lemma conf_log q q' e l tr :
  conf q l → proto_step q e = Some q' → tr = l_trace l ++ [e] → proto_run PStart tr = Some q'.
Proof. intros Hc Hs ->. rewrite proto_run_app, Hc. cbn. by rewrite Hs. Qed.

(** Steps that leave the trace alone. *)
Definition silent {A} (m : st (loop S) berr A) : Prop :=
  ∀ l, l_trace (m l).1 = l_trace l.

Lemma silent_conf {A} q (m : st (loop S) berr A) :
  silent m → triple (conf q) m (λ _, conf q) (λ _, conf q).
Proof.
  intros Hm l Hl. specialize (Hm l). unfold conf in *.
  destruct (m l) as [l' [a|e|]]; cbn in Hm; by rewrite Hm.
Qed.

Lemma silent_bind {A B} (m : st (loop S) berr A) (f : A → st (loop S) berr B) :
  silent m → (∀ a, silent (f a)) → silent (m ≫= f).
Proof.
  intros Hm Hf l. unfold mbind, st_bind. specialize (Hm l).
  destruct (m l) as [l' [a|e|]]; cbn in *; [|done..]. by rewrite Hf.
Qed.

Lemma silent_ret {A} (a : A) : silent (mret a).
Proof. done. Qed.
Lemma silent_in_world {A} (m : st (S * BrokerSession) berr A) : silent (in_world m).
Proof. intros l. unfold in_world. by destruct (m _). Qed.
Lemma silent_modify f : (∀ l, l_trace (f l) = l_trace l) → silent (modify (S := S) f).
Proof. intros Hf l. apply Hf. Qed.

Definition keeps l l' : Prop :=
  l_trace l' = l_trace l ∧ l_world l' = l_world l ∧ l_reads l' = l_reads l ∧ l_writes l' = l_writes l.

(** ... and moreover always return. *)
Definition quiet {A} (m : st (loop S) berr A) : Prop :=
  ∀ l, ∃ l' a, m l = (l', Ok a) ∧ keeps l l'.

Lemma quiet_bind {A B} (m : st (loop S) berr A) (f : A → st (loop S) berr B) :
  quiet m → (∀ a, quiet (f a)) → quiet (m ≫= f).
Proof.
  intros Hm Hf l. unfold mbind, st_bind. destruct (Hm l) as (l' & a & -> & H1 & H2 & H3 & H4).
  destruct (Hf a l') as (l'' & b & -> & K1 & K2 & K3 & K4).
  exists l'', b. split; [done|]. split_and!; congruence.
Qed.
Lemma quiet_ret {A} (a : A) : quiet (mret a).
Proof. intros l. by exists l, a. Qed.
Lemma quiet_Now : quiet (time_Now clock (S := S)).
Proof. intros l. by do 2 eexists. Qed.
Lemma quiet_gets {A} (f : loop S → A) : quiet (gets f).
Proof. intros l. by do 2 eexists. Qed.
Lemma quiet_modify f :
  (∀ l, keeps l (f l)) → quiet (modify (S := S) f).
Proof. intros Hf l. exists (f l), tt. split; [done|apply Hf]. Qed.

Lemma quiet_reset b : quiet (pingTimerReset pingInterval clock b (S := S)).
Proof.
  unfold pingTimerReset. apply quiet_bind.
  - destruct b; [apply quiet_ret|]. apply quiet_bind; [apply quiet_Now|]. intros.
    apply quiet_bind; [apply quiet_gets|]. intros. apply quiet_ret.
  - intros i. destruct (_ && _); [apply quiet_ret|]. apply quiet_bind; [by apply quiet_modify|].
    intros _. apply quiet_bind; [|intros; apply quiet_ret]. destruct b; [|apply quiet_ret].
    apply quiet_bind; [apply quiet_Now|]. intros t. by apply quiet_modify.
Qed.

Lemma quiet_reset_ b : quiet (pingTimerReset pingInterval clock b (S := S);; mret ()).
Proof. apply quiet_bind; [apply quiet_reset|intros; apply quiet_ret]. Qed.

Lemma quiet_keep {A} (P : S * BrokerSession → list tev → Prop) (m : st (loop S) berr A) R :
  quiet m →
  triple (λ l, P (l_world l) (l_trace l)) m (λ _ l, P (l_world l) (l_trace l)) R.
Proof. intros Hm l Hl. destruct (Hm l) as (l' & a & -> & -> & -> & _). done. Qed.

Lemma quiet_conf {A} q (m : st (loop S) berr A) R :
  quiet m → triple (conf q) m (λ _, conf q) R.
Proof. apply (quiet_keep (λ _ tr, proto_run PStart tr = Some q)). Qed.

Lemma silent_Split m : silent (Split m (S := S)).
Proof.
  destruct m; cbn; [| |done]; apply silent_bind; try done; intros w.
  - destruct (BroadcastMsg_Split _) as [[d x]|]; [|done].
    apply silent_bind; [by apply silent_modify|done].
  - destruct (NotificationsMsg_Split _) as [[d x]|]; [|done].
    apply silent_bind; [by apply silent_modify|done].
Qed.

Lemma WriteMessage_conf q q' m :
  proto_step q (Sent m) = Some q' →
  triple (conf q) (WriteMessage m (S := S)) (λ _, conf q')
    (λ e l, conf q l ∧ e ≠ Some ErrOneway).
Proof.
  intros Hq l Hl. unfold WriteMessage.
  destruct (l_writes l) as [|[e|] ws]; [|done|]; by eapply conf_log.
Qed.

Lemma ReadMessage_conf q :
  (∀ T, is_Some (proto_step q (Received T))) →
  triple (conf q) (ReadMessage (S := S))
    (λ T l, ∃ q', proto_step q (Received T) = Some q' ∧ conf q' l)
    (λ e l, conf q l ∧ e ≠ Some ErrOneway).
Proof.
  intros Hq l Hl. unfold ReadMessage.
  destruct (l_reads l) as [|[T|e] rs]; [done| |done].
  destruct (Hq T) as [q' Hq']. exists q'. split; [done|]. by eapply conf_log.
Qed.

(** Writing a message that is answered. *)
Lemma exchange_answered q m c :
  proto_step PLoop (Sent m) = Some q → (∀ T, is_Some (proto_step q (Received T))) →
  is_Some (proto_step q Unregistered) →
  triple (conf PLoop) (exchange clock m true c)
    (λ T l, ∃ q', proto_step q (Received T) = Some q' ∧ conf q' l)
    (λ e l, conf_any l ∧ e ≠ Some ErrOneway).
Proof.
  intros Hm Hr Hu. unfold exchange; cbn [negb].
  eapply triple_bind; [apply quiet_conf, quiet_Now|]. intros ?.
  eapply triple_bind.
  - eapply triple_fail; [by eapply WriteMessage_conf|].
    intros e l [? ?]. split; [by apply conf_Loop_any|done].
  - intros ?. eapply triple_fail; [by apply ReadMessage_conf|].
    intros e l [? ?]. split; [by exists q|done].
Qed.

Lemma doPing_conf :
  triple (conf PLoop) (doPing pingInterval clock (S := S)) (λ _, conf PLoop)
    (λ e l, conf_any l ∧ e ≠ Some ErrOneway).
Proof.
  unfold doPing. eapply triple_bind; [apply quiet_conf, quiet_Now|]. intros ?.
  eapply triple_bind; [apply (exchange_answered PPongWait); [done|by eexists|by eexists]|].
  intros T. case_decide as HT.
  - eapply triple_pre; [apply (quiet_conf PLoop), quiet_reset_|].
    intros l (q & [= <-] & Hq). by rewrite decide_True in Hq.
  - apply triple_err. intros l (q & [= <-] & Hq). rewrite decide_False in Hq by done.
    split; [|done]. exists PStop. split; [done|by eexists].
Qed.

(** What [Prepare] guarantees of the message of an exchange. *)
Definition prepared (e : Exchange) (m : out_msg) (answer : bool) : Prop :=
  match e with
  | Broadcast _ => m = OutBroadcast ∧ answer = true
  | ConnMeta o => m = OutOneway o ∧ answer = false
  | Unicast _ => m = OutNotifications ∧ answer = true
  end.

Definition acked_type l : string := ack_Type (ackMsg (exchgScratch (l_world l).2)).

(** After an answered message the session is back in the loop, or it got
    something else than an ACK and will notice. *)
Lemma exchange_msg_conf e m :
  prepared e m true →
  triple (conf PLoop) (exchange_msg clock m true)
    (λ _ l, conf PLoop l ∨ (conf PStop l ∧ acked_type l ≠ "ack"))
    (λ e l, conf_any l ∧ e ≠ Some ErrOneway).
Proof.
  intros Hp. unfold exchange_msg. eapply triple_bind; [apply quiet_conf, quiet_gets|].
  intros w. eapply triple_bind.
  - apply (exchange_answered PAckWait); [|by eexists|by eexists].
    by destruct e; destruct Hp as [-> ?].
  - intros T l (q & [= <-] & Hq). cbn. destruct T as [T|]; cbn in *; [|by left].
    case_bool_decide; [left; exact Hq|right]. done.
Qed.

(** A oneway message ends the inner loop. *)
Lemma exchange_msg_oneway o :
  triple (conf PLoop) (exchange_msg clock (OutOneway o) false)
    (λ _ _, False)
    (λ e l, conf_any l ∧ (e = Some ErrOneway → conf PLoop l)).
Proof.
  unfold exchange_msg. eapply triple_bind; [apply quiet_conf, quiet_gets|]. intros w.
  eapply (triple_bind _ _ _ (λ _ _, False)); [|by intros T l []].
  unfold exchange; cbn [negb deref continues].
  eapply triple_bind; [apply quiet_conf, quiet_Now|]. intros ?.
  eapply triple_bind.
  - eapply triple_fail; [by eapply WriteMessage_conf|].
    intros e l [? ?]. split; [by apply conf_Loop_any|done].
  - intros ?. destruct (OnewayContinue o) eqn:Ho; apply triple_err; intros l Hl;
      (split; [|try done]); eexists; (split; [exact Hl|by eexists]).
Qed.

Lemma Acked_type e done w w' :
  (∀ o, e ≠ ConnMeta o) → Acked (S := S) e done w = (w', Ok ()) →
  ack_Type (ackMsg (exchgScratch w.2)) = "ack".
Proof.
  intros He. destruct e as [sbe|o|sue]; cbn; [|by destruct (He o)|];
    unfold BroadcastExchange_Acked, UnicastExchange_Acked, mbind, st_bind, get_session;
    by case_decide.
Qed.

Lemma Acked_conf e done :
  (∀ o, e ≠ ConnMeta o) →
  triple (λ l, conf PLoop l ∨ (conf PStop l ∧ acked_type l ≠ "ack"))
    (in_world (Acked (S := S) e done)) (λ _, conf PLoop) any.
Proof.
  intros He l Hl. unfold in_world.
  destruct (Acked e done (l_world l)) as [w r] eqn:E.
  assert (conf_any (set_world w l)) as Ha.
  { destruct Hl as [Hl|[Hl _]]; eexists; (split; [exact Hl|by eexists]). }
  destruct r as [[]|err|]; [|exact Ha|exact Ha].
  apply Acked_type in E; [|done]. destruct Hl as [Hl|[_ Hl]]; [exact Hl|by destruct Hl].
Qed.

(** The state after an answer, before [Acked] looks at it. *)
Definition answered l : Prop := conf PLoop l ∨ (conf PStop l ∧ acked_type l ≠ "ack").

Lemma quiet_waiting {A} (m : st (loop S) berr A) R :
  quiet m → triple answered m (λ _, answered) R.
Proof.
  apply (quiet_keep (λ w tr, proto_run PStart tr = Some PLoop ∨
    (proto_run PStart tr = Some PStop ∧ ack_Type (ackMsg (exchgScratch w.2)) ≠ "ack"))).
Qed.

Lemma send_loop_conf fuel e m answer :
  prepared e m answer →
  triple (conf PLoop) (send_loop pingInterval clock fuel e m answer) (λ _, conf PLoop) any.
Proof.
  intros Hp. induction fuel as [|fuel IH]; cbn [send_loop].
  { apply triple_panic. apply conf_Loop_any. }
  eapply triple_bind.
  { eapply triple_fail; [apply (silent_conf PLoop), silent_Split|].
    intros ? l Hl. by apply conf_Loop_any. }
  intros d. destruct e as [sbe|o|sue].
  2: { destruct Hp as [-> ->]. eapply triple_bind.
    - eapply triple_try; [apply exchange_msg_oneway|]. intros l [? _]. done.
    - intros [[]|err]; [by intros l ?|]. apply (triple_weaken _
        (λ l, conf_any l ∧ (err = ErrOneway → conf PLoop l))
        _ _ (λ _, conf PLoop) _ any); [|intros l [? Hl]; split; [done|intros ->; by apply Hl]|done|done].
      destruct err; try (apply triple_err; by intros l [? _]).
      eapply triple_pre; [apply (quiet_conf PLoop), quiet_reset_|intros l [_ Hl]; by apply Hl]. }
  all: assert (answer = true) as -> by apply Hp.
  all: (eapply triple_bind; [eapply triple_try; [by eapply exchange_msg_conf|by intros l [? _]]|]).
  all: intros [[]|err]; [|apply (triple_weaken _ (λ l, conf_any l ∧ err ≠ ErrOneway)
         _ _ (λ _, conf PLoop) _ any); [|intros l [? Hl]; split; [done|congruence]|done|done];
         destruct err; try (apply triple_err; by intros l [? _]); by intros l [_ ?]].
  all: eapply triple_bind; [apply quiet_waiting; destruct d; [apply quiet_reset_|apply quiet_ret]|].
  all: intros ?; eapply triple_bind; [by apply Acked_conf|].
  all: intros ?; destruct d; [by apply triple_ret|apply IH].
Qed.

Lemma Prepare_prepared now e w w' m answer :
  Prepare (S := S) now e w = (w', Ok (m, answer)) → prepared e m answer.
Proof.
  destruct e as [sbe|o|sue]; cbn.
  - unfold BroadcastExchange_Prepare, mbind, st_bind, get_session, lift.
    destruct (channelFilter _ _ _ _); [|done]. cbn. case_match; [done|].
    destruct (InternalChannelIdToHex _); [|done]. cbn. by intros [= _ <- <-].
  - by intros [= _ <- <-].
  - unfold UnicastExchange_Prepare, mbind, st_bind, with_store.
    destruct (ps_GetChannelSnapshot _ _ _) as [x [[top ns]|err|]]; try done.
    case_decide; [done|]. cbn. by intros [= _ <- <-].
Qed.

Lemma in_world_Prepare_conf now e :
  triple (conf PLoop) (in_world (Prepare (S := S) now e))
    (λ r l, prepared e r.1 r.2 ∧ conf PLoop l) (λ _ l, conf PLoop l).
Proof.
  intros l Hl. unfold in_world. destruct (Prepare now e (l_world l)) as [w [[m a]|err|]] eqn:E;
    [|exact Hl|exact Hl]. split; [by eapply Prepare_prepared|exact Hl].
Qed.

Lemma any_of {A} P (m : st (loop S) berr A) Q (X : option berr → loop S → Prop) :
  triple P m Q (λ e l, conf_any l ∧ X e l) → triple P m Q any.
Proof. intros Hm. eapply triple_fail; [exact Hm|]. by intros e l [? _]. Qed.

Lemma run_exchange_conf e :
  triple (conf PLoop) (run_exchange pingInterval clock e) (λ _, conf PLoop) any.
Proof.
  unfold run_exchange. eapply triple_bind; [apply quiet_conf, quiet_Now|]. intros now.
  eapply triple_bind.
  { eapply triple_try; [apply in_world_Prepare_conf|]. intros l Hl. by apply conf_Loop_any. }
  intros [[m answer]|err]; cbn beta iota.
  - apply triple_pure. intros Hp. eapply triple_bind; [apply quiet_conf, quiet_gets|].
    intros fuel. by apply send_loop_conf.
  - destruct err; try (apply triple_err; intros l Hl; by apply conf_Loop_any).
    eapply triple_bind; [apply quiet_conf, quiet_reset|]. intros ok. destruct (negb ok).
    + eapply any_of, doPing_conf.
    + by apply triple_ret.
Qed.

Lemma run_event_conf e :
  triple (conf PLoop) (run_event pingInterval clock e) (λ _, conf PLoop) any.
Proof.
  destruct e as [| |[exchg|]|now o]; cbn [run_event].
  - apply quiet_conf, quiet_modify. intros l. by destruct (t_armed _).
  - eapply triple_bind; [apply quiet_conf, quiet_gets|]. intros fired.
    destruct fired; [|by apply triple_ret].
    eapply triple_bind; [by apply quiet_conf, quiet_modify|]. intros ?.
    eapply any_of, doPing_conf.
  - eapply triple_bind; [by apply quiet_conf, quiet_modify|]. intros ?.
    apply run_exchange_conf.
  - eapply triple_bind; [by apply quiet_conf, quiet_modify|]. intros ?.
    apply triple_err. intros l Hl. by apply conf_Loop_any.
  - by intros l Hl.
Qed.

Lemma run_conf es :
  triple (conf PLoop) (run pingInterval clock es) (λ _, conf PLoop) any.
Proof.
  induction es as [|e es IH]; cbn [run]; [by apply triple_ret|].
  eapply triple_bind; [apply run_event_conf|]. intros ?. exact IH.
Qed.

Lemma sessionLoop_conf es :
  triple (conf PLoop) (sessionLoop pingInterval clock es) (λ _, conf PLoop) any.
Proof.
  unfold sessionLoop. eapply triple_bind; [apply quiet_conf, quiet_Now|]. intros now.
  eapply triple_bind; [by apply quiet_conf, quiet_modify|]. intros ?. apply run_conf.
Qed.

(** Before the loop nothing but CONNACK is sent. *)
Lemma sessionStart_conf connMsg Register :
  triple (conf PStart) (sessionStart pingIntervalString clock connMsg Register)
    (λ _, conf PLoop) (λ _ l, ∃ q, conf q l ∧ (q = PStart ∨ q = PConnAcked ∨ q = PUnregistered)).
Proof.
  unfold sessionStart. eapply triple_bind; [apply quiet_conf, quiet_Now|]. intros ?. cbn beta.
  destruct connMsg as [cm|e|]; [|intros l Hl; exists PStart; auto..].
  case_decide; [|intros l Hl; exists PStart; auto].
  eapply triple_bind.
  - eapply triple_fail; [by eapply (WriteMessage_conf PStart PConnAcked)|].
    intros e l [Hl _]. exists PStart. auto.
  - intros ? l Hl. unfold register_session.
    destruct (Register cm (l_world l).1) as [x [sess|e|]]; [|exists PConnAcked; auto..].
    by apply (conf_log PConnAcked PLoop Registered l).
Qed.
End conf.
End SessionSpec.

(** ** Delivery of unicast notifications *)
Module SessionDelivery.
Import ServerSession SessionSpec.

(** The ids of the notifications whose message was acknowledged. *)
Fixpoint acked (tr : list tev) : list string :=
  match tr with
  | [] => []
  | e :: tr' =>
      match e, tr' with
      | Sent (ONotifications m), Received T :: _ =>
          if is_ack T then (MsgId <$> n_shown m) ++ acked tr' else acked tr'
      | _, _ => acked tr'
      end
  end.

Lemma acked_answer m T tr :
  acked (Sent (ONotifications m) :: Received T :: tr)
  = (if is_ack T then MsgId <$> n_shown m else []) ++ acked (Received T :: tr).
Proof. cbn [acked]. by destruct (is_ack T). Qed.

Lemma acked_mono tr k i : i ∈ acked tr → i ∈ acked (tr ++ k).
Proof.
  induction tr as [|e tr IH]; [by intros ?%elem_of_nil|].
  destruct e as [[| | |m|]| | |]; try exact IH.
  destruct tr as [|[x|T| |] tr]; [by intros ?%elem_of_nil|exact IH| |exact IH|exact IH].
  rewrite <- !app_comm_cons in *. rewrite !acked_answer, !elem_of_app.
  intros [?|?]; [by left|right]. by apply IH.
Qed.

Lemma acked_last tr m T i :
  is_ack T = true → i ∈ MsgId <$> n_shown m → i ∈ acked (tr ++ [Sent (ONotifications m); Received T]).
Proof.
  intros HT Hi. induction tr as [|e tr IH].
  - cbn. rewrite HT, app_nil_r. done.
  - rewrite <- app_comm_cons. cbn [acked].
    destruct e as [[| | |m'|]| | |]; try exact IH.
    destruct (tr ++ _) as [|[x|T'| |] tr']; try exact IH.
    destruct (is_ack T'); [apply elem_of_app; by right|exact IH].
Qed.

Section delivery.
Context {S : Type} `{PendingStoreLaws S}.
Context (pingInterval : Z) (pingIntervalString : string) (clock : nat → Z).
Implicit Types (l : loop S).

Definition entries l (c : string) : list entry := (channel_of (ps_log (l_world l).1) c).2.

(** Steps that only add to the trace and leave the store alone. *)
Definition local {A} (m : st (loop S) berr A) : Prop :=
  ∀ l, l_trace l `prefix_of` l_trace (m l).1 ∧ (l_world (m l).1).1 = (l_world l).1.

Lemma local_bind {A B} (m : st (loop S) berr A) (f : A → st (loop S) berr B) :
  local m → (∀ a, local (f a)) → local (m ≫= f).
Proof.
  intros Hm Hf l. unfold mbind, st_bind. destruct (Hm l) as [H1 H2].
  destruct (m l) as [l' [a|e|]]; cbn in *; [|done..].
  destruct (Hf a l') as [H3 H4]. split; [by etrans|congruence].
Qed.
Lemma local_quiet {A} (m : st (loop S) berr A) : quiet m → local m.
Proof. intros Hm l. destruct (Hm l) as (l' & a & -> & Ht & Hw & _); cbn. by rewrite Ht, Hw. Qed.
Lemma local_err {A} (e : berr) : local (A := A) (st_err e).
Proof. by intros l. Qed.
Lemma local_Write m : local (WriteMessage m).
Proof.
  intros l. unfold WriteMessage. destruct (l_writes l) as [|[e|] ws]; cbn; [|done|];
    (split; [by eexists|done]).
Qed.
Lemma local_Read : local ReadMessage.
Proof.
  intros l. unfold ReadMessage. destruct (l_reads l) as [|[T|e] rs]; cbn; [done| |done].
  split; [by eexists|done].
Qed.
Lemma local_exchange m a c : local (exchange clock m a c).
Proof.
  unfold exchange. apply local_bind; [apply local_quiet, quiet_Now|]. intros _.
  apply local_bind; [apply local_Write|]. intros _.
  destruct (negb a); [destruct c; apply local_err|apply local_Read].
Qed.
Lemma local_doPing : local (doPing pingInterval clock).
Proof.
  unfold doPing. apply local_bind; [apply local_quiet, quiet_Now|]. intros _.
  apply local_bind; [apply local_exchange|]. intros T.
  case_decide; [apply local_quiet, quiet_reset_|apply local_err].
Qed.
Lemma local_exchange_msg m a : local (exchange_msg clock m a).
Proof.
  unfold exchange_msg. apply local_bind; [apply local_quiet, quiet_gets|]. intros w.
  apply local_bind; [apply local_exchange|]. intros [T|] l; by split.
Qed.
Lemma local_Split m : local (Split m).
Proof.
  destruct m; [| |by intros l].
  - intros l. cbn. unfold mbind, st_bind; cbn.
    by destruct (BroadcastMsg_Split _) as [[d x]|].
  - intros l. cbn. unfold mbind, st_bind; cbn.
    by destruct (NotificationsMsg_Split _) as [[d x]|].
Qed.

(** *** Nothing is lost

    [used] are the (channel, message id) pairs handed out so far. *)
Abbreviation pairs := (list (string * string)).

Definition kept (used : pairs) (c : string) (L0 : list entry) l : Prop :=
  ps_inv (l_world l).1 ∧
  (∀ c' i, i ∈ ids (entries l c') → (c', i) ∈ used) ∧
  (∀ x, x ∈ L0 → x ∈ entries l c ∨ MsgId x.1 ∈ acked (l_trace l)).

(** What the rest of the server does to the store during the session: it
    appends notifications with fresh ids and reads. *)
Definition event_ok (used : pairs) (e : event) : Prop :=
  match e with
  | EvStore _ (OpAppend c _ _) => UnicastChannel c ≠ Some true
  | EvStore _ (OpAppendUnicast c _ _ i m) => Obsolete m = false ∧ (c, i) ∉ used
  | EvStore _ (OpSnapshot _) | EvStore _ (OpUnfiltered _) => True
  | EvStore _ _ => False
  | EvExchange (Some (Unicast sue)) => UnicastChannel (ue_ChanId sue) = Some true
  | _ => True
  end.

Definition event_used (used : pairs) (e : event) : pairs :=
  match e with
  | EvStore _ (OpAppend c _ _) => (c, "") :: used
  | EvStore _ (OpAppendUnicast c _ _ i _) => (c, i) :: used
  | _ => used
  end.

Fixpoint events_ok (used : pairs) (es : list event) : Prop :=
  match es with
  | [] => True
  | e :: es => event_ok used e ∧ events_ok (event_used used e) es
  end.

Lemma kept_local {A} used c L0 (m : st (loop S) berr A) :
  local m → triple (kept used c L0) m (λ _, kept used c L0) (λ _, kept used c L0).
Proof.
  intros Hm l (Hi & Hu & Hx). destruct (Hm l) as [[k Hk] Hw].
  assert (kept used c L0 (m l).1) as Hkept.
  { unfold kept, entries. rewrite Hw, Hk. split_and!; [done|done|].
    intros x Hin. destruct (Hx x Hin) as [?|?]; [by left|right; by apply acked_mono]. }
  by destruct (m l) as [l' [a|e|]].
Qed.

(** Store operations of the session that leave the log alone. *)
Lemma kept_same used c L0 l w :
  kept used c L0 l → ps_inv w.1 → ps_log w.1 = ps_log (l_world l).1 →
  kept used c L0 (set_world w l).
Proof. intros (Hi & Hu & Hx) Hw Hl. unfold kept, entries in *. cbn. by rewrite Hl. Qed.

Lemma BroadcastExchange_Prepare_store sbe (w : S * BrokerSession) :
  (BroadcastExchange_Prepare sbe w).1.1 = w.1.
Proof.
  unfold BroadcastExchange_Prepare, mbind, st_bind, get_session, lift.
  destruct (channelFilter _ _ _ _); [|done]. cbn. case_match; [done|].
  by destruct (InternalChannelIdToHex _).
Qed.

Lemma Prepare_store now e (w : S * BrokerSession) :
  ps_inv w.1 →
  ps_inv (Prepare now e w).1.1 ∧ ps_log (Prepare now e w).1.1 = ps_log w.1.
Proof.
  intros Hi. destruct e as [sbe|o|sue]; cbn [Prepare].
  - by rewrite BroadcastExchange_Prepare_store.
  - done.
  - pose proof (ps_snapshot_spec now (ue_ChanId sue) w.1 Hi) as Hs.
    unfold UnicastExchange_Prepare, mbind, st_bind, with_store.
    destruct (ps_GetChannelSnapshot _ _ _) as [x [[top ns]|err|]]; [|done..].
    case_decide; cbn; by destruct Hs as (? & ? & _).
Qed.

Lemma kept_Prepare used c L0 now e :
  triple (kept used c L0) (in_world (Prepare (S := S) now e))
    (λ r l, prepared e r.1 r.2 ∧ kept used c L0 l) (λ _, kept used c L0).
Proof.
  intros l Hl. unfold in_world. destruct (Prepare_store now e (l_world l) (proj1 Hl)) as [Hi Hs].
  destruct (Prepare now e (l_world l)) as [w r] eqn:E; cbn in *.
  pose proof (kept_same _ _ _ _ w Hl Hi Hs).
  destruct r as [[m a]|err|]; [|done|done]. split; [by eapply Prepare_prepared|done].
Qed.

(** After an answered NOTIFICATIONS, the scratch area still has the message
    the answer is for. *)
Definition answered_last l : Prop :=
  ∃ tr T, l_trace l = tr ++ [Sent (ONotifications (notificationsMsg (exchgScratch (l_world l).2))); Received T]
    ∧ (acked_type l = "ack" → is_ack T = true).

Lemma exchange_msg_last l l' :
  exchange_msg clock OutNotifications true l = (l', Ok ()) → answered_last l'.
Proof.
  unfold exchange_msg, exchange, mbind, st_bind, WriteMessage, ReadMessage. cbn.
  destruct (l_writes l) as [|[e|] ws]; cbn; [|done|];
    (destruct (l_reads l) as [|[T|e] rs]; cbn; [done| |done]); intros [= <-];
    exists (l_trace l), T; destruct T; cbn; (split; [by rewrite <- app_assoc|]);
    unfold acked_type; cbn; try done; intros ->; by apply bool_decide_eq_true.
Qed.

Lemma kept_drop used c L0 l c' w m T tr :
  kept used c L0 l → UnicastChannel c' = Some true →
  l_trace l = tr ++ [Sent (ONotifications m); Received T] → is_ack T = true →
  ps_inv w.1 →
  ps_log w.1 = alter (λ ch, (ch.1, without_ids (n_shown m) fst ch.2)) c' (ps_log (l_world l).1) →
  kept used c L0 (set_world w l).
Proof.
  intros (Hi & Hu & Hx) Hc Htr HT Hwi Hwl. unfold kept, entries in *; cbn. rewrite Hwl.
  assert (∀ d, (channel_of (alter (λ ch, (ch.1, without_ids (n_shown m) fst ch.2)) c' (ps_log (l_world l).1)) d).2
    = if decide (d = c') then without_ids (n_shown m) fst (channel_of (ps_log (l_world l).1) d).2
      else (channel_of (ps_log (l_world l).1) d).2) as Hd.
  { intros d. unfold channel_of. case_decide as E; subst.
    - rewrite lookup_alter_eq. by destruct (ps_log _ !! c').
    - by rewrite lookup_alter_ne. }
  split_and!; [done| |].
  - intros d i. rewrite Hd. case_decide; [|apply Hu]. intros Hin. apply Hu.
    unfold ids, without_ids in *. revert Hin. rewrite !list_elem_of_fmap.
    intros (n & -> & (x & -> & [_ Hin]%list_elem_of_filter)%list_elem_of_fmap).
    exists x.1. split; [done|]. apply list_elem_of_fmap. eauto.
  - intros x Hin. rewrite Hd. destruct (Hx x Hin) as [Hk|?]; [|by right].
    case_decide; [|by left]. subst.
    destruct (decide (MsgId x.1 ∈ MsgId <$> n_shown m)) as [Hm|Hm].
    + right. rewrite Htr. by apply acked_last.
    + left. unfold without_ids. by apply list_elem_of_filter.
Qed.

Lemma kept_Acked_unicast used c L0 sue d :
  UnicastChannel (ue_ChanId sue) = Some true →
  triple (λ l, kept used c L0 l ∧ answered_last l) (in_world (UnicastExchange_Acked sue d))
    (λ _, kept used c L0) (λ _, kept used c L0).
Proof.
  intros Hc l [Hl (tr & T & Htr & HT)]. unfold in_world, UnicastExchange_Acked.
  unfold mbind, st_bind, get_session. cbn. case_decide as Ha; [|by destruct l].
  pose proof (ps_drop_spec (ue_ChanId sue)
    (s_elems (n_Notifications (notificationsMsg (exchgScratch (l_world l).2))))
    (l_world l).1 (proj1 Hl) Hc) as Hs.
  unfold with_store. destruct (ps_DropByMsgId _ _ _) as [s' [[]|err|]]; [| |done].
  - destruct Hs as [Hi Hs]. eapply (kept_drop _ _ _ _ _ (s', (l_world l).2)); try done. by apply HT.
  - destruct Hs as [Hi Hs]. by apply kept_same.
Qed.

Lemma kept_Acked_broadcast used c L0 sbe d :
  triple (kept used c L0) (in_world (BroadcastExchange_Acked (S := S) sbe d))
    (λ _, kept used c L0) (λ _, kept used c L0).
Proof.
  intros l Hl. unfold in_world, BroadcastExchange_Acked, mbind, st_bind, get_session, modify_session.
  cbn. case_decide; by apply kept_same; [..|apply Hl|].
Qed.

Lemma kept_exchange_msg used c L0 :
  triple (kept used c L0) (exchange_msg clock OutNotifications true)
    (λ _ l, kept used c L0 l ∧ answered_last l) (λ _, kept used c L0).
Proof.
  intros l Hl. pose proof (kept_local used c L0 _ (local_exchange_msg OutNotifications true) l Hl) as Hk.
  destruct (exchange_msg clock OutNotifications true l) as [l' [[]|err|]] eqn:E; [|done..].
  split; [done|by eapply exchange_msg_last].
Qed.

Lemma quiet_kept_answered {A} used c L0 (m : st (loop S) berr A) R :
  quiet m → triple (λ l, kept used c L0 l ∧ answered_last l) m
    (λ _ l, kept used c L0 l ∧ answered_last l) R.
Proof.
  apply (quiet_keep (λ w tr,
    (ps_inv w.1 ∧ (∀ c' i, i ∈ ids (channel_of (ps_log w.1) c').2 → (c', i) ∈ used) ∧
     (∀ x, x ∈ L0 → x ∈ (channel_of (ps_log w.1) c).2 ∨ MsgId x.1 ∈ acked tr)) ∧
    ∃ tr' T, tr = tr' ++ [Sent (ONotifications (notificationsMsg (exchgScratch w.2))); Received T]
      ∧ (ack_Type (ackMsg (exchgScratch w.2)) = "ack" → is_ack T = true))).
Qed.

Lemma kept_send_loop used c L0 fuel e m answer :
  prepared e m answer → event_ok used (EvExchange (Some e)) →
  triple (kept used c L0) (send_loop pingInterval clock fuel e m answer)
    (λ _, kept used c L0) (λ _, kept used c L0).
Proof.
  intros Hp Hok. induction fuel as [|fuel IH]; cbn [send_loop]; [by apply triple_panic|].
  eapply triple_bind; [apply kept_local, local_Split|]. intros d. cbn beta.
  destruct e as [sbe|o|sue]; destruct Hp as [-> ->].
  - eapply triple_bind; [eapply triple_try; [apply kept_local, local_exchange_msg|done]|].
    intros [[]|err]; [|destruct err; try (by apply triple_err); apply kept_local, local_quiet, quiet_reset_].
    eapply triple_bind; [apply kept_local, local_quiet; destruct d; [apply quiet_reset_|apply quiet_ret]|].
    intros ?. eapply triple_bind; [apply kept_Acked_broadcast|]. intros ?.
    destruct d; [by apply triple_ret|exact IH].
  - eapply triple_bind; [eapply triple_try; [apply kept_local, local_exchange_msg|done]|].
    intros [[]|err]; [|destruct err; try (by apply triple_err); apply kept_local, local_quiet, quiet_reset_].
    eapply triple_bind; [apply kept_local, local_quiet; destruct d; [apply quiet_reset_|apply quiet_ret]|].
    intros ?. eapply (triple_bind _ _ _ (λ _, kept used c L0)); [intros l Hl; exact Hl|].
    intros ?. destruct d; [by apply triple_ret|exact IH].
  - eapply triple_bind; [eapply triple_try; [apply kept_exchange_msg|done]|].
    intros [[]|err]; [|destruct err; try (by apply triple_err); apply kept_local, local_quiet, quiet_reset_].
    eapply triple_bind; [apply quiet_kept_answered; destruct d; [apply quiet_reset_|apply quiet_ret]|].
    intros ?. eapply triple_bind; [by apply kept_Acked_unicast|]. intros ?.
    destruct d; [by apply triple_ret|exact IH].
Qed.

Lemma kept_run_exchange used c L0 e :
  event_ok used (EvExchange (Some e)) →
  triple (kept used c L0) (run_exchange pingInterval clock e) (λ _, kept used c L0) (λ _, kept used c L0).
Proof.
  intros Hok. unfold run_exchange.
  eapply triple_bind; [apply kept_local, local_quiet, quiet_Now|]. intros now.
  eapply triple_bind; [eapply triple_try; [apply kept_Prepare|done]|].
  intros [[m answer]|err]; cbn beta iota.
  - apply triple_pure. intros Hp. eapply triple_bind; [apply kept_local, local_quiet, quiet_gets|].
    intros fuel. by apply kept_send_loop.
  - destruct err; try (by apply triple_err).
    eapply triple_bind; [apply kept_local, local_quiet, quiet_reset|]. intros ok.
    destruct (negb ok); [apply kept_local, local_doPing|by apply triple_ret].
Qed.

Lemma kept_used used used' c L0 l :
  (∀ p, p ∈ used → p ∈ used') → kept used c L0 l → kept used' c L0 l.
Proof. intros Hs (Hi & Hu & Hx). split_and!; [done| |done]. intros d i Hin. by apply Hs, Hu. Qed.

Lemma entries_append a c x inc d :
  (channel_of (spec_append c x inc a) d).2
  = (channel_of a d).2 ++ (if decide (d = c) then [x] else []).
Proof.
  unfold spec_append, channel_of. case_decide as E; subst.
  - by rewrite lookup_insert_eq.
  - by rewrite lookup_insert_ne, app_nil_r.
Qed.

(** A failed or read-only operation of others. *)
Lemma kept_append used c L0 l w c' x inc :
  kept used c L0 l → ps_inv w.1 →
  ps_log w.1 = spec_append c' x inc (ps_log (l_world l).1) →
  kept ((c', MsgId x.1) :: used) c L0 (set_world w l).
Proof.
  intros (Hi & Hu & Hx) Hw Hl. unfold kept, entries in *; cbn. rewrite Hl. split_and!; [done| |].
  - intros d i. rewrite entries_append. unfold ids. rewrite !fmap_app, elem_of_app, elem_of_cons.
    intros [Hin|Hin]; [right; by apply Hu|]. case_decide; [|by apply elem_of_nil in Hin].
    apply list_elem_of_singleton in Hin as ->. left. by subst.
  - intros y Hy. rewrite entries_append, elem_of_app. destruct (Hx y Hy); auto.
Qed.

Lemma kept_store used c L0 now o l :
  event_ok used (EvStore now o) → kept used c L0 l →
  kept (event_used used (EvStore now o)) c L0
    (set_world ((ps_exec now o (l_world l).1).1, (l_world l).2) l).
Proof.
  intros Hok Hl. pose proof Hl as (Hi & Hu & Hx).
  assert (admissible (ps_log (l_world l).1) o) as Ha.
  { destruct o; cbn in *; try done. destruct Hok as [? Hn]. split; [done|].
    intros _ Hin. by apply Hn, Hu. }
  pose proof (ps_exec_spec now o (l_world l).1 Hi Ha) as Hs.
  assert (∀ p, p ∈ used → p ∈ event_used used (EvStore now o)) as Hsub.
  { destruct o; cbn; try done; intros p; apply list_elem_of_further. }
  destruct (ps_exec now o (l_world l).1) as [s' [a|e|]]; [| |done]; cbn [fst].
  - destruct Hs as [Hi' Hs]. destruct o; cbn in Hok, Hs |- *; try done.
    + injection Hs as Hs _. by eapply (kept_append used _ _ _ (s', _)) in Hs.
    + injection Hs as Hs _. by eapply (kept_append used _ _ _ (s', _)) in Hs.
    + injection Hs as Hs _. by apply kept_same.
    + injection Hs as Hs _. by apply kept_same.
  - destruct Hs as [Hi' Hs]. eapply kept_used; [exact Hsub|]. by apply kept_same.
Qed.

Lemma kept_event used c L0 e :
  event_ok used e →
  triple (kept used c L0) (run_event pingInterval clock e)
    (λ _, kept (event_used used e) c L0) (λ _, kept (event_used used e) c L0).
Proof.
  intros Hok. destruct e as [| |[exchg|]|now o]; cbn [run_event].
  - apply kept_local, local_quiet, quiet_modify. intros l. by destruct (t_armed _).
  - eapply triple_bind; [apply kept_local, local_quiet, quiet_gets|]. intros fired. cbn beta.
    destruct fired; [|by apply triple_ret].
    eapply triple_bind; [by apply kept_local, local_quiet, quiet_modify|]. intros ?.
    apply kept_local, local_doPing.
  - eapply triple_bind; [by apply kept_local, local_quiet, quiet_modify|]. intros ?.
    by apply kept_run_exchange.
  - eapply triple_bind; [by apply kept_local, local_quiet, quiet_modify|]. intros ?.
    by apply triple_err.
  - intros l Hl. by apply kept_store.
Qed.

Definition lossless c L0 l : Prop := ∃ used, kept used c L0 l.

Lemma kept_run used c L0 es :
  events_ok used es →
  triple (kept used c L0) (run pingInterval clock es) (λ _, lossless c L0) (λ _, lossless c L0).
Proof.
  revert used. induction es as [|e es IH]; intros used; cbn [run events_ok].
  - intros _. apply triple_ret. intros l Hl. by exists used.
  - intros [He Hes]. eapply triple_bind.
    + eapply triple_fail; [by apply kept_event|]. intros ? l Hl. by exists (event_used used e).
    + intros ?. by apply IH.
Qed.

(** *** Everything is delivered *)

(** The trace of the messages [ms], each acknowledged. *)
Definition delivery_trace (ms : list NotificationsMsg) : list tev :=
  concat ((λ m, [Sent (ONotifications m); Received (Some "ack")]) <$> ms).

Definition dropped (c : string) (ts : list Notification) (a : gmap string chan) : gmap string chan :=
  alter (λ ch, (ch.1, without_ids ts fst ch.2)) c a.

Lemma dropped_dropped c ts ts' a : dropped c ts' (dropped c ts a) = dropped c (ts ++ ts') a.
Proof.
  unfold dropped. rewrite alter_alter_eq. apply alter_ext. intros ch _. cbn. f_equal.
  unfold without_ids. rewrite list_filter_filter. apply list_filter_iff. intros x.
  rewrite fmap_app, elem_of_app. tauto.
Qed.

(** A store none of whose admissible operations fails. *)
Definition reliable : Prop :=
  ∀ now o (s : S), ps_inv s → admissible (ps_log s) o → is_ok (ps_exec now o s).2 = true.

Lemma reliable_drop c ts (s : S) :
  reliable → ps_inv s → UnicastChannel c = Some true →
  ∃ s', ps_DropByMsgId c ts s = (s', Ok ()) ∧ ps_inv s' ∧ ps_log s' = dropped c ts (ps_log s).
Proof.
  intros Hr Hi Hc. pose proof (ps_drop_spec c ts s Hi Hc) as Hs.
  pose proof (Hr 0%Z (OpDropByMsgId c ts) s Hi Hc) as Hok.
  unfold ps_exec, mbind, st_bind in Hok.
  destruct (ps_DropByMsgId c ts s) as [s' [[]|e|]]; [|done..]. by exists s'.
Qed.

Lemma reliable_snapshot now c (s : S) :
  reliable → ps_inv s →
  ∃ s', ps_GetChannelSnapshot now c s
      = (s', Ok ((channel_of (ps_log s) c).1, (live now (channel_of (ps_log s) c).2).*1)) ∧
    ps_inv s' ∧ ps_log s' = ps_log s.
Proof.
  intros Hr Hi. pose proof (ps_snapshot_spec now c s Hi) as Hs.
  pose proof (Hr now (OpSnapshot c) s Hi I) as Hok. unfold ps_exec, mbind, st_bind in Hok.
  destruct (ps_GetChannelSnapshot now c s) as [s' [[top ns]|e|]]; [|done..].
  destruct Hs as (? & ? & -> & ->). by exists s'.
Qed.

Lemma exchange_msg_acked l rs :
  l_writes l = [] → l_reads l = Reply (Some "ack") :: rs →
  ∃ l', exchange_msg clock OutNotifications true l = (l', Ok ()) ∧
    l_world l' = ((l_world l).1, set_ackMsg {| ack_Type := "ack" |} (l_world l).2) ∧
    l_trace l' = l_trace l ++ [Sent (ONotifications (notificationsMsg (exchgScratch (l_world l).2)));
                               Received (Some "ack")] ∧
    l_reads l' = rs ∧ l_writes l' = [].
Proof.
  intros Hw Hr. unfold exchange_msg, exchange, mbind, st_bind, WriteMessage, ReadMessage. cbn.
  rewrite Hw. cbn. rewrite Hr. cbn. eexists. split; [done|]. cbn. by rewrite <- app_assoc.
Qed.

Lemma UnicastExchange_Acked_run c b d (w : S * BrokerSession) s' :
  ack_Type (ackMsg (exchgScratch w.2)) = "ack" →
  ps_DropByMsgId c (n_shown (notificationsMsg (exchgScratch w.2))) w.1 = (s', Ok ()) →
  UnicastExchange_Acked (MkUnicastExchange c b) d w = ((s', w.2), Ok ()).
Proof.
  intros Ha Hd. unfold UnicastExchange_Acked, mbind, st_bind, get_session, with_store.
  cbn [fst snd ue_ChanId]. rewrite decide_True by done. unfold n_shown in Hd. by rewrite Hd.
Qed.

Lemma Split_notifications l d m :
  NotificationsMsg_Split (notificationsMsg (exchgScratch (l_world l).2)) = Some (d, m) →
  Split OutNotifications l
  = (set_world ((l_world l).1, set_notificationsMsg m (l_world l).2) l, Ok (E := berr) d).
Proof. intros E. cbn [Split]. unfold mbind, st_bind; cbn. by rewrite E. Qed.

Lemma send_loop_delivers fuel ms l c b rs :
  reliable → UnicastChannel c = Some true → ps_inv (l_world l).1 →
  notifications_sends fuel (notificationsMsg (exchgScratch (l_world l).2)) = Some (ms, true) →
  l_reads l = replicate (length ms) (Reply (Some "ack")) ++ rs → l_writes l = [] →
  ∃ l', send_loop pingInterval clock fuel (Unicast (MkUnicastExchange c b)) OutNotifications true l
      = (l', Ok ()) ∧
    l_trace l' = l_trace l ++ delivery_trace ms ∧ ps_inv (l_world l').1 ∧
    ps_log (l_world l').1 = dropped c (concat (n_shown <$> ms)) (ps_log (l_world l).1) ∧
    l_reads l' = rs.
Proof.
  intros Hrel Hc. revert ms l. induction fuel as [|fuel IH]; intros ms l Hi Hs Hr Hw; [done|].
  cbn [notifications_sends] in Hs. apply bind_Some in Hs as ([d m'] & Hsp & Hs).
  cbn [send_loop]. erewrite st_bind_Ok by (by apply Split_notifications).
  set (l1 := set_world _ l).
  assert (∃ ms', ms = m' :: ms' ∧ if d then ms' = []
    else notifications_sends fuel m' = Some (ms', true)) as (ms' & -> & Hms').
  { destruct d; [injection Hs as <-; by exists []|].
    apply bind_Some in Hs as ([ms' d'] & Hs & [= <- ->]). by exists ms'. }
  cbn [length replicate app] in Hr.
  destruct (exchange_msg_acked l1 (replicate (length ms') (Reply (Some "ack")) ++ rs))
    as (l2 & E2 & Hw2 & Ht2 & Hr2 & Hwr2); [done|done|].
  erewrite st_bind_Ok by (apply st_try_Ok, E2). cbn beta iota.
  assert (∃ l3, (if d then pingTimerReset pingInterval clock true;; mret () else mret ()) l2
      = (l3, Ok (E := berr) ()) ∧ keeps l2 l3) as (l3 & E3 & Ht3 & Hw3 & Hr3 & Hwr3).
  { destruct d; [destruct (quiet_reset_ pingInterval clock true l2) as (l3 & [] & ? & ?)|]; by eexists. }
  erewrite st_bind_Ok by exact E3.
  destruct (reliable_drop c (n_shown m') (l_world l).1 Hrel Hi Hc) as (s' & Ed & Hi' & Hl').
  assert (in_world (UnicastExchange_Acked (MkUnicastExchange c b) d) l3
    = (set_world (s', (l_world l2).2) l3, Ok ())) as E4.
  { unfold in_world. erewrite UnicastExchange_Acked_run; rewrite ?Hw3, ?Hw2; done. }
  cbn [Acked]. erewrite st_bind_Ok by exact E4.
  set (l4 := set_world _ l3).
  destruct d.
  - subst ms'. exists l4. split; [done|]. cbn. rewrite Ht3, Ht2, Hr3, Hr2, app_nil_r. cbn.
    split_and!; [done|done|exact Hl'|done].
  - destruct (IH ms' l4) as (l' & E' & Ht' & Hi'' & Hlog & Hrs); [done| | | |].
    + cbn. by rewrite Hw2.
    + cbn. by rewrite Hr3, Hr2.
    + cbn. by rewrite Hwr3, Hwr2.
    + exists l'. split; [exact E'|]. rewrite Ht', Hlog. cbn. rewrite Ht3, Ht2. cbn.
      split_and!; [by rewrite <- app_assoc|done| |done].
      by rewrite Hl', dropped_dropped.
Qed.

Lemma chunks_nonempty {A} (sizeof : A → Z) fuel (k : list A) :
  Forall (λ x, sizeof x ≤ maxPayloadSize)%Z k → k ≠ [] →
  Forall (λ ch, ch ≠ []) (SplitSpec.chunks sizeof fuel k).
Proof.
  revert k. induction fuel as [|fuel IH]; intros k Hf Hk; cbn; [constructor|].
  destruct (split_scan sizeof k 0 0) as [i|] eqn:E; [|by repeat constructor].
  destruct (SplitSpec.split_scan_Some sizeof _ 0 i ltac:(done) E) as (Hi & _ & _).
  destruct k as [|x k]; [done|].
  pose proof (SplitSpec.split_scan_progress sizeof x k i (Forall_inv Hf) E).
  constructor; [by destruct i; [lia|]|]. apply IH; [by apply Forall_drop|].
  intros Hd. apply (f_equal length) in Hd. rewrite length_drop in Hd. cbn in *. lia.
Qed.

Lemma length_concat_nonempty {A} (ls : list (list A)) :
  Forall (λ k, k ≠ []) ls → length ls ≤ length (concat ls).
Proof.
  induction 1 as [|k ls Hk _ IH]; cbn; [done|]. rewrite length_app.
  destruct k; [done|]. cbn. lia.
Qed.

(** The pending notifications of a channel when the clock is read. *)
Definition pending_now l (c : string) : list Notification :=
  (live (clock (l_ticks l)) (entries l c)).*1.

Lemma notification_size_nonneg n : (0 ≤ notification_size n)%Z.
Proof. unfold notification_size. change notificationOverhead with 20%Z. lia. Qed.

Lemma run_event_delivers l c b rs :
  let ns := pending_now l c in
  reliable → UnicastChannel c = Some true → ps_inv (l_world l).1 →
  ns ≠ [] → Forall (λ n, notification_size n ≤ maxPayloadSize)%Z ns →
  l_reads l = replicate (length ns) (Reply (Some "ack")) ++ rs → l_writes l = [] →
  ∃ ms l', run_event pingInterval clock (EvExchange (Some (Unicast (MkUnicastExchange c b)))) l
      = (l', Ok ()) ∧
    l_trace l' = l_trace l ++ delivery_trace ms ∧ concat (n_shown <$> ms) = ns ∧
    Forall (λ m, sum_Z notification_size (n_shown m) ≤ maxPayloadSize)%Z ms ∧
    ps_inv (l_world l').1 ∧ ps_log (l_world l').1 = dropped c ns (ps_log (l_world l).1).
Proof.
  intros ns Hrel Hc Hi Hne Hfit Hr Hw.
  destruct (reliable_snapshot (clock (l_ticks l)) c (l_world l).1 Hrel Hi) as (s' & Es & Hi' & Hl').
  fold (entries l c) in Es. fold (pending_now l c) in Es. fold ns in Es.
  cbn [run_event]. erewrite st_bind_Ok by done.
  unfold run_exchange. erewrite st_bind_Ok by done.
  set (l1 := Loop _ _ _ _ _ _ _).
  pose proof (BrokerSpec.UnicastExchange_Prepare_spec (clock (l_ticks l)) (l_world l).1 s'
    (l_world l).2 (MkUnicastExchange c b) _ _ Es) as Ep.
  rewrite decide_False in Ep by done.
  set (m0 := {| n_Type := "notifications"; n_Notifications := s_of_list ns; n_splitting := 0 |}) in Ep.
  assert (in_world (Prepare (clock (l_ticks l)) (Unicast (MkUnicastExchange c b))) l1
    = (set_world (s', set_notificationsMsg m0 (l_world l).2) l1, Ok (OutNotifications, true))) as E1.
  { unfold in_world. cbn [Prepare]. destruct (l_world l) as [w1 w2] eqn:El. subst l1. cbn [l_world set_timer]. rewrite El.
    cbn [fst snd] in Ep. by rewrite Ep. }
  erewrite st_bind_Ok by (apply st_try_Ok, E1). cbn beta iota.
  set (l2 := set_world _ l1). erewrite st_bind_Ok by done.
  destruct (notifications_sends_spec (2 + length (l_reads l2)) m0) as (ms & Hs & Hch).
  { apply initial_window_wf. }
  { unfold n_pending. cbn [m0 n_Notifications n_splitting]. by rewrite initial_pending. }
  { unfold n_pending. cbn [m0 n_Notifications n_splitting]. rewrite initial_pending.
    change (l_reads l2) with (l_reads l). rewrite Hr, length_app, length_replicate. lia. }
  unfold n_pending in Hch. cbn [m0 n_Notifications n_splitting] in Hch. rewrite initial_pending in Hch.
  destruct (SplitSpec.chunks_spec notification_size (2 + length (l_reads l2)) ns) as [Hcat Hf];
    [apply notification_size_nonneg|done| |].
  { change (l_reads l2) with (l_reads l). rewrite Hr, length_app, length_replicate. lia. }
  pose proof (chunks_nonempty notification_size (2 + length (l_reads l2)) ns Hfit Hne) as Hnn.
  rewrite <- Hch in Hcat, Hf, Hnn. apply length_concat_nonempty in Hnn.
  rewrite Hcat, length_fmap in Hnn.
  destruct (send_loop_delivers (2 + length (l_reads l2)) ms l2 c b
    (replicate (length ns - length ms) (Reply (Some "ack")) ++ rs))
    as (l' & E' & Ht & Hi'' & Hlog & _); [done..| |done|].
  { change (l_reads l2) with (l_reads l).
    rewrite Hr, app_assoc, <- replicate_add. do 2 f_equal. lia. }
  exists ms, l'. split; [exact E'|]. split; [exact Ht|]. split; [done|]. split.
  { rewrite Forall_fmap in Hf. exact Hf. }
  split; [done|]. rewrite Hlog, Hcat. cbn. by rewrite Hl'.
Qed.
End delivery.
End SessionDelivery.

(** ** Properties *)
Section properties.
Import ServerSession SessionSpec SessionDelivery.
Context {S : Type} `{PendingStoreLaws S}.
Context (pingInterval : Z) (pingIntervalString : string) (clock : nat → Z).

(** C7: Protocol conformance: whatever the peer answers, whatever fails, and
    whatever the broker and the rest of the server do, the messages a session
    sends and receives follow the state diagram of the protocol: CONNACK
    first, no message while an answer is awaited, nothing after a CONNBROKEN
    or a wrong answer. While the session has not returned it is in the
    diagram's loop state; once it returns after having registered, it has
    unregistered, exactly once and as its last action. *)
Theorem session_conforms version connMsg
    (Register : ConnectMsg → st S berr BrokerSession) (es : list event) (l : loop S) :
  l_trace l = [] →
  let '(l', r) := Session pingInterval pingIntervalString clock version connMsg Register es l in
  ∃ q, proto_run PStart (l_trace l') = Some q ∧
    match r with
    | Ok _ => q = PLoop
    | _ => q = PStart ∨ q = PConnAcked ∨ q = PUnregistered
    end.
Proof.
  intros Hl. unfold Session.
  assert (conf PStart l) as Hc by (unfold conf; by rewrite Hl).
  destruct version as [v|e|]; [|by exists PStart; auto..].
  case_decide; [|by exists PStart; auto].
  pose proof (sessionStart_conf pingIntervalString clock connMsg Register l Hc) as Hs.
  unfold mbind, st_bind.
  destruct (sessionStart _ _ _ _ l) as [l1 [[]|e|]]; [|destruct Hs; eexists; eauto..].
  pose proof (sessionLoop_conf pingInterval clock es l1 Hs) as Hr. unfold with_unregister.
  destruct (sessionLoop _ _ _ l1) as [l2 [[]|e|]]; [by exists PLoop| |];
    destruct Hr as (q & Hq & [q' Hq']); exists PUnregistered;
    (split; [|auto]); (eapply conf_log; [exact Hq| |done]); by destruct q.
Qed.

(** C5: Nothing is lost: during a session, while the rest of the server reads
    the store and appends notifications with fresh ids, a notification
    pending on any channel is still there afterwards unless a message that
    contained it was acknowledged. This holds however the session ends,
    write and read errors in the middle of a split delivery included. *)
Theorem session_no_loss (used : list (string * string)) (es : list event) (l : loop S) (c : string) :
  ps_inv (l_world l).1 →
  (∀ c' i, i ∈ ids (entries l c') → (c', i) ∈ used) →
  events_ok used es →
  ∀ x, x ∈ entries l c →
  let l' := (run pingInterval clock es l).1 in
  x ∈ entries l' c ∨ MsgId x.1 ∈ acked (l_trace l').
Proof.
  intros Hi Hu Hes x Hx.
  assert (kept used c (entries l c) l) as Hk by (split_and!; auto).
  pose proof (kept_run pingInterval clock used c (entries l c) es Hes l Hk) as Hr.
  destruct (run _ _ es l) as [l' [a|e|]]; destruct Hr as (u & _ & _ & Hk'); by apply Hk'.
Qed.

(** C6: Everything is delivered: a unicast exchange for a channel with pending
    notifications, each small enough, with a client that acknowledges and a
    store that does not fail, sends exactly the live notifications, in order
    and in messages that fit, each message followed by its acknowledgement,
    removes exactly those notifications from the channel, and returns to the
    loop. *)
Theorem unicast_delivered (l : loop S) (c : string) (b : bool) (rs : list reply) :
  let ns := pending_now clock l c in
  reliable (S := S) → UnicastChannel c = Some true → ps_inv (l_world l).1 →
  ns ≠ [] → Forall (λ n, notification_size n ≤ maxPayloadSize)%Z ns →
  l_reads l = replicate (length ns) (Reply (Some "ack")) ++ rs → l_writes l = [] →
  ∃ ms l', run_event pingInterval clock (EvExchange (Some (Unicast (MkUnicastExchange c b)))) l
      = (l', Ok ()) ∧
    l_trace l' = l_trace l ++ delivery_trace ms ∧ concat (n_shown <$> ms) = ns ∧
    Forall (λ m, sum_Z notification_size (n_shown m) ≤ maxPayloadSize)%Z ms ∧
    entries l' c = without_ids ns fst (entries l c) ∧
    (∀ c', c' ≠ c → entries l' c' = entries l c').
Proof.
  intros ns Hrel Hc Hi Hne Hfit Hr Hw.
  destruct (run_event_delivers pingInterval clock l c b rs Hrel Hc Hi Hne Hfit Hr Hw)
    as (ms & l' & E & Ht & Hcat & Hf & Hi' & Hlog).
  exists ms, l'. split_and!; try done; unfold entries; rewrite Hlog; unfold dropped, channel_of.
  - rewrite lookup_alter_eq. by destruct (ps_log _ !! c).
  - intros c' Hne'. by rewrite lookup_alter_ne.
Qed.
End properties.

Section witnesses.
Import ServerSession SessionSpec SessionDelivery.

Definition example_log : gmap string chan :=
  {[ "Ud:d" := (0%Z, [(Build_Notification "app" "m1" "{}", MkMeta 100 "" false);
                      (Build_Notification "app" "m2" "{}", MkMeta 100 "" false)]) ]}.
Definition example_store : gmap string channel := repr example_log.

Lemma example_log_ok : log_ok example_log.
Proof.
  apply map_Forall_singleton. split_and!; [by repeat constructor|by vm_compute|].
  intros _. by apply (bool_decide_unpack _).
Qed.

Lemma example_store_inv : ps_inv example_store.
Proof. exists example_log. split; [apply example_log_ok|done]. Qed.

Definition example_loop (reads : list reply) : loop (gmap string channel) :=
  Loop (example_store, Broker.Session "d" "m" "c" ∅ empty_scratch) (Timer true false) 0 0 reads [] [].

Lemma InMemory_reliable : reliable (S := gmap string channel).
Proof.
  intros now o s (a & Ha & ->) Ho. cbn in Ho. rewrite log_of_repr in Ho.
  rewrite ps_exec_exec, exec_spec by done. by destruct (spec now o a).
Qed.

Lemma example_entries reads c : entries (example_loop reads) c = (channel_of example_log c).2.
Proof.
  unfold entries. change (ps_log _) with (log_of (repr example_log)). by rewrite log_of_repr.
Qed.

Definition example_Register (connMsg : ConnectMsg)
    : st (gmap string channel) berr BrokerSession := λ s,
  (s, Ok (Broker.Session (cm_DeviceId connMsg) "m" "c" ∅ empty_scratch)).

Definition example_connect : ConnectMsg :=
  {| cm_Type := "connect"; cm_ClientVer := ""; cm_DeviceId := "d"; cm_Authorization := "";
     cm_Cookie := ""; cm_Info := ∅; cm_Levels := ∅ |}.

Definition example_events : list event :=
  [EvTimerExpires; EvPing; EvExchange (Some (Unicast (MkUnicastExchange "Ud:d" true))); EvExchange None].

Lemma session_conforms_witness :
  ∃ q, (proto_run PStart
    (l_trace (ServerSession.Session 10 "10s" Z.of_nat (Ok 0%Z) (Ok example_connect) example_Register
      example_events (example_loop [Reply (Some "pong"); Reply (Some "ack")])).1) = Some q) ∧
    q = PUnregistered.
Proof.
  pose proof (session_conforms 10 "10s" Z.of_nat (Ok 0%Z) (Ok example_connect) example_Register
    example_events (example_loop [Reply (Some "pong"); Reply (Some "ack")]) eq_refl) as Hp.
  destruct (ServerSession.Session _ _ _ _ _ _ _ _) as [l' r] eqn:E.
  destruct Hp as (q & Hq & Hr). exists q. split; [exact Hq|].
  apply (f_equal (λ x, proto_run PStart (l_trace x.1))) in E. cbn [fst] in E.
  rewrite Hq in E. vm_compute in E. by injection E as <-.
Defined.

Lemma session_no_loss_witness :
  let l' := (run 10 Z.of_nat [EvExchange (Some (Unicast (MkUnicastExchange "Ud:d" true)))]
    (example_loop [ReplyErr Wire.EOF])).1 in
  (Build_Notification "app" "m1" "{}", MkMeta 100 "" false) ∈ entries l' "Ud:d"
  ∨ "m1" ∈ acked (l_trace l').
Proof.
  apply (session_no_loss 10 Z.of_nat [("Ud:d", "m1"); ("Ud:d", "m2")] _
    (example_loop [ReplyErr Wire.EOF]) "Ud:d") with (x := (Build_Notification "app" "m1" "{}", MkMeta 100 "" false)).
  - apply example_store_inv.
  - intros c' i. rewrite example_entries. unfold channel_of, example_log.
    destruct (decide (c' = "Ud:d")) as [->|].
    + rewrite lookup_singleton_eq. cbn. set_solver.
    + rewrite lookup_singleton_ne by done. cbn. set_solver.
  - by split.
  - rewrite example_entries. unfold channel_of, example_log.
    rewrite lookup_singleton_eq. cbn. set_solver.
Defined.

Lemma unicast_delivered_witness :
  ∃ ms l', run_event 10 Z.of_nat (EvExchange (Some (Unicast (MkUnicastExchange "Ud:d" true))))
      (example_loop [Reply (Some "ack"); Reply (Some "ack")]) = (l', Ok ()) ∧
    l_trace l' = delivery_trace ms ∧
    concat (n_shown <$> ms) = [Build_Notification "app" "m1" "{}"; Build_Notification "app" "m2" "{}"].
Proof.
  destruct (unicast_delivered 10 Z.of_nat (example_loop [Reply (Some "ack"); Reply (Some "ack")])
    "Ud:d" true []) as (ms & l' & E & Ht & Hc & _).
  - apply InMemory_reliable.
  - done.
  - apply example_store_inv.
  - by vm_compute.
  - apply (bool_decide_unpack _). by vm_compute.
  - by vm_compute.
  - done.
  - exists ms, l'. split; [exact E|]. split; [exact Ht|]. rewrite Hc. by vm_compute.
Defined.
End witnesses.
