(* ===== verification/Api.v ===== *)
(** The REST API of the server: [server/api/handlers.go] and
    [server/api/middleware.go].

    Requests are checked, decoded and handed to one of four handlers, which
    work on a [PendingStore] and ask the broker for deliveries. Handlers are
    state transformers over the store, the deliveries requested so far, and
    the positions in the streams of clock readings and message ids. The JSON
    decoder, the media type and time parsers are parameters. *)

From S2P Require Import Prelude Base64 Protocol Store SimpleBroker.
Import Msg Store StoreSpec.

Module Api.

Definition MaxRequestBodyBytes : Z := 4 * 1024.
Definition JSONMediaType : string := "application/json".
Definition MaxUnicastPayload : Z := 2 * 1024.

Record APIError := MkAPIError {
  StatusCode : Z;
  ErrorLabel : string;
  Message : string;
  Extra : option string;
}.

#[export] Instance APIError_eq_dec : EqDecision APIError.
Proof. solve_decision. Defined.

Definition ioError : string := "io-error".
Definition invalidRequest : string := "invalid-request".
Definition unknownChannel : string := "unknown-channel".
Definition unknownToken : string := "unknown-token".
Definition unauthorized : string := "unauthorized".
Definition unavailable : string := "unavailable".
Definition internalError : string := "internal".
Definition tooManyPending : string := "too-many-pending".

(** The status codes of [net/http] in use. *)
Definition StatusBadRequest : Z := 400.
Definition StatusUnauthorized : Z := 401.
Definition StatusMethodNotAllowed : Z := 405.
Definition StatusLengthRequired : Z := 411.
Definition StatusRequestEntityTooLarge : Z := 413.
Definition StatusUnsupportedMediaType : Z := 415.
Definition StatusInternalServerError : Z := 500.
Definition StatusServiceUnavailable : Z := 503.

Definition ErrNoContentLengthProvided := MkAPIError StatusLengthRequired invalidRequest "A Content-Length must be provided" None.
Definition ErrRequestBodyEmpty := MkAPIError StatusBadRequest invalidRequest "Request body empty" None.
Definition ErrRequestBodyTooLarge := MkAPIError StatusRequestEntityTooLarge invalidRequest "Request body too large" None.
Definition ErrWrongContentType := MkAPIError StatusUnsupportedMediaType invalidRequest "Wrong content type, should be application/json" None.
Definition ErrWrongRequestMethod := MkAPIError StatusMethodNotAllowed invalidRequest "Wrong request method, should be POST" None.
Definition ErrMalformedJSONObject := MkAPIError StatusBadRequest invalidRequest "Malformed JSON Object" None.
Definition ErrCouldNotReadBody := MkAPIError StatusBadRequest ioError "Could not read request body" None.
Definition ErrMissingIdField := MkAPIError StatusBadRequest invalidRequest "Missing id field" None.
Definition ErrMissingData := MkAPIError StatusBadRequest invalidRequest "Missing data field" None.
Definition ErrDataTooLarge := MkAPIError StatusBadRequest invalidRequest "Data too large" None.
Definition ErrInvalidExpiration := MkAPIError StatusBadRequest invalidRequest "Invalid expiration date" None.
Definition ErrPastExpiration := MkAPIError StatusBadRequest invalidRequest "Past expiration date" None.
Definition ErrUnknownChannel := MkAPIError StatusBadRequest unknownChannel "Unknown channel" None.
Definition ErrUnknownToken := MkAPIError StatusBadRequest unknownToken "Unknown token" None.
Definition ErrUnknown := MkAPIError StatusInternalServerError internalError "Unknown error" None.
Definition ErrCouldNotStoreNotification := MkAPIError StatusServiceUnavailable unavailable "Could not store notification" None.
Definition ErrCouldNotMakeToken := MkAPIError StatusServiceUnavailable unavailable "Could not make token" None.
Definition ErrCouldNotRemoveToken := MkAPIError StatusServiceUnavailable unavailable "Could not remove token" None.
Definition ErrCouldNotResolveToken := MkAPIError StatusServiceUnavailable unavailable "Could not resolve token" None.
Definition ErrUnauthorized := MkAPIError StatusUnauthorized unauthorized "Unauthorized" None.
Definition ErrTooManyPendingNotifications := MkAPIError StatusRequestEntityTooLarge tooManyPending "Too many pending notifications for this application" None.

Record Registration := MkRegistration { r_DeviceId : string; r_AppId : string }.

Record Unicast := MkUnicast {
  u_Token : string;
  u_UserId : string;
  u_DeviceId : string;
  u_AppId : string;
  u_ExpireOn : string;
  u_Data : string;
  u_ClearPending : bool;
  u_ReplaceTag : string;
}.

Record Broadcast := MkBroadcast { bc_Channel : string; bc_ExpireOn : string; bc_Data : string }.

(** What the checks look at in a request. [ContentLength] is -1 when the
    header is missing. *)
Record http_Request := MkRequest {
  Method : string;
  ContentLength : Z;
  ContentType : string;
  Body : string;
}.

Record http_Response := MkResponse { Status : Z; RespBody : string }.

(** [json.Marshal] of an [APIError]: no label or message needs escaping. *)
Definition json_field (name value : string) : string := quoted name +:+ ":" +:+ value.

Definition marshal_APIError (e : APIError) : string :=
  "{" +:+ json_field "error" (quoted (ErrorLabel e)) +:+ ","
  +:+ json_field "message" (quoted (Message e))
  +:+ match Extra e with Some x => "," +:+ json_field "extra" x | None => "" end +:+ "}".

Definition RespondError (e : APIError) : http_Response :=
  MkResponse (StatusCode e) (marshal_APIError e).

Fixpoint str_take (n : nat) (s : string) : string :=
  match n, s with S n, String c s => String c (str_take n s) | _, _ => EmptyString end.

Section api.
Context {S : Type} `{PendingStore S}.
(** [mime.ParseMediaType] (the media type), [time.Parse(time.RFC3339, _)],
    [json.Marshal] of a raw message: [None] is an error. *)
Context (ParseMediaType : string → option string) (ParseTime : string → option Z)
        (marshal_raw : string → option string).
(** The [n]th reading of the clock, the [n]th message id made, and
    [GetMaxNotificationsPerApplication]. *)
Context (clock : nat → Z) (msgIds : nat → string) (maxNotifications : Z).

(** *** Checks *)
Definition checkContentLength (request : http_Request) (maxBodySize : Z) : option APIError :=
  if decide (ContentLength request = -1)%Z then Some ErrNoContentLengthProvided
  else if decide (ContentLength request = 0)%Z then Some ErrRequestBodyEmpty
  else if decide (ContentLength request > maxBodySize)%Z then Some ErrRequestBodyTooLarge
  else None.

Definition checkRequestAsPost (request : http_Request) (maxBodySize : Z) : option APIError :=
  if decide (Method request ≠ "POST") then Some ErrWrongRequestMethod
  else match checkContentLength request maxBodySize with
       | Some err => Some err
       | None =>
           if decide (ParseMediaType (ContentType request) = Some JSONMediaType) then None
           else Some ErrWrongContentType
       end.

(** [make([]byte, n)] panics for a negative [n]; [io.ReadFull] fails on a
    short body. *)
Definition ReadBody (request : http_Request) (maxBodySize : Z) : outcome APIError string :=
  match checkRequestAsPost request maxBodySize with
  | Some err => Err err
  | None =>
      if decide (ContentLength request < 0)%Z then Panic
      else if decide (len (Body request) < ContentLength request)%Z then Err ErrCouldNotReadBody
      else Ok (str_take (Z.to_nat (ContentLength request)) (Body request))
  end.

(** *** The state of the handlers *)
Record world := World {
  w_store : S;
  w_ticks : nat;
  w_ids : nat;
  w_deliveries : list SimpleBroker.delivery;
}.

Abbreviation M := (st world APIError).

Definition time_Now : M Z := λ w,
  (World (w_store w) (Datatypes.S (w_ticks w)) (w_ids w) (w_deliveries w), Ok (clock (w_ticks w))).
Definition generateMsgId : M string := λ w,
  (World (w_store w) (w_ticks w) (Datatypes.S (w_ids w)) (w_deliveries w), Ok (msgIds (w_ids w))).
(** [ctx.broker.Broadcast(chanId)], [go ctx.broker.Unicast(chanId)] *)
Definition request_delivery (d : SimpleBroker.delivery) : M unit := λ w,
  (World (w_store w) (w_ticks w) (w_ids w) (w_deliveries w ++ [d]), Ok ()).

(** A store operation and what its errors turn into. *)
Definition on_store {A} (m : st S store_err A) (f : store_err → APIError) : M A := λ w,
  match m (w_store w) with
  | (s, Ok a) => (World s (w_ticks w) (w_ids w) (w_deliveries w), Ok a)
  | (s, Err e) => (World s (w_ticks w) (w_ids w) (w_deliveries w), Err (f e))
  | (s, Panic) => (World s (w_ticks w) (w_ids w) (w_deliveries w), Panic)
  end.

Definition checkCastCommon (data expireOn : string) : M Z :=
  if decide (len data = 0)%Z then st_err ErrMissingData
  else match ParseTime expireOn with
       | None => st_err ErrInvalidExpiration
       | Some expire =>
           now ← time_Now;
           if decide (expire < now)%Z then st_err ErrPastExpiration else mret expire
       end.

Definition checkBroadcast (bcast : Broadcast) : M Z :=
  checkCastCommon (bc_Data bcast) (bc_ExpireOn bcast).

Definition doBroadcast (bcast : Broadcast) : M (option (string * string)) :=
  expire ← checkBroadcast bcast;
  chanId ← on_store (ps_GetInternalChannelId (bc_Channel bcast))
    (λ e, if decide (e = Store.ErrUnknownChannel) then ErrUnknownChannel else ErrUnknown);
  on_store (ps_AppendToChannel chanId (bc_Data bcast) expire) (λ _, ErrCouldNotStoreNotification);;
  request_delivery (SimpleBroker.broadcastDelivery chanId);;
  mret None.

Definition checkUnicast (ucast : Unicast) : M Z :=
  if decide (u_AppId ucast = "") then st_err ErrMissingIdField
  else if decide (u_Token ucast = "" ∧ (u_UserId ucast = "" ∨ u_DeviceId ucast = ""))
  then st_err ErrMissingIdField
  else if decide (len (u_Data ucast) > MaxUnicastPayload)%Z then st_err ErrDataTooLarge
  else checkCastCommon (u_Data ucast) (u_ExpireOn ucast).

(** What the loop over the stored notifications counts. [last] is set to the
    address of the loop variable, which all iterations share: [c_last] says
    whether it was set, what it points to is the variable's final value. *)
Record counts := Counts { c_expired : nat; c_replaceable : nat; c_forApp : nat; c_last : bool }.

Fixpoint count_loop (now : Z) (appId replaceTag : string) (notifs : list Notification)
    (meta : list Metadata) (c : counts) : option counts :=
  match notifs, meta with
  | [], _ => Some c
  | _ :: _, [] => None
  | notif :: notifs, m :: meta =>
      if Before m now then
        count_loop now appId replaceTag notifs meta
          (Counts (Datatypes.S (c_expired c)) (c_replaceable c) (c_forApp c) (c_last c))
      else if decide (AppId notif = appId) then
        if decide (replaceTag ≠ "" ∧ replaceTag = ReplaceTag m) then
          count_loop now appId replaceTag notifs meta
            (Counts (c_expired c) (Datatypes.S (c_replaceable c)) (c_forApp c) (c_last c))
        else
          count_loop now appId replaceTag notifs meta
            (Counts (c_expired c) (c_replaceable c) (Datatypes.S (c_forApp c)) true)
      else
        count_loop now appId replaceTag notifs meta
          (Counts (c_expired c) (c_replaceable c) (c_forApp c) true)
  end.

(** [&last.Payload]: a nil dereference if [last] was not set. *)
Definition last_payload (c : counts) (notifs : list Notification) : option string :=
  if c_last c then Payload <$> last notifs else None.

Definition apiErrorWithExtra {A} (e : APIError) (raw : string) : M A :=
  match marshal_raw raw with
  | Some b => st_err (MkAPIError (StatusCode e) (ErrorLabel e) (Message e) (Some b))
  | None => st_panic
  end.

Definition token_app (decoded : string) : string := default "" (head (split_on ":"%char decoded)).

(** The criteria of the scrub before storing: [None] is the nil slice. *)
Definition scrub_for {A} (ucast : Unicast) (appId : string) (c : counts) (too_many : M A)
    (k : option (list string) → M A) : M A :=
  if u_ClearPending ucast then k (Some [appId])
  else if decide (maxNotifications ≤ Z.of_nat (c_forApp c))%Z then too_many
  else if decide (0 < c_replaceable c) then k (Some [appId; u_ReplaceTag ucast])
  else k None.

Definition doUnicast (ucast : Unicast) : M (option (string * string)) :=
  expire ← checkUnicast ucast;
  match DecodeString (u_Token ucast) with
  | None => st_err ErrUnknownToken
  | Some token =>
      let appId := token_app token in
      chanId ← on_store
        (ps_GetInternalChannelIdFromToken (u_Token ucast) appId (u_UserId ucast) (u_DeviceId ucast))
        (λ e, if decide (e = Store.ErrUnknownToken) then ErrUnknownToken
              else if decide (e = Store.ErrUnauthorized) then ErrUnauthorized
              else ErrCouldNotResolveToken);
      r ← on_store (ps_GetChannelUnfiltered chanId) (λ _, ErrCouldNotStoreNotification);
      let '(notifs, meta) := default ([], []) r.2 in
      now ← time_Now;
      match count_loop now appId (u_ReplaceTag ucast) notifs meta (Counts 0 0 0 false) with
      | None => st_panic
      | Some c =>
          scrub_for ucast appId c
            (match last_payload c notifs with
             | None => st_panic
             | Some p => apiErrorWithExtra ErrTooManyPendingNotifications p
             end)
            (λ scrubCriteria,
              (if bool_decide (0 < c_expired c) || bool_decide (scrubCriteria ≠ None) then
                 scrub_now ← time_Now;
                 on_store (ps_Scrub scrub_now chanId (default [] scrubCriteria))
                   (λ _, ErrCouldNotStoreNotification)
               else mret ());;
              msgId ← generateMsgId;
              on_store (ps_AppendToUnicastChannel chanId appId (u_Data ucast) msgId
                          (MkMeta expire (u_ReplaceTag ucast) false))
                (λ _, ErrCouldNotStoreNotification);;
              request_delivery (SimpleBroker.unicastDelivery chanId);;
              mret None)
      end
  end.

Definition checkRegister (reg : Registration) : option APIError :=
  if decide (r_DeviceId reg = "" ∨ r_AppId reg = "") then Some ErrMissingIdField else None.

Definition doRegister (reg : Registration) : M (option (string * string)) :=
  match checkRegister reg with
  | Some apiErr => st_err apiErr
  | None =>
      token ← on_store (ps_Register (r_DeviceId reg) (r_AppId reg)) (λ _, ErrCouldNotMakeToken);
      mret (Some ("token", token))
  end.

Definition doUnregister (reg : Registration) : M (option (string * string)) :=
  match checkRegister reg with
  | Some apiErr => st_err apiErr
  | None =>
      on_store (ps_Unregister (r_DeviceId reg) (r_AppId reg)) (λ _, ErrCouldNotRemoveToken);;
      mret None
  end.

(** *** Serving *)

(** [StoreForRequest]: an [APIError], or another error. *)
Definition getStore (r : option (APIError + string)) : option APIError :=
  match r with
  | None => None
  | Some (inl apiErr) => Some apiErr
  | Some (inr _) => Some ErrUnknown
  end.

(** The success response; the keys of the map are sorted. *)
Definition ok_response (res : option (string * string)) : http_Response :=
  MkResponse 200
    match res with
    | None => "{" +:+ json_field "ok" "true" +:+ "}"
    | Some (k, v) => "{" +:+ json_field "ok" "true" +:+ "," +:+ json_field k (quoted v) +:+ "}"
    end.

(** [prepare] and [ServeHTTP] of a [JSONPostHandler] whose body object is
    decoded by [parse] and handled by [doHandle]. *)
Definition ServeHTTP {T} (parse : string → option T) (doHandle : T → M (option (string * string)))
    (StoreForRequest : option (APIError + string)) (request : http_Request)
    : world → world * outcome unit http_Response := λ w,
  match ReadBody request MaxRequestBodyBytes with
  | Err apiErr => (w, Ok (RespondError apiErr))
  | Panic => (w, Panic)
  | Ok body =>
      match parse body with
      | None => (w, Ok (RespondError ErrMalformedJSONObject))
      | Some obj =>
          match getStore StoreForRequest with
          | Some apiErr => (w, Ok (RespondError apiErr))
          | None =>
              match doHandle obj w with
              | (w, Ok res) => (w, Ok (ok_response res))
              | (w, Err apiErr) => (w, Ok (RespondError apiErr))
              | (w, Panic) => (w, Panic)
              end
          end
      end
  end.

(** [PanicTo500Handler] *)
Definition PanicTo500Handler (h : world → world * outcome unit http_Response)
    : world → world * http_Response := λ w,
  match h w with
  | (w, Ok r) => (w, r)
  | (w, _) => (w, MkResponse 500
      ("{" +:+ json_field "error" (quoted "internal") +:+ ","
       +:+ json_field "message" (quoted "INTERNAL SERVER ERROR") +:+ "}"))
  end.

(** [MakeHandlersMux]: the handler of each path. *)
Inductive endpoint := EpBroadcast | EpNotify | EpRegister | EpUnregister.

Definition mux (path : string) : option endpoint :=
  if decide (path = "/broadcast") then Some EpBroadcast
  else if decide (path = "/notify") then Some EpNotify
  else if decide (path = "/register") then Some EpRegister
  else if decide (path = "/unregister") then Some EpUnregister
  else None.
End api.
Arguments world : clear implicits.
End Api.

(** ** What the handlers do to the store *)
Module ApiSpec.
Import Api.

(** Pending at [now] for the application: what counts against its limit. *)
Definition pending_for (now : Z) (app : string) (x : entry) : Prop :=
  Before x.2 now = false ∧ AppId x.1 = app.
#[export] Instance pending_for_dec now app x : Decision (pending_for now app x).
Proof. apply _. Defined.

Definition replaceable (tag : string) (x : entry) : Prop := tag ≠ "" ∧ tag = ReplaceTag x.2.
#[export] Instance replaceable_dec tag x : Decision (replaceable tag x).
Proof. apply _. Defined.

Definition for_app (now : Z) (app tag : string) (x : entry) : Prop :=
  pending_for now app x ∧ ¬ replaceable tag x.
Definition to_replace (now : Z) (app tag : string) (x : entry) : Prop :=
  pending_for now app x ∧ replaceable tag x.
#[export] Instance for_app_dec now app tag x : Decision (for_app now app tag x).
Proof. apply _. Defined.
#[export] Instance to_replace_dec now app tag x : Decision (to_replace now app tag x).
Proof. apply _. Defined.

Section counting.
Context (now : Z) (app tag : string).
Implicit Types l : list entry.

Definition count (P : entry → Prop) `{∀ x, Decision (P x)} l : nat := length (filter P l).

Lemma count_sublist (P : entry → Prop) `{∀ x, Decision (P x)} k l :
  k `sublist_of` l → count P k ≤ count P l.
Proof.
  unfold count. induction 1 as [|x k l _ IH|x k l _ IH]; [done|..]; rewrite !filter_cons.
  - case_decide; cbn; lia.
  - case_decide; cbn; lia.
Qed.

Lemma count_impl (P Q : entry → Prop) `{∀ x, Decision (P x), ∀ x, Decision (Q x)} l :
  Forall (λ x, P x → Q x) l → count P l ≤ count Q l.
Proof.
  unfold count. induction 1 as [|x l Hx _ IH]; [done|]. rewrite !filter_cons.
  do 2 case_decide; cbn; first [lia|tauto].
Qed.

Lemma count_app (P : entry → Prop) `{∀ x, Decision (P x)} k l :
  count P (k ++ l) = count P k + count P l.
Proof. unfold count. by rewrite filter_app, length_app. Qed.

Lemma count_split l :
  count (pending_for now app) l = count (for_app now app tag) l + count (to_replace now app tag) l.
Proof.
  unfold count. induction l as [|x l IH]; [done|]. rewrite !filter_cons.
  repeat case_decide; cbn [length]; try lia; unfold for_app, to_replace in *;
    by destruct (decide (replaceable tag x)); tauto.
Qed.

(** The loop counts what its names say. *)
Lemma count_loop_spec l c :
  ∃ b, count_loop now app tag l.*1 l.*2 c
    = Some (Counts (c_expired c + count (λ x, Before x.2 now = true) l)
                   (c_replaceable c + count (to_replace now app tag) l)
                   (c_forApp c + count (for_app now app tag) l) b)
    ∧ (b = false → c_last c = false ∧ count (for_app now app tag) l = 0).
Proof.
  revert c. induction l as [|x l IH]; intros c; cbn [fmap list_fmap count_loop].
  { exists (c_last c). unfold count. cbn. rewrite !Nat.add_0_r. by destruct c. }
  unfold count. rewrite !filter_cons. destruct (Before x.2 now) eqn:Hb.
  - rewrite (decide_True (P := true = true)) by done.
    rewrite (decide_False (P := to_replace _ _ _ _)) by (intros [[Hf _] _]; congruence).
    rewrite (decide_False (P := for_app _ _ _ _)) by (intros [[Hf _] _]; congruence).
    destruct (IH (Counts (S (c_expired c)) (c_replaceable c) (c_forApp c) (c_last c))) as (b & -> & Hl).
    exists b. split; [|exact Hl]. cbn; do 2 f_equal; unfold count; lia.
  - rewrite (decide_False (P := false = true)) by done. destruct (decide (AppId x.1 = app)) as [Ha|Ha].
    + destruct (decide (tag ≠ "" ∧ tag = ReplaceTag x.2)) as [Ht|Ht].
      * rewrite (decide_True (P := to_replace _ _ _ _)) by done.
        rewrite (decide_False (P := for_app _ _ _ _)) by (intros [_ Hn]; by destruct Hn).
        destruct (IH (Counts (c_expired c) (S (c_replaceable c)) (c_forApp c) (c_last c))) as (b & -> & Hl).
        exists b. split; [|exact Hl]. cbn; do 2 f_equal; unfold count; lia.
      * rewrite (decide_False (P := to_replace _ _ _ _)) by (by intros [_ Hn]).
        rewrite (decide_True (P := for_app _ _ _ _)) by done.
        destruct (IH (Counts (c_expired c) (c_replaceable c) (S (c_forApp c)) true)) as (b & -> & Hl).
        exists b. split; [|intros E; by destruct (Hl E)]. cbn; do 2 f_equal; unfold count; lia.
    + rewrite (decide_False (P := to_replace _ _ _ _)) by (unfold for_app, to_replace, pending_for; tauto).
      rewrite (decide_False (P := for_app _ _ _ _)) by (unfold for_app, to_replace, pending_for; tauto).
      destruct (IH (Counts (c_expired c) (c_replaceable c) (c_forApp c) true)) as (b & -> & Hl).
      exists b. split; [|intros E; by destruct (Hl E)]. cbn; do 2 f_equal; unfold count; lia.
Qed.

(** After a scrub for the application nothing counts against its limit, and
    after one for its replace tag only what is not replaceable does. *)
Lemma count_scrubbed_app now' l : count (pending_for now app) (scrubbed now' app "" l) = 0.
Proof.
  unfold count. rewrite filter_none; [done|]. apply Forall_forall.
  intros x [Hm _]%list_elem_of_filter [_ Ha]. unfold matches_criteria in Hm.
  rewrite (bool_decide_eq_true_2 ("" = "")), orb_true_l, andb_true_r in Hm by done.
  by rewrite bool_decide_eq_true_2 in Hm.
Qed.

Lemma count_scrubbed_tag now' l :
  tag ≠ "" → count (pending_for now app) (scrubbed now' app tag l) ≤ count (for_app now app tag) l.
Proof.
  intros Ht. etrans; [|apply count_sublist, (scrubbed_sublist now' app tag)].
  apply count_impl, Forall_forall. intros x [Hm _]%list_elem_of_filter Hp. split; [done|].
  intros [_ E]. unfold matches_criteria in Hm. destruct Hp as [_ Ha].
  rewrite bool_decide_eq_true_2 in Hm by done. rewrite andb_true_l, orb_false_iff in Hm.
  destruct Hm as [_ Hm]. by apply bool_decide_eq_false in Hm.
Qed.
End counting.

Section spec.
Context {S : Type} `{PendingStoreLaws S}.
Context (ParseMediaType : string → option string) (ParseTime : string → option Z)
        (marshal_raw : string → option string).
Context (clock : nat → Z) (msgIds : nat → string) (maxNotifications : Z).
Implicit Types w : world S.

Definition entries w (c : string) : list entry := (channel_of (ps_log (w_store w)) c).2.

(** Nothing observable has happened since [w0]. *)
Definition same w0 w : Prop :=
  ps_inv (w_store w) ∧ ps_log (w_store w) = ps_log (w_store w0) ∧
  w_deliveries w = w_deliveries w0 ∧ w_ids w = w_ids w0.

(** A refused request: nothing stored, nothing to deliver; a scrub may have
    removed entries. *)
Definition refused w0 w : Prop :=
  ps_inv (w_store w) ∧ w_deliveries w = w_deliveries w0 ∧
  ∀ c, entries w c `sublist_of` entries w0 c.

Definition fails w0 (e : option APIError) w : Prop := e ≠ None ∧ refused w0 w.

Lemma same_refused w0 w : same w0 w → refused w0 w.
Proof. intros (Hi & Hl & Hd & _). split_and!; [done|done|]. intros c. unfold entries. by rewrite Hl. Qed.

Lemma time_Now_same w0 R :
  triple (same w0) (time_Now clock) (λ _, same w0) R.
Proof. by intros w Hw. Qed.

Lemma checkCastCommon_same w0 data expireOn :
  triple (same w0) (checkCastCommon ParseTime clock data expireOn)
    (λ expire w, ParseTime expireOn = Some expire ∧ data ≠ "" ∧ same w0 w) (fails w0).
Proof.
  unfold checkCastCommon. case_decide as Hd.
  { apply triple_err. intros w Hw. split; [done|by apply same_refused]. }
  destruct (ParseTime expireOn) as [expire|].
  - eapply triple_bind; [apply time_Now_same|]. intros now. cbn beta. case_decide.
    + apply triple_err. intros w Hw. split; [done|by apply same_refused].
    + apply triple_ret. intros w Hw. split_and!; [done| |done]. by intros ->.
  - apply triple_err. intros w Hw. split; [done|by apply same_refused].
Qed.

(** Store operations that do not change the log. *)
Lemma on_store_same {A} w0 (m : st S store_err A) f (Q : A → Prop) :
  (∀ s, ps_inv s → let '(s', r) := m s in
     ps_inv s' ∧ ps_log s' = ps_log s ∧ match r with Ok a => Q a | Err _ => True | Panic => False end) →
  triple (same w0) (on_store m f) (λ a w, Q a ∧ same w0 w) (fails w0).
Proof.
  intros Hm w (Hi & Hl & Hd & Hid). specialize (Hm (w_store w) Hi). unfold on_store.
  destruct (m (w_store w)) as [s' [a|e|]]; destruct Hm as (Hi' & Hl' & Hr); [|split; [done|]|done].
  - split; [done|]. split_and!; cbn; congruence.
  - apply same_refused. split_and!; cbn; congruence.
Qed.

Lemma resolve_same w0 t a u d f :
  triple (same w0) (on_store (ps_GetInternalChannelIdFromToken t a u d) f)
    (λ c w, (UnicastChannel c = Some true ∧
       ∃ s s', ps_GetInternalChannelIdFromToken t a u d s = (s', Ok c)) ∧ same w0 w) (fails w0).
Proof.
  apply (on_store_same w0 _ f (λ c, UnicastChannel c = Some true ∧
    ∃ s s', ps_GetInternalChannelIdFromToken t a u d s = (s', Ok c))). intros s Hs.
  pose proof (ps_GetInternalChannelIdFromToken_log t a u d s Hs) as Hg.
  destruct (ps_GetInternalChannelIdFromToken t a u d s) as [s' [c|e|]] eqn:E;
    destruct Hg as (? & ? & Hp & Hc); split_and!; eauto.
Qed.

Lemma unfiltered_same w0 c f :
  triple (same w0) (on_store (ps_GetChannelUnfiltered c) f)
    (λ r w, default ([], []) r.2 = ((entries w0 c).*1, (entries w0 c).*2) ∧ same w0 w) (fails w0).
Proof.
  intros w Hw. pose proof Hw as (Hi & Hl & Hd & Hid).
  pose proof (ps_unfiltered_spec c (w_store w) Hi) as Hs. unfold on_store.
  destruct (ps_GetChannelUnfiltered c (w_store w)) as [s' [[top r]|e|]]; [| |done].
  - destruct Hs as (Hi' & Hl' & _ & ->). split.
    + cbn. unfold entries, channel_of. rewrite <- Hl. by destruct (ps_log (w_store w) !! c).
    + split_and!; cbn; congruence.
  - destruct Hs as [Hi' Hl']. split; [done|]. apply same_refused. split_and!; cbn; congruence.
Qed.

(** The message ids the server makes are new. *)
Definition fresh w : Prop := ∀ c, msgIds (w_ids w) ∉ ids (entries w c).

(** [w] is [w0] with the channel [c] holding [k] instead. *)
Definition with_entries w0 (c : string) (k : list entry) w : Prop :=
  ps_inv (w_store w) ∧ w_deliveries w = w_deliveries w0 ∧
  entries w c = k ∧ ∀ c', c' ≠ c → entries w c' = entries w0 c'.

Lemma same_with_entries w0 c w : same w0 w → with_entries w0 c (entries w0 c) w.
Proof. intros (Hi & Hl & Hd & _). unfold with_entries, entries. by rewrite Hl. Qed.

Lemma scrub_spec w0 now c cr app tag f :
  scrub_criteria cr = Some (app, tag) →
  triple (same w0) (on_store (ps_Scrub now c cr) f)
    (λ _ w, with_entries w0 c (scrubbed now app tag (entries w0 c)) w ∧ w_ids w = w_ids w0) (fails w0).
Proof.
  intros Hcr w Hw. pose proof Hw as (Hi & Hl & Hd & Hid).
  assert (length cr ≤ 2) as Hlen by (do 3 (destruct cr; try done; cbn; try lia)).
  pose proof (ps_scrub_spec now c cr (w_store w) Hi Hlen) as Hs. unfold on_store.
  destruct (ps_Scrub now c cr (w_store w)) as [s' [[]|e|]]; [| |done].
  - destruct Hs as [Hi' Hl']. split; [|done]. split_and!; [done|done|..]; unfold entries; cbn; rewrite Hl';
      cbn; rewrite Hcr; cbn; rewrite Hl; unfold channel_of.
    + rewrite lookup_alter_eq. by destruct (ps_log (w_store w0) !! c).
    + intros c' Hne. by rewrite lookup_alter_ne.
  - destruct Hs as [Hi' Hl']. split; [done|]. apply same_refused. split_and!; cbn; congruence.
Qed.

Lemma with_entries_refused w0 c k w :
  with_entries w0 c k w → k `sublist_of` entries w0 c → refused w0 w.
Proof.
  intros (Hi & Hd & Hk & Ho) Hs. split_and!; [done|done|]. intros c'.
  destruct (decide (c' = c)) as [->|]; [by rewrite Hk|by rewrite Ho].
Qed.

(** The end of [doUnicast]: make an id, store, request delivery. *)
Lemma store_unicast w0 c k app data expire tag :
  fresh w0 → k `sublist_of` entries w0 c →
  triple (λ w, with_entries w0 c k w ∧ w_ids w = w_ids w0)
    (msgId ← generateMsgId msgIds;
     on_store (ps_AppendToUnicastChannel c app data msgId (MkMeta expire tag false))
       (λ _, ErrCouldNotStoreNotification);;
     request_delivery (SimpleBroker.unicastDelivery c);;
     mret None (M := st (world S) APIError) (A := option (string * string)))
    (λ _ w, ps_inv (w_store w) ∧
       w_deliveries w = w_deliveries w0 ++ [SimpleBroker.unicastDelivery c] ∧
       entries w c = k ++ [(Build_Notification app (msgIds (w_ids w0)) data, MkMeta expire tag false)] ∧
       ∀ c', c' ≠ c → entries w c' = entries w0 c')
    (fails w0).
Proof.
  intros Hf Hs w [Hw Hid]. pose proof Hw as (Hi & Hd & Hk & Ho).
  unfold mbind, st_bind, generateMsgId, on_store, request_delivery; cbn. rewrite Hid.
  assert (UnicastChannel c = Some true → msgIds (w_ids w0) ∉ ids (channel_of (ps_log (w_store w)) c).2) as Hn.
  { intros _ Hin. fold (entries w c) in Hin. rewrite Hk in Hin. apply (Hf c).
    eapply elem_of_sublist; [exact Hin|]. unfold ids. by do 2 apply fmap_sublist. }
  pose proof (ps_append_unicast_spec c app data (msgIds (w_ids w0)) (MkMeta expire tag false)
    (w_store w) Hi eq_refl Hn) as Ha.
  destruct (ps_AppendToUnicastChannel _ _ _ _ _ _) as [s' [[]|e|]]; [| |done].
  - destruct Ha as [Hi' Hl']. cbn. split_and!; [done|by rewrite Hd|..]; unfold entries; cbn; rewrite Hl';
      unfold spec_append, channel_of.
    + rewrite lookup_insert_eq. cbn. f_equal. exact Hk.
    + intros c' Hne. rewrite lookup_insert_ne by done. by apply Ho.
  - destruct Ha as [Hi' Hl']. split; [done|]. eapply (with_entries_refused _ c k); [|done].
    split_and!; [done|done|..]; unfold entries; cbn; rewrite Hl'; [exact Hk|exact Ho].
Qed.

(** An accepted request: the channel holds [k], a selection of what it held,
    followed by the new notification, and a delivery was requested. *)
Definition stored w0 (c : string) (k : list entry) (x : entry) w : Prop :=
  ps_inv (w_store w) ∧
  w_deliveries w = w_deliveries w0 ++ [SimpleBroker.unicastDelivery c] ∧
  entries w c = k ++ [x] ∧ ∀ c', c' ≠ c → entries w c' = entries w0 c'.

Definition accepted w0 (ucast : Unicast) w : Prop :=
  ∃ token c expire now k,
    DecodeString (u_Token ucast) = Some token ∧
    (∃ s s', ps_GetInternalChannelIdFromToken (u_Token ucast) (token_app token)
       (u_UserId ucast) (u_DeviceId ucast) s = (s', Ok c)) ∧
    ParseTime (u_ExpireOn ucast) = Some expire ∧
    u_Data ucast ≠ "" ∧ (len (u_Data ucast) ≤ MaxUnicastPayload)%Z ∧
    UnicastChannel c = Some true ∧ k `sublist_of` entries w0 c ∧
    stored w0 c k (Build_Notification (token_app token) (msgIds (w_ids w0)) (u_Data ucast),
                   MkMeta expire (u_ReplaceTag ucast) false) w ∧
    (Z.of_nat (count (pending_for now (token_app token)) (entries w c)) ≤ maxNotifications)%Z.

(** The continuation of [scrub_for]: scrub if there is something to scrub,
    then store. *)
Lemma scrub_and_store w0 c k app data expire tag cr capp ctag (expired : bool) f :
  fresh w0 → scrub_criteria (default [] cr) = Some (capp, ctag) →
  (∀ now, k now = if expired || bool_decide (cr ≠ None)
                  then scrubbed now capp ctag (entries w0 c) else entries w0 c) →
  triple (same w0)
    ((if expired || bool_decide (cr ≠ None) then
        scrub_now ← time_Now clock; on_store (ps_Scrub scrub_now c (default [] cr)) f
      else mret ());;
     msgId ← generateMsgId msgIds;
     on_store (ps_AppendToUnicastChannel c app data msgId (MkMeta expire tag false))
       (λ _, ErrCouldNotStoreNotification);;
     request_delivery (SimpleBroker.unicastDelivery c);;
     mret None (M := st (world S) APIError) (A := option (string * string)))
    (λ _ w, ∃ now, stored w0 c (k now) (Build_Notification app (msgIds (w_ids w0)) data, MkMeta expire tag false) w)
    (fails w0).
Proof.
  intros Hf Hcr Hk.
  eapply (triple_bind _ _ _ (λ _ w, ∃ now, with_entries w0 c (k now) w ∧ w_ids w = w_ids w0)).
  - destruct (expired || _).
    + eapply triple_bind; [apply time_Now_same|]. intros now. cbn beta.
      eapply triple_weaken; [by eapply scrub_spec|done| |done].
      intros [] w Hw. exists now. by rewrite Hk.
    + apply triple_ret. intros w Hw. exists 0%Z. rewrite Hk. split; [by apply same_with_entries|apply Hw].
  - intros [] w [now Hw].
    assert (k now `sublist_of` entries w0 c) as Hs.
    { rewrite Hk. destruct (expired || _); [apply scrubbed_sublist|done]. }
    pose proof (store_unicast w0 c (k now) app data expire tag Hf Hs w Hw) as Hst.
    destruct ((msgId ← generateMsgId msgIds; _) w) as [w' [a|e|]]; [|done..]. by exists now.
Qed.

Lemma checkUnicast_same w0 ucast :
  triple (same w0) (checkUnicast ParseTime clock ucast)
    (λ expire w, (ParseTime (u_ExpireOn ucast) = Some expire ∧ u_Data ucast ≠ "" ∧
       (len (u_Data ucast) ≤ MaxUnicastPayload)%Z) ∧ same w0 w) (fails w0).
Proof.
  unfold checkUnicast. do 3 (case_decide; [apply triple_err; intros w Hw; split; [done|by apply same_refused]|]).
  eapply triple_weaken; [apply checkCastCommon_same|done| |done].
  intros e w (? & ? & ?). split_and!; first [done|lia].
Qed.

Lemma count_one now app x : count (pending_for now app) [x] ≤ 1.
Proof. unfold count. rewrite filter_cons, filter_nil. case_decide; cbn; lia. Qed.

Lemma fails_err w0 A (e : APIError) Q : triple (A := A) (same w0) (st_err e) Q (fails w0).
Proof. apply triple_err. intros w Hw. split; [done|by apply same_refused]. Qed.

Lemma doUnicast_spec w0 ucast :
  (0 < maxNotifications)%Z → (∀ p, is_Some (marshal_raw p)) → fresh w0 →
  triple (same w0) (doUnicast ParseTime marshal_raw clock msgIds maxNotifications ucast)
    (λ _ w, accepted w0 ucast w) (fails w0).
Proof.
  intros Hmax Hraw Hf. unfold doUnicast.
  eapply triple_bind; [apply checkUnicast_same|]. intros expire. apply triple_pure. intros (He & Hd & Hl).
  destruct (DecodeString (u_Token ucast)) as [token|] eqn:Et; [|apply fails_err].
  set (app := token_app token).
  eapply triple_bind; [apply resolve_same|]. intros c. apply triple_pure. intros [Hc Hres].
  eapply triple_bind; [apply unfiltered_same|]. intros r. apply triple_pure. intros ->.
  eapply triple_bind; [apply time_Now_same|]. intros now. cbn beta iota.
  set (l := entries w0 c).
  destruct (count_loop_spec now app (u_ReplaceTag ucast) l (Counts 0 0 0 false)) as (b & Hcl & Hb).
  rewrite Hcl. cbn [c_expired c_replaceable c_forApp Nat.add].
  assert (∀ k cr capp ctag, scrub_criteria (default [] cr) = Some (capp, ctag) →
    (∀ now', k now' = if bool_decide (0 < count (λ x, Before x.2 now = true) l) || bool_decide (cr ≠ None)
                  then scrubbed now' capp ctag l else l) →
    (∀ now', Z.of_nat (count (pending_for now app) (k now')) + 1 ≤ maxNotifications)%Z →
    triple (same w0) ((if bool_decide (0 < count (λ x, Before x.2 now = true) l) || bool_decide (cr ≠ None) then
         scrub_now ← time_Now clock;
         on_store (ps_Scrub scrub_now c (default [] cr)) (λ _, ErrCouldNotStoreNotification)
       else mret ());;
      msgId ← generateMsgId msgIds;
      on_store (ps_AppendToUnicastChannel c app (u_Data ucast) msgId (MkMeta expire (u_ReplaceTag ucast) false))
        (λ _, ErrCouldNotStoreNotification);;
      request_delivery (SimpleBroker.unicastDelivery c);;
      mret None (M := st (world S) APIError) (A := option (string * string)))
     (λ _ w, accepted w0 ucast w) (fails w0)) as Hfin.
  { intros k cr capp ctag Hcr Hk Hcnt.
    eapply triple_weaken; [apply (scrub_and_store w0 c k app _ _ _ _ _ _ _ _ Hf Hcr Hk)|done| |done].
    intros _ w [now' Hst]. exists token, c, expire, now, (k now').
    split_and!; try done.
    - rewrite Hk. destruct (_ || _); [apply scrubbed_sublist|done].
    - destruct Hst as (_ & _ & -> & _). rewrite count_app.
      pose proof (count_one now app (Build_Notification app (msgIds (w_ids w0)) (u_Data ucast),
        MkMeta expire (u_ReplaceTag ucast) false)). specialize (Hcnt now'). fold app. lia. }
  unfold scrub_for. destruct (u_ClearPending ucast).
  { apply (Hfin (λ now', scrubbed now' app "" l) (Some [app]) app ""); [done| |].
    - intros now'. by rewrite (bool_decide_eq_true_2 (Some _ ≠ None)), orb_true_r.
    - intros now'. rewrite count_scrubbed_app. lia. }
  cbn [c_forApp c_replaceable].
  match goal with |- context [if decide (maxNotifications ≤ ?x)%Z then _ else _] =>
    destruct (decide (maxNotifications ≤ x)%Z) as [Hfull|Hfull] end.
  { unfold last_payload. cbn [c_last]. destruct b.
    2: { destruct Hb as [_ Hz]; [done|]. lia. }
    destruct (last l.*1) as [n|] eqn:El; cbn.
    - unfold apiErrorWithExtra. destruct (Hraw (Payload n)) as [p ->]. apply fails_err.
    - apply last_None in El. apply fmap_nil_inv in El. rewrite El in Hfull. cbn in Hfull. lia. }
  match goal with |- context [if decide (0 < ?x) then _ else _] =>
    destruct (decide (0 < x)) as [Hrep|Hrep] end.
  - assert (u_ReplaceTag ucast ≠ "") as Ht.
    { intros E. unfold count in Hrep. rewrite filter_none in Hrep; [cbn in Hrep; lia|].
      apply Forall_forall. intros x _ [_ [Hne _]]. done. }
    apply (Hfin (λ now', scrubbed now' app (u_ReplaceTag ucast) l) (Some [app; u_ReplaceTag ucast]) app (u_ReplaceTag ucast)); [done| |].
    + intros now'. by rewrite (bool_decide_eq_true_2 (Some _ ≠ None)), orb_true_r.
    + intros now'. pose proof (count_scrubbed_tag now app (u_ReplaceTag ucast) now' l Ht). lia.
  - apply (Hfin (λ now', if bool_decide (0 < count (λ x, Before x.2 now = true) l) || bool_decide (None (A := list string) ≠ None)
                         then scrubbed now' "" "" l else l) None "" ""); [done|done|].
    intros now'.
    assert (count (pending_for now app) (if bool_decide (0 < count (λ x, Before x.2 now = true) l)
      || bool_decide (None (A := list string) ≠ None) then scrubbed now' "" "" l else l)
      ≤ count (pending_for now app) l) as Hle.
    { destruct (_ || _); [apply count_sublist, scrubbed_sublist|done]. }
    rewrite (count_split now app (u_ReplaceTag ucast) l) in Hle. lia.
Qed.

(** What a broadcast request does. *)
Definition broadcasted w0 (bcast : Broadcast) w : Prop :=
  ∃ c expire, ParseTime (bc_ExpireOn bcast) = Some expire ∧ bc_Data bcast ≠ "" ∧
    ps_inv (w_store w) ∧
    w_deliveries w = w_deliveries w0 ++ [SimpleBroker.broadcastDelivery c] ∧
    ps_log (w_store w) = spec_append c
      (Build_Notification "" "" (bc_Data bcast), MkMeta expire "" false) 1 (ps_log (w_store w0)).

Lemma doBroadcast_spec w0 bcast :
  triple (same w0) (doBroadcast ParseTime clock bcast)
    (λ _ w, broadcasted w0 bcast w) (λ e w, e ≠ None ∧ same w0 w).
Proof.
  unfold doBroadcast, checkBroadcast, checkCastCommon.
  assert (∀ A Q (e : APIError), triple (A := A) (same w0) (st_err e) Q (λ e w, e ≠ None ∧ same w0 w)) as Herr.
  { intros A Q e. by apply triple_err. }
  case_decide as Hd; [eapply (triple_bind _ _ _ (λ _ _, False)); [apply Herr|by intros ? ? []]|].
  destruct (ParseTime (bc_ExpireOn bcast)) as [expire|] eqn:Ep;
    [|eapply (triple_bind _ _ _ (λ _ _, False)); [apply Herr|by intros ? ? []]].
  eapply (triple_bind _ _ _ (λ e w, e = expire ∧ same w0 w)).
  { eapply triple_bind; [apply time_Now_same|]. intros now. cbn beta.
    case_decide; [apply Herr|by apply triple_ret]. }
  intros e. apply triple_pure. intros ->.
  eapply (triple_bind _ _ _ (λ c w, UnicastChannel c ≠ Some true ∧ same w0 w)).
  { intros w (Hi & Hl & Hdl & Hid). unfold on_store.
    pose proof (ps_GetInternalChannelId_log (bc_Channel bcast) (w_store w) Hi) as Hg.
    destruct (ps_GetInternalChannelId _ _) as [s' [c|err|]]; destruct Hg as (? & ? & ? & Hc); [| |done];
      (split; [by auto|]); split_and!; cbn; congruence. }
  intros c. apply triple_pure. intros Hc w (Hi & Hl & Hdl & Hid).
  unfold mbind, st_bind, on_store, request_delivery.
  pose proof (ps_append_spec c (bc_Data bcast) expire (w_store w) Hi Hc) as Ha.
  destruct (ps_AppendToChannel _ _ _ _) as [s' [[]|err|]]; [| |done].
  - destruct Ha as [Hi' Hl']. exists c, expire. cbn. split_and!; try done.
    + by intros E; rewrite E in Hd.
    + by rewrite Hdl.
    + by rewrite Hl', Hl.
  - destruct Ha as [Hi' Hl']. split; [done|]. split_and!; cbn; congruence.
Qed.
End spec.

(** *** The token names the application *)
Lemma token_app_Register deviceId appId :
  in_string ":"%char appId = false → token_app (appId +:+ "::" +:+ deviceId) = appId.
Proof.
  intros Ha. unfold token_app. rewrite str_app_cons, split_on_app by done. done.
Qed.
End ApiSpec.

(** ** Properties *)
Section properties.
Import Api ApiSpec.
Context {S : Type} `{PendingStoreLaws S}.
Context (ParseMediaType : string → option string) (ParseTime : string → option Z)
        (marshal_raw : string → option string).
Context (clock : nat → Z) (msgIds : nat → string) (maxNotifications : Z).

(** C9: A notify request, over any lawful store, with a positive limit and
    fresh message ids: it never panics, and if it fails, nothing is stored and
    no delivery requested. If a request that carries a token succeeds, the
    token decodes, the expiration parses, the data is neither empty nor too
    large, the notification is appended, unmarked, to the unicast channel the
    token resolves to, under the application registered with the token (the
    request's own application id only has to be there), what precedes it is a
    selection of the old entries, one delivery is requested, the other channels
    are untouched, and no more than the allowed number of unexpired
    notifications are pending for the application. Nothing is claimed of what
    a request by user and device id, without a token, stores: see
    [userid_notifications_lost]. *)
Theorem unicast_request (ucast : Unicast) (w : world S) :
  (0 < maxNotifications)%Z → (∀ p, is_Some (marshal_raw p)) →
  ps_inv (w_store w) → fresh msgIds w →
  match doUnicast ParseTime marshal_raw clock msgIds maxNotifications ucast w with
  | (w', Ok _) => u_Token ucast ≠ "" → accepted ParseTime msgIds maxNotifications w ucast w'
  | (w', Err _) => refused w w'
  | (_, Panic) => False
  end.
Proof.
  intros Hmax Hraw Hi Hf.
  assert (same w w) as Hw by done.
  pose proof (doUnicast_spec ParseTime marshal_raw clock msgIds maxNotifications w ucast
    Hmax Hraw Hf w Hw) as Hs.
  destruct (doUnicast _ _ _ _ _ _ w) as [w' [r|e|]]; [done|by destruct Hs|by destruct Hs].
Qed.

(** A broadcast request, over any lawful store, never panics; if it
    succeeds, the data is not empty, the notification was appended to the
    channel, whose level grew by one, and one broadcast of that channel is
    requested; if it fails, the channels are unchanged and nothing is
    requested. *)
Theorem broadcast_request (bcast : Broadcast) (w : world S) :
  ps_inv (w_store w) →
  match doBroadcast ParseTime clock bcast w with
  | (w', Ok _) => broadcasted ParseTime w bcast w'
  | (w', Err _) => ps_log (w_store w') = ps_log (w_store w) ∧ w_deliveries w' = w_deliveries w
  | (_, Panic) => False
  end.
Proof.
  intros Hi. assert (same w w) as Hw by done.
  pose proof (doBroadcast_spec ParseTime clock w bcast w Hw) as Hs.
  destruct (doBroadcast _ _ _ w) as [w' [r|e|]]; [done| |by destruct Hs].
  destruct Hs as (_ & _ & ? & ? & _). done.
Qed.

(** The body of a request is read exactly when the method is POST, the
    content length is given, positive and within the limit, the media type is
    JSON and the body is complete; otherwise the first failing check, in this
    order, names the error. *)
Theorem read_body_checks (request : http_Request) (maxBodySize : Z) :
  (-1 ≤ ContentLength request)%Z →
  ReadBody ParseMediaType request maxBodySize =
    if decide (Method request ≠ "POST") then Err ErrWrongRequestMethod
    else if decide (ContentLength request = -1)%Z then Err ErrNoContentLengthProvided
    else if decide (ContentLength request = 0)%Z then Err ErrRequestBodyEmpty
    else if decide (maxBodySize < ContentLength request)%Z then Err ErrRequestBodyTooLarge
    else if decide (ParseMediaType (ContentType request) ≠ Some JSONMediaType) then Err ErrWrongContentType
    else if decide (len (Body request) < ContentLength request)%Z then Err ErrCouldNotReadBody
    else Ok (str_take (Z.to_nat (ContentLength request)) (Body request)).
Proof.
  intros Hcl. unfold ReadBody, checkRequestAsPost, checkContentLength.
  repeat case_decide; try done; try tauto; lia.
Qed.
End properties.

Section token_properties.
Import Api ApiSpec.
Context (ParseTime : string → option Z) (marshal_raw : string → option string).
Context (clock : nat → Z) (msgIds : nat → string) (maxNotifications : Z).

(** From registration to delivery, with the in-memory store: a request
    that carries the token a device got for an application stores the
    notification in that device's channel under that application, whatever
    application, user or device the request itself names, and requests a
    delivery to that device; application ids must not contain a colon. *)
Theorem token_decides (ucast : Unicast) (w w' : world (gmap string channel)) r deviceId appId :
  (0 < maxNotifications)%Z → (∀ p, is_Some (marshal_raw p)) →
  ps_inv (w_store w) → fresh msgIds w →
  appId ≠ "" → in_string ":"%char appId = false →
  u_Token ucast = Register deviceId appId →
  doUnicast ParseTime marshal_raw clock msgIds maxNotifications ucast w = (w', Ok r) →
  let c := UnicastInternalChannelId deviceId deviceId in
  w_deliveries w' = w_deliveries w ++ [SimpleBroker.unicastDelivery c] ∧
  ∃ m, last (entries w' c) = Some (Build_Notification appId (msgIds (w_ids w)) (u_Data ucast), m)
    ∧ ReplaceTag m = u_ReplaceTag ucast.
Proof.
  intros Hmax Hraw Hi Hf Ha Hc Ht E c.
  pose proof (doUnicast_spec ParseTime marshal_raw clock msgIds maxNotifications w ucast
    Hmax Hraw Hf w) as Hs. rewrite E in Hs.
  destruct Hs as (token & c' & expire & now & k & Hd & (s & s' & Hres) & _ & _ & _ & _ & _ & Hst & _); [done|].
  rewrite Ht in Hd, Hres. unfold Register in Hd. rewrite DecodeString_EncodeToString in Hd.
  injection Hd as <-. rewrite token_app_Register in Hres, Hst by done.
  change (ps_GetInternalChannelIdFromToken ?t ?a ?u ?d s)
    with (s, GetInternalChannelIdFromToken t a u d) in Hres.
  rewrite Register_resolves in Hres by done.
  injection Hres as _ <-. destruct Hst as (_ & Hdel & Hen & _). split; [done|].
  unfold c. rewrite Hen, last_snoc. by eexists.
Qed.
End token_properties.

Section witnesses.
Import Api ApiSpec.

Definition example_ParseTime (s : string) : option Z :=
  if decide (s = "soon") then Some 6%Z else if decide (s = "later") then Some 100%Z else None.
Definition example_msgIds (n : nat) : string := String (ascii_of_nat (65 + n)) "".
Definition example_clock (n : nat) : Z := Z.of_nat n.
Definition example_world : world (gmap string channel) := World NewInMemoryPendingStore 0 0 [].

Lemma example_world_inv : ps_inv (w_store example_world).
Proof. exists ∅. split; [apply map_Forall_empty|]. by rewrite repr_empty. Qed.

Lemma example_world_fresh : fresh example_msgIds example_world.
Proof.
  intros c. unfold entries.
  change (ps_log (w_store example_world)) with (log_of NewInMemoryPendingStore).
  rewrite <- repr_empty, log_of_repr. unfold channel_of. rewrite lookup_empty.
  apply not_elem_of_nil.
Qed.

Definition example_ucast : Unicast :=
  MkUnicast (Register "d" "app") "" "" "other" "later" "{}" false "tag".

Definition notify := doUnicast (S := gmap string channel) example_ParseTime Some example_clock example_msgIds 2.

Lemma unicast_request_witness :
  ∃ w' r, notify example_ucast example_world = (w', Ok r) ∧
    accepted example_ParseTime example_msgIds 2 example_world example_ucast w'.
Proof.
  pose proof (unicast_request example_ParseTime Some example_clock example_msgIds 2 example_ucast
    example_world eq_refl (λ p, ltac:(by eexists)) example_world_inv example_world_fresh) as Hp.
  fold (notify example_ucast example_world) in Hp.
  assert (is_ok (notify example_ucast example_world).2 = true) as Hok by (by vm_compute).
  destruct (notify example_ucast example_world) as [w' [r|e|]]; [|done..].
  exists w', r. split; [done|by apply Hp].
Defined.

Lemma broadcast_request_witness :
  let bcast := MkBroadcast "system" "later" "{}" in
  ∃ w' r, doBroadcast example_ParseTime example_clock bcast example_world = (w', Ok r) ∧
    broadcasted example_ParseTime example_world bcast w'.
Proof.
  cbn zeta. set (bcast := MkBroadcast _ _ _).
  pose proof (broadcast_request example_ParseTime example_clock bcast example_world example_world_inv) as Hp.
  assert (is_ok (doBroadcast example_ParseTime example_clock bcast example_world).2 = true) as Hok
    by (by vm_compute).
  destruct (doBroadcast _ _ _ example_world) as [w' [r|e|]]; [by exists w', r|done..].
Defined.

Lemma read_body_checks_witness :
  ReadBody Some (MkRequest "POST" 2 JSONMediaType "{}") MaxRequestBodyBytes = Ok "{}" ∧
  ReadBody Some (MkRequest "POST" (-1) JSONMediaType "{}") MaxRequestBodyBytes = Err ErrNoContentLengthProvided.
Proof. split; rewrite read_body_checks; done. Defined.

Lemma token_decides_witness :
  ∃ w' m, w_deliveries w' = [SimpleBroker.unicastDelivery "Ud:d"] ∧
    last (entries w' "Ud:d") = Some (Build_Notification "app" "A" "{}", m) ∧ ReplaceTag m = "tag".
Proof.
  assert (∃ w' r, notify example_ucast example_world = (w', Ok r)) as (w' & r & E).
  { assert (is_ok (notify example_ucast example_world).2 = true) as Hok by (by vm_compute).
    destruct (notify example_ucast example_world) as [w' [r|e|]]; [by exists w', r|done..]. }
  destruct (token_decides example_ParseTime Some example_clock example_msgIds 2 example_ucast
    example_world w' r "d" "app") as (Hd & m & Hm & Ht);
    [done|by eexists|apply example_world_inv|apply example_world_fresh|done|done|done|exact E|].
  by exists w', m.
Defined.

Definition user_ucast (expireOn data : string) : Unicast :=
  MkUnicast "" "u" "d" "app" expireOn data false "".

(** Requests by user and device id carry no token, so their notifications
    are stored under the empty application id, where handlers_test.go expects
    the one the request names; and a scrub without criteria,
    which is to drop what has expired, drops every notification of the empty
    application id as well. After these three requests, the first of which has
    expired when the third is made, the second notification is lost although
    it has not expired. *)
Example userid_notifications_lost :
  (λ w : world (gmap string channel), GetChannelSnapshot 20 "Uu:d" (w_store w))
    ((notify (user_ucast "later" "3")
      (World (w_store (notify (user_ucast "later" "2")
                (notify (user_ucast "soon" "1") example_world).1).1) 10 2 [])).1)
  = Some (0%Z, [Build_Notification "" "C" "3"]).
Proof. by vm_compute. Qed.
End witnesses.
