(* ===== verification/Redialer.v ===== *)
(** The redialer: [util/redialer.go].

    [Redial] and [Stop] run in goroutines of their own. A thread's program
    counter names the atomic step it is at; the lock sections, the channel
    closes and the dials are steps, and a system is the shared [autoRedialer]
    with any number of threads. Closed channels are booleans, and closing one
    twice panics. *)

From S2P Require Import Prelude.

Module Redialer.
Local Open Scope Z_scope.

Definition Second : Z := 1000000000.

(** The prime backoff steps of [init], in nanoseconds. *)
Definition init_timeouts : list Z :=
  (λ n, n * Second) <$> [1; 2; 5; 11; 19; 37; 67; 113; 191].

(** [SwapTimeouts] exchanges the package's variable. *)
Definition SwapTimeouts (newTimeouts timeouts : list Z) : list Z * list Z := (timeouts, newTimeouts).

Inductive redialerState := Unconfigured | Redialing | Stopped.
#[export] Instance redialerState_eq_dec : EqDecision redialerState.
Proof. solve_decision. Defined.

Definition redialerState_String (s : redialerState) : string :=
  match s with
  | Unconfigured => "Unconfigured" | Redialing => "Redialing" | Stopped => "Stopped"
  end.

Record autoRedialer := AR {
  stateValue : redialerState;
  stopping : bool;        (** closed *)
  reallyStopped : bool;   (** closed *)
}.

Definition NewAutoRedialer : autoRedialer := AR Unconfigured false false.

Definition setState (s : redialerState) (ar : autoRedialer) : autoRedialer :=
  AR s (stopping ar) (reallyStopped ar).

Definition setStateIfEqual (oldState newState : redialerState) (ar : autoRedialer)
    : autoRedialer * bool :=
  if decide (stateValue ar = oldState) then (setState newState ar, true) else (ar, false).

(** Closing a channel; [None] is the panic on a closed one. *)
Definition close_stopping (ar : autoRedialer) : option autoRedialer :=
  if stopping ar then None else Some (AR (stateValue ar) true (reallyStopped ar)).
Definition close_reallyStopped (ar : autoRedialer) : option autoRedialer :=
  if reallyStopped ar then None else Some (AR (stateValue ar) (stopping ar) true).

Definition setStateStopped (ar : autoRedialer) : option autoRedialer :=
  match stateValue ar with
  | Stopped => Some ar
  | Unconfigured => ar ← close_reallyStopped ar; close_stopping (setState Stopped ar)
  | Redialing => close_stopping (setState Stopped ar)
  end.

(** ** Threads *)
Inductive pc :=
| RedialCalled
| RLoop (dialAttempts : Z)
| RDial (dialAttempts : Z)
| RWait (dialAttempts timeout : Z)
| RRet (n : Z)
| StopCalled
| SWait
| SRet
| Crash.
#[export] Instance pc_eq_dec : EqDecision pc.
Proof. solve_decision. Defined.

(** [timeouts[dialAttempts]], the last one past the end; indexing an empty
    slice panics. *)
Definition backoff (timeouts : list Z) (dialAttempts : Z) : option Z :=
  let numTimeouts := u32 (Z.of_nat (length timeouts)) in
  if decide (dialAttempts < numTimeouts) then timeouts !! Z.to_nat dialAttempts
  else timeouts !! Z.to_nat (u32 (numTimeouts - 1)).

Section steps.
Context (timeouts : list Z).
(** [ar.jitter], when the dialer is a [Jitterer]. *)
Context (jittered : bool).

(** [return n] with the deferred [close(ar.reallyStopped)]. *)
Definition finish (ar : autoRedialer) (n : Z) : autoRedialer * pc :=
  match close_reallyStopped ar with Some ar => (ar, RRet n) | None => (ar, Crash) end.

(** One step of a thread; [ok] and [jitter] are what the dialer answers if it
    is asked. [None]: blocked or returned. *)
Definition step (ok : bool) (jitter : Z) (ar : autoRedialer) (p : pc) : option (autoRedialer * pc) :=
  match p with
  | RedialCalled =>
      match setStateIfEqual Unconfigured Redialing ar with
      | (ar, true) => Some (ar, RLoop 0)
      | (ar, false) => Some (ar, RRet 0)
      end
  | RLoop n => Some (if decide (stateValue ar = Redialing) then (ar, RDial n) else finish ar n)
  | RDial n =>
      if ok then Some (finish ar (u32 (n + 1)))
      else match backoff timeouts n with
           | None => Some (ar, Crash)
           | Some t => Some (ar, RWait (u32 (n + 1)) (if jittered then i64 (t + jitter) else t))
           end
  | RWait n _ => Some (ar, RLoop n)
  | StopCalled => Some (match setStateStopped ar with Some ar => (ar, SWait) | None => (ar, Crash) end)
  | SWait => if reallyStopped ar then Some (ar, SRet) else None
  | RRet _ | SRet | Crash => None
  end.

Abbreviation system := (autoRedialer * list pc)%type.

Inductive sys_step : system → system → Prop :=
| Step ok jitter ar ar' (ths : list pc) i p p' :
    ths !! i = Some p → step ok jitter ar p = Some (ar', p') →
    sys_step (ar, ths) (ar', <[i := p']> ths).

Definition is_call (p : pc) : Prop := p = RedialCalled ∨ p = StopCalled.

(** Any number of calls, interleaved in any way. *)
Inductive reachable : system → Prop :=
| Start ths : Forall is_call ths → reachable (NewAutoRedialer, ths)
| Next s s' : reachable s → sys_step s s' → reachable s'.

(** [Redial] on its own, for the dialer's answers in order: the waits it
    makes and the thread's end. *)
Fixpoint solo (fuel : nat) (answers : list (bool * Z)) (ar : autoRedialer) (p : pc)
    : list Z * (autoRedialer * pc) :=
  match fuel with
  | O => ([], (ar, p))
  | S fuel =>
      let '(ok, jitter, rest) :=
        match p, answers with
        | RDial _, a :: rest => (a.1, a.2, rest)
        | _, _ => (false, 0, answers)
        end in
      match step ok jitter ar p with
      | None => ([], (ar, p))
      | Some (ar, p) =>
          let r := solo fuel rest ar p in
          (match p with RWait _ t => [t] | _ => [] end ++ r.1, r.2)
      end
  end.
End steps.
End Redialer.

Module RedialerSpec.
Import Redialer.
Local Open Scope Z_scope.

(** [Redial] is between taking the state and returning. *)
Definition active (p : pc) : bool :=
  match p with RLoop _ | RDial _ | RWait _ _ => true | _ => false end.
Definition actives (ths : list pc) : Z := sum_Z (λ p, if active p then 1 else 0) ths.

Definition running_or_done (ar : autoRedialer) (ths : list pc) : Prop :=
  if reallyStopped ar then actives ths = 0 else actives ths = 1.

Definition inv (s : autoRedialer * list pc) : Prop :=
  let '(ar, ths) := s in
  Crash ∉ ths ∧
  (SRet ∈ ths → stateValue ar = Stopped ∧ reallyStopped ar = true) ∧
  match stateValue ar with
  | Unconfigured => stopping ar = false ∧ reallyStopped ar = false ∧ actives ths = 0
  | Redialing => stopping ar = false ∧ running_or_done ar ths
  | Stopped => stopping ar = true ∧ running_or_done ar ths
  end ∧
  (SWait ∈ ths → stateValue ar = Stopped).

Lemma sum_Z_insert {A} (f : A → Z) (l : list A) i x y :
  l !! i = Some x → sum_Z f (<[i := y]> l) = sum_Z f l - f x + f y.
Proof.
  revert i. induction l as [|z l IH]; intros [|i]; [done..| |].
  - intros [= ->]. cbn. lia.
  - intros H. change (<[Datatypes.S i:=y]> (z :: l)) with (z :: <[i:=y]> l).
    change ((z :: l) !! Datatypes.S i) with (l !! i) in H. cbn. rewrite (IH _ H). lia.
Qed.

Lemma actives_pos ths i p : ths !! i = Some p → active p = true → 0 < actives ths.
Proof.
  unfold actives. revert i. induction ths as [|q ths IH]; intros [|i]; cbn; [done..| |].
  - intros [= ->] ->. assert (0 ≤ sum_Z (λ p, if active p then 1 else 0) ths); [|lia].
    apply sum_Z_nonneg. intros x. by destruct (active x).
  - intros H Hp. specialize (IH _ H Hp). destruct (active q); lia.
Qed.

Lemma elem_of_insert_other (ths : list pc) i p q :
  q ∈ <[i := p]> ths → p ≠ q → q ∈ ths.
Proof.
  intros [j Hj]%list_elem_of_lookup Hne. destruct (decide (i = j)) as [->|].
  - destruct (decide (j < length ths)%nat).
    + rewrite list_lookup_insert_eq in Hj by done. congruence.
    + rewrite list_insert_ge in Hj by lia. by eapply list_elem_of_lookup_2.
  - rewrite list_lookup_insert_ne in Hj by done. by eapply list_elem_of_lookup_2.
Qed.

Section reach.
Context (timeouts : list Z) (jittered : bool).
Hypothesis Htimeouts : timeouts ≠ [].
Hypothesis Hlen : Z.of_nat (length timeouts) < 2 ^ 32.

Lemma backoff_Some n : 0 ≤ n → is_Some (backoff timeouts n).
Proof using Htimeouts Hlen.
  intros Hn. unfold backoff. rewrite (uN_small 32 (Z.of_nat _)) by lia.
  assert (0 < length timeouts)%nat by (destruct timeouts; cbn; [done|lia]).
  case_decide; apply lookup_lt_is_Some_2; [lia|]. rewrite uN_small; lia.
Qed.

(** The dial attempts a thread counts are never negative. *)
Definition counted (p : pc) : Prop :=
  match p with RLoop n | RDial n | RWait n _ => 0 ≤ n | _ => True end.

Lemma actives_insert ths i p p' :
  ths !! i = Some p →
  actives (<[i := p']> ths)
  = actives ths - (if active p then 1 else 0) + (if active p' then 1 else 0).
Proof. apply sum_Z_insert. Qed.

Lemma redialer_step_inv ok jitter ar ar' ths i p p' :
  inv (ar, ths) → counted p → ths !! i = Some p →
  step timeouts jittered ok jitter ar p = Some (ar', p') →
  inv (ar', <[i := p']> ths) ∧ counted p'.
Proof using Htimeouts Hlen.
  intros (HC & HR & HS & HW) Hcnt Hi Hstep.
  pose proof (actives_insert ths i p p' Hi) as Ha.
  assert (active p = true → 0 < actives ths) as Hpos by (by eapply actives_pos).
  assert (∀ q, q ∈ <[i := p']> ths → q = p' ∨ q ∈ ths) as Hin.
  { intros q Hq. destruct (decide (p' = q)); [by left|right]. by eapply elem_of_insert_other. }
  assert (p = SWait → stateValue ar = Stopped) as Hsw.
  { intros ->. by eapply HW, list_elem_of_lookup_2. }
  assert (∀ n, p = RDial n → is_Some (backoff timeouts n)) as Hb.
  { intros n ->. by apply backoff_Some. }
  enough (p' ≠ Crash ∧ (p' = SRet ∨ SRet ∈ ths → stateValue ar' = Stopped ∧ reallyStopped ar' = true)
    ∧ match stateValue ar' with
      | Unconfigured => stopping ar' = false ∧ reallyStopped ar' = false ∧ actives (<[i:=p']> ths) = 0
      | Redialing => stopping ar' = false ∧ running_or_done ar' (<[i:=p']> ths)
      | Stopped => stopping ar' = true ∧ running_or_done ar' (<[i:=p']> ths)
      end ∧ (p' = SWait ∨ SWait ∈ ths → stateValue ar' = Stopped) ∧ counted p') as (? & ? & ? & ? & ?).
  { split; [split_and!|]; [|naive_solver..]. intros [?|?]%Hin; naive_solver. }
  unfold running_or_done in *. rewrite Ha. clear Ha Hin Hi.
  destruct p; cbn in Hstep, Hpos, Hcnt; try done;
    unfold finish, setStateIfEqual, setStateStopped, close_reallyStopped, close_stopping in Hstep;
    destruct ar as [sv sp rs]; cbn in *;
    try (destruct (Hb _ eq_refl) as [? Hb']; rewrite Hb' in Hstep);
    try (specialize (Hsw eq_refl)); try (specialize (Hpos eq_refl)); clear Hb;
    destruct sv, sp, rs; destruct_and?; try done; try lia; destruct ok;
    simplify_eq/=; (split_and!; [done|naive_solver..|try lia|naive_solver|]);
    try apply uN_range; done || lia.
Qed.
Lemma redialer_reachable_inv s :
  reachable timeouts jittered s → inv s ∧ Forall counted s.2.
Proof using Htimeouts Hlen.
  induction 1 as [ths Hc|s s' _ [Hi Hc] Hs].
  - assert (∀ q, q ∈ ths → q = RedialCalled ∨ q = StopCalled) as Hq by (by apply Forall_forall).
    split; [|eapply Forall_impl; [done|]; by intros ? [->| ->]].
    cbn. split_and!; [intros ?%Hq; naive_solver..|done|done| |intros ?%Hq; naive_solver].
    clear Hq. unfold actives. induction Hc as [|? ? [->| ->] _ IH]; cbn; [done|lia..].
  - destruct Hs as [ok jitter ar ar' ths i p p' Hl Hs]. cbn in Hc.
    destruct (redialer_step_inv ok jitter ar ar' ths i p p' Hi) as [??];
      [by eapply Forall_lookup_1|done..|].
    split; [done|]. by apply Forall_insert.
Qed.

(** From any point of [Redial], once stopped: at most a dial and a wait, then
    it returns. *)
Lemma solo_stopped ar p answers :
  stateValue ar = Stopped → reallyStopped ar = false → active p = true → counted p →
  ∃ n waits, solo timeouts jittered 3 answers ar p = (waits, (AR Stopped (stopping ar) true, RRet n))
             ∧ (length waits ≤ 1)%nat.
Proof using Htimeouts Hlen.
  destruct ar as [sv sp rs]; cbn [stateValue reallyStopped stopping]. intros -> -> Hp Hc.
  destruct p as [|n|n|n t|n| | | |]; try done; cbn; [eauto| |eauto].
  destruct (backoff_Some n Hc) as [t Ht]. destruct answers as [|[[] j] rest]; cbn; [|eauto|];
    rewrite Ht; cbn; eauto.
Qed.
End reach.

Lemma actives_none ths p : actives ths = 0 → p ∈ ths → active p = false.
Proof.
  intros H [i Hi]%list_elem_of_lookup. destruct (active p) eqn:E; [|done].
  pose proof (actives_pos ths i p Hi E). lia.
Qed.

Lemma actives_one ths : actives ths = 1 → ∃ i p, ths !! i = Some p ∧ active p = true.
Proof.
  unfold actives. induction ths as [|p ths IH]; cbn; [done|]. intros H.
  destruct (active p) eqn:E; [by exists 0%nat, p|].
  destruct IH as (i & q & ? & ?); [lia|]. by exists (Datatypes.S i), q.
Qed.

(** [init]'s comment: each step is at least five thirds of the one before. *)
Lemma init_timeouts_growth :
  Forall (λ p : Z * Z, 3 * p.2 >= 5 * p.1)%Z (zip init_timeouts (tail init_timeouts)).
Proof. cbn. repeat constructor; cbn; unfold Second; lia. Qed.

(** The wait after attempt [i]. *)
Definition wait_spec (timeouts : list Z) (jittered : bool) (i : nat) (j : Z) : Z :=
  let t := timeouts !!! min i (length timeouts - 1) in
  if jittered then i64 (t + j) else t.

Lemma backoff_spec timeouts i :
  timeouts ≠ [] → Z.of_nat (length timeouts) < 2 ^ 32 →
  backoff timeouts (Z.of_nat i) = Some (timeouts !!! min i (length timeouts - 1)).
Proof.
  intros Hne Hlen. assert (0 < length timeouts)%nat by (destruct timeouts; cbn; [done|lia]).
  unfold backoff. rewrite (uN_small 32 (Z.of_nat _)) by lia. case_decide.
  - rewrite Nat2Z.id, Nat.min_l by lia. apply list_lookup_lookup_total_lt. lia.
  - rewrite uN_small, Nat.min_r by lia.
    replace (Z.to_nat (Z.of_nat (length timeouts) - 1)) with (length timeouts - 1)%nat by lia.
    apply list_lookup_lookup_total_lt. lia.
Qed.

Section retries.
Context (timeouts : list Z) (jittered : bool).
Hypothesis Htimeouts : timeouts ≠ [].
Hypothesis Hlen : Z.of_nat (length timeouts) < 2 ^ 32.

Lemma solo_retries js j0 rest k sp :
  Z.of_nat (k + length js + 1) < 2 ^ 32 →
  solo timeouts jittered (3 * length js + 2) (((λ j, (false, j)) <$> js) ++ (true, j0) :: rest)
    (AR Redialing sp false) (RLoop (Z.of_nat k))
  = (imap (λ i, wait_spec timeouts jittered (k + i)) js,
     (AR Redialing sp true, RRet (Z.of_nat (k + length js + 1)))).
Proof using Htimeouts Hlen.
  revert k. induction js as [|j js IH]; intros k Hk.
  { cbn. rewrite decide_True by done. cbn. rewrite uN_small by (cbn in Hk; lia).
    repeat f_equal. lia. }
  replace (3 * length (j :: js) + 2)%nat with (3 + (3 * length js + 2))%nat by (cbn; lia).
  cbn [fmap list_fmap app]. cbn -[solo imap Nat.mul Nat.add].
  change (3 + ?n)%nat with (Datatypes.S (Datatypes.S (Datatypes.S n))).
  cbn -[Nat.mul Nat.add]. rewrite decide_True by done. cbn -[Nat.mul Nat.add].
  rewrite backoff_spec by done. cbn -[Nat.mul Nat.add].
  rewrite uN_small by (cbn in Hk; lia). replace (Z.of_nat k + 1) with (Z.of_nat (Datatypes.S k)) by lia.
  rewrite IH by (cbn in *; lia). cbn -[Nat.mul Nat.add]. rewrite Nat.add_0_r.
  replace (Datatypes.S k + length js + 1)%nat with (k + Datatypes.S (length js) + 1)%nat by lia.
  do 2 f_equal. apply imap_ext. intros i x _. cbn. by rewrite Nat.add_succ_r.
Qed.
End retries.
End RedialerSpec.

Module RedialerProps.
Import Redialer RedialerSpec.
Local Open Scope Z_scope.

(** C16: [Stop] is a barrier. However any number of [Redial] and [Stop] calls
    interleave, no channel is closed twice and nothing panics, at most one
    thread is in the redial loop, and once a [Stop] has returned no thread is
    in it (so no dial is in progress or will start). *)
Theorem redialer_stop_barrier timeouts jittered ar ths :
  timeouts ≠ [] → Z.of_nat (length timeouts) < 2 ^ 32 →
  reachable timeouts jittered (ar, ths) →
  Crash ∉ ths ∧ 0 ≤ actives ths ≤ 1 ∧
  (SRet ∈ ths → Forall (λ p, active p = false) ths ∧ stateValue ar = Stopped).
Proof.
  intros Hne Hlen Hr. apply redialer_reachable_inv in Hr as [(HC & HR & HS & HW) _]; [|done..].
  unfold running_or_done in HS.
  assert (0 ≤ actives ths ≤ 1) as Ha by (destruct (stateValue ar), (reallyStopped ar); lia).
  split; [done|]. split; [done|]. intros [Hs Hrs]%HR. rewrite Hs, Hrs in HS. destruct HS as [_ HS].
  split; [|done].
  apply Forall_forall. intros p. by apply actives_none.
Qed.

Lemma redialer_stop_barrier_witness :
  let timeouts := init_timeouts in
  let ar := AR Stopped true true in
  reachable timeouts false (ar, [RRet 1; SRet]) ∧
  (SRet ∈ [RRet 1; SRet] → Forall (λ p, active p = false) [RRet 1; SRet] ∧ stateValue ar = Stopped).
Proof.
  assert (reachable init_timeouts false (AR Stopped true true, [RRet 1; SRet])) as H.
  { eapply Next; [|eapply (Step _ _ true 0 (AR Stopped true true) _ [RRet 1; SWait] 1); reflexivity].
    eapply Next; [|eapply (Step _ _ true 0 (AR Stopped true false) _ [RDial 0; SWait] 0); reflexivity].
    eapply Next; [|eapply (Step _ _ true 0 (AR Redialing false false) _ [RDial 0; StopCalled] 1); reflexivity].
    eapply Next; [|eapply (Step _ _ true 0 (AR Redialing false false) _ [RLoop 0; StopCalled] 0); reflexivity].
    eapply Next; [|eapply (Step _ _ true 0 NewAutoRedialer _ [RedialCalled; StopCalled] 0); reflexivity].
    apply Start. repeat constructor; (by left) || by right. }
  split; [done|]. eapply (redialer_stop_barrier init_timeouts false); [done|cbn; lia|done].
Defined.

(** C19: [Stop] terminates. In every reachable state with a waiting [Stop],
    either its wait is over or one thread is in the redial loop, and three
    steps of that thread, whatever the dialer answers, include at most one
    wait, make [Redial] return and end the wait. *)
Theorem redialer_stop_terminates timeouts jittered ar ths answers :
  timeouts ≠ [] → Z.of_nat (length timeouts) < 2 ^ 32 →
  reachable timeouts jittered (ar, ths) → SWait ∈ ths →
  step timeouts jittered true 0 ar SWait = Some (ar, SRet) ∨
  ∃ i p, ths !! i = Some p ∧ active p = true ∧
    ∃ waits ar' n, solo timeouts jittered 3 answers ar p = (waits, (ar', RRet n)) ∧
      (length waits ≤ 1)%nat ∧ step timeouts jittered true 0 ar' SWait = Some (ar', SRet).
Proof.
  intros Hne Hlen Hr Hw. apply redialer_reachable_inv in Hr as [(_ & _ & HS & HW) Hc]; [|done..].
  specialize (HW Hw). rewrite HW in HS. destruct HS as [_ HS]. unfold running_or_done in HS. cbn.
  destruct (reallyStopped ar) eqn:Hrs; [by left|right].
  apply actives_one in HS as (i & p & Hi & Hp). exists i, p. split_and!; [done..|].
  destruct (solo_stopped timeouts jittered Hne Hlen ar p answers HW Hrs Hp) as (n & ws & ? & ?).
  { by eapply Forall_lookup_1 in Hc. }
  eexists _, _, _. by split_and!.
Qed.

Lemma redialer_stop_terminates_witness :
  ∃ ar, reachable init_timeouts false (ar, [RDial 0; SWait]) ∧
  ∃ i p, [RDial 0; SWait] !! i = Some p ∧ active p = true ∧
    ∃ waits ar' n, solo init_timeouts false 3 [(false, 0)] ar p = (waits, (ar', RRet n)) ∧
      (length waits ≤ 1)%nat ∧ step init_timeouts false true 0 ar' SWait = Some (ar', SRet).
Proof.
  assert (reachable init_timeouts false (AR Stopped true false, [RDial 0; SWait])) as H.
  { eapply Next; [|eapply (Step _ _ true 0 (AR Redialing false false) _ [RDial 0; StopCalled] 1); reflexivity].
    eapply Next; [|eapply (Step _ _ true 0 (AR Redialing false false) _ [RLoop 0; StopCalled] 0); reflexivity].
    eapply Next; [|eapply (Step _ _ true 0 NewAutoRedialer _ [RedialCalled; StopCalled] 0); reflexivity].
    apply Start. repeat constructor; (by left) || by right. }
  eexists. split; [exact H|].
  destruct (redialer_stop_terminates init_timeouts false _ _ [(false, 0)] ltac:(done) ltac:(cbn; lia) H)
    as [H'|H']; [repeat constructor|done|exact H'].
Defined.

(** Backoff. A dialer that fails [length js] times and then connects makes
    [Redial] return the number of attempts, after waiting after attempt [i]
    for [timeouts[i]] (the last timeout past the end) plus the jitter drawn. *)
Theorem redial_backoff timeouts jittered js j0 rest :
  timeouts ≠ [] → Z.of_nat (length timeouts) < 2 ^ 32 → Z.of_nat (length js + 1) < 2 ^ 32 →
  solo timeouts jittered (3 * length js + 3) (((λ j, (false, j)) <$> js) ++ (true, j0) :: rest)
    NewAutoRedialer RedialCalled
  = (imap (wait_spec timeouts jittered) js,
     (AR Redialing false true, RRet (Z.of_nat (length js + 1)))).
Proof.
  intros Hne Hlen Hk. replace (3 * length js + 3)%nat with (Datatypes.S (3 * length js + 2)) by lia.
  cbn [solo]. unfold step, setStateIfEqual, NewAutoRedialer. cbn [stateValue].
  rewrite decide_True by done. change 0 with (Z.of_nat 0).
  unfold setState; cbn [stopping reallyStopped].
  by rewrite solo_retries.
Qed.

Lemma redial_backoff_witness :
  solo init_timeouts true 12 [(false, 5); (false, 6); (false, 7); (true, 0)] NewAutoRedialer RedialCalled
  = ([1000000005; 2000000006; 5000000007], (AR Redialing false true, RRet 4)).
Proof. apply (redial_backoff init_timeouts true [5; 6; 7] 0 []); [done|cbn; lia..]. Defined.
End RedialerProps.
