(* ===== verification/SeenState.v ===== *)
(** What the client has seen: [client/session/seenstate/seenstate.go] and
    [client/session/seenstate/sqlseenstate.go].

    [SeenState] is the interface the client session uses, with the laws it
    relies on; the in-memory and the SQLite implementations discharge them.
    The SQL engine is a parameter: [SqlDb] has the two entry points the source
    calls, and [SqlDbLaws] says what the five statements of the source do. *)

From S2P Require Import Prelude Protocol.
Import Msg.

Module SeenState.

Inductive seen_err := SeenErr (what : string).

Class SeenState (S : Type) := {
  SetLevel : string → Z → st S seen_err unit;
  GetAllLevels : st S seen_err (gmap string Z);
  FilterBySeen : list Notification → st S seen_err (list Notification);
}.

(** ** In memory *)
Record memSeenState := MemSeen { levels : gmap string Z; seenMsgs : gset string }.

Definition NewSeenState : memSeenState := MemSeen ∅ ∅.

Definition mem_SetLevel (level : string) (top : Z) : st memSeenState seen_err unit := λ m,
  (MemSeen (<[level := top]> (levels m)) (seenMsgs m), Ok ()).

Definition mem_GetAllLevels : st memSeenState seen_err (gmap string Z) := λ m, (m, Ok (levels m)).

Fixpoint mem_filter_loop (notifs : list Notification) (m : memSeenState) (acc : list Notification)
    : memSeenState * list Notification :=
  match notifs with
  | [] => (m, acc)
  | notif :: notifs =>
      if decide (MsgId notif ∈ seenMsgs m) then mem_filter_loop notifs m acc
      else mem_filter_loop notifs (MemSeen (levels m) ({[MsgId notif]} ∪ seenMsgs m)) (acc ++ [notif])
  end.

Definition mem_FilterBySeen (notifs : list Notification) : st memSeenState seen_err (list Notification) :=
  λ m, let '(m, acc) := mem_filter_loop notifs m [] in (m, Ok acc).

#[export] Instance memSeenState_SeenState : SeenState memSeenState := {
  SetLevel := mem_SetLevel;
  GetAllLevels := mem_GetAllLevels;
  FilterBySeen := mem_FilterBySeen;
}.

(** ** SQLite *)
Inductive sqlval := SqlText (s : string) | SqlInt (n : Z).

(** [db.Exec] and [db.Query]: an error is its text; a row [rows.Scan] cannot
    read is [inr]. *)
Class SqlDb (D : Type) := {
  db_Exec : string → list sqlval → D → D * option string;
  db_Query : string → D → list (string * Z + string) + string;
}.

Definition create_level_map : string :=
  "CREATE TABLE IF NOT EXISTS level_map (level text primary key, top integer)".
Definition create_seen_msgs : string := "CREATE TABLE IF NOT EXISTS seen_msgs (id text primary key)".
Definition replace_level : string := "REPLACE INTO level_map (level, top) VALUES (?, ?)".
Definition select_levels : string := "SELECT * FROM level_map".
Definition delete_prev : string :=
  "DELETE FROM seen_msgs WHERE rowid < (SELECT rowid FROM seen_msgs WHERE id = ?)".
Definition insert_seen : string := "INSERT INTO seen_msgs (id) VALUES (?)".
Definition unique_failed : string := "UNIQUE constraint failed: seen_msgs.id".

(** [strings.HasSuffix] *)
Definition has_suffix (s suffix : string) : bool :=
  bool_decide (String.length suffix ≤ String.length s)
  && bool_decide (str_drop (String.length s - String.length suffix) s = suffix).

Section sqlite.
Context {D : Type} `{SqlDb D}.

(** [sql.Open] has given [db]. *)
Definition NewSqliteSeenState : st D seen_err unit := λ db,
  let '(db, err) := db_Exec create_level_map [] db in
  match err with
  | Some e => (db, Err (SeenErr ("cannot (re)create sqlite level map table: " +:+ e)))
  | None =>
      let '(db, err) := db_Exec create_seen_msgs [] db in
      match err with
      | Some e => (db, Err (SeenErr ("cannot (re)create sqlite seen msgs table: " +:+ e)))
      | None => (db, Ok ())
      end
  end.

Definition sqlite_SetLevel (level : string) (top : Z) : st D seen_err unit := λ db,
  let '(db, err) := db_Exec replace_level [SqlText level; SqlInt top] db in
  match err with
  | Some e => (db, Err (SeenErr ("cannot set level in level map: " +:+ e)))
  | None => (db, Ok ())
  end.

Fixpoint scan_rows (rows : list (string * Z + string)) (m : gmap string Z)
    : outcome seen_err (gmap string Z) :=
  match rows with
  | [] => Ok m
  | inl (level, top) :: rows => scan_rows rows (<[level := top]> m)
  | inr e :: _ => Err (SeenErr ("cannot read level from sqlite level map: " +:+ e))
  end.

Definition sqlite_GetAllLevels : st D seen_err (gmap string Z) := λ db,
  match db_Query select_levels db with
  | inr e => (db, Err (SeenErr ("cannot retrieve levels from sqlite level map: " +:+ e)))
  | inl rows => (db, scan_rows rows ∅)
  end.

Definition dropPrevThan (msgId : string) (db : D) : D * option string :=
  db_Exec delete_prev [SqlText msgId] db.

Fixpoint sqlite_filter_loop (notifs : list Notification) (acc : list Notification)
    : st D seen_err (list Notification) := λ db,
  match notifs with
  | [] => (db, Ok acc)
  | notif :: notifs =>
      let '(db, err) := db_Exec insert_seen [SqlText (MsgId notif)] db in
      match err with
      | Some e =>
          if has_suffix e unique_failed then sqlite_filter_loop notifs acc db
          else (db, Err (SeenErr ("cannot insert in seen msgs: " +:+ e)))
      | None => sqlite_filter_loop notifs (acc ++ [notif]) db
      end
  end.

Definition sqlite_FilterBySeen (notifs : list Notification) : st D seen_err (list Notification) :=
  match notifs with
  | [] => mret []
  | first :: _ =>
      acc ← sqlite_filter_loop notifs [];
      (λ db, match dropPrevThan (MsgId first) db with
             | (db, Some e) => (db, Err (SeenErr ("cannot delete obsolete seen msgs: " +:+ e)))
             | (db, None) => (db, Ok acc)
             end) : st D seen_err (list Notification)
  end.

#[export] Instance sqliteSeenState : SeenState D := {
  SetLevel := sqlite_SetLevel;
  GetAllLevels := sqlite_GetAllLevels;
  FilterBySeen := sqlite_FilterBySeen;
}.
End sqlite.
End SeenState.

(** ** What the client relies on *)
Module SeenSpec.
Import SeenState.

(** The notifications of a batch that are new, given the ids seen. *)
Fixpoint fresh (seen : list string) (notifs : list Notification) : list Notification :=
  match notifs with
  | [] => []
  | n :: notifs =>
      if decide (MsgId n ∈ seen) then fresh seen notifs
      else n :: fresh (seen ++ [MsgId n]) notifs
  end.

Definition ids (notifs : list Notification) : list string := MsgId <$> notifs.

(** [keep_from id l]: [l] from the first [id] on, all of it without one. *)
Fixpoint suffix_from (id : string) (l : list string) : option (list string) :=
  match l with
  | [] => None
  | x :: l' => if decide (x = id) then Some l else suffix_from id l'
  end.
Definition keep_from (id : string) (l : list string) : list string :=
  default l (suffix_from id l).

(** An implementation has a view: the levels, and the ids it has seen. It
    [remembers] some of them, in the order they came. A successful
    [FilterBySeen] answers with what is fresh, remembers what it remembered
    from the batch's first id on and the fresh ids, and has seen nothing else.
    A failed operation does not invent anything. *)
Class SeenStateLaws (S : Type) `{SeenState S} := {
  level_view : S → gmap string Z;
  seen_view : S → list string;
  remembers : S → list string → Prop;
  remembers_seen s l id : remembers s l → id ∈ l → id ∈ seen_view s;
  SetLevel_law s level top :
    let '(s', r) := SetLevel level top s in
    seen_view s' = seen_view s ∧ (∀ l, remembers s l → remembers s' l) ∧
    match r with
    | Ok _ => level_view s' = <[level := top]> (level_view s)
    | Err _ => level_view s' = level_view s
    | Panic => False
    end;
  GetAllLevels_law s :
    let '(s', r) := GetAllLevels s in
    s' = s ∧ match r with Ok m => m = level_view s | Err _ => True | Panic => False end;
  FilterBySeen_law s notifs :
    let '(s', r) := FilterBySeen notifs s in
    level_view s' = level_view s ∧
    (∀ id, id ∈ seen_view s' → id ∈ seen_view s ∨ id ∈ ids notifs) ∧
    match r with
    | Ok acc =>
        acc = fresh (seen_view s) notifs ∧
        ∀ l first, remembers s l → head (ids notifs) = Some first → first ∈ l ++ ids acc →
          remembers s' (keep_from first (l ++ ids acc))
    | Err _ => True
    | Panic => False
    end;
}.

(** What the statements of the source do to a database with these tables:
    [seen_msgs] in the order of its rowids, which grow. *)
Class SqlDbLaws (D : Type) `{SqlDb D} := {
  tbl_levels : D → gmap string Z;
  tbl_seen : D → list string;
  replace_law db level top :
    let '(db', e) := db_Exec replace_level [SqlText level; SqlInt top] db in
    tbl_seen db' = tbl_seen db ∧
    tbl_levels db' = match e with None => <[level := top]> (tbl_levels db) | Some _ => tbl_levels db end;
  select_law db :
    match db_Query select_levels db with
    | inl rows => ∀ ps, rows = inl <$> ps → ps ≡ₚ map_to_list (tbl_levels db)
    | inr _ => True
    end;
  insert_law db id :
    let '(db', e) := db_Exec insert_seen [SqlText id] db in
    tbl_levels db' = tbl_levels db ∧
    match e with
    | None => id ∉ tbl_seen db ∧ tbl_seen db' = tbl_seen db ++ [id]
    | Some e => tbl_seen db' = tbl_seen db ∧ (has_suffix e unique_failed = true → id ∈ tbl_seen db)
    end;
  delete_law db id :
    let '(db', e) := db_Exec delete_prev [SqlText id] db in
    tbl_levels db' = tbl_levels db ∧
    tbl_seen db' = match e with None => keep_from id (tbl_seen db) | Some _ => tbl_seen db end;
}.

Lemma fresh_ext s1 s2 notifs :
  (∀ id, id ∈ s1 ↔ id ∈ s2) → fresh s1 notifs = fresh s2 notifs.
Proof.
  revert s1 s2. induction notifs as [|n notifs IH]; intros s1 s2 H; cbn; [done|].
  rewrite (decide_ext _ (MsgId n ∈ s2)) by apply H.
  case_decide; [by apply IH|]. f_equal. apply IH. intros id. rewrite !elem_of_app, H. done.
Qed.

Lemma fresh_ids seen notifs id : id ∈ ids (fresh seen notifs) → id ∈ ids notifs ∧ id ∉ seen.
Proof.
  revert seen. induction notifs as [|n notifs IH]; intros seen; cbn; [intros []%elem_of_nil|].
  case_decide; cbn; rewrite ?elem_of_cons; [intros []%IH; tauto|].
  intros [->|[? Hn]%IH]; [tauto|]. rewrite elem_of_app in Hn. tauto.
Qed.

Lemma keep_from_sublist id l : keep_from id l `sublist_of` l.
Proof.
  unfold keep_from. induction l as [|x l IH]; cbn; [done|].
  case_decide; cbn; [done|]. destruct (suffix_from id l); cbn in *; [by constructor|done].
Qed.

Lemma keep_from_head id l : keep_from id (id :: l) = id :: l.
Proof. unfold keep_from; cbn. by rewrite decide_True. Qed.

Lemma keep_from_app id l k : id ∉ l → keep_from id (l ++ id :: k) = id :: k.
Proof.
  intros H. unfold keep_from.
  assert (suffix_from id (l ++ id :: k) = Some (id :: k)) as ->; [|done].
  induction l as [|x l IH]; cbn; [by rewrite decide_True|].
  apply not_elem_of_cons in H as [??]. rewrite decide_False by done. by apply IH.
Qed.

Lemma keep_from_cons id x l : x ≠ id → id ∈ l → keep_from id (x :: l) = keep_from id l.
Proof.
  intros Hx (l1 & l2 & -> & Hl1)%list_elem_of_split_l.
  rewrite keep_from_app by done. apply (keep_from_app id (x :: l1)). set_solver.
Qed.

Lemma keep_from_mono id l k :
  l `sublist_of` k → id ∈ l → keep_from id l `sublist_of` keep_from id k.
Proof.
  induction 1 as [|x l k Hs IH|x l k Hs IH]; intros Hin; [done| |].
  - destruct (decide (x = id)) as [->|Hx].
    { rewrite !keep_from_head. by constructor. }
    apply elem_of_cons in Hin as [->|Hin]; [done|].
    rewrite !keep_from_cons; [by apply IH|done| |done..]. by eapply elem_of_sublist.
  - destruct (decide (x = id)) as [->|Hx].
    { rewrite keep_from_head. constructor. etrans; [apply keep_from_sublist|done]. }
    rewrite keep_from_cons; [by apply IH|done|]. by eapply elem_of_sublist.
Qed.

(** *** The in-memory implementation *)
Lemma mem_filter_loop_spec notifs m acc seen :
  (∀ id, id ∈ seenMsgs m ↔ id ∈ seen) →
  mem_filter_loop notifs m acc
  = (MemSeen (levels m) (seenMsgs m ∪ list_to_set (ids (fresh seen notifs))), acc ++ fresh seen notifs).
Proof.
  revert m acc seen. induction notifs as [|n notifs IH]; intros m acc seen Hs; cbn.
  { destruct m. by rewrite union_empty_r_L, app_nil_r. }
  rewrite (decide_ext _ (MsgId n ∈ seen)) by apply Hs. case_decide; [by apply IH|].
  rewrite (IH _ _ (seen ++ [MsgId n])) by (cbn; set_solver). cbn. rewrite <- app_assoc. cbn.
  do 2 f_equal. set_solver.
Qed.

#[export] Instance mem_laws : SeenStateLaws memSeenState.
Proof.
  refine {| level_view := levels; seen_view m := elements (seenMsgs m);
            remembers m l := ∀ id, id ∈ l → id ∈ seenMsgs m |}.
  - intros s l id H Hl. apply elem_of_elements. by apply H.
  - done.
  - done.
  - intros s notifs. cbn. unfold mem_FilterBySeen.
    rewrite (mem_filter_loop_spec _ _ _ (elements (seenMsgs s))) by set_solver. cbn.
    split; [done|]. split; [|split; [done|]].
    + intros id. rewrite !elem_of_elements, elem_of_union, elem_of_list_to_set.
      intros [?|[??]%fresh_ids]; tauto.
    + intros l first Hl _ _ id Hid. rewrite elem_of_union, elem_of_list_to_set.
      eapply elem_of_sublist in Hid; [|apply keep_from_sublist].
      apply elem_of_app in Hid as [?|?]; auto.
Defined.

(** *** The SQLite implementation *)
Section sqlite_laws.
Context {D : Type} `{SqlDbLaws D}.

Lemma sqlite_filter_loop_spec notifs acc db seen :
  (∀ id, id ∈ tbl_seen db ↔ id ∈ seen) →
  let '(db', r) := sqlite_filter_loop notifs acc db in
  tbl_levels db' = tbl_levels db ∧
  (∀ id, id ∈ tbl_seen db' → id ∈ tbl_seen db ∨ id ∈ ids notifs) ∧
  match r with
  | Ok acc' => acc' = acc ++ fresh seen notifs ∧ tbl_seen db' = tbl_seen db ++ ids (fresh seen notifs)
  | Err _ => True
  | Panic => False
  end.
Proof.
  revert acc db seen. induction notifs as [|n notifs IH]; intros acc db seen Hs; cbn.
  { rewrite !app_nil_r. split; [done|]. split; [by left|done]. }
  pose proof (insert_law db (MsgId n)) as Hi.
  destruct (db_Exec insert_seen [SqlText (MsgId n)] db) as [db1 [e|]].
  - destruct Hi as (Hl & Ht & Hu). destruct (has_suffix e unique_failed);
      [|split; [done|]; split; [rewrite Ht; by left|done]].
    rewrite decide_True by (apply Hs; auto).
    specialize (IH acc db1 seen). rewrite Ht, Hl in IH. specialize (IH Hs).
    destruct (sqlite_filter_loop notifs acc db1) as [db2 r].
    destruct IH as (-> & IHs & IHr). split; [done|]. split; [|done].
    intros id [?|?]%IHs; [by left|right]. by apply elem_of_cons; right.
  - destruct Hi as (Hl & Hn & Ht). rewrite decide_False by (by rewrite <- Hs).
    specialize (IH (acc ++ [n]) db1 (seen ++ [MsgId n])). rewrite Ht, Hl in IH.
    destruct (sqlite_filter_loop notifs (acc ++ [n]) db1) as [db2 r].
    destruct IH as (-> & IHs & IHr); [intros id; by rewrite !elem_of_app, Hs|].
    split; [done|]. split.
    { intros id [[?|?%list_elem_of_singleton]%elem_of_app|?]%IHs;
        [by left|right; apply elem_of_cons; tauto..]. }
    destruct r; [|done..]. cbn. rewrite <- !app_assoc in IHr. done.
Qed.

Lemma scan_rows_spec rows m m' :
  scan_rows rows m = Ok m' → ∃ ps, rows = inl <$> ps ∧ m' = list_to_map (reverse ps) ∪ m.
Proof.
  revert m. induction rows as [|[[l t]|e] rows IH]; intros m; cbn; [|intros Hm|done].
  { intros [= ->]. exists []. split; [done|]. symmetry. apply map_empty_union. }
  destruct (IH _ Hm) as (ps & -> & ->). exists ((l, t) :: ps). split; [done|].
  rewrite reverse_cons, list_to_map_app. cbn. by rewrite <- (assoc_L (∪)), insert_union_singleton_l, insert_empty.
Qed.

#[export] Instance sqlite_laws : SeenStateLaws D.
Proof using H0.
  refine {| level_view := tbl_levels; seen_view := tbl_seen;
            remembers db l := l `sublist_of` tbl_seen db |}.
  - intros s l id Hl Hid. by eapply elem_of_sublist.
  - intros s level top. cbn. unfold sqlite_SetLevel.
    pose proof (replace_law s level top) as Hr.
    destruct (db_Exec replace_level _ s) as [s' [e|]]; destruct Hr as [-> ->]; done.
  - intros s. cbn. unfold sqlite_GetAllLevels. pose proof (select_law s) as Hq.
    destruct (db_Query select_levels s) as [rows|e]; [|done]. split; [done|].
    destruct (scan_rows rows ∅) as [m|e|] eqn:E; [|done|].
    + apply scan_rows_spec in E as (ps & -> & ->). specialize (Hq ps eq_refl).
      rewrite map_union_empty, (list_to_map_proper _ (map_to_list (tbl_levels s))).
      * apply list_to_map_to_list.
      * rewrite reverse_Permutation, Hq. apply NoDup_fst_map_to_list.
      * by rewrite reverse_Permutation.
    + clear -E. revert E. generalize (∅ : gmap string Z). induction rows as [|[[??]|] rows IH]; naive_solver.
  - intros s notifs. cbn. unfold sqlite_FilterBySeen. destruct notifs as [|first notifs].
    { cbn. split; [done|]. split; [by left|]. split; [done|]. by intros ? ? _ [=]. }
    pose proof (sqlite_filter_loop_spec (first :: notifs) [] s (tbl_seen s) (λ _, iff_refl _)) as Hf.
    set (b := first :: notifs) in *. unfold mbind, st_bind.
    destruct (sqlite_filter_loop b [] s) as [s1 [acc|e|]]; [|by destruct Hf as (? & ? & ?)..].
    destruct Hf as (Hl & Hi & -> & Hs). unfold dropPrevThan. cbn [app] in *.
    pose proof (delete_law s1 (MsgId first)) as Hd.
    destruct (db_Exec delete_prev _ s1) as [s2 [e|]]; destruct Hd as [Hdl Hdt]; rewrite Hdl, Hdt.
    { split_and!; [done..|exact I]. }
    split; [done|]. split; [|split; [done|]].
    + intros id Hid. apply Hi. eapply elem_of_sublist; [done|]. apply keep_from_sublist.
    + intros l f Hsub [= <-] Hin. rewrite Hs. apply keep_from_mono; [|done].
      by apply sublist_app.
Defined.
End sqlite_laws.
End SeenSpec.

(** ** Redelivery

    The server sends what is pending on a channel, oldest first, and the
    pending entries only lose their oldest ones: the batches are windows of
    one stream whose starts never go back. *)
Module SeenProps.
Import SeenState SeenSpec.

Section deliver.
Context {S : Type} `{SeenStateLaws S}.

Fixpoint deliver (batches : list (list Notification)) : st S seen_err (list Notification) :=
  match batches with
  | [] => mret []
  | b :: batches => acc ← FilterBySeen b; rest ← deliver batches; mret (acc ++ rest)
  end.
End deliver.

Section stream.
Context (g : list Notification).

Definition window (w : nat * nat) : list Notification := take w.2 (drop w.1 g).

(** Windows [(start, length)] after one that started at [a], [m] being the
    end of what was sent. *)
Fixpoint advancing (a m : nat) (ws : list (nat * nat)) : Prop :=
  match ws with
  | [] => True
  | (a', n) :: ws => a ≤ a' ≤ m ∧ 0 < n ∧ a' + n ≤ length g ∧ advancing a' (max m (a' + n)) ws
  end.

Fixpoint covered (m : nat) (ws : list (nat * nat)) : nat :=
  match ws with [] => m | (a', n) :: ws => covered (max m (a' + n)) ws end.

Lemma covered_bounds ws a m : m ≤ length g → advancing a m ws → m ≤ covered m ws ≤ length g.
Proof.
  revert a m. induction ws as [|[a' n] ws IH]; intros a m Hm Hw; cbn in *; [lia|].
  destruct Hw as (? & ? & ? & Hw). specialize (IH a' (max m (a' + n)) ltac:(lia) Hw). lia.
Qed.

Lemma take_span i j : i ≤ j → take i g ++ take (j - i) (drop i g) = take j g.
Proof. intros. rewrite take_take_drop. f_equal. lia. Qed.

Lemma window_app a i j : a ≤ i → i ≤ j → drop a (take i g) ++ take (j - i) (drop i g) = drop a (take j g).
Proof.
  intros. destruct (decide (i ≤ length g)).
  - rewrite <- (take_span i j) by done. rewrite drop_app_le; [done|]. rewrite length_take. lia.
  - rewrite (drop_ge g), take_nil, app_nil_r, !take_ge by lia. done.
Qed.

Lemma fresh_known seen l1 l2 :
  (∀ id, id ∈ ids l1 → id ∈ seen) → (∀ id, id ∈ ids l2 → id ∉ seen) → NoDup (ids l2) →
  fresh seen (l1 ++ l2) = l2.
Proof.
  intros H1. revert seen H1. induction l1 as [|n l1 IH]; cbn; intros seen H1 H2 Hd.
  - revert seen H1 H2. induction l2 as [|n l2 IH]; cbn; intros seen H1 H2; [done|].
    apply NoDup_cons in Hd as [Hn Hd].
    rewrite decide_False by (apply H2; by left). f_equal. apply IH; [done|set_solver|].
    intros id Hid. apply not_elem_of_app. split; [apply H2; set_solver|]. intros ->%list_elem_of_singleton. done.
  - rewrite decide_True by (apply H1; by left). apply IH; [|done..]. intros id ?. apply H1. set_solver.
Qed.

Lemma keep_from_drop k x (l : list string) :
  NoDup l → l !! k = Some x → keep_from x l = drop k l.
Proof.
  intros Hd Hk. rewrite <- (take_drop_middle l k x Hk) at 1. rewrite keep_from_app.
  - symmetry. by apply drop_S.
  - intros Hx. rewrite <- (take_drop_middle l k x Hk) in Hd.
    apply NoDup_app in Hd as (_ & Hd & _). by apply (Hd x Hx); left.
Qed.

Context {S : Type} `{SeenStateLaws S}.

(** What is known after sending up to [m], the last window starting at [a]. *)
Definition tracking (a m : nat) (s : S) : Prop :=
  remembers s (ids (drop a (take m g))) ∧ ∀ id, id ∈ seen_view s → id ∉ ids (drop m g).

Lemma window_split a n m :
  a ≤ m → window (a, n) = take n (drop a (take m g)) ++ take (a + n - m) (drop m g).
Proof.
  intros. unfold window; cbn. destruct (decide (a + n ≤ m)).
  - replace (a + n - m) with 0 by lia. rewrite take_0, app_nil_r, !take_drop_commute, take_take.
    do 2 f_equal. lia.
  - rewrite (take_ge (drop a (take m g))) by (rewrite length_drop, length_take; lia).
    rewrite window_app by lia. rewrite take_drop_commute. done.
Qed.

Hypothesis Hg : NoDup (ids g).

Lemma filter_window a' n a m s :
  a ≤ a' ≤ m → 0 < n → a' + n ≤ length g → m ≤ length g → tracking a m s →
  match FilterBySeen (window (a', n)) s with
  | (s', Ok acc) => acc = take (a' + n - m) (drop m g) ∧ tracking a' (max m (a' + n)) s'
  | (_, Err _) => True
  | (_, Panic) => False
  end.
Proof using Hg.
  intros Ha Hn Hl Hm [Hrem Hseen].
  pose proof (FilterBySeen_law s (window (a', n))) as HF.
  destruct (FilterBySeen (window (a', n)) s) as [s' [acc|e|]];
    destruct HF as (_ & Hsub & HF); [|done..].
  destruct HF as [-> Hr].
  assert (fresh (seen_view s) (window (a', n)) = take (a' + n - m) (drop m g)) as Hf.
  { rewrite (window_split a' n m) by lia. apply fresh_known.
    - intros id Hid. eapply remembers_seen; [exact Hrem|]. unfold ids in *.
      eapply elem_of_sublist; [exact Hid|]. apply fmap_sublist.
      replace (drop a' (take m g)) with (drop (a' - a) (drop a (take m g)))
        by (rewrite drop_drop; f_equal; lia).
      etrans; [apply sublist_take|apply sublist_drop].
    - intros id Hid Hs. apply (Hseen id Hs). eapply elem_of_sublist; [exact Hid|].
      apply fmap_sublist, sublist_take.
    - eapply sublist_NoDup; [exact Hg|]. apply fmap_sublist. etrans; [apply sublist_take|apply sublist_drop]. }
  rewrite Hf in *. split; [done|]. split.
  - assert (a' < length g) as [x Hx]%lookup_lt_is_Some_2 by lia.
    specialize (Hr _ (MsgId x) Hrem).
    unfold ids in Hr. rewrite <- fmap_app in Hr. fold (ids (drop a (take m g) ++ take (a' + n - m) (drop m g))) in Hr.
    replace (drop a (take m g) ++ take (a' + n - m) (drop m g))
      with (drop a (take (max m (a' + n)) g)) in Hr
      by (rewrite <- (window_app a m (max m (a' + n))) by lia; do 2 f_equal; lia).
    assert (ids (drop a (take (max m (a' + n)) g)) !! (a' - a) = Some (MsgId x)) as Hk.
    { unfold ids. rewrite list_lookup_fmap, lookup_drop, lookup_take_lt by lia.
      replace (a + (a' - a)) with a' by lia. by rewrite Hx. }
    rewrite (keep_from_drop (a' - a) (MsgId x)) in Hr; [|eapply sublist_NoDup; [exact Hg|]|exact Hk].
    + unfold ids in Hr. rewrite <- fmap_drop, drop_drop in Hr.
      replace (a + (a' - a)) with a' in Hr by lia. apply Hr.
      * unfold window; cbn. rewrite (drop_S _ x) by done. destruct n; [lia|done].
      * by eapply list_elem_of_lookup_2.
    + apply fmap_sublist. etrans; [apply sublist_drop|apply sublist_take].
  - intros id Hid Hin. apply Hsub in Hid as [Hid|Hid].
    + apply (Hseen id Hid). eapply elem_of_sublist; [exact Hin|]. apply fmap_sublist.
      replace (drop (max m (a' + n)) g) with (drop (max m (a' + n) - m) (drop m g))
        by (rewrite drop_drop; f_equal; lia). apply sublist_drop.
    + unfold ids in Hg. rewrite <- (take_drop (max m (a' + n)) g), fmap_app in Hg.
      apply NoDup_app in Hg as (_ & Hdis & _). apply (Hdis id); [|done].
      eapply elem_of_sublist; [exact Hid|]. apply fmap_sublist. unfold window; cbn.
      rewrite take_drop_commute. etrans; [apply sublist_drop|].
      replace (take (a' + n) g) with (take (a' + n) (take (max m (a' + n)) g))
        by (rewrite take_take; f_equal; lia). apply sublist_take.
Qed.

Lemma deliver_windows ws a m s :
  m ≤ length g → a ≤ m → advancing a m ws → tracking a m s →
  match deliver (window <$> ws) s with
  | (_, Ok r) => r = take (covered m ws - m) (drop m g)
  | (_, Err _) => True
  | (_, Panic) => False
  end.
Proof using Hg.
  revert a m s. induction ws as [|[a' n] ws IH]; intros a m s Hm Ha Hw Ht.
  { cbn. by rewrite Nat.sub_diag. }
  destruct Hw as (? & ? & ? & Hw). pose proof (filter_window a' n a m s) as Hf.
  rewrite fmap_cons. cbn [deliver covered]. unfold mbind, st_bind.
  destruct (FilterBySeen (window (a', n)) s) as [s' [acc|e|]]; [|done|by apply Hf].
  destruct Hf as [-> Ht']; [done..|].
  specialize (IH a' (max m (a' + n)) s' ltac:(lia) ltac:(lia) Hw Ht').
  pose proof (covered_bounds ws a' (max m (a' + n)) ltac:(lia) Hw).
  destruct (deliver (window <$> ws) s') as [s2 [rest|e|]]; [|done..]. subst rest. cbn.
  replace (a' + n - m) with (max m (a' + n) - m) by lia.
  replace (drop (max m (a' + n)) g) with (drop (max m (a' + n) - m) (drop m g))
    by (rewrite drop_drop; f_equal; lia).
  rewrite take_take_drop. f_equal. lia.
Qed.
End stream.

(** A database that has the two tables and understands the five statements. *)
Record toyDb := Toy { toy_levels : gmap string Z; toy_seen : list string }.

Definition toy_Exec (stmt : string) (args : list sqlval) (db : toyDb) : toyDb * option string :=
  match args with
  | [SqlText level; SqlInt top] =>
      if decide (stmt = replace_level)
      then (Toy (<[level := top]> (toy_levels db)) (toy_seen db), None)
      else (db, Some "syntax error")
  | [SqlText id] =>
      if decide (stmt = insert_seen) then
        if decide (id ∈ toy_seen db) then (db, Some unique_failed)
        else (Toy (toy_levels db) (toy_seen db ++ [id]), None)
      else if decide (stmt = delete_prev)
      then (Toy (toy_levels db) (keep_from id (toy_seen db)), None)
      else (db, Some "syntax error")
  | _ => (db, None)
  end.

#[export] Instance toySqlDb : SqlDb toyDb := {
  db_Exec := toy_Exec;
  db_Query stmt db := inl (inl <$> map_to_list (toy_levels db));
}.

#[export] Instance toyLaws : SqlDbLaws toyDb.
Proof.
  refine {| tbl_levels := toy_levels; tbl_seen := toy_seen |}.
  - done.
  - intros db ps Hps. apply (inj (fmap inl)) in Hps. by subst.
  - intros db id. unfold db_Exec, toySqlDb, toy_Exec. rewrite decide_True by done. by case_decide.
  - intros db id. unfold db_Exec, toySqlDb, toy_Exec. rewrite decide_False by done. by rewrite decide_True.
Defined.

(** C20: No notification is handed on twice. For any [SeenState]
    implementation, batches that are windows of a stream of distinct
    notifications with starts that never go back are delivered, all together
    and as far as no operation fails, exactly once each and in order. *)
Theorem seen_exactly_once {S} `{SeenStateLaws S} (g : list Notification) (ws : list (nat * nat)) (s : S) :
  NoDup (ids g) → advancing g 0 0 ws →
  (∀ id, id ∈ seen_view s → id ∉ ids g) → remembers s [] →
  match deliver (window g <$> ws) s with
  | (_, Ok r) => r = take (covered 0 ws) g
  | (_, Err _) => True
  | (_, Panic) => False
  end.
Proof.
  intros Hg Hw Hs Hr. pose proof (deliver_windows g Hg ws 0 0 s ltac:(lia) ltac:(lia) Hw) as Hd.
  assert (tracking g 0 0 s) as Ht by (split; rewrite ?take_0, ?drop_0; done).
  specialize (Hd Ht). by rewrite drop_0, Nat.sub_0_r in Hd.
Qed.

Lemma seen_exactly_once_witness :
  let n id := {| AppId := "app"; MsgId := id; Payload := "{}" |} in
  let g := [n "a"; n "b"; n "c"; n "d"] in
  deliver (window g <$> [(0, 2); (0, 3); (1, 2); (2, 2)]) (Toy ∅ []) = (Toy ∅ ["c"; "d"], Ok g)
  ∧ match deliver (window g <$> [(0, 2); (0, 3); (1, 2); (2, 2)]) (Toy ∅ []) with
    | (_, Ok r) => r = g | (_, Err _) => True | (_, Panic) => False
    end.
Proof.
  intros n g. split; [vm_compute; reflexivity|].
  apply (seen_exactly_once g [(0, 2); (0, 3); (1, 2); (2, 2)] (Toy ∅ [])).
  - apply (bool_decide_unpack _). by vm_compute.
  - cbn. lia.
  - intros id Hid. by apply elem_of_nil in Hid.
  - apply sublist_nil_l.
Defined.
End SeenProps.
