(* ===== verification/ClientSession.v ===== *)
(** The client's session with the server: [client/session/session.go].

    The methods of [clientSession] are state transformers over the session,
    its [SeenState] (any instance of the interface), the addressee checker,
    and the script of what the environment answers: results of dialing, of
    fetching hosts, of reads and writes, random numbers, and the clock. The
    trace records what the session does to the outside, in order. *)

From S2P Require Import Prelude Protocol SeenState.
Import Msg SeenState.

Module ClientSession.
Local Open Scope Z_scope.

Inductive sessCmd := cmdDisconnect | cmdConnect | cmdResetCookie.

Record BroadcastNotification := { bn_TopLevel : Z; bn_Decoded : list (list (string * jvalue)) }.

(** [serverMsg]: the union of the messages the server sends. *)
Record serverMsg := {
  sm_Type : string;
  sm_ChanId : string;
  sm_AppId : string;
  sm_TopLevel : Z;
  sm_Payloads : list string;
  sm_Notifications : list Notification;
  sm_Reason : string;
  sm_SetCookie : string;
}.

Definition zero_serverMsg : serverMsg :=
  {| sm_Type := ""; sm_ChanId := ""; sm_AppId := ""; sm_TopLevel := 0; sm_Payloads := [];
     sm_Notifications := []; sm_Reason := ""; sm_SetCookie := "" |}.

Definition parseServerAddrSpec (spec : string) : string * list string :=
  if has_prefix spec "http" then (spec, []) else ("", split_on "|"%char spec).

Inductive ClientSessionState :=
| Error | Pristine | Disconnected | Connected | Started | Running | Shutdown | Unknown.
#[export] Instance ClientSessionState_eq_dec : EqDecision ClientSessionState.
Proof. solve_decision. Defined.

Definition ClientSessionState_String (s : ClientSessionState) : string :=
  match s with
  | Error => "Error" | Pristine => "Pristine" | Disconnected => "Disconnected"
  | Connected => "Connected" | Started => "Started" | Running => "Running"
  | Shutdown => "Shutdown" | Unknown => "??? (7)"
  end.

(** What [gethosts] returns. *)
Record Host := { h_Domain : string; h_Hosts : list string }.

(** Messages the client writes. *)
Inductive cmsg := MConnect (m : ConnectMsg) | MPong | MAck (Type_ : string).

Inductive cerr :=
| ErrIO (e : string)
| ErrSeen (e : seen_err)
| ErrHosts (e : string)
| ErrConnect (e : option string)
| ErrServerBroke (reason : string)
| ErrExpectedConnAck (T : string)
| ErrPingInterval (s : string)
| ErrNotPristine.

Inductive cev :=
| Dialing (host : string) (ok : bool)
| WroteVersion
| Wrote (m : cmsg)
| Read (m : serverMsg)
| PutBroadcast (b : BroadcastNotification)
| PutNotification (to : string) (n : Notification)
| Slept (d : Z)
| ConnectionClosed
| RetrierStopped
| RetrierStarted
| LoopStarted.

(** [AddresseeChecking], implemented by the push client. *)
Class AddresseeChecking (C : Type) := {
  StartAddresseeBatch : C → C;
  CheckForAddressee : Notification → C → C * option string;
}.

Section session.
Context {S : Type} `{SeenState S}.
Context {C : Type} `{AddresseeChecking C}.

(** The configuration, with what it takes from libraries. *)
Record config := {
  ExchangeTimeout : Z;
  HostsCachingExpiryTime : Z;
  ExpectAllRepairedTime : Z;
  DeviceId : string;
  Info : gmap string jvalue;
  has_getHost : bool;            (** [sess.getHost != nil] *)
  fallbackHosts : list string;
  redialDelays : list Z;
  has_Protocolator : bool;
  clock : nat → Z;               (** the [n]th reading of the clock *)
  Unmarshal : string → serverMsg → option serverMsg;  (** [json.Unmarshal] into the message *)
  UnmarshalMap : string → option (list (string * jvalue));
  UnmarshalConnAck : string → option ConnAckMsg;
  ParseDuration : string → option Z;
}.
Context (cfg : config).

Record clientSession := Sess {
  SeenState_ : S;
  checker : C;
  deliveryHosts : option (list string);
  deliveryHostsTimestamp : Z;
  lastAttemptTimestamp : Z;
  leftToTry : nat;
  tryHost : Z;
  Connection : bool;             (** [sess.Connection != nil] *)
  ServerName : string;
  pingInterval : Z;
  retrier : bool;                (** [sess.retrier != nil] *)
  cookie : string;
  state : ClientSessionState;
  shouldDelay : bool;
  lastAutoRedial : Z;
  redialDelaysIdx : nat;
  lastConn : bool;
  stopped : bool;                (** [stopCh] closed *)
  (* the environment's script *)
  ticks : nat;
  dials : list (option string);
  gets : list (Host + string);
  reads : list (string + string);
  writes : list (option string);
  rands : list Z;
  trace : list cev;
}.

Abbreviation M := (st clientSession cerr).

Definition modify (f : clientSession → clientSession) : M unit := λ s, (f s, Ok ()).
Definition get {A} (f : clientSession → A) : M A := λ s, (s, Ok (f s)).

(** Field updates. *)
Definition upd_SeenState x s :=
  Sess x (checker s) (deliveryHosts s) (deliveryHostsTimestamp s) (lastAttemptTimestamp s)
    (leftToTry s) (tryHost s) (Connection s) (ServerName s) (pingInterval s) (retrier s)
    (cookie s) (state s) (shouldDelay s) (lastAutoRedial s) (redialDelaysIdx s) (lastConn
    s) (stopped s) (ticks s) (dials s) (gets s) (reads s) (writes s) (rands s) (trace s).
Definition upd_checker x s :=
  Sess (SeenState_ s) x (deliveryHosts s) (deliveryHostsTimestamp s) (lastAttemptTimestamp
    s) (leftToTry s) (tryHost s) (Connection s) (ServerName s) (pingInterval s) (retrier
    s) (cookie s) (state s) (shouldDelay s) (lastAutoRedial s) (redialDelaysIdx s)
    (lastConn s) (stopped s) (ticks s) (dials s) (gets s) (reads s) (writes s) (rands s)
    (trace s).
Definition upd_deliveryHosts x s :=
  Sess (SeenState_ s) (checker s) x (deliveryHostsTimestamp s) (lastAttemptTimestamp s)
    (leftToTry s) (tryHost s) (Connection s) (ServerName s) (pingInterval s) (retrier s)
    (cookie s) (state s) (shouldDelay s) (lastAutoRedial s) (redialDelaysIdx s) (lastConn
    s) (stopped s) (ticks s) (dials s) (gets s) (reads s) (writes s) (rands s) (trace s).
Definition upd_deliveryHostsTimestamp x s :=
  Sess (SeenState_ s) (checker s) (deliveryHosts s) x (lastAttemptTimestamp s) (leftToTry
    s) (tryHost s) (Connection s) (ServerName s) (pingInterval s) (retrier s) (cookie s)
    (state s) (shouldDelay s) (lastAutoRedial s) (redialDelaysIdx s) (lastConn s) (stopped
    s) (ticks s) (dials s) (gets s) (reads s) (writes s) (rands s) (trace s).
Definition upd_lastAttemptTimestamp x s :=
  Sess (SeenState_ s) (checker s) (deliveryHosts s) (deliveryHostsTimestamp s) x
    (leftToTry s) (tryHost s) (Connection s) (ServerName s) (pingInterval s) (retrier s)
    (cookie s) (state s) (shouldDelay s) (lastAutoRedial s) (redialDelaysIdx s) (lastConn
    s) (stopped s) (ticks s) (dials s) (gets s) (reads s) (writes s) (rands s) (trace s).
Definition upd_leftToTry x s :=
  Sess (SeenState_ s) (checker s) (deliveryHosts s) (deliveryHostsTimestamp s)
    (lastAttemptTimestamp s) x (tryHost s) (Connection s) (ServerName s) (pingInterval s)
    (retrier s) (cookie s) (state s) (shouldDelay s) (lastAutoRedial s) (redialDelaysIdx
    s) (lastConn s) (stopped s) (ticks s) (dials s) (gets s) (reads s) (writes s) (rands
    s) (trace s).
Definition upd_tryHost x s :=
  Sess (SeenState_ s) (checker s) (deliveryHosts s) (deliveryHostsTimestamp s)
    (lastAttemptTimestamp s) (leftToTry s) x (Connection s) (ServerName s) (pingInterval
    s) (retrier s) (cookie s) (state s) (shouldDelay s) (lastAutoRedial s)
    (redialDelaysIdx s) (lastConn s) (stopped s) (ticks s) (dials s) (gets s) (reads s)
    (writes s) (rands s) (trace s).
Definition upd_Connection x s :=
  Sess (SeenState_ s) (checker s) (deliveryHosts s) (deliveryHostsTimestamp s)
    (lastAttemptTimestamp s) (leftToTry s) (tryHost s) x (ServerName s) (pingInterval s)
    (retrier s) (cookie s) (state s) (shouldDelay s) (lastAutoRedial s) (redialDelaysIdx
    s) (lastConn s) (stopped s) (ticks s) (dials s) (gets s) (reads s) (writes s) (rands
    s) (trace s).
Definition upd_ServerName x s :=
  Sess (SeenState_ s) (checker s) (deliveryHosts s) (deliveryHostsTimestamp s)
    (lastAttemptTimestamp s) (leftToTry s) (tryHost s) (Connection s) x (pingInterval s)
    (retrier s) (cookie s) (state s) (shouldDelay s) (lastAutoRedial s) (redialDelaysIdx
    s) (lastConn s) (stopped s) (ticks s) (dials s) (gets s) (reads s) (writes s) (rands
    s) (trace s).
Definition upd_pingInterval x s :=
  Sess (SeenState_ s) (checker s) (deliveryHosts s) (deliveryHostsTimestamp s)
    (lastAttemptTimestamp s) (leftToTry s) (tryHost s) (Connection s) (ServerName s) x
    (retrier s) (cookie s) (state s) (shouldDelay s) (lastAutoRedial s) (redialDelaysIdx
    s) (lastConn s) (stopped s) (ticks s) (dials s) (gets s) (reads s) (writes s) (rands
    s) (trace s).
Definition upd_retrier x s :=
  Sess (SeenState_ s) (checker s) (deliveryHosts s) (deliveryHostsTimestamp s)
    (lastAttemptTimestamp s) (leftToTry s) (tryHost s) (Connection s) (ServerName s)
    (pingInterval s) x (cookie s) (state s) (shouldDelay s) (lastAutoRedial s)
    (redialDelaysIdx s) (lastConn s) (stopped s) (ticks s) (dials s) (gets s) (reads s)
    (writes s) (rands s) (trace s).
Definition upd_cookie x s :=
  Sess (SeenState_ s) (checker s) (deliveryHosts s) (deliveryHostsTimestamp s)
    (lastAttemptTimestamp s) (leftToTry s) (tryHost s) (Connection s) (ServerName s)
    (pingInterval s) (retrier s) x (state s) (shouldDelay s) (lastAutoRedial s)
    (redialDelaysIdx s) (lastConn s) (stopped s) (ticks s) (dials s) (gets s) (reads s)
    (writes s) (rands s) (trace s).
Definition upd_state x s :=
  Sess (SeenState_ s) (checker s) (deliveryHosts s) (deliveryHostsTimestamp s)
    (lastAttemptTimestamp s) (leftToTry s) (tryHost s) (Connection s) (ServerName s)
    (pingInterval s) (retrier s) (cookie s) x (shouldDelay s) (lastAutoRedial s)
    (redialDelaysIdx s) (lastConn s) (stopped s) (ticks s) (dials s) (gets s) (reads s)
    (writes s) (rands s) (trace s).
Definition upd_shouldDelay x s :=
  Sess (SeenState_ s) (checker s) (deliveryHosts s) (deliveryHostsTimestamp s)
    (lastAttemptTimestamp s) (leftToTry s) (tryHost s) (Connection s) (ServerName s)
    (pingInterval s) (retrier s) (cookie s) (state s) x (lastAutoRedial s)
    (redialDelaysIdx s) (lastConn s) (stopped s) (ticks s) (dials s) (gets s) (reads s)
    (writes s) (rands s) (trace s).
Definition upd_lastAutoRedial x s :=
  Sess (SeenState_ s) (checker s) (deliveryHosts s) (deliveryHostsTimestamp s)
    (lastAttemptTimestamp s) (leftToTry s) (tryHost s) (Connection s) (ServerName s)
    (pingInterval s) (retrier s) (cookie s) (state s) (shouldDelay s) x (redialDelaysIdx
    s) (lastConn s) (stopped s) (ticks s) (dials s) (gets s) (reads s) (writes s) (rands
    s) (trace s).
Definition upd_redialDelaysIdx x s :=
  Sess (SeenState_ s) (checker s) (deliveryHosts s) (deliveryHostsTimestamp s)
    (lastAttemptTimestamp s) (leftToTry s) (tryHost s) (Connection s) (ServerName s)
    (pingInterval s) (retrier s) (cookie s) (state s) (shouldDelay s) (lastAutoRedial s) x
    (lastConn s) (stopped s) (ticks s) (dials s) (gets s) (reads s) (writes s) (rands s)
    (trace s).
Definition upd_lastConn x s :=
  Sess (SeenState_ s) (checker s) (deliveryHosts s) (deliveryHostsTimestamp s)
    (lastAttemptTimestamp s) (leftToTry s) (tryHost s) (Connection s) (ServerName s)
    (pingInterval s) (retrier s) (cookie s) (state s) (shouldDelay s) (lastAutoRedial s)
    (redialDelaysIdx s) x (stopped s) (ticks s) (dials s) (gets s) (reads s) (writes s)
    (rands s) (trace s).
Definition upd_stopped x s :=
  Sess (SeenState_ s) (checker s) (deliveryHosts s) (deliveryHostsTimestamp s)
    (lastAttemptTimestamp s) (leftToTry s) (tryHost s) (Connection s) (ServerName s)
    (pingInterval s) (retrier s) (cookie s) (state s) (shouldDelay s) (lastAutoRedial s)
    (redialDelaysIdx s) (lastConn s) x (ticks s) (dials s) (gets s) (reads s) (writes s)
    (rands s) (trace s).
Definition upd_ticks x s :=
  Sess (SeenState_ s) (checker s) (deliveryHosts s) (deliveryHostsTimestamp s)
    (lastAttemptTimestamp s) (leftToTry s) (tryHost s) (Connection s) (ServerName s)
    (pingInterval s) (retrier s) (cookie s) (state s) (shouldDelay s) (lastAutoRedial s)
    (redialDelaysIdx s) (lastConn s) (stopped s) x (dials s) (gets s) (reads s) (writes s)
    (rands s) (trace s).
Definition upd_dials x s :=
  Sess (SeenState_ s) (checker s) (deliveryHosts s) (deliveryHostsTimestamp s)
    (lastAttemptTimestamp s) (leftToTry s) (tryHost s) (Connection s) (ServerName s)
    (pingInterval s) (retrier s) (cookie s) (state s) (shouldDelay s) (lastAutoRedial s)
    (redialDelaysIdx s) (lastConn s) (stopped s) (ticks s) x (gets s) (reads s) (writes s)
    (rands s) (trace s).
Definition upd_gets x s :=
  Sess (SeenState_ s) (checker s) (deliveryHosts s) (deliveryHostsTimestamp s)
    (lastAttemptTimestamp s) (leftToTry s) (tryHost s) (Connection s) (ServerName s)
    (pingInterval s) (retrier s) (cookie s) (state s) (shouldDelay s) (lastAutoRedial s)
    (redialDelaysIdx s) (lastConn s) (stopped s) (ticks s) (dials s) x (reads s) (writes
    s) (rands s) (trace s).
Definition upd_reads x s :=
  Sess (SeenState_ s) (checker s) (deliveryHosts s) (deliveryHostsTimestamp s)
    (lastAttemptTimestamp s) (leftToTry s) (tryHost s) (Connection s) (ServerName s)
    (pingInterval s) (retrier s) (cookie s) (state s) (shouldDelay s) (lastAutoRedial s)
    (redialDelaysIdx s) (lastConn s) (stopped s) (ticks s) (dials s) (gets s) x (writes s)
    (rands s) (trace s).
Definition upd_writes x s :=
  Sess (SeenState_ s) (checker s) (deliveryHosts s) (deliveryHostsTimestamp s)
    (lastAttemptTimestamp s) (leftToTry s) (tryHost s) (Connection s) (ServerName s)
    (pingInterval s) (retrier s) (cookie s) (state s) (shouldDelay s) (lastAutoRedial s)
    (redialDelaysIdx s) (lastConn s) (stopped s) (ticks s) (dials s) (gets s) (reads s) x
    (rands s) (trace s).
Definition upd_rands x s :=
  Sess (SeenState_ s) (checker s) (deliveryHosts s) (deliveryHostsTimestamp s)
    (lastAttemptTimestamp s) (leftToTry s) (tryHost s) (Connection s) (ServerName s)
    (pingInterval s) (retrier s) (cookie s) (state s) (shouldDelay s) (lastAutoRedial s)
    (redialDelaysIdx s) (lastConn s) (stopped s) (ticks s) (dials s) (gets s) (reads s)
    (writes s) x (trace s).
Definition upd_trace x s :=
  Sess (SeenState_ s) (checker s) (deliveryHosts s) (deliveryHostsTimestamp s)
    (lastAttemptTimestamp s) (leftToTry s) (tryHost s) (Connection s) (ServerName s)
    (pingInterval s) (retrier s) (cookie s) (state s) (shouldDelay s) (lastAutoRedial s)
    (redialDelaysIdx s) (lastConn s) (stopped s) (ticks s) (dials s) (gets s) (reads s)
    (writes s) (rands s) x.

Definition emit (e : cev) : M unit := modify (λ s, upd_trace (trace s ++ [e]) s).

(** [time.Now()] *)
Definition time_Now : M Z :=
  n ← get ticks; modify (upd_ticks (Datatypes.S n));; mret (clock cfg n).

(** The next answer of the script to a write or a deadline setting. *)
Definition next_write : M (option string) :=
  ws ← get writes; modify (upd_writes (tail ws));; mret (default None (head ws)).

Definition conn_op (e : list cev) : M unit :=
  r ← next_write;
  match r with
  | Some err => st_err (ErrIO err)
  | None => modify (λ s, upd_trace (trace s ++ e) s)
  end.

(** [sess.proto.SetDeadline(time.Now().Add(d))]: it panics when the deadline
    cannot be set. *)
Definition SetDeadline : M unit :=
  time_Now;;
  r ← next_write;
  match r with Some _ => st_panic | None => mret () end.

(** [sess.proto.WriteMessage] *)
Definition WriteMessage (m : cmsg) : M unit := conn_op [Wrote m].

(** The next frame; without one the connection is gone. *)
Definition read_frame : M string :=
  rs ← get reads;
  match rs with
  | [] => st_err (ErrIO "EOF")
  | inr e :: rs => modify (upd_reads rs);; st_err (ErrIO e)
  | inl frame :: rs => modify (upd_reads rs);; mret frame
  end.

(** [sess.proto.ReadMessage(&recv)] *)
Definition ReadMessage (recv : serverMsg) : M serverMsg :=
  frame ← read_frame;
  match Unmarshal cfg frame recv with
  | None => st_err (ErrIO "unmarshal")
  | Some m => emit (Read m);; mret m
  end.

Definition in_seen {A} (m : st S seen_err A) : M A := λ s,
  match m (SeenState_ s) with
  | (ss, Ok a) => (upd_SeenState ss s, Ok a)
  | (ss, Err e) => (upd_SeenState ss s, Err (ErrSeen e))
  | (ss, Panic) => (upd_SeenState ss s, Panic)
  end.

(** [sess.setState(Error); return err] *)
Definition fail {A} (e : cerr) : M A := modify (upd_state Error);; st_err e.
Definition or_fail {A} (m : M A) : M A :=
  r ← st_try m; match r with inl a => mret a | inr e => fail e end.

Definition setState (st : ClientSessionState) : M unit := modify (upd_state st).
Definition setShouldDelay : M unit := modify (upd_shouldDelay true).
Definition clearShouldDelay : M unit := modify (upd_shouldDelay false).
Definition setConnection (conn : bool) : M unit := modify (upd_Connection conn).
Definition setCookie (c : string) : M unit := modify (upd_cookie c).

(** ** Delays *)

(** [Jitter]: [rand.Int63n(2*n+1) - n], which panics on a bound that is not
    positive. *)
Definition Jitter (spread : Z) : M Z :=
  if decide (spread < 0) then st_panic
  else
    let bound := i64 (2 * spread + 1) in
    if decide (bound ≤ 0) then st_panic
    else
      rs ← get rands; modify (upd_rands (tail rs));;
      mret (default 0 (head rs) `mod` bound - spread).

Definition redialDelay : M Z :=
  sd ← get shouldDelay;
  if (sd : bool) then
    idx ← get redialDelaysIdx;
    match redialDelays cfg !! idx with
    | None => st_panic
    | Some t =>
        (if decide (idx + 1 < length (redialDelays cfg))%nat
         then modify (upd_redialDelaysIdx (Datatypes.S idx)) else mret ());;
        j ← Jitter t;
        mret (i64 (t + j))
    end
  else modify (upd_redialDelaysIdx 0%nat);; mret 0.

(** ** Hosts *)
Definition getHosts : M unit :=
  if has_getHost cfg then
    hosts ← get deliveryHosts; stamp ← get deliveryHostsTimestamp;
    cached ← match hosts with
             | None => mret false
             | Some _ => now ← time_Now; mret (bool_decide (now - stamp < HostsCachingExpiryTime cfg))
             end;
    if (cached : bool) then mret ()
    else
      gs ← get gets; modify (upd_gets (tail gs));;
      match default (inr "no answer") (head gs) with
      | inr e => fail (ErrHosts e)
      | inl host =>
          now ← time_Now;
          modify (λ s, upd_ServerName (h_Domain host)
            (upd_deliveryHosts (Some (h_Hosts host)) (upd_deliveryHostsTimestamp now s)))
      end
  else modify (upd_deliveryHosts (Some (fallbackHosts cfg))).

Definition resetHosts : M unit := modify (upd_deliveryHosts None).

Definition hosts (s : clientSession) : list string := default [] (deliveryHosts s).

Definition startConnectionAttempt : M unit :=
  now ← time_Now; last ← get lastAttemptTimestamp;
  (if decide (now - last > ExpectAllRepairedTime cfg) then modify (upd_tryHost 0) else mret ());;
  n ← get (λ s, length (hosts s));
  modify (upd_leftToTry n);;
  if decide (n = 0%nat) then st_panic
  else now ← time_Now; modify (upd_lastAttemptTimestamp now).

(** [sess.deliveryHosts[sess.tryHost]] panics out of range. *)
Definition nextHostToTry : M string :=
  k ← get leftToTry;
  match k with
  | O => mret ""
  | Datatypes.S k =>
      try ← get tryHost; hs ← get hosts;
      if decide (try < 0) then st_panic
      else match hs !! Z.to_nat try with
           | None => st_panic
           | Some res =>
               modify (upd_tryHost (Z.rem (try + 1) (Z.of_nat (length hs))));;
               modify (upd_leftToTry k);; mret res
           end
  end.

Definition started : M unit :=
  modify (λ s, upd_tryHost (tryHost s - 1) s);;
  t ← get tryHost; n ← get (λ s, length (hosts s));
  (if decide (t = -1) then modify (upd_tryHost (Z.of_nat n - 1)) else mret ());;
  setState Started.

(** [net.DialTimeout] *)
Definition DialTimeout (host : string) : M (option string) :=
  ds ← get dials; modify (upd_dials (tail ds));;
  let err := default None (head ds) in
  emit (Dialing host (bool_decide (err = None)));; mret err.

(** The loop of [connect]; [fuel] rounds are left. An empty host name in the
    list ends it like the end of the list. *)
Fixpoint connect_loop (fuel : nat) (err : option string) : M unit :=
  host ← nextHostToTry;
  if decide (host = "") then fail (ErrConnect err)
  else
    e ← DialTimeout host;
    match e, fuel with
    | None, _ => mret ()
    | Some e, Datatypes.S fuel => connect_loop fuel (Some e)
    | Some _, O => st_panic
    end.

Definition connect : M unit :=
  setShouldDelay;; startConnectionAttempt;;
  fuel ← get leftToTry;
  connect_loop fuel None;;
  setConnection true;; setState Connected.

(** ** Redialing and closing *)
Definition stopRedial : M unit :=
  r ← get retrier;
  if (r : bool) then emit RetrierStopped;; modify (upd_retrier false) else mret ().

(** The new redialer runs [Dial] in a goroutine of its own. *)
Definition autoRedial : M unit :=
  stopRedial;;
  now ← time_Now; last ← get lastAutoRedial;
  (if decide (now - last < 2 * 1000000000) then setShouldDelay else mret ());;
  delay ← redialDelay;
  emit (Slept delay);;
  r ← get retrier;
  if (r : bool) then st_panic
  else
    modify (upd_retrier true);;
    now ← time_Now; modify (upd_lastAutoRedial now);;
    emit RetrierStarted.

Definition closeConnection : M unit :=
  c ← get Connection;
  if (c : bool) then emit ConnectionClosed;; setConnection false else mret ().

Definition doClose (resetCookie : bool) : M unit :=
  (if resetCookie then setCookie "" else mret ());; closeConnection;; setState Disconnected.

Definition resetCookie : M unit := stopRedial;; doClose true.

(** ** Messages from the server *)
Definition handlePing : M unit := or_fail (WriteMessage MPong);; clearShouldDelay.

Definition decodeBroadcast (bcast : serverMsg) : BroadcastNotification :=
  {| bn_TopLevel := sm_TopLevel bcast; bn_Decoded := omap (UnmarshalMap cfg) (sm_Payloads bcast) |}.

(** The negative acknowledgement's own error is ignored. *)
Definition fail_nak {A} (e : cerr) : M A :=
  setState Error;; st_try (E' := cerr) (WriteMessage (MAck "nak"));; st_err e.

Definition handleBroadcast (bcast : serverMsg) : M unit :=
  r ← st_try (in_seen (SetLevel (sm_ChanId bcast) (sm_TopLevel bcast)));
  match r with
  | inr e => fail_nak e
  | inl _ =>
      or_fail (WriteMessage (MAck "ack"));;
      clearShouldDelay;;
      if decide (sm_ChanId bcast = SystemChannelId) then emit (PutBroadcast (decodeBroadcast bcast))
      else mret ()
  end.

Definition CheckForAddressee_ (n : Notification) : M (option string) := λ s,
  let '(c, to) := CheckForAddressee n (checker s) in (upd_checker c s, Ok to).

Fixpoint forward (notifs : list Notification) : M unit :=
  match notifs with
  | [] => mret ()
  | n :: notifs =>
      to ← CheckForAddressee_ n;
      match to with None => mret () | Some to => emit (PutNotification to n) end;;
      forward notifs
  end.

Definition handleNotifications (ucast : serverMsg) : M unit :=
  r ← st_try (in_seen (FilterBySeen (sm_Notifications ucast)));
  match r with
  | inr e => fail_nak e
  | inl notifs =>
      or_fail (WriteMessage (MAck "ack"));;
      clearShouldDelay;;
      modify (λ s, upd_checker (StartAddresseeBatch (checker s)) s);;
      forward notifs
  end.

Definition handleConnBroken (connBroken : serverMsg) : M unit :=
  setState Error;;
  (if decide (sm_Reason connBroken = BrokenHostMismatch) then resetHosts else mret ());;
  st_err (ErrServerBroke (sm_Reason connBroken)).

Definition handleSetParams (setParams : serverMsg) : M unit :=
  if decide (sm_SetCookie setParams = "") then mret () else setCookie (sm_SetCookie setParams).

(** The switch of [loop]; warnings are only logged, other types ignored. *)
Definition dispatch (recv : serverMsg) : M unit :=
  let T := sm_Type recv in
  if decide (T = "ping") then handlePing
  else if decide (T = "broadcast") then handleBroadcast recv
  else if decide (T = "notifications") then handleNotifications recv
  else if decide (T = "connbroken") then handleConnBroken recv
  else if decide (T = "setparams") then handleSetParams recv
  else mret ().

(** [recv] is one variable for all the rounds. Every round consumes a frame
    or ends the loop. *)
Fixpoint loop_rounds (fuel : nat) (recv : serverMsg) : M unit :=
  match fuel with
  | O => st_panic
  | Datatypes.S fuel =>
      SetDeadline;;
      recv ← or_fail (ReadMessage recv);
      dispatch recv;;
      loop_rounds fuel recv
  end.

Definition loop : M unit :=
  setState Running;;
  fuel ← get (λ s, Datatypes.S (length (reads s)));
  loop_rounds fuel zero_serverMsg.

(** ** Starting *)
Definition start : M unit :=
  conn ← get Connection;
  if negb conn then st_panic
  else
    time_Now;; or_fail (conn_op []);;
    or_fail (conn_op [WroteVersion]);;
    SetDeadline;;
    levels ← or_fail (in_seen GetAllLevels);
    c ← get cookie;
    or_fail (WriteMessage (MConnect
      {| cm_Type := "connect"; cm_ClientVer := ""; cm_DeviceId := DeviceId cfg;
         cm_Authorization := ""; cm_Cookie := c; cm_Info := Info cfg; cm_Levels := levels |}));;
    frame ← or_fail read_frame;
    match UnmarshalConnAck cfg frame with
    | None => fail (ErrIO "unmarshal")
    | Some connAck =>
        if decide (ca_Type connAck = "connack") then
          match ParseDuration cfg (ca_PingInterval connAck) with
          | None => fail (ErrPingInterval (ca_PingInterval connAck))
          | Some d => modify (upd_pingInterval d);; started
          end
        else fail (ErrExpectedConnAck (ca_Type connAck))
    end.

Definition run (closer : bool → M unit) (hostGetter connecter starter : M unit) : M unit :=
  closer false;; hostGetter;; connecter;; starter;; emit LoopStarted.

Definition Dial : M unit :=
  if negb (has_Protocolator cfg) then st_panic else run doClose getHosts connect start.

(** ** The keeper *)
Definition shutdown : M unit := stopRedial;; closeConnection.

Definition handleConn (hasConn : bool) : M unit :=
  modify (upd_lastConn hasConn);;
  if hasConn then autoRedial else stopRedial;; doClose false.

Definition handleErr (err : cerr) : M unit :=
  s ← get state; lc ← get lastConn;
  if bool_decide (s = Error) && lc then autoRedial else mret ().

Inductive keep_event := KCmd (cmd : sessCmd) | KStop | KDone (n : Z) | KErr (err : cerr).

(** One round of [doKeepConnection]'s select; [false] ends it. *)
Definition keep_round (ev : keep_event) : M bool :=
  match ev with
  | KCmd cmdConnect => handleConn true;; mret true
  | KCmd cmdDisconnect => handleConn false;; mret true
  | KCmd cmdResetCookie => resetCookie;; mret true
  | KStop => shutdown;; mret false
  | KDone _ => mret true
  | KErr err => handleErr err;; mret true
  end.

Fixpoint doKeepConnection (evs : list keep_event) : M unit :=
  match evs with
  | [] => mret ()
  | ev :: evs => go ← keep_round ev; if (go : bool) then doKeepConnection evs else mret ()
  end.

Definition KeepConnection : M unit :=
  s ← get state;
  if decide (s = Pristine) then setState Disconnected else st_err ErrNotPristine.

(** Closing [stopCh] twice panics. *)
Definition StopKeepConnection : M unit :=
  setState Shutdown;;
  c ← get stopped;
  if (c : bool) then st_panic else modify (upd_stopped true).

Definition HasConnectivity (hasConn : bool) : keep_event :=
  KCmd (if hasConn then cmdConnect else cmdDisconnect).

Definition ResetCookie : keep_event := KCmd cmdResetCookie.

(** ** Construction *)

(** What [crypto/x509] makes of the configured PEM: whether the pool takes it,
    the parsed certificate's DNS names and common name. *)
Record pem_info := {
  pem_appended : bool;
  pem_cert : option (list string * string);
}.

Definition server_name (cert : list string * string) : string :=
  match cert.1 with name :: _ => name | [] => cert.2 end.

(** The part of the configuration [NewSession] takes from the address. *)
Definition with_address (serverAddrSpec : string) (conf : config) : config :=
  let '(hostsEndpoint, fallback) := parseServerAddrSpec serverAddrSpec in
  {| ExchangeTimeout := ExchangeTimeout conf; HostsCachingExpiryTime := HostsCachingExpiryTime conf;
     ExpectAllRepairedTime := ExpectAllRepairedTime conf; DeviceId := DeviceId conf; Info := Info conf;
     has_getHost := bool_decide (hostsEndpoint ≠ ""); fallbackHosts := fallback;
     redialDelays := redialDelays conf; has_Protocolator := true; clock := clock conf;
     Unmarshal := Unmarshal conf; UnmarshalMap := UnmarshalMap conf;
     UnmarshalConnAck := UnmarshalConnAck conf; ParseDuration := ParseDuration conf |}.

Definition NewSession (seenState : S + seen_err) (ck : C) (pem : option pem_info)
    : outcome cerr clientSession :=
  match seenState with
  | inr err => Err (ErrSeen err)
  | inl ss =>
      let sess name :=
        Sess ss ck None 0 0 0 0 false name 0 false "" Pristine false 0 0 false false 0 [] [] [] [] [] [] in
      match pem with
      | None => Ok (sess "")
      | Some p =>
          if pem_appended p then
            match pem_cert p with
            | None => Panic (* unexpected error reparsing certificate *)
            | Some cert => Ok (sess (server_name cert))
            end
          else Err (ErrIO "could not parse certificate")
      end
  end.
End session.
End ClientSession.

(** ** The loop answers every message *)
Module ClientLoop.
Import ClientSession SeenSpec.
Local Open Scope Z_scope.

Section conform.
Context {S : Type} `{SeenStateLaws S}.
Context {C : Type} `{AddresseeChecking C}.
Context (cfg : config).

Abbreviation sess := (@clientSession S C).

(** What is handed on of a batch, by a checker [ck] that becomes [ck']: the
    notifications it names an application for, in their order. *)
Inductive hands_on : C → list Notification → C → list cev → Prop :=
| hands_on_nil ck : hands_on ck [] ck []
| hands_on_handed ck ck1 ck' to n ns tr :
    CheckForAddressee n ck = (ck1, Some to) → hands_on ck1 ns ck' tr →
    hands_on ck (n :: ns) ck' (PutNotification to n :: tr)
| hands_on_refused ck ck1 ck' n ns tr :
    CheckForAddressee n ck = (ck1, None) → hands_on ck1 ns ck' tr → hands_on ck (n :: ns) ck' tr.

(** A broadcast's level is recorded, a batch is recorded as seen and filtered
    by what was, or the record fails. *)
Definition records_level (m : serverMsg) (ss ss' : S) : Prop :=
  SetLevel (sm_ChanId m) (sm_TopLevel m) ss = (ss', Ok ()) ∧
  level_view ss' = <[sm_ChanId m := sm_TopLevel m]> (level_view ss) ∧ seen_view ss' = seen_view ss.
Definition records_seen (m : serverMsg) (ss ss' : S) (ns : list Notification) : Prop :=
  FilterBySeen (sm_Notifications m) ss = (ss', Ok ns) ∧
  ns = fresh (seen_view ss) (sm_Notifications m) ∧ level_view ss' = level_view ss.
Definition not_recorded (m : serverMsg) (ss ss' : S) : Prop :=
  level_view ss' = level_view ss ∧ ∃ e,
  sm_Type m = "broadcast" ∧ SetLevel (sm_ChanId m) (sm_TopLevel m) ss = (ss', Err e) ∨
  sm_Type m = "notifications" ∧ FilterBySeen (sm_Notifications m) ss = (ss', Err e).

(** What a handled message [m] makes the session do, with the record of what
    was seen and the checker of applications before and after. *)
Inductive handled (m : serverMsg) (ss : S) (ck : C) : S → C → list cev → Prop :=
| h_ping : sm_Type m = "ping" → handled m ss ck ss ck [Wrote MPong]
| h_system ss' :
    sm_Type m = "broadcast" → sm_ChanId m = SystemChannelId → records_level m ss ss' →
    handled m ss ck ss' ck [Wrote (MAck "ack"); PutBroadcast (decodeBroadcast cfg m)]
| h_channel ss' :
    sm_Type m = "broadcast" → sm_ChanId m ≠ SystemChannelId → records_level m ss ss' →
    handled m ss ck ss' ck [Wrote (MAck "ack")]
| h_notifications ss' ns ck' tr :
    sm_Type m = "notifications" → records_seen m ss ss' ns → hands_on (StartAddresseeBatch ck) ns ck' tr →
    handled m ss ck ss' ck' (Wrote (MAck "ack") :: tr)
| h_other :
    sm_Type m ∉ ["ping"; "broadcast"; "notifications"; "connbroken"] → handled m ss ck ss ck [].

(** A message that ends the loop: no positive acknowledgement, nothing handed
    on. What was recorded may be left unacknowledged. *)
Inductive aborted (m : serverMsg) (ss : S) : S → list cev → Prop :=
| a_pong : sm_Type m = "ping" → aborted m ss ss []
| a_level ss' : sm_Type m = "broadcast" → records_level m ss ss' → aborted m ss ss' []
| a_seen ss' ns : sm_Type m = "notifications" → records_seen m ss ss' ns → aborted m ss ss' []
| a_nak ss' tr : not_recorded m ss ss' → tr = [] ∨ tr = [Wrote (MAck "nak")] → aborted m ss ss' tr
| a_broken : sm_Type m = "connbroken" → aborted m ss ss [].

Inductive conforms (ss : S) (ck : C) : S → C → list cev → Prop :=
| c_end : conforms ss ck ss ck []
| c_aborted m ss' tr : aborted m ss ss' tr → conforms ss ck ss' ck (Read m :: tr)
| c_handled m ss' ck' ss'' ck'' tr rest :
    handled m ss ck ss' ck' tr → conforms ss' ck' ss'' ck'' rest → conforms ss ck ss'' ck'' (Read m :: tr ++ rest).

Lemma forward_spec ns (s : sess) :
  ∃ s' tr, forward ns s = (s', Ok ()) ∧ trace s' = trace s ++ tr ∧ hands_on (checker s) ns (checker s') tr ∧
    SeenState_ s' = SeenState_ s ∧ reads s' = reads s ∧ writes s' = writes s.
Proof.
  revert s. induction ns as [|n ns IH]; intros s.
  { exists s, []. cbn. rewrite app_nil_r. split_and!; try done. constructor. }
  cbn. unfold mbind, st_bind, CheckForAddressee_.
  destruct (CheckForAddressee n (checker s)) as [c [to|]] eqn:Ec; cbn.
  - destruct (IH (upd_trace (trace s ++ [PutNotification to n]) (upd_checker c s)))
      as (s' & tr & -> & Ht & Hp & HS & Hr & Hw). cbn in *.
    exists s', (PutNotification to n :: tr). rewrite Ht, <- app_assoc.
    split_and!; try done. by eapply hands_on_handed.
  - destruct (IH (upd_checker c s)) as (s' & tr & -> & Ht & Hp & HS & Hr & Hw).
    exists s', tr. split_and!; try done. by eapply hands_on_refused.
Qed.

Lemma tail_subseteq {A} (l : list A) : tail l ⊆ l.
Proof. destruct l; [done|]. cbn. intros x. apply list_elem_of_further. Qed.

(** The result of a handler, seen from outside. *)
Definition round_ok (m : serverMsg) (s : sess) (r : sess * outcome cerr ()) : Prop :=
  reads r.1 = reads s ∧ writes r.1 ⊆ writes s ∧ ∃ tr, trace r.1 = trace s ++ tr ∧
  match r.2 with
  | Ok _ => handled m (SeenState_ s) (checker s) (SeenState_ r.1) (checker r.1) tr
  | Err _ => state r.1 = Error ∧ checker r.1 = checker s ∧ aborted m (SeenState_ s) (SeenState_ r.1) tr
  | Panic => False
  end.

Lemma conn_op_cases e (s : sess) :
  (let s1 := upd_writes (tail (writes s)) s in conn_op e s = (upd_trace (trace s ++ e) s1, Ok ())) ∨
  ∃ err, conn_op e s = (upd_writes (tail (writes s)) s, Err (ErrIO err)).
Proof.
  unfold conn_op, next_write, mbind, st_bind, get, modify; cbn.
  destruct (writes s) as [|[err|] ws]; cbn; [by left|right; by eexists|by left].
Qed.

Lemma handlePing_spec m (s : sess) : sm_Type m = "ping" → round_ok m s (handlePing s).
Proof.
  intros HT. unfold handlePing, or_fail, WriteMessage, fail, mbind, st_bind, st_try, clearShouldDelay, setState, modify.
  destruct (conn_op_cases [Wrote MPong] s) as [->|[err ->]]; cbn; (split; [done|]); (split; [apply tail_subseteq|]).
  - eexists [_]. split; [done|]. by apply h_ping.
  - exists []. rewrite app_nil_r. split; [done|]. split; [done|]. split; [done|]. by apply a_pong.
Qed.

Lemma fail_nak_spec {A} e (s : sess) :
  ∃ s' tr, fail_nak (A := A) e s = (s', Err e) ∧ reads s' = reads s ∧ SeenState_ s' = SeenState_ s ∧
    state s' = Error ∧ checker s' = checker s ∧ writes s' ⊆ writes s ∧
    trace s' = trace s ++ tr ∧ (tr = [] ∨ tr = [Wrote (MAck "nak")]).
Proof.
  unfold fail_nak, WriteMessage, mbind, st_bind, setState, modify, st_try; cbn.
  destruct (conn_op_cases [Wrote (MAck "nak")] (upd_state Error s)) as [->|[err ->]]; cbn.
  - eexists _, [_]. split_and!; try done; [apply tail_subseteq|by right].
  - eexists _, []. rewrite app_nil_r. split_and!; try done; [apply tail_subseteq|by left].
Qed.

Lemma handleBroadcast_spec m (s : sess) :
  sm_Type m = "broadcast" → round_ok m s (handleBroadcast cfg m s).
Proof.
  intros HT. unfold handleBroadcast, mbind, st_bind, st_try, in_seen.
  pose proof (SetLevel_law (SeenState_ s) (sm_ChanId m) (sm_TopLevel m)) as HL.
  destruct (SetLevel (sm_ChanId m) (sm_TopLevel m) (SeenState_ s)) as [ss [[]|e|]] eqn:E;
    destruct HL as (Hsv & _ & HL); [| |done].
  - assert (records_level m (SeenState_ s) ss) as Hrec by done.
    unfold or_fail, fail, modify, WriteMessage, mbind, st_bind, st_try.
    destruct (conn_op_cases [Wrote (MAck "ack")] (upd_SeenState ss s)) as [->|[err ->]]; cbn.
    + unfold clearShouldDelay, emit, modify; cbn. case_decide as Hc; cbn;
        (split; [done|]); (split; [apply tail_subseteq|]).
      * eexists [_; _]. rewrite <- app_assoc. split; [done|]. by apply h_system.
      * eexists [_]. split; [done|]. by apply h_channel.
    + split; [done|]. split; [apply tail_subseteq|]. exists []. rewrite app_nil_r.
      split; [done|]. split; [done|]. split; [done|]. by apply a_level.
  - destruct (fail_nak_spec (A := ()) (ErrSeen e) (upd_SeenState ss s)) as (s' & tr & -> & ? & HS & ? & ? & ? & ? & ?).
    split; [done|]. split; [done|]. exists tr. split; [done|]. split; [done|]. split; [done|].
    cbn. rewrite HS. apply a_nak; [|done]. split; [done|]. exists e. by left.
Qed.

Lemma handleNotifications_spec m (s : sess) :
  sm_Type m = "notifications" → round_ok m s (handleNotifications m s).
Proof.
  intros HT. unfold handleNotifications, mbind, st_bind, st_try, in_seen.
  pose proof (FilterBySeen_law (SeenState_ s) (sm_Notifications m)) as HF.
  destruct (FilterBySeen (sm_Notifications m) (SeenState_ s)) as [ss [ns|e|]] eqn:E;
    destruct HF as (HL & _ & HF); [| |done].
  - assert (records_seen m (SeenState_ s) ss ns) as Hrec by (split; [done|]; split; [apply HF|done]).
    unfold or_fail, fail, modify, WriteMessage, mbind, st_bind, st_try.
    destruct (conn_op_cases [Wrote (MAck "ack")] (upd_SeenState ss s)) as [->|[err ->]]; cbn.
    + match goal with |- context [forward ?ns ?s1] =>
        destruct (forward_spec ns s1) as (s' & tr & -> & Ht & Hp & HS & Hr & Hw) end.
      cbn in *. split; [done|]. split; [cbn; rewrite Hw; apply tail_subseteq|].
      exists (Wrote (MAck "ack") :: tr). cbn. rewrite Ht, <- app_assoc. split; [done|]. rewrite HS.
      by eapply h_notifications.
    + split; [done|]. split; [apply tail_subseteq|]. exists []. rewrite app_nil_r.
      split; [done|]. split; [done|]. split; [done|]. by eapply a_seen.
  - destruct (fail_nak_spec (A := ()) (ErrSeen e) (upd_SeenState ss s)) as (s' & tr & -> & ? & HS & ? & ? & ? & ? & ?).
    split; [done|]. split; [done|]. exists tr. split; [done|]. split; [done|]. split; [done|].
    cbn. rewrite HS. apply a_nak; [|done]. split; [done|]. exists e. by right.
Qed.

Lemma dispatch_spec m (s : sess) : round_ok m s (dispatch cfg m s).
Proof.
  unfold dispatch. case_decide; [by apply handlePing_spec|].
  case_decide; [by apply handleBroadcast_spec|]. case_decide; [by apply handleNotifications_spec|].
  case_decide.
  { unfold handleConnBroken, mbind, st_bind, setState, modify, resetHosts.
    case_decide; cbn; (split; [done|]); (split; [done|]); exists []; rewrite app_nil_r;
      (split; [done|]); (split; [done|]); (split; [done|]); by apply a_broken. }
  assert (∀ s', reads s' = reads s → writes s' = writes s → SeenState_ s' = SeenState_ s → checker s' = checker s →
    trace s' = trace s → round_ok m s (s', Ok ())) as Hother.
  { intros s' Hr Hw HS HC Ht. split; [done|]. split; [cbn; by rewrite Hw|]. exists []. rewrite app_nil_r. split; [done|].
    cbn. rewrite HS, HC. apply h_other. set_solver. }
  case_decide; [|by apply Hother]. unfold handleSetParams, setCookie, modify.
  case_decide; by apply Hother.
Qed.

(** The deadline is set, or the connection's answer to it is an error and the
    session panics. *)
Lemma SetDeadline_cases (s : sess) :
  let s1 := upd_writes (tail (writes s)) (upd_ticks (Datatypes.S (ticks s)) s) in
  SetDeadline cfg s = (s1, Ok ()) ∨ SetDeadline cfg s = (s1, Panic) ∧ ∃ e, Some e ∈ writes s.
Proof.
  unfold SetDeadline, time_Now, next_write, mbind, st_bind, get, modify; cbn.
  destruct (writes s) as [|[e|] ws]; cbn; [by left|right|by left]. split; [done|]. exists e. by left.
Qed.

(** How the loop may end, after a trace that conforms. *)
Definition loop_end (s s' : sess) (r : outcome cerr ()) : Prop :=
  match r with
  | Ok _ => False
  | Err _ => state s' = Error
  | Panic => ∃ e, Some e ∈ writes s
  end.

Lemma loop_rounds_spec fuel recv (s : sess) :
  (length (reads s) < fuel)%nat →
  let '(s', r) := loop_rounds cfg fuel recv s in
  loop_end s s' r ∧ ∃ tr, trace s' = trace s ++ tr ∧
    conforms (SeenState_ s) (checker s) (SeenState_ s') (checker s') tr.
Proof.
  assert (∀ (P : Prop) s s', P → trace s' = trace s → SeenState_ s' = SeenState_ s → checker s' = checker s →
    P ∧ ∃ tr, trace s' = trace s ++ tr ∧
    conforms (SeenState_ s) (checker s) (SeenState_ s') (checker s') tr) as Hend.
  { intros P s0 s' ? Ht HS HC. split; [done|]. exists []. rewrite app_nil_r, HS, HC. split; [done|constructor]. }
  revert recv s. induction fuel as [|fuel IH]; intros recv s Hf; [lia|].
  cbn [loop_rounds]. unfold mbind at 1, st_bind at 1.
  destruct (SetDeadline_cases s) as [->|[-> Hbad]]; [|by apply Hend].
  unfold or_fail, fail, ReadMessage, read_frame, emit, mbind, st_bind, st_try, get, modify.
  cbn. destruct (reads s) as [|[frame|e] rs] eqn:Er; cbn; [by apply Hend| |by apply Hend].
  destruct (Unmarshal cfg frame recv) as [m|]; cbn; [|by apply Hend].
  match goal with |- context [dispatch cfg m ?s1] =>
    pose proof (dispatch_spec m s1) as (Hr & Hw & tr & Ht & Hd);
    destruct (dispatch cfg m s1) as [s2 [[]|e|]] end; cbn in *; [| |done].
  - specialize (IH m s2). rewrite Hr in IH. specialize (IH ltac:(lia)).
    destruct (loop_rounds cfg fuel m s2) as [s3 r]. destruct IH as (He & tr' & Ht' & Hc). split.
    + destruct r; [done..|]. destruct He as (e & He). exists e. by apply tail_subseteq, Hw.
    + exists (Read m :: tr ++ tr'). rewrite Ht', Ht, <- !app_assoc. split; [done|]. by eapply c_handled.
  - destruct Hd as (? & HC & Hd). split; [done|]. exists (Read m :: tr).
    rewrite Ht, <- app_assoc, HC. split; [done|]. by apply c_aborted.
Qed.
End conform.
End ClientLoop.

(** ** Hosts and dialing *)
Module ClientDial.
Import ClientSession ClientLoop SeenSpec.
Local Open Scope Z_scope.

Section hosts.
Context {S : Type} `{SeenState S}.
Context {C : Type} `{AddresseeChecking C}.
Context (cfg : config).
Abbreviation sess := (@clientSession S C).

(** The host at index [i], counted round the list. *)
Definition rot (hs : list string) (i : Z) : string := hs !!! Z.to_nat (i `mod` Z.of_nat (length hs)).

Definition refused (hs : list string) (t : Z) (j : nat) : list cev :=
  (λ i, Dialing (rot hs (t + Z.of_nat i)) false) <$> seq 0 j.

#[local] Arguments refused : simpl never.

Definition in_range (s : sess) : Prop := 0 ≤ tryHost s < Z.of_nat (length (hosts s)).

Lemma rot_mod hs a i : rot hs (a `mod` Z.of_nat (length hs) + i) = rot hs (a + i).
Proof. unfold rot. by rewrite Zplus_mod_idemp_l. Qed.

Lemma refused_S hs t j :
  refused hs t (Datatypes.S j)
  = Dialing (rot hs t) false :: refused hs ((t + 1) `mod` Z.of_nat (length hs)) j.
Proof.
  unfold refused. cbn [seq fmap list_fmap]. rewrite Z.add_0_r. f_equal.
  rewrite <- fmap_S_seq, <- list_fmap_compose. apply list_fmap_ext. intros _ i _. unfold compose.
  rewrite rot_mod. do 2 f_equal. lia.
Qed.

(** The next host, when there is one left and the index is in range. *)
Lemma nextHostToTry_spec (s : sess) k :
  leftToTry s = Datatypes.S k → in_range s →
  nextHostToTry s
  = (upd_leftToTry k (upd_tryHost ((tryHost s + 1) `mod` Z.of_nat (length (hosts s))) s),
     Ok (rot (hosts s) (tryHost s))).
Proof.
  intros Hk [H1 H2]. unfold nextHostToTry, mbind, st_bind, get, modify. rewrite Hk.
  rewrite decide_False by lia. unfold rot. rewrite (Z.mod_small (tryHost s)) by lia.
  assert (Z.to_nat (tryHost s) < length (hosts s))%nat as [x Hx]%lookup_lt_is_Some_2 by lia.
  rewrite Hx, (list_lookup_total_correct _ _ _ Hx). by rewrite Z.rem_mod_nonneg by lia.
Qed.

Lemma nextHostToTry_end (s : sess) : leftToTry s = 0%nat → nextHostToTry s = (s, Ok "").
Proof. intros Hk. unfold nextHostToTry, mbind, st_bind, get. by rewrite Hk. Qed.

(** What dialing leaves alone. *)
Definition same_session (s s' : sess) : Prop :=
  deliveryHosts s' = deliveryHosts s ∧ SeenState_ s' = SeenState_ s ∧ cookie s' = cookie s ∧
  Connection s' = Connection s ∧ reads s' = reads s ∧ writes s' = writes s.

Lemma connect_loop_spec hs t fuel err (s : sess) :
  let n := Z.of_nat (length hs) in
  leftToTry s = fuel → hosts s = hs → tryHost s = t → 0 ≤ t < n → Forall (λ h, h ≠ "") hs →
  match connect_loop fuel err s with
  | (s', Ok _) => ∃ j, (j < fuel)%nat ∧ same_session s s' ∧
      tryHost s' = (t + Z.of_nat j + 1) `mod` n ∧
      trace s' = trace s ++ refused hs t j ++ [Dialing (rot hs (t + Z.of_nat j)) true]
  | (s', Err _) => state s' = Error ∧ same_session s s' ∧ trace s' = trace s ++ refused hs t fuel
  | (_, Panic) => False
  end.
Proof.
  intros n. revert t err s. induction fuel as [|fuel IH]; intros t err s Hk Hhs Ht Hr Hne; cbn [connect_loop].
  { unfold mbind at 1, st_bind at 1. rewrite nextHostToTry_end by done. rewrite decide_True by done.
    cbn. by rewrite app_nil_r. }
  unfold mbind at 1, st_bind at 1.
  rewrite (nextHostToTry_spec s fuel) by (unfold in_range; subst; done). rewrite Hhs, Ht. fold n.
  assert (rot hs t ≠ "") as Hh.
  { apply (proj1 (Forall_forall _ _) Hne). unfold rot. apply list_elem_of_lookup_total_2.
    fold n. rewrite Z.mod_small by lia. lia. }
  rewrite decide_False by done. unfold DialTimeout, emit, mbind, st_bind, get, modify; cbn.
  destruct (default None (head (dials s))) as [e|]; cbn.
  - match goal with |- context [connect_loop fuel ?e0 ?s1] =>
      specialize (IH ((t + 1) `mod` n) e0 s1 eq_refl Hhs eq_refl) end.
    destruct (connect_loop fuel (Some e) _) as [s' [u|e'|]].
    + destruct IH as (j & Hj & Hs & Htry & Htr); [apply Z.mod_pos_bound; lia|done|].
      exists (Datatypes.S j). split_and!; [lia|done| |].
      * rewrite Htry, <- Z.add_assoc, Zplus_mod_idemp_l. f_equal. lia.
      * cbn in Htr. rewrite Htr, refused_S, <- !app_assoc. unfold n. rewrite rot_mod.
        by replace (t + 1 + Z.of_nat j) with (t + Z.of_nat (Datatypes.S j)) by lia.
    + destruct IH as (? & ? & Htr); [apply Z.mod_pos_bound; lia|done|].
      split_and!; [done..|]. cbn in Htr. by rewrite Htr, refused_S, <- !app_assoc.
    + destruct IH; [apply Z.mod_pos_bound; lia|done].
  - exists 0%nat. split_and!; [lia|done|by rewrite Z.add_0_r|]. by rewrite Z.add_0_r.
Qed.

(** The index [startConnectionAttempt] starts at. *)
Definition first_index (s : sess) : Z :=
  if decide (clock cfg (ticks s) - lastAttemptTimestamp s > ExpectAllRepairedTime cfg) then 0
  else tryHost s.

Lemma startConnectionAttempt_spec (s : sess) :
  match startConnectionAttempt cfg s with
  | (s', Ok _) => hosts s ≠ [] ∧ leftToTry s' = length (hosts s) ∧ tryHost s' = first_index s ∧
      same_session s s' ∧ trace s' = trace s
  | (s', Err _) => False
  | (s', Panic) => hosts s' = []
  end.
Proof.
  unfold startConnectionAttempt, first_index, time_Now, mbind, st_bind, get, modify. cbn.
  case_decide; cbn; (case_decide as Hn; cbn;
    [by apply nil_length_inv|split_and!; [intros E; apply Hn; change (length (hosts s) = 0%nat); by rewrite E|done..]]).
Qed.

Lemma started_spec (s : sess) j t :
  let n := Z.of_nat (length (hosts s)) in
  0 ≤ t < n → tryHost s = (t + Z.of_nat j + 1) `mod` n →
  ∃ s', started s = (s', Ok ()) ∧ state s' = Started ∧ tryHost s' = (t + Z.of_nat j) `mod` n.
Proof.
  intros n Ht Hs. unfold started, mbind, st_bind, get, modify, setState. cbn. rewrite Hs. fold n.
  assert ((t + Z.of_nat j + 1) `mod` n = 0 ∨ 0 < (t + Z.of_nat j + 1) `mod` n) as Hm.
  { pose proof (Z.mod_pos_bound (t + Z.of_nat j + 1) n). lia. }
  pose proof (Z.div_mod (t + Z.of_nat j + 1) n ltac:(lia)) as Hdm.
  pose proof (Z.mod_pos_bound (t + Z.of_nat j + 1) n ltac:(lia)).
  set (q := (t + Z.of_nat j + 1) / n) in *.
  case_decide as Hd; cbn; eexists; (split; [done|]); (split; [done|]); cbn.
  - change (n - 1 = (t + Z.of_nat j) `mod` n).
    apply Z.mod_unique_pos with (q - 1); [lia|]. rewrite Z.mul_sub_distr_l. lia.
  - apply Z.mod_unique_pos with q; [lia|]. lia.
Qed.

(** What a phase of a dial leaves alone, and what it adds to the trace. *)
Definition phase (ok : cev → Prop) (s s' : sess) : Prop :=
  SeenState_ s' = SeenState_ s ∧ cookie s' = cookie s ∧
  ∃ tr, trace s' = trace s ++ tr ∧ Forall ok tr.

Definition preliminary (e : cev) : Prop :=
  match e with Dialing _ _ | ConnectionClosed => True | _ => False end.

Lemma phase_refl ok s : phase ok s s.
Proof. split_and!; [done..|]. exists []. by rewrite app_nil_r. Qed.

Lemma phase_trans ok s1 s2 s3 : phase ok s1 s2 → phase ok s2 s3 → phase ok s1 s3.
Proof.
  intros (Ha & Hb & tr & Ht & Hf) (Ha' & Hb' & tr' & Ht' & Hf').
  split_and!; [congruence..|]. exists (tr ++ tr'). rewrite Ht', Ht, app_assoc.
  split; [done|]. by apply Forall_app.
Qed.

Definition bad_hosts (s : sess) : Prop := hosts s = [] ∨ ¬ in_range s.

Lemma nextHostToTry_panic (s : sess) k :
  leftToTry s = Datatypes.S k → ¬ in_range s → nextHostToTry s = (s, Panic).
Proof.
  intros Hk Hr. unfold nextHostToTry, mbind, st_bind, get. rewrite Hk.
  case_decide; [done|]. rewrite lookup_ge_None_2; [done|]. unfold in_range in Hr. lia.
Qed.

Lemma connect_loop_phase fuel err (s : sess) :
  leftToTry s = fuel →
  match connect_loop fuel err s with
  | (s', Ok _) => phase preliminary s s'
  | (s', Err _) => state s' = Error
  | (s', Panic) => bad_hosts s'
  end.
Proof.
  revert err s. induction fuel as [|fuel IH]; intros err s Hk; cbn [connect_loop].
  { unfold mbind at 1, st_bind at 1. rewrite nextHostToTry_end by done. by rewrite decide_True. }
  unfold mbind at 1, st_bind at 1.
  assert (in_range s ∨ ¬ in_range s) as [Hr|Hr] by (unfold in_range; lia).
  2: { rewrite (nextHostToTry_panic s fuel) by done. by right. }
  rewrite (nextHostToTry_spec s fuel Hk Hr). case_decide; [done|].
  unfold DialTimeout, emit, mbind, st_bind, get, modify; cbn.
  destruct (default None (head (dials s))) as [e|]; cbn.
  - match goal with |- context [connect_loop fuel ?e0 ?s1] =>
      specialize (IH e0 s1 eq_refl) end.
    destruct (connect_loop fuel (Some e) _) as [s' [u|e'|]]; [|done..].
    eapply phase_trans; [|exact IH]. split_and!; [done..|]. eexists. split; [done|]. by repeat constructor.
  - split_and!; [done..|]. eexists. split; [done|]. by repeat constructor.
Qed.

Lemma connect_phase (s : sess) :
  match connect cfg s with
  | (s', Ok _) => phase preliminary s s' ∧ Connection s' = true
  | (s', Err _) => state s' = Error
  | (s', Panic) => bad_hosts s'
  end.
Proof.
  unfold connect, setShouldDelay, modify, mbind at 1, st_bind at 1. cbn.
  unfold mbind at 1, st_bind at 1.
  pose proof (startConnectionAttempt_spec (upd_shouldDelay true s)) as Hs.
  destruct (startConnectionAttempt cfg _) as [s1 [u|e|]]; [|done|by left].
  destruct Hs as (_ & _ & _ & (_ & HS & Hc & _) & Ht). cbn in *.
  unfold get, mbind at 1, st_bind at 1. cbn. unfold mbind at 1, st_bind at 1.
  pose proof (connect_loop_phase (leftToTry s1) None s1 eq_refl) as Hl.
  destruct (connect_loop (leftToTry s1) None s1) as [s2 [?|?|]]; [|done..].
  unfold setConnection, setState, modify, mbind, st_bind; cbn. split; [|done].
  destruct Hl as (? & ? & tr & Htr & ?). split_and!; [by rewrite <- HS|by rewrite <- Hc|].
  exists tr. by rewrite <- Ht.
Qed.

Lemma getHosts_phase (s : sess) :
  match getHosts cfg s with
  | (s', Ok _) => phase preliminary s s'
  | (s', Err _) => state s' = Error
  | (s', Panic) => False
  end.
Proof.
  unfold getHosts, fail, time_Now, mbind, st_bind, get, modify.
  assert (∀ s', SeenState_ s' = SeenState_ s → cookie s' = cookie s → trace s' = trace s →
    phase preliminary s s') as Hsame.
  { intros s' ? ? Ht. split_and!; [done..|]. exists []. by rewrite Ht, app_nil_r. }
  destruct (has_getHost cfg); [|by apply Hsame].
  destruct (deliveryHosts s); cbn; [case_bool_decide|]; cbn; try (by apply Hsame);
    destruct (default _ (head (gets s))); cbn; by try apply Hsame.
Qed.

Lemma doClose_phase (s : sess) :
  ∃ s', doClose false s = (s', Ok ()) ∧ phase preliminary s s' ∧
    trace s' = trace s ++ (if Connection s then [ConnectionClosed] else []) ∧ Connection s' = false.
Proof.
  unfold doClose, closeConnection, setConnection, setState, emit, mbind, st_bind, get, modify; cbn.
  destruct (Connection s) eqn:Ec; cbn; eexists; (split; [done|]); cbn.
  - split_and!; [|done|done]. split_and!; [done..|]. eexists. split; [done|]. by repeat constructor.
  - rewrite app_nil_r. split_and!; [|done|done]. split_and!; [done..|]. exists [].
    split; [by rewrite app_nil_r|done].
Qed.
End hosts.

Section dial.
Context {S : Type} `{SeenStateLaws S}.
Context {C : Type} `{AddresseeChecking C}.
Context (cfg : config).
Abbreviation sess := (@clientSession S C).

(** The CONNECT a session sends. *)
Definition connect_msg (s : sess) : ConnectMsg :=
  {| cm_Type := "connect"; cm_ClientVer := ""; cm_DeviceId := DeviceId cfg; cm_Authorization := "";
     cm_Cookie := cookie s; cm_Info := Info cfg; cm_Levels := level_view (SeenState_ s) |}.

(** What [start] observes of the session. *)
Definition seen_as (s0 : sess) (tr : list cev) (s : sess) : Prop :=
  trace s = trace s0 ++ tr ∧ cookie s = cookie s0 ∧ SeenState_ s = SeenState_ s0 ∧
  Connection s = Connection s0.

(** How [start] fails: with an error, or by the panic of the deadline it sets
    after the version. *)
Definition error_state (s0 : sess) (e : option cerr) (s : sess) : Prop :=
  match e with Some _ => state s = Error | None => seen_as s0 [WroteVersion] s end.

Lemma or_fail_triple {A} s0 (P : sess → Prop) (m : st sess cerr A) Q :
  triple P m Q (λ e _, e ≠ None) → triple P (or_fail m) Q (error_state s0).
Proof.
  intros Hm s Hs. specialize (Hm s Hs). unfold or_fail, fail, modify, mbind, st_bind, st_try.
  destruct (m s) as [s' [a|e|]]; cbn; done.
Qed.

Lemma conn_op_triple s0 tr e :
  triple (seen_as s0 tr) (conn_op e) (λ _, seen_as s0 (tr ++ e)) (λ e _, e ≠ None).
Proof.
  intros s (Ht & Hc & HS & HC). destruct (conn_op_cases e s) as [->|[err ->]]; [|done].
  split_and!; [|done..]. cbn. by rewrite Ht, app_assoc.
Qed.

Lemma time_Now_triple s0 tr :
  triple (seen_as s0 tr) (time_Now cfg) (λ _, seen_as s0 tr) (error_state s0).
Proof. by intros s. Qed.

Lemma SetDeadline_triple s0 :
  triple (seen_as s0 [WroteVersion]) (SetDeadline cfg) (λ _, seen_as s0 [WroteVersion]) (error_state s0).
Proof. intros s Hs. by destruct (SetDeadline_cases cfg s) as [->|[-> _]]. Qed.

Lemma GetAllLevels_triple s0 tr :
  triple (seen_as s0 tr) (in_seen GetAllLevels)
    (λ m s, m = level_view (SeenState_ s0) ∧ seen_as s0 tr s) (λ e _, e ≠ None).
Proof.
  intros s (Ht & Hc & HS & HC). unfold in_seen. pose proof (GetAllLevels_law (SeenState_ s)) as HG.
  destruct (GetAllLevels (SeenState_ s)) as [ss [m|e|]]; destruct HG as [-> HG]; [|done..].
  subst m. by rewrite HS.
Qed.

Lemma read_frame_triple s0 tr :
  triple (seen_as s0 tr) read_frame (λ _, seen_as s0 tr) (λ e _, e ≠ None).
Proof.
  intros s Hs. unfold read_frame, mbind, st_bind, get, modify.
  by destruct (reads s) as [|[f|e] rs].
Qed.

Definition start_trace (s0 : sess) : list cev := [WroteVersion; Wrote (MConnect (connect_msg s0))].

Lemma start_triple s0 :
  Connection s0 = true →
  triple (λ s, s = s0) (start cfg)
    (λ _ s, state s = Started ∧ seen_as s0 (start_trace s0) s) (error_state s0).
Proof.
  intros HC. unfold start.
  eapply (triple_bind _ _ _ (λ c s, c = true ∧ seen_as s0 [] s)).
  { intros s ->. split; [done|]. unfold seen_as. by rewrite app_nil_r. }
  intros c. apply triple_pure. intros ->. cbn [negb].
  eapply triple_bind; [apply time_Now_triple|]. intros ?.
  eapply triple_bind; [apply or_fail_triple, conn_op_triple|]. intros ?; cbn beta.
  eapply triple_bind; [apply or_fail_triple, conn_op_triple|]. intros ?; cbn beta.
  eapply triple_bind; [apply SetDeadline_triple|]. intros ?; cbn beta.
  eapply triple_bind; [apply or_fail_triple, GetAllLevels_triple|]. intros levels; cbn beta.
  apply triple_pure. intros ->.
  eapply (triple_bind _ _ _ (λ c s, c = cookie s0 ∧ seen_as s0 [WroteVersion] s)).
  { intros s Hs. split; [apply Hs|done]. }
  intros c. apply triple_pure. intros ->.
  eapply triple_bind; [apply or_fail_triple, conn_op_triple|]. intros ?; cbn beta.
  eapply triple_bind; [apply or_fail_triple, read_frame_triple|]. intros frame; cbn beta.
  destruct (UnmarshalConnAck cfg frame) as [ack|]; [|by intros s].
  case_decide; [|by intros s]. destruct (ParseDuration cfg _) as [d|]; [|by intros s].
  intros s Hs. unfold started, setState, mbind, st_bind, get, modify; cbn.
  by case_decide; cbn.
Qed.
End dial.
End ClientDial.

Module ClientProps.
Import ClientSession ClientLoop ClientDial SeenSpec SeenProps.
Local Open Scope Z_scope.

(** A configuration and a session for the examples: frames are named after
    the message they carry, every notification is for its own application. *)
#[export] Instance example_checker : AddresseeChecking () := {
  StartAddresseeBatch c := c;
  CheckForAddressee n c := (c, Some (AppId n));
}.

Definition example_notification : Notification := {| AppId := "app"; MsgId := "m1"; Payload := "{}" |}.

Definition example_unmarshal (frame : string) (recv : serverMsg) : option serverMsg :=
  let m T := {| sm_Type := T; sm_ChanId := SystemChannelId; sm_AppId := ""; sm_TopLevel := 7;
                sm_Payloads := []; sm_Notifications := [example_notification]; sm_Reason := "";
                sm_SetCookie := "" |} in
  if decide (frame = "garbage") then None else Some (m frame).

Definition example_config : config :=
  {| ExchangeTimeout := 5; HostsCachingExpiryTime := 100; ExpectAllRepairedTime := 50;
     DeviceId := "dev"; Info := ∅; has_getHost := true; fallbackHosts := []; redialDelays := [1; 2];
     has_Protocolator := true; clock := λ n, Z.of_nat n; Unmarshal := example_unmarshal;
     UnmarshalMap := λ _, None;
     UnmarshalConnAck := λ s, Some {| ca_Type := s; ca_PingInterval := "10" |};
     ParseDuration := λ _, Some 10 |}.

Definition example_session (hosts : option (list string)) (try : Z) (conn : bool)
    (dials : list (option string)) (gets : list (Host + string)) (reads : list (string + string))
    (writes : list (option string)) : @clientSession toyDb () :=
  Sess (Toy ∅ []) () hosts 0 0 0 try conn "" 10 false "cookie" Disconnected false 0 0 true false 0
    dials gets reads writes [] [].

(** C21: The client's loop answers the server's messages. For any [SeenState]
    implementation and any checker of applications, the loop ends with an error
    and in state [Error], or by the panic of a deadline that could not be set,
    and what it did until then conforms: a ping is answered with a pong; a
    broadcast is acknowledged once its level is recorded, and then handed on if
    it is on the system channel; notifications are acknowledged once they are
    recorded as seen, and then exactly those that had not been seen before
    and for which the checker, begun anew for the batch, names an application
    are handed on to it, in order; nothing else is written or handed on, except
    a "nak" when the state cannot be recorded. At the end the levels and
    notifications recorded are those of the messages handled, and at most of one
    more whose acknowledgement failed. *)
Theorem client_loop_conforms {S} `{SeenStateLaws S} {C} `{AddresseeChecking C} (cfg : config)
    (s : @clientSession S C) :
  let '(s', r) := loop cfg s in
  match r with
  | Ok _ => False
  | Err _ => state s' = Error
  | Panic => ∃ e, Some e ∈ writes s
  end ∧
  ∃ tr, trace s' = trace s ++ tr ∧
    conforms cfg (SeenState_ s) (checker s) (SeenState_ s') (checker s') tr.
Proof.
  unfold loop, setState, modify, get, mbind, st_bind. cbn -[loop_rounds].
  pose proof (loop_rounds_spec cfg (Datatypes.S (length (reads s))) zero_serverMsg (upd_state Running s)) as Hl.
  cbn [reads] in Hl. specialize (Hl ltac:(cbn; lia)). exact Hl.
Qed.

(** C23: A notification whose acknowledgement fails is lost. When a batch of
    new notifications is recorded as seen and the write of the "ack" then
    fails, the loop is left without handing the batch on; when the server,
    which has no acknowledgement, sends the batch again, the session filters
    it out, acknowledges it and hands on nothing. *)
Theorem unacked_notifications_lost {S} `{SeenStateLaws S} {C} `{AddresseeChecking C}
    (m : serverMsg) (s : @clientSession S C) e ws ss :
  let b := sm_Notifications m in
  b ≠ [] → NoDup (ids b) → (∀ id, id ∈ seen_view (SeenState_ s) → id ∉ ids b) →
  remembers (SeenState_ s) [] →
  FilterBySeen b (SeenState_ s) = (ss, Ok b) →
  writes s = Some e :: ws →
  ∃ s', handleNotifications m s = (s', Err (ErrIO e)) ∧ trace s' = trace s ∧
  ∀ s2 ss2 acc, SeenState_ s2 = SeenState_ s' → FilterBySeen b (SeenState_ s2) = (ss2, Ok acc) →
    writes s2 = [] →
    ∃ s3, handleNotifications m s2 = (s3, Ok ()) ∧ trace s3 = trace s2 ++ [Wrote (MAck "ack")].
Proof.
  intros b Hb Hnd Hnew Hrem HF Hw. unfold handleNotifications, mbind, st_bind, st_try, in_seen.
  fold b. rewrite HF. unfold or_fail, WriteMessage, conn_op, next_write, fail, get, modify, mbind, st_bind, st_try.
  cbn. rewrite Hw; cbn. eexists. split; [done|]. split; [done|]. cbn.
  intros s2 ss2 acc -> HF2 Hw2. rewrite HF2. cbn. rewrite Hw2. cbn.
  pose proof (FilterBySeen_law (SeenState_ s) b) as HL. rewrite HF in HL.
  destruct HL as (_ & _ & _ & HL). destruct b as [|n b']; [done|].
  specialize (HL [] (MsgId n) Hrem eq_refl).
  change ([] ++ ids (n :: b')) with (MsgId n :: ids b') in HL.
  rewrite keep_from_head in HL. specialize (HL ltac:(by left)).
  pose proof (FilterBySeen_law ss (n :: b')) as HL2. rewrite HF2 in HL2.
  destruct HL2 as (_ & _ & -> & _).
  assert (fresh (seen_view ss) (n :: b') = []) as ->.
  { rewrite <- (app_nil_r (n :: b')). apply fresh_known; [|intros ? []%elem_of_nil|constructor].
    intros id Hid. by eapply remembers_seen. }
  cbn. eexists. split; [done|]. done.
Qed.

Lemma unacked_notifications_lost_witness :
  let s := example_session None 0 true [] [] [] [Some "broken pipe"] in
  let m := {| sm_Type := "notifications"; sm_ChanId := ""; sm_AppId := ""; sm_TopLevel := 0;
              sm_Payloads := []; sm_Notifications := [example_notification]; sm_Reason := "";
              sm_SetCookie := "" |} in
  ∃ s', handleNotifications m s = (s', Err (ErrIO "broken pipe")) ∧ trace s' = trace s ∧
  ∀ s2 ss2 acc, SeenState_ s2 = SeenState_ s' →
    FilterBySeen [example_notification] (SeenState_ s2) = (ss2, Ok acc) → writes s2 = [] →
    ∃ s3, handleNotifications m s2 = (s3, Ok ()) ∧ trace s3 = trace s2 ++ [Wrote (MAck "ack")].
Proof.
  intros s m. apply (unacked_notifications_lost m s "broken pipe" [] (Toy ∅ ["m1"])).
  - done.
  - apply (bool_decide_unpack _). by vm_compute.
  - intros id Hid. by apply elem_of_nil in Hid.
  - apply sublist_nil_l.
  - by vm_compute.
  - done.
Defined.

(** C22: Host rotation. [connect] dials the candidate hosts in order from
    [tryHost] (from the first one when the last attempt is long past), round
    the list and each at most once. It succeeds with the first host that
    accepts, and once the session has started the next attempt begins with
    that same host; when all refuse, the state is [Error]. *)
Theorem host_rotation {S} `{SeenState S} {C} (cfg : config) (s : @clientSession S C) :
  let hs := hosts s in let n := Z.of_nat (length hs) in let t := first_index cfg s in
  hs ≠ [] → Forall (λ h, h ≠ "") hs → 0 ≤ t < n →
  match connect cfg s with
  | (s', Ok _) => ∃ j, (j < length hs)%nat ∧
      trace s' = trace s ++ refused hs t j ++ [Dialing (rot hs (t + Z.of_nat j)) true] ∧
      state s' = Connected ∧ Connection s' = true ∧
      ∃ s'', started s' = (s'', Ok ()) ∧ state s'' = Started ∧ tryHost s'' = (t + Z.of_nat j) `mod` n
  | (s', Err _) => trace s' = trace s ++ refused hs t (length hs) ∧ state s' = Error
  | (_, Panic) => False
  end.
Proof.
  intros hs n t Hne Hok Ht. unfold connect, setShouldDelay, modify, mbind at 1, st_bind at 1. cbn.
  unfold mbind at 1, st_bind at 1.
  pose proof (startConnectionAttempt_spec cfg (upd_shouldDelay true s)) as Hs.
  destruct (startConnectionAttempt cfg _) as [s1 [u|e|]] eqn:E1; [|done|].
  2: { unfold startConnectionAttempt, time_Now, get, modify, mbind, st_bind in E1. cbn in E1.
       revert E1. case_decide; cbn; (case_decide as Hl; [|done]); intros _;
         by apply nil_length_inv in Hl. }
  destruct Hs as (_ & Hk & Htry & (Hh & _ & _ & Hc & _) & Htr). cbn in *.
  unfold get, mbind at 1, st_bind at 1. cbn. unfold mbind at 1, st_bind at 1.
  assert (hosts s1 = hs) as Hhs by (unfold hosts at 1; rewrite Hh; done).
  pose proof (connect_loop_spec hs t (leftToTry s1) None s1 eq_refl Hhs Htry Ht Hok) as Hl.
  assert (leftToTry s1 = length hs) as Hk' by exact Hk. rewrite Hk', Htr in Hl. rewrite Hk'.
  destruct (connect_loop (length hs) None s1) as [s2 [?|?|]]; [|by destruct Hl as (? & _ & ?)|done].
  destruct Hl as (j & Hj & (Hh2 & _) & Htry2 & Htr2).
  unfold setConnection, setState, modify, mbind, st_bind; cbn.
  exists j. split_and!; [done..|].
  edestruct (started_spec (upd_state Connected (upd_Connection true s2)) j t) as (s3 & Hs3 & Hst & Ht3).
  - unfold hosts; cbn. rewrite Hh2, Hh. exact Ht.
  - unfold hosts; cbn. rewrite Hh2, Hh. exact Htry2.
  - exists s3. split_and!; [done..|]. rewrite Ht3. unfold hosts; cbn. by rewrite Hh2, Hh.
Qed.

Lemma host_rotation_witness :
  let s := example_session (Some ["a:1"; "b:1"; "c:1"]) 2 false [Some "refused"; None] [] [] [] in
  match connect example_config s with
  | (s', Ok _) => ∃ j, (j < 3)%nat ∧
      trace s' = refused ["a:1"; "b:1"; "c:1"] 2 j ++ [Dialing (rot ["a:1"; "b:1"; "c:1"] (2 + Z.of_nat j)) true] ∧
      state s' = Connected ∧ Connection s' = true ∧
      ∃ s'', started s' = (s'', Ok ()) ∧ state s'' = Started ∧ tryHost s'' = (2 + Z.of_nat j) `mod` 3
  | (s', Err _) => trace s' = refused ["a:1"; "b:1"; "c:1"] 2 3 ∧ state s' = Error
  | (_, Panic) => False
  end.
Proof.
  intros s. apply (host_rotation example_config s); [done| |by vm_compute].
  by repeat constructor.
Defined.

(** The host index can go stale. After a host mismatch the session fetches
    a new list; [tryHost] is only reset when the last attempt is longer past
    than [ExpectAllRepairedTime], so a list that is not longer than the index
    makes the next [Dial] index out of range and panic. *)
Theorem hosts_shrink_panic {S} `{SeenState S} {C} (cfg : config) (s : @clientSession S C) host gs :
  has_Protocolator cfg = true → has_getHost cfg = true →
  deliveryHosts s = None → gets s = inl host :: gs →
  (1 ≤ length (h_Hosts host))%nat → Z.of_nat (length (h_Hosts host)) ≤ tryHost s →
  clock cfg (Datatypes.S (ticks s)) - lastAttemptTimestamp s ≤ ExpectAllRepairedTime cfg →
  (Dial cfg s).2 = Panic.
Proof.
  intros Hp Hg Hd Hgs Hlen Hle Hclock. unfold Dial, run. rewrite Hp. cbn [negb].
  assert (∃ s1, doClose (C := C) false s = (s1, Ok ()) ∧ deliveryHosts s1 = None ∧ gets s1 = inl host :: gs ∧
    tryHost s1 = tryHost s ∧ ticks s1 = ticks s ∧ lastAttemptTimestamp s1 = lastAttemptTimestamp s)
    as (s1 & Hs1 & Hd1 & Hg1 & Ht1 & Hk1 & Hl1).
  { unfold doClose, closeConnection, setConnection, setState, emit, modify, get, mbind, st_bind. cbn.
    destruct (Connection s); cbn; by eexists. }
  unfold mbind at 1, st_bind at 1. rewrite Hs1. unfold mbind at 1, st_bind at 1.
  unfold getHosts at 1. rewrite Hg. unfold time_Now, get, modify, mbind, st_bind. cbn.
  rewrite Hd1. cbn. rewrite Hg1. cbn.
  unfold connect, setShouldDelay, startConnectionAttempt, time_Now, modify, get, mbind, st_bind. cbn.
  rewrite Hk1, Hl1, decide_False by lia. cbn.
  case_decide as Hz; [done|]. cbn. destruct (h_Hosts host) as [|h hs] eqn:Eh; [cbn in *; lia|].
  cbn [length connect_loop]. unfold nextHostToTry, get, mbind, st_bind, hosts. cbn.
  rewrite Ht1. case_decide; [done|].
  rewrite lookup_ge_None_2; [done|]. cbn in *. lia.
Qed.

Lemma hosts_shrink_panic_witness :
  (Dial example_config
     (example_session None 2 true [] [inl {| h_Domain := "push"; h_Hosts := ["a:1"; "b:1"] |}] [] [])).2
  = Panic.
Proof. eapply hosts_shrink_panic; [done..|cbn; lia|cbn; lia|by vm_compute]. Defined.

(** The outcome of [Dial], for any [SeenState] implementation: an error
    leaves the session in state [Error]; a success leaves it [Started] and
    connected, the old connection having been closed first and the wire
    version and one CONNECT with the device id, the cookie and all the
    recorded levels having been sent, and the loop running. It only panics
    without a protocol, without hosts, with a stale host index, or once the
    version has been sent, when the deadline of the exchange cannot be set. *)
Theorem dial_outcome {S} `{SeenStateLaws S} {C} `{AddresseeChecking C} (cfg : config)
    (s : @clientSession S C) :
  match Dial cfg s with
  | (s', Ok _) =>
      state s' = Started ∧ Connection s' = true ∧
      ∃ tr, trace s' = trace s ++ (if Connection s then [ConnectionClosed] else []) ++ tr
          ++ [WroteVersion; Wrote (MConnect (connect_msg cfg s)); LoopStarted]
        ∧ Forall preliminary tr
  | (s', Err _) => state s' = Error
  | (s', Panic) => has_Protocolator cfg = false ∨ bad_hosts s' ∨
      ∃ tr, trace s' = trace s ++ (if Connection s then [ConnectionClosed] else []) ++ tr ++ [WroteVersion]
        ∧ Forall preliminary tr
  end.
Proof.
  unfold Dial. destruct (has_Protocolator cfg); cbn [negb]; [|by left]. unfold run.
  destruct (doClose_phase s) as (s1 & Hs1 & (HS1 & Hc1 & _) & Ht1 & _).
  unfold mbind at 1, st_bind at 1. rewrite Hs1. unfold mbind at 1, st_bind at 1.
  pose proof (getHosts_phase cfg s1) as H2.
  destruct (getHosts cfg s1) as [s2 [?|?|]]; [|done..].
  destruct H2 as (HS2 & Hc2 & tr2 & Ht2 & Hf2). unfold mbind at 1, st_bind at 1.
  pose proof (connect_phase cfg s2) as H3.
  destruct (connect cfg s2) as [s3 [?|?|]]; [|done|by right; left].
  destruct H3 as ((HS3 & Hc3 & tr3 & Ht3 & Hf3) & HC). unfold mbind at 1, st_bind at 1.
  pose proof (start_triple cfg s3 HC s3 eq_refl) as H4.
  assert (connect_msg cfg s3 = connect_msg cfg s) as Hcm by (unfold connect_msg; congruence).
  destruct (start cfg s3) as [s4 [?|?|]]; [|done|].
  2: { right; right. destruct H4 as (Ht4 & _). exists (tr2 ++ tr3). rewrite Ht4, Ht3, Ht2, Ht1, <- !app_assoc.
       split; [done|by apply Forall_app]. }
  destruct H4 as (Hst & Ht4 & _ & _ & HC4). unfold emit, modify; cbn.
  split_and!; [done|congruence|]. exists (tr2 ++ tr3).
  rewrite Ht4, Ht3, Ht2, Ht1, <- !app_assoc. unfold start_trace. rewrite Hcm. split; [done|].
  by apply Forall_app.
Qed.
End ClientProps.
