(* ===== verification/Keeper.v ===== *)
(** The goroutines of a client session: [client/session/session.go], from
    [doKeepConnection] on.

    [ClientSession] gives the methods of a session run one at a time. In the
    daemon they run in three kinds of goroutines: the keeper, which selects on
    the channels; one goroutine per [AutoRedialer], which is in [Redial] and,
    inside it, in [Dial]; and one per connection that was started, which is in
    [loop]. Here each is a program counter, what they share is a record, and a
    label picks the goroutine that moves and what its environment answers. The
    atomic steps are the sections under [connLock] and [stateLock], the channel
    operations and the exchanges with the network. Connections are numbered in
    the order they are opened; the redialer's own steps are those of
    [Redialer]. A panic ends the daemon; here the other goroutines may go on, which
    only adds runs. Hosts, delays, levels and messages are in [ClientSession]. *)

From S2P Require Import Prelude Redialer SeenState ClientSession.
Import Redialer RedialerSpec.

Module Keeper.
#[local] Existing Instance ClientSession.ClientSessionState_eq_dec.

(** What the goroutines share of the [clientSession]: [sess.Connection], the
    connections opened and closed so far, the connection of [sess.proto], and
    [sess.state]. *)
Record shared := Sh {
  Connection : option nat;
  opened : nat;
  closed : list nat;
  proto : option nat;
  cookie : string;
  state : ClientSession.ClientSessionState;
}.

Definition setState (x : ClientSession.ClientSessionState) (sh : shared) : shared :=
  Sh (Connection sh) (opened sh) (closed sh) (proto sh) (cookie sh) x.
Definition setConnection (c : nat) (sh : shared) : shared :=
  Sh (Some c) (opened sh) (closed sh) (proto sh) (cookie sh) (state sh).
Definition setCookie (c : string) (sh : shared) : shared :=
  Sh (Connection sh) (opened sh) (closed sh) (proto sh) c (state sh).
(** [DialTimeout] made a connection. *)
Definition open_connection (sh : shared) : shared :=
  Sh (Connection sh) (S (opened sh)) (closed sh) (proto sh) (cookie sh) (state sh).
(** [sess.proto = proto] *)
Definition setProto (c : nat) (sh : shared) : shared :=
  Sh (Connection sh) (opened sh) (closed sh) (Some c) (cookie sh) (state sh).

(** *must be called with connLock held* *)
Definition closeConnection (sh : shared) : shared :=
  match Connection sh with
  | Some c => Sh None (opened sh) (c :: closed sh) (proto sh) (cookie sh) (state sh)
  | None => sh
  end.
Definition doClose (resetCookie : bool) (sh : shared) : shared :=
  setState ClientSession.Disconnected
    (closeConnection (if resetCookie then setCookie "" sh else sh)).

(** ** [Dial]: [run] with [doClose], [getHosts], [connect], [start], [loop] *)
Inductive dial :=
| DClose
| DHosts
| DConnect
| DSetConn (c : nat)      (** a connection was made, [setConnection] is next *)
| DConnected              (** [setState(Connected)] *)
| DGetConn                (** [start] asks for the connection *)
| DHello (c : nat)        (** the deadline, the version, the levels *)
| DCookie (c : nat)       (** [getCookie] *)
| DAck (c : nat) (cookie : string)  (** CONNECT and CONNACK, then [sess.proto = proto] *)
| DStarted                (** [started] *)
| DLoop                   (** [go func() { sess.errCh <- looper() }()] *)
| DReturn.

(** What a step of a dial leads to: another one, a new goroutine first, the
    error that [Dial] returns, a nil connection dereferenced. *)
Inductive dial_next := DTo (d : dial) | DGo (d : dial) | DRet (ok : bool) | DNil.

(** The steps under [connLock] wait for it; [net] is whether what the step asks
    of the network or of the levels goes well. *)
Definition takes_connLock (d : dial) : bool :=
  match d with DClose | DSetConn _ | DGetConn | DCookie _ => true | _ => false end.

Definition dial_step (net : bool) (d : dial) (sh : shared) : shared * dial_next :=
  let failed := (setState ClientSession.Error sh, DRet false) in
  match d with
  | DClose => (doClose false sh, DTo DHosts)
  | DHosts => if net then (sh, DTo DConnect) else failed
  | DConnect =>
      if net then (open_connection sh, DTo (DSetConn (opened sh))) else failed
  | DSetConn c => (setConnection c sh, DTo DConnected)
  | DConnected => (setState ClientSession.Connected sh, DTo DGetConn)
  | DGetConn => (sh, match Connection sh with Some c => DTo (DHello c) | None => DNil end)
  | DHello c => if net then (sh, DTo (DCookie c)) else failed
  | DCookie c => (sh, DTo (DAck c (cookie sh)))
  | DAck c _ => if net then (setProto c sh, DTo DStarted) else failed
  | DStarted => (setState ClientSession.Started sh, DTo DLoop)
  | DLoop => (sh, DGo DReturn)
  | DReturn => (sh, DRet true)
  end.

(** ** The goroutines *)

(** [go func(retrier) { sess.doneCh <- retrier.Redial() }]: at a step of
    [Redial], inside its dial, or through. *)
Inductive redial := At (p : pc) | Dialing (dialAttempts : Z) (d : dial) | Finished (n : Z).

(** [loop]. *)
Inductive loop :=
| LStart                  (** [setState(Running)] *)
| LNext                   (** [sess.proto.SetDeadline], [ReadMessage]: [sess.proto] is read *)
| LReading (c : nat)      (** … and its connection is waited on *)
| LHandling               (** in a handler *)
| LFailing                (** [setState(Error)], and the loop returns *)
| LReport                 (** [sess.errCh <- err] *)
| LEnd
| LCrash.                 (** [sess.proto.SetDeadline] on a closed connection panics *)

(** What the environment does to a loop: a message comes, its handler is through
    or fails, the read fails, or the handler was [handleSetParams] with a
    cookie. *)
Inductive loop_event := LMessage | LHandled | LFails | LCookie (c : string).

(** What follows [stopRedial] outside of [shutdown]: the rest of [autoRedial]
    or [doClose]. *)
Inductive after_stop := ThenRedial | ThenClose (resetCookie : bool).

Inductive keeper_pc :=
| KSelect
| KErr                    (** [handleErr] *)
| KStop (a : after_stop)  (** [stopRedial] is next *)
| KWait (i : nat) (a : after_stop)  (** in [Stop] of retrier [i], waiting *)
| KThen (a : after_stop)
| KSleep                  (** [autoRedial]'s delay *)
| KShutLock               (** [shutdown]: [connLock.Lock()] *)
| KShutStop
| KShutWait (i : nat)
| KShutClose
| KReturned
| KCrash.

Record keep := Keep {
  keeper : keeper_pc;
  retrier : option nat;           (** [sess.retrier] *)
  retriers : list autoRedialer;   (** every [AutoRedialer] made, and *)
  redials : list redial;          (** the goroutine of each *)
  shr : shared;
  loops : list loop;
  lastConn : bool;
  locked : bool;                  (** [shutdown] is holding [connLock] *)
  doneCh : option Z;              (** the buffered channels *)
  errCh : bool;
  stopCh : bool;                  (** closed *)
}.

Definition at_keeper (k : keeper_pc) (s : keep) : keep :=
  Keep k (retrier s) (retriers s) (redials s) (shr s) (loops s) (lastConn s) (locked s)
    (doneCh s) (errCh s) (stopCh s).
Definition with_retrier (x : option nat) (s : keep) : keep :=
  Keep (keeper s) x (retriers s) (redials s) (shr s) (loops s) (lastConn s) (locked s)
    (doneCh s) (errCh s) (stopCh s).
Definition with_redialer (i : nat) (ar : autoRedialer) (s : keep) : keep :=
  Keep (keeper s) (retrier s) (<[i := ar]> (retriers s)) (redials s) (shr s) (loops s)
    (lastConn s) (locked s) (doneCh s) (errCh s) (stopCh s).
Definition at_redial (i : nat) (r : redial) (s : keep) : keep :=
  Keep (keeper s) (retrier s) (retriers s) (<[i := r]> (redials s)) (shr s) (loops s)
    (lastConn s) (locked s) (doneCh s) (errCh s) (stopCh s).
Definition with_shared (sh : shared) (s : keep) : keep :=
  Keep (keeper s) (retrier s) (retriers s) (redials s) sh (loops s) (lastConn s) (locked s)
    (doneCh s) (errCh s) (stopCh s).
Definition with_loops (ls : list loop) (s : keep) : keep :=
  Keep (keeper s) (retrier s) (retriers s) (redials s) (shr s) ls (lastConn s) (locked s)
    (doneCh s) (errCh s) (stopCh s).
Definition with_lastConn (x : bool) (s : keep) : keep :=
  Keep (keeper s) (retrier s) (retriers s) (redials s) (shr s) (loops s) x (locked s)
    (doneCh s) (errCh s) (stopCh s).
Definition with_lock (x : bool) (s : keep) : keep :=
  Keep (keeper s) (retrier s) (retriers s) (redials s) (shr s) (loops s) (lastConn s) x
    (doneCh s) (errCh s) (stopCh s).
Definition with_channels (d : option Z) (e st : bool) (s : keep) : keep :=
  Keep (keeper s) (retrier s) (retriers s) (redials s) (shr s) (loops s) (lastConn s) (locked s)
    d e st.

(** [KeepConnection] of a pristine session: the keeper is at its select. *)
Definition KeepConnection : keep :=
  Keep KSelect None [] [] (Sh None 0 [] None "" ClientSession.Disconnected) [] false false
    None false false.

(** *** The redial goroutine [i] *)
Section steps.
Context (timeouts : list Z).

(** [Redial]'s own step from [p]. *)
Definition own_step (net : bool) (jitter : Z) (i : nat) (ar : autoRedialer) (p : pc) (s : keep)
    : option keep :=
  '(ar, p) ← Redialer.step timeouts true net jitter ar p;
  Some (at_redial i (At p) (with_redialer i ar s)).

Definition redial_step (net : bool) (jitter : Z) (i : nat) (s : keep) : option keep :=
  ar ← retriers s !! i; r ← redials s !! i;
  match r with
  | At (RDial n) => Some (at_redial i (Dialing n DClose) s)
  | At (RRet n) =>
      match doneCh s with
      | None => Some (at_redial i (Finished n) (with_channels (Some n) (errCh s) (stopCh s) s))
      | Some _ => None
      end
  | At p => own_step net jitter i ar p s
  | Dialing n d =>
      if takes_connLock d && locked s then None
      else
        let '(sh, next) := dial_step net d (shr s) in
        let s := with_shared sh s in
        match next with
        | DTo d => Some (at_redial i (Dialing n d) s)
        | DGo d => Some (at_redial i (Dialing n d) (with_loops (loops s ++ [LStart]) s))
        | DRet ok => own_step ok jitter i ar (RDial n) s
        | DNil => Some (at_redial i (At Crash) s)
        end
  | Finished _ => None
  end.

(** *** The loop [j] *)
Definition loop_step (e : loop_event) (j : nat) (s : keep) : option keep :=
  l ← loops s !! j;
  let to l s := Some (with_loops (<[j := l]> (loops s)) s) in
  match l with
  | LStart => to LNext (with_shared (setState ClientSession.Running (shr s)) s)
  | LNext =>
      match proto (shr s) with
      | Some c => to (if decide (c ∈ closed (shr s)) then LCrash else LReading c) s
      | None => None
      end
  | LReading c =>
      match e with
      | LMessage => if decide (c ∈ closed (shr s)) then None else to LHandling s
      | LFails => to LFailing s
      | _ => None
      end
  | LHandling =>
      match e with
      | LHandled => to LNext s
      | LCookie c => if locked s then None else to LNext (with_shared (setCookie c (shr s)) s)
      | LFails => to LFailing s
      | LMessage => None
      end
  | LFailing => to LReport (with_shared (setState ClientSession.Error (shr s)) s)
  | LReport =>
      if errCh s then None else to LEnd (with_channels (doneCh s) true (stopCh s) s)
  | LEnd | LCrash => None
  end.

(** *** The keeper *)
Definition handleConn (hasConn : bool) (s : keep) : keep :=
  at_keeper (KStop (if hasConn then ThenRedial else ThenClose false)) (with_lastConn hasConn s).

Definition handleErr (s : keep) : keep :=
  at_keeper (if decide (state (shr s) = ClientSession.Error)
             then if lastConn s then KStop ThenRedial else KSelect
             else KSelect) s.

(** [stopRedial], to the point where [Stop] waits. *)
Definition stopRedial (wait : nat → keeper_pc) (next : keeper_pc) (s : keep) : option keep :=
  match retrier s with
  | None => Some (at_keeper next s)
  | Some i =>
      ar ← retriers s !! i;
      Some match setStateStopped ar with
           | Some ar => at_keeper (wait i) (with_redialer i ar s)
           | None => at_keeper KCrash s
           end
  end.

(** [<-ar.reallyStopped], and [sess.retrier = nil]. *)
Definition stop_returns (i : nat) (next : keeper_pc) (s : keep) : option keep :=
  ar ← retriers s !! i;
  if reallyStopped ar then Some (at_keeper next (with_retrier None s)) else None.

(** [NewAutoRedialer] and its goroutine, after [autoRedial]'s delay. *)
Definition new_redialer (s : keep) : keep :=
  match retrier s with
  | Some _ => at_keeper KCrash s
  | None =>
      Keep KSelect (Some (length (retriers s))) (retriers s ++ [NewAutoRedialer])
        (redials s ++ [At RedialCalled]) (shr s) (loops s) (lastConn s) (locked s)
        (doneCh s) (errCh s) (stopCh s)
  end.

Definition shutdown (s : keep) : option keep :=
  match keeper s with
  | KShutLock => if locked s then None else Some (at_keeper KShutStop (with_lock true s))
  | KShutStop => stopRedial KShutWait KShutClose s
  | KShutWait i => stop_returns i KShutClose s
  | KShutClose =>
      Some (at_keeper KReturned (with_lock false (with_shared (closeConnection (shr s)) s)))
  | _ => None
  end.

Definition keeper_step (s : keep) : option keep :=
  match keeper s with
  | KErr => Some (handleErr s)
  | KStop a => stopRedial (λ i, KWait i a) (KThen a) s
  | KWait i a => stop_returns i (KThen a) s
  | KThen ThenRedial => Some (at_keeper KSleep s)
  | KThen (ThenClose resetCookie) =>
      if locked s then None
      else Some (at_keeper KSelect (with_shared (doClose resetCookie (shr s)) s))
  | KSleep => Some (new_redialer s)
  | KShutLock | KShutStop | KShutWait _ | KShutClose => shutdown s
  | KSelect | KReturned | KCrash => None
  end.

(** [doKeepConnection]'s select receives, a goroutine moves, or
    [StopKeepConnection] is called. *)
Inductive label :=
| GotCmd (cmd : ClientSession.sessCmd)
| GotStop
| GotDone
| GotErr
| KeeperMoves
| RedialMoves (i : nat) (net : bool) (jitter : Z)
| LoopMoves (j : nat) (e : loop_event)
| StopKeepConnection.

Definition select (l : label) (s : keep) : option keep :=
  match l with
  | GotCmd ClientSession.cmdConnect => Some (handleConn true s)
  | GotCmd ClientSession.cmdDisconnect => Some (handleConn false s)
  | GotCmd ClientSession.cmdResetCookie => Some (at_keeper (KStop (ThenClose true)) s)
  | GotStop => if stopCh s then Some (at_keeper KShutLock s) else None
  | GotDone =>
      match doneCh s with Some _ => Some (with_channels None (errCh s) (stopCh s) s) | None => None end
  | GotErr =>
      if errCh s then Some (at_keeper KErr (with_channels (doneCh s) false (stopCh s) s)) else None
  | _ => None
  end.

Definition step (l : label) (s : keep) : option keep :=
  match l with
  | KeeperMoves => keeper_step s
  | RedialMoves i net jitter => redial_step net jitter i s
  | LoopMoves j e => loop_step e j s
  | StopKeepConnection =>
      if stopCh s then None
      else Some (with_shared (setState ClientSession.Shutdown (shr s))
                   (with_channels (doneCh s) (errCh s) true s))
  | _ => match keeper s with KSelect => select l s | _ => None end
  end.

Fixpoint run (ls : list label) (s : keep) : option keep :=
  match ls with [] => Some s | l :: ls => s ← step l s; run ls s end.

Definition reachable (s : keep) : Prop := ∃ ls, run ls KeepConnection = Some s.
End steps.
End Keeper.

Module KeeperSpec.
Import Keeper.
#[local] Arguments own_step : simpl never.

(** A redial goroutine as a thread of its [autoRedialer]; and the keeper, as
    the one thread that ever stops it. *)
Definition as_thread (r : redial) : pc :=
  match r with At p => p | Dialing n _ => RDial n | Finished n => RRet n end.

Definition waits (k : keeper_pc) : bool :=
  match k with KWait _ _ | KShutWait _ => true | _ => false end.

Definition stopper (i : nat) (s : keep) : pc :=
  if decide (retrier s = Some i) then if waits (keeper s) then SWait else StopCalled else SRet.

(** What the steps of a dial rely on. *)
Definition dial_ok (d : dial) (sh : shared) : Prop :=
  match d with
  | DHosts | DConnect | DSetConn _ => Connection sh = None
  | DConnected | DGetConn => is_Some (Connection sh)
  | DStarted | DLoop => is_Some (proto sh)
  | _ => True
  end.

(** No connection is lost: each is closed, is the session's, or is about to be. *)
Definition covered (d : dial) (sh : shared) : Prop :=
  ∀ c, c < opened sh → c ∈ closed sh ∨ Connection sh = Some c ∨ d = DSetConn c.

Lemma dial_step_ok net d sh sh' next :
  dial_step net d sh = (sh', next) → dial_ok d sh → covered d sh →
  match next with
  | DTo d' => dial_ok d' sh' ∧ covered d' sh'
  | DGo d' => dial_ok d' sh' ∧ covered d' sh' ∧ is_Some (proto sh')
  | DRet _ => True
  | DNil => False
  end ∧ (is_Some (proto sh) → is_Some (proto sh')) ∧
  match next with
  | DRet _ => Connection sh' = Connection sh ∧ opened sh' = opened sh ∧ closed sh' = closed sh ∧
              proto sh' = proto sh ∧ (∀ c, d ≠ DSetConn c)
  | _ => True
  end.
Proof.
  unfold covered. intros Hs Hok Hc. destruct sh as [[c0|] op cl pr ck st], d, net; cbn in *;
    simplify_eq/=; split_and?; try done; try (by destruct Hok); intros c' Hlt;
    try (destruct (decide (c' = op)) as [->|]; [by right; right|]);
    destruct (Hc c' ltac:(lia)) as [?|[?|?]]; simplify_eq/=; set_solver.
Qed.

(** Where the keeper is in [stopRedial]. *)
Definition keeper_ok (k : keeper_pc) (retrier : option nat) : Prop :=
  match k with
  | KWait i _ | KShutWait i => retrier = Some i
  | KThen _ | KSleep | KShutClose | KReturned => retrier = None
  | KCrash => False
  | _ => True
  end.

(** Between [stopRedial] and what follows it a connection may be left. *)
Definition after_stopRedial (k : keeper_pc) : bool :=
  match k with KThen _ | KSleep | KShutClose => true | _ => false end.

Definition holds_lock (k : keeper_pc) : bool :=
  match k with KShutStop | KShutWait _ | KShutClose => true | _ => false end.

Section spec.
Context (timeouts : list Z).
Hypothesis Htimeouts : timeouts ≠ [].
Hypothesis Hlen : (Z.of_nat (length timeouts) < 2 ^ 32)%Z.

(** Every retrier, its goroutine and the keeper are a system of [Redialer]. *)
Definition views (s : keep) : Prop :=
  ∀ i ar r, retriers s !! i = Some ar → redials s !! i = Some r →
    Redialer.reachable timeouts true (ar, [as_thread r; stopper i s]).

Record inv (s : keep) : Prop := {
  inv_length : length (retriers s) = length (redials s);
  inv_retrier : ∀ i, retrier s = Some i → i < length (retriers s);
  inv_keeper : keeper_ok (keeper s) (retrier s);
  inv_lock : locked s = holds_lock (keeper s);
  inv_views : views s;
  inv_dial : ∀ i n d, redials s !! i = Some (Dialing n d) → dial_ok d (shr s);
  inv_conns : ∀ c, c < opened (shr s) →
    c ∈ closed (shr s) ∨ Connection (shr s) = Some c ∨
    ∃ i n, redials s !! i = Some (Dialing n (DSetConn c));
  inv_idle : retrier s = None → after_stopRedial (keeper s) = false → Connection (shr s) = None;
  inv_proto : loops s ≠ [] → is_Some (proto (shr s));
}.

Lemma view_redial net jitter ar p ar' p' q :
  Redialer.reachable timeouts true (ar, [p; q]) →
  Redialer.step timeouts true net jitter ar p = Some (ar', p') →
  Redialer.reachable timeouts true (ar', [p'; q]).
Proof. intros Hr Hs. eapply Next; [done|]. by apply (Step _ _ net jitter ar ar' [p; q] 0 p p'). Qed.

Lemma view_stop ar p q ar' q' :
  Redialer.reachable timeouts true (ar, [p; q]) →
  Redialer.step timeouts true true 0 ar q = Some (ar', q') →
  Redialer.reachable timeouts true (ar', [p; q']).
Proof. intros Hr Hs. eapply Next; [done|]. by apply (Step _ _ true 0%Z ar ar' [p; q] 1 q q'). Qed.

Lemma view_no_crash ar p q : Redialer.reachable timeouts true (ar, [p; q]) → p ≠ Crash ∧ q ≠ Crash.
Proof using Htimeouts Hlen.
  intros Hr. apply redialer_reachable_inv in Hr as [(HC & _) _]; [|done..].
  split; intros ->; apply HC; set_solver.
Qed.

(** A stopped redialer is not in its loop, so not in a dial. *)
Lemma view_stopped ar p : Redialer.reachable timeouts true (ar, [p; SRet]) → active p = false.
Proof using Htimeouts Hlen.
  intros Hr. apply redialer_reachable_inv in Hr as [(_ & HR & HS & _) _]; [|done..].
  destruct HR as [Hs Hrs]; [set_solver|]. rewrite Hs in HS. destruct HS as [_ HS].
  unfold running_or_done in HS. rewrite Hrs in HS. eapply actives_none; [done|set_solver].
Qed.

Lemma active_current s i r :
  inv s → redials s !! i = Some r → active (as_thread r) = true → retrier s = Some i.
Proof using Htimeouts Hlen.
  intros Hi Hr Ha. destruct (decide (retrier s = Some i)) as [|Hn]; [done|exfalso].
  destruct (lookup_lt_is_Some_2 (retriers s) i) as [ar Har].
  { rewrite (inv_length s Hi). by eapply lookup_lt_Some. }
  pose proof (inv_views s Hi i ar r Har Hr) as Hv. unfold stopper in Hv.
  rewrite decide_False in Hv by done. apply view_stopped in Hv. congruence.
Qed.

Lemma dialing_current s i n d : inv s → redials s !! i = Some (Dialing n d) → retrier s = Some i.
Proof using Htimeouts Hlen. intros Hi Hr. by apply (active_current s i _ Hi Hr). Qed.

Lemma views_at s i r :
  inv s → redials s !! i = Some r →
  ∃ ar, retriers s !! i = Some ar ∧
        Redialer.reachable timeouts true (ar, [as_thread r; stopper i s]).
Proof.
  intros Hi Hr. destruct (lookup_lt_is_Some_2 (retriers s) i) as [ar Har].
  { rewrite (inv_length s Hi). by eapply lookup_lt_Some. }
  exists ar. split; [done|]. by apply (inv_views s Hi).
Qed.

Lemma KeepConnection_inv : inv KeepConnection.
Proof. constructor; try done. cbn. lia. Qed.

(** *** The redial goroutine *)
Lemma stopper_ext i s s' :
  retrier s' = retrier s → keeper s' = keeper s → stopper i s' = stopper i s.
Proof. unfold stopper. by intros -> ->. Qed.

(** Moving goroutine [i] to [r], its redialer to [ar] and the shared state to
    [sh] keeps the invariant, if the goroutine's view does and the shared state
    is as the dial there needs it. *)
Lemma redial_moved s s' i ar r r0 :
  inv s → redials s !! i = Some r0 → retrier s' = retrier s → keeper s' = keeper s →
  locked s' = locked s →
  retriers s' = <[i := ar]> (retriers s) → redials s' = <[i := r]> (redials s) →
  Redialer.reachable timeouts true (ar, [as_thread r; stopper i s]) →
  (shr s' = shr s ∨ retrier s = Some i) →
  (∀ n d, r = Dialing n d → dial_ok d (shr s')) →
  (∀ c, c < opened (shr s') →
     c ∈ closed (shr s') ∨ Connection (shr s') = Some c ∨
     (∃ n, r = Dialing n (DSetConn c)) ∨
     (∃ j n, j ≠ i ∧ redials s !! j = Some (Dialing n (DSetConn c)))) →
  (loops s' ≠ [] → is_Some (proto (shr s'))) →
  inv s'.
Proof using Htimeouts Hlen.
  intros Hi Hr0 Hrt Hk Hlk Hars Hrs Hv Hsh Hd Hc Hp.
  assert (i < length (redials s)) as Hlt by (by eapply lookup_lt_Some).
  assert (i < length (retriers s)) as Hlt' by (by rewrite (inv_length s Hi)).
  constructor.
  - rewrite Hars, Hrs, !length_insert. apply (inv_length s Hi).
  - intros j. rewrite Hrt, Hars, length_insert. apply (inv_retrier s Hi).
  - rewrite Hk, Hrt. apply (inv_keeper s Hi).
  - rewrite Hlk, Hk. apply (inv_lock s Hi).
  - intros j arj rj. rewrite Hars, Hrs, (stopper_ext j s s' Hrt Hk).
    destruct (decide (j = i)) as [->|Hne].
    + rewrite !list_lookup_insert_eq by done. by intros [= <-] [= <-].
    + rewrite !list_lookup_insert_ne by done. apply (inv_views s Hi).
  - intros j n d. rewrite Hrs. destruct (decide (j = i)) as [->|Hne].
    + rewrite list_lookup_insert_eq by done. intros [= ->]. by eapply Hd.
    + rewrite list_lookup_insert_ne by done. intros Hj.
      destruct Hsh as [-> |Hcur]; [by apply (inv_dial s Hi j n)|].
      apply (dialing_current s j n d Hi) in Hj. congruence.
  - intros c Hcl. destruct (Hc c Hcl) as [?|[?|[[n ->]|(j & n & Hne & Hj)]]]; [by left|by right;left|..].
    + right; right. exists i, n. by rewrite Hrs, list_lookup_insert_eq.
    + right; right. exists j, n. by rewrite Hrs, list_lookup_insert_ne.
  - rewrite Hrt, Hk. intros Hn Ha. destruct Hsh as [->|Hcur]; [by apply (inv_idle s Hi)|congruence].
  - done.
Qed.
(** Connections are as before, and goroutine [i] was not about to set one. *)
Lemma conns_elsewhere s i r0 :
  inv s → redials s !! i = Some r0 → (∀ n c, r0 ≠ Dialing n (DSetConn c)) →
  ∀ (r : redial) c, c < opened (shr s) →
    c ∈ closed (shr s) ∨ Connection (shr s) = Some c ∨
    (∃ n, r = Dialing n (DSetConn c)) ∨
    (∃ j n, j ≠ i ∧ redials s !! j = Some (Dialing n (DSetConn c))).
Proof.
  intros Hi Hr0 Hne r c Hc. destruct (inv_conns s Hi c Hc) as [?|[?|(j & n & Hj)]]; [by auto..|].
  right; right; right. exists j, n. split; [|done]. intros ->. rewrite Hr0 in Hj.
  injection Hj as ->. by eapply Hne.
Qed.

Lemma own_step_inv s i net jitter ar p r0 s' :
  inv s → retriers s !! i = Some ar → redials s !! i = Some r0 → as_thread r0 = p →
  (∀ n c, r0 ≠ Dialing n (DSetConn c)) →
  own_step timeouts net jitter i ar p s = Some s' → inv s'.
Proof using Htimeouts Hlen.
  intros Hi Har Hr0 Hp Hne Hs. unfold own_step in Hs.
  destruct (Redialer.step timeouts true net jitter ar p) as [[ar' p']|] eqn:Hst; [|done].
  injection Hs as <-.
  eapply (redial_moved s _ i ar' (At p') r0); try done.
  - eapply view_redial; [|exact Hst]. rewrite <-Hp. by apply (inv_views s Hi).
  - by left.
  - by apply (conns_elsewhere s i r0).
  - apply (inv_proto s Hi).
Qed.

(** A step that leaves goroutine [i]'s thread where it is. *)
Lemma redial_stutters s s' i r r0 :
  inv s → redials s !! i = Some r0 → as_thread r = as_thread r0 →
  retrier s' = retrier s → keeper s' = keeper s → locked s' = locked s →
  retriers s' = retriers s → redials s' = <[i := r]> (redials s) →
  (shr s' = shr s ∨ retrier s = Some i) →
  (∀ n d, r = Dialing n d → dial_ok d (shr s')) →
  (∀ c, c < opened (shr s') →
     c ∈ closed (shr s') ∨ Connection (shr s') = Some c ∨
     (∃ n, r = Dialing n (DSetConn c)) ∨
     (∃ j n, j ≠ i ∧ redials s !! j = Some (Dialing n (DSetConn c)))) →
  (loops s' ≠ [] → is_Some (proto (shr s'))) →
  inv s'.
Proof using Htimeouts Hlen.
  intros Hi Hr0 Ht Hrt Hk Hlk Hars Hrs Hsh Hd Hc Hp.
  destruct (views_at s i r0 Hi Hr0) as (ar & Har & Hv).
  eapply (redial_moved s s' i ar r r0); try done.
  - by rewrite list_insert_id.
  - by rewrite Ht.
Qed.

(** The session's state and cookie, the channels and the loops that run matter
    to none of this. *)
Lemma inv_side s s' :
  inv s → keeper s' = keeper s → retrier s' = retrier s → retriers s' = retriers s →
  redials s' = redials s → locked s' = locked s →
  Connection (shr s') = Connection (shr s) → opened (shr s') = opened (shr s) →
  closed (shr s') = closed (shr s) → proto (shr s') = proto (shr s) →
  (loops s' ≠ [] → loops s ≠ []) → inv s'.
Proof.
  intros [? ? ? ? Hv Hd Hc Hid Hpr] Hk Hrt Hars Hrs Hlk H1 H2 H3 H4 Hls.
  constructor; rewrite ?Hk, ?Hrt, ?Hars, ?Hrs, ?Hlk, ?H1, ?H2, ?H3, ?H4; try done.
  - intros i ar r. rewrite Hars, Hrs, (stopper_ext i s s' Hrt Hk). apply Hv.
  - intros i n d Hj. specialize (Hd i n d Hj). destruct d; cbn in *; congruence.
  - intros Hl. by apply Hpr, Hls.
Qed.

Lemma dialing_moved s i n d d' sh ls :
  inv s → redials s !! i = Some (Dialing n d) →
  dial_ok d' sh → covered d' sh → (ls ≠ [] → is_Some (proto sh)) →
  inv (at_redial i (Dialing n d') (with_loops ls (with_shared sh s))).
Proof using Htimeouts Hlen.
  intros Hi Hr Hok Hc Hp. pose proof (dialing_current s i n d Hi Hr) as Hcur.
  eapply (redial_stutters s _ i (Dialing n d')); [done|exact Hr|done..|by right| | |done].
  - by intros ? ? [= <- <-].
  - intros c Hlt. destruct (Hc c Hlt) as [?|[?| ->]]; eauto.
Qed.

Lemma dialing_covered s i n d : inv s → redials s !! i = Some (Dialing n d) → covered d (shr s).
Proof using Htimeouts Hlen.
  intros Hi Hr c Hc. destruct (inv_conns s Hi c Hc) as [?|[?|(j & m & Hj)]]; [by auto..|].
  assert (i = j) as <-.
  { apply (dialing_current s i) in Hr; [|done]. apply (dialing_current s j) in Hj; [|done]. congruence. }
  rewrite Hr in Hj. injection Hj as -> ->. by right; right.
Qed.

Lemma redial_step_inv net jitter i s s' :
  inv s → redial_step timeouts net jitter i s = Some s' → inv s'.
Proof using Htimeouts Hlen.
  intros Hi Hs. unfold redial_step in Hs.
  destruct (retriers s !! i) as [ar|] eqn:Har; [cbn in Hs|done].
  destruct (redials s !! i) as [r|] eqn:Hr; [cbn in Hs|done].
  destruct r as [p|n d|n]; [|destruct (takes_connLock d && locked s); [done|]|done].
  - assert (own_step timeouts net jitter i ar p s = Some s' → inv s') as Hown
      by (by eapply own_step_inv).
    destruct p; try by apply Hown.
    + injection Hs as <-. eapply (redial_stutters s _ i (Dialing dialAttempts DClose)); [done|exact Hr|done..|by left| | |].
      * by intros ? ? [= <- <-].
      * by apply (conns_elsewhere s i _ Hi Hr).
      * apply (inv_proto s Hi).
    + destruct (doneCh s); [done|]. injection Hs as <-.
      eapply (redial_stutters s _ i (Finished n)); [done|exact Hr|done..|by left|done| |].
      * by apply (conns_elsewhere s i _ Hi Hr).
      * apply (inv_proto s Hi).
  - destruct (dial_step net d (shr s)) as [sh next] eqn:Hd.
    pose proof (dialing_covered s i n d Hi Hr) as Hcov.
    pose proof (dial_step_ok net d _ sh next Hd (inv_dial s Hi i n d Hr) Hcov) as (Hn & Hp & Hret).
    destruct next as [d'|d'|ok|]; [injection Hs as <-..| |done].
    + apply (dialing_moved s i n d d' sh (loops s)); try done; [apply Hn..|].
      intros Hl. by apply Hp, (inv_proto s Hi).
    + destruct Hn as (? & ? & ?). by apply (dialing_moved s i n d).
    + destruct Hret as (H1 & H2 & H3 & H4 & Hne).
      eapply (own_step_inv (with_shared sh s) i ok jitter ar (RDial n) (Dialing n d));
        [by apply (inv_side s)|done|exact Hr|done| |exact Hs].
      intros m c [= _ ->]. by eapply Hne.
Qed.
(** *** The loops *)
Lemma loop_step_inv e j s s' : inv s → loop_step e j s = Some s' → inv s'.
Proof.
  intros Hi Hs. unfold loop_step in Hs. destruct (loops s !! j) as [l|] eqn:Hl; [cbn in Hs|done].
  assert (loops s ≠ []) as Hne by (by destruct (loops s)).
  destruct l; repeat case_match; simplify_eq/=; by apply (inv_side s).
Qed.

(** *** The keeper *)

(** The keeper moves without touching the redialers; when it closes the
    connection, no dial is in progress. *)
Lemma keeper_moved s s' :
  inv s → retrier s' = retrier s → retriers s' = retriers s → redials s' = redials s →
  loops s' = loops s → waits (keeper s') = waits (keeper s) →
  keeper_ok (keeper s') (retrier s) → locked s' = holds_lock (keeper s') →
  proto (shr s') = proto (shr s) →
  (shr s' = shr s ∧ (after_stopRedial (keeper s) = true → after_stopRedial (keeper s') = true) ∨
   retrier s = None ∧ Connection (shr s') = None ∧ opened (shr s') = opened (shr s) ∧
   ∀ c, c ∈ closed (shr s) ∨ Connection (shr s) = Some c → c ∈ closed (shr s')) →
  inv s'.
Proof using Htimeouts Hlen.
  intros Hi Hrt Hars Hrs Hls Hw Hok Hlk Hp Hsh.
  assert (retrier s = None → ∀ i n d, redials s !! i ≠ Some (Dialing n d)) as Hno.
  { intros Hn i n d Hd. apply (dialing_current s i) in Hd; [congruence|done]. }
  constructor; rewrite ?Hrt, ?Hars, ?Hrs, ?Hls, ?Hp; try done; try apply Hi.
  - intros i ar r. rewrite Hars, Hrs. unfold stopper. rewrite Hrt, Hw. apply (inv_views s Hi).
  - intros i n d Hd. destruct Hsh as [[-> _]|[Hn _]]; [by apply (inv_dial s Hi i n)|].
    by apply Hno in Hd.
  - intros c Hc. destruct Hsh as [[Hsh _]|(Hn & _ & Ho & Hcl)].
    + rewrite Hsh in *. by apply (inv_conns s Hi).
    + left. apply Hcl. rewrite Ho in Hc.
      destruct (inv_conns s Hi c Hc) as [?|[?|(i & n & Hd)]]; [by auto..|]. by apply Hno in Hd.
  - intros Hn Ha. destruct Hsh as [[-> Hb]|(_ & ? & _)]; [|done].
    apply (inv_idle s Hi); [done|]. by destruct (after_stopRedial (keeper s)); [rewrite Hb in Ha|].
Qed.

Lemma stopRedial_inv (wait : nat → keeper_pc) (next : keeper_pc) s s' :
  inv s → waits (keeper s) = false → waits next = false →
  (∀ i, waits (wait i) = true ∧ after_stopRedial (wait i) = false ∧
        keeper_ok (wait i) (Some i) ∧ holds_lock (wait i) = holds_lock (keeper s)) →
  keeper_ok next None → holds_lock next = holds_lock (keeper s) → after_stopRedial next = true →
  stopRedial wait next s = Some s' → inv s'.
Proof using Htimeouts Hlen.
  intros Hi Hw Hwn Hwait Hnext Hln Han Hs. unfold stopRedial in Hs.
  destruct (retrier s) as [i|] eqn:Hrt.
  - destruct (retriers s !! i) as [ar|] eqn:Har; [cbn in Hs|done].
    destruct (lookup_lt_is_Some_2 (redials s) i) as [r Hr].
    { rewrite <-(inv_length s Hi). by eapply lookup_lt_Some. }
    pose proof (inv_views s Hi i ar r Har Hr) as Hv. unfold stopper in Hv.
    rewrite decide_True, Hw in Hv by done.
    destruct (setStateStopped ar) as [ar'|] eqn:Hst; cycle 1.
    { exfalso. eapply (view_stop _ _ _ ar Crash) in Hv; [|cbn; by rewrite Hst].
      by apply view_no_crash in Hv as [_ ?]. }
    injection Hs as <-. destruct (Hwait i) as (Hw1 & Hw2 & Hw3 & Hw4).
    eapply (view_stop _ _ _ ar' SWait) in Hv; [|cbn; by rewrite Hst].
    constructor; cbn; try apply Hi.
    + rewrite length_insert. apply (inv_length s Hi).
    + intros j. rewrite length_insert. apply (inv_retrier s Hi).
    + by rewrite Hrt.
    + by rewrite Hw4, (inv_lock s Hi).
    + intros j arj rj. cbn. unfold stopper. cbn. rewrite Hw1, Hrt.
      destruct (decide (j = i)) as [->|Hne].
      * rewrite list_lookup_insert_eq by (by eapply lookup_lt_Some).
        rewrite decide_True by done. intros [= <-]. congruence.
      * rewrite list_lookup_insert_ne, decide_False by (done || congruence).
        intros Hj1 Hj2. pose proof (inv_views s Hi j arj rj Hj1 Hj2) as Hvj. unfold stopper in Hvj.
        rewrite decide_False in Hvj by congruence. done.
    + by rewrite Hrt.
  - injection Hs as <-. apply (keeper_moved s); try done; cbn.
    + by rewrite Hw.
    + by rewrite Hrt.
    + by rewrite Hln, (inv_lock s Hi).
    + by left.
Qed.

Lemma stop_returns_inv i (next : keeper_pc) s s' :
  inv s → keeper_ok (keeper s) (Some i) → retrier s = Some i → waits (keeper s) = true →
  keeper_ok next None → holds_lock next = holds_lock (keeper s) → after_stopRedial next = true →
  stop_returns i next s = Some s' → inv s'.
Proof.
  intros Hi _ Hrt Hw Hnext Hln Han Hs. unfold stop_returns in Hs.
  destruct (retriers s !! i) as [ar|] eqn:Har; [cbn in Hs|done].
  destruct (reallyStopped ar) eqn:Hrs; [|done]. injection Hs as <-.
  constructor; cbn; try apply Hi; try done.
  - by rewrite Hln, (inv_lock s Hi).
  - intros j arj rj Hj1 Hj2. cbn in Hj1, Hj2.
    pose proof (inv_views s Hi j arj rj Hj1 Hj2) as Hvj.
    unfold stopper in *. cbn. rewrite Hrt, Hw in Hvj.
    case_decide as Hd; [|done]. injection Hd as <-.
    eapply view_stop; [exact Hvj|]. cbn. rewrite Har in Hj1. injection Hj1 as <-. by rewrite Hrs.
  - congruence.
Qed.

Lemma new_redialer_inv s : inv s → keeper s = KSleep → inv (new_redialer s).
Proof.
  intros Hi Hk. pose proof (inv_keeper s Hi) as Hn. rewrite Hk in Hn. cbn in Hn.
  unfold new_redialer. rewrite Hn.
  constructor; cbn; try done; try apply Hi.
  - by rewrite !length_app, (inv_length s Hi).
  - intros j [= <-]. rewrite length_app. cbn. lia.
  - by rewrite (inv_lock s Hi), Hk.
  - intros j ar r Hj1 Hj2. cbn in Hj1, Hj2. unfold stopper. cbn.
    apply lookup_app_Some in Hj1 as [Hj1|[Hl Hj1]].
    + pose proof (lookup_lt_Some _ _ _ Hj1). rewrite decide_False by (intros [= ?]; lia).
      rewrite lookup_app_l in Hj2 by (rewrite <-(inv_length s Hi); lia).
      pose proof (inv_views s Hi j ar r Hj1 Hj2) as Hv. unfold stopper in Hv.
      by rewrite decide_False in Hv by congruence.
    + rewrite lookup_app_r in Hj2 by (rewrite <-(inv_length s Hi); lia).
      rewrite <-(inv_length s Hi) in Hj2.
      destruct (j - length (retriers s)) eqn:Hz; [|done]. cbn in *. simplify_eq.
      rewrite decide_True by (f_equal; lia). apply Start. repeat constructor; (by left) || by right.
  - intros j n d [Hj|[Hl Hj]]%lookup_app_Some; [by apply (inv_dial s Hi j n)|].
    by destruct (j - length (redials s)).
  - intros c Hc. destruct (inv_conns s Hi c Hc) as [?|[?|(j & n & Hj)]]; [by auto..|].
    right; right. exists j, n. by apply lookup_app_l_Some.
Qed.

Lemma closeConnection_closes sh c :
  c ∈ closed sh ∨ Connection sh = Some c → c ∈ closed (closeConnection sh).
Proof. unfold closeConnection. destruct (Connection sh); cbn; set_solver. Qed.

Lemma closeConnection_fields sh :
  Connection (closeConnection sh) = None ∧ opened (closeConnection sh) = opened sh ∧
  proto (closeConnection sh) = proto sh.
Proof. unfold closeConnection. by destruct (Connection sh) eqn:E. Qed.

Lemma doClose_fields reset sh :
  Connection (doClose reset sh) = None ∧ opened (doClose reset sh) = opened sh ∧
  proto (doClose reset sh) = proto sh ∧
  ∀ c, c ∈ closed sh ∨ Connection sh = Some c → c ∈ closed (doClose reset sh).
Proof.
  unfold doClose. set (sh' := if reset then _ else sh).
  destruct (closeConnection_fields sh') as (H1 & H2 & H3). cbn. rewrite H1, H2, H3.
  split_and!; [by destruct reset..|]. intros c Hc. apply closeConnection_closes. by destruct reset.
Qed.

Lemma keeper_step_inv s s' : inv s → keeper_step s = Some s' → inv s'.
Proof using Htimeouts Hlen.
  intros Hi Hs. unfold keeper_step, handleErr, shutdown in Hs. pose proof (inv_keeper s Hi) as Hok.
  pose proof (inv_lock s Hi) as Hlk.
  destruct (keeper s) as [| |a|i a|a| | | |i| | |] eqn:Hk; cbn in Hok, Hlk; try done.
  - injection Hs as <-. apply (keeper_moved s); try done; cbn; rewrite ?Hk, ?Hlk;
      [..|by left]; by repeat case_match.
  - eapply stopRedial_inv; [done|..|exact Hs]; try done; by rewrite Hk.
  - eapply stop_returns_inv; [done|..|exact Hs]; try done; by rewrite Hk.
  - destruct a.
    + injection Hs as <-. apply (keeper_moved s); try done; cbn; rewrite ?Hk; try done. by left.
    + destruct (locked s) eqn:Hl; [done|]. injection Hs as <-.
      destruct (doClose_fields resetCookie (shr s)) as (? & ? & ? & ?).
      apply (keeper_moved s); try done; cbn; [by rewrite Hk|by right].
  - injection Hs as <-. by apply new_redialer_inv.
  - rewrite Hlk in Hs. injection Hs as <-.
    apply (keeper_moved s); try done; cbn; rewrite ?Hk; try done. by left.
  - eapply stopRedial_inv; [done|..|exact Hs]; try done; by rewrite Hk.
  - eapply stop_returns_inv; [done|..|exact Hs]; try done; by rewrite Hk.
  - injection Hs as <-. destruct (closeConnection_fields (shr s)) as (? & ? & ?).
    apply (keeper_moved s); try done; cbn; [by rewrite Hk|].
    right. split_and!; try done. apply closeConnection_closes.
Qed.

Lemma keep_step_inv l s s' : inv s → step timeouts l s = Some s' → inv s'.
Proof using Htimeouts Hlen.
  intros Hi Hs.
  assert (∀ l, keeper s = KSelect → select l s = Some s' → inv s') as Hsel.
  { intros l' Hk Hs'. pose proof (inv_lock s Hi) as Hlk. rewrite Hk in Hlk.
    destruct l' as [[]| | | | | | |]; cbn in Hs'; repeat case_match; simplify_eq/=;
      try (by apply (inv_side s));
      (apply (keeper_moved s); try done; cbn; rewrite ?Hk; try done; by left). }
  destruct l; cbn [step] in Hs; try (destruct (keeper s) eqn:Hk; [|done..]; by eapply Hsel).
  - by eapply keeper_step_inv.
  - by eapply redial_step_inv.
  - by eapply loop_step_inv.
  - destruct (stopCh s); [done|]. injection Hs as <-. by apply (inv_side s).
Qed.

Lemma keep_run_inv ls s s' : inv s → run timeouts ls s = Some s' → inv s'.
Proof using Htimeouts Hlen.
  revert s. induction ls as [|l ls IH]; cbn; intros s Hi Hs; [by simplify_eq|].
  destruct (step timeouts l s) as [s1|] eqn:Hs1; [|done]. eapply (IH s1); [|done].
  by eapply keep_step_inv.
Qed.

Lemma keep_reachable_inv s : reachable timeouts s → inv s.
Proof using Htimeouts Hlen. intros [ls Hr]. eapply keep_run_inv; [apply KeepConnection_inv|done]. Qed.
(** *** Waiting for a redialer that was stopped *)

(** A bound on the steps a goroutine has left once its redialer is stopped. *)
Definition dial_left (d : dial) : nat :=
  match d with
  | DClose => 13 | DHosts => 12 | DConnect => 11 | DSetConn _ => 10 | DConnected => 9
  | DGetConn => 8 | DHello _ => 7 | DCookie _ => 6 | DAck _ _ => 5 | DStarted => 4
  | DLoop => 3 | DReturn => 2
  end.
Definition steps_left (r : redial) : nat :=
  match r with
  | At (RDial _) => 14
  | At (RWait _ _) => 3
  | At (RLoop _) | At RedialCalled | At StopCalled => 2
  | At (RRet _) | At SWait => 1
  | Dialing _ d => dial_left d
  | _ => 0
  end.

Lemma steps_left_bound r : steps_left r ≤ 14.
Proof using Type. clear Htimeouts Hlen. destruct r as [[]|? []|]; cbn; lia. Qed.

(** While the keeper waits for retrier [i], it is stopped, and goroutine [i] is
    in [Redial] or done with it. *)
Lemma waiting_view s i :
  inv s → waits (keeper s) = true → retrier s = Some i →
  ∃ ar r, retriers s !! i = Some ar ∧ redials s !! i = Some r ∧ stateValue ar = Stopped ∧
    counted (as_thread r) ∧ as_thread r ≠ Crash ∧
    reallyStopped ar = negb (active (as_thread r)).
Proof using Htimeouts Hlen.
  intros Hi Hw Hrt. pose proof (inv_retrier s Hi i Hrt) as Hlt.
  destruct (lookup_lt_is_Some_2 (retriers s) i Hlt) as [ar Har].
  rewrite (inv_length s Hi) in Hlt. destruct (lookup_lt_is_Some_2 (redials s) i Hlt) as [r Hr].
  pose proof (inv_views s Hi i ar r Har Hr) as Hv. unfold stopper in Hv.
  rewrite decide_True, Hw in Hv by done.
  apply redialer_reachable_inv in Hv as [(HC & _ & HS & HW) Hc]; [|done..].
  specialize (HW ltac:(set_solver)). rewrite HW in HS. destruct HS as [_ HS].
  exists ar, r. split_and!; try done; [by inversion Hc|set_solver|].
  unfold running_or_done, actives in HS. cbn in HS.
  destruct (active (as_thread r)), (reallyStopped ar); done || lia.
Qed.

Lemma own_step_moves net jitter j ar p s s' :
  own_step timeouts net jitter j ar p s = Some s' →
  ∃ ar' p', Redialer.step timeouts true net jitter ar p = Some (ar', p') ∧
            s' = at_redial j (At p') (with_redialer j ar' s).
Proof.
  unfold own_step. destruct (Redialer.step _ _ _ _ _ _) as [[ar' p']|]; [|done].
  intros [= <-]. by exists ar', p'.
Qed.

(** A step of goroutine [i] meanwhile takes it closer to its end. *)
Lemma redial_step_left net jitter i s s' r ar :
  retriers s !! i = Some ar → redials s !! i = Some r → stateValue ar = Stopped →
  redial_step timeouts net jitter i s = Some s' →
  keeper s' = keeper s ∧ ∃ r', redials s' !! i = Some r' ∧ steps_left r' < steps_left r.
Proof.
  intros Har Hr Hst Hs. unfold redial_step in Hs. rewrite Har, Hr in Hs. cbn in Hs.
  assert (i < length (redials s)) as Hlt by (by eapply lookup_lt_Some).
  assert (∀ ok p s1, redials s1 = redials s → keeper s1 = keeper s →
    own_step timeouts ok jitter i ar p s1 = Some s' →
    (∀ ar' p', Redialer.step timeouts true ok jitter ar p = Some (ar', p') →
       steps_left (At p') < steps_left r) →
    keeper s' = keeper s ∧ ∃ r', redials s' !! i = Some r' ∧ steps_left r' < steps_left r) as Hown.
  { intros ok p s1 Hrs Hk Ho Hm.
    apply own_step_moves in Ho as (ar' & p' & Hp & ->). cbn.
    rewrite Hrs, list_lookup_insert_eq by done. split; [done|].
    eexists. split; [done|]. by eapply Hm. }
  destruct r as [p|n d|n]; [|destruct (takes_connLock d && locked s); [done|]|done].
  - destruct p; try done.
    all: try (apply (Hown net _ s) in Hs; [done..|]; intros ar' p' Hp; cbn in Hp;
      unfold finish, close_reallyStopped, setStateIfEqual in Hp; rewrite ?Hst in Hp; cbn in Hp;
      repeat case_match; simplify_eq; cbn; lia).
    + injection Hs as <-. split; [done|]. eexists. cbn. rewrite list_lookup_insert_eq by done.
      split; [done|]. cbn. lia.
    + destruct (doneCh s); [done|]. injection Hs as <-. split; [done|]. eexists. cbn.
      rewrite list_lookup_insert_eq by done. split; [done|]. cbn. lia.
  - destruct (dial_step net d (shr s)) as [sh next] eqn:Hd.
    destruct d, net; cbn in Hd; injection Hd as <- <-; try destruct (Connection (shr s));
      cbv beta iota zeta in Hs;
      try (injection Hs as <-; split; [done|]; eexists; cbn; rewrite list_lookup_insert_eq by done;
           split; [done|cbn; lia]);
      first [ apply (Hown true (RDial n) (with_shared (shr s) s)); [done..|exact Hs|]
            | apply (Hown false (RDial n) (with_shared (setState ClientSession.Error (shr s)) s));
              [done..|exact Hs|] ];
      intros ar' p' Hp; cbn in Hp;
      unfold finish, close_reallyStopped in Hp; repeat case_match; simplify_eq; cbn; lia.
Qed.
Lemma redial_step_frame net jitter j s s' :
  redial_step timeouts net jitter j s = Some s' →
  keeper s' = keeper s ∧ locked s' = locked s ∧ ∀ i, i ≠ j → redials s' !! i = redials s !! i.
Proof.
  assert (∀ r s1, keeper s1 = keeper s → locked s1 = locked s → redials s1 = redials s →
    keeper (at_redial j r s1) = keeper s ∧ locked (at_redial j r s1) = locked s ∧
    ∀ i, i ≠ j → redials (at_redial j r s1) !! i = redials s !! i) as Hat.
  { intros r s1 Hk Hl Hr. split_and!; [done..|]. intros i Hne. cbn.
    by rewrite list_lookup_insert_ne, Hr. }
  intros Hs. unfold redial_step in Hs.
  destruct (retriers s !! j) as [ar|]; [cbn in Hs|done].
  destruct (redials s !! j) as [r|]; [cbn in Hs|done].
  destruct r as [p|n d|n]; [|destruct (takes_connLock d && locked s); [done|]|done].
  - assert (own_step timeouts net jitter j ar p s = Some s' →
      keeper s' = keeper s ∧ locked s' = locked s ∧
      ∀ i, i ≠ j → redials s' !! i = redials s !! i) as Hown.
    { intros (ar' & p' & _ & ->)%own_step_moves. by apply Hat. }
    destruct p; try by apply Hown.
    + injection Hs as <-. by apply Hat.
    + destruct (doneCh s); [done|]. injection Hs as <-. by apply Hat.
  - destruct (dial_step net d (shr s)) as [sh []]; try (injection Hs as <-; by apply Hat).
    apply own_step_moves in Hs as (ar' & p' & _ & ->). by apply Hat.
Qed.

Definition moves_of (i : nat) (l : label) : bool :=
  match l with RedialMoves j _ _ => bool_decide (j = i) | _ => false end.

Definition waits_for (k : keeper_pc) (i : nat) : Prop :=
  match k with KWait j _ | KShutWait j => j = i | _ => False end.

Lemma waits_for_waits s i :
  inv s → waits_for (keeper s) i → waits (keeper s) = true ∧ retrier s = Some i.
Proof.
  intros Hi Hw. pose proof (inv_keeper s Hi) as Hok.
  destruct (keeper s); try done; cbn in *; by subst.
Qed.

(** A step of anyone but the keeper leaves the keeper waiting, and every
    goroutine but its own where it is. *)
Lemma step_waiting l s s' i :
  step timeouts l s = Some s' → l ≠ KeeperMoves → waits_for (keeper s) i →
  keeper s' = keeper s ∧ locked s' = locked s ∧
  (moves_of i l = false → redials s' !! i = redials s !! i).
Proof.
  intros Hs Hne Hw. destruct l as [| | | | |j net jitter|j e|]; cbn [step] in Hs;
    try (by destruct (keeper s)); try done.
  - apply redial_step_frame in Hs as (Hk & Hl & Hr). split_and!; [done..|].
    cbn. intros Hj%bool_decide_eq_false. by apply Hr.
  - unfold loop_step in Hs. destruct (loops s !! j) as [lp|]; [cbn in Hs|done].
    destruct lp; repeat case_match; by simplify_eq/=.
  - destruct (stopCh s); [done|]. by injection Hs as <-.
Qed.

Lemma waiting_run ls s s' i r :
  inv s → waits_for (keeper s) i → redials s !! i = Some r →
  run timeouts ls s = Some s' → KeeperMoves ∉ ls →
  keeper s' = keeper s ∧ locked s' = locked s ∧
  ∃ r', redials s' !! i = Some r' ∧
        length (filter (λ l, moves_of i l = true) ls) + steps_left r' ≤ steps_left r.
Proof using Htimeouts Hlen.
  revert s r. induction ls as [|l ls IH]; intros s r Hi Hw Hr Hrun Hk; cbn in Hrun.
  { simplify_eq. split; [done|]. split; [done|]. exists r. split; [done|]. cbn. lia. }
  destruct (step timeouts l s) as [s1|] eqn:Hs; [|done]. cbn in Hrun.
  rewrite not_elem_of_cons in Hk. destruct Hk as [Hne Hk].
  destruct (step_waiting l s s1 i Hs ltac:(done) Hw) as (Hk1 & Hl1 & Hr1).
  pose proof (keep_step_inv l s s1 Hi Hs) as Hi1.
  destruct (waits_for_waits s i Hi Hw) as [Hw' Hrt].
  assert (∃ r1, redials s1 !! i = Some r1 ∧
    (if moves_of i l then 1 else 0) + steps_left r1 ≤ steps_left r) as (r1 & Hr1' & Hm).
  { destruct (moves_of i l) eqn:Hmv; [|exists r; split; [by rewrite Hr1|lia]].
    destruct l; try done. cbn in Hmv. apply bool_decide_eq_true in Hmv as ->. cbn in Hs.
    destruct (waiting_view s i Hi Hw' Hrt) as (ar & r0 & Har & Hr0 & Hst & _).
    assert (r0 = r) as -> by congruence.
    destruct (redial_step_left net jitter i s s1 r ar Har Hr Hst Hs) as (_ & r1 & ? & ?).
    exists r1. split; [done|lia]. }
  destruct (IH s1 r1 Hi1 ltac:(by rewrite Hk1) Hr1' Hrun Hk) as (Hk2 & Hl2 & r' & Hr' & Hm').
  split; [congruence|]. split; [congruence|]. exists r'. split; [done|].
  rewrite filter_cons. case_decide as Hd; cbn.
  - rewrite Hd in Hm. lia.
  - apply not_true_is_false in Hd. rewrite Hd in Hm. lia.
Qed.

(** In [Redial] and not waiting for [connLock], a goroutine can move. *)
Lemma redial_can_move net jitter i s ar r :
  retriers s !! i = Some ar → redials s !! i = Some r → active (as_thread r) = true →
  (∀ n d, r = Dialing n d → takes_connLock d && locked s = false) →
  is_Some (redial_step timeouts net jitter i s).
Proof.
  intros Har Hr Ha Hl. unfold redial_step. rewrite Har, Hr. cbn.
  destruct r as [p|n d|n]; [|rewrite (Hl n d eq_refl)|done].
  - destruct p; try done; unfold own_step; cbn.
    + by case_decide; [|destruct (finish ar _)].
  - destruct (dial_step net d (shr s)) as [sh next]. destruct next as [| |ok|]; try done.
    unfold own_step. cbn. destruct ok; [by destruct (finish ar _)|].
    by destruct (backoff timeouts n).
Qed.

(** [shutdown]'s own wait: in the dial, at a step under the lock it holds,
    nobody who could end it can move. *)
Lemma deadlocked_step l s s' i n d :
  inv s → keeper s = KShutWait i → redials s !! i = Some (Dialing n d) →
  takes_connLock d = true → step timeouts l s = Some s' →
  keeper s' = KShutWait i ∧ redials s' !! i = Some (Dialing n d).
Proof using Htimeouts Hlen.
  intros Hi Hk Hr Hd Hs.
  assert (waits_for (keeper s) i) as Hw by (by rewrite Hk).
  destruct (waits_for_waits s i Hi Hw) as [Hw' Hrt].
  destruct (waiting_view s i Hi Hw' Hrt) as (ar & r & Har & Hr' & _ & _ & _ & Hrs).
  assert (r = Dialing n d) as -> by congruence. cbn in Hrs.
  assert (l ≠ KeeperMoves) as Hne.
  { intros ->. cbn in Hs. unfold keeper_step, shutdown, stop_returns in Hs. rewrite Hk, Har in Hs. cbn in Hs.
    by rewrite Hrs in Hs. }
  destruct (step_waiting l s s' i Hs Hne Hw) as (Hk' & _ & Hrd).
  split; [congruence|]. destruct (moves_of i l) eqn:Hmv; [|by rewrite Hrd].
  destruct l; try done. cbn in Hmv. apply bool_decide_eq_true in Hmv as ->.
  cbn in Hs. unfold redial_step in Hs. rewrite Har, Hr in Hs. cbn in Hs.
  pose proof (inv_lock s Hi) as Hl. rewrite Hk in Hl. cbn in Hl. by rewrite Hd, Hl in Hs.
Qed.
End spec.
End KeeperSpec.

Module KeeperProps.
Import Keeper KeeperSpec.

(** The session connects: the command, the keeper's way to a new redialer, and
    [k] steps of its goroutine [i]; fifteen of them end the dial. *)
Definition connecting (i k : nat) : list label :=
  GotCmd ClientSession.cmdConnect :: replicate (if i is 0 then 3 else 4) KeeperMoves ++
  replicate k (RedialMoves i true 0).

(** … and [StopKeepConnection] is called as the connection is being set. *)
Definition stopped_in_dial : list label :=
  connecting 0 6 ++ [StopKeepConnection; GotStop; KeeperMoves; KeeperMoves].

(** The state a script leads to. *)
Definition after (ls : list label) : keep :=
  default KeepConnection (run init_timeouts ls KeepConnection).

Lemma after_reachable ls :
  is_Some (run init_timeouts ls KeepConnection) → reachable init_timeouts (after ls).
Proof. intros [s Hs]. exists ls. unfold after. by rewrite Hs. Qed.

Lemma init_timeouts_ok : init_timeouts ≠ [] ∧ (Z.of_nat (length init_timeouts) < 2 ^ 32)%Z.
Proof. by vm_compute. Qed.

(** C17: one dial at a time, and no connection left open. However the keeper, the
    redial goroutines and the loops interleave, the keeper never panics (on a
    retrier it did not expect, on a channel closed twice), [start] always finds
    a connection, a goroutine is in [Dial] only if its retrier is the session's
    current one, so never two of them, and every connection ever opened is
    closed, is the session's, or is the one the dial in progress has just made.
    When [shutdown] has returned nothing dials and every connection is closed. *)
Theorem one_dial_at_a_time timeouts s :
  timeouts ≠ [] → (Z.of_nat (length timeouts) < 2 ^ 32)%Z → reachable timeouts s →
  keeper s ≠ KCrash ∧ (∀ i, redials s !! i ≠ Some (At Crash)) ∧
  (∀ i n d, redials s !! i = Some (Dialing n d) → retrier s = Some i) ∧
  (∀ c, c < opened (shr s) → c ∉ closed (shr s) →
     Connection (shr s) = Some c ∨
     ∃ i n, retrier s = Some i ∧ redials s !! i = Some (Dialing n (DSetConn c))) ∧
  (keeper s = KReturned →
     (∀ i n d, redials s !! i ≠ Some (Dialing n d)) ∧
     ∀ c, c < opened (shr s) → c ∈ closed (shr s)).
Proof.
  intros Hne Hlen Hr. apply keep_reachable_inv in Hr as Hi; [|done..].
  pose proof (λ i n d, dialing_current timeouts Hne Hlen s i n d Hi) as Hcur.
  pose proof (inv_keeper _ s Hi) as Hok.
  split_and!; [by intros Hk; rewrite Hk in Hok| | done | |].
  - intros i Hc. destruct (views_at _ s i _ Hi Hc) as (ar & _ & Hv).
    by apply view_no_crash in Hv as [? _].
  - intros c Hc Hn. destruct (inv_conns _ s Hi c Hc) as [?|[?|(i & n & Hd)]]; [done|by left|].
    right. exists i, n. split; [by eapply Hcur|done].
  - intros Hk. rewrite Hk in Hok. cbn in Hok.
    assert (∀ i n d, redials s !! i ≠ Some (Dialing n d)) as Hno.
    { intros i n d Hd%Hcur. congruence. }
    split; [done|]. intros c Hc.
    destruct (inv_conns _ s Hi c Hc) as [?|[Hs|(i & n & Hd)]]; [done| |by apply Hno in Hd].
    rewrite (inv_idle _ s Hi Hok) in Hs; [done|by rewrite Hk].
Qed.

Lemma one_dial_at_a_time_witness :
  redials (after (connecting 0 6)) = [Dialing 0 (DSetConn 0)] ∧
  retrier (after (connecting 0 6)) = Some 0.
Proof.
  split; [by vm_compute|]. destruct init_timeouts_ok as [Hne Hlen].
  apply (one_dial_at_a_time init_timeouts _ Hne Hlen
           (after_reachable (connecting 0 6) ltac:(vm_compute; eauto))) with (n := 0%Z) (d := DSetConn 0).
  by vm_compute.
Defined.

(** C18: the keeper gets past [Stop]. Outside of [shutdown], while the keeper
    waits for retrier [i], whatever else happens and whatever the network
    answers, that retrier's goroutine takes at most fourteen steps, it is never
    blocked before the wait is over, and then the keeper goes on with the retrier
    forgotten: a disconnection or a new redial is handled after one dial's
    exchanges with the network at most. *)
Theorem keeper_stop_ends timeouts s i a ls s' :
  timeouts ≠ [] → (Z.of_nat (length timeouts) < 2 ^ 32)%Z → reachable timeouts s →
  keeper s = KWait i a → run timeouts ls s = Some s' → KeeperMoves ∉ ls →
  length (filter (λ l, moves_of i l = true) ls) ≤ 14 ∧
  (step timeouts KeeperMoves s' = Some (at_keeper (KThen a) (with_retrier None s')) ∨
   ∀ net jitter, is_Some (step timeouts (RedialMoves i net jitter) s')).
Proof.
  intros Hne Hlen Hr Hk Hrun Hnk. apply keep_reachable_inv in Hr as Hi; [|done..].
  assert (waits_for (keeper s) i) as Hw by (by rewrite Hk).
  destruct (waits_for_waits _ s i Hi Hw) as [Hw' Hrt].
  destruct (waiting_view timeouts Hne Hlen s i Hi Hw' Hrt) as (ar & r & _ & Hrd & _ & _ & _ & _).
  destruct (waiting_run timeouts Hne Hlen ls s s' i r Hi Hw Hrd Hrun Hnk) as (Hk' & Hl & r' & Hr' & Hm).
  pose proof (keep_run_inv timeouts Hne Hlen ls s s' Hi Hrun) as Hi'.
  rewrite Hk in Hk'. assert (waits_for (keeper s') i) as Hw2 by (by rewrite Hk').
  destruct (waits_for_waits _ s' i Hi' Hw2) as [Hw2' Hrt'].
  destruct (waiting_view timeouts Hne Hlen s' i Hi' Hw2' Hrt')
    as (ar' & r2 & Har' & Hr2 & _ & _ & _ & Hrs).
  split; [pose proof (steps_left_bound r); lia|].
  cbn [step]. unfold keeper_step, stop_returns. rewrite Hk', Har'. cbn [mbind option_bind].
  rewrite Hrs.
  destruct (active (as_thread r2)) eqn:Ha; [right|by left]. intros net jitter.
  eapply redial_can_move; [done..|]. intros n d _.
  by rewrite (inv_lock _ s' Hi'), Hk', andb_false_r.
Qed.

(** A disconnection comes in the middle of a dial. *)
Definition disconnected_in_dial : list label :=
  connecting 0 6 ++ [GotCmd ClientSession.cmdDisconnect; KeeperMoves].

Lemma keeper_stop_ends_witness :
  let s := after disconnected_in_dial in
  let s' := after (disconnected_in_dial ++ replicate 9 (RedialMoves 0 true 0)) in
  keeper s = KWait 0 (ThenClose false) ∧
  (step init_timeouts KeeperMoves s' = Some (at_keeper (KThen (ThenClose false)) (with_retrier None s'))
   ∨ ∀ net jitter, is_Some (step init_timeouts (RedialMoves 0 net jitter) s')).
Proof.
  intros s s'. split; [by vm_compute|]. destruct init_timeouts_ok as [Hne Hlen].
  apply (keeper_stop_ends init_timeouts s 0 (ThenClose false) (replicate 9 (RedialMoves 0 true 0)) s'
           Hne Hlen); [|by vm_compute|by vm_compute|].
  - apply after_reachable. vm_compute. eauto.
  - intros Hin. by apply elem_of_replicate_inv in Hin.
Defined.

(** [shutdown] can wait for ever. It takes [connLock] and then waits in
    [Stop] for the redial goroutine; if that is inside [Dial], at one of the
    steps that take the lock, then in every continuation, whatever the network
    answers, the keeper is still waiting and the dial still blocked, so the
    connection is never closed. *)
Theorem shutdown_deadlock timeouts s i n d ls s' :
  timeouts ≠ [] → (Z.of_nat (length timeouts) < 2 ^ 32)%Z → reachable timeouts s →
  keeper s = KShutWait i → redials s !! i = Some (Dialing n d) → takes_connLock d = true →
  run timeouts ls s = Some s' →
  keeper s' = KShutWait i ∧ redials s' !! i = Some (Dialing n d) ∧ locked s' = true.
Proof.
  intros Hne Hlen Hr Hk Hrd Hd. apply keep_reachable_inv in Hr as Hi; [|done..]. clear Hr.
  revert s Hi Hk Hrd. induction ls as [|l ls IH]; intros s Hi Hk Hrd Hrun; cbn in Hrun.
  { simplify_eq. split_and!; [done..|]. by rewrite (inv_lock _ _ Hi), Hk. }
  destruct (step timeouts l s) as [s1|] eqn:Hs; [|done].
  destruct (deadlocked_step timeouts Hne Hlen l s s1 i n d Hi Hk Hrd Hd Hs) as [Hk1 Hr1].
  eapply IH; [|done..]. by eapply (keep_step_inv timeouts Hne Hlen).
Qed.

(** A session that is stopped while it is setting its connection. *)
Lemma shutdown_deadlock_witness :
  ∀ ls s', run init_timeouts ls (after stopped_in_dial) = Some s' →
  keeper s' = KShutWait 0 ∧ redials s' !! 0 = Some (Dialing 0 (DSetConn 0)) ∧ locked s' = true.
Proof.
  intros ls s'.
  destruct init_timeouts_ok as [Hne Hlen].
  apply (shutdown_deadlock init_timeouts (after stopped_in_dial) 0 0 (DSetConn 0) ls s' Hne Hlen);
    [|by vm_compute..].
  apply after_reachable. vm_compute. eauto.
Defined.

(** A loop asks for [sess.proto] at every message. One that is in a handler,
    handing a notification over, while the session connects again reads its next
    message from the new connection, as that connection's own loop does. *)
Definition handing_over : list label :=
  connecting 0 15 ++ [LoopMoves 0 LHandled; LoopMoves 0 LHandled; LoopMoves 0 LMessage].

Example two_loops_one_connection :
  let ls := handing_over ++ connecting 1 15 ++
            [LoopMoves 1 LHandled; LoopMoves 1 LHandled; LoopMoves 0 LHandled; LoopMoves 0 LHandled] in
  is_Some (run init_timeouts ls KeepConnection) ∧ loops (after ls) = [LReading 1; LReading 1] ∧
  Connection (shr (after ls)) = Some 1 ∧ closed (shr (after ls)) = [0].
Proof. vm_compute. eauto. Qed.

(** The panic of a loop ends the daemon. When connectivity is lost the keeper
    closes the connection without waiting for its loop: one that is in a handler
    asks the closed connection for a deadline at its next message, which is an
    error, and panics. *)
Example deadline_on_closed_connection :
  let ls := handing_over ++ [GotCmd ClientSession.cmdDisconnect; KeeperMoves; KeeperMoves;
                             KeeperMoves; LoopMoves 0 LHandled; LoopMoves 0 LHandled] in
  is_Some (run init_timeouts ls KeepConnection) ∧ keeper (after ls) = KSelect ∧
  state (shr (after ls)) = ClientSession.Disconnected ∧ loops (after ls) = [LCrash].
Proof. vm_compute. eauto. Qed.

(** A cookie that arrived before [ResetCookie] can be set after it. *)
Example cookie_after_reset :
  let ls := handing_over ++ [GotCmd ClientSession.cmdResetCookie; KeeperMoves; KeeperMoves;
                             KeeperMoves; LoopMoves 0 (LCookie "old")] in
  is_Some (run init_timeouts ls KeepConnection) ∧ keeper (after ls) = KSelect ∧
  state (shr (after ls)) = ClientSession.Disconnected ∧ cookie (shr (after ls)) = "old".
Proof. vm_compute. eauto. Qed.
End KeeperProps.
