(* ===== verification/HelperPool.v ===== *)
(** Application helpers: [launch_helper/helper_output.go], the trivial pool of
    [launch_helper/helper.go] and the pool of [launch_helper/kindpool.go].

    The pool is a labelled state machine: its loop goroutine, the observers
    that call [OneDone], the timers, and the clients that call [Run] and
    [Stop]. The launchers, the file system and the JSON decoder answer from a
    script, one entry per attempt to launch. Results are logged in the order
    they are sent on [chOut]. *)

From S2P Require Import Prelude.

Module HelperOutput.

Record Card := {
  Summary : string;
  Body : string;
  Actions : list string;
  Icon : string;
  RawTimestamp : Z;
  Persist : bool;
  Popup : bool;
}.

Record EmblemCounter := { Count : Z; Visible : bool }.

Record Vibration := { Pattern : list Z; Repeat : Z }.

Record Notification := {
  n_Card : option Card;
  RawSound : option string;
  RawVibration : option string;
  n_EmblemCounter : option EmblemCounter;
  Tag : string;
}.

Record HelperOutput := { Message : string; Notification_ : option Notification }.

Definition Timestamp (now : Z) (card : Card) : Z :=
  if decide (RawTimestamp card = 0%Z) then now else RawTimestamp card.

Section json.
(** [json.Unmarshal] into a bool, a [Vibration] and a string. *)
Context (unmarshal_bool : string → option bool).
Context (unmarshal_vibration : string → option Vibration).
Context (unmarshal_string : string → option string).

Definition Vibration_ (fallback : option Vibration) (n : Notification) : option Vibration :=
  match RawVibration n with
  | None => None
  | Some raw =>
      match unmarshal_bool raw with
      | Some b => if b then fallback else None
      | None =>
          match unmarshal_vibration raw with
          | None => None
          | Some vib => match Pattern vib with [] => None | _ => Some vib end
          end
      end
  end.

Definition Sound (fallback : string) (n : Notification) : string :=
  match RawSound n with
  | None => ""
  | Some raw =>
      match unmarshal_bool raw with
      | Some b => if b then fallback else ""
      | None => default "" (unmarshal_string raw)
      end
  end.
End json.
End HelperOutput.

Module HelperPool.
Import HelperOutput.

Record HelperInput := {
  kind : string;
  App : string;       (** [App.Original()] *)
  Package : string;   (** [App.Package] *)
  NotificationId : string;
  Payload : string;
}.

Record HelperResult := { res_Output : HelperOutput; res_Input : HelperInput }.

Definition InputBufferSize : nat := 10.

(** What a helper's raw output, or a payload, decodes to. *)
Definition decoder := string → option HelperOutput.

(** ** The trivial pool *)
Definition trivial_result (unmarshal : decoder) (i : HelperInput) : HelperResult :=
  match unmarshal (Payload i) with
  | Some out => {| res_Output := out; res_Input := i |}
  | None => {| res_Output := {| Message := Payload i; Notification_ := None |}; res_Input := i |}
  end.

(** The goroutine of [Start] until its channel is closed. *)
Definition trivial_loop (unmarshal : decoder) (chIn : list HelperInput) : list HelperResult :=
  trivial_result unmarshal <$> chIn.

(** ** The pool of helpers by kind *)
Inductive pool_err := ErrCantFindHelper | ErrCantFindLauncher | ErrOS (e : string).

Record HelperArgs := {
  ha_Input : HelperInput;
  ha_AppId : string;
  ha_FileIn : string;
  ha_FileOut : string;
  ForcedStop : bool;
}.

(** The environment's answers to one attempt: [HelperInfo]; the input's
    temporary file, if there is one, and whether it could be written; the
    output's; the instance id of [Launch], or its error. *)
Record answer := {
  a_HelperInfo : string * string;
  a_FileIn : option (string * bool);
  a_FileOut : option string;
  a_Launch : string + string;
}.

Definition no_answer : answer :=
  {| a_HelperInfo := ("", ""); a_FileIn := None; a_FileOut := None; a_Launch := inr "" |}.

Record pool := Pool {
  chIn : list HelperInput;
  chIn_closed : bool;
  chStopped : bool;
  running : gset string;
  backlog : list (option HelperInput);
  hmap : gmap string HelperArgs;
  finishing : list HelperArgs;   (** [OneDone] calls that have removed theirs *)
  chDone : list string;          (** [OneDone] calls waiting to report *)
  files : list string;           (** temporary files *)
  chOut : list HelperResult;
  taken : list HelperInput;      (** what the loop received, for the theorems *)
  script : list answer;
}.

Section pool.
Context (maxNum : nat).
(** The kinds there is a launcher for. *)
Context (launchers : gset string).

Definition upd_out r p := Pool (chIn p) (chIn_closed p) (chStopped p) (running p) (backlog p) (hmap p)
  (finishing p) (chDone p) (files p) (chOut p ++ [r]) (taken p) (script p).
Definition upd_files fs p := Pool (chIn p) (chIn_closed p) (chStopped p) (running p) (backlog p) (hmap p)
  (finishing p) (chDone p) fs (chOut p) (taken p) (script p).
Definition upd_hmap m p := Pool (chIn p) (chIn_closed p) (chStopped p) (running p) (backlog p) m
  (finishing p) (chDone p) (files p) (chOut p) (taken p) (script p).
Definition upd_running r p := Pool (chIn p) (chIn_closed p) (chStopped p) r (backlog p) (hmap p)
  (finishing p) (chDone p) (files p) (chOut p) (taken p) (script p).
Definition upd_backlog b p := Pool (chIn p) (chIn_closed p) (chStopped p) (running p) b (hmap p)
  (finishing p) (chDone p) (files p) (chOut p) (taken p) (script p).
Definition upd_finishing f p := Pool (chIn p) (chIn_closed p) (chStopped p) (running p) (backlog p) (hmap p)
  f (chDone p) (files p) (chOut p) (taken p) (script p).
Definition upd_chDone d p := Pool (chIn p) (chIn_closed p) (chStopped p) (running p) (backlog p) (hmap p)
  (finishing p) d (files p) (chOut p) (taken p) (script p).

(** [os.Remove], its error ignored. *)
Fixpoint remove_first (f : string) (fs : list string) : list string :=
  match fs with
  | [] => []
  | g :: fs => if decide (g = f) then fs else g :: remove_first f fs
  end.
Definition Remove (f : string) (fs : list string) : list string :=
  if decide (f = "") then fs else remove_first f fs.

Definition cleanupTempFiles (f1 f2 : string) (p : pool) : pool :=
  upd_files (Remove f2 (Remove f1 (files p))) p.

Definition failOne (input : HelperInput) (p : pool) : pool :=
  upd_out {| res_Output := {| Message := Payload input; Notification_ := None |}; res_Input := input |} p.

Definition next_answer (p : pool) : answer * pool :=
  (default no_answer (head (script p)),
   Pool (chIn p) (chIn_closed p) (chStopped p) (running p) (backlog p) (hmap p) (finishing p)
     (chDone p) (files p) (chOut p) (taken p) (tail (script p))).

Definition uid_of (kind iid : string) : string := kind +:+ ":" +:+ iid.

(** The deferred clean-up runs on every error after the first file. *)
Definition handleOne (input : HelperInput) (p : pool) : pool * option pool_err :=
  if decide (kind input ∈ launchers) then
    let '(a, p) := next_answer p in
    let '(helperAppId, helperExec) := a_HelperInfo a in
    if decide (helperAppId = "" ∧ helperExec = "") then (p, Some ErrCantFindHelper)
    else
      match a_FileIn a with
      | None => (p, Some (ErrOS "input tempfile"))
      | Some (f1, written) =>
          let p := upd_files (f1 :: files p) p in
          if negb written then (cleanupTempFiles f1 "" p, Some (ErrOS "write"))
          else
            match a_FileOut a with
            | None => (cleanupTempFiles f1 "" p, Some (ErrOS "output tempfile"))
            | Some f2 =>
                let p := upd_files (f2 :: files p) p in
                match a_Launch a with
                | inr e => (cleanupTempFiles f1 f2 p, Some (ErrOS e))
                | inl iid =>
                    let args := {| ha_Input := input; ha_AppId := helperAppId; ha_FileIn := f1;
                                   ha_FileOut := f2; ForcedStop := false |} in
                    (upd_hmap (<[uid_of (kind input) iid := args]> (hmap p)) p, None)
                end
            end
      end
  else (p, Some ErrCantFindLauncher).

Definition tryOne (input : HelperInput) (p : pool) : pool * bool :=
  match handleOne input p with
  | (p, Some _) => (failOne input p, false)
  | (p, None) => (p, true)
  end.

Definition doGrowBacklog (backlog : list (option HelperInput)) (i : HelperInput) :=
  backlog ++ [Some i].

(** [cap] is the capacity the runtime gave the slice. *)
Definition shrinkBacklog (cap : nat) (backlog : list (option HelperInput)) (backlogSz : nat)
    : list (option HelperInput) :=
  if decide (backlogSz = 0) then []
  else if decide (cap < 2 * backlogSz) then backlog
  else Some <$> omap id backlog.

(** A received input. *)
Definition loop_in (i : HelperInput) (p : pool) : pool :=
  if bool_decide (maxNum ≤ size (running p)) || bool_decide (App i ∈ running p)
  then upd_backlog (doGrowBacklog (backlog p) i) p
  else
    let '(p, ok) := tryOne i p in
    if ok then upd_running ({[App i]} ∪ running p) p else p.

(** The pass over the backlog: at most one entry is launched. *)
Fixpoint scan (todo : list (option HelperInput)) (done_ : bool) (p : pool)
    : list (option HelperInput) * nat * pool :=
  match todo with
  | [] => ([], 0, p)
  | None :: todo => let '(l, sz, p) := scan todo done_ p in (None :: l, sz, p)
  | Some i :: todo =>
      if negb done_ && negb (bool_decide (App i ∈ running p)) then
        let '(p, ok) := tryOne i p in
        let p := if ok then upd_running ({[App i]} ∪ running p) p else p in
        let '(l, sz, p) := scan todo ok p in (None :: l, sz, p)
      else let '(l, sz, p) := scan todo done_ p in (Some i :: l, S sz, p)
  end.

(** A finished application. *)
Definition loop_done (cap : nat) (app : string) (p : pool) : pool :=
  let p := upd_running (running p ∖ {[app]}) p in
  match backlog p with
  | [] => p
  | b => let '(b, sz, p) := scan b false p in upd_backlog (shrinkBacklog cap b sz) p
  end.

(** [peekId] with the callback of the timer, and of [OneDone]. *)
Definition timer_fires (uid : string) (p : pool) : pool :=
  upd_hmap (alter (λ a, {| ha_Input := ha_Input a; ha_AppId := ha_AppId a; ha_FileIn := ha_FileIn a;
                           ha_FileOut := ha_FileOut a; ForcedStop := true |}) uid (hmap p)) p.

Definition OneDone (uid : string) (p : pool) : pool :=
  match hmap p !! uid with
  | None => p
  | Some args => upd_finishing (finishing p ++ [args]) (upd_hmap (delete uid (hmap p)) p)
  end.

(** The rest of [OneDone]: the output, read and decoded, or the payload; then
    the deferred clean-up and report. *)
Definition OneDone_output (read : option string) (unmarshal : decoder) (args : HelperArgs) (p : pool) : pool :=
  let p :=
    if ForcedStop args then failOne (ha_Input args) p
    else match read ≫= unmarshal with
         | Some out => upd_out {| res_Output := out; res_Input := ha_Input args |} p
         | None => failOne (ha_Input args) p
         end in
  let p := cleanupTempFiles (ha_FileIn args) (ha_FileOut args) p in
  upd_chDone (chDone p ++ [App (ha_Input args)]) p.

(** ** Steps *)
Inductive label :=
| Run (kind : string) (i : HelperInput)
| LoopIn
| LoopDone (n cap : nat)
| LoopStop
| HelperDone (uid : string)
| HelperOut (n : nat) (read : option string)
| TimerFires (uid : string)
| Stop.

Definition set_kind (k : string) (i : HelperInput) : HelperInput :=
  {| kind := k; App := App i; Package := Package i; NotificationId := NotificationId i;
     Payload := Payload i |}.

(** [None]: blocked, or (a send on or a second close of [chIn]) a panic. *)
Definition step (unmarshal : decoder) (l : label) (p : pool) : option pool :=
  match l with
  | Run k i =>
      if chIn_closed p || bool_decide (InputBufferSize ≤ length (chIn p)) then None
      else Some (Pool (chIn p ++ [set_kind k i]) (chIn_closed p) (chStopped p) (running p) (backlog p)
                   (hmap p) (finishing p) (chDone p) (files p) (chOut p) (taken p) (script p))
  | LoopIn =>
      if chStopped p then None
      else match chIn p with
           | [] => None
           | i :: rest => Some (loop_in i (Pool rest (chIn_closed p) (chStopped p) (running p) (backlog p)
               (hmap p) (finishing p) (chDone p) (files p) (chOut p) (taken p ++ [i]) (script p)))
           end
  | LoopDone n cap =>
      if chStopped p then None
      else app ← chDone p !! n; Some (loop_done cap app (upd_chDone (delete n (chDone p)) p))
  | LoopStop =>
      if chIn_closed p && bool_decide (chIn p = []) && negb (chStopped p) then
        Some (Pool [] true true (running p) (backlog p) (hmap p) (finishing p) (chDone p) (files p)
                (chOut p) (taken p) (script p))
      else None
  | HelperDone uid => Some (OneDone uid p)
  | HelperOut n read =>
      args ← finishing p !! n;
      Some (OneDone_output read unmarshal args (upd_finishing (delete n (finishing p)) p))
  | TimerFires uid => Some (timer_fires uid p)
  | Stop =>
      if chIn_closed p then None
      else Some (Pool (chIn p) true (chStopped p) (running p) (backlog p) (hmap p) (finishing p)
                   (chDone p) (files p) (chOut p) (taken p) (script p))
  end.

(** [NewHelperPool] and [Start]. *)
Definition Start (answers : list answer) : pool :=
  Pool [] false false ∅ [] ∅ [] [] [] [] [] answers.

Fixpoint steps (unmarshal : decoder) (ls : list label) (p : pool) : option pool :=
  match ls with
  | [] => Some p
  | l :: ls => p ← step unmarshal l p; steps unmarshal ls p
  end.
End pool.
End HelperPool.

(** ** Invariant *)
Module PoolInv.
Import HelperPool HelperOutput.

(** A helper at work: its input and its two files. *)
Abbreviation job := (HelperInput * (string * string))%type.
Definition job_of (a : HelperArgs) : job := (ha_Input a, (ha_FileIn a, ha_FileOut a)).
Definition jobs (p : pool) : list job := job_of <$> ((map_to_list (hmap p)).*2 ++ finishing p).
Definition apps (V : list job) : list string := (λ v, App v.1) <$> V.
Definition job_files (V : list job) : list string := V ≫= λ v, [v.2.1; v.2.2].

(** The inputs of one application, in order. *)
Definition on (a : string) (l : list HelperInput) : list HelperInput := filter (λ i, App i = a) l.

#[local] Arguments on : simpl never.

(** The parts that depend on the jobs [V], the applications [dn] about to be
    reported, and the waiting inputs [bl]. *)
Record core (V : list job) (dn : list string) (p : pool) (bl : list HelperInput) : Prop := {
  c_nodup : NoDup (apps V ++ dn);
  c_running a : a ∈ running p ↔ a ∈ apps V ++ dn;
  c_files : files p ≡ₚ job_files V;
  c_names : Forall (λ v, v.2.1 ≠ "" ∧ v.2.2 ≠ "") V;
  c_fifo a : on a (taken p) = on a (res_Input <$> chOut p) ++ on a V.*1 ++ on a bl;
}.

Lemma on_app a l k : on a (l ++ k) = on a l ++ on a k.
Proof. apply filter_app. Qed.

Lemma on_none a l : a ∉ App <$> l → on a l = [].
Proof.
  intros H. apply filter_none, Forall_forall. intros i Hi <-. apply H. by apply list_elem_of_fmap_2.
Qed.

Lemma on_cons_eq i l : on (App i) (i :: l) = i :: on (App i) l.
Proof. unfold on. rewrite filter_cons. by rewrite decide_True. Qed.

Lemma on_cons_ne a i l : App i ≠ a → on a (i :: l) = on a l.
Proof. intros. unfold on. rewrite filter_cons. by rewrite decide_False. Qed.

Lemma on_perm a l k : l ≡ₚ k → NoDup (App <$> l) → on a l = on a k.
Proof.
  intros Hp Hd. assert (on a l ≡ₚ on a k) as Hf by (unfold on; by rewrite Hp).
  assert (on a l = [] ∨ ∃ i, on a l = [i]) as [Hl|[i Hl]].
  { clear Hp Hf. induction l as [|i l IH]; [by left|]. cbn in Hd. apply NoDup_cons in Hd as [Hi Hd].
    destruct (decide (App i = a)) as [<-|].
    - rewrite on_cons_eq, on_none by done. right. by eexists.
    - rewrite on_cons_ne by done. by apply IH. }
  - rewrite Hl in *. symmetry in Hf. by apply Permutation_nil_r in Hf.
  - rewrite Hl in *. symmetry in Hf. by apply Permutation_singleton_r in Hf.
Qed.

Lemma apps_fst V : apps V = App <$> V.*1.
Proof. unfold apps. by rewrite <- list_fmap_compose. Qed.

Lemma core_perm V V' dn p bl : V ≡ₚ V' → core V dn p bl → core V' dn p bl.
Proof.
  intros HV [Hd Hr Hf Hn Hq].
  assert (apps V ≡ₚ apps V') as Ha by (unfold apps; by rewrite HV).
  split.
  - by rewrite <- Ha.
  - intros a. by rewrite Hr, Ha.
  - rewrite Hf. unfold job_files. by rewrite HV.
  - by rewrite <- HV.
  - intros a. rewrite Hq. do 2 f_equal. apply on_perm; [by rewrite HV|].
    rewrite <- apps_fst. by apply NoDup_app in Hd as [? _].
Qed.

Lemma remove_first_perm f l k : l ≡ₚ f :: k → remove_first f l ≡ₚ k.
Proof.
  revert k. induction l as [|g l IH]; intros k H; [by apply Permutation_nil_l in H|]. cbn.
  case_decide as E; [subst; by apply Permutation_cons_inv in H|].
  assert (f ∈ l) as (l1 & l2 & ->)%list_elem_of_split.
  { assert (f ∈ g :: l) as Hf by (rewrite H; by left). apply elem_of_cons in Hf as [->|?]; done. }
  rewrite (IH (l1 ++ l2)) by (by rewrite Permutation_middle).
  apply Permutation_cons_inv with f. rewrite <- H. rewrite <- Permutation_middle. constructor.
Qed.

Lemma Remove_perm f l k : f ≠ "" → l ≡ₚ f :: k → Remove f l ≡ₚ k.
Proof. intros Hf H. unfold Remove. rewrite decide_False by done. by apply remove_first_perm. Qed.

Section inv.
Context (maxNum : nat) (launchers : gset string).
Hypothesis Hkinds : ∀ k, k ∈ launchers → in_string ":"%char k = false.

Lemma uid_of_inj k k' iid iid' :
  k ∈ launchers → k' ∈ launchers → uid_of k iid = uid_of k' iid' → k = k' ∧ iid = iid'.
Proof using Hkinds.
  intros H1%Hkinds H2%Hkinds Heq. unfold uid_of in Heq.
  apply (f_equal (cut_at ":"%char)) in Heq. change (":" +:+ iid) with (String ":"%char iid) in Heq.
  change (":" +:+ iid') with (String ":"%char iid') in Heq.
  rewrite !cut_at_app in Heq by done. by simplify_eq.
Qed.

Definition iids (script : list answer) : list string :=
  omap (λ a, match a_Launch a with inl iid => Some iid | inr _ => None end) script.

(** The answers the environment gives: fresh instance ids, named files. *)
Definition sane (script : list answer) : Prop :=
  NoDup (iids script) ∧
  Forall (λ a, match a_FileIn a with Some (f, _) => f ≠ "" | None => True end ∧ a_FileOut a ≠ Some "") script.

Definition fresh_uids (p : pool) : Prop :=
  sane (script p) ∧
  ∀ uid, uid ∈ dom (hmap p) → ∃ k iid, uid = uid_of k iid ∧ k ∈ launchers ∧ iid ∉ iids (script p).

(** What an attempt leaves alone. *)
Definition rest (p : pool) :=
  (chIn p, chIn_closed p, chStopped p, running p, backlog p, finishing p, chDone p, taken p).

Lemma fresh_uids_tail p :
  fresh_uids p → fresh_uids (next_answer p).2 ∧
  (∀ iid, a_Launch (next_answer p).1 = inl iid → iid ∉ iids (script (next_answer p).2) ∧
    ∀ k, k ∈ launchers → uid_of k iid ∉ dom (hmap p)) ∧
  match a_FileIn (next_answer p).1 with Some (f, _) => f ≠ "" | None => True end ∧
  a_FileOut (next_answer p).1 ≠ Some "".
Proof using Hkinds.
  intros [[Hd Hf] Hu]. unfold next_answer, fresh_uids, sane; cbn.
  destruct (script p) as [|a sc]; cbn.
  { split_and!; try done; repeat constructor. }
  apply Forall_cons in Hf as [[Hf1 Hf2] Hf].
  assert (iids (a :: sc) = match a_Launch a with inl iid => [iid] | _ => [] end ++ iids sc) as Hi
    by (cbn; by destruct (a_Launch a)).
  rewrite Hi in *. split; [|split; [|done]].
  - split_and!; [by apply NoDup_app in Hd as (_ & _ & ?)|done|].
    intros uid Huid. destruct (Hu uid Huid) as (k & iid & -> & Hk & Hn). exists k, iid.
    split_and!; [done..|]. rewrite elem_of_app in Hn. tauto.
  - intros iid Ha. rewrite Ha in *. cbn in Hd. apply NoDup_cons in Hd as [Hn Hd]. split; [done|].
    intros k Hk Hin. destruct (Hu _ Hin) as (k' & iid' & Heq & Hk' & Hn').
    apply uid_of_inj in Heq as [-> ->]; [|done..]. apply Hn'. by left.
Qed.

(** One attempt, and its effect on the core. *)
Lemma tryOne_spec i p V dn bl1 bl2 :
  fresh_uids p → V ≡ₚ jobs p → core V dn p (bl1 ++ i :: bl2) →
  App i ∉ running p → (∀ j, j ∈ bl1 → App j ∈ running p) →
  match tryOne launchers i p with
  | (p', true) => fresh_uids p' ∧ rest p' = rest p ∧
      ∃ v, v.1 = i ∧ v :: V ≡ₚ jobs p' ∧
           core (v :: V) dn (upd_running ({[App i]} ∪ running p) p') (bl1 ++ bl2)
  | (p', false) => fresh_uids p' ∧ rest p' = rest p ∧ V ≡ₚ jobs p' ∧ core V dn p' (bl1 ++ bl2)
  end.
Proof using Hkinds.
  intros Hfu HV Hc Hi Hbl. unfold tryOne.
  assert (on (App i) bl1 = []) as Hbl1.
  { apply on_none. intros (j & Hj & Hjb)%list_elem_of_fmap. apply Hi. rewrite Hj. by apply Hbl. }
  assert (App i ∉ apps V ++ dn) as HiV by (by rewrite <- (c_running _ _ _ _ Hc)).
  assert (on (App i) V.*1 = []) as HV1.
  { apply on_none. rewrite <- apps_fst. set_solver. }
  (* a failed attempt: the payload goes out, and nothing else has changed *)
  assert (∀ p', fresh_uids p' → rest p' = rest p → hmap p' = hmap p → files p' ≡ₚ files p →
    chOut p' = chOut p →
    fresh_uids (failOne i p') ∧ rest (failOne i p') = rest p ∧ V ≡ₚ jobs (failOne i p') ∧
    core V dn (failOne i p') (bl1 ++ bl2)) as Hfail.
  { intros p' Hfu' Hrest Hh Hfl Ho. injection Hrest as ? ? ? Hrun ? Hfin ? Htk.
    split_and!; [done|by unfold rest, failOne; cbn; congruence| |].
    { unfold jobs, failOne; cbn. by rewrite Hh, Hfin. }
    destruct Hc as [Hd Hr Hf Hn Hq]. split; [done| | |done|].
    - intros a. unfold failOne; cbn. by rewrite Hrun.
    - unfold failOne; cbn. by rewrite Hfl.
    - intros a. unfold failOne; cbn. rewrite Htk, Ho, fmap_app, Hq, !on_app, <- !app_assoc.
      f_equal. destruct (decide (App i = a)) as [<-|Ha].
      + cbn [fmap list_fmap res_Input]. rewrite !on_cons_eq, HV1, Hbl1. done.
      + cbn [fmap list_fmap res_Input]. rewrite !on_cons_ne by done. done. }
  unfold handleOne. case_decide as Hk; [|by apply Hfail].
  destruct (fresh_uids_tail p Hfu) as (Hfu1 & Hiid & Hn1 & Hn2).
  assert (rest (next_answer p).2 = rest p ∧ hmap (next_answer p).2 = hmap p ∧
    files (next_answer p).2 = files p ∧ chOut (next_answer p).2 = chOut p) as (Hr1 & Hh1 & Hf1 & Ho1) by done.
  destruct (next_answer p) as [a p1]. cbn [fst snd] in *.
  destruct (a_HelperInfo a) as [hid hexec]. case_decide; [by apply Hfail; rewrite ?Hf1|].
  assert (∀ fs, fresh_uids (upd_files fs p1)) as Hfu2 by (intros fs; exact Hfu1).
  destruct (a_FileIn a) as [[f1 written]|]; [|by apply Hfail; rewrite ?Hf1].
  assert (∀ f fs, f ≠ "" → fs ≡ₚ f :: files p → Remove "" (Remove f fs) ≡ₚ files p) as Hrm1.
  { intros f fs Hf Hp. unfold Remove at 1. rewrite decide_True by done. by apply Remove_perm. }
  destruct written; cbn [negb]; [|by apply Hfail; [done..|apply Hrm1; [done|by rewrite Hf1]|]].
  destruct (a_FileOut a) as [f2|]; [|by apply Hfail; [done..|apply Hrm1; [done|by rewrite Hf1]|]].
  assert (f2 ≠ "") as Hn2' by (by intros ->).
  destruct (a_Launch a) as [iid|e].
  2: { apply Hfail; [done..| |done]. unfold cleanupTempFiles; cbn. rewrite Hf1.
       apply Remove_perm; [done|]. apply Remove_perm; [done|]. constructor. }
  destruct (Hiid iid eq_refl) as [Hiid1 Hiid2]. cbn.
  assert (hmap p1 !! uid_of (kind i) iid = None) as Hnone.
  { apply not_elem_of_dom. rewrite Hh1. by apply Hiid2. }
  split; [|split; [done|]].
  { destruct Hfu1 as [Hs Hu]. split; [done|]. cbn. intros uid. rewrite dom_insert, elem_of_union, elem_of_singleton.
    intros [->|Hin]; [by exists (kind i), iid|by apply Hu]. }
  exists (i, (f1, f2)). split; [done|]. split.
  { unfold jobs; cbn. rewrite map_to_list_insert by done. cbn. constructor. rewrite HV. unfold jobs.
    injection Hr1 as ? ? ? ? ? -> ? ?. by rewrite Hh1. }
  injection Hr1 as ? ? ? Hrun ? Hfin ? Htk. destruct Hc as [Hd Hr Hf Hn Hq]. split.
  - cbn. by apply NoDup_cons.
  - intros b. cbn. rewrite elem_of_union, elem_of_singleton, elem_of_cons, Hr. done.
  - cbn. rewrite Hf1, Hf. apply perm_swap.
  - by constructor.
  - intros b. cbn. rewrite Htk, Ho1, Hq, !on_app. f_equal.
    destruct (decide (App i = b)) as [<-|Hb].
    + by rewrite !on_cons_eq, HV1, Hbl1.
    + by rewrite !on_cons_ne.
Qed.

(** What a pass leaves alone. *)
Definition rest_scan (p : pool) :=
  (chIn p, chIn_closed p, chStopped p, backlog p, finishing p, chDone p, taken p).

Lemma rest_scan_of p p' : rest p' = rest p → rest_scan p' = rest_scan p.
Proof. unfold rest, rest_scan. congruence. Qed.

Lemma rest_running p p' : rest p' = rest p → running p' = running p.
Proof. unfold rest. congruence. Qed.

Lemma scan_spec todo done_ p dn kept :
  fresh_uids p → core (jobs p) dn p (kept ++ omap id todo) →
  (done_ = false → ∀ j, j ∈ kept → App j ∈ running p) →
  match scan launchers todo done_ p with
  | (l, sz, p') =>
      fresh_uids p' ∧ rest_scan p' = rest_scan p ∧ sz = length (omap id l) ∧
      core (jobs p') dn p' (kept ++ omap id l) ∧
      (∀ j, j ∈ omap id l → j ∈ omap id todo) ∧
      (running p' = running p ∧ (done_ = false → ∀ j, j ∈ omap id l → App j ∈ running p') ∨
       done_ = false ∧ ∃ i, i ∈ omap id todo ∧ App i ∉ running p ∧ running p' = {[App i]} ∪ running p)
  end.
Proof using Hkinds.
  revert done_ p kept. induction todo as [|[i|] todo IH]; intros done_ p kept Hfu Hc Hkept;
    cbn [scan omap list_omap] in *.
  - split_and!; [done..|]. left. split; [done|]. by intros _ j []%elem_of_nil.
  - destruct (decide (done_ = false ∧ App i ∉ running p)) as [[-> Hi]|He].
    + rewrite bool_decide_eq_false_2 by done. cbn [negb andb].
      pose proof (tryOne_spec i p (jobs p) dn kept (omap id todo) Hfu (reflexivity _) Hc Hi (Hkept eq_refl)) as Ht.
      destruct (tryOne launchers i p) as [p1 [|]].
      * destruct Ht as (Hfu1 & Hr1 & v & _ & HV & Hc1).
        apply (core_perm _ (jobs p1)) in Hc1; [|exact HV].
        specialize (IH true (upd_running ({[App i]} ∪ running p1) p1) kept Hfu1).
        rewrite (rest_running _ _ Hr1) in *. specialize (IH Hc1 ltac:(done)).
        destruct (scan launchers todo true _) as [[l sz] p2].
        destruct IH as (? & Hr2 & ? & ? & Hin & Hrun). split_and!; [done| |done|done| |].
        -- rewrite Hr2. by apply rest_scan_of in Hr1.
        -- intros j Hj. right. by apply Hin.
        -- right. split; [done|]. exists i. destruct Hrun as [[Hrun _]|[? _]]; [|done].
           split_and!; [by left|done|]. exact Hrun.
      * destruct Ht as (Hfu1 & Hr1 & HV & Hc1).
        apply (core_perm _ (jobs p1)) in Hc1; [|exact HV].
        specialize (IH false p1 kept Hfu1 Hc1). rewrite (rest_running _ _ Hr1) in IH.
        specialize (IH Hkept). destruct (scan launchers todo false p1) as [[l sz] p2].
        destruct IH as (? & Hr2 & ? & ? & Hin & Hrun). split_and!; [done| |done|done| |].
        -- rewrite Hr2. by apply rest_scan_of.
        -- intros j Hj. right. by apply Hin.
        -- destruct Hrun as [Hrun|(? & k & Hk & ? & ?)]; [by left|right].
           split; [done|]. exists k. split_and!; [by right|done..].
    + assert (negb done_ && negb (bool_decide (App i ∈ running p)) = false) as ->.
      { destruct done_; [done|]. rewrite bool_decide_eq_true_2; [done|].
        destruct (decide (App i ∈ running p)); [done|]. by destruct He. }
      specialize (IH done_ p (kept ++ [i]) Hfu). rewrite <- app_assoc in IH. specialize (IH Hc).
      assert (done_ = false → App i ∈ running p) as Hi.
      { intros ->. destruct (decide (App i ∈ running p)); [done|]. by destruct He. }
      specialize (IH ltac:(intros ->; intros j [?| ->%list_elem_of_singleton]%elem_of_app; auto)).
      destruct (scan launchers todo done_ p) as [[l sz] p2].
      destruct IH as (? & Hr2 & -> & Hc2 & Hin & Hrun). rewrite <- app_assoc in Hc2.
      split_and!; [done..| |].
      * intros j. cbn. rewrite !elem_of_cons. intros [->|?]; [by left|right; by apply Hin].
      * destruct Hrun as [[Hrun Hl]|(? & k & Hk & ? & ?)]; [left|right].
        -- split; [done|]. cbn. intros Hd j [->|Hj]%elem_of_cons; [rewrite Hrun; by apply Hi|by apply Hl].
        -- split; [done|]. exists k. split_and!; [by right|done..].
  - specialize (IH done_ p kept Hfu Hc Hkept).
    by destruct (scan launchers todo done_ p) as [[l sz] p2].
Qed.

Lemma shrinkBacklog_spec cap b :
  omap id (shrinkBacklog cap b (length (omap id b))) = omap id b.
Proof.
  unfold shrinkBacklog. case_decide as Hz; [by apply nil_length_inv in Hz|]. case_decide; [done|].
  generalize (omap id b). intros l. induction l; cbn; [done|]. by f_equal.
Qed.

Record inv (p : pool) : Prop := {
  i_uids : fresh_uids p;
  i_core : core (jobs p) (chDone p) p (omap id (backlog p));
  i_bound : size (running p) ≤ maxNum;
  i_work : size (running p) < maxNum → ∀ i, i ∈ omap id (backlog p) → App i ∈ running p;
}.

Lemma loop_in_inv i p :
  fresh_uids p → core (jobs p) (chDone p) p (omap id (backlog p) ++ [i]) →
  size (running p) ≤ maxNum →
  (size (running p) < maxNum → ∀ i, i ∈ omap id (backlog p) → App i ∈ running p) →
  inv (loop_in maxNum launchers i p).
Proof using Hkinds.
  intros Hfu Hc Hb Hw. unfold loop_in.
  destruct (decide (maxNum ≤ size (running p) ∨ App i ∈ running p)) as [He|He].
  - assert (bool_decide (maxNum ≤ size (running p)) || bool_decide (App i ∈ running p) = true) as ->.
    { apply orb_true_iff. by rewrite !bool_decide_eq_true. }
    assert (omap id (doGrowBacklog (backlog p) i) = omap id (backlog p) ++ [i]) as Hg
      by (unfold doGrowBacklog; by rewrite omap_app).
    split; [done| |done|]; cbn; rewrite Hg; [by destruct Hc|].
    intros Hs j [Hj|Hj%list_elem_of_singleton]%elem_of_app; [by apply Hw|]. subst. destruct He; [lia|done].
  - rewrite !bool_decide_eq_false_2 by tauto. cbn [orb].
    assert (on_empty : ∀ j, j ∈ omap id (backlog p) → App j ∈ running p) by (apply Hw; lia).
    rewrite <- (app_nil_r (omap id (backlog p) ++ [i])), <- app_assoc in Hc.
    pose proof (tryOne_spec i p (jobs p) (chDone p) (omap id (backlog p)) [] Hfu (reflexivity _) Hc
      ltac:(tauto) on_empty) as Ht. rewrite app_nil_r in Ht.
    destruct (tryOne launchers i p) as [p1 [|]].
    + destruct Ht as (Hfu1 & Hr1 & v & _ & HV & Hc1). apply (core_perm _ (jobs p1)) in Hc1; [|exact HV].
      rewrite (rest_running _ _ Hr1). injection Hr1 as ? ? ? ? Hbl ? Hdn ?.
      split; cbn; rewrite ?Hbl, ?Hdn; [done..| |].
      * rewrite size_union by set_solver. rewrite size_singleton. lia.
      * intros _ j Hj. apply elem_of_union_r. by apply on_empty.
    + destruct Ht as (Hfu1 & Hr1 & HV & Hc1). apply (core_perm _ (jobs p1)) in Hc1; [|exact HV].
      pose proof (rest_running _ _ Hr1) as Hrun. injection Hr1 as ? ? ? ? Hbl ? Hdn ?.
      split; rewrite ?Hbl, ?Hdn, ?Hrun; done.
Qed.

Lemma loop_done_core n app p :
  inv p → chDone p !! n = Some app →
  let p1 := upd_running (running p ∖ {[app]}) (upd_chDone (delete n (chDone p)) p) in
  fresh_uids p1 ∧ core (jobs p1) (chDone p1) p1 (omap id (backlog p)) ∧ app ∈ running p.
Proof using Hkinds.
  intros [Hfu [Hd Hr Hf Hn Hq] _ _] Happ p1.
  assert (apps (jobs p) ++ chDone p ≡ₚ app :: (apps (jobs p) ++ delete n (chDone p))) as Hp.
  { rewrite Permutation_middle. f_equiv. by apply delete_Permutation. }
  rewrite Hp in Hd. apply NoDup_cons in Hd as [Hni Hd].
  assert (app ∈ running p) as Hin.
  { apply Hr, elem_of_app. right. by eapply list_elem_of_lookup_2. }
  split; [done|]. split; [|done]. split; [done| |done|done|done].
  intros a. cbn. rewrite elem_of_difference, elem_of_singleton, Hr, Hp, elem_of_cons.
  split; [tauto|]. intros Ha. split; [by right|]. by intros ->.
Qed.

Lemma loop_done_inv n cap app p :
  inv p → chDone p !! n = Some app →
  inv (loop_done launchers cap app (upd_chDone (delete n (chDone p)) p)).
Proof using Hkinds.
  intros Hinv Happ. pose proof (loop_done_core n app p Hinv Happ) as (Hfu & Hc & Hin).
  destruct Hinv as [_ _ Hb Hw]. unfold loop_done.
  change (running (upd_chDone (delete n (chDone p)) p)) with (running p).
  set (p1 := upd_running (running p ∖ {[app]}) (upd_chDone (delete n (chDone p)) p)) in *.
  assert (size (running p1) = size (running p) - 1) as Hs1.
  { cbn. rewrite size_difference by (by apply singleton_subseteq_l). by rewrite size_singleton. }
  assert (size (running p) ≠ 0) as Hs0.
  { apply size_non_empty_iff. intros He. by apply (not_elem_of_empty (C := gset string) app); rewrite <- He. }
  change (backlog p1) with (backlog p). destruct (backlog p) as [|e bl] eqn:Ebl.
  { split; [done| | |]; cbn; rewrite ?Ebl; [done|cbn in Hs1; lia|]. by intros _ i []%elem_of_nil. }
  rewrite <- Ebl in *. clear e bl Ebl.
  pose proof (scan_spec (backlog p) false p1 (chDone p1) [] Hfu Hc ltac:(by intros _ j []%elem_of_nil)) as Hscan.
  destruct (scan launchers (backlog p) false p1) as [[l sz] p2].
  destruct Hscan as (Hfu2 & Hr2 & -> & Hc2 & Hsub & Hrun).
  injection Hr2 as ? ? ? ? ? Hdn ?.
  assert (∀ i, i ∈ omap id l → size (running p) < maxNum → App i ∈ running p) as Hold.
  { intros i Hi Hlt. apply (Hw Hlt). by apply Hsub. }
  split; cbn; rewrite ?shrinkBacklog_spec; [done|by rewrite Hdn; destruct Hc2| |].
  - destruct Hrun as [[-> _]|(_ & i & _ & Hi & ->)]; [lia|].
    rewrite size_union by (by apply disjoint_singleton_l). rewrite size_singleton. lia.
  - intros Hlt j Hj. destruct Hrun as [[Hrun Hl]|(_ & i & Hi & Hni & Hrun)]; [by apply Hl|].
    rewrite Hrun in *. rewrite size_union, size_singleton in Hlt by (by apply disjoint_singleton_l).
    assert (App i = app) as <-.
    { assert (App i ∈ running p) by (apply Hw; [lia|done]). cbn in Hni.
      destruct (decide (App i = app)); [done|]. destruct Hni. apply elem_of_difference.
      by rewrite elem_of_singleton. }
    specialize (Hold j Hj ltac:(lia)). cbn. rewrite elem_of_union, elem_of_difference, elem_of_singleton.
    destruct (decide (App j = App i)); tauto.
Qed.

(** Moving a job between the table and the finishing calls. *)
Lemma jobs_lookup p uid a :
  hmap p !! uid = Some a →
  jobs p ≡ₚ job_of a :: (job_of <$> ((map_to_list (delete uid (hmap p))).*2 ++ finishing p)).
Proof. intros H. unfold jobs. rewrite <- (map_to_list_delete _ _ _ H). done. Qed.

Lemma inv_jobs p p' :
  inv p → jobs p ≡ₚ jobs p' → script p' = script p → dom (hmap p') ⊆ dom (hmap p) →
  running p' = running p → backlog p' = backlog p → chDone p' = chDone p → files p' = files p →
  chOut p' = chOut p → taken p' = taken p → inv p'.
Proof.
  intros [[Hs Hu] Hc Hb Hw] Hj Hsc Hdom Hrun Hbl Hdn Hfl Ho Ht. apply (core_perm _ _ _ _ _ Hj) in Hc.
  split; rewrite ?Hrun, ?Hbl, ?Hdn; [| |done|done].
  2: { destruct Hc as [Hd Hr Hf Hn Hq].
       split; [done|intros a; by rewrite Hrun|by rewrite Hfl|done|intros a; by rewrite Ht, Ho]. }
  unfold fresh_uids. rewrite Hsc. split; [done|]. intros uid Hin. by apply Hu, Hdom.
Qed.

Lemma OneDone_output_inv read unmarshal n args p :
  inv p → finishing p !! n = Some args →
  inv (OneDone_output read unmarshal args (upd_finishing (delete n (finishing p)) p)).
Proof.
  intros [[Hs Hu] Hc Hb Hw] E.
  set (p1 := upd_finishing (delete n (finishing p)) p).
  assert (jobs p ≡ₚ job_of args :: jobs p1) as Hj.
  { unfold jobs; cbn. rewrite (delete_Permutation _ _ _ E) at 1. by rewrite <- Permutation_middle. }
  apply (core_perm _ _ _ _ _ Hj) in Hc. destruct Hc as [Hd Hr Hf Hn Hq].
  apply Forall_cons in Hn as [[Hn1 Hn2] Hn]. cbn in Hn1, Hn2.
  set (i := ha_Input args) in *.
  (* whichever output is sent, it is for this input *)
  assert (∃ r, res_Input r = i ∧ OneDone_output read unmarshal args p1
    = upd_chDone (chDone p ++ [App i]) (cleanupTempFiles (ha_FileIn args) (ha_FileOut args) (upd_out r p1)))
    as (r & Hri & ->).
  { unfold OneDone_output. destruct (ForcedStop args); [|destruct (read ≫= unmarshal)];
      (eexists {| res_Output := _; res_Input := i |}; split; reflexivity). }
  split; [done| |done|done]. split; cbn.
  - change (jobs _) with (jobs p1). rewrite (Permutation_app_comm (chDone p)), app_assoc.
    rewrite (Permutation_app_comm _ [App i]). exact Hd.
  - intros a. change (jobs _) with (jobs p1). rewrite Hr. cbn.
    rewrite elem_of_cons, !elem_of_app, list_elem_of_singleton. tauto.
  - change (jobs _) with (jobs p1). apply Remove_perm; [done|]. apply Remove_perm; [done|]. exact Hf.
  - exact Hn.
  - intros a. change (jobs _) with (jobs p1). rewrite Hq, fmap_app, on_app, <- !app_assoc. f_equal. cbn.
    rewrite Hri. destruct (decide (App i = a)) as [<-|Ha].
    + by rewrite !on_cons_eq.
    + by rewrite !on_cons_ne.
Qed.

Lemma pool_step_inv unmarshal l p p' :
  inv p → step maxNum launchers unmarshal l p = Some p' → inv p'.
Proof using Hkinds.
  intros Hinv. destruct l as [k i| |n cap| |uid|n read|uid|]; cbn.
  - case_match; [done|]. intros [= <-]. by destruct Hinv as [? [] ? ?].
  - destruct (chStopped p); [done|]. destruct (chIn p) as [|i is']; [done|]. intros [= <-].
    destruct Hinv as [Hfu Hc Hb Hw]. apply loop_in_inv; [done| |done|done].
    destruct Hc as [Hd Hr Hf Hn Hq]. split; [done..|]. intros a. cbn.
    by rewrite !on_app, Hq, <- !app_assoc.
  - destruct (chStopped p); [done|]. destruct (chDone p !! n) as [app|] eqn:E; [|done]. cbn.
    intros [= <-]. by apply loop_done_inv.
  - case_match; [|done]. intros [= <-]. by destruct Hinv as [? [] ? ?].
  - intros [= <-]. unfold OneDone. destruct (hmap p !! uid) as [a|] eqn:E; [|done].
    eapply inv_jobs; [done|..|done|done|done|done|done|done]; [|done|cbn; set_solver].
    rewrite (jobs_lookup _ _ _ E). unfold jobs; cbn.
    by rewrite app_assoc, (fmap_app job_of _ [a]), (Permutation_app_comm _ (job_of <$> [a])).
  - destruct (finishing p !! n) as [args|] eqn:E; [|done]. cbn. intros [= <-].
    by apply OneDone_output_inv.
  - intros [= <-]. unfold timer_fires. destruct (hmap p !! uid) as [a|] eqn:E.
    + eapply inv_jobs; [done|..|done|done|done|done|done|done]; [|done|cbn; by rewrite dom_alter].
      rewrite (jobs_lookup _ _ _ E). erewrite jobs_lookup by (cbn; by rewrite lookup_alter_eq, E).
      cbn. by rewrite delete_alter_eq.
    + assert (∀ f, alter f uid (hmap p) = hmap p) as ->; [|by destruct p].
      intros f. apply map_eq. intros j. destruct (decide (uid = j)) as [<-|].
      * by rewrite lookup_alter_eq, E.
      * by rewrite lookup_alter_ne.
  - case_match; [done|]. intros [= <-]. by destruct Hinv as [? [] ? ?].
Qed.
End inv.
End PoolInv.

Module PoolProps.
Import HelperPool HelperOutput PoolInv.

Section reach.
Context (maxNum : nat) (launchers : gset string) (unmarshal : decoder) (answers : list answer).
Hypothesis Hkinds : ∀ k, k ∈ launchers → in_string ":"%char k = false.
Hypothesis Hsane : sane answers.

Lemma Start_inv : inv maxNum launchers (Start answers).
Proof using Hsane.
  split; cbn.
  - split; [done|]. intros uid Hin. cbn in Hin. rewrite dom_empty in Hin. by apply not_elem_of_empty in Hin.
  - split; cbn; [constructor|intros a; rewrite elem_of_empty, elem_of_nil; done|done|constructor|done].
  - rewrite size_empty. lia.
  - by intros _ i []%elem_of_nil.
Qed.

Lemma steps_inv ls p p' :
  inv maxNum launchers p → steps maxNum launchers unmarshal ls p = Some p' → inv maxNum launchers p'.
Proof using Hkinds.
  revert p. induction ls as [|l ls IH]; cbn; intros p Hp; [by intros [= <-]|].
  destruct (step maxNum launchers unmarshal l p) as [p1|] eqn:E; [|done]. cbn.
  apply IH. by eapply pool_step_inv.
Qed.

Lemma pool_reachable_inv ls p :
  steps maxNum launchers unmarshal ls (Start answers) = Some p → inv maxNum launchers p.
Proof using Hkinds Hsane. apply steps_inv, Start_inv. Qed.
End reach.

Lemma length_apps_running {maxNum launchers p} :
  inv maxNum launchers p → length (jobs p) ≤ size (running p).
Proof.
  intros [_ [Hd Hr _ _ _] _ _]. apply NoDup_app in Hd as [Hd _].
  assert (size (list_to_set (apps (jobs p)) : gset string) = length (jobs p)) as <-.
  { rewrite size_list_to_set by done. unfold apps. by rewrite length_fmap. }
  apply subseteq_size. intros a Ha%elem_of_list_to_set. apply Hr, elem_of_app. by left.
Qed.

(** What the theorems need from the environment: kinds without a colon, fresh
    instance ids, named temporary files. *)
Definition launcher_sane (launchers : gset string) (answers : list answer) : Prop :=
  (∀ k, k ∈ launchers → in_string ":"%char k = false) ∧ sane answers.

Definition example_input (k app msg : string) : HelperInput :=
  {| kind := k; App := app; Package := "pkg"; NotificationId := msg; Payload := msg |}.

Definition example_answers : list answer :=
  (λ n, {| a_HelperInfo := ("helper", "exec"); a_FileIn := Some ("in" +:+ n, true);
           a_FileOut := Some ("out" +:+ n); a_Launch := inl n |}) <$> ["1"; "2"; "3"].

Definition example_labels : list label :=
  [Run "click" (example_input "" "a" "m1"); Run "click" (example_input "" "a" "m2");
   Run "click" (example_input "" "b" "m3"); LoopIn; LoopIn; LoopIn;
   HelperDone "click:1"; HelperOut 0 (Some "out"); LoopDone 0 8].

Definition example_decoder : decoder := λ s, Some {| Message := s; Notification_ := None |}.

Lemma example_sane : launcher_sane {["click"]} example_answers.
Proof.
  split; [by intros k ->%elem_of_singleton|]. split.
  - apply (bool_decide_unpack _). by vm_compute.
  - repeat constructor; done.
Qed.

(** The pool keeps its limits and leaks nothing. However inputs arrive
    and helpers end, in whatever order: at most [maxNum] helpers are at work,
    no two for the same application, and the temporary files are exactly
    theirs; while there is room, only inputs of applications with a helper at
    work wait, so that nothing waits when nothing is at work. *)
Theorem pool_limits maxNum launchers unmarshal answers ls p :
  launcher_sane launchers answers →
  steps maxNum launchers unmarshal ls (Start answers) = Some p →
  length (jobs p) ≤ maxNum ∧ NoDup (apps (jobs p)) ∧ files p ≡ₚ job_files (jobs p) ∧
  (size (running p) < maxNum → ∀ i, i ∈ omap id (backlog p) → App i ∈ apps (jobs p) ++ chDone p) ∧
  (0 < maxNum → jobs p = [] → chDone p = [] → omap id (backlog p) = []).
Proof.
  intros [Hk Hs] Hp. apply pool_reachable_inv in Hp as Hinv; [|done..].
  pose proof (length_apps_running Hinv). destruct Hinv as [_ [Hd Hr Hf _ _] Hb Hw].
  split_and!; [lia|by apply NoDup_app in Hd as [? _]|done| |].
  - intros Hlt i Hi. apply Hr. by apply Hw.
  - intros Hpos Hj Hdn. rewrite Hj, Hdn in Hr.
    assert (size (running p) = 0) as Hsz.
    { apply size_empty_iff. intros a. rewrite elem_of_empty, Hr. split; [by intros []%elem_of_nil|done]. }
    destruct (omap id (backlog p)) as [|i l]; [done|].
    specialize (Hw ltac:(lia) i ltac:(by left)). apply Hr in Hw. by apply elem_of_nil in Hw.
Qed.

Lemma pool_limits_witness :
  ∃ p, steps 5 {["click"]} example_decoder example_labels (Start example_answers) = Some p ∧
  length (jobs p) = 2 ∧ length (jobs p) ≤ 5 ∧ NoDup (apps (jobs p)) ∧ files p ≡ₚ job_files (jobs p).
Proof.
  eexists. split; [vm_compute; reflexivity|]. split; [by vm_compute|].
  destruct (pool_limits 5 {["click"]} example_decoder example_answers example_labels _ example_sane
    ltac:(vm_compute; reflexivity)) as (? & ? & ? & _). done.
Defined.

(** C24: Every input gives one result, in order. For each application, the
    inputs the loop has received are, in order, those whose results have been
    sent, the one a helper is at work on, and those that wait; when no helper
    is at work and none waits, each input received has had its result. *)
Theorem pool_results maxNum launchers unmarshal answers ls p :
  launcher_sane launchers answers →
  steps maxNum launchers unmarshal ls (Start answers) = Some p →
  (∀ a, on a (taken p)
        = on a (res_Input <$> chOut p) ++ on a (jobs p).*1 ++ on a (omap id (backlog p))) ∧
  (∀ a, length (on a (jobs p).*1) ≤ 1) ∧
  (0 < maxNum → jobs p = [] → chDone p = [] → ∀ a, on a (res_Input <$> chOut p) = on a (taken p)).
Proof.
  intros [Hk Hs] Hp. apply pool_reachable_inv in Hp as Hinv; [|done..].
  destruct Hinv as [_ [Hd Hr _ _ Hq] Hb Hw]. split_and!; [done| |].
  - intros a. apply NoDup_app in Hd as [Hd _]. rewrite apps_fst in Hd. clear -Hd.
    induction (jobs p).*1 as [|i l IH]; [cbn; lia|]. cbn in Hd. apply NoDup_cons in Hd as [Hi Hd].
    destruct (decide (App i = a)) as [<-|Ha].
    + rewrite on_cons_eq, on_none by done. done.
    + rewrite on_cons_ne by done. by apply IH.
  - intros Hpos Hj Hdn a. rewrite Hq, Hj in *. rewrite Hdn in Hr.
    assert (size (running p) = 0) as Hsz.
    { apply size_empty_iff. intros b. rewrite elem_of_empty, Hr. split; [by intros []%elem_of_nil|done]. }
    destruct (omap id (backlog p)) as [|i l]; [by rewrite !app_nil_r|].
    specialize (Hw ltac:(lia) i ltac:(by left)). apply Hr in Hw. by apply elem_of_nil in Hw.
Qed.

Lemma pool_results_witness :
  ∃ p, steps 5 {["click"]} example_decoder example_labels (Start example_answers) = Some p ∧
  on "a" (taken p) = [example_input "click" "a" "m1"; example_input "click" "a" "m2"] ∧
  ∀ a, on a (taken p)
       = on a (res_Input <$> chOut p) ++ on a (jobs p).*1 ++ on a (omap id (backlog p)).
Proof.
  eexists. split; [vm_compute; reflexivity|]. split; [by vm_compute|].
  apply (pool_results 5 {["click"]} example_decoder example_answers example_labels _ example_sane
    ltac:(vm_compute; reflexivity)).
Defined.
End PoolProps.
