(* ===== verification/Mbox.v ===== *)
(** Mail boxes: [client/service/mbox.go].

    A box keeps its messages in a slice whose first [evicted] entries are
    blanked; copies are amortised against the slice's capacity. The capacity
    after [append] is the runtime's choice, a parameter. The specification is
    a queue that gives up its oldest messages when the new one does not fit. *)

From S2P Require Import Prelude.

Module Mbox.
Local Open Scope Z_scope.

Definition mBoxMaxMessagesSize : Z := 128 * 1024.

Record mBox := Box {
  evicted : nat;
  curSize : Z;
  messages : list string;
  nids : list string;
  mcap : nat;   (** [cap(box.messages)] *)
}.

Definition empty_mBox : mBox := Box 0 0 [] [] 0.

(** The loop of [evictFor] from index [i]; [evictedSize] is its local. *)
Fixpoint evict_loop (fuel : nat) (sz evictedSize : Z) (i : nat) (box : mBox) : Z * mBox :=
  match fuel with
  | O => (evictedSize, box)
  | S fuel =>
      if decide (evictedSize < sz) then
        match messages box !! i with
        | None => (evictedSize, box)
        | Some m =>
            evict_loop fuel sz (evictedSize + len m) (S i)
              (Box (S (evicted box)) (curSize box) (<[i := ""]> (messages box)) (<[i := ""]> (nids box))
                 (mcap box))
        end
      else (evictedSize, box)
  end.

Definition evictFor (sz : Z) (box : mBox) : mBox :=
  let '(evictedSize, box) := evict_loop (length (messages box)) sz 0 (evicted box) box in
  Box (evicted box) (curSize box - evictedSize) (messages box) (nids box) (mcap box).

(** Dropping the blanked entries, when all are or when they are half the
    capacity. *)
Definition compact (box : mBox) : mBox :=
  let n := length (messages box) in
  if decide (0 < evicted box)%nat then
    if decide (evicted box = n) then Box 0 (curSize box) [] [] (mcap box)
    else if decide (mcap box / 2 <= evicted box)%nat
    then Box 0 (curSize box) (drop (evicted box) (messages box)) (drop (evicted box) (nids box)) (mcap box)
    else box
  else box.

Section append.
(** The capacity [append] gives a slice that has to hold [n] elements. *)
Context (grow : nat → nat).

Definition Append (message nid : string) (box : mBox) : mBox :=
  let sz := len message in
  let box := if decide (curSize box + sz > mBoxMaxMessagesSize) then evictFor sz box else box in
  let box := compact box in
  let n := S (length (messages box)) in
  Box (evicted box) (curSize box + sz) (messages box ++ [message]) (nids box ++ [nid])
    (if decide (n <= mcap box)%nat then mcap box else grow n).

(** [box.messages[box.evicted:]] panics past the end. *)
Definition AllMessages (box : mBox) : option (list string) :=
  if decide (evicted box <= length (messages box))%nat
  then Some (drop (evicted box) (messages box)) else None.
End append.
End Mbox.

Module MboxSpec.
Import Mbox.
Local Open Scope Z_scope.

Definition size (q : list string) : Z := sum_Z (λ m, len m) q.

(** The queue after dropping oldest messages until [sz] is freed. *)
Fixpoint drop_for (sz : Z) (q : list string) : list string :=
  match q with
  | [] => []
  | m :: q' => if decide (0 < sz) then drop_for (sz - len m) q' else q
  end.

Definition queue_append (message : string) (q : list string) : list string :=
  (if decide (size q + len message > mBoxMaxMessagesSize) then drop_for (len message) q else q)
  ++ [message].

(** The representation: blanks, then the queue. *)
Record repr (box : mBox) (q : list string) : Prop := {
  r_messages : messages box = replicate (evicted box) "" ++ q;
  r_nids : length (nids box) = length (messages box);
  r_size : curSize box = size q;
}.

Lemma drop_repr box q : repr box q → drop (evicted box) (messages box) = q.
Proof. intros [-> _ _]. by rewrite drop_app_length' by (by rewrite length_replicate). Qed.

Lemma evict_loop_spec fuel sz freed box q :
  messages box = replicate (evicted box) "" ++ q → length (nids box) = length (messages box) →
  (length q <= fuel)%nat →
  let '(freed', box') := evict_loop fuel sz freed (evicted box) box in
  let q' := drop_for (sz - freed) q in
  messages box' = replicate (evicted box') "" ++ q' ∧ length (nids box') = length (messages box') ∧
  curSize box' = curSize box ∧ mcap box' = mcap box ∧ freed' = freed + size q - size q'.
Proof.
  revert freed box q. induction fuel as [|fuel IH]; intros freed box q Hm Hn Hf; cbn.
  { destruct q; [|cbn in Hf; lia]. cbn. split_and!; [done..|lia]. }
  assert (drop_for (sz - freed) q = match q with [] => [] | m :: q' =>
    if decide (freed < sz) then drop_for (sz - freed - len m) q' else q end) as Hdf.
  { destruct q; cbn; [done|]. destruct (decide (0 < sz - freed)), (decide (freed < sz)); done || lia. }
  rewrite Hdf. clear Hdf. destruct (decide (freed < sz)) as [Hlt|Hlt].
  - rewrite Hm, lookup_app_r, length_replicate, Nat.sub_diag by (by rewrite length_replicate).
    destruct q as [|m q]; cbn.
    { split_and!; [done..|lia]. }
    specialize (IH (freed + len m) (Box (S (evicted box)) (curSize box)
      (<[evicted box := ""]> (messages box)) (<[evicted box := ""]> (nids box)) (mcap box)) q).
    cbn [evicted messages nids curSize mcap] in IH. rewrite Hm in IH.
    replace (sz - freed - len m) with (sz - (freed + len m)) by lia.
    destruct (evict_loop fuel sz (freed + len m) (S (evicted box)) _) as [freed' box'].
    destruct IH as (? & ? & ? & ? & ->).
    + rewrite insert_app_r_alt by (by rewrite length_replicate). rewrite length_replicate, Nat.sub_diag.
      cbn. rewrite app_comm_cons, replicate_cons_app, <- app_assoc. done.
    + rewrite !length_insert. by rewrite Hn, Hm.
    + cbn in Hf. lia.
    + split_and!; [done..|]. unfold size; cbn. lia.
  - destruct q; (split_and!; [done..|lia]).
Qed.

Lemma drop_for_size sz q : 0 <= sz →
  (exists k, drop_for sz q = drop k q) ∧ (drop_for sz q = [] ∨ size (drop_for sz q) <= size q - sz).
Proof.
  revert sz. induction q as [|m q IH]; intros sz Hsz; cbn.
  { split; [by exists 0%nat|by left]. }
  destruct (decide (0 < sz)).
  - destruct (decide (0 <= sz - len m)) as [Hl|Hl].
    + destruct (IH (sz - len m) Hl) as [[k Hk] Hs]. split; [by exists (S k)|].
      destruct Hs as [Hs|Hs]; [by left|right]. unfold size in *; cbn. lia.
    + assert (drop_for (sz - len m) q = q) as Hq.
      { destruct q; cbn; [done|]. by rewrite decide_False by lia. }
      rewrite Hq. split; [by exists 1%nat|right]. unfold size; cbn. lia.
  - split; [by exists 0%nat|right]. unfold size; cbn. lia.
Qed.

Lemma compact_repr box q : repr box q → repr (compact box) q.
Proof.
  intros Hr. pose proof (drop_repr _ _ Hr) as Hd. destruct Hr as [Hm Hn Hs]. unfold compact.
  repeat case_decide; split; cbn; try done.
  - assert (length q = 0%nat) as ?%nil_length_inv; [|by subst].
    apply (f_equal length) in Hm. rewrite length_app, length_replicate in Hm. lia.
  - rewrite !length_drop. lia.
Qed.

Lemma Append_repr grow message nid box q :
  repr box q → repr (Append grow message nid box) (queue_append message q).
Proof.
  intros Hr. unfold Append, queue_append. destruct Hr as [Hm Hn Hs] eqn:Er. clear Er. rewrite Hs.
  set (box1 := if decide _ then evictFor _ _ else _). set (q1 := if decide _ then drop_for _ _ else _).
  assert (repr box1 q1) as Hr1.
  { subst box1 q1. case_decide; [|by split]. unfold evictFor.
    pose proof (evict_loop_spec (length (messages box)) (len message) 0 box q Hm Hn) as He.
    destruct (evict_loop _ _ _ _ _) as [freed box'].
    destruct He as (? & ? & ? & _ & ->); [rewrite Hm, length_app; lia|]. rewrite Z.sub_0_r in *.
    split; cbn; [done..|]. lia. }
  apply compact_repr in Hr1 as [Hm1 Hn1 Hs1]. split; cbn.
  - by rewrite Hm1, <- app_assoc.
  - rewrite !length_app, Hn1. done.
  - rewrite Hs1. unfold size. rewrite sum_Z_app. cbn. lia.
Qed.
End MboxSpec.

Module MboxProps.
Import Mbox MboxSpec.
Local Open Scope Z_scope.

(** A mail box is a bounded queue. Whatever capacities the runtime gives
    its slices, after any messages its contents are those of the queue that
    makes room by giving up its oldest messages; they are a suffix of what was
    appended that contains the last message, and as long as no single message
    is larger than the limit they fit in it. *)
Theorem mbox_bounded_queue (grow : nat → nat) (ms : list (string * string)) :
  let box := foldl (λ box m, Append grow m.1 m.2 box) empty_mBox ms in
  let q := foldl (λ q m, queue_append m.1 q) [] ms in
  AllMessages box = Some q ∧ curSize box = size q ∧
  q `suffix_of` ms.*1 ∧ (ms ≠ [] → last q = last ms.*1) ∧
  (Forall (λ m, len m.1 <= mBoxMaxMessagesSize) ms → size q <= mBoxMaxMessagesSize).
Proof.
  set (app_box := λ (box : mBox) (m : string * string), Append grow m.1 m.2 box).
  set (app_q := λ (q : list string) (m : string * string), queue_append m.1 q). cbv zeta.
  enough (repr (foldl app_box empty_mBox ms) (foldl app_q [] ms) ∧
    foldl app_q [] ms `suffix_of` ms.*1 ∧ (ms ≠ [] → last (foldl app_q [] ms) = last ms.*1) ∧
    (Forall (λ m, len m.1 <= mBoxMaxMessagesSize) ms → size (foldl app_q [] ms) <= mBoxMaxMessagesSize))
    as (Hr & ? & ? & ?).
  { pose proof (drop_repr _ _ Hr) as Hd. destruct Hr as [Hm _ Hs]. split_and!; [|done..].
    unfold AllMessages. rewrite decide_True by (rewrite Hm, length_app, length_replicate; lia). by rewrite Hd. }
  induction ms as [|[m nid] ms (Hr & Hsuf & _ & Hsz)] using rev_ind.
  { split; [by split|]. split; [apply suffix_nil|]. split; [done|]. intros _. by vm_compute. }
  rewrite !foldl_app, fmap_app. cbn [foldl fmap list_fmap fst].
  change (app_q (foldl app_q [] ms) (m, nid)) with (queue_append m (foldl app_q [] ms)).
  change (app_box (foldl app_box empty_mBox ms) (m, nid)) with (Append grow m nid (foldl app_box empty_mBox ms)).
  split; [by apply Append_repr|]. unfold queue_append.
  destruct (drop_for_size (len m) (foldl app_q [] ms) ltac:(lia)) as [[k Hk] Hfree].
  split; [|split; [intros _; by rewrite !last_snoc|]].
  - apply suffix_snoc. etrans; [|exact Hsuf]. case_decide; [rewrite Hk|done].
    exists (take k (foldl app_q [] ms)). by rewrite take_drop.
  - rewrite Forall_app, Forall_singleton. intros [Hall Hm]. specialize (Hsz Hall). cbn in Hm.
    unfold size at 1. rewrite sum_Z_app. cbn. case_decide as Hd; [|unfold size in Hd; lia].
    destruct Hfree as [->|Hfree]; [cbn; lia|]. unfold size in *. lia.
Qed.
End MboxProps.
