(* ===== verification/Click.v ===== *)
(** Application ids: [click/click.go].

    The two regular expressions are matched by runs of character classes; the
    separator is in none of the classes, so the greedy runs of the source's
    expressions are the only ones. The package database, the desktop files and
    the icon lookups are parameters. *)

From S2P Require Import Prelude.

Module Click.

Record AppId := {
  Package : string;
  Application : string;
  Version : string;
  Click : bool;
  original : string;
}.

Inductive app_err := ErrInvalidAppId | ErrMissingApp | ErrJSON.

(** ** Character classes *)
Definition between (lo hi : ascii) (c : ascii) : bool :=
  bool_decide (nat_of_ascii lo <= nat_of_ascii c) && bool_decide (nat_of_ascii c <= nat_of_ascii hi).
Definition lower := between "a" "z".
Definition upper := between "A" "Z".
Definition digit := between "0" "9".
Definition one_of (l : string) (c : ascii) : bool := in_string c l.

Definition pkg_first (c : ascii) : bool := lower c || digit c.                        (** [a-z0-9] *)
Definition pkg_char (c : ascii) : bool := lower c || digit c || one_of "+.-" c.       (** [a-z0-9+.-] *)
Definition app_char (c : ascii) : bool := lower c || upper c || digit c || one_of "+.-" c.
Definition ver_char (c : ascii) : bool := lower c || upper c || digit c || one_of ".+:~-" c.

(** The longest prefix of characters of a class, and the rest. *)
Fixpoint span (f : ascii → bool) (s : string) : string * string :=
  match s with
  | EmptyString => ("", "")
  | String c s' => if f c then let '(a, b) := span f s' in (String c a, b) else ("", s)
  end.

(** [rxClick.FindStringSubmatch]: the three groups. *)
Definition rxClick (id : string) : option (string * string * string) :=
  match id with
  | EmptyString => None
  | String c rest =>
      if pkg_first c then
        match span pkg_char rest with
        | (String _ _ as p, String "_" rest) =>
            match span app_char rest with
            | (String _ _ as a, EmptyString) => Some (String c p, a, "")
            | (String _ _ as a, String "_" (String d rest)) =>
                if digit d then
                  match span ver_char rest with
                  | (v, EmptyString) => Some (String c p, a, String d v)
                  | _ => None
                  end
                else None
            | _ => None
            end
        | _ => None
        end
      else None
  end.

Fixpoint all_chars (f : ascii → bool) (s : string) : bool :=
  match s with EmptyString => true | String c s => f c && all_chars f s end.

(** [rxLegacy.MatchString] *)
Definition rxLegacy (s : string) : bool :=
  match s with
  | EmptyString => false
  | String c rest =>
      negb (one_of "./" c) && all_chars (λ c, negb (bool_decide (c = "/"%char))) rest
  end.

Definition setFromString (id : string) : outcome app_err AppId :=
  match id with
  | String "_" appname =>
      if rxLegacy appname
      then Ok {| Package := ""; Application := appname; Version := ""; Click := false; original := id |}
      else Err ErrInvalidAppId
  | _ =>
      match rxClick id with
      | Some (p, a, v) => Ok {| Package := p; Application := a; Version := v; Click := true; original := id |}
      | None => Err ErrInvalidAppId
      end
  end.

Definition ParseAppId (id : string) : outcome app_err AppId := setFromString id.

Definition InPackage (pkgname : string) (app : AppId) : bool := bool_decide (Package app = pkgname).

Definition DispatchPackage (app : AppId) : string :=
  if Click app then Package app else Application app.

Definition Original (app : AppId) : string := original app.
Definition AppId_String (app : AppId) : string := Original app.

Definition Base (app : AppId) : string :=
  if Click app then Package app +:+ "_" +:+ Application app else Application app.

Definition Versioned (app : AppId) : outcome app_err string :=
  if Click app then
    if decide (Version app = "") then Panic
    else Ok (Package app +:+ "_" +:+ Application app +:+ "_" +:+ Version app)
  else Ok (Application app).

Definition DesktopId (app : AppId) : outcome app_err string :=
  v ← Versioned app; mret (v +:+ ".desktop").

Definition symbolic (icon : string) : string :=
  if in_string "/"%char icon then icon else icon +:+ "-symbolic".

Section environment.
(** [cappinfo], the click database, the XDG lookup of a desktop file, and the
    JSON codec of strings. *)
Context (AppIconFromDesktopId AppSymbolicIconFromDesktopId : string → string).
Context (CGetVersion : string → string).
Context (desktop_file_found : string → bool).
Context (marshal_string : string → string) (unmarshal_string : string → option string).

Definition Icon_ (app : AppId) : outcome app_err string :=
  d ← DesktopId app; mret (AppIconFromDesktopId d).

Definition SymbolicIcon (app : AppId) : outcome app_err string :=
  d ← DesktopId app;
  let symbolicIcon := AppSymbolicIconFromDesktopId d in
  if decide (symbolicIcon = "") then i ← Icon_ app; mret (symbolic i) else mret symbolicIcon.

Definition MarshalJSON (app : AppId) : string := marshal_string (Original app).

Definition UnmarshalJSON (s : string) : outcome app_err AppId :=
  match unmarshal_string s with Some v => setFromString v | None => Err ErrJSON end.

Definition set_version (v : string) (app : AppId) : AppId :=
  {| Package := Package app; Application := Application app; Version := v; Click := Click app;
     original := original app |}.

(** [Installed] may set the version of the application it is given. *)
Definition Installed (app : AppId) (setVersion : bool) : outcome app_err (AppId * bool) :=
  if Click app then
    let ver := CGetVersion (Package app) in
    if decide (ver = "") then mret (app, false)
    else if decide (Version app = "")
    then mret (if setVersion then set_version ver app else app, true)
    else mret (app, bool_decide (Version app = ver))
  else d ← DesktopId app; mret (app, desktop_file_found d).

(** An error may come with the parsed id; [checked] is [installedChecker != nil]. *)
Definition ParseAndVerifyAppId (id : string) (checked : bool)
    : outcome app_err (AppId * option app_err) :=
  app ← ParseAppId id;
  if checked then
    r ← Installed app true;
    let '(app, ok) := r in
    mret (app, if (ok : bool) then None else Some ErrMissingApp)
  else mret (app, None).
End environment.
End Click.

Module ClickSpec.
Import Click.

(** Well-formed application ids. *)
Definition wf (app : AppId) : Prop :=
  if Click app then
    (∃ c p, Package app = String c p ∧ pkg_first c = true ∧ p ≠ "" ∧ all_chars pkg_char p = true) ∧
    (Application app ≠ "" ∧ all_chars app_char (Application app) = true) ∧
    (Version app = "" ∨ ∃ d v, Version app = String d v ∧ digit d = true ∧ all_chars ver_char v = true)
  else Package app = "" ∧ Version app = "" ∧ rxLegacy (Application app) = true.

Definition print (app : AppId) : string :=
  if Click app then
    Base app +:+ (if decide (Version app = "") then "" else "_" +:+ Version app)
  else "_" +:+ Application app.

(** The rest after a run does not start with a character of the class. *)
Definition stops (f : ascii → bool) (s : string) : Prop :=
  match s with EmptyString => True | String c _ => f c = false end.

Lemma span_app f a b : all_chars f a = true → stops f b → span f (a +:+ b) = (a, b).
Proof.
  intros Ha Hb. induction a as [|c a IH].
  - rewrite str_app_nil. destruct b as [|c b]; cbn in *; [done|]. by rewrite Hb.
  - cbn in Ha. apply andb_true_iff in Ha as [Hc Ha]. rewrite str_app_cons. cbn. by rewrite Hc, (IH Ha).
Qed.

Lemma span_inv f s a b : span f s = (a, b) → s = a +:+ b ∧ all_chars f a = true.
Proof.
  revert a b. induction s as [|c s IH]; intros a b; cbn; [by intros [= <- <-]|].
  destruct (f c) eqn:Hc; [|by intros [= <- <-]].
  destruct (span f s) as [a' b'] eqn:E. intros [= <- <-]. destruct (IH a' b' eq_refl) as [-> Ha].
  rewrite str_app_cons. cbn. by rewrite Hc, Ha.
Qed.

Lemma pkg_first_underscore : pkg_first "_" = false.
Proof. done. Qed.

Lemma rxClick_print c p a v :
  pkg_first c = true → p ≠ "" → all_chars pkg_char p = true → a ≠ "" → all_chars app_char a = true →
  (v = "" ∨ ∃ d v', v = String d v' ∧ digit d = true ∧ all_chars ver_char v' = true) →
  rxClick (String c p +:+ "_" +:+ a +:+ (if decide (v = "") then "" else "_" +:+ v))
  = Some (String c p, a, v).
Proof.
  intros Hc Hp Hpc Ha Hac Hv. rewrite str_app_cons. unfold rxClick. rewrite Hc.
  rewrite (str_app_cons "_" "" (a +:+ _)), str_app_nil. rewrite span_app; [|done|done].
  destruct p as [|p0 p]; [done|]. case_decide as Hd.
  - rewrite str_app_nil_r. rewrite <- (str_app_nil_r a) at 1. rewrite span_app; [|done|done].
    destruct a; [done|]. by subst.
  - destruct Hv as [?|(d & v' & -> & Hdig & Hv')]; [done|].
    rewrite (str_app_cons "_" "" (String d v')), str_app_nil. rewrite span_app; [|done|done].
    destruct a as [|a0 a]; [done|]. rewrite Hdig.
    rewrite <- (str_app_nil_r v') at 1. by rewrite span_app.
Qed.

Lemma rxClick_inv id p a v :
  rxClick id = Some (p, a, v) →
  id = p +:+ "_" +:+ a +:+ (if decide (v = "") then "" else "_" +:+ v) ∧
  (∃ c p', p = String c p' ∧ pkg_first c = true ∧ p' ≠ "" ∧ all_chars pkg_char p' = true) ∧
  (a ≠ "" ∧ all_chars app_char a = true) ∧
  (v = "" ∨ ∃ d v', v = String d v' ∧ digit d = true ∧ all_chars ver_char v' = true).
Proof.
  unfold rxClick. destruct id as [|c rest]; [done|]. destruct (pkg_first c) eqn:Hc; [|done].
  destruct (span pkg_char rest) as [p1 r1] eqn:E1. apply span_inv in E1 as [-> Hp1].
  destruct p1 as [|p0 p1]; [done|]. destruct r1 as [|u1 r1]; [done|].
  destruct (decide (u1 = "_"%char)) as [->|Hu1].
  2: { intros H. exfalso. revert H. by repeat case_match. }
  destruct (span app_char r1) as [a1 r2] eqn:E2. apply span_inv in E2 as [-> Ha1].
  destruct a1 as [|a0 a1]; [done|]. destruct r2 as [|u2 r2].
  { intros [= <- <- <-]. split_and!; [|by eexists _, _|done|done|by left].
    rewrite decide_True by done. done. }
  destruct (decide (u2 = "_"%char)) as [->|Hu2].
  2: { intros H. exfalso. revert H. by repeat case_match. }
  destruct r2 as [|d r2]; [done|]. destruct (digit d) eqn:Hd; [|done].
  destruct (span ver_char r2) as [v1 r3] eqn:E3. apply span_inv in E3 as [-> Hv1].
  destruct r3; [|done]. intros [= <- <- <-]. split_and!; [|by eexists _, _|done|done|right; by eexists _, _].
  rewrite decide_False by done. rewrite !str_app_cons, !str_app_nil, str_app_nil_r. done.
Qed.
End ClickSpec.

Module ClickProps.
Import Click ClickSpec.

(** Parsing and printing application ids. The well-formed ids, and only
    they, parse: an id that parses gives a well-formed application that prints
    back as the id it was read from, and a well-formed application's printed
    form parses to it; everything else is [ErrInvalidAppId]. *)
Theorem parse_app_id_roundtrip :
  (∀ id, match ParseAppId id with
         | Ok app => wf app ∧ print app = id ∧ Original app = id
         | Err e => e = ErrInvalidAppId ∧ ∀ app, wf app → print app ≠ id
         | Panic => False
         end) ∧
  ∀ app, wf app → original app = print app → ParseAppId (print app) = Ok app.
Proof.
  assert (∀ app, wf app → original app = print app → ParseAppId (print app) = Ok app) as Hprint.
  { intros [p a v cl o] Hwf Ho. unfold wf, print, Base in *. cbn in *.
    destruct cl; cbn in *; subst o.
    - destruct Hwf as ((c & p' & -> & Hc & Hp' & Hpc) & (Ha & Hac) & Hv).
      assert (c ≠ "_"%char) as Hcu by (intros ->; done).
      pose proof (rxClick_print c p' a v Hc Hp' Hpc Ha Hac Hv) as Hrx.
      rewrite <- !str_app_assoc in *. unfold ParseAppId, setFromString. rewrite !str_app_cons in *.
      rewrite Hrx. repeat case_match; congruence || done.
    - destruct Hwf as (-> & -> & Ha). unfold ParseAppId, setFromString.
      rewrite (str_app_cons "_" "" a), str_app_nil. by rewrite Ha. }
  split; [|done]. intros id. destruct (ParseAppId id) as [app|e|] eqn:E.
  - assert (wf app ∧ print app = id ∧ Original app = id) as H; [|exact H].
    unfold ParseAppId, setFromString in E.
    destruct id as [|c id]; [done|]. destruct (decide (c = "_"%char)) as [->|Hc].
    { destruct (rxLegacy id) eqn:Hl; [|done]. injection E as <-. split_and!; [|done..].
      unfold wf; cbn. done. }
    assert (match rxClick (String c id) with
      | Some (p, a, v) => Ok {| Package := p; Application := a; Version := v; Click := true; original := String c id |}
      | None => Err ErrInvalidAppId end = Ok app) as E'.
    { revert E. repeat case_match; congruence || done. }
    destruct (rxClick (String c id)) as [[[p a] v]|] eqn:Hrx; [|done].
    apply rxClick_inv in Hrx as (Hid & Hp & Ha & Hv). injection E' as <-.
    split_and!; [|unfold print, Base; cbn; by rewrite <- !str_app_assoc|done].
    destruct Hp as (c0 & p' & ? & ? & ? & ?), Ha. unfold wf; cbn. split_and!; [by eexists _, _|done..].
  - assert (e = ErrInvalidAppId) as -> by (revert E; unfold ParseAppId, setFromString; repeat case_match; congruence).
    split; [done|]. intros app Hwf <-.
    set (app' := {| Package := Package app; Application := Application app; Version := Version app;
                    Click := Click app; original := print app |}).
    assert (print app' = print app) as Hp by done. specialize (Hprint app' Hwf eq_refl). congruence.
  - revert E. unfold ParseAppId, setFromString. repeat case_match; congruence.
Qed.

(** Checking that an application is installed. With a checker, a click
    application is accepted exactly when its package has a version and the id
    names that one or none, and is then returned with that version, so that
    its versioned name and desktop id exist; a legacy application is accepted
    exactly when its desktop file is found. *)
Theorem verify_app_id CGetVersion desktop_file_found id app :
  ParseAppId id = Ok app →
  match ParseAndVerifyAppId CGetVersion desktop_file_found id true with
  | Ok (app', None) =>
      (if Click app then CGetVersion (Package app) ≠ "" ∧ Version app' = CGetVersion (Package app) ∧
         (Version app = "" ∨ Version app = CGetVersion (Package app))
       else app' = app ∧ desktop_file_found (Application app +:+ ".desktop") = true) ∧
      Base app' = Base app ∧ is_ok (DesktopId app') = true
  | Ok (app', Some e) =>
      e = ErrMissingApp ∧ app' = app ∧
      (if Click app then CGetVersion (Package app) = "" ∨
         Version app ≠ "" ∧ Version app ≠ CGetVersion (Package app)
       else desktop_file_found (Application app +:+ ".desktop") = false)
  | _ => False
  end.
Proof.
  intros E. unfold ParseAndVerifyAppId. rewrite E. cbn [mbind outcome_bind].
  unfold Installed, DesktopId, Versioned. destruct (Click app) eqn:Hcl; cbn.
  - destruct (decide (CGetVersion (Package app) = "")) as [Hv|Hv]; cbn; [split_and!; [done..|by left]|].
    destruct (decide (Version app = "")) as [Hv0|Hv0]; cbn.
    + rewrite ?Hcl. split_and!; [done|done|by left|by unfold Base; cbn|by rewrite decide_False].
    + case_bool_decide as Hv1; cbn; rewrite ?Hcl; [|split_and!; [done..|by right]].
      split_and!; [done|done|by right|done|by rewrite decide_False].
  - destruct (desktop_file_found _) eqn:Hf; cbn; rewrite ?Hcl; done.
Qed.

Lemma verify_app_id_witness :
  match ParseAndVerifyAppId (λ p, if decide (p = "com.example") then "1.0" else "") (λ _, false)
          "com.example_app" true with
  | Ok (app', None) =>
      Version app' = "1.0" ∧ Base app' = "com.example_app" ∧ is_ok (DesktopId app') = true
  | _ => False
  end.
Proof.
  pose proof (verify_app_id (λ p, if decide (p = "com.example") then "1.0" else "") (λ _, false)
    "com.example_app" {| Package := "com.example"; Application := "app"; Version := ""; Click := true;
                         original := "com.example_app" |} eq_refl) as H.
  vm_compute in H |- *. tauto.
Defined.
End ClickProps.
