(* ===== verification/Nih.v ===== *)
(** Quoting of D-Bus path elements: [nih/nih.go]. *)

From S2P Require Import Prelude Click.
Import Click.

Module Nih.

Definition alnum (c : ascii) : bool := digit c || lower c || upper c.

Definition hex_digit (n : nat) : ascii :=
  default "0"%char (String.get n "0123456789abcdef").

(** [strconv.AppendUint(out, c, 16)] for a byte. *)
Definition append_hex (c : nat) : string :=
  if decide (c < 16) then String (hex_digit c) ""
  else String (hex_digit (c / 16)) (String (hex_digit (c mod 16)) "").

Definition quote_char (c : ascii) : string :=
  if alnum c then String c ""
  else (if decide (nat_of_ascii c < 16) then "_0" else "_") +:+ append_hex (nat_of_ascii c).

Fixpoint quote_loop (s : string) : string :=
  match s with EmptyString => "" | String c s => quote_char c +:+ quote_loop s end.

Definition Quote (s : string) : string := if decide (s = "") then "_" else quote_loop s.

Definition hex_value (c : ascii) : option nat :=
  let n := nat_of_ascii c in
  if digit c then Some (n - 48)
  else if between "a" "f" c then Some (n - 87)
  else if between "A" "F" c then Some (n - 55)
  else None.

(** [strconv.ParseUint(..., 16, 8)] of two characters. *)
Definition parse_hex (a b : ascii) : option ascii :=
  x ← hex_value a; y ← hex_value b; mret (ascii_of_nat (16 * x + y)).

(** A truncated escape ends the loop, a malformed one is skipped. *)
Fixpoint Unquote (s : string) : string :=
  match s with
  | EmptyString => ""
  | String c rest =>
      if decide (c = "_"%char) then
        match rest with
        | String a (String b rest) =>
            match parse_hex a b with
            | Some num => String num (Unquote rest)
            | None => Unquote rest
            end
        | _ => ""
        end
      else String c (Unquote rest)
  end.

(** Characters of a D-Bus path element. *)
Definition path_char (c : ascii) : bool := alnum c || bool_decide (c = "_"%char).

Lemma Unquote_quote_char c s : Unquote (quote_char c +:+ s) = String c (Unquote s).
Proof. destruct c as [[] [] [] [] [] [] [] []]; reflexivity. Qed.

Lemma quote_char_path c : all_chars path_char (quote_char c) = true ∧ quote_char c ≠ "".
Proof. destruct c as [[] [] [] [] [] [] [] []]; by vm_compute. Qed.

Lemma all_chars_app f a b : all_chars f (a +:+ b) = all_chars f a && all_chars f b.
Proof.
  induction a as [|c a IH]; [done|]. rewrite str_app_cons. cbn. by rewrite IH, andb_assoc.
Qed.

(** Quoting makes a path element and can be undone: for every byte string
    the quoted form is not empty and made of letters, digits and underscores,
    and unquoting it gives the string back (so distinct strings have distinct
    quoted forms). *)
Theorem nih_roundtrip (s : string) :
  Unquote (Quote s) = s ∧ all_chars path_char (Quote s) = true ∧ Quote s ≠ "".
Proof.
  unfold Quote. case_decide as Hs; [by subst|]. split_and!.
  - clear Hs. induction s as [|c s IH]; [done|]. cbn. by rewrite Unquote_quote_char, IH.
  - clear Hs. induction s as [|c s IH]; [done|]. cbn. rewrite all_chars_app, IH.
    by destruct (quote_char_path c) as [-> _].
  - destruct s as [|c s]; [done|]. cbn. destruct (quote_char_path c) as [_ Hq].
    by destruct (quote_char c).
Qed.
End Nih.
