(* ===== verification/Connectivity.v ===== *)
(** Connectivity: [bus/connectivity/connectivity.go], the web check of
    [bus/connectivity/webchecker.go] and the states of
    [bus/networkmanager/state.go].

    [Track] runs [step] after [step] and sends what they return; both wait in
    selects. The machine's program counter is the select (or the send) [Track]
    is at; its labels are what the select picks and what the environment does
    meanwhile: the timer expires, a web check answers, [Cancel] is called. *)

From S2P Require Import Prelude.

Module NetworkManager.
Local Open Scope Z_scope.

(** [networkmanager.State], a [uint32]. *)
Abbreviation State := Z (only parsing).
Definition Unknown : State := 0.
Definition Asleep : State := 10.
Definition Disconnected : State := 20.
Definition Disconnecting : State := 30.
Definition Connecting : State := 40.
Definition ConnectedLocal : State := 50.
Definition ConnectedSite : State := 60.
Definition ConnectedGlobal : State := 70.

Definition names : gmap Z string := list_to_map
  [(Unknown, "Unknown"); (Asleep, "Asleep"); (Disconnected, "Disconnected");
   (Disconnecting, "Disconnecting"); (Connecting, "Connecting"); (ConnectedLocal, "Connected Local");
   (ConnectedSite, "Connected Site"); (ConnectedGlobal, "Connected Global")].

Definition State_String (s : State) : string := default (default "" (names !! Unknown)) (names !! s).
End NetworkManager.

Module Connectivity.
Import NetworkManager.
Local Open Scope Z_scope.

(** [Webcheck]: [response] is the body and whether reading it ended without an
    error; [None] when the GET fails. [io.CopyN] of 1024 bytes only meets the
    end of a shorter body. *)
Definition Webcheck (md5hex : string → string) (target : string) (response : option (string * bool)) : bool :=
  match response with
  | None => false
  | Some (body, read_ok) =>
      read_ok && bool_decide (len body < 1024) && bool_decide (md5hex body = target)
  end.

(** A web check's channel: waiting for its result, or holding it. *)
Inductive webget := Checking | Checked (connected : bool).

(** Where [Track] is: about to send the initial "disconnected", in [step]'s
    select, about to send a value, or returned. *)
Inductive track_pc := TInitial | TStep | TSend (v : bool) | TReturned.

(** What [Track] sends: at the start of a run, and after it. *)
Inductive sent := Initial | Sent (v : bool).

Record ConnectedState := CS {
  connAttempts : Z;
  webgetCh : option webget;
  currentState : State;
  lastSent : bool;
  timer_armed : bool;
  timer_fired : bool;        (** a value in [timer.C] *)
  canceled : bool;           (** and [done] closed *)
  stateWatch : bool;
  conWatch : bool;
  pc : track_pc;
  out : list sent;
}.

(** [New] *)
Definition New : ConnectedState := CS 0 None Unknown false false false false false false TInitial [].

Definition set_pc p c := CS (connAttempts c) (webgetCh c) (currentState c) (lastSent c) (timer_armed c)
  (timer_fired c) (canceled c) (stateWatch c) (conWatch c) p (out c).
Definition set_out o c := CS (connAttempts c) (webgetCh c) (currentState c) (lastSent c) (timer_armed c)
  (timer_fired c) (canceled c) (stateWatch c) (conWatch c) (pc c) o.
Definition set_lastSent b c := CS (connAttempts c) (webgetCh c) (currentState c) b (timer_armed c)
  (timer_fired c) (canceled c) (stateWatch c) (conWatch c) (pc c) (out c).
Definition set_webgetCh w c := CS (connAttempts c) w (currentState c) (lastSent c) (timer_armed c)
  (timer_fired c) (canceled c) (stateWatch c) (conWatch c) (pc c) (out c).
Definition set_state s c := CS (connAttempts c) (webgetCh c) s (lastSent c) (timer_armed c)
  (timer_fired c) (canceled c) (stateWatch c) (conWatch c) (pc c) (out c).
Definition set_timer a f c := CS (connAttempts c) (webgetCh c) (currentState c) (lastSent c) a
  f (canceled c) (stateWatch c) (conWatch c) (pc c) (out c).
Definition set_watches s w c := CS (connAttempts c) (webgetCh c) (currentState c) (lastSent c)
  (timer_armed c) (timer_fired c) (canceled c) s w (pc c) (out c).
Definition set_canceled c := CS (connAttempts c) (webgetCh c) (currentState c) (lastSent c)
  (timer_armed c) (timer_fired c) true (stateWatch c) (conWatch c) (pc c) (out c).
Definition add_attempts n c := CS (u32 (connAttempts c + n)) (webgetCh c) (currentState c) (lastSent c)
  (timer_armed c) (timer_fired c) (canceled c) (stateWatch c) (conWatch c) (pc c) (out c).

(** [timer.Reset] does not drain the channel. *)
Definition timer_Reset (c : ConnectedState) : ConnectedState := set_timer true (timer_fired c) c.

(** [reset] *)
Definition reset : ConnectedState → ConnectedState := set_watches false false.

(** One round of [start]: what [Redial] returns, whether the state watch
    works, the state read, whether the connection watch works. *)
Record attempt := { at_dialed : Z; at_watch : bool; at_state : State; at_con : bool }.

(** The loop of [start], until a round works: [None] when none of them does. *)
Fixpoint start (attempts : list attempt) (c : ConnectedState) : option (State * ConnectedState) :=
  match attempts with
  | [] => None
  | a :: attempts =>
      let c := reset (add_attempts (at_dialed a) c) in
      if negb (at_watch a) then start attempts c
      else
        let c := set_watches true false c in
        if decide (at_state a = Unknown) then start attempts c
        else if negb (at_con a) then start attempts c
        else Some (at_state a, set_watches true true c)
  end.

(** The rest of [Track] after the initial send. *)
Definition Track_start (attempts : list attempt) (c : ConnectedState) : option ConnectedState :=
  '(initial, c) ← start attempts (set_lastSent false c);
  Some (set_pc TStep (set_timer true false (set_state initial c))).

(** The cases of [step]'s select. [break Loop] returns [lastSent]. *)
Definition break_loop (c : ConnectedState) : ConnectedState := set_pc (TSend (lastSent c)) c.

Definition on_primary_connection (c : ConnectedState) : ConnectedState :=
  let c := timer_Reset (set_webgetCh None c) in
  if lastSent c then break_loop (set_lastSent false c) else c.

(** [v] is [None] when the channel is closed: [Track] starts over. *)
Definition on_network_state (v : option State) (c : ConnectedState) : ConnectedState :=
  match v with
  | None => set_pc TInitial c
  | Some v =>
      let c := set_webgetCh None c in
      let lastState := currentState c in
      let c := set_state v c in
      if decide (v ≠ Connecting ∧ lastState ≠ v) then
        let c := timer_Reset c in
        if lastSent c then break_loop (set_lastSent false c) else c
      else c
  end.

Definition on_timer (c : ConnectedState) : ConnectedState :=
  let c := set_timer (timer_armed c) false c in
  if decide (currentState c = ConnectedGlobal) then set_webgetCh (Some Checking) c else c.

Definition on_webcheck (connected : bool) (c : ConnectedState) : ConnectedState :=
  let c := set_webgetCh None (timer_Reset c) in
  if connected && negb (lastSent c) then break_loop (set_lastSent true c) else c.

Definition Cancel (c : ConnectedState) : ConnectedState := if canceled c then c else set_canceled c.

Inductive label :=
| LDone                             (** [<-cs.done] in any of the selects *)
| LSend (attempts : list attempt)   (** the value is taken; [start]'s rounds, if it runs *)
| LPrimary | LState (v : option State) | LTimer | LWebcheck
| ETimer | EWebcheck (connected : bool) | ECancel.

Definition step (l : label) (c : ConnectedState) : option ConnectedState :=
  match l, pc c with
  | LDone, (TInitial | TStep | TSend _) =>
      if canceled c then Some (set_pc TReturned (reset c)) else None
  | LSend attempts, TInitial => Track_start attempts (set_out (out c ++ [Initial]) c)
  | LSend _, TSend v => Some (set_pc TStep (set_out (out c ++ [Sent v]) c))
  | LPrimary, TStep => Some (on_primary_connection c)
  | LState v, TStep => Some (on_network_state v c)
  | LTimer, TStep => if timer_fired c then Some (on_timer c) else None
  | LWebcheck, TStep =>
      match webgetCh c with Some (Checked b) => Some (on_webcheck b c) | _ => None end
  | ETimer, _ => if timer_armed c then Some (set_timer false true c) else None
  | EWebcheck b, _ =>
      match webgetCh c with Some Checking => Some (set_webgetCh (Some (Checked b)) c) | _ => None end
  | ECancel, _ => Some (Cancel c)
  | _, _ => None
  end.

Fixpoint steps (ls : list label) (c : ConnectedState) : option ConnectedState :=
  match ls with [] => Some c | l :: ls => c ← step l c; steps ls c end.
End Connectivity.

Module ConnectivitySpec.
Import NetworkManager Connectivity.

(** Every value differs from the one before it in its run. *)
Fixpoint edges (last : bool) (l : list sent) : Prop :=
  match l with
  | [] => True
  | Initial :: l => edges false l
  | Sent v :: l => v = negb last ∧ edges v l
  end.

Definition last_value (l : list sent) : bool :=
  foldl (λ _ s, match s with Initial => false | Sent v => v end) false l.

#[export] Instance sent_eq_dec : EqDecision sent.
Proof. solve_decision. Defined.

Definition runs (l : list sent) : nat := length (filter (λ s, s = Initial) l).

Lemma edges_snoc last l s :
  edges last (l ++ [s]) ↔
  edges last l ∧ match s with
                 | Initial => True
                 | Sent v => v = negb (foldl (λ _ s, match s with Initial => false | Sent v => v end) last l)
                 end.
Proof.
  revert last. induction l as [|[|v] l IH]; intros last; cbn.
  - destruct s; tauto.
  - rewrite IH. done.
  - rewrite IH. tauto.
Qed.

#[local] Arguments runs : simpl never.
#[local] Arguments last_value : simpl never.

Lemma last_value_snoc l s : last_value (l ++ [s]) = match s with Initial => false | Sent v => v end.
Proof. unfold last_value. by rewrite foldl_app. Qed.

Lemma runs_snoc l s : runs (l ++ [s]) = (runs l + match s with Initial => 1 | Sent _ => 0 end)%nat.
Proof.
  unfold runs. rewrite filter_app, length_app. f_equal. by destruct s.
Qed.

Record inv (c : ConnectedState) : Prop := {
  i_edges : edges false (out c);
  i_pc : match pc c with
         | TStep => lastSent c = last_value (out c)
         | TSend v => v = lastSent c ∧ v = negb (last_value (out c))
         | _ => True
         end;
  i_first : (runs (out c) ≤ 1)%nat → pc c ≠ TInitial → pc c ≠ TReturned →
    (webgetCh c ≠ None → currentState c = ConnectedGlobal) ∧
    (pc c = TSend true → currentState c = ConnectedGlobal);
  i_started : pc c ≠ TReturned → pc c ≠ TInitial → (1 ≤ runs (out c))%nat;
  i_start : runs (out c) = 0%nat → webgetCh c = None;
}.

Lemma inv_New : inv New.
Proof. by split. Qed.

Lemma start_spec attempts c s c' :
  start attempts c = Some (s, c') →
  s ≠ Unknown ∧ stateWatch c' = true ∧ conWatch c' = true ∧ out c' = out c ∧ pc c' = pc c ∧
  webgetCh c' = webgetCh c ∧ lastSent c' = lastSent c.
Proof.
  revert c. induction attempts as [|a attempts IH]; intros c; cbn; [done|].
  destruct (at_watch a); cbn; [|intros Hx%IH; exact Hx]. case_decide; [intros Hx%IH; exact Hx|].
  destruct (at_con a); cbn; [|intros Hx%IH; exact Hx]. by intros [= <- <-].
Qed.

Lemma LSend_inv attempts c c' : inv c → step (LSend attempts) c = Some c' → inv c'.
Proof.
  intros [He Hp Hf Hst Hs]. cbn. destruct (pc c) eqn:Epc; try done.
  - unfold Track_start. destruct (start attempts _) as [[s c1]|] eqn:E; [|done]. intros [= <-].
    apply start_spec in E as (_ & _ & _ & Ho & _ & Hw & Hl). cbn in Ho, Hw, Hl.
    split; cbn; rewrite ?Ho, ?Hw, ?Hl.
    + by rewrite edges_snoc.
    + by rewrite last_value_snoc.
    + rewrite runs_snoc. intros Hr _ _. split; [|done]. rewrite Hs by lia. done.
    + intros _ _. rewrite runs_snoc. lia.
    + rewrite runs_snoc. lia.
  - intros [= <-]. destruct Hp as [-> Hv]. split; cbn; rewrite ?runs_snoc, ?Nat.add_0_r.
    + rewrite edges_snoc. by split.
    + by rewrite last_value_snoc.
    + intros Hr _ _. split; [|done]. by apply Hf.
    + intros _ _. by apply Hst.
    + done.
Qed.

Lemma select_inv c c' :
  inv c → pc c = TStep → out c' = out c →
  (pc c' = TStep ∧ lastSent c' = lastSent c ∨
   pc c' = TSend (lastSent c') ∧ lastSent c' = negb (lastSent c)) →
  (webgetCh c' ≠ None → (currentState c' = ConnectedGlobal)) ∨
    (webgetCh c' = webgetCh c ∧ currentState c' = currentState c) →
  (pc c' = TSend true → currentState c' = currentState c ∧ webgetCh c ≠ None) →
  inv c'.
Proof.
  intros [He Hp Hf Hst Hs] Hpc Ho Hl Hw Ht. rewrite Hpc in *.
  specialize (Hst ltac:(done) ltac:(done)).
  split; rewrite ?Ho; [done| | |done|lia].
  - destruct Hl as [[-> ->]|[-> Hl]]; [done|]. split; [done|]. by rewrite Hl, Hp.
  - intros Hr _ _. destruct (Hf Hr ltac:(done) ltac:(done)) as [Hf1 _]. split.
    + destruct Hw as [Hw|[-> ->]]; done.
    + intros [-> Hne]%Ht. by apply Hf1.
Qed.

Ltac select_case c :=
  apply (select_inv c); cbn; try (match goal with E : lastSent c = _ |- _ => rewrite E end; cbn); intros;
  first [assumption | congruence | tauto | left; split; congruence | right; split; congruence
        | left; congruence | split; congruence].

Lemma step_conn_inv l c c' : inv c → step l c = Some c' → inv c'.
Proof.
  intros Hinv. destruct l as [|attempts| |v| | | |b|]; [|by apply LSend_inv|..]; cbn.
  - destruct Hinv as [He Hp Hf Hst Hs].
    destruct (pc c); try done; (destruct (canceled c); [|done]); intros [= <-]; split; cbn; intros; done || congruence || auto.
  - destruct (pc c) eqn:Epc; try done. intros [= <-].
    unfold on_primary_connection; cbn. destruct (lastSent c) eqn:El; select_case c.
  - destruct (pc c) eqn:Epc; try done. intros [= <-]. destruct v as [v|]; cbn.
    + case_decide; [destruct (lastSent c) eqn:El|]; select_case c.
    + destruct Hinv as [He Hp Hf Hst Hs]. split; cbn; intros; done || congruence || auto.
  - destruct (pc c) eqn:Epc; try done. destruct (timer_fired c); [|done]. intros [= <-].
    unfold on_timer; cbn. case_decide; select_case c.
  - destruct (pc c) eqn:Epc; try done. destruct (webgetCh c) as [[|b]|] eqn:Ew; try done. intros [= <-].
    unfold on_webcheck. destruct b, (lastSent c) eqn:El; select_case c.
  - destruct (timer_armed c); [|done]. intros [= <-]. by destruct Hinv; split.
  - destruct (webgetCh c) as [[|]|] eqn:Ew; try done. intros [= <-]. destruct Hinv as [He Hp Hf Hst Hs].
    split; cbn; [done..| |done|].
    + intros Hr Hpc Hpc'. destruct (Hf Hr Hpc Hpc') as [Hf1 Hf2]. split; [|done]. intros _. apply Hf1. by rewrite Ew.
    + intros Hr. specialize (Hs Hr). congruence.
  - intros [= <-]. unfold Cancel. destruct (canceled c); [done|]. by destruct Hinv; split.
Qed.
End ConnectivitySpec.

Module ConnectivityProps.
Import NetworkManager Connectivity ConnectivitySpec.

Lemma steps_conn_inv ls c c' : inv c → steps ls c = Some c' → inv c'.
Proof.
  revert c. induction ls as [|l ls IH]; cbn; intros c Hc; [by intros [= <-]|].
  destruct (step l c) as [c1|] eqn:E; [|done]. cbn. apply IH. by eapply step_conn_inv.
Qed.

Definition working (s : State) : attempt := {| at_dialed := 1; at_watch := true; at_state := s; at_con := true |}.

(** Online, then offline. *)
Definition example_labels : list label :=
  [LSend [working ConnectedGlobal]; ETimer; LTimer; EWebcheck true; LWebcheck; LSend [];
   LState (Some Disconnected); LSend []].

(** C26: Connectivity is edge triggered. Whatever NetworkManager, the timer and
    the web checks do, the values sent in a run of [Track] start with a
    "disconnected" and then alternate; and in the run before any restart
    "connected" is only sent while NetworkManager's state is ConnectedGlobal. *)
Theorem connectivity_edges ls c :
  steps ls New = Some c →
  edges false (out c) ∧
  (∀ v, pc c = TSend v → v = negb (last_value (out c))) ∧
  ((runs (out c) ≤ 1)%nat → pc c = TSend true → currentState c = ConnectedGlobal).
Proof.
  intros H. pose proof (steps_conn_inv ls New c inv_New H) as [He Hp Hf _ _].
  split_and!; [done| |].
  - intros v Hv. rewrite Hv in Hp. by destruct Hp.
  - intros Hr Hpc. by apply (Hf Hr); rewrite Hpc.
Qed.

Lemma connectivity_edges_witness :
  ∃ c, steps example_labels New = Some c ∧ out c = [Initial; Sent true; Sent false] ∧ edges false (out c).
Proof.
  eexists. split; [vm_compute; reflexivity|]. split; [reflexivity|].
  eapply (connectivity_edges example_labels). vm_compute. reflexivity.
Defined.

(** A web check can outlive its run. When the watch fails while a check
    is under way, [Track] starts over without forgetting the check's channel;
    its positive answer then makes the new run send "connected" although
    NetworkManager says it is disconnected. *)
Theorem connectivity_stale_check :
  ∃ c, steps [LSend [working ConnectedGlobal]; ETimer; LTimer; LState None; LSend [working Disconnected];
              EWebcheck true; LWebcheck; LSend []] New = Some c ∧
    out c = [Initial; Initial; Sent true] ∧ currentState c = Disconnected.
Proof. eexists. split; [vm_compute; reflexivity|]. by split. Qed.
End ConnectivityProps.
