(* ===== verification/Poller.v ===== *)
(** The poller: [poller/poller.go].

    Two goroutines share nothing but unbuffered channels: [control], which
    owns the wake-up alarm, and [run], which takes [step] after [step] and
    owns the wakelock. A rendezvous on a channel is one step of the machine;
    the program counters say what each goroutine is waiting for. powerd and
    polld answer through the labels. *)

From S2P Require Import Prelude.

Module Poller.
Local Open Scope Z_scope.

Definition Second : Z := 1000000000.

Record Times := {
  AlarmInterval : Z;
  SessionStateSettle : Z;
  NetworkWait : Z;
  PolldWait : Z;
  DoneWait : Z;
  BusyWait : Z;
}.

Inductive poller_err := ErrUnconfigured | ErrAlreadyStarted | ErrNotStarted | ErrPowerd (e : string).

(** What [control] waits for: a case of its select, the reply to a wake-up
    request, the send on [filteredWakeUpCh] (and whether the check of
    [dontPoll] is still to come). *)
Inductive control_pc := CSelect | CReply (err : option poller_err) | CFilter (check : bool).

(** What [run] waits for, with the lock cookie of the step. *)
Inductive run_pc :=
| RRequest (lockCookie : string)       (** send on [requestWakeupCh] *)
| RReply (lockCookie : string)         (** receive from [requestedWakeupErrCh] *)
| RSleepErr (lockCookie : string)      (** the sleep after an error *)
| RRelease (lockCookie : string)       (** send of [false] on [holdsWakeLockCh] *)
| RWaitWakeup                          (** receive from [wakeupCh] *)
| RHold (lockCookie : string)          (** send of [true] on [holdsWakeLockCh] *)
| RPoll (lockCookie : string)          (** connection checks and polld *)
| RCrash.

Record poller := P {
  t : option Z;             (** the wake-up requested; [None] is the zero time *)
  cookie : string;
  connected : bool;
  dontPoll : bool;
  holdsWakeLock : bool;
  cpc : control_pc;
  rpc : run_pc;
  wakelocks : list string;  (** the locks powerd has given and not taken back *)
}.

(** [Run] starts both goroutines. *)
Definition Run : poller := P None "" true false false CSelect (RRequest "") [].

Section poller.
Context (times : Times).

(** powerd's answer to [RequestWakeup] at time [now]. *)
Record wakeup_answer := { w_now : Z; w_result : string + string }.

Definition Truncate (x : Z) : Z := x - x `mod` Second.

Definition doRequestWakeup (delta : Z) (a : wakeup_answer) : option Z * string * option poller_err :=
  match w_result a with
  | inl cookie => (Some (Truncate (w_now a + delta)), cookie, None)
  | inr e => (None, "", Some (ErrPowerd e))
  end.

(** The end of [control]'s loop body. [cleared] is [ClearWakeup]'s success. *)
Definition control_tail (cleared : bool) (a : wakeup_answer) (p : poller) : poller :=
  let newDontPoll := negb (connected p) in
  if Bool.eqb newDontPoll (dontPoll p)
  then P (t p) (cookie p) (connected p) (dontPoll p) (holdsWakeLock p) CSelect (rpc p) (wakelocks p)
  else if newDontPoll then
    let t' := match t p with Some x => if cleared then None else Some x | None => None end in
    P t' (cookie p) (connected p) true (holdsWakeLock p) CSelect (rpc p) (wakelocks p)
  else
    match t p with
    | None =>
        if holdsWakeLock p
        then P None (cookie p) (connected p) false (holdsWakeLock p) CSelect (rpc p) (wakelocks p)
        else
          let '(t', cookie', err) := doRequestWakeup (NetworkWait times `quot` 20) a in
          P t' cookie' (connected p) false (holdsWakeLock p)
            (match err with Some _ => CFilter false | None => CSelect end) (rpc p) (wakelocks p)
    | Some _ => P (t p) (cookie p) (connected p) false (holdsWakeLock p) CSelect (rpc p) (wakelocks p)
    end.

Definition set_rpc r p := P (t p) (cookie p) (connected p) (dontPoll p) (holdsWakeLock p) (cpc p) r (wakelocks p).
Definition set_cpc c p := P (t p) (cookie p) (connected p) (dontPoll p) (holdsWakeLock p) c (rpc p) (wakelocks p).
Definition set_connected b p := P (t p) (cookie p) b (dontPoll p) (holdsWakeLock p) (cpc p) (rpc p) (wakelocks p).
Definition set_holds b p := P (t p) (cookie p) (connected p) (dontPoll p) b (cpc p) (rpc p) (wakelocks p).
Definition set_t t' c p := P t' c (connected p) (dontPoll p) (holdsWakeLock p) (cpc p) (rpc p) (wakelocks p).
Definition set_wakelocks l p := P (t p) (cookie p) (connected p) (dontPoll p) (holdsWakeLock p) (cpc p) (rpc p) l.

(** The case of a wake-up request. *)
Definition on_request (a : wakeup_answer) (p : poller) : poller :=
  if bool_decide (is_Some (t p)) || dontPoll p then set_cpc (CReply None) p
  else
    let '(t', cookie', err) := doRequestWakeup (AlarmInterval times) a in
    set_cpc (CReply err) (set_t t' cookie' p).

(** The case of a wake-up: only the one asked for passes. *)
Definition on_wakeup (now : Z) (a : wakeup_answer) (p : poller) : poller :=
  match t p with
  | Some x => if decide (now < x) then control_tail true a p else set_cpc (CFilter true) (set_t None (cookie p) p)
  | None => control_tail true a p
  end.

Definition remove_lock (c : string) (l : list string) : list string := filter (λ x, x ≠ c) l.

(** What [step] does after the lock flag is down; [released] is
    [ClearWakelock]'s success. *)
Definition release (released : bool) (lockCookie : string) (p : poller) : poller :=
  let p := if decide (lockCookie = "") then p
           else if released then set_wakelocks (remove_lock lockCookie (wakelocks p)) p else p in
  set_rpc RWaitWakeup p.

(** What it does with a wake-up; [lock] is [RequestWakelock]'s cookie, or its
    error. *)
Definition woken (lock : string + string) (p : poller) : poller :=
  match lock with
  | inl c => set_rpc (RHold c) (set_wakelocks (wakelocks p ++ [c]) p)
  | inr _ => set_rpc (RRequest "") p
  end.

(** The end of [step]: up to 20 looks at the connection, then polld. [looks]
    are the answers of [IsConnected], [poll_ok] that of [Poll], [done] what
    comes before the timeout. [None] is the panic. *)
Fixpoint wait_connected (n : nat) (looks : list bool) : bool * list bool :=
  match n with
  | O => (false, looks)
  | S n => match looks with
           | true :: looks => (true, looks)
           | _ :: looks => wait_connected n looks
           | [] => (false, [])
           end
  end.

Definition poll (looks : list bool) (poll_ok : bool) (done : option bool) : option unit :=
  let '(_, looks) := wait_connected 20 looks in
  if negb (default false (head looks)) then Some ()
  else if negb poll_ok then Some ()
  else match done with Some false => None | _ => Some () end.

Inductive label :=
| LRequest (a : wakeup_answer)
| LReply (a : wakeup_answer)
| LHolds (released : bool) (a : wakeup_answer)
| LWakeup (now : Z) (a : wakeup_answer)
| LConn (state cleared : bool) (a : wakeup_answer)   (** [HasConnectivity] *)
| LFilter (lock : string + string) (a : wakeup_answer)
| LSlept
| LPolled (looks : list bool) (poll_ok : bool) (done : option bool).

Definition step (l : label) (p : poller) : option poller :=
  match l, cpc p, rpc p with
  | LRequest a, CSelect, RRequest c => Some (on_request a (set_rpc (RReply c) p))
  | LReply a, CReply err, RReply c =>
      Some (control_tail true a (set_rpc (match err with Some _ => RSleepErr c | None => RRelease c end) p))
  | LHolds released a, CSelect, RRelease c =>
      Some (control_tail true a (set_holds false (release released c p)))
  | LHolds _ a, CSelect, RHold c => Some (control_tail true a (set_holds true (set_rpc (RPoll c) p)))
  | LWakeup now a, CSelect, _ => Some (on_wakeup now a p)
  | LConn state cleared a, CSelect, _ => Some (control_tail cleared a (set_connected state p))
  | LFilter lock a, CFilter check, RWaitWakeup =>
      let p := woken lock p in
      Some (if check then control_tail true a p else set_cpc CSelect p)
  | LSlept, _, RSleepErr c => Some (set_rpc (RRequest c) p)
  | LPolled looks ok done, _, RPoll c =>
      Some (set_rpc (match poll looks ok done with Some _ => RRequest c | None => RCrash end) p)
  | _, _, _ => None
  end.

Fixpoint steps (ls : list label) (p : poller) : option poller :=
  match ls with [] => Some p | l :: ls => p ← step l p; steps ls p end.
End poller.
End Poller.

Module PollerProps.
Import Poller.
Local Open Scope Z_scope.

(** The locks [run] answers for, given what it is at. *)
Definition owned (r : run_pc) : list string :=
  match r with
  | RRequest c | RReply c | RSleepErr c | RRelease c | RHold c | RPoll c =>
      if decide (c = "") then [] else [c]
  | RWaitWakeup | RCrash => []
  end.

(** powerd takes locks back, and its cookies are not empty. *)
Definition powerd_ok (l : label) : Prop :=
  match l with
  | LHolds released _ => released = true
  | LFilter (inl c) _ => c ≠ ""
  | _ => True
  end.

Definition lock_inv (p : poller) : Prop := rpc p = RCrash ∨ wakelocks p = owned (rpc p).

Lemma control_tail_rest times cleared a p :
  rpc (control_tail times cleared a p) = rpc p ∧ wakelocks (control_tail times cleared a p) = wakelocks p.
Proof.
  unfold control_tail, doRequestWakeup.
  repeat (case_match; simplify_eq/=); done.
Qed.

Lemma step_lock_inv times l p p' : lock_inv p → powerd_ok l → step times l p = Some p' → lock_inv p'.
Proof.
  unfold lock_inv. intros Hi Hok Hs.
  destruct l as [a|a|rel a|now a|st cl a|lock a| |looks ok dn]; cbn in Hs.
  - destruct (cpc p), (rpc p) as [c| | | | | | |] eqn:Er; try done. injection Hs as <-.
    unfold on_request, doRequestWakeup. cbn.
    destruct (bool_decide _ || _); [|destruct (w_result a)]; cbn;
      (destruct Hi as [?|Hi]; [done|by right]).
  - destruct (cpc p) as [|err|], (rpc p) as [|c| | | | | |] eqn:Er; try done. injection Hs as <-.
    destruct (control_tail_rest times true a (set_rpc (match err with Some _ => RSleepErr c | None => RRelease c end) p)) as [-> ->].
    destruct Hi as [?|Hi]; [done|right]. cbn. rewrite Hi. by destruct err.
  - cbn in Hok. subst rel. destruct (cpc p), (rpc p) as [| | |c| |c| |] eqn:Er; try done; injection Hs as <-.
    + match goal with |- context [control_tail times true a ?q] =>
        destruct (control_tail_rest times true a q) as [-> ->] end.
      destruct Hi as [?|Hi]; [done|right]. unfold release. cbn in Hi. case_decide; cbn; [done|].
      rewrite Hi. unfold remove_lock. rewrite filter_cons, decide_False by tauto. done.
    + match goal with |- context [control_tail times true a ?q] =>
        destruct (control_tail_rest times true a q) as [-> ->] end.
      destruct Hi as [?|Hi]; [done|by right].
  - destruct (cpc p); try done. injection Hs as <-. unfold on_wakeup.
    destruct (t p); [case_decide|]; try done;
      destruct (control_tail_rest times true a p) as [-> ->]; done.
  - destruct (cpc p); try done. injection Hs as <-.
    match goal with |- context [control_tail times cl a ?q] =>
      destruct (control_tail_rest times cl a q) as [-> ->] end. done.
  - destruct (cpc p) as [| |check], (rpc p) eqn:Er; try done. injection Hs as <-.
    assert (wakelocks (woken lock p) = owned (rpc (woken lock p))) as Hw.
    { destruct Hi as [?|Hi]; [done|]. destruct lock as [c|e]; cbn; rewrite Hi; [|done].
      cbn in *. by rewrite decide_False. }
    destruct check; [|by right].
    destruct (control_tail_rest times true a (woken lock p)) as [-> ->]. by right.
  - destruct (rpc p) eqn:Er; try done. injection Hs as <-. destruct Hi as [?|Hi]; [done|by right].
  - destruct (rpc p) eqn:Er; try done. injection Hs as <-.
    destruct (poll looks ok dn); [|by left]. destruct Hi as [?|Hi]; [done|by right].
Qed.

(** C27: The wakelock is not kept through the sleep. When powerd takes locks
    back, in every state the poller can reach at most one wakelock is held,
    by the step that is at work, and none while it waits for a wake-up. *)
Theorem poller_wakelock times ls p :
  Forall powerd_ok ls → steps times ls Run = Some p → rpc p ≠ RCrash →
  wakelocks p = owned (rpc p) ∧ (rpc p = RWaitWakeup → wakelocks p = []) ∧ (length (wakelocks p) <= 1)%nat.
Proof.
  intros Hok Hs Hc. assert (lock_inv p) as Hi.
  { assert (lock_inv Run) as H by (by right). revert H Hs. generalize Run as q.
    induction Hok as [|l ls Hl _ IH]; cbn; intros q Hq; [by intros [= <-]|].
    destruct (step times l q) as [q'|] eqn:E; [|done]. cbn. apply IH. by eapply step_lock_inv. }
  destruct Hi as [?|Hi]; [done|]. split_and!; [done| |].
  - intros Hr. by rewrite Hi, Hr.
  - rewrite Hi. unfold owned. repeat case_match; cbn; lia.
Qed.

Definition ok_at (now : Z) : wakeup_answer := {| w_now := now; w_result := inl "alarm" |}.
Definition failing : wakeup_answer := {| w_now := 0; w_result := inr "no powerd" |}.

Lemma Truncate_le x : Truncate x <= x.
Proof. unfold Truncate. pose proof (Z.mod_pos_bound x Second ltac:(done)). lia. Qed.

Definition cycle_labels (times : Times) : list label :=
  [LRequest (ok_at 0); LReply (ok_at 0); LHolds true (ok_at 0); LWakeup (AlarmInterval times) (ok_at 0);
   LFilter (inl "lock") (ok_at 0); LHolds true (ok_at 0)].

Lemma cycle_steps times ls :
  steps times (cycle_labels times ++ ls) Run
  = steps times ls (P None "alarm" true false true CSelect (RPoll "lock") ["lock"]).
Proof.
  unfold cycle_labels. cbn. unfold on_request, on_wakeup, control_tail; cbn.
  rewrite (decide_True (P := "" = "")) by done. cbn.
  rewrite decide_False by (pose proof (Truncate_le (0 + AlarmInterval times)); lia).
  done.
Qed.

(** The poller can hang. (1) Its goroutines can deadlock: when powerd
    refuses a wake-up, [step] sleeps; if connectivity comes back meanwhile and
    powerd refuses again, [control] waits to hand over a wake-up that only
    [step] can take, while [step], awake, waits to request one: no step of
    either goroutine, no wake-up and no [HasConnectivity] call can ever
    proceed. (2) Polling can stall: when connectivity comes back between a
    request that was skipped and the release of the wakelock, no wake-up is
    requested; connected and waiting for a wake-up, the poller does nothing,
    whatever happens, until connectivity changes. *)
Theorem poller_hangs times :
  (∃ ls p, steps times ls Run = Some p ∧ ∀ l, step times l p = None) ∧
  (∃ ls p, steps times ls Run = Some p ∧ connected p = true ∧ t p = None ∧
     cpc p = CSelect ∧ rpc p = RWaitWakeup ∧
     ∀ l p', step times l p = Some p' → p' = p ∨ ∃ state cleared a, l = LConn state cleared a).
Proof.
  split.
  - exists [LRequest failing; LReply failing; LConn false true failing; LConn true true failing; LSlept].
    eexists. split; [reflexivity|]. by intros [].
  - exists (cycle_labels times ++ [LConn false true failing; LPolled [] true None; LRequest failing;
      LReply failing; LConn true true failing; LHolds true failing]).
    rewrite cycle_steps. eexists. split; [reflexivity|]. split_and!; [done..|].
    intros [a|a|rel a|now a|st cl a|lock a| |looks ok dn] p'; cbn; try done; [|by eauto].
    intros [= <-]. by left.
Qed.

Lemma poller_wakelock_witness :
  let times := {| AlarmInterval := 5 * Second; SessionStateSettle := 0; NetworkWait := 20;
                  PolldWait := 0; DoneWait := 0; BusyWait := 0 |} in
  ∃ p, steps times (cycle_labels times) Run = Some p ∧ rpc p = RPoll "lock" ∧
  wakelocks p = owned (rpc p) ∧ (length (wakelocks p) <= 1)%nat.
Proof.
  intros times. eexists. split; [vm_compute; reflexivity|]. split; [reflexivity|].
  destruct (poller_wakelock times (cycle_labels times) (P None "alarm" true false true CSelect (RPoll "lock") ["lock"]))
    as (? & _ & ?); [by repeat constructor|by vm_compute|done|done].
Defined.
End PollerProps.
