(* ===== verification/Postal.v ===== *)
(** The daemon's D-Bus services: [client/service/common.go],
    [client/service/postal.go] and [client/service/service.go].

    Method calls are state transformers over the mail boxes; what the postal
    service makes others do (run a helper, present, signal, dispatch a URL) is
    logged in order. The click database, the user's settings, the screen, the
    presenters and the registration server are parameters. *)

From S2P Require Import Prelude Click Nih HelperPool Mbox.
Import Click Nih Mbox MboxSpec.

Module Service.
#[local] Notation HelperOutput := HelperOutput.HelperOutput.
#[local] Notation Notification := HelperOutput.Notification.

(** A D-Bus argument. *)
Inductive dval := DStr (s : string) | DInt32 (n : Z) | DBool (b : bool) | DOther.

Inductive ServiceState := StateUnknown | StateRunning | StateFinished.
#[export] Instance ServiceState_eq_dec : EqDecision ServiceState.
Proof. solve_decision. Defined.

Inductive svc_err :=
| ErrNotConfigured | ErrAlreadyStarted | ErrBadArgCount | ErrBadArgType | ErrBadJSON | ErrAppIdMismatch
| ErrBadServer | ErrBadRequest | ErrBadToken | ErrBadAuth
| ErrApp (e : app_err)
| ErrLib (e : string).

Definition IsRunning (s : ServiceState) : bool := bool_decide (s = StateRunning).

(** [DBusService.Start]: [configured] is that there is a log and a bus, [dial]
    and [init] the errors of the two. *)
Definition Start (configured : bool) (dial init : option svc_err) (s : ServiceState)
    : ServiceState * option svc_err :=
  if decide (s ≠ StateUnknown) then (s, Some ErrAlreadyStarted)
  else if negb configured then (s, Some ErrNotConfigured)
  else match dial with
       | Some e => (s, Some e)
       | None => match init with Some e => (s, Some e) | None => (StateRunning, None) end
       end.

Definition Stop (s : ServiceState) : ServiceState := StateFinished.

(** [path[strings.LastIndex(path, "/")+1:]] *)
Fixpoint after_last (c : ascii) (s : string) : string :=
  match s with
  | EmptyString => EmptyString
  | String a s' =>
      if in_string c s' then after_last c s' else if decide (a = c) then s' else s
  end.

Lemma after_last_app c a b : in_string c b = false → after_last c (a +:+ String c b) = b.
Proof.
  intros Hb. induction a as [|x a IH]; cbn.
  - rewrite str_app_nil. cbn. by rewrite Hb, decide_True.
  - rewrite str_app_cons. cbn. rewrite in_string_app. cbn. rewrite bool_decide_true by done.
    by rewrite orb_true_r.
Qed.

Section dbus.
Context (CGetVersion : string → string) (desktop_file_found : string → bool).

Definition grabDBusPackageAndAppId (path : string) (args : list dval) (numExtra : nat)
    : outcome svc_err AppId :=
  if decide (length args ≠ 1 + numExtra) then Err ErrBadArgCount
  else match args with
       | DStr id :: _ =>
           let pkgname := Unquote (after_last "/" path) in
           match ParseAndVerifyAppId CGetVersion desktop_file_found id true with
           | Err e | Ok (_, Some e) => Err (ErrApp e)
           | Panic => Panic
           | Ok (app, None) => if InPackage pkgname app then Ok app else Err ErrAppIdMismatch
           end
       | _ => Err ErrBadArgType
       end.

(** ** The postal service *)

(** What the service makes others do. *)
Inductive pev :=
| EvSignal (path : string) (appId : string)
| EvPresent (presenter : nat) (app : AppId) (nid : string) (n : Notification)
| EvEmblem (app : AppId) (nid : string) (n : Notification)
| EvCounter (app : AppId) (count : Z) (visible : bool)
| EvRun (kind : string) (input : HelperPool.HelperInput)
| EvDispatch (url : string) (app : AppId)
| EvRemove (nid : string) (fromUI : bool).

Record PostalService := {
  mbox : option (gmap string mBox);   (** nil until the first result *)
  events : list pev;
}.

Definition emit (e : pev) (svc : PostalService) : PostalService :=
  {| mbox := mbox svc; events := events svc ++ [e] |}.
Definition set_mbox (m : gmap string mBox) (svc : PostalService) : PostalService :=
  {| mbox := Some m; events := events svc |}.

(** The settings and the screen at the time, and what the presenters (the
    notifications, the emblem counter, haptic, the messaging menu) answer. *)
Record desktop := {
  TestURL : AppId → list string → bool;
  IsActive : bool;                       (** the greeter *)
  IsAppFocused : AppId → bool;
  AreNotificationsEnabled : AppId → bool;
  Presenters : list (AppId → string → Notification → bool);
  emblemCounter : AppId → string → Notification → bool;
}.
Context (desk : desktop).

Definition validateActions (app : AppId) (notif : Notification) : bool :=
  match HelperOutput.n_Card notif with
  | None => true
  | Some card => match HelperOutput.Actions card with [] => true | _ => TestURL desk app (HelperOutput.Actions card) end
  end.

(** The loop over the presenters does not stop at the first that presents. *)
Fixpoint present_all (k : nat) (ps : list (AppId → string → Notification → bool)) (b : bool)
    (app : AppId) (nid : string) (n : Notification) (svc : PostalService)
    : bool * PostalService :=
  match ps with
  | [] => (b, svc)
  | p :: ps => present_all (S k) ps (p app nid n || b) app nid n (emit (EvPresent k app nid n) svc)
  end.

Definition messageHandler (app : AppId) (nid : string) (output : HelperOutput) (svc : PostalService)
    : bool * PostalService :=
  match HelperOutput.Notification_ output with
  | None => (false, svc)
  | Some n =>
      if negb (validateActions app n) then (false, svc)
      else if negb (IsActive desk) && IsAppFocused desk app then (false, svc)
      else if negb (AreNotificationsEnabled desk app)
      then (emblemCounter desk app nid n, emit (EvEmblem app nid n) svc)
      else present_all 0 (Presenters desk) false app nid n svc
  end.

Context (grow : nat → nat).

(** A helper's result, for the application [app] of its input. *)
Definition handleHelperResult (app : AppId) (nid : string) (output : HelperOutput) (svc : PostalService)
    : PostalService :=
  let m := default ∅ (mbox svc) in
  let appId := Original app in
  let box := default empty_mBox (m !! appId) in
  let svc := set_mbox (<[appId := Append grow (HelperOutput.Message output) nid box]> m) svc in
  let '(_, svc) := messageHandler app nid output svc in
  emit (EvSignal ("/" +:+ Quote (Package app)) appId) svc.

Definition popAll (path : string) (args : list dval) (svc : PostalService)
    : PostalService * outcome svc_err (list string) :=
  match grabDBusPackageAndAppId path args 0 with
  | Err e => (svc, Err e)
  | Panic => (svc, Panic)
  | Ok app =>
      match mbox svc with
      | None => (svc, Ok [])
      | Some m =>
          match m !! Original app with
          | None => (svc, Ok [])
          | Some box =>
              match AllMessages box with
              | Some msgs => (set_mbox (delete (Original app) m) svc, Ok msgs)
              | None => (svc, Panic)
              end
          end
      end
  end.

(** [newNid] is the next fresh id. *)
Definition Post (app : AppId) (nid newNid : string) (payload : string) (svc : PostalService) : PostalService :=
  let nid := if decide (nid = "") then newNid else nid in
  let k := if Click app then "click" else "legacy" in
  emit (EvRun k {| HelperPool.kind := ""; HelperPool.App := Original app; HelperPool.Package := Package app;
                   HelperPool.NotificationId := nid; HelperPool.Payload := payload |}) svc.

Definition post (valid_json : string → bool) (newNid path : string) (args : list dval) (svc : PostalService)
    : PostalService * outcome svc_err unit :=
  match grabDBusPackageAndAppId path args 1 with
  | Err e => (svc, Err e)
  | Panic => (svc, Panic)
  | Ok app =>
      match args !! 1 with
      | Some (DStr notif) =>
          if valid_json notif then (Post app "" newNid notif svc, Ok ()) else (svc, Err ErrBadJSON)
      | _ => (svc, Err ErrBadArgType)
      end
  end.

Definition setCounter (path : string) (args : list dval) (svc : PostalService)
    : PostalService * outcome svc_err unit :=
  match grabDBusPackageAndAppId path args 2 with
  | Err e => (svc, Err e)
  | Panic => (svc, Panic)
  | Ok app =>
      match args !! 1, args !! 2 with
      | Some (DInt32 count), Some (DBool visible) => (emit (EvCounter app count visible) svc, Ok ())
      | _, _ => (svc, Err ErrBadArgType)
      end
  end.

(** The messaging menu's tags and its [Clear]. *)
Definition listPersistent (Tags : AppId → list string) (path : string) (args : list dval)
    : outcome svc_err (list string) :=
  app ← grabDBusPackageAndAppId path args 0; mret (Tags app).

Fixpoint string_args (args : list dval) : option (list string) :=
  match args with
  | [] => Some []
  | DStr s :: args => ss ← string_args args; Some (s :: ss)
  | _ :: _ => None
  end.

Definition clearPersistent (Clear : AppId → list string → Z) (path : string) (args : list dval)
    : outcome svc_err Z :=
  match args with
  | [] => Err ErrBadArgCount
  | a :: rest =>
      app ← grabDBusPackageAndAppId path [a] 0;
      match string_args rest with
      | None => Err ErrBadArgType
      | Some tags => mret (u32 (Clear app tags))
      end
  end.

(** One round of [handleActions]: an action from a notification, or from the
    messaging menu ([fromUI] says which); [None] is a nil action. *)
Definition handle_action (fromUI : bool) (action : option (string * string * AppId)) (svc : PostalService)
    : PostalService :=
  match action with
  | None => svc
  | Some (url, nid, app) => emit (EvDispatch url app) (emit (EvRemove nid fromUI) svc)
  end.
(** The method table of [PostalService.Start]. *)
Inductive reply := RStrings (l : list string) | RUint32 (n : Z) | RNothing.

Definition call (valid_json : string → bool) (Tags : AppId → list string) (Clear : AppId → list string → Z)
    (newNid method path : string) (args : list dval) (svc : PostalService)
    : option (PostalService * outcome svc_err reply) :=
  if decide (method = "PopAll") then
    let '(svc, r) := popAll path args svc in Some (svc, l ← r; mret (RStrings l))
  else if decide (method = "Post") then
    let '(svc, r) := post valid_json newNid path args svc in Some (svc, r;; mret RNothing)
  else if decide (method = "ListPersistent") then
    Some (svc, l ← listPersistent Tags path args; mret (RStrings l))
  else if decide (method = "ClearPersistent") then
    Some (svc, n ← clearPersistent Clear path args; mret (RUint32 n))
  else if decide (method = "SetCounter") then
    let '(svc, r) := setCounter path args svc in Some (svc, r;; mret RNothing)
  else None.
End dbus.

(** ** The push service *)
Record registrationReply := { Token : string; Reg_Ok : bool }.

(** The registration server: [http.Do] fails, or gives a status and a body
    that may fail to be read. *)
Record response := { StatusCode : Z; body : option string }.

Section push.
Context (CGetVersion : string → string) (desktop_file_found : string → bool).
Context (Do : string → string → string + response).   (** operation and application *)
Context (Unmarshal : string → option registrationReply).
Context (Getenv : string → string).

Definition manageReg (op appId : string) : outcome svc_err registrationReply :=
  match Do op appId with
  | inl e => Err (ErrLib ("unable to request registration: " +:+ e))
  | inr resp =>
      if decide (StatusCode resp ≠ 200%Z) then
        if decide (500 ≤ StatusCode resp)%Z then Err ErrBadServer
        else if decide (StatusCode resp = 401%Z) then Err ErrBadAuth
        else Err ErrBadRequest
      else match body resp with
           | None => Err (ErrLib "ReadAll")
           | Some b => match Unmarshal b with
                       | None => Err (ErrLib "unable to unmarshal register response")
                       | Some reply => Ok reply
                       end
           end
  end.

Definition register (path : string) (args : list dval) : outcome svc_err string :=
  app ← grabDBusPackageAndAppId CGetVersion desktop_file_found path args 0;
  let rv := Getenv ("PUSH_REG_" +:+ Quote (Original app)) in
  if decide (rv ≠ "") then mret rv
  else
    reply ← manageReg "/register" (Original app);
    if negb (Reg_Ok reply) || bool_decide (Token reply = "") then Err ErrBadToken
    else mret (Token reply).

Definition Unregister (appId : string) : outcome svc_err unit :=
  manageReg "/unregister" appId;; mret ().

Definition unregister (path : string) (args : list dval) : outcome svc_err unit :=
  app ← grabDBusPackageAndAppId CGetVersion desktop_file_found path args 0;
  Unregister (Original app).
End push.
End Service.

(** What the postal service promises: per application a bounded queue. *)
Module ServiceSpec.
Import Service.

Section spec.
Context (CGetVersion : string → string) (desktop_file_found : string → bool) (desk : desktop) (grow : nat → nat).
Context (valid_json : string → bool) (Tags : AppId → list string) (Clear : AppId → list string → Z).

(** What can happen to the service: a method call (with a fresh id at hand),
    a helper's result, an action. *)
Inductive input :=
| Call (newNid method path : string) (args : list dval)
| Result (app : AppId) (nid : string) (output : HelperOutput.HelperOutput)
| Action (fromUI : bool) (action : option (string * string * AppId)).

(** One input: the new state, and the messages handed out, if it was a
    successful [PopAll]. *)
Definition serve (i : input) (svc : PostalService) : PostalService * option (string * list string) :=
  match i with
  | Call newNid method path args =>
      match call CGetVersion desktop_file_found valid_json Tags Clear newNid method path args svc with
      | Some (svc, Ok (RStrings l)) =>
          (svc, if decide (method = "PopAll")
                then match grabDBusPackageAndAppId CGetVersion desktop_file_found path args 0 with
                     | Ok app => Some (Original app, l)
                     | _ => None
                     end
                else None)
      | Some (svc, _) => (svc, None)
      | None => (svc, None)
      end
  | Result app nid output => (handleHelperResult desk grow app nid output svc, None)
  | Action fromUI a => (handle_action fromUI a svc, None)
  end.

Fixpoint serve_all (ins : list input) (svc : PostalService) : PostalService * list (option (string * list string)) :=
  match ins with
  | [] => (svc, [])
  | i :: ins => let '(svc, r) := serve i svc in let '(svc, rs) := serve_all ins svc in (svc, r :: rs)
  end.

(** The queues. *)
Definition spec_serve (i : input) (Q : string → list string) : (string → list string) * option (string * list string) :=
  match i with
  | Call _ method path args =>
      match grabDBusPackageAndAppId CGetVersion desktop_file_found path args 0 with
      | Ok app =>
          if decide (method = "PopAll")
          then (λ a, if decide (a = Original app) then [] else Q a, Some (Original app, Q (Original app)))
          else (Q, None)
      | _ => (Q, None)
      end
  | Result app _ output =>
      (λ a, if decide (a = Original app) then queue_append (HelperOutput.Message output) (Q a) else Q a, None)
  | Action _ _ => (Q, None)
  end.

Fixpoint spec_serve_all (ins : list input) (Q : string → list string)
    : (string → list string) * list (option (string * list string)) :=
  match ins with
  | [] => (Q, [])
  | i :: ins => let '(Q, r) := spec_serve i Q in let '(Q, rs) := spec_serve_all ins Q in (Q, r :: rs)
  end.

(** The boxes hold the queues; an application without a box has an empty
    queue. *)
Definition boxes (svc : PostalService) : gmap string mBox := default ∅ (mbox svc).
Definition refines (svc : PostalService) (Q : string → list string) : Prop :=
  ∀ a, match boxes svc !! a with Some b => repr b (Q a) | None => Q a = [] end.

Lemma refines_boxes svc svc' Q : boxes svc' = boxes svc → refines svc Q → refines svc' Q.
Proof. unfold refines. by intros ->. Qed.

Lemma present_all_boxes k ps b app nid n svc : mbox (present_all k ps b app nid n svc).2 = mbox svc.
Proof. revert k b svc. induction ps as [|p ps IH]; intros k b svc; cbn; [done|]. by rewrite IH. Qed.

Lemma messageHandler_mbox app nid output svc : mbox (messageHandler desk app nid output svc).2 = mbox svc.
Proof.
  unfold messageHandler. destruct (HelperOutput.Notification_ output); [|done].
  repeat case_match; try done. apply present_all_boxes.
Qed.

Lemma handleHelperResult_mbox app nid output svc :
  mbox (handleHelperResult desk grow app nid output svc) =
  Some (<[Original app := Append grow (HelperOutput.Message output) nid
                            (default empty_mBox (boxes svc !! Original app))]> (boxes svc)).
Proof.
  unfold handleHelperResult. set (s1 := set_mbox _ _).
  pose proof (messageHandler_mbox app nid output s1) as H.
  destruct (messageHandler _ _ _ _ _) as [b s2]. cbn in *. by rewrite H.
Qed.

Lemma AllMessages_repr b q : repr b q → AllMessages b = Some q.
Proof.
  intros Hr. pose proof (drop_repr _ _ Hr) as Hd. destruct Hr as [Hm _ _]. unfold AllMessages.
  rewrite decide_True; [by rewrite Hd|]. rewrite Hm, length_app, length_replicate. lia.
Qed.

(** The methods other than [PopAll] leave the boxes alone. *)
Lemma call_boxes newNid method path args svc svc' r :
  call CGetVersion desktop_file_found valid_json Tags Clear newNid method path args svc = Some (svc', r) →
  method ≠ "PopAll" → boxes svc' = boxes svc.
Proof.
  intros Hc Hm. unfold call in Hc. rewrite decide_False in Hc by done.
  repeat case_decide; unfold post, setCounter, Post in Hc; repeat case_match; by simplify_eq.
Qed.

Lemma spec_serve_other newNid method path args Q :
  method ≠ "PopAll" → spec_serve (Call newNid method path args) Q = (Q, None).
Proof. intros Hm. cbn. case_match; [|done..]. by rewrite decide_False by done. Qed.

Lemma serve_refines i svc Q :
  refines svc Q →
  (serve i svc).2 = (spec_serve i Q).2 ∧ refines (serve i svc).1 (spec_serve i Q).1.
Proof.
  intros HR. destruct i as [newNid method path args|app nid output|fromUI a].
  - destruct (decide (method = "PopAll")) as [->|Hm].
    + unfold serve, spec_serve, call. destruct (decide ("PopAll" = "PopAll")) as [_|]; [|done]. unfold popAll.
      destruct (grabDBusPackageAndAppId _ _ path args 0) as [app|e|] eqn:Hg; cbn; [|done..].
      specialize (HR (Original app)) as Ha. unfold boxes in *.
      destruct (mbox svc) as [m|] eqn:Em; cbn in Ha |- *; last first.
      { split; [by rewrite Ha|]. intros a. specialize (HR a). unfold boxes in *. rewrite Em in *. cbn in *.
        case_decide; [done|]. by rewrite lookup_empty in HR. }
      destruct (m !! Original app) as [b|] eqn:Eb.
      * rewrite (AllMessages_repr _ _ Ha). cbn. split; [done|]. intros a. unfold boxes; cbn.
        destruct (decide (a = Original app)) as [->|]; [by rewrite lookup_delete_eq|].
        rewrite lookup_delete_ne by done. specialize (HR a). unfold boxes in HR. by rewrite Em in HR.
      * cbn. split; [by rewrite Ha|]. intros a. specialize (HR a). unfold boxes in *. rewrite Em in *. cbn in *.
        case_decide; [|done]. subst. by rewrite Eb in *.
    + rewrite (spec_serve_other newNid method path args Q Hm). unfold serve.
      destruct (call _ _ _ _ _ _ _ _ _ _) as [[svc' r]|] eqn:Hc; [|done].
      assert (refines svc' Q) as HR' by (eapply refines_boxes; [by eapply call_boxes|done]).
      destruct r as [[]| |]; cbn; (split; [|done]); by rewrite ?decide_False by done.
  - split; [done|]. cbn. intros a. unfold boxes. rewrite handleHelperResult_mbox. cbn.
    specialize (HR a). destruct (decide (a = Original app)) as [->|].
    + rewrite lookup_insert_eq. apply Append_repr. destruct (boxes svc !! Original app); cbn; [done|].
      rewrite HR. by split.
    + by rewrite lookup_insert_ne by done.
  - split; [done|]. eapply refines_boxes, HR. by destruct a as [[[??]?]|].
Qed.
End spec.
End ServiceSpec.

Module ServiceProps.
Import Service ServiceSpec.

(** C25: Every application has a queue of its own on the postal service. From the
    start of the service, for any sequence of method calls, helper results and
    actions, every [PopAll] hands out exactly what the bounded queue of the
    caller's application holds (the messages of that application's results
    since its last [PopAll], the oldest given up when the box is full) and
    empties that queue only; a call that does not name an application of the
    caller's package gets nothing and changes no queue. *)
Theorem postal_mailboxes CGetVersion desktop_file_found desk grow valid_json Tags Clear ins :
  let init := {| mbox := None; events := [] |} in
  (serve_all CGetVersion desktop_file_found desk grow valid_json Tags Clear ins init).2 =
  (spec_serve_all CGetVersion desktop_file_found ins (λ _, [])).2.
Proof.
  cbv zeta. set (Q := λ _ : string, []). set (svc := {| mbox := None; events := [] |}).
  assert (refines svc Q) as HR by done. clearbody Q svc. revert svc Q HR.
  induction ins as [|i ins IH]; intros svc Q HR; cbn; [done|].
  destruct (serve_refines CGetVersion desktop_file_found desk grow valid_json Tags Clear i svc Q HR) as [H1 H2].
  destruct (serve _ _ _ _ _ _ _ i svc) as [svc' r], (spec_serve _ _ i Q) as [Q' r']. cbn in H1, H2. subst r'.
  specialize (IH _ _ H2). destruct (serve_all _ _ _ _ _ _ _ ins svc'), (spec_serve_all _ _ ins Q'). cbn in *.
  by rewrite IH.
Qed.

(** Who may call. On the bus path of a package (the path's last element is
    the package's name, quoted) a call is accepted exactly when it has the
    right number of arguments, the first is a string that parses as the id of
    an installed application, and that application is of that very package;
    the reverse path element computed by the receiver is the name quoted by
    the sender, whatever bytes it has. *)
Theorem dbus_caller CGetVersion desktop_file_found prefix pkg args n app :
  grabDBusPackageAndAppId CGetVersion desktop_file_found (prefix +:+ String "/" (Quote pkg)) args n = Ok app ↔
  length args = S n ∧ Package app = pkg ∧
  ∃ id rest, args = DStr id :: rest ∧ ParseAndVerifyAppId CGetVersion desktop_file_found id true = Ok (app, None).
Proof.
  destruct (nih_roundtrip pkg) as (Hu & Hp & _).
  assert (in_string "/" (Quote pkg) = false) as Hs.
  { clear Hu. induction (Quote pkg) as [|c s IH]; [done|]. cbn in *.
    apply andb_true_iff in Hp as [Hc Hp]. rewrite IH by done. rewrite bool_decide_false; [done|].
    intros ->. by vm_compute in Hc. }
  unfold grabDBusPackageAndAppId. rewrite after_last_app, Hu by done. unfold InPackage. split.
  - intros H. repeat (case_decide || case_match || case_bool_decide); simplify_eq/=. split_and!; [lia|done|eauto].
  - intros (Hl & <- & id & rest & -> & ->). rewrite decide_False by (cbn in *; lia).
    by rewrite bool_decide_true.
Qed.

Lemma present_all_spec ps k b app nid n svc :
  present_all k ps b app nid n svc =
  (existsb (λ p, p app nid n) ps || b,
   {| mbox := mbox svc; events := events svc ++ ((λ j, EvPresent j app nid n) <$> seq k (length ps)) |}).
Proof.
  revert k b svc. induction ps as [|p ps IH]; intros k b svc; cbn.
  { rewrite app_nil_r. by destruct svc. }
  rewrite IH. cbn. rewrite <- app_assoc. f_equal. by destruct (p app nid n), (existsb _ ps).
Qed.

(** What a helper's result makes the service do. The message goes to the
    application's box first; then, if there is a notification whose actions
    the URL dispatcher accepts, and the application is not focused on an
    unlocked screen, every presenter is given it exactly once, in order and
    whatever the others answer, or only the emblem counter when the user
    disabled the application's notifications; last, and in every case, the
    application is signalled on the path of its package. *)
Theorem result_presented desk grow app nid output svc :
  let svc' := handleHelperResult desk grow app nid output svc in
  events svc' = events svc ++
    match HelperOutput.Notification_ output with
    | Some n =>
        if validateActions desk app n && (IsActive desk || negb (IsAppFocused desk app)) then
          if AreNotificationsEnabled desk app
          then (λ j, EvPresent j app nid n) <$> seq 0 (length (Presenters desk))
          else [EvEmblem app nid n]
        else []
    | None => []
    end ++ [EvSignal ("/" +:+ Quote (Package app)) (Original app)] ∧
  (∀ a, a ≠ Original app → boxes svc' !! a = boxes svc !! a) ∧
  (AllMessages <$> boxes svc' !! Original app) =
    Some (AllMessages (Append grow (HelperOutput.Message output) nid
                              (default empty_mBox (boxes svc !! Original app)))).
Proof.
  cbv zeta. split; [|unfold boxes at 1 3; rewrite handleHelperResult_mbox; cbn; split].
  - unfold handleHelperResult, messageHandler. destruct (HelperOutput.Notification_ output) as [n|]; [|done].
    destruct (validateActions desk app n), (IsActive desk), (IsAppFocused desk app), (AreNotificationsEnabled desk app);
      cbn; rewrite ?present_all_spec; cbn; by rewrite <- ?app_assoc.
  - intros a Ha. by rewrite lookup_insert_ne.
  - by rewrite lookup_insert_eq.
Qed.

(** Registering. A client gets a token exactly when the call is accepted and
    either the environment overrides it or the registration server answers 200
    with a body that says ok and has that token, which is never empty; the
    server's refusals become a bad-server, bad-auth or bad-request error by
    the class of the status. *)
Theorem push_register CGetVersion desktop_file_found Do Unmarshal Getenv path args app :
  grabDBusPackageAndAppId CGetVersion desktop_file_found path args 0 = Ok app →
  let reg := register CGetVersion desktop_file_found Do Unmarshal Getenv path args in
  let env := Getenv ("PUSH_REG_" +:+ Quote (Original app)) in
  (∀ tok, reg = Ok tok ↔ tok ≠ "" ∧
     (env = tok ∨ env = "" ∧ ∃ resp b, Do "/register" (Original app) = inr resp ∧ StatusCode resp = 200%Z ∧
        body resp = Some b ∧ Unmarshal b = Some {| Token := tok; Reg_Ok := true |})) ∧
  (env = "" → ∀ resp, Do "/register" (Original app) = inr resp → StatusCode resp ≠ 200%Z →
     reg = Err (if decide (500 <= StatusCode resp)%Z then ErrBadServer
                else if decide (StatusCode resp = 401%Z) then ErrBadAuth else ErrBadRequest)).
Proof.
  intros Hg. cbv zeta. unfold register. rewrite Hg. cbn [mbind outcome_bind]. split.
  - intros tok. case_decide as Henv.
    { split; [intros [= <-]; auto|]. by intros (_ & [->|[? _]]). }
    rewrite Henv. unfold manageReg. split.
    + intros H. repeat (case_decide || case_match); try done. cbn in H.
      destruct (Reg_Ok _) eqn:Hok; [|done]. cbn in H. case_bool_decide; [done|]. injection H as <-.
      split; [done|]. right. split; [done|]. eexists _, _. split_and!; [by eauto..|].
      match goal with H : Unmarshal _ = Some ?r |- _ => destruct r; cbn in *; congruence end.
    + intros [Ht [<-|(_ & resp & b & -> & Hs & -> & ->)]]; [done|]. rewrite decide_False by (by intros []).
      cbn. by rewrite bool_decide_false.
  - intros -> resp Hd Hs. rewrite decide_False by (by intros []). unfold manageReg. rewrite Hd.
    rewrite decide_True by done. by repeat case_decide.
Qed.

Lemma push_register_witness :
  register (λ p, if decide (p = "com.example") then "1.0" else "") (λ _, false)
    (λ op a, inr {| StatusCode := 200%Z; body := Some (op +:+ " " +:+ a) |})
    (λ b, Some {| Token := b; Reg_Ok := true |}) (λ _, "")
    ("/com/ubuntu/PushNotifications/" +:+ Quote "com.example") [DStr "com.example_app"]
  = Ok "/register com.example_app".
Proof.
  apply (push_register (λ p, if decide (p = "com.example") then "1.0" else "") (λ _, false)
    (λ op a, inr {| StatusCode := 200%Z; body := Some (op +:+ " " +:+ a) |})
    (λ b, Some {| Token := b; Reg_Ok := true |}) (λ _, "")
    ("/com/ubuntu/PushNotifications/" +:+ Quote "com.example") [DStr "com.example_app"]
    {| Package := "com.example"; Application := "app"; Version := "1.0"; Click := true;
       original := "com.example_app" |} ltac:(by vm_compute)).
  split; [done|]. right. split; [done|]. eexists _, _. split_and!; reflexivity.
Defined.
End ServiceProps.
