(* ===== verification/PushClient.v ===== *)
(** The client daemon: [client/client.go], with the machine identifier
    ([identifier/identifier.go]) and the system image information
    ([bus/systemimage/systemimage.go]) it starts from.

    [PushClient] is the daemon's state; the addressee checks are its instance
    of the interface the client session asks through. [Start] is the sequence
    of starters, against a record of what the host answers. [Loop] runs beside
    the session's goroutine: [Daemon] interleaves the two over the channels
    between them. *)

From S2P Require Import Prelude Base64 Protocol Store Click SeenState ClientSession HelperPool Postal Poller.
Import Msg Click.

Module SystemImage.
Local Open Scope Z_scope.

Record InfoResult := {
  BuildNumber : Z;
  Device : string;
  Channel : string;
  LastUpdate : string;
  VersionDetail : gmap string string;
  Raw : gmap string string;
}.

(** [strconv.ParseInt(s, 10, 32)] *)
Fixpoint digits_value (acc : Z) (s : string) : option Z :=
  match s with
  | EmptyString => Some acc
  | String c s => if digit c then digits_value (10 * acc + (Z.of_nat (nat_of_ascii c) - 48)) s else None
  end.

Definition ParseInt32 (s : string) : option Z :=
  let '(sign, s) := match s with
                    | String "-" s => (-1, s)
                    | String "+" s => (1, s)
                    | _ => (1, s)
                    end in
  if decide (s = "") then None
  else v ← digits_value 0 s; if decide (- 2 ^ 31 <= sign * v < 2 ^ 31) then Some (sign * v) else None.

Definition field (m : gmap string string) (k : string) : string := default "" (m !! k).

Definition version_detail (s : string) : gmap string string :=
  foldl (λ vd val, match split_on "=" val with [k; v] => <[k := v]> vd | _ => vd end) ∅ (split_on "," s).

(** What the service answered, an error or its table. *)
Definition Information (answer : string + gmap string string) : string + InfoResult :=
  match answer with
  | inl e => inl e
  | inr m =>
      let bn := field m "current_build_number" in
      inr {| BuildNumber := if decide (0 < len bn) then default (-1) (ParseInt32 bn) else 0;
             Device := field m "device_name"; Channel := field m "channel_name";
             LastUpdate := field m "last_update_date";
             VersionDetail := version_detail (field m "version_detail"); Raw := m |}
  end.
End SystemImage.

Module Identifier.

(** The file's content without its last byte; an empty file panics. *)
Definition readMachineId (file : string + string) : outcome string string :=
  match file with
  | inl e => Err e
  | inr value =>
      if decide (value = "") then Panic else Ok (String.substring 0 (String.length value - 1) value)
  end.

Definition New (file : string + string) : outcome string string :=
  match readMachineId file with
  | Err e => Err ("failed to read the machine id: " +:+ e)
  | o => o
  end.
End Identifier.

Module PushClient.
Import SystemImage.

Definition SI_NO_SERVICE_ERROR : string :=
  "org.freedesktop.DBus.Error.ServiceUnknown: The name com.canonical.SystemImage was not provided by any .service files".

Record ClientConfig := {
  StabilizingTimeout : Z;
  RecheckTimeout : Z;
  ConnectivityCheckURL : string;
  ConnectivityCheckMD5 : string;
  ExchangeTimeout : Z;
  ConnectTimeout : Z;
  Addr : string;
  HostsCachingExpiryTime : Z;
  ExpectAllRepairedTime : Z;
  CertPEMFile : string;
  SessionURL : string;
  RegistrationURL : string;
  LogLevel : string;
  FallbackVibration : option HelperOutput.Vibration;
  FallbackSound : string;
  PollInterval : Z;
  PollSettle : Z;
  PollNetworkWait : Z;
  PollPolldWait : Z;
  PollDoneWait : Z;
  PollBusyWait : Z;
}.

Record PushServiceSetup := { RegURL : string; ps_DeviceId : string }.
Record ClientSessionConfig := {
  cs_Addr : string;
  cs_ConnectTimeout : Z;
  cs_ExchangeTimeout : Z;
  cs_HostsCachingExpiryTime : Z;
  cs_ExpectAllRepairedTime : Z;
  cs_PEM : option string;
  cs_Info : string * string * Z;   (** device, channel, build_number *)
  cs_DeviceId : string;
}.

(** The parts of the daemon that [Start] brings up, in the order it does. *)
Inductive part := PartPush | PartPostal | PartConnectivity | PartSession | PartPoller.

Inductive start_err :=
| ErrConfig (e : string)
| ErrNoHosts
| ErrClick (e : string)
| ErrIdentifier (e : string)
| ErrReadPEM (e : string)
| ErrNoPEM
| ErrMachineIdHex
| ErrRegURL (e : string)
| ErrService (e : Service.svc_err)
| ErrSystemImage (e : string)
| ErrSession (e : string)
| ErrPoller (e : Poller.poller_err).

Record PushClient := Client {
  config : option ClientConfig;
  pem : option string;
  idder : string;
  deviceId : string;
  systemImageInfo : option InfoResult;
  pushService : option PushServiceSetup;
  postalService : Service.PostalService;
  session : option ClientSessionConfig;
  poller : option Poller.Times;
  running : list part;
  trackAddressees : option (gmap string (option AppId));   (** nil before the first batch *)
  unregisterCh : list AppId;
  (** the click database and the desktop files, as they are now *)
  versions : gmap string string;
  desktop_files : gset string;
}.

Definition upd_start cfg p i d si c := Client cfg p i d si (pushService c) (postalService c) (session c)
  (poller c) (running c) (trackAddressees c) (unregisterCh c) (versions c) (desktop_files c).
Definition upd_config x c := upd_start x (pem c) (idder c) (deviceId c) (systemImageInfo c) c.
Definition upd_pem x c := upd_start (config c) x (idder c) (deviceId c) (systemImageInfo c) c.
Definition upd_idder x c := upd_start (config c) (pem c) x (deviceId c) (systemImageInfo c) c.
Definition upd_deviceId x c := upd_start (config c) (pem c) (idder c) x (systemImageInfo c) c.
Definition upd_info x c := upd_start (config c) (pem c) (idder c) (deviceId c) x c.
Definition upd_parts ps s p r c := Client (config c) (pem c) (idder c) (deviceId c) (systemImageInfo c) ps
  (postalService c) s p r (trackAddressees c) (unregisterCh c) (versions c) (desktop_files c).
Definition upd_postal x c := Client (config c) (pem c) (idder c) (deviceId c) (systemImageInfo c) (pushService c)
  x (session c) (poller c) (running c) (trackAddressees c) (unregisterCh c) (versions c) (desktop_files c).
Definition upd_track x u c := Client (config c) (pem c) (idder c) (deviceId c) (systemImageInfo c) (pushService c)
  (postalService c) (session c) (poller c) (running c) x u (versions c) (desktop_files c).
Definition upd_world v d c := Client (config c) (pem c) (idder c) (deviceId c) (systemImageInfo c) (pushService c)
  (postalService c) (session c) (poller c) (running c) (trackAddressees c) (unregisterCh c) v d.

Definition NewPushClient (versions : gmap string string) (desktop_files : gset string) : PushClient :=
  Client None None "" "" None None {| Service.mbox := None; Service.events := [] |} None None [] None []
    versions desktop_files.

(** ** Addressees *)
Definition CGetVersion (c : PushClient) (pkg : string) : string := default "" (versions c !! pkg).
Definition desktop_file_found (c : PushClient) (d : string) : bool := bool_decide (d ∈ desktop_files c).

Definition StartAddresseeBatch (c : PushClient) : PushClient := upd_track (Some ∅) (unregisterCh c) c.

(** Writing to the nil map panics. The send on [unregisterCh] is the queue's
    growth here; [Daemon] below gives it its ten places. *)
Definition CheckForAddressee (notif : Notification) (c : PushClient) : outcome unit (PushClient * option AppId) :=
  let appId := Msg.AppId notif in
  match trackAddressees c ≫= lookup appId with
  | Some parsed => Ok (c, parsed)
  | None =>
      match ParseAndVerifyAppId (CGetVersion c) (desktop_file_found c) appId true with
      | Panic => Panic
      | r =>
          let '(parsed, unregister) :=
            match r with
            | Ok (app, None) => (Some app, [])
            | Ok (app, Some ErrMissingApp) => (None, [app])
            | Ok (app, Some _) => (Some app, [])
            | _ => (None, [])
            end in
          match trackAddressees c with
          | None => Panic
          | Some m => Ok (upd_track (Some (<[appId := parsed]> m)) (unregisterCh c ++ unregister) c, parsed)
          end
      end
  end.

#[export] Instance PushClient_AddresseeChecking : ClientSession.AddresseeChecking PushClient := {
  StartAddresseeBatch := StartAddresseeBatch;
  CheckForAddressee n c :=
    match CheckForAddressee n c with
    | Ok (c, to) => (c, Original <$> to)
    | _ => (c, None)
    end;
}.

(** [ok] is the answer of the push service's [Unregister]; the result says
    whether it was asked. *)
Definition handleUnregister (app : AppId) (c : PushClient) : outcome app_err (option string) :=
  '(_, installed) ← Installed (CGetVersion c) (desktop_file_found c) app false;
  mret (if (installed : bool) then None else Some (Original app)).

(** ** Notifications *)
Section post.
Context (marshal : list (string * jvalue) → option string).

Definition lookup_json (key : string) (m : list (string * jvalue)) : option jvalue :=
  (list_to_map m : gmap string jvalue) !! key.

Definition is_float (v : jvalue) : bool := match v with JNum _ _ => true | _ => false end.

Definition tag (info : InfoResult) : string := Channel info +:+ "/" +:+ Device info.

(** The last entry of [Decoded] alone is looked at; with no system image
    information the code dereferences nil. *)
Definition filterBroadcastNotification (msg : ClientSession.BroadcastNotification) (c : PushClient)
    : outcome unit bool :=
  match last (ClientSession.bn_Decoded msg) with
  | None => Ok false
  | Some m =>
      match systemImageInfo c with
      | None => Panic
      | Some info =>
          Ok match lookup_json (tag info) m with
             | Some (JArr (v :: _)) => is_float v
             | _ => false
             end
      end
  end.

Definition settings_app : string := "_ubuntu-system-settings".

(** [newNid] is the fresh id [Post] would take. *)
Definition handleBroadcastNotification (newNid : string) (msg : ClientSession.BroadcastNotification)
    (c : PushClient) : outcome unit PushClient :=
  ok ← filterBroadcastNotification msg c;
  if negb ok then Ok c
  else match last (ClientSession.bn_Decoded msg) ≫= marshal with
       | None => Err ()
       | Some payload =>
           match ParseAppId settings_app with
           | Ok app => Ok (upd_postal (Service.Post app "" newNid payload (postalService c)) c)
           | _ => Panic
           end
       end.

Definition handleUnicastNotification (newNid : string) (to : AppId) (msg : Notification) (c : PushClient)
    : PushClient :=
  upd_postal (Service.Post to (Msg.MsgId msg) newNid (Msg.Payload msg) (postalService c)) c.
End post.
(** ** Starting *)

(** What the host answers to the starters. *)
Record host := {
  Stat : option string;                     (** of the configuration file *)
  ReadFiles : string + ClientConfig;
  click_User : option string;
  machine_id : string + string;
  ReadFile : string → string + string;
  pem_Decode : string → bool;
  Sum224 : string → string;
  url_Parse : string → option string;       (** its error *)
  push_dial : option Service.svc_err;
  postal_dial : option Service.svc_err;
  postal_init : option Service.svc_err;
  si_answer : string + gmap string string;
  NewSession : ClientSessionConfig → option string;
  poller_Start : option Poller.poller_err;
  poller_Run : option Poller.poller_err;
}.

Section start.
Context (h : host).
Abbreviation M := (st PushClient start_err).

Definition modify (f : PushClient → PushClient) : M unit := λ c, (f c, Ok ()).
Definition gets {A} (f : PushClient → A) : M A := λ c, (c, Ok (f c)).
Definition check {E} (wrap : E → start_err) (err : option E) : M unit :=
  match err with None => mret () | Some e => st_err (wrap e) end.
Definition value {A} (wrap : string → start_err) (r : string + A) : M A :=
  match r with inl e => st_err (wrap e) | inr a => mret a end.
(** A dereference of a pointer. *)
Definition deref {A} (x : option A) : M A := match x with Some a => mret a | None => st_panic end.

(** [strings.Replace(s, " ", "", -1)] *)
Fixpoint remove_spaces (s : string) : string :=
  match s with
  | EmptyString => EmptyString
  | String c s => if decide (c = " "%char) then remove_spaces s else String c (remove_spaces s)
  end.

Definition with_Addr (a : string) (cfg : ClientConfig) : ClientConfig :=
  {| StabilizingTimeout := StabilizingTimeout cfg; RecheckTimeout := RecheckTimeout cfg;
     ConnectivityCheckURL := ConnectivityCheckURL cfg; ConnectivityCheckMD5 := ConnectivityCheckMD5 cfg;
     ExchangeTimeout := ExchangeTimeout cfg; ConnectTimeout := ConnectTimeout cfg; Addr := a;
     HostsCachingExpiryTime := HostsCachingExpiryTime cfg; ExpectAllRepairedTime := ExpectAllRepairedTime cfg;
     CertPEMFile := CertPEMFile cfg; SessionURL := SessionURL cfg; RegistrationURL := RegistrationURL cfg;
     LogLevel := LogLevel cfg; FallbackVibration := FallbackVibration cfg; FallbackSound := FallbackSound cfg;
     PollInterval := PollInterval cfg; PollSettle := PollSettle cfg; PollNetworkWait := PollNetworkWait cfg;
     PollPolldWait := PollPolldWait cfg; PollDoneWait := PollDoneWait cfg; PollBusyWait := PollBusyWait cfg |}.

Definition configure : M unit :=
  check ErrConfig (Stat h);;
  cfg ← value ErrConfig (ReadFiles h);
  let cfg := with_Addr (remove_spaces (Addr cfg)) cfg in
  modify (upd_config (Some cfg));;
  (if decide (Addr cfg = "") then st_err ErrNoHosts else mret ());;
  check ErrClick (click_User h);;
  modify (λ c, upd_track (trackAddressees c) [] c);;
  id ← (λ c, match Identifier.New (machine_id h) with
             | Ok id => (c, Ok id) | Err e => (c, Err (ErrIdentifier e)) | Panic => (c, Panic)
             end);
  modify (upd_idder id);;
  if decide (CertPEMFile cfg = "") then mret ()
  else
    pem ← value ErrReadPEM (ReadFile h (CertPEMFile cfg));
    modify (upd_pem (Some pem));;
    if pem_Decode h pem then mret () else st_err ErrNoPEM.

Definition getDeviceId : M unit :=
  baseId ← gets idder;
  match Store.hex_decode baseId with
  | None => st_err ErrMachineIdHex
  | Some b =>
      modify (upd_deviceId (EncodeToString (Sum224 h (String.string_of_list_ascii (val_byte <$> b)))))
  end.

Definition derivePushServiceSetup (cfg : ClientConfig) (c : PushClient) : PushServiceSetup :=
  {| RegURL := RegistrationURL cfg; ps_DeviceId := deviceId c |}.

Definition set_push (x : PushServiceSetup) (c : PushClient) : PushClient :=
  upd_parts (Some x) (session c) (poller c) (running c) c.
Definition set_session (x : ClientSessionConfig) (c : PushClient) : PushClient :=
  upd_parts (pushService c) (Some x) (poller c) (running c) c.
Definition set_poller (x : Poller.Times) (c : PushClient) : PushClient :=
  upd_parts (pushService c) (session c) (Some x) (running c) c.
Definition run_part (x : part) (c : PushClient) : PushClient :=
  upd_parts (pushService c) (session c) (poller c) (running c ++ [x]) c.

Definition setupPushService : M unit :=
  cfg ← (λ c, deref (config c) c);
  check ErrRegURL (url_Parse h (RegistrationURL cfg));;
  modify (λ c, set_push (derivePushServiceSetup cfg c) c).

(** The new service has no boxes. *)
Definition setupPostalService : M unit :=
  modify (upd_postal {| Service.mbox := None; Service.events := [] |}).

(** Both services are new: their state is [StateUnknown]. *)
Definition startPushService : M unit :=
  check ErrService (Service.Start true (push_dial h) None Service.StateUnknown).2;;
  modify (run_part PartPush).
Definition startPostalService : M unit :=
  check ErrService (Service.Start true (postal_dial h) (postal_init h) Service.StateUnknown).2;;
  modify (run_part PartPostal).

Definition unknown_image : InfoResult :=
  {| BuildNumber := 0; Device := "unknown"; Channel := ""; LastUpdate := ""; VersionDetail := ∅; Raw := ∅ |}.

(** [Track] runs from here on. *)
Definition takeTheBus : M unit :=
  modify (run_part PartConnectivity);;
  match Information (si_answer h) with
  | inr info => modify (upd_info (Some info))
  | inl e => if decide (e = SI_NO_SERVICE_ERROR) then modify (upd_info (Some unknown_image))
             else st_err (ErrSystemImage e)
  end.

Definition deriveSessionConfig (cfg : ClientConfig) (info : InfoResult) (c : PushClient) : ClientSessionConfig :=
  {| cs_Addr := Addr cfg; cs_ConnectTimeout := ConnectTimeout cfg; cs_ExchangeTimeout := ExchangeTimeout cfg;
     cs_HostsCachingExpiryTime := HostsCachingExpiryTime cfg;
     cs_ExpectAllRepairedTime := ExpectAllRepairedTime cfg; cs_PEM := pem c;
     cs_Info := (Device info, Channel info, BuildNumber info); cs_DeviceId := deviceId c |}.

Definition derivePollerSetup (cfg : ClientConfig) : Poller.Times :=
  {| Poller.AlarmInterval := PollInterval cfg; Poller.SessionStateSettle := PollSettle cfg;
     Poller.NetworkWait := PollNetworkWait cfg; Poller.PolldWait := PollPolldWait cfg;
     Poller.DoneWait := PollDoneWait cfg; Poller.BusyWait := PollBusyWait cfg |}.

(** The error of [KeepConnection] is ignored. *)
Definition initSessionAndPoller : M unit :=
  cfg ← (λ c, deref (config c) c);
  info ← (λ c, deref (systemImageInfo c) c);
  sc ← gets (deriveSessionConfig cfg info);
  check ErrSession (NewSession h sc);;
  modify (set_session sc);;
  modify (run_part PartSession);;
  modify (set_poller (derivePollerSetup cfg)).

Definition runPoller : M unit :=
  check ErrPoller (poller_Start h);;
  check ErrPoller (poller_Run h);;
  modify (run_part PartPoller).

Fixpoint doStart (fs : list (M unit)) : M unit :=
  match fs with [] => mret () | f :: fs => f;; doStart fs end.

Definition Start : M unit :=
  doStart [configure; getDeviceId; setupPushService; setupPostalService; startPushService;
           startPostalService; takeTheBus; initSessionAndPoller; runPoller].
End start.
End PushClient.

(** What a batch of checks amounts to. *)
Module AddresseeSpec.
Import PushClient Service.

(** The application an id names, if it is installed; and if it is not. *)
Definition installed_app (c : PushClient) (id : string) : option AppId :=
  match ParseAndVerifyAppId (CGetVersion c) (desktop_file_found c) id true with
  | Ok (app, None) => Some app
  | _ => None
  end.

Definition missing_app (c : PushClient) (id : string) : option AppId :=
  match ParseAndVerifyAppId (CGetVersion c) (desktop_file_found c) id true with
  | Ok (app, Some ErrMissingApp) => Some app
  | _ => None
  end.

Lemma parse_verify_cases g f id :
  match ParseAndVerifyAppId g f id true with
  | Err _ | Ok (_, None) | Ok (_, Some ErrMissingApp) => True
  | _ => False
  end.
Proof.
  destruct (ParseAppId id) as [app|e|] eqn:E.
  - pose proof (ClickProps.verify_app_id g f id app E) as H.
    destruct (ParseAndVerifyAppId g f id true) as [[app' [e|]]|e|]; [|done..].
    by destruct H as [-> _].
  - unfold ParseAndVerifyAppId. rewrite E. done.
  - exfalso. revert E. unfold ParseAppId, setFromString. repeat case_match; congruence.
Qed.

(** The answers recorded so far are the ones a new check would give. *)
Definition tracks (c : PushClient) (m : gmap string (option AppId)) : Prop :=
  trackAddressees c = Some m ∧ map_Forall (λ id p, p = installed_app c id) m.

Definition checked (c : PushClient) (id : string) (m : gmap string (option AppId)) : PushClient :=
  upd_track (Some (<[id := installed_app c id]> m))
    (unregisterCh c ++ (if decide (id ∈ dom m) then [] else option_list (missing_app c id))) c.

Lemma CheckForAddressee_spec n c m :
  tracks c m →
  CheckForAddressee n c = Ok (checked c (Msg.AppId n) m, installed_app c (Msg.AppId n)) ∧
  tracks (checked c (Msg.AppId n) m) (<[Msg.AppId n := installed_app c (Msg.AppId n)]> m).
Proof.
  intros [Ht Hm]. split.
  - unfold CheckForAddressee, checked. rewrite Ht. cbn. set (id := Msg.AppId n).
    destruct (m !! id) as [p|] eqn:E; cbn.
    + assert (p = installed_app c id) as -> by by apply (Hm id). rewrite insert_id by done.
      rewrite decide_True by (by apply elem_of_dom_2 in E). rewrite app_nil_r.
      rewrite <- Ht. by destruct c.
    + rewrite decide_False by (by apply not_elem_of_dom). unfold installed_app, missing_app.
      pose proof (parse_verify_cases (CGetVersion c) (desktop_file_found c) id) as H.
      destruct (ParseAndVerifyAppId _ _ id true) as [[app [[]|]]|e|]; done.
  - split; [done|]. apply map_Forall_insert_2; [done|]. exact Hm.
Qed.

Lemma StartAddresseeBatch_tracks c : tracks (StartAddresseeBatch c) ∅.
Proof. split; [done|]. apply map_Forall_empty. Qed.

(** The ids of a batch, each once, in the order they come first; [seen] are
    the ones that came before. *)
Fixpoint firsts (seen : gset string) (ids : list string) : list string :=
  match ids with
  | [] => []
  | id :: ids => if decide (id ∈ seen) then firsts seen ids else id :: firsts ({[id]} ∪ seen) ids
  end.

Definition missing_apps (c : PushClient) (seen : gset string) (ns : list Notification) : list AppId :=
  omap (missing_app c) (firsts seen (Msg.AppId <$> ns)).

Lemma missing_apps_cons c seen n ns :
  missing_apps c seen (n :: ns) =
  (if decide (Msg.AppId n ∈ seen) then [] else option_list (missing_app c (Msg.AppId n)))
  ++ missing_apps c ({[Msg.AppId n]} ∪ seen) ns.
Proof.
  unfold missing_apps. cbn. case_decide as Hin; cbn.
  - by rewrite subseteq_union_1_L by (by apply singleton_subseteq_l).
  - by destruct (missing_app c (Msg.AppId n)).
Qed.

Lemma firsts_NoDup seen ids : NoDup (firsts seen ids) ∧ ∀ id, id ∈ firsts seen ids ↔ id ∈ ids ∧ id ∉ seen.
Proof.
  revert seen. induction ids as [|i ids IH]; intros seen; cbn.
  { split; [constructor|]. intros id. rewrite !elem_of_nil. tauto. }
  destruct (decide (i ∈ seen)) as [Hi|Hi].
  - destruct (IH seen) as [Hnd Hel]. split; [done|]. intros id. rewrite Hel, elem_of_cons.
    split; [tauto|]. intros [[->|?] ?]; tauto.
  - destruct (IH ({[i]} ∪ seen)) as [Hnd Hel]. split.
    + constructor; [|done]. rewrite Hel. set_solver.
    + intros id. rewrite !elem_of_cons, Hel. destruct (decide (id = i)) as [->|]; set_solver.
Qed.

(** Nothing but the batch's own fields changes. *)
Lemma checked_rest c id m :
  (CGetVersion (checked c id m) = CGetVersion c ∧ desktop_file_found (checked c id m) = desktop_file_found c) ∧
  installed_app (checked c id m) = installed_app c ∧ missing_app (checked c id m) = missing_app c ∧
  postalService (checked c id m) = postalService c ∧
  unregisterCh (checked c id m) =
    unregisterCh c ++ (if decide (id ∈ dom m) then [] else option_list (missing_app c id)).
Proof. done. Qed.

#[global] Opaque checked.

Section session.
Context {S : Type} `{SeenState.SeenState S}.
Abbreviation sess := (@ClientSession.clientSession S PushClient).

(** What a session hands on for a batch. *)
Definition puts (c : PushClient) (ns : list Notification) : list ClientSession.cev :=
  omap (λ n, app ← installed_app c (Msg.AppId n); Some (ClientSession.PutNotification (Original app) n)) ns.

Lemma forward_batch ns (s : sess) c m :
  tracks (ClientSession.checker s) m →
  installed_app (ClientSession.checker s) = installed_app c →
  missing_app (ClientSession.checker s) = missing_app c →
  ∃ s', ClientSession.forward ns s = (s', Ok ()) ∧
  ClientSession.trace s' = ClientSession.trace s ++ puts c ns ∧
  unregisterCh (ClientSession.checker s') =
    unregisterCh (ClientSession.checker s) ++ missing_apps c (dom m) ns.
Proof.
  revert s m. induction ns as [|n ns IH]; intros s m Ht Hia Hma.
  { exists s. cbn. unfold missing_apps. by rewrite !app_nil_r. }
  destruct (CheckForAddressee_spec n _ _ Ht) as [Hc Ht'].
  destruct (checked_rest (ClientSession.checker s) (Msg.AppId n) m) as (_ & Hi & Hmi & _ & Hu).
  cbn [ClientSession.forward]. unfold mbind at 1, st_bind at 1, ClientSession.CheckForAddressee_.
  cbn [ClientSession.CheckForAddressee PushClient_AddresseeChecking]. rewrite Hc, missing_apps_cons.
  rewrite Hia, Hma in *. set (c1 := checked _ _ _) in *. unfold puts. cbn [omap list_omap].
  assert (∀ s1 : sess, ClientSession.checker s1 = c1 → ∃ s',
    ClientSession.forward ns s1 = (s', Ok ()) ∧
    ClientSession.trace s' = ClientSession.trace s1 ++ puts c ns ∧
    unregisterCh (ClientSession.checker s') =
      unregisterCh c1 ++ missing_apps c ({[Msg.AppId n]} ∪ dom m) ns) as Hrest.
  { intros s1 Hs1. destruct (IH s1 (<[Msg.AppId n := installed_app c (Msg.AppId n)]> m))
      as (s' & Hf & Htr & Hu'); rewrite ?Hs1; [done..|].
    exists s'. rewrite Hs1, dom_insert_L in Hu'. done. }
  destruct (installed_app c (Msg.AppId n)) as [app|]; cbn -[ClientSession.forward].
  - destruct (Hrest (ClientSession.upd_trace (ClientSession.trace s ++ [ClientSession.PutNotification (Original app) n])
      (ClientSession.upd_checker c1 s)) eq_refl) as (s' & Hf & Htr & Hu').
    exists s'. cbn in Htr. by rewrite Hu', Hu, Htr, <- !app_assoc.
  - destruct (Hrest (ClientSession.upd_checker c1 s) eq_refl) as (s' & Hf & Htr & Hu').
    exists s'. cbn in Htr. by rewrite Hu', Hu, Htr, <- !app_assoc.
Qed.
End session.
End AddresseeSpec.

(** [Loop] and the session's goroutine that handles a batch, over the channels
    between them: [notificationsCh] is unbuffered, [unregisterCh] holds ten.
    Packages come and go meanwhile. *)
Module Daemon.
Import PushClient.

Inductive session_pc :=
| SIdle
| SBatch (rest : list Notification)                          (** in the loop over the batch *)
| SDeliver (to : AppId) (n : Notification) (rest : list Notification)   (** sending on [notificationsCh] *)
| SCrash.

(** Where the loop is: in its select, or in [handeConnNotification], telling
    the session and then the poller. *)
Inductive main_pc := MSelect | MSession (state : bool) | MPoller (state : bool) | MCrashed.

Record daemon := D {
  client : PushClient;
  spc : session_pc;
  unregistered : list string;   (** the applications [Unregister] was asked for *)
  main : main_pc;
  told_session : list bool;     (** the calls of [HasConnectivity] that returned *)
  told_poller : list bool;
}.

Inductive label :=
| LBatch (ns : list Notification)
| LCheck                                                    (** the next check, or the loop's end *)
| LUnicast                                                  (** [aucast := <-client.notificationsCh] *)
| LUnregister                                               (** [app := <-client.unregisterCh] *)
| LBroadcast (msg : ClientSession.BroadcastNotification)
| LConn (state : bool)                                      (** [state := <-client.connCh] *)
| LAttempts (count : Z)                                     (** [count := <-client.sessionConnectedCh] *)
| LSessionTakes                                             (** the session's keeper receives the state *)
| LPollerTakes                                              (** the poller receives it *)
| LWorld (versions : gmap string string) (desktop_files : gset string).

Section daemon.
(** The ids [Post] makes up: the one for the [n]th event. *)
Context (fresh : nat → string) (marshal : list (string * jvalue) → option string).

Definition newNid (c : PushClient) : string := fresh (length (Service.events (postalService c))).

Definition on_session (c : PushClient) (p : session_pc) (d : daemon) : daemon :=
  D c p (unregistered d) (main d) (told_session d) (told_poller d).
Definition on_loop (c : PushClient) (p : session_pc) (u : list string) (m : main_pc) (d : daemon) : daemon :=
  D c p u m (told_session d) (told_poller d).

Definition session_step (l : label) (d : daemon) : option daemon :=
  match l, spc d with
  | LBatch ns, SIdle => Some (on_session (StartAddresseeBatch (client d)) (SBatch ns) d)
  | LCheck, SBatch [] => Some (on_session (client d) SIdle d)
  | LCheck, SBatch (n :: rest) =>
      match CheckForAddressee n (client d) with
      | Ok (c, to) =>
          if decide (length (unregisterCh c) ≤ 10 ∨ length (unregisterCh c) = length (unregisterCh (client d))) then
            Some (on_session c (match to with Some app => SDeliver app n rest | None => SBatch rest end) d)
          else None
      | _ => Some (on_session (client d) SCrash d)
      end
  | _, _ => None
  end.

(** A branch of the select. *)
Definition loop_step (l : label) (d : daemon) : option daemon :=
  match l with
  | LUnicast =>
      match spc d with
      | SDeliver to n rest =>
          Some (on_loop (handleUnicastNotification (newNid (client d)) to n (client d)) (SBatch rest) (unregistered d) MSelect d)
      | _ => None
      end
  | LUnregister =>
      match unregisterCh (client d) with
      | [] => None
      | app :: q =>
          let c := upd_track (trackAddressees (client d)) q (client d) in
          match handleUnregister app c with
          | Ok asked => Some (on_loop c (spc d) (unregistered d ++ option_list asked) MSelect d)
          | _ => Some (on_loop c (spc d) (unregistered d) MCrashed d)
          end
      end
  | LBroadcast msg =>
      match handleBroadcastNotification marshal (newNid (client d)) msg (client d) with
      | Ok c => Some (on_loop c (spc d) (unregistered d) MSelect d)
      | Err _ => Some d
      | Panic => Some (on_loop (client d) (spc d) (unregistered d) MCrashed d)
      end
  | LConn state => Some (on_loop (client d) (spc d) (unregistered d) (MSession state) d)
  | LAttempts _ => Some d
  | _ => None
  end.

(** [handeConnNotification] *)
Definition conn_step (l : label) (d : daemon) : option daemon :=
  match l, main d with
  | LSessionTakes, MSession state =>
      Some (D (client d) (spc d) (unregistered d) (MPoller state) (told_session d ++ [state]) (told_poller d))
  | LPollerTakes, MPoller state =>
      Some (D (client d) (spc d) (unregistered d) MSelect (told_session d) (told_poller d ++ [state]))
  | _, _ => None
  end.

Definition step (l : label) (d : daemon) : option daemon :=
  match l with
  | LBatch _ | LCheck => session_step l d
  | LUnicast | LUnregister | LBroadcast _ | LConn _ | LAttempts _ =>
      match main d with MSelect => loop_step l d | _ => None end
  | LSessionTakes | LPollerTakes => conn_step l d
  | LWorld v f => Some (on_session (upd_world v f (client d)) (spc d) d)
  end.

Fixpoint steps (ls : list label) (d : daemon) : option daemon :=
  match ls with [] => Some d | l :: ls => d ← step l d; steps ls d end.
End daemon.

(** The steps that finish the work at hand. *)
Definition finishing (l : label) : Prop :=
  match l with LCheck | LUnicast | LUnregister | LSessionTakes | LPollerTakes => True | _ => False end.
#[export] Instance finishing_dec l : Decision (finishing l).
Proof. destruct l; cbn; apply _. Defined.
End Daemon.

Module DaemonSpec.
Import PushClient AddresseeSpec Daemon.

Definition weight (d : daemon) : nat :=
  length (unregisterCh (client d)) +
  match main d with MSession _ => 2 | MPoller _ => 1 | _ => 0 end +
  match spc d with
  | SIdle | SCrash => 0
  | SBatch rest => 1 + 3 * length rest
  | SDeliver _ _ rest => 2 + 3 * length rest
  end.

(** What [Start] leaves to the loop, and what every step keeps. *)
Record ready (d : daemon) : Prop := {
  r_info : systemImageInfo (client d) ≠ None;
  r_main : main d ≠ MCrashed;
  r_spc : spc d ≠ SCrash;
  r_track : match spc d with SBatch _ | SDeliver _ _ _ => trackAddressees (client d) ≠ None | _ => True end;
  r_queue : length (unregisterCh (client d)) ≤ 10;
}.

Lemma CheckForAddressee_total n c :
  trackAddressees c ≠ None →
  ∃ m u p, CheckForAddressee n c = Ok (upd_track (Some m) (unregisterCh c ++ u) c, p) ∧ length u ≤ 1.
Proof.
  intros Ht. destruct (trackAddressees c) as [m|] eqn:E; [|done]. unfold CheckForAddressee. rewrite E. cbn.
  destruct (m !! Msg.AppId n) as [p|]; cbn.
  { exists m, [], p. rewrite app_nil_r, <- E. split; [by destruct c|cbn; lia]. }
  pose proof (parse_verify_cases (CGetVersion c) (desktop_file_found c) (Msg.AppId n)) as H.
  destruct (ParseAndVerifyAppId _ _ _ true) as [[app [[]|]]|e|]; try done;
    eexists _, _, _; (split; [reflexivity|cbn; lia]).
Qed.

Lemma CheckForAddressee_postal n c :
  match CheckForAddressee n c with Ok (c', _) => postalService c' = postalService c | _ => True end.
Proof.
  unfold CheckForAddressee. repeat (case_match; try done); by simplify_eq.
Qed.

Lemma handleUnregister_total app c : ∃ asked, handleUnregister app c = Ok asked.
Proof.
  unfold handleUnregister, Installed, DesktopId, Versioned. destruct (Click app); cbn; [|eauto].
  repeat case_decide; cbn; eauto.
Qed.

Lemma handleBroadcast_total marshal nid msg c :
  systemImageInfo c ≠ None →
  match handleBroadcastNotification marshal nid msg c with
  | Ok c' => ∃ p, c' = upd_postal p c
  | Err _ => True
  | Panic => False
  end.
Proof.
  intros Hi. unfold handleBroadcastNotification, filterBroadcastNotification.
  destruct (systemImageInfo c) as [info|]; [|done].
  destruct (last _) as [m|]; cbn; [|exists (postalService c); by destruct c].
  match goal with |- context [negb ?b] => destruct b end; cbn; [|exists (postalService c); by destruct c].
  destruct (marshal m); cbn; [|done]. by eexists.
Qed.

Lemma step_ready fresh marshal l d d' : ready d → step fresh marshal l d = Some d' → ready d'.
Proof.
  intros [Hi Hm Hs Ht Hq] Hst.
  destruct l as [ns| | | |msg|state|n| | |v f]; cbn [step session_step] in Hst; unfold conn_step in Hst; try match type of Hst with match main d with _ => _ end = _ => destruct (main d) eqn:Em; try done end; cbn in Hst.
  - destruct (spc d); try done. injection Hst as <-. by split.
  - destruct (spc d) as [|[|n rest]| |]; try done; [injection Hst as <-; by split|].
    destruct (CheckForAddressee_total n _ Ht) as (m & u & p & E & Hu). rewrite E in Hst.
    case_decide as Hd; [|done]. injection Hst as <-. cbn in Hd.
    split; cbn; [done|done|by destruct p|by destruct p|]. destruct Hd as [Hd|Hd]; [done|by rewrite Hd].
  - destruct (spc d) eqn:E; try done. injection Hst as <-. by split.
  - destruct (unregisterCh (client d)) as [|app q] eqn:E; [done|].
    match type of Hst with context [handleUnregister app ?c] =>
      destruct (handleUnregister_total app c) as [asked Ha] end.
    rewrite Ha in Hst. injection Hst as <-. split; cbn in *; [done..|lia].
  - pose proof (handleBroadcast_total marshal (newNid fresh (client d)) msg _ Hi) as Hb.
    destruct (handleBroadcastNotification _ _ _ _) as [c|e|]; [|injection Hst as <-; split; congruence|done].
    destruct Hb as [p ->]. injection Hst as <-. by split.
  - injection Hst as <-. by split.
  - injection Hst as <-. split; congruence.
  - injection Hst as <-. by split.
  - injection Hst as <-. by split.
  - injection Hst as <-. by split.
Qed.

Lemma steps_ready fresh marshal ls d d' : ready d → steps fresh marshal ls d = Some d' → ready d'.
Proof.
  revert d. induction ls as [|l ls IH]; intros d Hr; cbn; [by intros [= <-]|].
  destruct (step _ _ l d) as [d1|] eqn:E; [|done]. apply IH. by eapply step_ready.
Qed.

Lemma finishing_weight fresh marshal l d d' :
  ready d → finishing l → step fresh marshal l d = Some d' → weight d' < weight d.
Proof.
  intros [Hi Hm Hs Ht Hq] Hl Hst. destruct l as [ns| | | |msg|state|n| | |v f]; try done; cbn [step session_step] in Hst; unfold conn_step in Hst;
    try match type of Hst with match main d with _ => _ end = _ => destruct (main d) eqn:Em; try done end; cbn in Hst; unfold weight.
  - destruct (spc d) as [|[|n rest]| |]; try done; [injection Hst as <-; cbn; lia|].
    destruct (CheckForAddressee_total n _ Ht) as (m & u & p & E & Hu). rewrite E in Hst.
    case_decide as Hd; [|done]. injection Hst as <-. cbn. rewrite length_app. destruct p; cbn; lia.
  - destruct (spc d) eqn:E; try done. injection Hst as <-. cbn. rewrite Em. lia.
  - destruct (unregisterCh (client d)) as [|app q] eqn:E; [done|].
    match type of Hst with context [handleUnregister app ?c] =>
      destruct (handleUnregister_total app c) as [asked Ha] end.
    rewrite Ha in Hst. injection Hst as <-. cbn. rewrite Em. lia.
  - injection Hst as <-. cbn. rewrite Em. lia.
  - injection Hst as <-. cbn. rewrite Em. lia.
Qed.

Lemma finishing_progress fresh marshal d :
  ready d → (∀ l, finishing l → step fresh marshal l d = None) →
  spc d = SIdle ∧ unregisterCh (client d) = [] ∧ main d = MSelect.
Proof.
  intros [Hi Hm Hs Ht Hq] Hstuck.
  assert (main d = MSelect) as Em.
  { pose proof (Hstuck LSessionTakes I) as H1. pose proof (Hstuck LPollerTakes I) as H2. cbn in H1, H2. unfold conn_step in H1, H2. by destruct (main d). }
  assert (unregisterCh (client d) = []) as Hu.
  { specialize (Hstuck LUnregister I). cbn in Hstuck. rewrite Em in Hstuck.
    destruct (unregisterCh (client d)) as [|app q]; [done|]. by case_match. }
  split; [|done]. destruct (spc d) as [|[|n rest]|to n rest|] eqn:E; [done|exfalso..|done].
  - specialize (Hstuck LCheck I). cbn in Hstuck. by rewrite E in Hstuck.
  - specialize (Hstuck LCheck I). cbn in Hstuck. rewrite E in Hstuck.
    destruct (CheckForAddressee_total n _ Ht) as (m & u & p & Ec & Hl). rewrite Ec, Hu in Hstuck. cbn in Hstuck.
    by rewrite decide_True in Hstuck by (left; lia).
  - specialize (Hstuck LUnicast I). cbn in Hstuck. by rewrite Em, E in Hstuck.
Qed.

(** The states the session and the poller are told: the same, in the same
    order, the poller one behind at most. *)
Definition telling (d : daemon) : list bool := match main d with MPoller state => [state] | _ => [] end.

Lemma told_in_order fresh marshal ls d d' :
  told_session d = told_poller d ++ telling d → steps fresh marshal ls d = Some d' → told_session d' = told_poller d' ++ telling d'.
Proof.
  revert d. induction ls as [|l ls IH]; intros d Hd; cbn; [by intros [= <-]|].
  destruct (step fresh marshal l d) as [d1|] eqn:E; [|done]. cbn. apply IH. unfold telling in *.
  destruct l; cbn [step session_step loop_step] in E; unfold conn_step in E;
    repeat (match type of E with context [match ?x with _ => _ end] => destruct x eqn:? end; try discriminate E);
    injection E as <-; cbn in *; try match goal with Em : main d = _ |- _ => rewrite Em in * end; cbn in *; rewrite ?app_nil_r in *; congruence.
Qed.

(** A poller that does not take the state it is told ([poller_hangs]) stops
    the loop: nothing is posted, unregistered or told any more. *)
Lemma waits_for_poller fresh marshal ls d d' state :
  main d = MPoller state → LPollerTakes ∉ ls → steps fresh marshal ls d = Some d' →
  main d' = MPoller state ∧ postalService (client d') = postalService (client d) ∧ unregistered d' = unregistered d ∧
  told_session d' = told_session d.
Proof.
  revert d. induction ls as [|l ls IH]; intros d Hm Hn; cbn; [by intros [= <-]|].
  apply not_elem_of_cons in Hn as [Hl Hn]. destruct (step fresh marshal l d) as [d1|] eqn:E; [|done]. cbn. intros Hs.
  assert (H1 : main d1 = MPoller state ∧ postalService (client d1) = postalService (client d) ∧ unregistered d1 = unregistered d ∧
    told_session d1 = told_session d).
  { destruct l as [ns| | | |msg|st|n| | |v f]; cbn [step] in E; unfold conn_step in E; rewrite ?Hm in E; try done.
    - cbn in E. destruct (spc d); try done. by injection E as <-.
    - cbn in E. destruct (spc d) as [|[|n rest]| |]; try done; [by injection E as <-|].
      pose proof (CheckForAddressee_postal n (client d)) as Hp. destruct (CheckForAddressee n (client d)) as [[c to]|e|]; [|by injection E as <-..].
      case_decide; [|done]. injection E as <-. by rewrite <-Hp.
    - by injection E as <-. }
  destruct H1 as (Hm1 & Hp & Hu & Ht). destruct (IH d1 Hm1 Hn Hs) as (? & ? & ? & ?). split_and!; congruence.
Qed.
End DaemonSpec.

Module BatchSpec.
Import PushClient AddresseeSpec Daemon Service.

Section batch.
Context (fresh : nat → string) (marshal : list (string * jvalue) → option string).

(** The posts for the installed applications of a batch, in order. *)
Definition post_one (c : PushClient) (n : Notification) (p : PostalService) : PostalService :=
  match installed_app c (Msg.AppId n) with
  | Some app => Post app (Msg.MsgId n) (fresh (length (events p))) (Msg.Payload n) p
  | None => p
  end.
Definition post_all (c : PushClient) (ns : list Notification) (p : PostalService) : PostalService :=
  foldl (λ p n, post_one c n p) p ns.

(** A missing application is still missing when [Unregister] is due. *)
Lemma missing_unregisters c c' id app :
  missing_app c id = Some app → CGetVersion c' = CGetVersion c → desktop_file_found c' = desktop_file_found c →
  handleUnregister app c' = Ok (Some (Original app)).
Proof.
  unfold missing_app, ParseAndVerifyAppId, handleUnregister. intros H -> ->.
  destruct (ParseAppId id) as [a|e|]; cbn in H; [|done..].
  unfold Installed, DesktopId, Versioned in *. cbv [mret outcome_ret] in *.
  destruct (Click a) eqn:Hc; cbn in H.
  - destruct (decide (CGetVersion c (Package a) = "")) as [Hv|Hv]; cbn in H.
    { injection H as <-. by rewrite Hc, decide_True. }
    destruct (decide (Version a = "")) as [Hv0|Hv0]; cbn in H; [done|].
    case_bool_decide as Hv1; cbn in H; [done|]. injection H as <-.
    rewrite Hc, decide_False, decide_False by done. cbn. by rewrite bool_decide_false.
  - destruct (desktop_file_found c _) eqn:Hd; simplify_eq/=. rewrite Hc. cbn. by rewrite Hd.
Qed.

(** A batch under way: what has been done and what the rest of it amounts to
    make up the totals [tp] and [tu]. *)
Record in_batch (c0 : PushClient) (tp : PostalService) (tu : list string) (d : daemon) : Prop := {
  b_versions : CGetVersion (client d) = CGetVersion c0;
  b_desktop : desktop_file_found (client d) = desktop_file_found c0;
  b_main : main d ≠ MCrashed;
  b_queue : Forall (λ app, ∃ id, missing_app c0 id = Some app) (unregisterCh (client d));
  b_spc :
    let p := postalService (client d) in
    let u := unregistered d ++ (Original <$> unregisterCh (client d)) in
    match spc d with
    | SIdle => p = tp ∧ u = tu
    | SBatch rest => ∃ m, tracks (client d) m ∧ post_all c0 rest p = tp ∧
        u ++ (Original <$> missing_apps c0 (dom m) rest) = tu
    | SDeliver to n rest => ∃ m, tracks (client d) m ∧ 
        post_all c0 rest (Post to (Msg.MsgId n) (fresh (length (events p))) (Msg.Payload n) p) = tp ∧
        u ++ (Original <$> missing_apps c0 (dom m) rest) = tu
    | SCrash => False
    end;
}.

Lemma in_batch_apps c0 tp tu d :
  in_batch c0 tp tu d → installed_app (client d) = installed_app c0 ∧ missing_app (client d) = missing_app c0.
Proof. intros [Hv Hd _ _ _]. unfold installed_app, missing_app. by rewrite Hv, Hd. Qed.

Lemma check_in_batch c0 tp tu d n rest d' :
  in_batch c0 tp tu d → spc d = SBatch (n :: rest) →
  step fresh marshal LCheck d = Some d' → in_batch c0 tp tu d'.
Proof.
  intros Hb E Hst. destruct (in_batch_apps _ _ _ _ Hb) as [Hia Hma]. destruct Hb as [Hv Hd Hm Hq Hs].
  rewrite E in Hs. destruct Hs as (m & Ht & Hp & Hu). cbn in Hst. rewrite E in Hst.
  destruct (CheckForAddressee_spec n _ _ Ht) as [Hc Ht']. rewrite Hc in Hst.
  pose proof (checked_rest (client d) (Msg.AppId n) m) as ([Hcv Hcd] & _ & _ & Hcp & Hcu).
  rewrite missing_apps_cons in Hu. rewrite Hia, Hma in *. 
  set (c1 := checked _ _ _) in *. clearbody c1.
  destruct (decide (length (unregisterCh c1) ≤ 10 ∨ _)) as [_|]; [|done]. injection Hst as <-.
  split; cbn; [congruence|congruence|done| |].
  - rewrite Hcu. apply Forall_app_2; [done|]. case_decide; [done|].
    destruct (missing_app c0 (Msg.AppId n)) as [app|] eqn:Ea; cbn; [|done]. by repeat econstructor.
  - assert ((unregistered d ++ (Original <$> unregisterCh c1)) ++
      (Original <$> missing_apps c0 (dom (<[Msg.AppId n := installed_app c0 (Msg.AppId n)]> m)) rest) = tu) as Hu'.
    { rewrite <- Hu, Hcu, dom_insert_L, !fmap_app, <- !app_assoc. done. }
    change (post_all c0 rest (post_one c0 n (postalService (client d))) = tp) in Hp.
    unfold post_one in Hp.
    destruct (installed_app c0 (Msg.AppId n)) as [app|] eqn:Ea; (eexists; split; [exact Ht'|]);
      by rewrite Hcp.
Qed.

Lemma step_in_batch c0 tp tu l d d' :
  in_batch c0 tp tu d → finishing l → step fresh marshal l d = Some d' → in_batch c0 tp tu d'.
Proof.
  intros Hb Hl Hst. destruct l as [ns| | | |msg|state|n| | |v f]; try done.
  - destruct (spc d) as [|[|n rest]| |] eqn:E; cbn in Hst; rewrite E in Hst; try done.
    + injection Hst as <-. destruct Hb as [Hv Hd Hm Hq Hs]. rewrite E in Hs.
      destruct Hs as (m & _ & Hp & Hu). split; [done..|]. cbn in *. by rewrite app_nil_r in Hu.
    + apply (check_in_batch c0 tp tu d n rest); [done..|]. cbn. by rewrite E.
  - destruct Hb as [Hv Hd Hm Hq Hs]. cbn in Hst. destruct (main d); try done. destruct (spc d) eqn:E; try done.
    injection Hst as <-. by split.
  - destruct Hb as [Hv Hd Hm Hq Hs]. cbn in Hst. destruct (main d); try done.
    destruct (unregisterCh (client d)) as [|app q] eqn:Eq; [done|].
    apply Forall_cons in Hq as [[id Hid] Hq].
    rewrite (missing_unregisters c0 _ id app Hid) in Hst by done. injection Hst as <-.
    split; [done..|]. cbn in *. rewrite <- !app_assoc in *. cbn in *. exact Hs.
  - destruct Hb as [Hv Hd Hm Hq Hs]. cbn in Hst. unfold conn_step in Hst. destruct (main d); try done. injection Hst as <-. by split.
  - destruct Hb as [Hv Hd Hm Hq Hs]. cbn in Hst. unfold conn_step in Hst. destruct (main d); try done. injection Hst as <-. by split.
Qed.

Lemma steps_in_batch c0 tp tu ls d d' :
  in_batch c0 tp tu d → Forall finishing ls → steps fresh marshal ls d = Some d' → in_batch c0 tp tu d'.
Proof.
  intros Hb Hls. revert d Hb. induction Hls as [|l ls Hl _ IH]; cbn; intros d Hb; [by intros [= <-]|].
  destruct (step _ _ l d) as [d1|] eqn:E; [|done]. apply IH. by eapply step_in_batch.
Qed.

Lemma batch_starts ns d :
  main d ≠ MCrashed → unregisterCh (client d) = [] → spc d = SIdle →
  let c := client d in
  ∃ d1, step fresh marshal (LBatch ns) d = Some d1 ∧
    in_batch c (post_all c ns (postalService c)) (unregistered d ++ (Original <$> missing_apps c ∅ ns)) d1.
Proof.
  intros Hm Hu Hs c. cbn. rewrite Hs. eexists. split; [done|].
  split; cbn; [done|done|done|by rewrite Hu|].
  exists ∅. split; [apply StartAddresseeBatch_tracks|]. rewrite Hu, dom_empty_L. cbn. by rewrite app_nil_r.
Qed.
End batch.
End BatchSpec.

Module PushClientProps.
Import Service PushClient AddresseeSpec Daemon DaemonSpec BatchSpec.

Lemma remove_spaces_none s : in_string " " (remove_spaces s) = false.
Proof. induction s as [|c s IH]; cbn; [done|]. case_decide; [done|]. cbn. by rewrite bool_decide_false. Qed.

Definition all_parts : list part := [PartPush; PartPostal; PartConnectivity; PartSession; PartPoller].

(** Where the starters leave off: after [k] of the five parts, with the error
    [e], or the panic [None]. *)
Definition stopped_at (h : host) (k : nat) (e : option start_err) (c : PushClient) : Prop :=
  running c = take k all_parts ∧ (e = None → machine_id h = inr "").

Definition configured (h : host) (c : PushClient) : Prop :=
  ∃ cfg, config c = Some cfg ∧ Addr cfg ≠ "" ∧ in_string " " (Addr cfg) = false ∧ running c = [].

Lemma check_triple {E} P (wrap : E → start_err) err (R : option start_err → PushClient → Prop) :
  (∀ e c, P c → R (Some e) c) → triple P (check wrap err) (λ _, P) R.
Proof. intros HR c Hc. destruct err; cbn; [by apply HR|done]. Qed.

Lemma configure_triple h :
  triple (λ c, running c = []) (configure h) (λ _, configured h) (stopped_at h 0).
Proof.
  unfold configure. eapply triple_bind; [by apply check_triple|intros []].
  intros c Hc. unfold mbind at 1, st_bind at 1, value, st_err. destruct (ReadFiles h) as [e|cfg]; cbn; [done|].
  unfold mbind, st_bind, modify; cbn. set (a := remove_spaces (Addr cfg)).
  pose proof (remove_spaces_none (Addr cfg)) as Ha. fold a in Ha.
  destruct (decide (a = "")) as [Hne|Hne]; cbn; [done|].
  destruct (click_User h); cbn; [done|]. unfold Identifier.New, Identifier.readMachineId.
  destruct (machine_id h) as [e|id] eqn:Hid; cbn; [done|].
  destruct (decide (id = "")) as [->|]; cbn; [by split|].
  destruct (decide (CertPEMFile cfg = "")); cbn; [eexists; split_and!; done|].
  unfold value, st_err. destruct (ReadFile h _) as [e|pem]; cbn; [done|].
  destruct (pem_Decode h pem); cbn; [eexists; split_and!; done|done].
Qed.

#[local] Ltac stop_after k := exists k; split; [lia|reflexivity].

(** What starting the daemon comes to. Its parts come up in one order (the
    two bus services, connectivity tracking, the session, the poller), each
    only if everything before it worked, and an error leaves the ones after
    it down. When all are up the server address is not empty and has no
    spaces, and the session and the push service identify the device the same
    way: by the base64 of the hash of the machine id's bytes. [Start] panics
    only if the machine id file is empty. *)
Theorem start_daemon h versions files :
  match Start h (NewPushClient versions files) with
  | (c, Ok _) =>
      running c = all_parts ∧
      ∃ cfg info b sc, config c = Some cfg ∧ Addr cfg ≠ "" ∧ in_string " " (Addr cfg) = false ∧
        Store.hex_decode (idder c) = Some b ∧
        deviceId c = EncodeToString (Sum224 h (String.string_of_list_ascii (val_byte <$> b))) ∧
        pushService c = Some {| RegURL := RegistrationURL cfg; ps_DeviceId := deviceId c |} ∧
        systemImageInfo c = Some info ∧
        session c = Some sc ∧ cs_DeviceId sc = deviceId c ∧ cs_Addr sc = Addr cfg ∧
        cs_Info sc = (SystemImage.Device info, SystemImage.Channel info, SystemImage.BuildNumber info) ∧
        poller c = Some (derivePollerSetup cfg)
  | (c, Err _) => ∃ k, k < 5 ∧ running c = take k all_parts
  | (c, Panic) => machine_id h = inr "" ∧ running c = []
  end.
Proof.
  unfold Start. cbn [doStart]. unfold mbind at 1, st_bind at 1.
  pose proof (configure_triple h (NewPushClient versions files) eq_refl) as Hc.
  destruct (configure h _) as [c [[]|e|]].
  2: { destruct Hc as [Hc _]. exists 0. split; [lia|done]. }
  2: { destruct Hc as [Hc Hm]. split; [by apply Hm|done]. }
  destruct Hc as (cfg & Ecfg & Hne & Hsp & Hr). destruct c as [cfg' pm idr dev inf ps po se pl rn tr un ve de].
  cbn in *. subst.
  unfold getDeviceId, setupPushService, setupPostalService, startPushService, startPostalService, takeTheBus,
    initSessionAndPoller, runPoller, mbind, st_bind, gets, modify, check, deref, value, st_err, Service.Start; cbn.
  destruct (decide (StateUnknown ≠ StateUnknown)) as [[]|_]; [done|].
  destruct (Store.hex_decode idr) as [b|] eqn:Hb; cbn; [|stop_after 0].
  destruct (url_Parse h _); cbn; [stop_after 0|].
  destruct (push_dial h); cbn; [stop_after 0|].
  destruct (postal_dial h); cbn; [stop_after 1|].
  destruct (postal_init h); cbn; [stop_after 1|].
  destruct (SystemImage.Information (si_answer h)) as [e|info]; cbn; [destruct (decide (e = SI_NO_SERVICE_ERROR)); cbn|].
  2: { stop_after 3. }
  all: match goal with |- context [NewSession ?h ?x] => destruct (NewSession h x) end; cbn; [stop_after 3|].
  all: destruct (poller_Start _); cbn; [stop_after 4|].
  all: destruct (poller_Run _); cbn; [stop_after 4|].
  all: split; [done|]; eexists _, _, _, _; split_and!; done.
Qed.

(** C28: A batch of notifications reaches the applications that are installed.
    When the client session handles a batch with the daemon as its addressee
    checker, it acknowledges the new notifications and hands on, in order,
    exactly those whose application is installed; every application that is
    missing is queued for unregistering once, and malformed ids are dropped. *)
Theorem client_batch {S} `{SeenState.SeenState S} (msg : ClientSession.serverMsg)
    (s : @ClientSession.clientSession S PushClient) ss ns :
  SeenState.FilterBySeen (ClientSession.sm_Notifications msg) (ClientSession.SeenState_ s) = (ss, Ok ns) →
  default None (head (ClientSession.writes s)) = None →
  let c := ClientSession.checker s in
  ∃ s', ClientSession.handleNotifications msg s = (s', Ok ()) ∧
  ClientSession.trace s' = ClientSession.trace s ++ ClientSession.Wrote (ClientSession.MAck "ack") :: puts c ns ∧
  unregisterCh (ClientSession.checker s') = unregisterCh c ++ missing_apps c ∅ ns ∧
  NoDup (firsts ∅ (Msg.AppId <$> ns)).
Proof.
  intros HF Hw c. unfold ClientSession.handleNotifications.
  unfold mbind at 1, st_bind at 1, st_try at 1, ClientSession.in_seen. rewrite HF. cbn -[ClientSession.forward].
  assert (ClientSession.WriteMessage (ClientSession.MAck "ack") (ClientSession.upd_SeenState ss s) =
    (ClientSession.upd_trace (ClientSession.trace s ++ [ClientSession.Wrote (ClientSession.MAck "ack")])
      (ClientSession.upd_writes (tail (ClientSession.writes s)) (ClientSession.upd_SeenState ss s)), Ok ())) as HW.
  { unfold ClientSession.WriteMessage, ClientSession.conn_op, ClientSession.next_write, mbind, st_bind. cbn.
    destruct (ClientSession.writes s) as [|[e|] ws]; done. }
  unfold mbind at 1, st_bind at 1, ClientSession.or_fail. unfold mbind at 1, st_bind at 1, st_try at 1. rewrite HW.
  cbn -[ClientSession.forward]. unfold mbind, st_bind, ClientSession.clearShouldDelay, ClientSession.modify.
  cbn -[ClientSession.forward].
  match goal with |- context [ClientSession.forward ns ?x] => 
    destruct (forward_batch ns x c ∅ (StartAddresseeBatch_tracks c) eq_refl eq_refl) as (s' & -> & Ht & Hu) end.
  exists s'. split; [done|]. cbn in Ht, Hu. rewrite Ht, <- app_assoc. rewrite dom_empty_L in Hu.
  split_and!; [done|exact Hu|]. by apply firsts_NoDup.
Qed.

(** C30: The daemon finishes every batch. From the daemon [Start] leaves, whatever
    batches, broadcasts, changes of connectivity and of the installed packages
    come, nothing panics and at most ten applications wait to be unregistered;
    the steps that work off what there is (checks, deliveries,
    unregistrations, and the session's and the poller's taking the state of
    the connection they are told) can go on for at most [weight] steps in any
    order, and they only stop when the batch is done, the queue is empty and
    the loop is back in its select: the session and the loop never wait for
    each other in vain. *)
Theorem daemon_terminates fresh marshal ls d0 d :
  ready d0 → steps fresh marshal ls d0 = Some d →
  main d ≠ MCrashed ∧ spc d ≠ SCrash ∧ length (unregisterCh (client d)) ≤ 10 ∧
  (∀ ls' d', Forall finishing ls' → steps fresh marshal ls' d = Some d' → length ls' + weight d' ≤ weight d) ∧
  ((∀ l, finishing l → step fresh marshal l d = None) → spc d = SIdle ∧ unregisterCh (client d) = [] ∧ main d = MSelect).
Proof.
  intros H0 Hs. pose proof (steps_ready _ _ _ _ _ H0 Hs) as Hr. split_and!; [by destruct Hr..| |].
  - intros ls' d' Hf. clear Hs. revert d Hr. induction Hf as [|l ls' Hl _ IH]; cbn; intros d Hr; [intros [= <-]; lia|].
    destruct (step fresh marshal l d) as [d1|] eqn:E; [|done]. cbn. intros Hs%IH; [|by eapply step_ready].
    pose proof (finishing_weight _ _ _ _ _ Hr Hl E). lia.
  - by apply finishing_progress.
Qed.

(** C29: A batch ends the same way in every interleaving. While the installed
    packages stay the same, however the checks, the deliveries and the
    unregistrations of a batch are interleaved, also with the loop's telling
    the state of the connection, when they are done the postal
    service has been given the notifications of the installed applications in
    order, each with its message id, and the push service has been asked to
    unregister every missing application of the batch once, in order. *)
Theorem daemon_batch fresh marshal ns ls d d' :
  main d ≠ MCrashed → unregisterCh (client d) = [] → spc d = SIdle →
  Forall finishing ls → steps fresh marshal (LBatch ns :: ls) d = Some d' →
  spc d' = SIdle → unregisterCh (client d') = [] →
  postalService (client d') = post_all fresh (client d) ns (postalService (client d)) ∧
  unregistered d' = unregistered d ++ (Original <$> missing_apps (client d) ∅ ns).
Proof.
  intros Hm Hu Hi Hf Hs Hi' Hu'.
  destruct (batch_starts fresh marshal ns d Hm Hu Hi) as (d1 & Hd1 & Hb).
  cbn [steps] in Hs. rewrite Hd1 in Hs. cbn in Hs.
  destruct (steps_in_batch _ _ _ _ _ _ _ _ Hb Hf Hs) as [_ _ _ _ Hspc].
  rewrite Hi', Hu' in Hspc. cbn in Hspc. by rewrite app_nil_r in Hspc.
Qed.

(** Which broadcasts the user sees. A broadcast is posted for the system
    settings, as the JSON of its last entry, exactly when that entry has a
    list that starts with a number under the image's channel and device;
    any other is dropped without an error. *)
Theorem broadcast_filtered marshal nid msg c info :
  systemImageInfo c = Some info →
  let entry := last (ClientSession.bn_Decoded msg) ≫=
    lookup_json (SystemImage.Channel info +:+ "/" +:+ SystemImage.Device info) in
  let posted := handleBroadcastNotification marshal nid msg c in
  ((∀ n e l, entry ≠ Some (JArr (JNum n e :: l))) → posted = Ok c) ∧
  (∀ n e l m, last (ClientSession.bn_Decoded msg) = Some m → entry = Some (JArr (JNum n e :: l)) →
     posted = match marshal m with
              | Some payload => Ok (upd_postal (emit (EvRun "legacy"
                  {| HelperPool.kind := ""; HelperPool.App := "_ubuntu-system-settings"; HelperPool.Package := "";
                     HelperPool.NotificationId := nid; HelperPool.Payload := payload |}) (postalService c)) c)
              | None => Err ()
              end).
Proof.
  intros Hi. cbv zeta. unfold handleBroadcastNotification, filterBroadcastNotification. rewrite Hi.
  destruct (last (ClientSession.bn_Decoded msg)) as [m|]; cbn; [|by split].
  unfold tag. destruct (lookup_json _ m) as [[| | | |[|[| |n e| | |] l]|]|]; cbn; split; try done; naive_solver.
Qed.
(** A daemon that has one package installed, and a batch for it, for a package
    that is gone (twice) and for a malformed id. *)
Definition example_client : PushClient :=
  upd_info (Some unknown_image) (NewPushClient {["com.example" := "1.0"]} ∅).
Definition example_note (app id : string) : Notification :=
  {| Msg.AppId := app; Msg.MsgId := id; Msg.Payload := "{}" |}.
Definition example_batch : list Notification :=
  [example_note "com.example_app" "m1"; example_note "com.gone_app" "m2"; example_note "com.gone_app" "m3";
   example_note "!" "m4"; example_note "com.example_app" "m5"].
Definition example_daemon : daemon := D example_client SIdle [] MSelect [] [].
Definition example_steps : list label :=
  [LCheck; LUnicast; LCheck; LCheck; LUnregister; LCheck; LCheck; LUnicast; LCheck].
Definition example_fresh (n : nat) : string := "fresh".
Definition example_marshal (m : list (string * jvalue)) : option string := Some "{}".

#[local] Existing Instance SeenState.memSeenState_SeenState.

Lemma client_batch_witness :
  let s : @ClientSession.clientSession SeenState.memSeenState PushClient :=
    ClientSession.Sess SeenState.NewSeenState example_client None 0 0 0 0 true "" 0 false "" ClientSession.Running
      false 0 0 true false 0 [] [] [] [] [] [] in
  let msg := {| ClientSession.sm_Type := "notifications"; ClientSession.sm_ChanId := ""; ClientSession.sm_AppId := "";
                ClientSession.sm_TopLevel := 0; ClientSession.sm_Payloads := [];
                ClientSession.sm_Notifications := example_batch; ClientSession.sm_Reason := "";
                ClientSession.sm_SetCookie := "" |} in
  ∃ s', ClientSession.handleNotifications msg s = (s', Ok ()) ∧
  ClientSession.trace s' =
    [ClientSession.Wrote (ClientSession.MAck "ack");
     ClientSession.PutNotification "com.example_app" (example_note "com.example_app" "m1");
     ClientSession.PutNotification "com.example_app" (example_note "com.example_app" "m5")] ∧
  (Original <$> unregisterCh (ClientSession.checker s')) = ["com.gone_app"].
Proof.
  intros s msg.
  destruct (client_batch msg s (SeenState.MemSeen ∅ (list_to_set ["m1"; "m2"; "m3"; "m4"; "m5"])) example_batch)
    as (s' & Hs & Ht & Hu & _); [vm_compute; reflexivity|reflexivity|].
  exists s'. split; [exact Hs|]. rewrite Ht, Hu. split; vm_compute; reflexivity.
Defined.

Lemma daemon_terminates_witness :
  ∃ d, steps example_fresh example_marshal (LBatch example_batch :: example_steps) example_daemon = Some d ∧
  ((∀ l, finishing l → step example_fresh example_marshal l d = None) → spc d = SIdle).
Proof.
  eexists. split; [vm_compute; reflexivity|].
  eapply (daemon_terminates example_fresh example_marshal (LBatch example_batch :: example_steps) example_daemon);
    [by split; cbn; lia || done|vm_compute; reflexivity].
Defined.

Lemma daemon_batch_witness :
  ∃ d', steps example_fresh example_marshal (LBatch example_batch :: example_steps) example_daemon = Some d' ∧
  length (events (postalService (client d'))) = 2 ∧ unregistered d' = ["com.gone_app"].
Proof.
  eexists. split; [vm_compute; reflexivity|].
  edestruct (daemon_batch example_fresh example_marshal example_batch example_steps example_daemon) as [Hp Hu];
    [discriminate|reflexivity..|by repeat constructor|vm_compute; reflexivity|reflexivity|reflexivity|].
  split; [|exact Hu]. reflexivity.
Defined.

Lemma broadcast_filtered_witness :
  handleBroadcastNotification example_marshal "nid"
    {| ClientSession.bn_TopLevel := 3; ClientSession.bn_Decoded := [[("daily/mako", JArr [JNum 101 0; JStr "stable"])]] |}
    example_client = Ok example_client.
Proof.
  apply (broadcast_filtered example_marshal "nid" _ example_client unknown_image); [reflexivity|].
  intros n e l. vm_compute. done.
Defined.
End PushClientProps.

(** ** The process (ubuntu-push-client.go) *)
Module Process.
Import PushClient.

Inductive fatal := NoConfiguration (e : string) | NoLevels (e : string) | NotStarted (e : start_err).
Inductive life := Fatal (f : fatal) | Looping (c : PushClient) | Crashed.

(** [main]: the two files' paths, what the host answers a client made of them,
    and the client whose [Loop] runs for ever. *)
Definition main (Find Ensure : string + string) (host_of : string → string → host) (versions : gmap string string)
    (desktop_files : gset string) : life :=
  match Find with
  | inl e => Fatal (NoConfiguration e)
  | inr cfgFname =>
      match Ensure with
      | inl e => Fatal (NoLevels e)
      | inr lvlFname =>
          match Start (host_of cfgFname lvlFname) (NewPushClient versions desktop_files) with
          | (c, Ok _) => Looping c
          | (_, Err e) => Fatal (NotStarted e)
          | (_, Panic) => Crashed
          end
      end
  end.
End Process.
