(* ===== verification/Hosts.v ===== *)
(** Finding hosts: [client/gethosts/gethost.go], and the MurmurHash3 digests of
    [external/murmur3/] whose 64-bit sum of the device id it sends.

    The incremental digest works against an interface, [Bmixer], that the
    32-bit and the 128-bit mixers implement. Words are [Z] with their
    wrap-around; bytes are read in little-endian order, as the source's
    pointer casts do on the machines it runs on. *)

From S2P Require Import Prelude Base64 ClientSession.

Module Murmur.
Local Open Scope Z_scope.

(** A little-endian word. *)
Definition le (bs : list Z) : Z := foldr (λ b acc, b + 256 * acc) 0 bs.

(** [(x << r) | (x >> (w - r))] *)
Definition rotl (w x r : Z) : Z := Z.lor (uN w (Z.shiftl x r)) (Z.shiftr x (w - r)).

Definition mul64 (a b : Z) : Z := u64 (a * b).
Definition add64 (a b : Z) : Z := u64 (a + b).
Definition mul32 (a b : Z) : Z := u32 (a * b).
Definition add32 (a b : Z) : Z := u32 (a + b).

(** The loop over [n] whole blocks of [size] bytes; it leaves the tail. *)
Fixpoint bmix_loop {H} (size : nat) (mix : H → list Z → H) (n : nat) (p : list Z) (h : H) : list Z * H :=
  match n with
  | O => (p, h)
  | S n => bmix_loop size mix n (drop size p) (mix h (take size p))
  end.

(** [bmixer] *)
Class Bmixer (H : Type) := {
  Size : nat;
  bmix : list Z → H → list Z * H;
  reset : H;
}.

(** What [digest] relies on. *)
Class BmixerLaws (H : Type) `{Bmixer H} := {
  Size_bounds : (0 < Size ≤ 16)%nat;
  bmix_short p h : (length p < Size)%nat → bmix p h = (p, h);
  bmix_block p q h : length p = Size → bmix (p ++ q) h = bmix q (bmix p h).2;
}.

Section digest.
Context {H : Type} `{Bmixer H}.

Record digest := Digest { clen : Z; tail : list Z; hash : H }.

Definition BlockSize : Z := 1.

Definition Reset : digest := Digest 0 [] reset.

(** [copy] into the 16 bytes of [buf] keeps at most so many. *)
Definition Write (p : list Z) (d : digest) : digest :=
  let clen := i64 (clen d + Z.of_nat (length p)) in
  let '(p, h) :=
    if decide (0 < length (tail d))%nat then
      let nfree := (Size - length (tail d))%nat in
      if decide (nfree < length p)%nat
      then (drop nfree p, (bmix (tail d ++ take nfree p) (hash d)).2)
      else (tail d ++ p, hash d)
    else (p, hash d) in
  let '(t, h) := bmix p h in
  Digest clen (take 16 t) h.
End digest.
Arguments digest : clear implicits.

(** ** 128 bits *)
Definition c1_128 : Z := 0x87c37b91114253d5.
Definition c2_128 : Z := 0x4cf5ad432745937f.

Definition mix128 (h : Z * Z) (block : list Z) : Z * Z :=
  let '(h1, h2) := h in
  let k1 := le (take 8 block) in
  let k2 := le (drop 8 block) in
  let k1 := mul64 k1 c1_128 in
  let k1 := rotl 64 k1 31 in
  let k1 := mul64 k1 c2_128 in
  let h1 := Z.lxor h1 k1 in
  let h1 := rotl 64 h1 27 in
  let h1 := add64 h1 h2 in
  let h1 := add64 (mul64 h1 5) 0x52dce729 in
  let k2 := mul64 k2 c2_128 in
  let k2 := rotl 64 k2 33 in
  let k2 := mul64 k2 c1_128 in
  let h2 := Z.lxor h2 k2 in
  let h2 := rotl 64 h2 31 in
  let h2 := add64 h2 h1 in
  let h2 := add64 (mul64 h2 5) 0x38495ab5 in
  (h1, h2).

Definition bmix128 (p : list Z) (h : Z * Z) : list Z * (Z * Z) :=
  bmix_loop 16 mix128 (length p / 16) p h.

#[export] Instance digest128 : Bmixer (Z * Z) := { Size := 16; bmix := bmix128; reset := (0, 0) }.

Definition fmix64 (k : Z) : Z :=
  let k := Z.lxor k (Z.shiftr k 33) in
  let k := mul64 k 0xff51afd7ed558ccd in
  let k := Z.lxor k (Z.shiftr k 33) in
  let k := mul64 k 0xc4ceb9fe1a85ec53 in
  Z.lxor k (Z.shiftr k 33).

(** The switch's falling through from the last byte to the first. *)
Definition xor_bytes (w : Z) (bs : list Z) : Z :=
  foldr (λ ib k, Z.lxor k (uN w (Z.shiftl ib.2 (8 * Z.of_nat ib.1)))) 0 (imap pair bs).

Definition Sum128_tail (t : list Z) (clen : Z) (h : Z * Z) : Z * Z :=
  let '(h1, h2) := h in
  let n := (length t `mod` 16)%nat in
  let h2 :=
    if decide (9 ≤ n)%nat then
      let k2 := xor_bytes 64 (drop 8 (take n t)) in
      let k2 := mul64 k2 c2_128 in
      let k2 := rotl 64 k2 33 in
      let k2 := mul64 k2 c1_128 in
      Z.lxor h2 k2
    else h2 in
  let h1 :=
    if decide (1 ≤ n)%nat then
      let k1 := xor_bytes 64 (take 8 (take n t)) in
      let k1 := mul64 k1 c1_128 in
      let k1 := rotl 64 k1 31 in
      let k1 := mul64 k1 c2_128 in
      Z.lxor h1 k1
    else h1 in
  let h1 := Z.lxor h1 (u64 clen) in
  let h2 := Z.lxor h2 (u64 clen) in
  let h1 := add64 h1 h2 in
  let h2 := add64 h2 h1 in
  let h1 := fmix64 h1 in
  let h2 := fmix64 h2 in
  let h1 := add64 h1 h2 in
  let h2 := add64 h2 h1 in
  (h1, h2).

Definition digest_Sum128 (d : digest (Z * Z)) : Z * Z := Sum128_tail (tail d) (clen d) (hash d).

Definition New128 : digest (Z * Z) := Reset.

Definition Sum128 (data : list Z) : Z * Z :=
  let '(t, h) := bmix128 data (0, 0) in
  digest_Sum128 (Digest (Z.of_nat (length data)) t h).

(** Big-endian bytes of the running, unfinished hash. *)
Definition be_bytes (n : nat) (x : Z) : list Z :=
  (λ i, Z.shiftr x (8 * Z.of_nat (n - 1 - i)) `mod` 256) <$> seq 0 n.

Definition digest128_Sum (b : list Z) (d : digest (Z * Z)) : list Z :=
  b ++ be_bytes 8 (hash d).1 ++ be_bytes 8 (hash d).2.

(** ** 64 bits: half of the 128 *)
Definition New64 : digest (Z * Z) := New128.
Definition digest_Sum64 (d : digest (Z * Z)) : Z := (digest_Sum128 d).1.
Definition digest64_Sum (b : list Z) (d : digest (Z * Z)) : list Z := b ++ be_bytes 8 (hash d).1.
Definition Sum64 (data : list Z) : Z :=
  let '(t, h) := bmix128 data (0, 0) in
  (digest_Sum128 (Digest (Z.of_nat (length data)) t h)).1.

(** ** 32 bits *)
Definition c1_32 : Z := 0xcc9e2d51.
Definition c2_32 : Z := 0x1b873593.

Definition mix32_k1 (k1 : Z) : Z := mul32 (rotl 32 (mul32 k1 c1_32) 15) c2_32.

Definition mix32 (h1 : Z) (block : list Z) : Z :=
  let k1 := mix32_k1 (le block) in
  let h1 := Z.lxor h1 k1 in
  let h1 := rotl 32 h1 13 in
  add32 (mul32 h1 5) 0xe6546b64.

Definition bmix32 (p : list Z) (h1 : Z) : list Z * Z := bmix_loop 4 mix32 (length p / 4) p h1.

#[export] Instance digest32 : Bmixer Z := { Size := 4; bmix := bmix32; reset := 0 }.

Definition Sum32_tail (t : list Z) (clen : Z) (h1 : Z) : Z :=
  let n := (length t `mod` 4)%nat in
  let h1 := if decide (1 ≤ n)%nat then Z.lxor h1 (mix32_k1 (xor_bytes 32 (take n t))) else h1 in
  let h1 := Z.lxor h1 (u32 clen) in
  let h1 := Z.lxor h1 (Z.shiftr h1 16) in
  let h1 := mul32 h1 0x85ebca6b in
  let h1 := Z.lxor h1 (Z.shiftr h1 13) in
  let h1 := mul32 h1 0xc2b2ae35 in
  Z.lxor h1 (Z.shiftr h1 16).

Definition New32 : digest Z := Reset.
Definition digest_Sum32 (d : digest Z) : Z := Sum32_tail (tail d) (clen d) (hash d).
Definition digest32_Sum (b : list Z) (d : digest Z) : list Z := b ++ be_bytes 4 (hash d).

(** [Sum32] has a loop of its own, over a pointer into the data. *)
Fixpoint Sum32_loop (n p : nat) (data : list Z) (h1 : Z) : Z :=
  match n with
  | O => h1
  | S n => Sum32_loop n (p + 4) data (mix32 h1 (take 4 (drop p data)))
  end.

Definition Sum32 (data : list Z) : Z :=
  let nblocks := (length data / 4)%nat in
  let h1 := Sum32_loop nblocks 0 data 0 in
  Sum32_tail (drop (nblocks * 4) data) (Z.of_nat (length data)) h1.
End Murmur.

Module GetHost.
Import ClientSession Murmur.

(** [fmt.Sprintf("%x", n)] of an unsigned number. *)
Definition hex_char (z : Z) : ascii :=
  ascii_of_nat (Z.to_nat (if decide (z < 10)%Z then 48 + z else 87 + z)%Z).
Fixpoint hex_string (fuel : nat) (z : Z) (acc : string) : string :=
  match fuel with
  | O => acc
  | S fuel =>
      let acc := String (hex_char (z `mod` 16)%Z) acc in
      if decide (z < 16)%Z then acc else hex_string fuel (z / 16)%Z acc
  end.

Record GetHost := { hash : string; endpointUrl : string }.

Definition New (deviceId endpointUrl : string) : GetHost :=
  {| hash := hex_string 16 (Sum64 (byte_val <$> String.list_ascii_of_string deviceId)) "";
     endpointUrl := endpointUrl |}.

Inductive host_err := ErrRequest | ErrInternal | ErrTemporary | ErrHTTP (e : string).

(** A response: its status, and its body or the error of reading it. *)
Record response := { StatusCode : Z; Body : string + string }.

Section get.
Context (cli_Get : string → string + response) (Unmarshal : string → option Host).

Definition Get (gh : GetHost) : outcome host_err Host :=
  match cli_Get (endpointUrl gh +:+ "?h=" +:+ hash gh) with
  | inl e => Err (ErrHTTP e)
  | inr resp =>
      if decide (StatusCode resp ≠ 200%Z) then
        if decide (StatusCode resp = 500%Z) then Err ErrInternal
        else if decide (500 < StatusCode resp)%Z then Err ErrTemporary
        else Err ErrRequest
      else match Body resp with
           | inl e => Err (ErrHTTP e)
           | inr body =>
               match Unmarshal body with
               | None => Err ErrTemporary
               | Some parsed => if decide (h_Hosts parsed = []) then Err ErrTemporary else Ok parsed
               end
           end
  end.
End get.
End GetHost.

Module MurmurProps.
Import Murmur.

Lemma bmix_loop_app {H} size (mix : H → list Z → H) n p q h :
  length p = n * size → bmix_loop size mix n (p ++ q) h = (q, (bmix_loop size mix n p h).2).
Proof.
  revert p h. induction n as [|n IH]; intros p h Hp; cbn.
  { by destruct p. }
  rewrite drop_app_le, take_app_le by lia. rewrite IH; [done|]. rewrite length_drop. lia.
Qed.

Lemma bmix_loop_add {H} size (mix : H → list Z → H) n k p h :
  bmix_loop size mix (n + k) p h =
  (let '(p', h') := bmix_loop size mix n p h in bmix_loop size mix k p' h').
Proof. revert p h. induction n as [|n IH]; intros p h; cbn; [done|]. apply IH. Qed.

(** Both mixers are block loops. *)
Lemma bmix_loop_block {H} size (mix : H → list Z → H) p q h :
  0 < size → length p = size →
  bmix_loop size mix (length (p ++ q) / size) (p ++ q) h
  = bmix_loop size mix (length q / size) q (bmix_loop size mix (length p / size) p h).2.
Proof.
  intros Hs Hp. rewrite length_app, Hp.
  replace ((size + length q) / size) with (1 + length q / size).
  2: { replace (size + length q) with (1 * size + length q) by lia. rewrite Nat.div_add_l by lia. lia. }
  rewrite bmix_loop_add, (bmix_loop_app _ _ 1) by lia. rewrite Nat.div_same by lia. done.
Qed.

#[export] Instance digest128_laws : BmixerLaws (Z * Z).
Proof.
  split; cbn [Size bmix digest128].
  - lia.
  - intros p h Hp. unfold bmix128. by rewrite Nat.div_small.
  - intros p q h Hp. apply bmix_loop_block; lia || done.
Qed.

#[export] Instance digest32_laws : BmixerLaws Z.
Proof.
  split; cbn [Size bmix digest32].
  - lia.
  - intros p h Hp. unfold bmix32. by rewrite Nat.div_small.
  - intros p q h Hp. apply bmix_loop_block; lia || done.
Qed.

Section digest.
Context {H : Type} `{BmixerLaws H}.

Lemma bmix_tail p h : length (bmix p h).1 < Size.
Proof.
  pose proof Size_bounds. remember (length p) as n eqn:E. revert p h E.
  induction n as [n IH] using lt_wf_ind. intros p h ->.
  destruct (decide (length p < Size)) as [Hp|Hp]; [by rewrite bmix_short|].
  rewrite <- (take_drop Size p), bmix_block by (rewrite length_take; lia).
  eapply IH; [|done]. rewrite length_drop. lia.
Qed.

(** Mixing on from the tail of a prefix. *)
Lemma bmix_resume p q h : bmix (p ++ q) h = bmix ((bmix p h).1 ++ q) (bmix p h).2.
Proof.
  pose proof Size_bounds. remember (length p) as n eqn:E. revert p h E.
  induction n as [n IH] using lt_wf_ind. intros p h ->.
  destruct (decide (length p < Size)) as [Hp|Hp]; [by rewrite (bmix_short p)|].
  rewrite <- (take_drop Size p), <- app_assoc.
  rewrite (bmix_block _ (drop Size p ++ q)), (bmix_block _ (drop Size p)) by (rewrite length_take; lia).
  eapply IH; [|done]. rewrite length_drop. lia.
Qed.

(** The digest of the data written so far. *)
Definition digests (data : list Z) (d : digest H) : Prop :=
  bmix data reset = (tail d, hash d) ∧ i64 (clen d) = i64 (Z.of_nat (length data)).

Lemma Write_digests data p d : digests data d → digests (data ++ p) (Write p d).
Proof.
  pose proof Size_bounds as HS. intros [Hb Hc].
  pose proof (bmix_tail data reset) as Ht. rewrite Hb in Ht. cbn in Ht.
  assert (∀ p' h', bmix p' h' = bmix (data ++ p) reset →
    digests (data ++ p) (let '(t, h) := bmix p' h' in
                         Digest (i64 (clen d + Z.of_nat (length p))) (take 16 t) h)) as Hend.
  { intros p' h' E. pose proof (bmix_tail p' h') as Ht'. destruct (bmix p' h') as [t h] eqn:E'. cbn in Ht'.
    split; cbn; [by rewrite take_ge by lia|].
    etrans; [apply sN_cong, sN_mod|].
    by rewrite length_app, Nat2Z.inj_add, <- sN_add_l, Hc, sN_add_l. }
  assert (bmix (data ++ p) reset = bmix (tail d ++ p) (hash d)) as Hall by (by rewrite bmix_resume, Hb).
  unfold Write. case_decide as Hpos; [case_decide as Hfree|]; apply Hend; rewrite Hall; [| done|].
  - rewrite <- (take_drop (Size - length (tail d)) p) at 3. rewrite app_assoc, (bmix_block (tail d ++ _)); [done|].
    rewrite length_app, length_take. lia.
  - by destruct (tail d); cbn in *; [|lia].
Qed.

Lemma Writes_digests data ps d : digests data d → digests (data ++ concat ps) (foldl (λ d p, Write p d) d ps).
Proof.
  revert data d. induction ps as [|p ps IH]; intros data d Hd; cbn; [by rewrite app_nil_r|].
  rewrite app_assoc. by apply IH, Write_digests.
Qed.

Lemma Reset_digests : digests [] Reset.
Proof. split; cbn; [|done]. apply bmix_short. cbn. pose proof Size_bounds. lia. Qed.
End digest.

Lemma u64_of_i64 a b : i64 a = i64 b → u64 a = u64 b.
Proof. intros E. unfold uN. by rewrite <- (sN_mod 64 a), <- (sN_mod 64 b), E. Qed.
Lemma u32_of_i64 a b : i64 a = i64 b → u32 a = u32 b.
Proof.
  intros E%u64_of_i64. unfold uN in *.
  rewrite <- (Z.mod_mod_divide a (2 ^ 64) (2 ^ 32)), <- (Z.mod_mod_divide b (2 ^ 64) (2 ^ 32)), E; [done|by exists (2 ^ 32)%Z..].
Qed.

Lemma Sum32_loop_spec n p data h :
  p + n * 4 ≤ length data →
  Sum32_loop n p data h = (bmix_loop 4 mix32 n (drop p data) h).2 ∧
  drop (p + n * 4) data = (bmix_loop 4 mix32 n (drop p data) h).1.
Proof.
  revert p h. induction n as [|n IH]; intros p h Hn; cbn; [by rewrite Nat.add_0_r|].
  rewrite drop_drop. replace (p + S (S (S (S (n * 4))))) with (p + 4 + n * 4) by lia. apply IH. lia.
Qed.

Definition bytes (s : string) : list Z := byte_val <$> String.list_ascii_of_string s.

(** The vectors of the package's tests. *)
Example murmur_vectors :
  Sum32 (bytes "hello") = 0x248bfa47%Z ∧ Sum128 (bytes "hello") = (0xcbd8a7b341bd9b02, 0x5b1e906a48ae1d19)%Z ∧
  Sum32 (bytes "19 Jan 2038 at 3:14:07 AM") = 0xe31e8a70%Z ∧
  Sum128 (bytes "19 Jan 2038 at 3:14:07 AM") = (0xb89e5988b737affc, 0x664fc2950231b2cb)%Z ∧
  Sum64 (bytes "The quick brown fox jumps over the lazy dog.") = 0xcd99481f9ee902c9%Z.
Proof. by vm_compute. Qed.

(** Hashing in pieces is hashing at once. For both mixers, however the data
    is cut into writes, the incremental digest's sum is the one-shot sum of
    the data, as the comments on [Sum128], [Sum64] and [Sum32] promise; the
    32-bit one has a loop of its own. *)
Theorem murmur_incremental (ps : list (list Z)) :
  let data := concat ps in
  digest_Sum128 (foldl (λ d p, Write p d) New128 ps) = Sum128 data ∧
  digest_Sum64 (foldl (λ d p, Write p d) New64 ps) = Sum64 data ∧
  digest_Sum32 (foldl (λ d p, Write p d) New32 ps) = Sum32 data.
Proof.
  cbv zeta.
  assert (digest_Sum128 (foldl (λ d p, Write p d) New128 ps) = Sum128 (concat ps)) as H128.
  { destruct (Writes_digests [] ps New128 Reset_digests) as [Hb Hc]. cbn [app] in *.
    unfold Sum128, digest_Sum128. cbn [bmix digest128 reset] in Hb. rewrite Hb. cbn [tail clen hash].
    unfold Sum128_tail. by rewrite (u64_of_i64 _ _ Hc). }
  split_and!; [done| |].
  - unfold digest_Sum64, New64. rewrite H128. unfold Sum64, Sum128. by destruct (bmix128 _ _).
  - destruct (Writes_digests [] ps New32 Reset_digests) as [Hb Hc]. cbn [app] in *.
    cbn [bmix digest32 reset] in Hb. unfold bmix32 in Hb.
    set (data := concat ps) in *. unfold Sum32, digest_Sum32.
    destruct (Sum32_loop_spec (length data / 4) 0 data 0) as [Hl Ht].
    { pose proof (Nat.div_mod_eq (length data) 4). lia. }
    rewrite drop_0, Hb in Hl, Ht. cbn [fst snd] in Hl, Ht. cbn [Nat.add] in Ht. rewrite Hl, Ht.
    unfold Sum32_tail. by rewrite (u32_of_i64 _ _ Hc).
Qed.
End MurmurProps.

Module GetHostProps.
Import ClientSession GetHost.

(** The hosts a session gets are never none. *)
Lemma Get_table cli_Get Unmarshal gh :
  match Get cli_Get Unmarshal gh with
  | Ok host =>
      h_Hosts host ≠ [] ∧
      ∃ body, cli_Get (endpointUrl gh +:+ "?h=" +:+ hash gh) = inr {| StatusCode := 200%Z; Body := inr body |} ∧
              Unmarshal body = Some host
  | Err _ => True
  | Panic => False
  end.
Proof.
  unfold Get. destruct (cli_Get _) as [e|[st b]] eqn:E; [done|]. cbn.
  destruct (decide (st ≠ 200%Z)) as [|Hst]; [by repeat case_decide|]. apply dec_stable in Hst. subst.
  destruct b as [|body]; [done|]. destruct (Unmarshal body) eqn:Eu; [|done]. case_decide; [done|]. eauto.
Qed.
End GetHostProps.
