(* ===== verification/Presenters.v ===== *)
(** How a notification is shown: the user's settings
    ([click/cnotificationsettings/], [bus/accounts/]), the presenters
    ([bus/notifications/raw.go], [bus/emblemcounter/], [bus/haptic/],
    [sounds/sounds.go]) and what the postal service asks before
    ([bus/windowstack/], [bus/unitygreeter/], [urldispatcher/]).

    Presenting gives the calls made, in order, and the answer; [answers] says
    which calls the other side carries out. *)

From S2P Require Import Prelude Click Nih HelperPool Postal.
Import Click Nih HelperOutput.

Module Settings.
Local Open Scope Z_scope.

(** GSettings: which schemas are installed, and the keys. *)
Record gsettings := {
  apps_schema : bool;
  silent_mode_key : bool;
  app_schema : bool;
  app_key : string → string → bool;   (** by path and key *)
}.

Definition SETTINGS_BASE_PATH : string := "/com/ubuntu/NotificationSettings/".

Definition vibrate_in_silent_mode (g : gsettings) : Z :=
  if negb (apps_schema g) then -1 else if silent_mode_key g then 1 else 0.

Definition settings_path (pkgname appname : string) : string :=
  if decide (pkgname = "") then SETTINGS_BASE_PATH +:+ "dpkg/" +:+ appname +:+ "/"
  else SETTINGS_BASE_PATH +:+ pkgname +:+ "/" +:+ appname +:+ "/".

Definition get_settings_for_app (g : gsettings) (pkgname appname : string) : option (string → bool) :=
  if app_schema g then Some (app_key g (settings_path pkgname appname)) else None.

(** The four functions of the C part differ by their key. *)
Definition can_use (key : string) (g : gsettings) (pkgname appname : string) : Z :=
  match get_settings_for_app g pkgname appname with
  | None => -1
  | Some get => if get key then 1 else 0
  end.
Definition are_notifications_enabled := can_use "enable-notifications".
Definition can_use_sounds_notify := can_use "use-sounds-notifications".
Definition can_use_vibrations_notify := can_use "use-vibrations-notifications".
Definition can_use_bubbles_notify := can_use "use-bubbles-notifications".
Definition can_use_list_notify := can_use "use-list-notifications".

Definition VibrateInSilentMode (g : gsettings) : bool := bool_decide (vibrate_in_silent_mode g ≠ 0).
Definition AreNotificationsEnabled (g : gsettings) (app : AppId) : bool :=
  bool_decide (are_notifications_enabled g (Package app) (Application app) ≠ 0).
Definition CanUseSoundsNotify (g : gsettings) (app : AppId) : bool :=
  bool_decide (can_use_sounds_notify g (Package app) (Application app) ≠ 0).
Definition CanUseVibrationsNotify (g : gsettings) (app : AppId) : bool :=
  bool_decide (can_use_vibrations_notify g (Package app) (Application app) ≠ 0).
Definition CanUseBubblesNotify (g : gsettings) (app : AppId) : bool :=
  bool_decide (can_use_bubbles_notify g (Package app) (Application app) ≠ 0).
Definition CanUseListNotify (g : gsettings) (app : AppId) : bool :=
  bool_decide (can_use_list_notify g (Package app) (Application app) ≠ 0).
End Settings.

Module Accounts.
Import Service.

Definition accountsSoundIface : string := "com.ubuntu.touch.AccountsService.Sound".

Record accounts := {
  silent : bool;
  vibrate : bool;
  vibrateSilentMode : bool;
  messageSound : string;
  cancellable : bool;   (** [cancellable != nil] *)
}.

(** [New] *)
Definition New : accounts :=
  {| silent := false; vibrate := false; vibrateSilentMode := false; messageSound := ""; cancellable := false |}.

Definition set (s v vs : bool) (ms : string) (a : accounts) : accounts :=
  {| silent := s; vibrate := v; vibrateSilentMode := vs; messageSound := ms; cancellable := cancellable a |}.

Section dirs.
Context (Dirs : list string).   (** [xdg.Data.Dirs()] *)

Definition updateSilentMode (v : dval) (a : accounts) : accounts :=
  match v with DBool b => set b (vibrate a) (vibrateSilentMode a) (messageSound a) a | _ => a end.
Definition updateVibrate (v : dval) (a : accounts) : accounts :=
  match v with DBool b => set (silent a) b (vibrateSilentMode a) (messageSound a) a | _ => a end.
Definition updateVibrateSilentMode (v : dval) (a : accounts) : accounts :=
  match v with DBool b => set (silent a) (vibrate a) b (messageSound a) a | _ => a end.

Definition ends_with_slash (s : string) : bool :=
  bool_decide (String.get (String.length s - 1) s = Some "/"%char).

(** An empty directory name makes the index negative. *)
Fixpoint strip_dir (dirs : list string) (snd : string) : outcome unit string :=
  match dirs with
  | [] => Ok snd
  | dir :: dirs =>
      if decide (dir = "") then Panic
      else
        let dir := if ends_with_slash dir then dir else dir +:+ "/" in
        if has_prefix snd dir then Ok (str_drop (String.length dir) snd) else strip_dir dirs snd
  end.

Definition updateMessageSound (v : dval) (a : accounts) : outcome unit accounts :=
  match v with
  | DStr snd =>
      match Dirs with
      | [] => Panic
      | _ :: dirs =>
          snd ← strip_dir dirs snd;
          mret (set (silent a) (vibrate a) (vibrateSilentMode a) snd a)
      end
  | _ => Ok a
  end.

Definition updater (k : string) : option (dval → accounts → outcome unit accounts) :=
  if decide (k = "SilentMode") then Some (λ v a, Ok (updateSilentMode v a))
  else if decide (k = "IncomingMessageVibrate") then Some (λ v a, Ok (updateVibrate v a))
  else if decide (k = "IncomingMessageVibrateSilentMode") then Some (λ v a, Ok (updateVibrateSilentMode v a))
  else if decide (k = "IncomingMessageSound") then Some updateMessageSound
  else None.

(** [GetAll] has answered with [props]; a property it lacks is a nil variant.
    The updaters touch different fields, so the map's order does not matter. *)
Definition update (props : option (gmap string dval)) (a : accounts) : outcome unit accounts :=
  match props with
  | None => Ok a
  | Some m =>
      let prop k := default DOther (m !! k) in
      updateMessageSound (prop "IncomingMessageSound")
        (updateVibrateSilentMode (prop "IncomingMessageVibrateSilentMode")
          (updateVibrate (prop "IncomingMessageVibrate") (updateSilentMode (prop "SilentMode") a)))
  end.

(** An argument of the PropertiesChanged signal: a string, a map with that
    many entries, a list (of strings or not), something else. *)
Inductive parg := PStr (s : string) | PMap (n : nat) | PList (l : list (option string)) | POther.

(** [all] and [get] are what the calls to [GetAll] and [Get] would answer. *)
Definition propsHandler (all : option (gmap string dval)) (get : string → option dval) (ns : list parg)
    (a : accounts) : outcome unit accounts :=
  match ns with
  | [n0; n1; n2] =>
      match n0 with
      | PStr iface =>
          if decide (iface ≠ accountsSoundIface) then Ok a
          else match n1 with
               | PMap (S _) => update all a
               | PMap 0 =>
                   match n2 with
                   | PList [] => Ok a
                   | PList [Some k] =>
                       match updater k with
                       | None => Ok a
                       | Some f => match get k with None => Ok a | Some v => f v a end
                       end
                   | PList [None] => Ok a
                   | PList _ => update all a
                   | _ => Ok a
                   end
               | _ => Ok a
               end
      | _ => Ok a
      end
  | _ => Ok a
  end.

Definition startWatch (watch_ok : bool) (a : accounts) : outcome unit accounts :=
  if negb watch_ok then Err ()
  else if cancellable a then Panic
  else Ok {| silent := silent a; vibrate := vibrate a; vibrateSilentMode := vibrateSilentMode a;
             messageSound := messageSound a; cancellable := true |}.

Definition Start (watch_ok : bool) (all : option (gmap string dval)) (a : accounts) : outcome unit accounts :=
  a ← startWatch watch_ok a; update all a.
End dirs.

Definition SilentMode (a : accounts) : bool := silent a.
Definition Vibrate (a : accounts) : bool := if silent a then vibrateSilentMode a else vibrate a.
Definition MessageSoundFile (a : accounts) : string := messageSound a.
End Accounts.

Module Path.

(** [filepath.Clean]'s elements: empty ones and dots go, a parent takes the
    element before it, at the root nothing; [out] is in reverse. *)
Fixpoint clean_elems (rooted : bool) (out : list string) (elems : list string) : list string :=
  match elems with
  | [] => out
  | e :: elems =>
      clean_elems rooted
        (if decide (e = "" ∨ e = ".") then out
         else if decide (e = "..") then
           match out with
           | [] => if rooted then [] else [".."]
           | o :: out' => if decide (o = "..") then ".." :: out else out'
           end
         else e :: out) elems
  end.

Definition rooted (path : string) : bool := has_prefix path "/".

Definition elements (path : string) : list string :=
  reverse (clean_elems (rooted path) [] (split_on "/" path)).

Fixpoint join_with (sep : string) (l : list string) : string :=
  match l with [] => "" | [s] => s | s :: l => s +:+ sep +:+ join_with sep l end.

Definition Clean (path : string) : string :=
  let es := elements path in
  if rooted path then "/" +:+ join_with "/" es
  else match es with [] => "." | _ => join_with "/" es end.

(** [filepath.Join] of two. *)
Definition Join (a b : string) : string :=
  if decide (a = "") then if decide (b = "") then "" else Clean b
  else if decide (b = "") then Clean a
  else Clean (a +:+ "/" +:+ b).

(** [strings.Contains] *)
Fixpoint contains (s sub : string) : bool :=
  has_prefix s sub || match s with EmptyString => false | String _ s => contains s sub end.
End Path.

(** The calls that presenting makes. *)
Module Calls.
Record notify := {
  app_name : string;
  icon : string;
  summary : string;
  body : string;
  actions : list string;
  hints : list (string * string);
  timeout : Z;
}.

Inductive call :=
| Notify (n : notify)
| SetProperty (name path : string) (v : Service.dval)
| VibratePattern (pattern : list Z) (repeat : Z)
| Play (file : string).

Definition presented : Type := list call * bool.
End Calls.

Module Sounds.
Import Settings Accounts Path Calls.

Record sound := {
  fallback : string;
  dataDirs : list string;
  dataFind : string → option string;
  Stat : string → bool;   (** [os.Stat] works *)
}.

Definition cleanPath (path : string) : option string :=
  let cleaned := Clean path in
  if contains cleaned "../" then None else Some cleaned.

(** The loop over the data directories after the first. *)
Fixpoint find_in (snd : sound) (dirs : list string) (s : string) : string :=
  match dirs with
  | [] => ""
  | dir :: dirs => let absPath := Join dir s in if Stat snd absPath then absPath else find_in snd dirs s
  end.

Definition findSoundFile (snd : sound) (app : AppId) (s : string) : outcome unit string :=
  match cleanPath s with
  | None => Ok ""
  | Some s =>
      match dataFind snd (Join (Package app) s) with
      | Some absPath => Ok absPath
      | None => match dataDirs snd with [] => Panic | _ :: dirs => Ok (find_in snd dirs s) end
      end
  end.

Section present.
Context (unmarshal_bool : string → option bool) (unmarshal_string : string → option string).
Context (g : gsettings) (a : accounts) (snd : sound).

Definition GetSound (app : AppId) (n : Notification) : outcome unit string :=
  if negb (CanUseSoundsNotify g app) then Ok ""
  else if SilentMode a then Ok ""
  else
    let fb := if decide (MessageSoundFile a = "") then fallback snd else MessageSoundFile a in
    let s := Sound unmarshal_bool unmarshal_string fb n in
    if decide (s = "") then Ok "" else findSoundFile snd app s.

Definition Present (answers : call → bool) (app : AppId) (n : Notification) : outcome unit presented :=
  absPath ← GetSound app n;
  if decide (absPath = "") then mret ([], false)
  else mret ([Play absPath], answers (Play absPath)).
End present.
End Sounds.

Module RawNotifications.
Import Settings Accounts Calls.

(** [marshal_action] encodes the application, the action's text and number,
    and the notification's id. *)
Section present.
Context (unmarshal_bool : string → option bool) (unmarshal_string : string → option string).
Context (marshal_action : AppId → string → nat → string → option string).
Context (symbolic_icon : AppId → outcome Click.app_err string).
Context (g : gsettings) (a : accounts) (snd : option Sounds.sound).

(** The actions come in pairs: what is sent back, and what is shown. *)
Fixpoint build_actions (app : AppId) (nid : string) (i : nat) (acts : list string) : option (list string) :=
  match acts with
  | [] => Some []
  | action :: acts =>
      act ← marshal_action app action i nid;
      rest ← build_actions app nid (S i) acts;
      Some (act :: action :: rest)
  end.

Definition no_panic {E A} (o : outcome E A) : outcome unit A :=
  match o with Ok a => Ok a | Err _ => Err () | Panic => Panic end.

Definition Present (answers : call → bool) (app : AppId) (nid : string) (n : Notification)
    : outcome unit presented :=
  if negb (CanUseBubblesNotify g app) then
    match snd with
    | Some s => Sounds.Present unmarshal_bool unmarshal_string g a s answers app n
    | None => Ok ([], false)
    end
  else
    match n_Card n with
    | None => Ok ([], false)
    | Some card =>
        if negb (Popup card) || bool_decide (Summary card = "") then Ok ([], false)
        else
          sym ← no_panic (symbolic_icon app);
          soundFile ← match snd with
                      | Some s => Sounds.GetSound unmarshal_bool unmarshal_string g a s app n
                      | None => Ok ""
                      end;
          match build_actions app nid 0 (Actions card) with
          | None => Ok ([], false)
          | Some actions =>
              let call := Notify {|
                app_name := Original app; icon := Icon card; summary := Summary card; body := Body card;
                actions := take 2 actions;
                hints := [("x-canonical-secondary-icon", sym)]
                         ++ (if decide (soundFile = "") then [] else [("sound-file", soundFile)])
                         ++ (match Actions card with [] => [] | _ => [("x-canonical-switch-to-application", "true")] end);
                timeout := 30 * 1000 |} in
              Ok ([call], answers call)
          end
    end.
End present.

(** [ActionInvoked]: what is sent on, if anything. [null] in JSON leaves a nil
    pointer, which the next assignment dereferences. *)
Inductive sig_arg := SUint32 (n : Z) | SString (s : string) | SOther.

Definition action_invoked {A} (Unmarshal : string → option (option A)) (ns : list sig_arg)
    : outcome unit (option (Z * A)) :=
  match ns with
  | [SUint32 rawId; SString encodedAction] =>
      match Unmarshal encodedAction with
      | None => Ok None
      | Some None => Panic
      | Some (Some action) => Ok (Some (rawId, action))
      end
  | _ => Ok None
  end.
End RawNotifications.

Module EmblemCounters.
Import Service Calls.

Definition SetCounter (answers : call → bool) (app : AppId) (count : Z) (visible : bool) : presented :=
  let path := "/" +:+ Quote (Base app) in
  let c1 := SetProperty "count" path (DInt32 count) in
  let c2 := SetProperty "countVisible" path (DBool visible) in
  if answers c1 then ([c1; c2], answers c2) else ([c1], false).

Definition Present (answers : call → bool) (app : AppId) (n : Notification) : presented :=
  match n_EmblemCounter n with
  | None => ([], false)
  | Some ec => SetCounter answers app (Count ec) (Visible ec)
  end.
End EmblemCounters.

Module Haptic.
Import Settings Accounts Calls.

Section present.
Context (unmarshal_bool : string → option bool) (unmarshal_vibration : string → option Vibration).
Context (g : gsettings) (a : accounts) (fallback : option Vibration).

Definition Present (answers : call → bool) (app : AppId) (n : Notification) : presented :=
  if negb (CanUseVibrationsNotify g app) then ([], false)
  else if SilentMode a && negb (VibrateInSilentMode g) then ([], false)
  else if negb (Vibrate a) then ([], false)
  else match Vibration_ unmarshal_bool unmarshal_vibration fallback n with
       | None => ([], false)
       | Some vib =>
           let repeat := if decide (Repeat vib = 0%Z) then 1%Z else Repeat vib in
           match Pattern vib with
           | [] => ([], false)
           | _ => let c := VibratePattern (Pattern vib) repeat in ([c], answers c)
           end
       end.
End present.
End Haptic.

(** ** What the postal service asks *)
Module Desktop.

Record WindowsInfo := { WindowId : Z; w_AppId : string; Focused : bool; Stage : Z }.

(** An error of the call leaves the stack empty. *)
Definition GetWindowStack (answer : option (list WindowsInfo)) : list WindowsInfo := default [] answer.

Fixpoint app_focused (wstack : list WindowsInfo) (app : AppId) : bool :=
  match wstack with
  | [] => false
  | winfo :: wstack =>
      if Focused winfo && bool_decide (w_AppId winfo = Base app) then true else app_focused wstack app
  end.
Definition IsAppFocused (answer : option (list WindowsInfo)) (app : AppId) : bool :=
  app_focused (GetWindowStack answer) app.

(** The property, its error, or a value that is no bool. *)
Definition IsActive (result : option (option bool)) : outcome unit bool :=
  match result with None => Ok false | Some None => Panic | Some (Some b) => Ok b end.

Fixpoint all_versioned (appIds : list string) (app : AppId) : outcome Click.app_err bool :=
  match appIds with
  | [] => mret true
  | appId :: appIds =>
      v ← Versioned app;
      if decide (appId = v) then all_versioned appIds app else mret false
  end.

Definition TestURL (cTestURL : list string → list string) (app : AppId) (urls : list string)
    : outcome Click.app_err bool :=
  match cTestURL urls with
  | [] => Versioned app;; mret false   (** for the log *)
  | appIds => all_versioned appIds app
  end.

Definition DispatchURL (cDispatchURL : string → string → option string) (url : string) (app : AppId)
    : option string := cDispatchURL url (DispatchPackage app).
End Desktop.

Module PathSpec.
Import Path.

(** An element that names something. *)
Definition name (e : string) : Prop := e ≠ "" ∧ e ≠ "." ∧ e ≠ ".." ∧ in_string "/" e = false.

Lemma split_on_elems c s : Forall (λ e, in_string c e = false) (split_on c s).
Proof.
  induction s as [|a s IH]; cbn; [by constructor|]. case_decide as Ha; [by constructor|].
  destruct (split_on c s) as [|h t].
  - constructor; [|done]. cbn. by rewrite bool_decide_false.
  - apply Forall_cons in IH as [Hh Ht]. constructor; [|done]. cbn. by rewrite bool_decide_false.
Qed.

(** What has been kept: names, over parents if the path is relative. *)
Lemma clean_elems_shape r out elems :
  Forall (λ e, in_string "/" e = false) elems →
  (∃ k ns, out = ns ++ replicate k ".." ∧ Forall name ns ∧ (r = true → k = 0)) →
  ∃ k ns, clean_elems r out elems = ns ++ replicate k ".." ∧ Forall name ns ∧ (r = true → k = 0).
Proof.
  intros He. revert out. induction He as [|e elems Hs _ IH]; intros out Hout; cbn; [done|].
  apply IH. clear IH. destruct Hout as (k & ns & -> & Hns & Hk).
  repeat case_decide.
  - by exists k, ns.
  - destruct ns as [|n ns]; cbn.
    + destruct k as [|k]; cbn.
      * destruct r; [by exists 0, []|]. by exists 1, [].
      * exists (S (S k)), []. split; [done|]. split; [done|]. by intros ?%Hk.
    + apply Forall_cons in Hns as [Hn Hns]. destruct Hn as (_ & _ & Hn & _).
      rewrite decide_False by done. by exists k, ns.
  - exists k, (e :: ns). split; [done|]. split; [|done]. constructor; [|done]. split_and!; tauto.
Qed.

Lemma elements_shape path :
  ∃ k ns, elements path = replicate k ".." ++ ns ∧ Forall name ns ∧ (rooted path = true → k = 0).
Proof.
  destruct (clean_elems_shape (rooted path) [] (split_on "/" path)) as (k & ns & E & Hns & Hk).
  - apply split_on_elems.
  - by exists 0, [].
  - exists k, (reverse ns). unfold elements. rewrite E, reverse_app, reverse_replicate.
    split_and!; [done| |done]. by apply Forall_reverse.
Qed.

Lemma clean_elems_names r out es : Forall name es → clean_elems r out es = reverse es ++ out.
Proof.
  intros Hes. revert out. induction Hes as [|e es (H1 & H2 & H3 & _) _ IH]; intros out; cbn [clean_elems]; [done|].
  rewrite decide_False by tauto. rewrite decide_False by done.
  rewrite IH, reverse_cons. by rewrite <- app_assoc.
Qed.

(** Splitting what was joined, up to the empty elements and the dots. *)
Lemma split_join es : es ≠ [] → Forall name es → split_on "/" (join_with "/" es) = es.
Proof.
  intros Hne Hes. induction Hes as [|e es (_ & _ & _ & He) Hes IH]; [done|].
  destruct es as [|e' es]; [by apply split_on_none|].
  change (join_with "/" (e :: e' :: es)) with (e +:+ String "/" ("" +:+ join_with "/" (e' :: es))).
  rewrite str_app_nil, split_on_app by done. by rewrite IH by discriminate.
Qed.

Lemma rooted_app p s : p ≠ "" → in_string "/" p = false → rooted (p +:+ s) = false.
Proof.
  destruct p as [|c p]; [done|]. intros _ H. rewrite str_app_cons. unfold rooted, has_prefix. cbn in *.
  apply orb_false_iff in H as [H _]. apply bool_decide_eq_false in H.
  case_match; [congruence|done].
Qed.

Lemma Clean_nonempty s : Clean s ≠ "".
Proof.
  unfold Clean. destruct (rooted s) eqn:Hr; [done|].
  destruct (elements_shape s) as (k & ns & -> & Hns & _).
  destruct k as [|k]; cbn; [|by destruct (replicate k ".." ++ ns)].
  destruct ns as [|n ns]; [done|]. apply Forall_cons in Hns as [(Hn & _) _].
  cbn. destruct n; [done|]. by destruct ns.
Qed.

(** Joining a name and a cleaned path with no parents in it. *)
Lemma Join_names p s :
  name p → (∃ ns, Forall name ns ∧ (Clean s = join_with "/" ns ∧ ns ≠ [] ∨ Clean s = "." ∧ ns = [] ∨
                                    Clean s = "/" +:+ join_with "/" ns)) →
  ∃ ns, Forall name ns ∧ Join p (Clean s) = join_with "/" (p :: ns).
Proof.
  intros Hp (ns & Hns & Hs). exists ns. split; [done|].
  destruct Hp as (Hp1 & Hp2 & Hp3 & Hp4).
  unfold Join. rewrite decide_False by done. rewrite decide_False by apply Clean_nonempty.
  unfold Clean at 1. rewrite rooted_app by done. unfold elements. rewrite rooted_app by done.
  change ("/" +:+ Clean s) with (String "/" (Clean s)). rewrite split_on_app by done.
  assert (clean_elems false [p] (split_on "/" (Clean s)) = reverse (p :: ns)) as E.
  { destruct Hs as [[-> Hne]|[[-> ->]| ->]].
    - rewrite split_join, clean_elems_names, reverse_cons by done. done.
    - done.
    - change ("/" +:+ join_with "/" ns) with ("" +:+ String "/" (join_with "/" ns)). rewrite split_on_app by done.
      cbn [clean_elems]. rewrite decide_True by tauto. destruct ns as [|n ns].
      + done.
      + rewrite split_join, clean_elems_names by done. by rewrite (reverse_cons (n :: ns)). }
  cbn [clean_elems]. rewrite decide_False by tauto. rewrite decide_False by done. rewrite E, reverse_involutive.
  done.
Qed.
End PathSpec.

Module PresenterProps.
Import Settings Accounts Calls Path PathSpec.

Lemma contains_prefix s sub : has_prefix s sub = true → contains s sub = true.
Proof. intros H. destruct s; cbn [contains]; by rewrite H. Qed.

(** Sounds stay in the application's directory. For an application whose
    package is a plain name, a sound that [cleanPath] accepts is looked up at
    the package's name followed by plain names only, so it cannot reach
    another package's files, except for the path that cleans to "..", which
    passes the check and names the directory above. *)
Theorem sound_path_confined pkg path cleaned :
  name pkg → Sounds.cleanPath path = Some cleaned →
  (cleaned ≠ ".." → ∃ ns, Forall name ns ∧ Join pkg cleaned = join_with "/" (pkg :: ns)) ∧
  (cleaned = ".." → Join pkg cleaned = ".").
Proof.
  intros Hpkg. unfold Sounds.cleanPath. destruct (contains (Clean path) "../") eqn:Hc; [done|].
  intros [= <-]. split.
  - intros Hdd. apply Join_names; [done|].
    destruct (elements_shape path) as (k & ns & E & Hns & Hk).
    exists ns. split; [done|]. unfold Clean in *. rewrite E in *.
    destruct (rooted path).
    { rewrite Hk in * by done. cbn. right. by right. }
    destruct k as [|k].
    { cbn in *. destruct ns as [|n ns]; [by right; left|]. by left. }
    exfalso. cbn in Hc, Hdd. destruct (replicate k ".." ++ ns) as [|e es]; [done|].
    rewrite contains_prefix in Hc; [done|].
    change (".." +:+ "/" +:+ join_with "/" (e :: es)) with ("../" +:+ join_with "/" (e :: es)).
    apply prefix_app.
  - intros ->. destruct Hpkg as (H1 & H2 & H3 & H4). unfold Join. rewrite !decide_False by done.
    unfold Clean. rewrite rooted_app by done. unfold elements. rewrite rooted_app by done.
    change ("/" +:+ "..") with (String "/" ".."). rewrite split_on_app by done. cbn [clean_elems].
    rewrite decide_False by tauto. rewrite decide_False by done.
    change (split_on "/" "..") with [".."]. cbn [clean_elems]. rewrite decide_False by (by intros [|]).
    rewrite decide_True by done. by rewrite decide_False by done.
Qed.

Lemma sound_path_confined_witness :
  Sounds.cleanPath "sounds//./ping.ogg" = Some "sounds/ping.ogg" ∧
  ∃ ns, Forall name ns ∧ Join "com.example" "sounds/ping.ogg" = join_with "/" ("com.example" :: ns).
Proof.
  split; [by vm_compute|].
  apply (sound_path_confined "com.example" "sounds//./ping.ogg" "sounds/ping.ogg"); [by split_and!|by vm_compute|done].
Defined.

Section settings.
Context (unmarshal_bool : string → option bool) (unmarshal_string : string → option string)
  (unmarshal_vibration : string → option Vibration)
  (marshal_action : AppId → string → nat → string → option string)
  (symbolic_icon : AppId → outcome Click.app_err string).
Context (g : gsettings) (a : accounts).

Lemma GetSound_allowed snd app n f :
  Sounds.GetSound unmarshal_bool unmarshal_string g a snd app n = Ok f → f ≠ "" →
  CanUseSoundsNotify g app = true ∧ silent a = false.
Proof.
  unfold Sounds.GetSound, SilentMode. destruct (CanUseSoundsNotify g app); cbn; [|congruence].
  destruct (silent a); [congruence|done].
Qed.

Lemma build_actions_length app nid i acts l :
  RawNotifications.build_actions marshal_action app nid i acts = Some l → length l = 2 * length acts.
Proof.
  revert i l. induction acts as [|x acts IH]; intros i l; cbn; [by intros [= <-]|].
  destruct (marshal_action _ _ _ _); [|done]. cbn.
  destruct (RawNotifications.build_actions _ _ _ _ _) eqn:E; [|done]. cbn. intros [= <-]. cbn.
  apply IH in E. lia.
Qed.

(** The three outcomes of [Present]: nothing, a sound, a bubble. *)
Lemma raw_present_cases snd answers app nid n calls shown :
  RawNotifications.Present unmarshal_bool unmarshal_string marshal_action symbolic_icon g a snd answers app nid n
    = Ok (calls, shown) →
  calls = [] ∧ shown = false ∨
  (∃ f, calls = [Play f] ∧ shown = answers (Play f) ∧ CanUseSoundsNotify g app = true ∧ silent a = false) ∨
  (∃ nt card, calls = [Notify nt] ∧ shown = answers (Notify nt) ∧ CanUseBubblesNotify g app = true ∧
     n_Card n = Some card ∧ Popup card = true ∧ Summary card ≠ "" ∧ summary nt = Summary card ∧
     app_name nt = Original app ∧ length (actions nt) ≤ 2 ∧
     (∀ f, ("sound-file", f) ∈ hints nt → CanUseSoundsNotify g app = true ∧ silent a = false)).
Proof.
  unfold RawNotifications.Present, Sounds.Present. destruct (CanUseBubblesNotify g app) eqn:Hb; cbn [negb].
  - destruct (n_Card n) as [card|] eqn:Ec; [|intros [= <- <-]; by left].
    destruct (Popup card) eqn:Ep; cbn; [|intros [= <- <-]; by left].
    case_bool_decide as Hs; cbn; [intros [= <- <-]; by left|].
    destruct (RawNotifications.no_panic _); cbn; [|done..].
    destruct (match snd with Some s => _ | None => _ end) as [f| |] eqn:E; cbn; [|done..].
    destruct (RawNotifications.build_actions _ _ _ _ _) eqn:Eb; intros [= <- <-]; [|by left].
    right; right. eexists _, card. split_and!; try done; [unfold actions; rewrite length_take; lia|]. unfold hints.
    intros f'. rewrite !elem_of_cons, !elem_of_app. case_decide as Hf.
    { intros [[=]|[[]%elem_of_nil|Hin]]. destruct (Actions card); set_solver. }
    intros [[=]|[_|Hin]]; [|destruct (Actions card); set_solver].
    destruct snd as [s|]; [by apply (GetSound_allowed s app n f)|congruence].
  - destruct snd as [s|]; [|intros [= <- <-]; by left].
    destruct (Sounds.GetSound _ _ _ _ _ _ _) as [f| |] eqn:E; cbn; [|done..].
    case_decide as Hf; intros [= <- <-]; [by left|]. right; left. exists f. split; [done|]. split; [done|].
    by apply (GetSound_allowed s app n f).
Qed.

Lemma haptic_present_cases fallback answers app n :
  match Haptic.Present unmarshal_bool unmarshal_vibration g a fallback answers app n with
  | ([], b) => b = false
  | ([VibratePattern p r], b) =>
      CanUseVibrationsNotify g app = true ∧ Vibrate a = true ∧ (SilentMode a = true → VibrateInSilentMode g = true) ∧
      p ≠ [] ∧ r ≠ 0%Z ∧ b = answers (VibratePattern p r)
  | _ => False
  end.
Proof.
  unfold Haptic.Present. destruct (CanUseVibrationsNotify g app); cbn; [|done].
  destruct (SilentMode a && negb (VibrateInSilentMode g)) eqn:Es; [done|].
  destruct (Vibrate a); cbn; [|done]. destruct (Vibration_ _ _ _ n) as [vib|]; [|done].
  destruct (Pattern vib) eqn:Ep; [done|]. split_and!; [done..| |done| |done].
  - intros Hsil. rewrite Hsil in Es. by destruct (VibrateInSilentMode g).
  - case_decide; lia.
Qed.

(** C36: The user's settings are respected. Whatever the notification, a sound
    is played, or a sound file given to a bubble, only when the application
    may use sounds and the device is not silent; a bubble appears only when
    the application may use bubbles, for a popup card with a summary, with at
    most one action; the device vibrates only when the application may
    vibrate, vibration is on for the present mode and, in silent mode, allowed
    there; and a notification makes at most one of these calls each. *)
Theorem settings_respected snd answers fallback app nid n calls shown :
  RawNotifications.Present unmarshal_bool unmarshal_string marshal_action symbolic_icon g a snd answers app nid n
    = Ok (calls, shown) →
  length calls ≤ 1 ∧
  (∀ f, Play f ∈ calls → CanUseSoundsNotify g app = true ∧ SilentMode a = false) ∧
  (∀ nt, Notify nt ∈ calls →
     CanUseBubblesNotify g app = true ∧ app_name nt = Original app ∧ length (actions nt) ≤ 2 ∧
     (∃ card, n_Card n = Some card ∧ Popup card = true ∧ Summary card ≠ "" ∧ summary nt = Summary card) ∧
     (∀ f, ("sound-file", f) ∈ hints nt → CanUseSoundsNotify g app = true ∧ SilentMode a = false)) ∧
  (shown = true → ∃ c, calls = [c] ∧ answers c = true) ∧
  match Haptic.Present unmarshal_bool unmarshal_vibration g a fallback answers app n with
  | ([], b) => b = false
  | ([VibratePattern p r], b) =>
      CanUseVibrationsNotify g app = true ∧ Vibrate a = true ∧ (SilentMode a = true → VibrateInSilentMode g = true) ∧
      p ≠ [] ∧ r ≠ 0%Z ∧ b = answers (VibratePattern p r)
  | _ => False
  end.
Proof.
  intros HP%raw_present_cases. pose proof (haptic_present_cases fallback answers app n) as HV. unfold SilentMode in *.
  destruct HP as [[-> ->]|[(f & -> & -> & ? & ?)|(nt & card & -> & -> & ? & ? & ? & ? & ? & ? & ? & ?)]];
    (split; [cbn; lia|]); (split; [|split; [|split; [|exact HV]]]).
  - by intros f ?%elem_of_nil.
  - by intros nt ?%elem_of_nil.
  - done.
  - by intros f' _.
  - by intros nt ?%list_elem_of_singleton.
  - intros Hs. by exists (Play f).
  - by intros f ?%list_elem_of_singleton.
  - intros nt' Hn%list_elem_of_singleton. injection Hn as ->. split_and!; [done..| |done]. by exists card.
  - intros Hs. by exists (Notify nt).
Qed.
End settings.

(** The example's schemas are missing, which allows everything. *)
Lemma settings_respected_witness :
  let g := {| apps_schema := false; silent_mode_key := false; app_schema := false; app_key := λ _ _, false |} in
  let app := {| Package := "com.example"; Application := "app"; Version := "1.0"; Click := true;
                original := "com.example_app" |} in
  let card := {| Summary := "hello"; Body := ""; Actions := ["a://"; "b://"]; Icon := ""; RawTimestamp := 0;
                 Persist := false; Popup := true |} in
  let n := {| n_Card := Some card; RawSound := None; RawVibration := None; n_EmblemCounter := None; Tag := "" |} in
  ∃ calls shown,
    RawNotifications.Present (λ _, None) (λ _, None) (λ _ s _ _, Some s) (λ _, Ok "icon") g Accounts.New None
      (λ _, true) app "nid" n = Ok (calls, shown) ∧ shown = true ∧ length calls ≤ 1.
Proof.
  intros g app card n.
  set (p := RawNotifications.Present _ _ _ _ _ _ _ _ _ _ _).
  assert (∃ nt, p = Ok ([Notify nt], true)) as [nt E] by (eexists; vm_compute; reflexivity).
  exists [Notify nt], true. split; [exact E|]. split; [reflexivity|].
  exact (proj1 (settings_respected (λ _, None) (λ _, None) (λ _, None) (λ _ s _ _, Some s) (λ _, Ok "icon") g
    Accounts.New None (λ _, true) None app "nid" n _ _ E)).
Defined.
End PresenterProps.
