(* ===== verification/Messaging.v ===== *)
(** Persistent notifications: [messaging/messaging.go], with the glue to
    libmessaging-menu ([messaging/cmessaging/], [messaging/reply/]).

    [MessagingMenu] keeps a table of the cards it posted, by notification id;
    the library's menu, where the user dismisses them, is an interface with
    the laws of a table of messages per application. The specification is the
    set of cards that are in both, and what becomes of the menu itself. *)

From S2P Require Import Prelude Click HelperPool Presenters.
Import Click HelperOutput.

Module Messaging.

Record Payload := { p_Actions : list string; p_App : AppId; p_Tag : string }.

(** A message of the library, with the payload that its activation hands
    back. *)
Record message := {
  m_id : string; m_icon : string; m_summary : string; m_body : string; m_time : Z; m_obj : Payload;
}.

(** The messages the library shows, by desktop id and message id. *)
Class MenuLib (W : Type) := {
  add_notification : string → message → W → W;
  remove_notification : string → string → W → W;
  message_of : string → string → W → option message;
}.

(** A message that is there already under the same id: which of the two the
    library keeps is left open. *)
Class MenuLaws (W : Type) `{MenuLib W} := {
  of_add_new d m w :
    message_of d (m_id m) w = None → message_of d (m_id m) (add_notification d m w) = Some m;
  of_add_again d m w :
    is_Some (message_of d (m_id m) w) → is_Some (message_of d (m_id m) (add_notification d m w));
  of_add_other d m d' n' w :
    ¬ (d = d' ∧ m_id m = n') → message_of d' n' (add_notification d m w) = message_of d' n' w;
  of_remove d n d' n' w :
    message_of d' n' (remove_notification d n w) = if decide (d = d' ∧ n = n') then None else message_of d' n' w;
}.

Definition notification_exists {W} `{MenuLib W} (d n : string) (w : W) : bool :=
  bool_decide (is_Some (message_of d n w)).

Lemma exists_add {W} `{MenuLaws W} d m d' n' w :
  notification_exists d' n' (add_notification d m w)
  = bool_decide (d = d' ∧ m_id m = n') || notification_exists d' n' w.
Proof.
  unfold notification_exists. rewrite <- bool_decide_or. apply bool_decide_ext.
  destruct (decide (d = d' ∧ m_id m = n')) as [[<- <-]|Hne].
  - split; [by left|]. intros _. destruct (message_of d (m_id m) w) eqn:E; [|by rewrite of_add_new].
    by apply of_add_again; rewrite E.
  - rewrite of_add_other by done. split; [by right|]. by intros [?|?].
Qed.

Lemma exists_remove {W} `{MenuLaws W} d n d' n' w :
  notification_exists d' n' (remove_notification d n w)
  = negb (bool_decide (d = d' ∧ n = n')) && notification_exists d' n' w.
Proof.
  unfold notification_exists. rewrite of_remove, <- bool_decide_not, <- bool_decide_and. apply bool_decide_ext.
  case_decide; [|tauto]. split; [by intros [??]|tauto].
Qed.

Record MMActionReply := { Notification_id : string; r_Action : string; r_App : AppId }.

(** The default action is the first one's text. *)
Definition handleActivate (action notification : string) (payload : Payload) : MMActionReply :=
  let action := if bool_decide (action = "") && bool_decide (2 ≤ length (p_Actions payload))
                then default "" (p_Actions payload !! 1) else action in
  {| Notification_id := notification; r_Action := action; r_App := p_App payload |}.

Section menu.
Context {W : Type} `{MenuLib W}.

Record MessagingMenu := Mmu {
  notifications : gmap string Payload;
  lastCleanupTime : option Z;   (** [None] is the zero time *)
  spawned : nat;                (** clean-ups started and not run yet *)
  menu : W;
}.

Definition New (w : W) : MessagingMenu := Mmu ∅ None 0 w.

Definition M A := outcome app_err (MessagingMenu * A).

Definition Minute : Z := 60 * 1000000000.

(** At time [now]; a difference to the zero time is as long as can be. *)
Definition stale (now : Z) (m : MessagingMenu) : bool :=
  match lastCleanupTime m with None => true | Some t => bool_decide (10 * Minute < now - t)%Z end.

(** The message of a card; its time is in microseconds, as a [gint64]. *)
Definition card_message (now : Z) (notificationId : string) (card : Card) (payload : Payload) : message :=
  {| m_id := notificationId; m_icon := Icon card; m_summary := Summary card; m_body := Body card;
     m_time := i64 (Timestamp (now `div` 1000000000) card * 1000000)%Z; m_obj := payload |}.

Definition addNotification (now : Z) (app : AppId) (notificationId tag : string) (card : Card) (actions : list string)
    (m : MessagingMenu) : outcome app_err MessagingMenu :=
  let payload := {| p_Actions := actions; p_App := app; p_Tag := tag |} in
  let ns := <[notificationId := payload]> (notifications m) in
  d ← DesktopId app;
  let m := Mmu ns (lastCleanupTime m) (spawned m) 
    (add_notification d (card_message now notificationId card payload) (menu m)) in
  mret (if bool_decide (20 < size ns) && stale now m
        then Mmu ns (Some now) (S (spawned m)) (menu m) else m).

Definition RemoveNotification (notificationId : string) (fromUI : bool) (m : MessagingMenu)
    : outcome app_err MessagingMenu :=
  let ns := delete notificationId (notifications m) in
  match notifications m !! notificationId with
  | Some payload =>
      if fromUI then
        d ← DesktopId (p_App payload);
        mret (Mmu ns (lastCleanupTime m) (spawned m) (remove_notification d notificationId (menu m)))
      else mret (Mmu ns (lastCleanupTime m) (spawned m) (menu m))
  | None => mret (Mmu ns (lastCleanupTime m) (spawned m) (menu m))
  end.

(** A desktop id, for the table's payloads, whose applications have one. *)
Definition did (p : Payload) : string := match DesktopId (p_App p) with Ok d => d | _ => "" end.
Definition has_did (p : Payload) : Prop := is_ok (DesktopId (p_App p)) = true.

(** It asks for every payload's desktop id, in any order. *)
Definition doCleanUpNotifications (m : MessagingMenu) : outcome app_err MessagingMenu :=
  if decide (map_Forall (λ _, has_did) (notifications m)) then
    Ok (Mmu (filter (λ np, notification_exists (did np.2) np.1 (menu m) = true) (notifications m))
          (lastCleanupTime m) (spawned m) (menu m))
  else Panic.

(** The goroutine's turn. *)
Definition cleanUpNotifications (m : MessagingMenu) : outcome app_err MessagingMenu := doCleanUpNotifications m.
Definition run_spawned (m : MessagingMenu) : option (outcome app_err MessagingMenu) :=
  match spawned m with
  | O => None
  | S n => Some (cleanUpNotifications (Mmu (notifications m) (lastCleanupTime m) n (menu m)))
  end.

Definition tags_of (orig : string) (ns : gmap string Payload) : list string :=
  map_to_list ns ≫= λ np, if decide (Original (p_App np.2) = orig) then [p_Tag np.2] else [].

Definition Tags (now : Z) (app : AppId) (m : MessagingMenu) : M (list string) :=
  m ← doCleanUpNotifications (Mmu (notifications m) (Some now) (spawned m) (menu m));
  mret (m, tags_of (Original app) (notifications m)).

(** Once for every given tag that matches. *)
Definition matches (orig : string) (tags : list string) (np : string * Payload) : list string :=
  if decide (Original (p_App np.2) = orig) then
    match tags with
    | [] => [np.1]
    | _ => tags ≫= λ tag, if decide (p_Tag np.2 = tag) then [np.1] else []
    end
  else [].

Fixpoint remove_all (nids : list string) (m : MessagingMenu) : outcome app_err MessagingMenu :=
  match nids with
  | [] => Ok m
  | nid :: nids => m ← RemoveNotification nid true m; remove_all nids m
  end.

Definition Clear (app : AppId) (tags : list string) (m : MessagingMenu) : M nat :=
  let nids := map_to_list (notifications m) ≫= matches (Original app) tags in
  m ← remove_all nids m;
  m ← cleanUpNotifications m;
  mret (m, length nids).

Section present.
Context (marshal_action : AppId → string → nat → string → option string) (g : Settings.gsettings).

Definition Present (now : Z) (app : AppId) (nid : string) (n : Notification) (m : MessagingMenu) : M bool :=
  if negb (Settings.CanUseListNotify g app) then Ok (m, false)
  else match n_Card n with
       | None => Ok (m, false)
       | Some card =>
           if negb (Persist card) || bool_decide (Summary card = "") then Ok (m, false)
           else match RawNotifications.build_actions marshal_action app nid 0 (Actions card) with
                | None => Ok (m, false)
                | Some actions =>
                    m ← addNotification now app nid (Tag n) card actions m; mret (m, true)
                end
       end.
End present.
End menu.
Arguments MessagingMenu : clear implicits.
End Messaging.

(** The cards a user can see and the daemon knows of. *)
Module MessagingSpec.
Import Messaging.

Section spec.
Context {W : Type} `{MenuLaws W}.
Abbreviation mmu := (MessagingMenu W).

Definition shown_in (ns : gmap string Payload) (w : W) : gmap string Payload :=
  filter (λ np, notification_exists (did np.2) np.1 w = true) ns.
Definition shown (m : mmu) : gmap string Payload := shown_in (notifications m) (menu m).

Lemma shown_lookup (m : mmu) nid p :
  shown m !! nid = Some p ↔ notifications m !! nid = Some p ∧ notification_exists (did p) nid (menu m) = true.
Proof. unfold shown, shown_in. by rewrite map_lookup_filter_Some. Qed.

Lemma doCleanUp_shown (m m' : mmu) :
  doCleanUpNotifications m = Ok m' → shown m' = shown m ∧ notifications m' = shown m ∧ menu m' = menu m.
Proof.
  unfold doCleanUpNotifications. case_decide; [|done]. intros [= <-]. split; [|done].
  unfold shown, shown_in. cbn. rewrite map_filter_filter. apply map_filter_ext. naive_solver.
Qed.

(** What the removal of a card does to the library's menu. *)
Definition removed_from_menu (nid : string) (ns : gmap string Payload) (d n : string) (w : W) : option message :=
  if decide (n = nid ∧ did <$> ns !! nid = Some d) then None else message_of d n w.

Lemma RemoveNotification_shown nid fromUI (m m' : mmu) :
  RemoveNotification nid fromUI m = Ok m' →
  shown m' = delete nid (shown m) ∧ notifications m' = delete nid (notifications m) ∧
  ∀ d n, message_of d n (menu m') =
    if fromUI then removed_from_menu nid (notifications m) d n (menu m) else message_of d n (menu m).
Proof.
  unfold RemoveNotification. intros Hr.
  assert (∃ w, m' = Mmu (delete nid (notifications m)) (lastCleanupTime m) (spawned m) w ∧
    ∀ d n, message_of d n w =
      if fromUI then removed_from_menu nid (notifications m) d n (menu m) else message_of d n (menu m)) as (w & -> & Hw).
  { unfold removed_from_menu. destruct (notifications m !! nid) as [p|].
    2: { injection Hr as <-. eexists. split; [done|]. intros d n. destruct fromUI; [|done].
         rewrite decide_False; [done|]. by intros [_ ?]. }
    destruct fromUI; [|injection Hr as <-; by eexists].
    destruct (DesktopId (p_App p)) as [d| |] eqn:Ed; cbn in Hr; [|done..]. injection Hr as <-. eexists. split; [done|].
    intros d' n. rewrite of_remove. cbn [fmap option_fmap option_map]. unfold did. rewrite Ed. by repeat case_decide; naive_solver. }
  split; [|split; [done|exact Hw]]. apply map_eq. intros n. apply option_eq. intros p. rewrite shown_lookup. cbn.
  rewrite !lookup_delete_Some, shown_lookup.
  assert (n ≠ nid → notification_exists (did p) n w = notification_exists (did p) n (menu m)) as He.
  { intros Hn. unfold notification_exists. rewrite Hw. destruct fromUI; [|done]. unfold removed_from_menu.
    by rewrite decide_False by naive_solver. }
  naive_solver congruence.
Qed.

(** The cards that are taken out of the menu one after the other. *)
Lemma remove_all_shown nids (m m' : mmu) :
  remove_all nids m = Ok m' →
  shown m' = filter (λ np, np.1 ∉ nids) (shown m) ∧ notifications m' = filter (λ np, np.1 ∉ nids) (notifications m) ∧
  ∀ d n, (n ∈ nids ∧ did <$> notifications m !! n = Some d → message_of d n (menu m') = None) ∧
    (¬ (n ∈ nids ∧ did <$> notifications m !! n = Some d) → message_of d n (menu m') = message_of d n (menu m)).
Proof.
  revert m. induction nids as [|nid nids IH]; intros m; cbn.
  { intros [= <-]. split_and!; [symmetry; apply map_filter_id; intros; apply not_elem_of_nil..|].
    intros d n. split; [by intros [?%elem_of_nil _]|done]. }
  destruct (RemoveNotification nid true m) as [m1| |] eqn:E; cbn; [|done..].
  intros (-> & -> & Hm')%IH. apply RemoveNotification_shown in E as (-> & Hn1 & Hw1). rewrite Hn1 in *.
  split_and!; [apply map_eq; intros n; apply option_eq; intros p; rewrite !map_lookup_filter_Some, lookup_delete_Some;
    cbn; rewrite not_elem_of_cons; naive_solver..|].
  intros d n. destruct (Hm' d n) as [Hin Hout]. unfold removed_from_menu in Hw1. specialize (Hw1 d n).
  rewrite elem_of_cons. destruct (decide (n = nid)) as [->|Hne].
  - rewrite lookup_delete_eq in Hin, Hout. assert (message_of d nid (menu m') = message_of d nid (menu m1)) as ->.
    { apply Hout. by intros [_ ?]. }
    rewrite Hw1. split; intros Hc; [by rewrite decide_True by naive_solver|by rewrite decide_False by naive_solver].
  - rewrite lookup_delete_ne in Hin, Hout by done. rewrite decide_False in Hw1 by naive_solver. rewrite <- Hw1.
    split; intros Hc; [apply Hin|apply Hout]; naive_solver.
Qed.

Lemma addNotification_shown now app nid tag card actions (m m' : mmu) :
  let p := {| p_Actions := actions; p_App := app; p_Tag := tag |} in
  addNotification now app nid tag card actions m = Ok m' →
  shown m' = <[nid := p]> (shown m) ∧ notifications m' = <[nid := p]> (notifications m) ∧
  menu m' = add_notification (did p) (card_message now nid card p) (menu m).
Proof.
  unfold addNotification. set (p := {| p_Actions := actions |}).
  destruct (DesktopId app) as [d| |] eqn:Ed; cbn; [|done..]. intros Hm.
  assert (notifications m' = <[nid := p]> (notifications m) ∧
    menu m' = add_notification d (card_message now nid card p) (menu m)) as [Hn Hw].
  { by destruct (bool_decide _ && _); injection Hm as <-. }
  assert (did p = d) as Hd by (unfold did; cbn; by rewrite Ed).
  split; [|by rewrite Hd]. apply map_eq. intros n. apply option_eq. intros q. rewrite shown_lookup, Hn, Hw, exists_add.
  cbn [m_id card_message]. rewrite !lookup_insert_Some, shown_lookup. split.
  - intros [[[<- <-]|[Hne Hq]] He]; [by left|]. right. split; [done|]. split; [done|].
    rewrite bool_decide_false in He by naive_solver. done.
  - intros [[<- <-]|(Hne & Hq & He)].
    + split; [by left|]. by rewrite Hd, bool_decide_true.
    + split; [by right|]. by rewrite He, orb_true_r.
Qed.

Lemma elem_of_matches orig tags nid np :
  nid ∈ matches orig tags np ↔
  nid = np.1 ∧ Original (p_App np.2) = orig ∧ (tags = [] ∨ p_Tag np.2 ∈ tags).
Proof.
  unfold matches. case_decide as Ho; [|rewrite elem_of_nil; naive_solver].
  destruct tags as [|t ts]; [rewrite list_elem_of_singleton; naive_solver|].
  rewrite list_elem_of_bind. split.
  - intros (t' & Hin & Ht'). case_decide; [|by apply elem_of_nil in Hin].
    apply list_elem_of_singleton in Hin. subst. split_and!; [done|done|by right].
  - intros (-> & _ & [|Ht]); [done|]. exists (p_Tag np.2). rewrite decide_True by done.
    by rewrite list_elem_of_singleton.
Qed.

(** The cards of an application with one of the tags, or any if there are none. *)
Definition to_clear (app : AppId) (tags : list string) (p : Payload) : Prop :=
  Original (p_App p) = Original app ∧ (tags = [] ∨ p_Tag p ∈ tags).
#[export] Instance to_clear_dec app tags p : Decision (to_clear app tags p).
Proof. unfold to_clear. apply _. Defined.

Lemma elem_of_clear nid app tags ns :
  nid ∈ (map_to_list ns ≫= matches (Original app) tags) ↔ ∃ p, ns !! nid = Some p ∧ to_clear app tags p.
Proof.
  rewrite list_elem_of_bind. unfold to_clear. split.
  - intros ([nid' p] & (-> & Ho & Ht)%elem_of_matches & Hp%elem_of_map_to_list). by exists p.
  - intros (p & Hp & Ho & Ht). exists (nid, p). by rewrite elem_of_matches, elem_of_map_to_list.
Qed.

Lemma elem_of_tags_of t orig ns :
  t ∈ tags_of orig ns ↔ ∃ nid p, ns !! nid = Some p ∧ Original (p_App p) = orig ∧ p_Tag p = t.
Proof.
  unfold tags_of. rewrite list_elem_of_bind. split.
  - intros ([nid p] & Hin & Hp%elem_of_map_to_list). cbn in Hin. case_decide; [|by apply elem_of_nil in Hin].
    apply list_elem_of_singleton in Hin. eauto.
  - intros (nid & p & Hp & Ho & <-). exists (nid, p). cbn. rewrite decide_True by done.
    rewrite list_elem_of_singleton, elem_of_map_to_list. done.
Qed.
End spec.
End MessagingSpec.

Module MessagingProps.
Import Messaging MessagingSpec.

(** C37: The messaging menu: what is both in the daemon's table and in the
    library's menu are the cards shown, and they, the table and the menu change
    with every operation as they should, whenever it returns. Presenting adds
    the card to the table and its message, if there was none of that id, to the
    menu, and leaves the other messages. Removing a card takes it out of the
    table, and, if it is removed from the menu too ([fromUI]), exactly its message
    out of the menu; else the menu stays as it is. A dismissal by the user in the
    menu hides that card. A clean-up leaves the menu and the cards shown, and
    only them in the table; so does [Tags], which answers the tags of the
    application's shown cards, each card's once. [Clear] takes exactly the
    application's cards with one of the tags, or all of them when there are none,
    out of the table and out of the menu. *)
Theorem menu_refines_shown {W} `{MenuLaws W} (m : MessagingMenu W) :
  (∀ now app nid tag card actions m', addNotification now app nid tag card actions m = Ok m' →
     let p := {| p_Actions := actions; p_App := app; p_Tag := tag |} in
     shown m' = <[nid := p]> (shown m) ∧ notifications m' = <[nid := p]> (notifications m) ∧
     (message_of (did p) nid (menu m) = None → message_of (did p) nid (menu m') = Some (card_message now nid card p)) ∧
     ∀ d n, ¬ (d = did p ∧ n = nid) → message_of d n (menu m') = message_of d n (menu m)) ∧
  (∀ nid fromUI m', RemoveNotification nid fromUI m = Ok m' →
     shown m' = delete nid (shown m) ∧ notifications m' = delete nid (notifications m) ∧
     ∀ d n, message_of d n (menu m') =
       if decide (fromUI = true ∧ n = nid ∧ did <$> notifications m !! nid = Some d) then None
       else message_of d n (menu m)) ∧
  (∀ d nid, shown_in (notifications m) (remove_notification d nid (menu m))
            = filter (λ np, ¬ (np.1 = nid ∧ did np.2 = d)) (shown m)) ∧
  (∀ m', cleanUpNotifications m = Ok m' → shown m' = shown m ∧ notifications m' = shown m ∧ menu m' = menu m) ∧
  (∀ now app m' tags, Tags now app m = Ok (m', tags) →
     shown m' = shown m ∧ notifications m' = shown m ∧ menu m' = menu m ∧ tags = tags_of (Original app) (shown m)) ∧
  (∀ app tags m' n, Clear app tags m = Ok (m', n) →
     shown m' = filter (λ np, ¬ to_clear app tags np.2) (shown m) ∧ notifications m' = shown m' ∧
     ∀ d nid, message_of d nid (menu m') =
       match notifications m !! nid with
       | Some p => if decide (did p = d ∧ to_clear app tags p) then None else message_of d nid (menu m)
       | None => message_of d nid (menu m)
       end).
Proof.
  split_and!.
  - intros now app nid tag card actions m' Ha p. apply addNotification_shown in Ha as (-> & -> & ->).
    split; [done|]. split; [done|]. split; [exact (of_add_new (did p) (card_message now nid card p) (menu m))|].
    intros d n Hne. apply of_add_other. cbn. naive_solver.
  - intros nid fromUI m' Hr. apply RemoveNotification_shown in Hr as (-> & -> & Hw). split; [done|]. split; [done|].
    intros d n. rewrite Hw. unfold removed_from_menu. destruct fromUI; [|by rewrite decide_False by naive_solver].
    repeat case_decide; naive_solver.
  - intros d nid. unfold shown, shown_in. rewrite map_filter_filter. apply map_filter_ext. cbn.
    intros n p _. rewrite exists_remove, andb_true_iff, negb_true_iff, bool_decide_eq_false. naive_solver.
  - intros m' Hc. by apply doCleanUp_shown in Hc.
  - intros now app m' tags. unfold Tags.
    destruct (doCleanUpNotifications _) as [m1| |] eqn:E; cbn; [|done..]. intros [= <- <-].
    apply doCleanUp_shown in E as (Hs & Hn & Hw). rewrite Hn. split_and!; [exact Hs|done|exact Hw|done].
  - intros app tags m' n. unfold Clear, cleanUpNotifications.
    destruct (remove_all _ m) as [m1| |] eqn:E1; cbn; [|done..].
    destruct (doCleanUpNotifications m1) as [m2| |] eqn:E2; cbn; [|done..]. intros [= <- _].
    apply doCleanUp_shown in E2 as (-> & -> & ->). apply remove_all_shown in E1 as (-> & _ & Hw).
    split; [|split; [done|]].
    + apply map_filter_ext. intros nid p Hp. cbn. rewrite elem_of_clear. apply shown_lookup in Hp as [Hp _].
      rewrite Hp. naive_solver.
    + intros d nid. destruct (Hw d nid) as [Hin Hout]. rewrite elem_of_clear in Hin, Hout.
      destruct (notifications m !! nid) as [p|]; [|apply Hout; naive_solver].
      case_decide as Hc; [apply Hin|apply Hout]; cbn; naive_solver.
Qed.

(** A menu as the table of its messages, which keeps the first of an id. *)
#[local] Instance table_menu : MenuLib (gmap (string * string) message) := {
  add_notification d m w := w ∪ {[(d, m_id m) := m]};
  remove_notification d n w := delete (d, n) w;
  message_of d n w := w !! (d, n);
}.
#[local] Instance table_menu_laws : MenuLaws (gmap (string * string) message).
Proof.
  split; cbn.
  - intros d m w Hw. by rewrite lookup_union_r, lookup_singleton_eq.
  - intros d m w [x Hx]. by rewrite (lookup_union_Some_l _ _ _ _ Hx).
  - intros d m d' n' w Hne. destruct (w !! (d', n')) as [x|] eqn:E; [by apply lookup_union_Some_l|].
    by rewrite lookup_union_r, lookup_singleton_ne by naive_solver.
  - intros d n d' n' w. case_decide as Hc; [destruct Hc as [-> ->]; by rewrite lookup_delete_eq|].
    rewrite lookup_delete_ne; naive_solver.
Qed.

Definition example_app : AppId :=
  {| Package := "com.example"; Application := "app"; Version := "1.0"; Click := true; original := "com.example_app" |}.
Definition example_payload : Payload := {| p_Actions := []; p_App := example_app; p_Tag := "chat" |}.
Definition example_card : Card :=
  {| Summary := "hello"; Body := ""; Actions := []; Icon := ""; RawTimestamp := 7; Persist := true; Popup := false |}.
Definition example_menu : MessagingMenu (gmap (string * string) message) :=
  Mmu {["n1" := example_payload]} None 0
    {[("com.example_app_1.0.desktop", "n1") := card_message 0 "n1" example_card example_payload]}.

(** Repeating a tag counts its card again. *)
Lemma menu_refines_shown_witness :
  ∃ m', Clear example_app ["chat"; "chat"] example_menu = Ok (m', 2) ∧ shown m' = ∅ ∧
    message_of "com.example_app_1.0.desktop" "n1" (menu m') = None.
Proof.
  destruct (menu_refines_shown example_menu) as (_ & _ & _ & _ & _ & Hc).
  assert (∃ m', Clear example_app ["chat"; "chat"] example_menu = Ok (m', 2)) as [m' E]
    by (eexists; vm_compute; reflexivity).
  exists m'. split; [exact E|]. destruct (Hc _ _ _ _ E) as (Hs & _ & Hw). rewrite Hs, Hw. split; vm_compute; reflexivity.
Defined.
End MessagingProps.
