(* ===== verification/PostalStart.v ===== *)
(** How the postal service starts and what runs behind it
    (client/service/postal.go, service/common.go): dialing its six endpoints,
    building the presenters and the helper pool, serving the bus, and the
    goroutines that take the helpers' results and the user's actions.

    The operations of the running service are in Postal.v. *)

From S2P Require Import Prelude Click Redialer HelperPool Mbox Postal Presenters.
Import Click Service Redialer.

Module PostalStart.

(** *** Dialing *)

(** An endpoint: nil, or how its dialing goes, attempt by attempt. *)
Definition endpoint : Type := option (list bool).

Record endpoints := {
  NotificationsEndp : endpoint;
  EmblemCounterEndp : endpoint;
  AccountsEndp : endpoint;
  HapticEndp : endpoint;
  UnityGreeterEndp : endpoint;
  WindowStackEndp : endpoint;
}.

Definition endps (e : endpoints) : list (string * endpoint) :=
  [("notifications", NotificationsEndp e); ("emblemcounter", EmblemCounterEndp e); ("accounts", AccountsEndp e);
   ("haptic", HapticEndp e); ("unitygreeter", UnityGreeterEndp e); ("windowstack", WindowStackEndp e)].

(** A goroutine that redials an endpoint (which is no [Jitterer]) until it
    answers: the attempts it took, if it does. *)
Definition redial (answers : list bool) : option Z :=
  match (solo init_timeouts false (3 * length answers) ((λ ok, (ok, 0%Z)) <$> answers) NewAutoRedialer RedialCalled).2.2 with
  | RRet n => Some n
  | _ => None
  end.

(** The result of something that may wait for ever. *)
Inductive progress (A : Type) := Waiting | Done (r : outcome svc_err A).
Arguments Waiting {A}.
Arguments Done {A} r.

(** [takeTheBus]; [watch] is what watching the notifications' actions gives.
    The goroutines share nothing but the group that is waited for. *)
Definition takeTheBus (e : endpoints) (watch : option svc_err) : progress (list Z) :=
  if bool_decide (Exists (λ p, p.2 = None) (endps e)) then Done (Err ErrNotConfigured)
  else
    match mapM (λ p, p.2 ≫= redial) (endps e) with
    | None => Waiting
    | Some ns => Done (match watch with Some err => Err err | None => Ok ns end)
    end.

(** *** Building the parts *)

Inductive presenter := PNotifications | PEmblemCounter | PHaptic | PMessagingMenu.
Inductive pool := TrivialHelperPool | KindHelperPool.

(** What [init] leaves in the service, and the goroutines it starts. *)
Record parts := {
  Presenters : list presenter;
  HelperPool_ : pool;
  accounts_ : Accounts.accounts;
  consuming : bool;   (** [consumeHelperResults] *)
  handling : bool;    (** [handleActions] *)
}.

Record world := {
  endpoints_ : endpoints;
  watch_actions : option svc_err;
  data_dirs : list string;
  watch_accounts : bool;
  all_accounts : option (gmap string dval);
  useTrivialHelper : bool;
}.

Definition init_ (w : world) : progress parts :=
  match takeTheBus (endpoints_ w) (watch_actions w) with
  | Waiting => Waiting
  | Done (Err e) => Done (Err e)
  | Done Panic => Done Panic
  | Done (Ok _) =>
      Done (match Accounts.Start (data_dirs w) (watch_accounts w) (all_accounts w) Accounts.New with
            | Ok a => Ok {| Presenters := [PNotifications; PEmblemCounter; PHaptic; PMessagingMenu];
                            HelperPool_ := if useTrivialHelper w then TrivialHelperPool else KindHelperPool;
                            accounts_ := a; consuming := true; handling := true |}
            | Err _ => Err (ErrLib "accounts")
            | Panic => Panic
            end)
  end.

(** [DBusService.Start]: the service's state afterwards, what its [init] left,
    and the error; it holds the service's lock meanwhile, so that no other
    method of the service returns while [init] waits. *)
Definition DBusService_Start {A} (configured : bool) (dial : option svc_err) (init : progress A) (s : ServiceState)
    : option (ServiceState * option A * option svc_err) :=
  if decide (s ≠ StateUnknown) then Some (s, None, Some ErrAlreadyStarted)
  else if negb configured then Some (s, None, Some ErrNotConfigured)
  else match dial with
       | Some e => Some (s, None, Some e)
       | None =>
           match init with
           | Done (Ok p) => Some (StateRunning, Some p, None)
           | Done (Err e) => Some (s, None, Some e)
           | Waiting | Done Panic => None
           end
       end.

(** [PostalService.Start] *)
Definition Start_ (configured : bool) (dial : option svc_err) (w : world) (s : ServiceState)
    : option (ServiceState * option parts * option svc_err) :=
  DBusService_Start configured dial (init_ w) s.

(** [PushService.Start] has no [init]. *)
Definition PushService_Start (configured : bool) (dial : option svc_err) (s : ServiceState)
    : option (ServiceState * option unit * option svc_err) :=
  DBusService_Start configured dial (Done (Ok ())) s.

(** [getParsedUrl] of the push service, over [url.Parse]. *)
Definition getParsedUrl (Parse : string → string → option string) (regURL : option string) (op : string) : outcome unit string :=
  match regURL with
  | None => Ok ""
  | Some u => match Parse u op with Some url => Ok url | None => Panic end
  end.

(** *** The goroutines *)

(** What the bus says of the service's name: [WFatal] ends the process. *)
Inductive name_watch := WWatching | WLeft | WFatal.
Fixpoint watch_name (evs : list (bool * bool)) : name_watch :=
  match evs with
  | [] => WWatching
  | (running, err) :: evs => if negb running then WLeft else if err : bool then WFatal else watch_name evs
  end.

Section running.
Context (desk : desktop) (grow : nat → nat).

(** [consumeHelperResults]: application, id and output of each result. *)
Fixpoint consumeHelperResults (rs : list (AppId * string * HelperOutput.HelperOutput)) (svc : PostalService) : PostalService :=
  match rs with
  | [] => svc
  | (app, nid, output) :: rs => consumeHelperResults rs (handleHelperResult desk grow app nid output svc)
  end.

(** What the select of [handleActions] picks: an action (nil, or its url, the
    notification's id and its application) of the notifications or of the
    messaging menu, or the end of one of the two channels. *)
Inductive action_event :=
| ActRaw (a : option (string * string * AppId))
| ActMMU (a : option (string * string * AppId))
| ActClosed.

Fixpoint handleActions (evs : list action_event) (svc : PostalService) : PostalService :=
  match evs with
  | [] => svc
  | ActRaw a :: evs => handleActions evs (handle_action true a svc)
  | ActMMU a :: evs => handleActions evs (handle_action false a svc)
  | ActClosed :: _ => svc
  end.
End running.
End PostalStart.

Module PostalStartProps.
Import PostalStart RedialerSpec ServiceSpec.

(** An endpoint that answers after so many failures. *)
Definition answers_after (n : nat) : list bool := replicate n false ++ [true].

Lemma solo_more n k answers ar p r :
  (solo init_timeouts false n answers ar p).2.2 = RRet r → (solo init_timeouts false (n + k) answers ar p).2.2 = RRet r.
Proof.
  revert answers ar p. induction n as [|n IH]; intros answers ar p; cbn [solo Nat.add].
  - cbn. intros ->. by destruct k.
  - destruct (match p, answers with RDial _, a :: rest => (a.1, a.2, rest) | _, _ => (false, 0%Z, answers) end) as [[ok jit] rest].
    destruct (step _ _ _ _ _ _) as [[ar' p']|]; [|done]. cbn [snd]. apply IH.
Qed.

Lemma redial_answers n rest : (Z.of_nat (n + 1) < 2 ^ 32)%Z → redial (answers_after n ++ rest) = Some (Z.of_nat (n + 1)).
Proof.
  intros Hn. unfold redial, answers_after.
  assert (E : (λ ok, (ok, 0%Z)) <$> (replicate n false ++ [true]) ++ rest =
    ((λ j, (false, j)) <$> replicate n 0%Z) ++ (true, 0%Z) :: ((λ ok, (ok, 0%Z)) <$> rest)).
  { rewrite !fmap_app, !fmap_replicate, <-app_assoc. done. }
  rewrite E, !length_app, !length_replicate. cbn [length].
  assert (Hs : (solo init_timeouts false (S (3 * length (replicate n 0%Z) + 2)) (((λ j, (false, j)) <$> replicate n 0%Z) ++
    (true, 0%Z) :: ((λ ok, (ok, 0%Z)) <$> rest)) NewAutoRedialer RedialCalled).2.2 = RRet (Z.of_nat (n + 1))).
  { cbn [solo]. unfold step, setStateIfEqual, NewAutoRedialer. cbn [stateValue]. rewrite decide_True by done. unfold setState.
    change 0%Z with (Z.of_nat 0). cbn [stopping reallyStopped]. rewrite solo_retries; [|done..|by rewrite length_replicate].
    cbn. by rewrite length_replicate. }
  apply (solo_more _ (3 * length rest)) in Hs. rewrite length_replicate in Hs.
  replace (3 * (n + 1 + length rest)) with (S (3 * n + 2) + 3 * length rest) by lia. by rewrite Hs.
Qed.

(** The parts of a service that runs. *)
Definition parts_of (w : world) (a : Accounts.accounts) : parts :=
  {| Presenters := [PNotifications; PEmblemCounter; PHaptic; PMessagingMenu];
     HelperPool_ := if useTrivialHelper w then TrivialHelperPool else KindHelperPool; accounts_ := a; consuming := true; handling := true |}.

Lemma takeTheBus_all e watch :
  (∀ p, p ∈ endps e → ∃ n rest, p.2 = Some (answers_after n ++ rest) ∧ (Z.of_nat (n + 1) < 2 ^ 32)%Z) →
  ∃ ns, takeTheBus e watch = Done (match watch with Some err => Err err | None => Ok ns end).
Proof.
  intros He. unfold takeTheBus. rewrite bool_decide_false.
  - assert (is_Some (mapM (λ p, p.2 ≫= redial) (endps e))) as [ns ->]; [|by eexists].
    apply mapM_is_Some, Forall_forall. intros p Hp. destruct (He p Hp) as (n & rest & E & Hn). change (is_Some (p.2 ≫= redial)). rewrite E. cbn. by rewrite redial_answers.
  - intros Hex. apply Exists_exists in Hex as (p & Hp & E). destruct (He p Hp) as (n & rest & E' & _). congruence.
Qed.

(** The service starts exactly when the bus and its six endpoints answer, the
    actions and the accounts can be watched; it then has its four presenters
    in order, its pool, and its two goroutines. Until the last endpoint has
    answered [Start] does not return. *)
Theorem postal_starts w a :
  (∀ p, p ∈ endps (endpoints_ w) → ∃ n rest, p.2 = Some (answers_after n ++ rest) ∧ (Z.of_nat (n + 1) < 2 ^ 32)%Z) →
  watch_actions w = None → Accounts.Start (data_dirs w) (watch_accounts w) (all_accounts w) Accounts.New = Ok a →
  Start_ true None w StateUnknown = Some (StateRunning, Some (parts_of w a), None).
Proof.
  intros He Hw Ha. unfold Start_, DBusService_Start, init_. destruct (takeTheBus_all _ (watch_actions w) He) as [ns ->].
  by rewrite Hw, Ha, decide_False by (intros []; done).
Qed.

(** Without an answer a redial does not end. *)
Definition dialing (ar : autoRedialer) (p : pc) : Prop :=
  match p with
  | RedialCalled => stateValue ar = Unconfigured
  | RLoop _ | RDial _ | RWait _ _ => stateValue ar = Redialing
  | Crash => True
  | _ => False
  end.
Lemma dialing_forever n answers ar p r :
  dialing ar p → Forall (λ a : bool * Z, a.1 = false) answers → (solo init_timeouts false n answers ar p).2.2 ≠ RRet r.
Proof.
  revert answers ar p. induction n as [|n IH]; intros answers ar p Hd Ha; cbn [solo]; [by destruct p|].
  destruct p as [|k|k|k t| | | | |]; cbn in Hd; try done; cbn [step].
  - unfold setStateIfEqual. rewrite decide_True by done. cbn. by apply IH.
  - rewrite decide_True by done. cbn. by apply IH.
  - destruct answers as [|[ok j] answers]; [|apply Forall_cons in Ha as [E Ha]; cbn in E; subst ok];
      (destruct (backoff _ _); cbn; by apply IH).
  - by apply IH.
Qed.

Lemma redial_never answers : Forall (λ ok, ok = false) answers → redial answers = None.
Proof.
  intros Ha. unfold redial. case_match eqn:E; try done. exfalso. eapply dialing_forever; [| |exact E]; [done|].
  apply Forall_fmap, (Forall_impl _ _ _ Ha). by intros ok ->.
Qed.

(** One endpoint that never answers keeps the service from running. *)
Theorem postal_waits w name answers :
  (∀ p, p ∈ endps (endpoints_ w) → p.2 ≠ None) → (name, Some answers) ∈ endps (endpoints_ w) → Forall (λ ok, ok = false) answers →
  Start_ true None w StateUnknown = None.
Proof.
  intros He Hin Ha. unfold Start_, DBusService_Start, init_, takeTheBus. rewrite decide_False by (intros []; done). cbn [negb].
  rewrite bool_decide_false; [|intros Hex; apply Exists_exists in Hex as (p & Hp & E); by destruct (He p Hp)].
  destruct (mapM (λ p, p.2 ≫= redial) (endps (endpoints_ w))) as [ns|] eqn:E; [|done]. exfalso.
  assert (Hr : is_Some (redial answers)).
  { pose proof (proj1 (mapM_is_Some _ _) (mk_is_Some _ _ E)) as Hf. rewrite Forall_forall in Hf. exact (Hf _ Hin). }
  rewrite (redial_never _ Ha) in Hr. by destruct Hr.
Qed.

(** The goroutines only do what [ServiceSpec.serve] describes, so that every
    interleaving of them and of the calls is one of its inputs; the end of
    either channel of actions ends the handling of both. *)
Section loops.
Context (CGetVersion : string → string) (desktop_file_found : string → bool) (desk : desktop) (grow : nat → nat).
Context (valid_json : string → bool) (Tags : AppId → list string) (Clear : AppId → list string → Z).

Definition input_of (e : action_event) : list input :=
  match e with ActRaw a => [Action true a] | ActMMU a => [Action false a] | ActClosed => [] end.
Fixpoint open_actions (evs : list action_event) : list action_event :=
  match evs with [] | ActClosed :: _ => [] | e :: evs => e :: open_actions evs end.

Lemma loops_serve rs evs svc :
  consumeHelperResults desk grow rs svc =
    (serve_all CGetVersion desktop_file_found desk grow valid_json Tags Clear ((λ r, Result r.1.1 r.1.2 r.2) <$> rs) svc).1 ∧
  handleActions evs svc =
    (serve_all CGetVersion desktop_file_found desk grow valid_json Tags Clear (open_actions evs ≫= input_of) svc).1.
Proof.
  split.
  - revert svc. induction rs as [|[[app nid] out] rs IH]; intros svc; cbn; [done|]. rewrite IH. by destruct (serve_all _ _ _ _ _ _ _ _ _).
  - revert svc. induction evs as [|[a|a|] evs IH]; intros svc; cbn; [done| | |done]; rewrite IH; by destruct (serve_all _ _ _ _ _ _ _ _ _).
Qed.
End loops.
End PostalStartProps.
