(* ===== verification/PollerStart.v ===== *)
(** How the poller starts (poller/poller.go): [New], [Start], which redials
    powerd and polld until both answer, and the way into [Run], whose
    goroutines are in Poller.v. *)

From S2P Require Import Prelude Redialer Click Postal Poller ClientSession PostalStart.
Import Redialer PostalStart.

Module PollerStart.
Import Poller.

(** The parts of a poller that are set before its goroutines run. *)
Record poller_setup := { has_log : bool; has_powerd : bool; has_polld : bool; p_times : Times }.

Definition New (has_log : bool) (times : Times) : poller_setup :=
  {| has_log := has_log; has_powerd := false; has_polld := false; p_times := times |}.

Definition IsConnected (s : ClientSession.ClientSessionState) : bool := match s with ClientSession.Running => true | _ => false end.

(** [Start]: the poller afterwards, the error, and whether the busy loop runs;
    [None] when it waits for ever. The two endpoints answer as scripted. *)
Definition Start (powerd polld : list bool) (p : poller_setup) : option (poller_setup * option poller_err * bool) :=
  if negb (has_log p) then Some (p, Some ErrUnconfigured, false)
  else if has_powerd p || has_polld p then Some (p, Some ErrAlreadyStarted, false)
  else
    redial powerd;; redial polld;;
    Some ({| has_log := true; has_powerd := true; has_polld := true; p_times := p_times p |}, None,
          bool_decide (0 < BusyWait (p_times p))%Z).

(** [Run], with what the two watches answer: the error, or the poller that
    its goroutines start with. *)
Definition Run_ (WatchWakeups WatchDones : option string) (p : poller_setup) : poller_err + poller :=
  if negb (has_log p) then inl ErrUnconfigured
  else if negb (has_powerd p) || negb (has_polld p) then inl ErrNotStarted
  else match WatchWakeups, WatchDones with
       | Some e, _ | None, Some e => inl (ErrPowerd e)
       | None, None => inr Run
       end.
End PollerStart.

Module PollerStartProps.
Import PollerStart Poller PostalStartProps.

(** A new poller with a log starts once both buses have answered, however
    often they failed before, and then runs; it cannot start again. *)
Theorem poller_starts times n m rest rest' :
  (Z.of_nat (n + 1) < 2 ^ 32)%Z → (Z.of_nat (m + 1) < 2 ^ 32)%Z →
  ∃ p busy, Start (answers_after n ++ rest) (answers_after m ++ rest') (New true times) = Some (p, None, busy) ∧
    (busy = true ↔ (0 < BusyWait times)%Z) ∧ Run_ None None p = inr Run ∧
    ∀ a b, Start a b p = Some (p, Some ErrAlreadyStarted, false).
Proof.
  intros Hn Hm. unfold Start. cbn [has_log New negb has_powerd has_polld orb].
  rewrite (redial_answers n), (redial_answers m) by done. cbn. eexists _, _. split; [done|]. split; [apply bool_decide_eq_true|]. done.
Qed.

(** It does not start while one of the two does not answer, and before it has
    started it does not run. *)
Theorem poller_waits times powerd polld :
  Forall (λ ok, ok = false) powerd ∨ Forall (λ ok, ok = false) polld →
  Start powerd polld (New true times) = None ∧ Run_ None None (New true times) = inl ErrNotStarted.
Proof.
  intros Ha. split; [|done]. unfold Start. cbn [has_log New negb has_powerd has_polld orb].
  destruct Ha as [Ha|Ha]; rewrite (redial_never _ Ha); [done|]. by destruct (redial powerd).
Qed.
End PollerStartProps.
