(* ===== verification/Config.v ===== *)
(** Configuration (config/config.go) and log levels (logger/logger.go).

    Configuration structs are read through reflection: [strct] is a struct
    value with the fields' names, tags and visibility, and [traverseStruct]
    visits it the way the code does. encoding/json, [time.ParseDuration] and
    [net.SplitHostPort] are parameters; the command line is parsed as the
    [flag] package does. *)

From S2P Require Import Prelude.

Local Open Scope Z_scope.

(** ** Log levels and the simple logger (logger/logger.go) *)
Module Logger.
Definition calldepthBase : Z := 3.
Definition lError : Z := 1.
Definition lInfo : Z := 2.
Definition lDebug : Z := 3.

Definition levelToNLevel : gmap string Z :=
  {["error" := lError; "info" := lInfo; "debug" := lDebug]}.

(** Reading a missing key of a Go map gives zero. *)
Definition nlevel_of (level : string) : Z := default 0 (levelToNLevel !! level).

Record simpleLogger := { nlevel : Z; outputs : list (Z * string); exited : bool }.

Definition output (calldepth : Z) (s : string) (lg : simpleLogger) : simpleLogger :=
  {| nlevel := nlevel lg; outputs := outputs lg ++ [(calldepth, s)]; exited := exited lg |}.

Definition NewSimpleLoggerFromMinimalLogger (level : string) : simpleLogger :=
  {| nlevel := nlevel_of level; outputs := []; exited := false |}.

(** The flags given to [log.New]: with the file name from debug level on. *)
Inductive log_flag := Ldate | Ltime | Lmicroseconds | Lshortfile.
Definition NewSimpleLogger_flags (level : string) : list log_flag :=
  [Ldate; Ltime; Lmicroseconds] ++ (if lDebug <=? nlevel_of level then [Lshortfile] else []).

(** [msg] is [fmt.Sprintf(format, v...)], without the prefix. *)
Definition Output (calldepth : Z) (s : string) := output (calldepth + 2) s.
Definition Errorf (msg : string) := output calldepthBase ("ERROR " +:+ msg).
Definition Fatalf (msg : string) (lg : simpleLogger) : simpleLogger :=
  let lg := output calldepthBase ("ERROR " +:+ msg) lg in
  {| nlevel := nlevel lg; outputs := outputs lg; exited := true |}.
Definition PanicStackf (stack msg : string) :=
  output calldepthBase ("ERROR(PANIC) " +:+ msg +:+ ":" +:+ String (ascii_of_nat 10) stack).
Definition Infof (msg : string) (lg : simpleLogger) : simpleLogger :=
  if lInfo <=? nlevel lg then output calldepthBase ("INFO " +:+ msg) lg else lg.
Definition Debugf (msg : string) (lg : simpleLogger) : simpleLogger :=
  if lDebug <=? nlevel lg then output calldepthBase ("DEBUG " +:+ msg) lg else lg.

(** [ConfigLogLevel.SetFromString] *)
Definition LogLevel_SetFromString (enc : string) : outcome string string :=
  match levelToNLevel !! enc with
  | None => Err ("not a log level: " +:+ enc)
  | Some _ => Ok enc
  end.
End Logger.

(** ** Struct values seen through reflection *)

Record StructField := {
  Name : string;
  PkgPath : string;      (** not empty for an unexported field *)
  json_tag : string;
  help_tag : string;
}.

(** A field's value. [VOther] is a value of another Go type, in a text form
    of its own. *)
Inductive value :=
| VString (s : string)
| VBool (b : bool)
| VInt (z : Z)
| VDuration (ns : Z)        (** [ConfigTimeDuration] *)
| VHostPort (s : string)    (** [ConfigHostPort] *)
| VQueueSize (n : Z)        (** [ConfigQueueSize] *)
| VLogLevel (s : string)    (** [logger.ConfigLogLevel] *)
| VOther (type repr : string).

#[export] Instance value_eq_dec : EqDecision value.
Proof. solve_decision. Defined.

(** A struct: its fields in order, the anonymous ones being structs. *)
Inductive strct :=
| SNil
| SField (fld : StructField) (v : value) (rest : strct)
| SEmbed (fld : StructField) (sub rest : strct).

(** A destination: a pointer to a struct of a named type, or anything else. *)
Inductive dest_iface := PtrStruct (type : string) (s : strct) | NotStruct.

Definition checkDestConfig (name : string) (d : dest_iface) : outcome string (string * strct) :=
  match d with
  | PtrStruct t s => Ok (t, s)
  | NotStruct => Err (name +:+ " not *struct")
  end.

Record destField := { fld : StructField; dest : value }.

(** [strings.ToLower(name[:1]) + name[1:]]: a byte that is not ASCII is not
    valid UTF-8 on its own, and becomes the replacement character. *)
Definition lower_first (name : string) : string :=
  match name with
  | EmptyString => EmptyString   (** the fields of a struct have names *)
  | String a r =>
      let n := nat_of_ascii a in
      if bool_decide (65 ≤ n ≤ 90)%nat then String (ascii_of_nat (n + 32)) r
      else if bool_decide (n < 128)%nat then String a r
      else String (ascii_of_nat 239) (String (ascii_of_nat 191) (String (ascii_of_nat 189) r))
  end.

Definition configName (f : StructField) : string :=
  let n := default "" (head (split_on "," (json_tag f))) in
  if decide (n = "") then lower_first (Name f) else n.

Definition exported (f : StructField) : bool := bool_decide (PkgPath f = "").

Fixpoint traverseStruct (s : strct) : list destField :=
  match s with
  | SNil => []
  | SField f v rest =>
      if exported f then {| fld := f; dest := v |} :: traverseStruct rest
      else traverseStruct rest
  | SEmbed f sub rest =>
      if exported f then traverseStruct sub ++ traverseStruct rest
      else traverseStruct rest
  end.

(** ** The libraries *)

Definition RawMessage : Type := string.

Class Libs := {
  (** decoding a JSON value into a map of raw members; [null] gives none *)
  json_object : string → outcome string (gmap string RawMessage);
  (** [json.Unmarshal] into a variable of a basic type *)
  json_string : RawMessage → st string string unit;
  json_bool : RawMessage → st bool string unit;
  json_int : RawMessage → st Z string unit;
  json_uint : RawMessage → st Z string unit;
  json_other : string → RawMessage → st string string unit;
  (** whether the other type of a name is of kind bool *)
  kind_is_bool : string → bool;
  marshal_string : string → RawMessage;
  marshal_bool : bool → RawMessage;
  ParseDuration : string → outcome string Z;
  SplitHostPort : string → outcome string (string * string);
}.

(** What encoding/json, time and net document. *)
Class LibsLaws `{!Libs} := {
  json_string_marshal s c : json_string (marshal_string s) c = (s, Ok ());
  json_bool_marshal b c : json_bool (marshal_bool b) c = (b, Ok ());
  json_int_range raw z z' o : in_sN 64 z → json_int raw z = (z', o) → in_sN 64 z';
  json_uint_range raw z z' o : 0 ≤ z < 2 ^ 64 → json_uint raw z = (z', o) → 0 ≤ z' < 2 ^ 64;
  ParseDuration_range s d : ParseDuration s = Ok d → in_sN 64 d;
}.

Module Config.
Import Logger.

Section config.
Context `{!Libs}.

(** ** Config holders *)

Definition UnmarshalJSONViaString (SetFromString : string → st value string unit) (b : RawMessage)
    : st value string unit := λ v,
  match json_string b "" with
  | (enc, Ok _) => SetFromString enc v
  | (_, Err e) => (v, Err e)
  | (_, Panic) => (v, Panic)
  end.

(** Assign the result of a call, or return its error. *)
Definition assign {A} (o : outcome string A) (mk : A → value) : st value string unit := λ v,
  match o with Ok a => (mk a, Ok ()) | Err e => (v, Err e) | Panic => (v, Panic) end.

Definition Duration_SetFromString (enc : string) : st value string unit :=
  assign (ParseDuration enc) VDuration.

Definition HostPort_SetFromString (enc : string) : st value string unit :=
  assign (SplitHostPort enc) (λ _, VHostPort enc).

Definition QueueSize_UnmarshalJSON (b : RawMessage) : st value string unit := λ v,
  match json_uint b 0 with
  | (enc, Ok _) =>
      if decide (enc = 0) then (v, Err "queue size should be > 0") else (VQueueSize enc, Ok ())
  | (_, Err e) => (v, Err e)
  | (_, Panic) => (v, Panic)
  end.

(** The holders that implement [FromString]. *)
Definition FromString (v : value) : option (string → st value string unit) :=
  match v with
  | VDuration _ => Some Duration_SetFromString
  | VHostPort _ => Some HostPort_SetFromString
  | VLogLevel _ => Some (λ enc, assign (LogLevel_SetFromString enc) VLogLevel)
  | _ => None
  end.

Definition on {A} (mk : A → value) (m : st A string unit) (a : A) : value * outcome string unit :=
  let '(a', o) := m a in (mk a', o).

(** [json.Unmarshal(raw, dest)], through the holder's [UnmarshalJSON] *)
Definition Unmarshal (raw : RawMessage) : st value string unit := λ v,
  match v with
  | VString s => on VString (json_string raw) s
  | VBool b => on VBool (json_bool raw) b
  | VInt z => on VInt (json_int raw) z
  | VOther t r => on (VOther t) (json_other t raw) r
  | VQueueSize _ => QueueSize_UnmarshalJSON raw v
  | VDuration _ | VHostPort _ | VLogLevel _ =>
      match FromString v with Some set => UnmarshalJSONViaString set raw v | None => (v, Panic) end
  end.

(** ** Filling the destination *)

Definition fill_field (p : gmap string RawMessage) (f : StructField) : st value string unit := λ v,
  match p !! configName f with
  | None => (v, Err ("missing " +:+ configName f))
  | Some raw =>
      match Unmarshal raw v with
      | (v', Err e) => (v', Err (configName f +:+ ": " +:+ e))
      | r => r
      end
  end.

(** The loop over [traverseStruct]: an error ends it, what was filled stays. *)
Fixpoint each_field (body : StructField → st value string unit) (s : strct) : strct * outcome string unit :=
  match s with
  | SNil => (SNil, Ok ())
  | SField f v rest =>
      if exported f then
        match body f v with
        | (v', Ok _) => let '(rest', o) := each_field body rest in (SField f v' rest', o)
        | (v', o) => (SField f v' rest, o)
        end
      else let '(rest', o) := each_field body rest in (SField f v rest', o)
  | SEmbed f sub rest =>
      if exported f then
        match each_field body sub with
        | (sub', Ok _) => let '(rest', o) := each_field body rest in (SEmbed f sub' rest', o)
        | (sub', o) => (SEmbed f sub' rest, o)
        end
      else let '(rest', o) := each_field body rest in (SEmbed f sub rest', o)
  end.

Definition fillDestConfig (p : gmap string RawMessage) (s : strct) : strct * outcome string unit :=
  each_field (fill_field p) s.

Definition ReadConfig (data : string) (d : dest_iface) : dest_iface * outcome string unit :=
  match checkDestConfig "destConfig" d with
  | Ok (t, s) =>
      match json_object data with
      | Ok p1 => let '(s', o) := fillDestConfig p1 s in (PtrStruct t s', o)
      | Err e => (d, Err e)
      | Panic => (d, Panic)
      end
  | Err e => (d, Err e)
  | Panic => (d, Panic)
  end.

(** ** Values from the command line *)

(** [strconv.ParseBool] *)
Definition ParseBool (s : string) : outcome string bool :=
  if decide (s ∈ ["1"; "t"; "T"; "TRUE"; "true"; "True"]) then Ok true
  else if decide (s ∈ ["0"; "f"; "F"; "FALSE"; "false"; "False"]) then Ok false
  else Err ("strconv.ParseBool: parsing " +:+ quoted s +:+ ": invalid syntax").

Definition IsBoolFlag (df : destField) : bool :=
  match dest df with VBool _ => true | VOther t _ => kind_is_bool t | _ => false end.

Definition marshalAsNeeded (df : destField) (s : string) : outcome string RawMessage :=
  match dest df with
  | VBool _ => marshal_bool <$> ParseBool s
  | VString _ => Ok (marshal_string s)
  | v => Ok (match FromString v with Some _ => marshal_string s | None => s end)
  end.

Definition val_Set (df : destField) (s : string) : st (gmap string RawMessage) string unit := λ accu,
  match marshalAsNeeded df s with
  | Ok raw => (<[configName (fld df) := raw]> accu, Ok ())
  | Err e => (accu, Err e)
  | Panic => (accu, Panic)
  end.

(** Files: absent ones do not stat, [Err] is one that cannot be opened or
    read. *)
Definition files : Type := gmap string (outcome string string).

Definition readOneConfig (fs : files) (cfgPath : string) : st (gmap string RawMessage) string unit :=
  λ accu,
  match fs !! cfgPath with
  | None => (accu, Err ("open " +:+ cfgPath +:+ ": no such file or directory"))
  | Some (Ok data) =>
      match json_object data with
      | Ok m => (m ∪ accu, Ok ())
      | Err e => (accu, Err e)
      | Panic => (accu, Panic)
      end
  | Some (Err e) => (accu, Err e)
  | Some Panic => (accu, Panic)
  end.

(** A registered flag: a field's, or [-cfg@]. *)
Inductive flagvar := FVal (df : destField) | FConfigAt.

Definition flag_Set (fs : files) (v : flagvar) (s : string) : st (gmap string RawMessage) string unit :=
  match v with FVal df => val_Set df s | FConfigAt => readOneConfig fs s end.

Definition flag_is_bool (v : flagvar) : bool :=
  match v with FVal df => IsBoolFlag df | FConfigAt => false end.

(** How a call ends that does not succeed: with an error, or the process
    with it, as [flag.CommandLine] does on a bad argument. *)
Inductive stop := Returned (e : string) | Exit (code : Z).

(** [flag.Var] panics when a flag is defined twice. *)
Definition Var (name : string) (v : flagvar) (formals : list (string * flagvar))
    : outcome stop (list (string * flagvar)) :=
  if decide (name ∈ formals.*1) then Panic else Ok (formals ++ [(name, v)]).

Fixpoint formal (formals : list (string * flagvar)) (name : string) : option flagvar :=
  match formals with
  | [] => None
  | (n, v) :: formals => if decide (n = name) then Some v else formal formals name
  end.

(** What [parseOne] makes of an argument: no flag, the end of the flags, a
    malformed one, or a name and perhaps a value. *)
Inductive arg := NotFlag | EndFlags | BadFlag | Flag (name : string) (val : option string).

Definition read_arg (s : string) : arg :=
  match s with
  | String "-" (String a r) =>
      if decide (a = "-"%char ∧ r = "") then EndFlags
      else
        let name := if decide (a = "-"%char) then r else String a r in
        match name with
        | String b r' =>
            if decide (b = "-"%char ∨ b = "="%char) then BadFlag
            else match cut_at "=" name with
                 | Some (n, v) => Flag n (Some v)
                 | None => Flag name None
                 end
        | EmptyString => BadFlag
        end
  | _ => NotFlag
  end.

(** A flag's [Set], whose error ends the process. *)
Definition set_or_exit (fs : files) (v : flagvar) (s : string) : st (gmap string RawMessage) stop unit :=
  λ accu,
  match flag_Set fs v s accu with
  | (accu', Ok _) => (accu', Ok ())
  | (accu', Err _) => (accu', Err (Exit 2))
  | (accu', Panic) => (accu', Panic)
  end.

(** [flag.Parse] on the arguments that are left. *)
Fixpoint Parse (fs : files) (formals : list (string * flagvar)) (args : list string)
    : st (gmap string RawMessage) stop unit :=
  match args with
  | [] => mret ()
  | s :: args' =>
      match read_arg s with
      | NotFlag | EndFlags => mret ()
      | BadFlag => st_err (Exit 2)
      | Flag name val =>
          match formal formals name with
          | None => st_err (Exit (if decide (name = "help" ∨ name = "h") then 0 else 2))
          | Some v =>
              if flag_is_bool v then
                st_bind _ _ _ _ (λ _, Parse fs formals args') (set_or_exit fs v (default "true" val))
              else
                match val, args' with
                | Some x, _ => st_bind _ _ _ _ (λ _, Parse fs formals args') (set_or_exit fs v x)
                | None, x :: args'' => st_bind _ _ _ _ (λ _, Parse fs formals args'') (set_or_exit fs v x)
                | None, [] => st_err (Exit 2)
                end
          end
      end
  end.

(** ** Reading from several sources *)

Record rstate := {
  parsed : bool;                    (** [flag.Parsed()] *)
  accu : gmap string RawMessage;    (** [p1] *)
  readOne : bool;
}.

Record env := {
  fs : files;
  args : list string;               (** the command line *)
  formals0 : list (string * flagvar);  (** flags of the program's own *)
  IgnoreParsedFlags : bool;
}.

Fixpoint register (dfs : list destField) (formals : list (string * flagvar))
    : outcome stop (list (string * flagvar)) :=
  match dfs with
  | [] => Var "cfg@" FConfigAt formals
  | df :: dfs => formals ← Var (configName (fld df)) (FVal df) formals; register dfs formals
  end.

Definition readUsingFlags (E : env) (s : strct) : st rstate stop unit := λ r,
  if parsed r then
    (r, if IgnoreParsedFlags E then Ok () else Err (Returned "too late, flags already parsed"))
  else
    match register (traverseStruct s) (formals0 E) with
    | Ok formals =>
        let '(a, o) := Parse (fs E) formals (args E) (accu r) in
        ({| parsed := true; accu := a; readOne := readOne r |}, o)
    | Err e => (r, Err e)
    | Panic => (r, Panic)
    end.

Definition mark_read : st rstate stop unit := λ r,
  ({| parsed := parsed r; accu := accu r; readOne := true |}, Ok ()).

Definition read_file (E : env) (cfgPath : string) : st rstate stop unit := λ r,
  match readOneConfig (fs E) cfgPath (accu r) with
  | (a, Ok _) => ({| parsed := parsed r; accu := a; readOne := readOne r |}, Ok ())
  | (a, Err e) => ({| parsed := parsed r; accu := a; readOne := readOne r |}, Err (Returned e))
  | (a, Panic) => (r, Panic)
  end.

Fixpoint read_sources (E : env) (s : strct) (cfgFpaths : list string) : st rstate stop unit :=
  match cfgFpaths with
  | [] => mret ()
  | cfgPath :: rest =>
      (if decide (cfgPath = "<flags>") then readUsingFlags E s;; mark_read
       else match fs E !! cfgPath with
            | Some _ => read_file E cfgPath;; mark_read
            | None => mret ()
            end);;
      read_sources E s rest
  end.

(** [defls]: the given defaults as [json.Marshal] encodes them, in the order
    the map is visited in. *)
Fixpoint marshal_defaults (defls : list (string * outcome string RawMessage))
    : outcome string (gmap string RawMessage) :=
  match defls with
  | [] => Ok ∅
  | (field, b) :: defls => b ← b; m ← marshal_defaults defls; mret (<[field := b]> m)
  end.

Definition returned {A} (o : outcome string A) : outcome stop A :=
  match o with Ok a => Ok a | Err e => Err (Returned e) | Panic => Panic end.

Definition ReadFilesDefaults (E : env) (parsed0 : bool) (d : dest_iface)
    (defls : list (string * outcome string RawMessage)) (cfgFpaths : list string)
    : dest_iface * outcome stop unit :=
  match checkDestConfig "destConfig" d with
  | Ok (t, s) =>
      match marshal_defaults defls with
      | Ok p1 =>
          match read_sources E s cfgFpaths {| parsed := parsed0; accu := p1; readOne := false |} with
          | (r, Ok _) =>
              if readOne r then
                let '(s', o) := fillDestConfig (accu r) s in (PtrStruct t s', returned o)
              else (d, Err (Returned "no config to read"))
          | (_, Err e) => (d, Err e)
          | (_, Panic) => (d, Panic)
          end
      | Err e => (d, Err (Returned e))
      | Panic => (d, Panic)
      end
  | Err e => (d, Err (Returned e))
  | Panic => (d, Panic)
  end.

Definition ReadFiles (E : env) (parsed0 : bool) (d : dest_iface) (cfgFpaths : list string) :=
  ReadFilesDefaults E parsed0 d [] cfgFpaths.

(** ** Comparing *)

(** Both traversals are read in step until the first one ends; a traversal
    that has ended gives a nil destination. *)
Fixpoint compare_fields (fields1 fields2 : list destField) : list string :=
  match fields1 with
  | [] => []
  | d1 :: fields1 =>
      let same := match fields2 with d2 :: _ => bool_decide (dest d1 = dest d2) | [] => false end in
      (if same then [] else [configName (fld d1)]) ++ compare_fields fields1 (tail fields2)
  end.

Definition CompareConfig (config1 config2 : dest_iface) : outcome string (list string) :=
  '(t1, v1) ← checkDestConfig "config1" config1;
  '(t2, v2) ← checkDestConfig "config2" config2;
  if decide (t1 = t2) then mret (compare_fields (traverseStruct v1) (traverseStruct v2))
  else Err "config1 and config2 don't have the same type".
End config.
End Config.

(** ** What configuration promises *)
Module ConfigSpec.
Import Logger Config.

Section spec.
Context `{!Libs}.

(** The values a Go variable of the type can hold. *)
Definition go_value (v : value) : Prop :=
  match v with
  | VInt z | VDuration z => in_sN 64 z
  | VQueueSize n => 0 ≤ n < 2 ^ 64
  | _ => True
  end.

(** The values a configured field can hold. *)
Definition value_ok (v : value) : Prop :=
  match v with
  | VInt z | VDuration z => in_sN 64 z
  | VQueueSize n => 0 < n < 2 ^ 64
  | VHostPort s => is_ok (SplitHostPort s) = true
  | VLogLevel s => s ∈ ["error"; "info"; "debug"]
  | VString _ | VBool _ | VOther _ _ => True
  end.

Definition same_type (v v' : value) : Prop :=
  match v, v' with
  | VString _, VString _ | VBool _, VBool _ | VInt _, VInt _ | VDuration _, VDuration _
  | VHostPort _, VHostPort _ | VQueueSize _, VQueueSize _ | VLogLevel _, VLogLevel _ => True
  | VOther t _, VOther t' _ => t = t'
  | _, _ => False
  end.

(** The same struct type, with [R] between the visited fields and the hidden
    ones equal. *)
Fixpoint refilled (R : StructField → value → value → Prop) (s s' : strct) : Prop :=
  match s, s' with
  | SNil, SNil => True
  | SField f v rest, SField f' v' rest' =>
      f = f' ∧ (if exported f then R f v v' else v = v') ∧ refilled R rest rest'
  | SEmbed f sub rest, SEmbed f' sub' rest' =>
      f = f' ∧ (if exported f then refilled R sub sub' else sub = sub') ∧ refilled R rest rest'
  | _, _ => False
  end.

(** Setting a field from a text directly, as a flag means to. *)
Definition set_text (text : string) : st value string unit := λ v,
  match v with
  | VString _ => (VString text, Ok ())
  | VBool _ => assign (ParseBool text) VBool v
  | _ => match FromString v with Some set => set text v | None => Unmarshal text v end
  end.

(** Setting every field from its text, with the field named in errors. *)
Definition set_texts (texts : string → string) (s : strct) : strct * outcome string unit :=
  each_field (λ f v,
    match set_text (texts (configName f)) v with
    | (v', Err e) => (v', Err (configName f +:+ ": " +:+ e))
    | r => r
    end) s.

(** The merge of sources given in order: the last one wins. *)
Definition merge_sources (ms : list (gmap string RawMessage)) (accu : gmap string RawMessage)
    : gmap string RawMessage := foldl (λ a m, m ∪ a) accu ms.

(** An argument that sets a field: [-name=text]. *)
Definition flag_arg (n : string) (text : string) : string := "-" +:+ n +:+ "=" +:+ text.

(** What a configuration file on disk holds, if anything readable. *)
Definition decoded (fs : files) (path : string) : option (gmap string RawMessage) :=
  match fs !! path with
  | Some (Ok data) => match json_object data with Ok m => Some m | _ => None end
  | _ => None
  end.

Definition flag_name (n : string) : Prop :=
  in_string "=" n = false ∧ match n with String a _ => a ≠ "-"%char | _ => False end.
End spec.
End ConfigSpec.

Module ConfigProps.
Import Logger Config ConfigSpec.

Section props.
Context `{!Libs, !LibsLaws}.

Lemma LogLevel_Ok enc l : LogLevel_SetFromString enc = Ok l → l ∈ ["error"; "info"; "debug"].
Proof.
  unfold LogLevel_SetFromString, levelToNLevel.
  destruct (_ !! enc) eqn:E; intros [= <-].
  repeat (apply lookup_insert_Some in E as [[<- _]|[_ E]]; [apply (bool_decide_unpack _); done|]).
  apply lookup_singleton_Some in E as [<- _]. by apply (bool_decide_unpack _).
Qed.

Lemma Unmarshal_typed raw v v' o :
  go_value v → Unmarshal raw v = (v', o) →
  same_type v v' ∧ go_value v' ∧ (o = Ok () → value_ok v').
Proof.
  intros Hv. destruct v as [s|b|z|z|s|n|s|t r]; cbn in Hv |- *; unfold on.
  - destruct (json_string raw s) as [s' o']. by intros [= <- <-].
  - destruct (json_bool raw b) as [s' o']. by intros [= <- <-].
  - destruct (json_int raw z) as [s' o'] eqn:E. intros [= <- <-].
    pose proof (json_int_range _ _ _ _ Hv E). done.
  - unfold UnmarshalJSONViaString. destruct (json_string raw "") as [enc [[]|e|]]; [|by intros [= <- <-]..].
    unfold Duration_SetFromString, assign.
    destruct (ParseDuration enc) as [d|e|] eqn:E; intros [= <- <-]; try done.
    pose proof (ParseDuration_range _ _ E). done.
  - unfold UnmarshalJSONViaString. destruct (json_string raw "") as [enc [[]|e|]]; [|by intros [= <- <-]..].
    unfold HostPort_SetFromString, assign.
    destruct (SplitHostPort enc) as [d|e|] eqn:E; intros [= <- <-]; try done.
    cbn. by rewrite E.
  - unfold QueueSize_UnmarshalJSON.
    destruct (json_uint raw 0) as [z [[]|e|]] eqn:E; [|by intros [= <- <-]..].
    pose proof (json_uint_range raw 0 z _ ltac:(done) E).
    destruct (decide (z = 0)); intros [= <- <-]; [done|]. cbn. split; [done|]. split; [done|]. lia.
  - unfold UnmarshalJSONViaString. destruct (json_string raw "") as [enc [[]|e|]]; [|by intros [= <- <-]..].
    unfold assign. destruct (LogLevel_SetFromString enc) as [d|e|] eqn:E; intros [= <- <-]; try done.
    cbn. split; [done|]. split; [done|]. intros _. by eapply LogLevel_Ok.
  - destruct (json_other t raw r) as [r' o']. by intros [= <- <-].
Qed.

Lemma same_type_refl v : same_type v v.
Proof. by destruct v. Qed.

Lemma refilled_refl R s : (∀ f v, R f v v) → refilled R s s.
Proof.
  intros HR. induction s as [|f v rest IH|f sub IHs rest IH]; cbn; [done|..].
  - destruct (exported f); auto.
  - destruct (exported f); auto.
Qed.

(** What filling a field establishes. *)
Definition filled (o : outcome string unit) (_ : StructField) (v v' : value) : Prop :=
  same_type v v' ∧ go_value v' ∧ (o = Ok () → value_ok v').

Lemma fill_field_typed p f v v' o :
  go_value v → fill_field p f v = (v', o) → filled o f v v'.
Proof.
  intros Hv. unfold fill_field, filled.
  destruct (p !! configName f) as [raw|]; [|intros [= <- <-]; by split; [apply same_type_refl|]].
  destruct (Unmarshal raw v) as [w [[]|e|]] eqn:E; intros [= <- <-];
    destruct (Unmarshal_typed _ _ _ _ Hv E) as (?&?&?); by repeat split.
Qed.

Lemma refilled_mono (R R' : StructField → value → value → Prop) s s' :
  (∀ f v v', R f v v' → R' f v v') → refilled R s s' → refilled R' s s'.
Proof.
  intros HR. revert s'. induction s as [|f v rest IH|f sub IHs rest IH]; intros [|f' v' rest'|f' sub' rest'];
    cbn; try done; destruct (exported f); naive_solver.
Qed.

Definition go_values (s : strct) : Prop := Forall (λ d, go_value (dest d)) (traverseStruct s).

Lemma refilled_same o s : go_values s → o ≠ Ok () → refilled (filled o) s s.
Proof.
  intros Hs Ho. unfold go_values in Hs.
  induction s as [|f v rest IH|f sub IHs rest IH]; cbn in *; [done|..]; destruct (exported f).
  - inversion Hs; subst. split; [done|]. split; [|auto]. split; [apply same_type_refl|]. by split.
  - auto.
  - apply Forall_app in Hs as [??]. auto.
  - auto.
Qed.

Lemma fill_typed p s s' o :
  go_values s → fillDestConfig p s = (s', o) → refilled (filled o) s s'.
Proof.
  unfold go_values, fillDestConfig. revert s' o.
  induction s as [|f v rest IH|f sub IHs rest IH]; intros s' o Hs; cbn in *.
  - by intros [= <- <-].
  - destruct (exported f) eqn:Ef.
    + inversion Hs as [|?? Hv Hr]; subst.
      destruct (fill_field p f v) as [v' o1] eqn:E. pose proof (fill_field_typed _ _ _ _ _ Hv E) as Hf.
      destruct o1 as [[]|e|]; [|intros [= <- <-]; cbn; split_and!; auto; by apply refilled_same..].
      destruct (each_field (fill_field p) rest) as [r' o2] eqn:E2. intros [= <- <-]. cbn.
      split; [done|]. split; [|by apply IH].
      destruct Hf as (?&?&?). unfold filled. auto.
    + destruct (each_field (fill_field p) rest) as [r' o2] eqn:E2. intros [= <- <-]. cbn. auto.
  - destruct (exported f) eqn:Ef.
    + apply Forall_app in Hs as [Hs Hr].
      destruct (each_field (fill_field p) sub) as [sub' o1] eqn:E.
      destruct o1 as [[]|e|]; [|intros [= <- <-]; cbn; split_and!; auto; by apply refilled_same..].
      destruct (each_field (fill_field p) rest) as [r' o2] eqn:E2. intros [= <- <-]. cbn.
      split; [done|]. split; [|by apply IH].
      eapply refilled_mono; [|by apply IHs]. intros ??? (?&?&?). unfold filled. auto.
    + destruct (each_field (fill_field p) rest) as [r' o2] eqn:E2. intros [= <- <-]. cbn. auto.
Qed.

Lemma ReadFilesDefaults_typed E parsed0 t s defls paths d' o :
  go_values s →
  ReadFilesDefaults E parsed0 (PtrStruct t s) defls paths = (d', o) →
  ∃ s', d' = PtrStruct t s' ∧
    refilled (λ _ v v', same_type v v' ∧ go_value v' ∧ (o = Ok () → value_ok v')) s s'.
Proof.
  intros Hs. unfold ReadFilesDefaults, checkDestConfig.
  assert (∀ o', o' ≠ Ok () → (PtrStruct t s, o') = (d', o) → ∃ s', d' = PtrStruct t s' ∧
    refilled (λ _ v v', same_type v v' ∧ go_value v' ∧ (o = Ok () → value_ok v')) s s') as Hsame.
  { intros o' Ho [= <- <-]. exists s. split; [done|].
    eapply refilled_mono; [|by apply (refilled_same Panic s)]. intros ??? (?&?&_). naive_solver. }
  destruct (marshal_defaults defls) as [p1|e|]; [|by apply Hsame..].
  destruct (read_sources _ _ _ _) as [r [[]|e|]]; [|by apply Hsame..].
  destruct (readOne r); [|by apply Hsame].
  destruct (fillDestConfig (accu r) s) as [s' o'] eqn:E'. intros [= <- <-]. exists s'. split; [done|].
  eapply refilled_mono; [|by eapply fill_typed]. unfold filled. intros ??? (?&?&H').
  split_and!; [done..|]. destruct o'; cbn; try done. intros [= ->]. auto.
Qed.

(** C39: Whatever the sources hold and however reading ends, the destination
    keeps its type: only exported fields change, each to a value its Go type
    can hold. When reading succeeds every visited field has been given a
    value its holder accepts: a positive queue size, a known log level, a
    host and port, a duration and an integer of 64 bits. *)
Theorem config_well_typed E parsed0 t s defls paths d' o :
  go_values s →
  ReadFilesDefaults E parsed0 (PtrStruct t s) defls paths = (d', o) →
  ∃ s', d' = PtrStruct t s' ∧
    refilled (λ _ v v', same_type v v' ∧ go_value v' ∧ (o = Ok () → value_ok v')) s s'.
Proof. apply ReadFilesDefaults_typed. Qed.

(** The visited fields of two structs related by [refilled]. *)
Lemma refilled_fields R s s' :
  refilled R s s' →
  Forall2 (λ d d', fld d = fld d' ∧ R (fld d) (dest d) (dest d')) (traverseStruct s) (traverseStruct s').
Proof.
  revert s'. induction s as [|f v rest IH|f sub IHs rest IH]; intros [|f' v' rest'|f' sub' rest'];
    cbn; try done; intros (<-&H'&?); destruct (exported f); auto.
  apply Forall2_app; auto.
Qed.

Lemma merge_sources_lookup ms p0 k :
  merge_sources ms p0 !! k = last (omap (λ m : gmap string RawMessage, m !! k) (p0 :: ms)).
Proof.
  unfold merge_sources. revert p0. induction ms as [|m ms IH]; intros p0; cbn; [by destruct (p0 !! k)|].
  rewrite IH. cbn. destruct (m !! k) as [x|] eqn:E.
  - rewrite (lookup_union_Some_l _ _ _ _ E). destruct (p0 !! k); [|done].
    by destruct (omap _ ms).
  - by rewrite lookup_union_r.
Qed.

Lemma read_sources_files E s paths r :
  "<flags>" ∉ paths →
  Forall (λ path, fs E !! path = None ∨ is_Some (decoded (fs E) path)) paths →
  read_sources E s paths r =
    (let ms := omap (decoded (fs E)) paths in
     {| parsed := parsed r; accu := merge_sources ms (accu r);
        readOne := readOne r || negb (bool_decide (ms = [])) |}, Ok ()).
Proof.
  intros Hf Hp. revert r. induction Hp as [|path paths Hpath Hp IH]; intros r; cbn.
  { rewrite orb_false_r. by destruct r. }
  apply not_elem_of_cons in Hf as [Hne Hf]. rewrite decide_False by done.
  destruct Hpath as [Hn|[m Hm]].
  - rewrite Hn. unfold mbind, st_bind, mret, st_ret. rewrite (IH Hf).
    by replace (decoded (fs E) path) with (@None (gmap string RawMessage)) by (unfold decoded; by rewrite Hn).
  - rewrite Hm. unfold decoded in Hm. destruct (fs E !! path) as [[data|e|]|] eqn:Efs; try done.
    destruct (json_object data) as [m'|e|] eqn:Ej; try done. injection Hm as ->.
    unfold read_file, readOneConfig, mbind, st_bind. rewrite Efs, Ej. cbn. rewrite (IH Hf). cbn.
    by rewrite orb_true_r.
Qed.

(** Reading from files: the fields are filled from the merge of the defaults
    and the files that exist, in which a key has the value of the last source
    that has it; without any file reading fails and nothing changes. *)
Theorem config_sources E parsed0 t s defls paths p0 :
  "<flags>" ∉ paths → marshal_defaults defls = Ok p0 →
  Forall (λ path, fs E !! path = None ∨ is_Some (decoded (fs E) path)) paths →
  let ms := omap (decoded (fs E)) paths in
  ReadFilesDefaults E parsed0 (PtrStruct t s) defls paths =
    (if decide (ms = []) then (PtrStruct t s, Err (Returned "no config to read"))
     else let '(s', o) := fillDestConfig (merge_sources ms p0) s in (PtrStruct t s', returned o)) ∧
  ∀ k, merge_sources ms p0 !! k = last (omap (λ m : gmap string RawMessage, m !! k) (p0 :: ms)).
Proof.
  intros Hf Hd Hp ms. split; [|intros k; apply merge_sources_lookup].
  unfold ReadFilesDefaults, checkDestConfig. rewrite Hd, read_sources_files by done. cbn. subst ms.
  by destruct (decide (omap (decoded (fs E)) paths = [])) as [->|Hne];
    [|rewrite bool_decide_eq_false_2 by done].
Qed.

(** ** The command line *)

Lemma read_arg_flag n text : flag_name n → read_arg (flag_arg n text) = Flag n (Some text).
Proof.
  intros [He Hn]. destruct n as [|a r]; [done|]. unfold flag_arg. rewrite !str_app_cons, str_app_nil.
  cbn -[String.append cut_at]. rewrite decide_False by naive_solver. rewrite decide_False by done.
  rewrite decide_False; [by rewrite <- str_app_cons, cut_at_app|].
  cbn in He. apply orb_false_iff in He as [He _]. apply bool_decide_eq_false in He. naive_solver.
Qed.

Lemma Var_fresh n v formals : n ∉ formals.*1 → Var n v formals = Ok (formals ++ [(n, v)]).
Proof. intros Hn. unfold Var. by rewrite decide_False. Qed.

Abbreviation names dfs := ((λ df, configName (fld df)) <$> dfs).

Lemma register_Ok dfs formals :
  NoDup (formals.*1 ++ names dfs ++ ["cfg@"]) →
  register dfs formals = Ok (formals ++ ((λ df, (configName (fld df), FVal df)) <$> dfs) ++ [("cfg@", FConfigAt)]).
Proof.
  revert formals. induction dfs as [|df dfs IH]; intros formals Hnd; cbn in *.
  - apply Var_fresh. apply NoDup_app in Hnd as (_&Hd&_). intros Hin. apply (Hd _ Hin). set_solver.
  - rewrite Var_fresh.
    + cbn. rewrite IH; [by rewrite <- app_assoc|].
      rewrite fmap_app. cbn. by rewrite <- app_assoc.
    + apply NoDup_app in Hnd as (_&Hd&_). intros Hin. apply (Hd _ Hin). set_solver.
Qed.

Lemma formal_lookup (f : destField → flagvar) dfs df rest :
  NoDup (names dfs) → df ∈ dfs →
  formal (((λ d, (configName (fld d), f d)) <$> dfs) ++ rest) (configName (fld df)) = Some (f df).
Proof.
  induction dfs as [|d dfs IH]; cbn; intros Hnd Hin; [set_solver|].
  apply NoDup_cons in Hnd as [Hd Hnd]. apply elem_of_cons in Hin as [->|Hin]; [by rewrite decide_True|].
  rewrite decide_False; [by apply IH|]. intros E. apply Hd. rewrite E. apply list_elem_of_fmap. eauto.
Qed.

(** The raw value a flag with that text leaves. *)
Definition raw_of (texts : string → string) (df : destField) : RawMessage :=
  match marshalAsNeeded df (texts (configName (fld df))) with Ok raw => raw | _ => "" end.

Definition flag_accu (texts : string → string) (dfs : list destField) (accu : gmap string RawMessage) :=
  foldl (λ a df, <[configName (fld df) := raw_of texts df]> a) accu dfs.

Lemma Parse_flags fs formals texts dfs accu :
  Forall (λ df, formal formals (configName (fld df)) = Some (FVal df) ∧ flag_name (configName (fld df)) ∧
                is_ok (marshalAsNeeded df (texts (configName (fld df)))) = true) dfs →
  Parse fs formals ((λ df, flag_arg (configName (fld df)) (texts (configName (fld df)))) <$> dfs) accu
  = (flag_accu texts dfs accu, Ok ()).
Proof.
  intros Hall. revert accu. induction Hall as [|df dfs (Hf&Hn&Hm) _ IH]; intros accu; [done|].
  cbn -[flag_arg read_arg]. rewrite read_arg_flag, Hf by done.
  assert (set_or_exit fs (FVal df) (texts (configName (fld df))) accu
    = (<[configName (fld df) := raw_of texts df]> accu, Ok ())) as Hset.
  { unfold set_or_exit, flag_Set, val_Set, raw_of. by destruct (marshalAsNeeded df _). }
  cbn [from_option id]. by destruct (flag_is_bool (FVal df)); unfold st_bind; rewrite Hset; cbn [from_option id]; rewrite IH.
Qed.

Lemma flag_accu_other texts dfs accu n : n ∉ names dfs → flag_accu texts dfs accu !! n = accu !! n.
Proof.
  unfold flag_accu. revert accu. induction dfs as [|df dfs IH]; intros accu Hn; cbn in *; [done|].
  rewrite IH by set_solver. apply lookup_insert_ne. set_solver.
Qed.

Lemma flag_accu_lookup texts dfs accu df :
  NoDup (names dfs) → df ∈ dfs → flag_accu texts dfs accu !! configName (fld df) = Some (raw_of texts df).
Proof.
  revert accu. induction dfs as [|d dfs IH]; intros accu Hnd Hin; cbn in *; [set_solver|].
  apply NoDup_cons in Hnd as [Hd Hnd]. apply elem_of_cons in Hin as [->|Hin]; [|by apply IH].
  unfold flag_accu in *. cbn. fold (flag_accu texts dfs (<[configName (fld d):=raw_of texts d]> accu)).
  rewrite flag_accu_other by done. by rewrite lookup_insert_eq.
Qed.

Lemma each_field_ext (b b' : StructField → st value string unit) s :
  Forall (λ df, b (fld df) (dest df) = b' (fld df) (dest df)) (traverseStruct s) →
  each_field b s = each_field b' s.
Proof.
  induction s as [|f v rest IH|f sub IHs rest IH]; cbn; [done|..]; destruct (exported f); cbn.
  - intros [Hb Hr]%Forall_cons. cbn in Hb. by rewrite Hb, IH.
  - intros Hr. by rewrite IH.
  - intros [Hs Hr]%Forall_app. by rewrite IHs, IH.
  - intros Hr. by rewrite IH.
Qed.

(** A flag's value decoded again is its text set directly. *)
Lemma Unmarshal_flag df text raw :
  marshalAsNeeded df text = Ok raw → Unmarshal raw (dest df) = set_text text (dest df).
Proof.
  unfold marshalAsNeeded, set_text. destruct (dest df) as [s|b|z|z|s|n|s|t r] eqn:Ed; cbn.
  - intros [= <-]. unfold on. by rewrite json_string_marshal.
  - destruct (ParseBool text); intros [= <-]. unfold on. by rewrite json_bool_marshal.
  - by intros [= <-].
  - intros [= <-]. unfold UnmarshalJSONViaString. by rewrite json_string_marshal.
  - intros [= <-]. unfold UnmarshalJSONViaString. by rewrite json_string_marshal.
  - by intros [= <-].
  - intros [= <-]. unfold UnmarshalJSONViaString. by rewrite json_string_marshal.
  - by intros [= <-].
Qed.

(** C40: A configuration given on the command line, one [-name=text] for each
    field and nothing else, when the fields' names are distinct, other than
    [cfg@] and names flag accepts, the texts of boolean fields parse and no
    other flag is registered, has the effect of setting the fields from their texts directly:
    what the flags marshal is read back by the fields' decoders, embedded
    structs and the holders that parse strings included, and errors name the
    field. *)
Theorem command_line_config E t s texts :
  let dfs := traverseStruct s in
  NoDup (names dfs ++ ["cfg@"]) → Forall flag_name (names dfs) →
  Forall (λ df, is_ok (marshalAsNeeded df (texts (configName (fld df)))) = true) dfs →
  formals0 E = [] →
  args E = ((λ df, flag_arg (configName (fld df)) (texts (configName (fld df)))) <$> dfs) →
  ReadFiles E false (PtrStruct t s) ["<flags>"] =
    (let '(s', o) := set_texts texts s in (PtrStruct t s', returned o)).
Proof.
  intros dfs Hnd Hn Hm Hf Ha.
  pose proof (proj1 (NoDup_app _ _) Hnd) as (Hnd'&_&_).
  assert (Forall (λ df, formal (((λ d, (configName (fld d), FVal d)) <$> dfs) ++ [("cfg@", FConfigAt)])
      (configName (fld df)) = Some (FVal df) ∧ flag_name (configName (fld df)) ∧
      is_ok (marshalAsNeeded df (texts (configName (fld df)))) = true) dfs) as Hall.
  { rewrite Forall_fmap, Forall_forall in Hn. rewrite Forall_forall in Hm |- *. intros df Hin.
    split; [by apply formal_lookup|]. split; [by apply Hn|by apply Hm]. }
  unfold ReadFiles, ReadFilesDefaults, checkDestConfig, marshal_defaults, read_sources.
  rewrite decide_True by done. unfold readUsingFlags, mark_read, mbind, st_bind, mret, st_ret.
  cbn [parsed accu]. rewrite Hf, register_Ok by done. rewrite Ha, app_nil_l. fold dfs.
  rewrite (Parse_flags _ _ _ _ _ Hall). cbn [readOne accu].
  unfold fillDestConfig, set_texts. erewrite each_field_ext; [done|].
  apply Forall_forall. intros df Hin. unfold fill_field.
  rewrite flag_accu_lookup by done. rewrite Forall_forall in Hm. specialize (Hm df Hin). cbn in Hm.
  unfold raw_of. destruct (marshalAsNeeded df _) as [raw|e|] eqn:E2; [|done..].
  by rewrite (Unmarshal_flag _ _ _ E2).
Qed.

(** ** Comparing *)

Lemma refilled_traverse s s' :
  refilled (λ _ _ _, True) s s' → fld <$> traverseStruct s = fld <$> traverseStruct s'.
Proof. intros Hr%refilled_fields. induction Hr as [|?? l k []]; cbn; [done|]. by f_equal. Qed.

Lemma compare_fields_zip fields1 fields2 :
  length fields1 = length fields2 →
  compare_fields fields1 fields2
  = (λ p, configName (fld p.1)) <$> filter (λ p, dest p.1 ≠ dest p.2) (zip fields1 fields2).
Proof.
  revert fields2. induction fields1 as [|d1 l1 IH]; intros [|d2 l2]; cbn; try done.
  intros [= Hl]. rewrite IH by done. case_bool_decide.
  - rewrite decide_False by naive_solver. done.
  - by rewrite decide_True.
Qed.

(** Two configurations of a type compare as the names of the visited fields
    that differ, in order; none exactly when they agree. *)
Theorem compare_config t s1 s2 :
  refilled (λ _ _ _, True) s1 s2 →
  CompareConfig (PtrStruct t s1) (PtrStruct t s2) =
    Ok ((λ p, configName (fld p.1)) <$> filter (λ p, dest p.1 ≠ dest p.2) (zip (traverseStruct s1) (traverseStruct s2)))
  ∧ (CompareConfig (PtrStruct t s1) (PtrStruct t s2) = Ok [] ↔ dest <$> traverseStruct s1 = dest <$> traverseStruct s2).
Proof.
  intros Hr%refilled_traverse.
  assert (length (traverseStruct s1) = length (traverseStruct s2)) as Hl
    by (rewrite <- (length_fmap fld), Hr; apply length_fmap).
  unfold CompareConfig, checkDestConfig. cbn -[compare_fields]. rewrite decide_True by done.
  rewrite compare_fields_zip by done. split; [done|]. clear Hr.
  revert Hl. generalize (traverseStruct s2). induction (traverseStruct s1) as [|d1 l1 IH]; intros [|d2 l2]; cbn [length zip_with]; try done.
  intros [= Hl]. specialize (IH l2 Hl). rewrite filter_cons, !fmap_cons. cbn [fst snd].
  destruct (decide (dest d1 = dest d2)) as [E|E].
  - rewrite decide_False by naive_solver. rewrite IH, E. split; [by intros ->|by intros [= ?]].
  - rewrite decide_True by done. split; [done|by intros [= ?]].
Qed.
End props.

(** ** An instance of the libraries, and the theorems on inputs *)

Definition unquote (raw : string) : string :=
  String.string_of_list_ascii (removelast (String.list_ascii_of_string (str_drop 1 raw))).

Lemma unquote_quoted s : unquote (quoted s) = s.
Proof.
  unfold unquote, quoted, dquote. rewrite str_app_cons, str_app_nil. cbn [str_drop].
  replace (String.list_ascii_of_string (s +:+ String (ascii_of_nat 34) EmptyString))
    with (String.list_ascii_of_string s ++ [ascii_of_nat 34]).
  - rewrite removelast_last. apply String.string_of_list_ascii_of_string.
  - induction s as [|c s IH]; [done|]. rewrite str_app_cons. cbn. by f_equal.
Qed.

Fixpoint decimal (n : Z) (s : string) : option Z :=
  match s with
  | EmptyString => Some n
  | String a s =>
      let d := Z.of_nat (nat_of_ascii a) - 48 in
      if bool_decide (0 ≤ d < 10) then decimal (10 * n + d) s else None
  end.

(** Values without escapes; one object; whole seconds; one colon. *)
#[local] Instance plain_libs : Libs := {|
  json_object s :=
    if decide (s = "{queue: 3, addr: :80}") then Ok {["queue" := "3"; "addr" := quoted ":80"]}
    else Err "invalid character";
  json_string raw s := if decide (raw = quoted (unquote raw)) then (unquote raw, Ok ()) else (s, Err "not a string");
  json_bool raw b :=
    if decide (raw = "true") then (true, Ok ()) else if decide (raw = "false") then (false, Ok ()) else (b, Err "not a bool");
  json_int raw z := match decimal 0 raw with
    | Some n => if decide (in_sN 64 n) then (n, Ok ()) else (z, Err "out of range") | None => (z, Err "not an int") end;
  json_uint raw z := match decimal 0 raw with
    | Some n => if decide (0 ≤ n < 2 ^ 64) then (n, Ok ()) else (z, Err "out of range") | None => (z, Err "not an int") end;
  json_other _ raw _ := (raw, Ok ());
  kind_is_bool _ := false;
  marshal_string := quoted;
  marshal_bool b := if b then "true" else "false";
  ParseDuration s := match cut_at "s" s with
    | Some (d, "") => match decimal 0 d with
        | Some n => if decide (in_sN 64 (n * 10 ^ 9)) then Ok (n * 10 ^ 9) else Err "bad duration" | None => Err "bad duration" end
    | _ => Err "bad duration" end;
  SplitHostPort s := match cut_at ":" s with Some hp => Ok hp | None => Err "missing port in address" end;
|}.

#[local] Instance plain_laws : LibsLaws.
Proof.
  split; unfold json_string, json_bool, json_int, json_uint, marshal_string, marshal_bool, ParseDuration, plain_libs.
  - intros s c. rewrite unquote_quoted. by rewrite decide_True.
  - by intros [] c.
  - intros raw z z' o Hz. destruct (decimal 0 raw); [case_decide|]; by intros [= <- <-].
  - intros raw z z' o Hz. destruct (decimal 0 raw); [case_decide|]; by intros [= <- <-].
  - intros s d. destruct (cut_at "s" s) as [[x [|]]|]; try done. destruct (decimal 0 x); [|done].
    case_decide; by intros [= <-].
Qed.

Definition pub (n tag : string) : StructField := {| Name := n; PkgPath := ""; json_tag := tag; help_tag := "" |}.
Definition hidden (n : string) : StructField := {| Name := n; PkgPath := "server"; json_tag := ""; help_tag := "" |}.

Definition ex_struct : strct :=
  SField (pub "Queue" "") (VQueueSize 0)
    (SEmbed (pub "TLS" "")
      (SField (pub "ParsedAddr" "addr") (VHostPort "") (SField (hidden "cert") (VOther "cert" "") SNil))
      (SField (pub "Level" "level") (VLogLevel "")
        (SField (pub "Verbose" "") (VBool false) SNil))).

Definition ex_env : env :=
  {| fs := {["a.json" := Ok "{queue: 3, addr: :80}"]};
     args := ["-queue=7"; "-addr=host:1"; "-level=info"; "-verbose=T"];
     formals0 := []; IgnoreParsedFlags := false |}.

Definition ex_texts (n : string) : string :=
  if decide (n = "queue") then "7" else if decide (n = "addr") then "host:1"
  else if decide (n = "level") then "info" else "T".

Definition ex_filled (q : Z) (a l : string) (b : bool) : strct :=
  SField (pub "Queue" "") (VQueueSize q)
    (SEmbed (pub "TLS" "")
      (SField (pub "ParsedAddr" "addr") (VHostPort a) (SField (hidden "cert") (VOther "cert" "") SNil))
      (SField (pub "Level" "level") (VLogLevel l)
        (SField (pub "Verbose" "") (VBool b) SNil))).

Lemma ex_command_line :
  ReadFiles ex_env false (PtrStruct "cfg" ex_struct) ["<flags>"]
  = (PtrStruct "cfg" (ex_filled 7 "host:1" "info" true), Ok ()).
Proof. vm_compute. reflexivity. Qed.

(** Defaults, then a file: the file's values win. *)
Lemma ex_files :
  ReadFilesDefaults ex_env false (PtrStruct "cfg" ex_struct)
    [("queue", Ok "9"); ("level", Ok (quoted "debug")); ("verbose", Ok "true")] ["none.json"; "a.json"]
  = (PtrStruct "cfg" (ex_filled 3 ":80" "debug" true), Ok ()).
Proof. vm_compute. reflexivity. Qed.

Lemma ex_go_values : go_values ex_struct.
Proof. unfold go_values. cbn. repeat (apply Forall_cons; split; [done|]). constructor. Qed.

Lemma config_well_typed_witness :
  ∃ s', PtrStruct "cfg" (ex_filled 3 ":80" "debug" true) = PtrStruct "cfg" s' ∧
    refilled (λ _ v v', same_type v v' ∧ go_value v' ∧ ((Ok () : outcome stop unit) = Ok () → value_ok v')) ex_struct s'.
Proof. exact (config_well_typed _ _ _ _ _ _ _ _ ex_go_values ex_files). Defined.

Lemma command_line_config_witness :
  ReadFiles ex_env false (PtrStruct "cfg" ex_struct) ["<flags>"] =
    (let '(s', o) := set_texts ex_texts ex_struct in (PtrStruct "cfg" s', returned o)).
Proof.
  apply command_line_config.
  - apply (bool_decide_unpack _). vm_compute. reflexivity.
  - repeat (constructor; [by split|]). constructor.
  - repeat (constructor; [vm_compute; reflexivity|]). constructor.
  - reflexivity.
  - vm_compute. reflexivity.
Defined.
End ConfigProps.
