(* ===== verification/Endpoint.v ===== *)
(** The D-Bus plumbing: endpoints (bus/bus.go, bus/endpoint.go) and the
    services wrapped on top of them (bus/networkmanager/, bus/urfkill/,
    bus/powerd/, bus/polld/), and the postal service behind an endpoint.

    The D-Bus library is a parameter: what it answers to connecting, calling
    and setting up watches, and how it decodes arguments. A watch is the list
    of messages it delivers before it ends; a channel that is written and then
    closed is the list of what was sent. *)

From S2P Require Import Prelude Base64 Click HelperPool Mbox Postal.

Local Open Scope Z_scope.

(** ** Values and messages *)
Inductive val :=
| VStr (s : string)
| VPath (s : string)          (** [dbus.ObjectPath] *)
| VBool (b : bool)
| VUint32 (z : Z)
| VInt32 (z : Z)
| VUint64 (z : Z)
| VVariant (v : val)          (** [*dbus.Variant] *)
| VMap (m : list (string * val))   (** [map[string]dbus.Variant] *)
| VStrs (l : list string)
| VAny (repr : string).

(** [m[k]] of a map of variants *)
Fixpoint prop (m : list (string * val)) (k : string) : option val :=
  match m with
  | [] => None
  | (k', v) :: m => if decide (k' = k) then Some v else prop m k
  end.

Record message := { Member : string; Iface : string; Path : string; m_body : list val }.

Inductive bus_reply :=
| ErrorReply (name text : string)
| MethodReturn (vals : list val).

(** A method call on an object of a destination. *)
Record request := { r_dest : string; r_path : string; r_iface : string; r_member : string; r_args : list val }.

Record Address := { a_Name : string; a_Path : string; a_Interface : string }.

(** The library's decoding of a message's arguments into given types, and
    the building of a reply from values. *)
Class DBusLib := {
  Args_map : list val → option (list (string * val));
  Args_props : list val → option (string * list (string * val) * list string);
  Args_string : list val → outcome string string;
  Args_bool : list val → outcome string bool;
  AppendArgs : list val → option string;   (** an error *)
}.

Module Endpoint.
Section endpoint.
Context `{!DBusLib} (addr : Address).

(** *** Dialing *)

(** What the bus answers. *)
Record busd := {
  Connect : outcome string unit;
  NameHasOwner : string → outcome string bool;
  ListActivatableNames : outcome string (list string);
}.

(** The connection and proxy that are set, and the connections that were
    opened and not closed. *)
Record endpoint := { bus : bool; proxy : bool; opened : nat }.

Definition new_endpoint : endpoint := {| bus := false; proxy := false; opened := 0 |}.

(** [for _, name := range names { if name == name ... }]: the loop's variable
    hides the name looked for. *)
Fixpoint found (names : list string) : bool :=
  match names with
  | [] => false
  | name :: names => if decide (name = name) then true else found names
  end.

Definition open_conn (e : endpoint) : endpoint := {| bus := bus e; proxy := proxy e; opened := S (opened e) |}.
Definition close_conn (e : endpoint) : endpoint := {| bus := bus e; proxy := proxy e; opened := opened e - 1 |}.

Definition Dial (d : busd) : st endpoint string unit := λ e,
  match Connect d with
  | Err err => (e, Err err)
  | Panic => (e, Panic)
  | Ok _ =>
      let e := open_conn e in
      let name := a_Name addr in
      let dialed := ({| bus := true; proxy := true; opened := opened e |}, Ok ()) in
      match NameHasOwner d name with
      | Err err => (close_conn e, Err err)
      | Panic => (e, Panic)
      | Ok true => dialed
      | Ok false =>
          match ListActivatableNames d with
          | Err err => (close_conn e, Err err)
          | Panic => (e, Panic)
          | Ok names =>
              if found names then dialed
              else (close_conn e, Err (quoted name +:+ " has no owner, and not in activatables"))
          end
      end
  end.

Definition Close (e : endpoint) : endpoint :=
  if bus e then {| bus := false; proxy := false; opened := opened e - 1 |} else e.

(** *** Calls *)
Section calls.
Context (Call_bus : request → outcome string (list val)).

(** A call through the proxy of the endpoint's own object. *)
Definition proxy_call (iface member : string) (args : list val) : outcome string (list val) :=
  Call_bus {| r_dest := a_Name addr; r_path := a_Path addr; r_iface := iface; r_member := member; r_args := args |}.

Definition Call {A} (Args : list val → outcome string A) (member : string) (args : list val) : outcome string A :=
  msg ← proxy_call (a_Interface addr) member args; Args msg.

(** [unpackOneMsg]: one map of variants, or all the arguments. *)
Definition unpackOneMsg (msg : list val) : list val :=
  match Args_map msg with Some m => [VMap m] | None => msg end.

Definition GetProperty (property : string) : outcome string val :=
  msg ← proxy_call "org.freedesktop.DBus.Properties" "Get" [VStr (a_Interface addr); VStr property];
  match unpackOneMsg msg with
  | [] => Err "not enough values in Properties.Get response: 0"
  | [VVariant v] => Ok v
  | [_] => Err "response from Properties.Get wasn't a *dbus.Variant"
  | _ => Err "too many values in Properties.Get response"
  end.

Definition SetProperty (property suffix : string) (v : val) : outcome string unit :=
  _ ← Call_bus {| r_dest := a_Name addr; r_path := a_Path addr +:+ suffix;
                  r_iface := "org.freedesktop.DBus.Properties"; r_member := "Set";
                  r_args := [VStr (a_Interface addr); VStr property; v] |};
  mret ().
End calls.

(** *** Watches *)

(** What a watch gives: an error when it is set up, or the messages until its
    channel is closed. *)
Definition watch : Type := string + list (list val).

(** [f] sends at most one value on the watcher's channel for a message; [d]
    closes it. The list of what is sent, and how the goroutine ends. *)
Fixpoint unpackMessages {A} (f : list val → outcome unit (option A)) (ms : list (list val))
    : list A * outcome unit unit :=
  match ms with
  | [] => ([], Ok ())
  | m :: ms =>
      match f (unpackOneMsg m) with
      | Ok (Some a) => let '(l, o) := unpackMessages f ms in (a :: l, o)
      | Ok None => unpackMessages f ms
      | Err e => ([], Err e)
      | Panic => ([], Panic)
      end
  end.

(** [WatchSignal(member, f, d)] for the member's watch: an error, or the
    channel. *)
Definition WatchSignal {A} (w : string → watch) (member : string) (f : list val → outcome unit (option A))
    : outcome string (list A * outcome unit unit) :=
  match w member with
  | inl e => Err e
  | inr ms => Ok (unpackMessages f ms)
  end.

(** [WatchProperties]: the goroutine also ends on a message that does not
    decode. *)
Fixpoint watch_props {A} (f : list (string * val) → option A) (ms : list (list val)) : list A :=
  match ms with
  | [] => []
  | m :: ms =>
      match Args_props m with
      | None => []
      | Some (intfName, changed, _) =>
          if decide (intfName ≠ a_Interface addr) then watch_props f ms
          else match f changed with
               | Some a => a :: watch_props f ms
               | None => watch_props f ms
               end
      end
  end.

Definition WatchProperties {A} (w : watch) (f : list (string * val) → option A) : outcome string (list A) :=
  match w with inl e => Err e | inr ms => Ok (watch_props f ms) end.

(** *** Serving *)

Inductive name_flag := NameFlagAllowReplacement | NameFlagReplaceExisting.
Definition GrabName_flags (allowReplacement : bool) : list name_flag :=
  if allowReplacement then [NameFlagAllowReplacement; NameFlagReplaceExisting] else [].

(** [Signal]: the message sent, and the error returned. An error of sending
    is only logged. *)
Definition Signal (member suffix : string) (args : option (list val)) : option (string * string * list val) * outcome string unit :=
  let msg vals := Some (a_Path addr +:+ suffix, member, vals) in
  match args with
  | None => (msg [], Ok ())
  | Some vals => match AppendArgs vals with Some e => (None, Err e) | None => (msg vals, Ok ()) end
  end.

(** The log of a successful call replaces whatever decodes as base 64. *)
Definition sanitize (Sprint : val → string) (rvals : list val) : list string :=
  (λ v, let sane := Sprint v in
        match Base64.DecodeString sane with Some _ => "LooksLikeAToken==" | None => sane end) <$> rvals.

Section serve.
Context {S : Type}.

(** [BusMethod] and [DispatchMap]; the methods share the state of their
    service, and [extra] is passed through. *)
Definition BusMethod : Type := string → list val → st S string (list val).
Definition DispatchMap : Type := string → option BusMethod.

Definition err_iface : string := a_Interface addr +:+ ".Error".

(** The reply to a message: one iteration of the goroutine of [WatchMethod],
    up to [endp.bus.Send(reply)]. *)
Definition answer (dispatch : DispatchMap) (msg : message) : st S unit bus_reply := λ s,
  match dispatch (Member msg) with
  | Some meth =>
      if decide (Iface msg ≠ a_Interface addr)
      then (s, Ok (ErrorReply "org.freedesktop.DBus.Error.UnknownMethod" "Unknown method"))
      else
        match meth (Path msg) (m_body msg) s with
        | (s', Err e) => (s', Ok (ErrorReply err_iface e))
        | (s', Panic) => (s', Panic)
        | (s', Ok rvals) =>
            match AppendArgs rvals with
            | Some e => (s', Ok (ErrorReply err_iface e))
            | None => (s', Ok (MethodReturn rvals))
            end
        end
  | None => (s, Ok (ErrorReply "org.freedesktop.DBus.Error.UnknownMethod" "Unknown method"))
  end.

(** The messages are answered one after the other. The replies are those handed
    to [endp.bus.Send], one for each message; whether a reply gets through does not
    matter to the goroutine, which only logs an error of [Send]. *)
Fixpoint WatchMethod (dispatch : DispatchMap) (msgs : list message) (s : S) : S * list bus_reply * outcome unit unit :=
  match msgs with
  | [] => (s, [], Ok ())
  | msg :: msgs =>
      match answer dispatch msg s with
      | (s', Ok r) => let '(s'', rs, o) := WatchMethod dispatch msgs s' in (s'', r :: rs, o)
      | (s', Err e) => (s', [], Err e)
      | (s', Panic) => (s', [], Panic)
      end
  end.
End serve.
End endpoint.
End Endpoint.

(** ** NetworkManager (bus/networkmanager/networkmanager.go) *)
Module NetworkManager.
Import Endpoint.
Section nm.
Context `{!DBusLib}.

Definition BusAddress : Address :=
  {| a_Name := "org.freedesktop.NetworkManager"; a_Path := "/org/freedesktop/NetworkManager";
     a_Interface := "org.freedesktop.NetworkManager" |}.

Context (Call_bus : request → outcome string (list val)) (w : string → watch).

(** An error, or a value of another type, gives the default. *)
Definition get_or {A} (d : A) (of_val : val → option A) (got : outcome string val) : outcome unit A :=
  match got with
  | Ok v => Ok (default d (of_val v))
  | Err _ => Ok d
  | Panic => Panic
  end.

Definition as_uint32 (v : val) : option Z := match v with VUint32 z => Some z | _ => None end.
Definition as_path (v : val) : option string := match v with VPath s => Some s | _ => None end.
Definition as_bool (v : val) : option bool := match v with VBool b => Some b | _ => None end.

Definition GetState : outcome unit Z := get_or 0 as_uint32 (GetProperty BusAddress Call_bus "State").

(** [ns[0]] panics when the signal has no argument. *)
Definition on_first {A} (f : val → option A) (ns : list val) : outcome unit (option A) :=
  match ns with [] => Panic | v :: _ => Ok (f v) end.

Definition WatchState : outcome string (list Z * outcome unit unit) :=
  WatchSignal w "StateChanged" (on_first as_uint32).

Definition GetPrimaryConnection : outcome unit string :=
  get_or "" as_path (GetProperty BusAddress Call_bus "PrimaryConnection").

(** A changed property of the map of a PropertiesChanged signal. *)
Definition changed_prop {A} (name : string) (of_val : val → option A) (v : val) : option A :=
  match v with VMap pps => prop pps name ≫= of_val | _ => None end.

Definition WatchPrimaryConnection : outcome string (list string * outcome unit unit) :=
  WatchSignal w "PropertiesChanged" (on_first (changed_prop "PrimaryConnection" as_path)).

Definition GetWirelessEnabled : outcome unit bool :=
  get_or true as_bool (GetProperty BusAddress Call_bus "WirelessEnabled").

Definition WatchWirelessEnabled : outcome string (list bool * outcome unit unit) :=
  WatchSignal w "PropertiesChanged" (on_first (changed_prop "WirelessEnabled" as_bool)).
End nm.
End NetworkManager.

(** ** URfkill (bus/urfkill/urfkill.go) *)
Module URfkill.
Import Endpoint NetworkManager.
Section urfkill.
Context `{!DBusLib}.

Definition BusAddress : Address :=
  {| a_Name := "org.freedesktop.URfkill"; a_Path := "/org/freedesktop/URfkill";
     a_Interface := "org.freedesktop.URfkill" |}.
Definition WLANKillswitchBusAddress : Address :=
  {| a_Name := "org.freedesktop.URfkill"; a_Path := "/org/freedesktop/URfkill/WLAN";
     a_Interface := "org.freedesktop.URfkill.Killswitch" |}.

Definition KillswitchStateUnblocked : Z := 0.
Definition KillswitchStateSoftBlocked : Z := 1.
Definition KillswitchStateHardBlocked : Z := 2.

Context (Call_bus : request → outcome string (list val)) (w : string → watch) (wlan : watch).

Definition IsFlightMode : outcome unit bool :=
  match Call BusAddress Call_bus Args_bool "IsFlightMode" [] with
  | Ok b => Ok b
  | Err _ => Ok false
  | Panic => Panic
  end.

Definition WatchFlightMode : outcome string (list bool * outcome unit unit) :=
  WatchSignal w "FlightModeChanged" (on_first as_bool).

Definition as_int32 (v : val) : option Z := match v with VInt32 z => Some z | _ => None end.

Definition GetWLANKillswitchState : outcome unit Z :=
  get_or KillswitchStateUnblocked as_int32 (GetProperty WLANKillswitchBusAddress Call_bus "state").

Definition WatchWLANKillswitchState : outcome string (list Z) :=
  WatchProperties WLANKillswitchBusAddress wlan (λ changed, prop changed "state" ≫= as_int32).
End urfkill.
End URfkill.

(** ** powerd and polld (bus/powerd/powerd.go, bus/polld/polld.go)

    [configured]: an endpoint was given to [New]. *)
Module Power.
Import Endpoint.
Section power.
Context `{!DBusLib} (configured : bool).

Definition powerd_BusAddress : Address :=
  {| a_Name := "com.canonical.powerd"; a_Path := "/com/canonical/powerd"; a_Interface := "com.canonical.powerd" |}.
Definition polld_BusAddress : Address :=
  {| a_Name := "com.ubuntu.AccountPolld"; a_Path := "/com/ubuntu/AccountPolld"; a_Interface := "com.ubuntu.AccountPolld" |}.

Definition ErrUnconfigured : string := "unconfigured.".

Context (Call_bus : request → outcome string (list val)) (w : string → watch).

Definition when_configured {A} (m : outcome string A) : outcome string A :=
  if configured then m else Err ErrUnconfigured.

(** A call without results. *)
Definition Args_none (_ : list val) : outcome string unit := Ok ().

(** [uint64(wakeupTime.Unix())] of a time in seconds. *)
Definition RequestWakeup (name : string) (wakeupTime : Z) : outcome string string :=
  when_configured (Call powerd_BusAddress Call_bus Args_string "requestWakeup" [VStr name; VUint64 (u64 wakeupTime)]).
Definition ClearWakeup (cookie : string) : outcome string unit :=
  when_configured (Call powerd_BusAddress Call_bus Args_none "clearWakeup" [VStr cookie]).
Definition RequestWakelock (name : string) : outcome string string :=
  when_configured (Call powerd_BusAddress Call_bus Args_string "requestSysState" [VStr name; VInt32 1]).
Definition ClearWakelock (cookie : string) : outcome string unit :=
  when_configured (Call powerd_BusAddress Call_bus Args_none "clearSysState" [VStr cookie]).
Definition Poll : outcome string unit :=
  when_configured (Call polld_BusAddress Call_bus Args_none "Poll" []).

(** The error of [WatchSignal] is dropped: the channel is then neither
    written nor closed. *)
Inductive done_chan := Delivers (ticks : nat) | Silent.

Definition watch_ticks (member : string) : outcome string done_chan :=
  when_configured
    match WatchSignal w member (λ _, Ok (Some true)) with
    | Ok (l, _) => Ok (Delivers (length l))
    | _ => Ok Silent
    end.
Definition WatchWakeups : outcome string done_chan := watch_ticks "Wakeup".
Definition WatchDones : outcome string done_chan := watch_ticks "Done".
End power.
End Power.

(** ** What the wrappers promise *)
Module EndpointProps.
Import Endpoint NetworkManager Power.

Section props.
Context `{!DBusLib}.

(** Redialing. A failed [Dial] leaves the endpoint as it was and closes what
    it opened; a successful one replaces the connection without closing one
    that was open before. An endpoint is dialed when its name has an owner,
    and also whenever the bus lists any activatable name at all. *)
Theorem dial_outcome_bus addr d e e' o :
  Dial addr d e = (e', o) → o ≠ Panic →
  (∀ err, o = Err err → e' = e) ∧
  (o = Ok () → bus e' = true ∧ opened e' = S (opened e)) ∧
  (o = Ok () ↔ Connect d = Ok () ∧
     (NameHasOwner d (a_Name addr) = Ok true ∨
      NameHasOwner d (a_Name addr) = Ok false ∧ ∃ n ns, ListActivatableNames d = Ok (n :: ns))).
Proof.
  unfold Dial. destruct (Connect d) as [[]|err|] eqn:Ec; [| |intros [= <- <-] Hn; by destruct Hn].
  2: { intros [= <- <-] _. split_and!; [done..|]. split; [done|]. intros [[=] _]. }
  assert (close_conn (open_conn e) = e) as Hcl.
  { destruct e. unfold close_conn, open_conn; cbn. f_equal. lia. }
  destruct (NameHasOwner d (a_Name addr)) as [[]|err|] eqn:En; cbn [open_conn opened].
  - intros [= <- <-] _. naive_solver.
  - destruct (ListActivatableNames d) as [[|n ns]|err|] eqn:El; cbn [found].
    + rewrite Hcl. intros [= <- <-] _. naive_solver.
    + rewrite decide_True by done. intros [= <- <-] _. naive_solver.
    + rewrite Hcl. intros [= <- <-] _. naive_solver.
    + intros [= <- <-] Hn. by destruct Hn.
  - rewrite Hcl. intros [= <- <-] _. naive_solver.
  - intros [= <- <-] Hn. by destruct Hn.
Qed.

(** A watch that never delivers an empty message passes on exactly the values
    of the type it looks for, in order, and closes its channel at the end. *)
Lemma unpackMessages_first {A} (f : val → option A) ms :
  Forall (λ m, unpackOneMsg m ≠ []) ms →
  unpackMessages (on_first f) ms = (omap (λ m, head (unpackOneMsg m) ≫= f) ms, Ok ()).
Proof.
  induction 1 as [|m ms Hm _ IH]; cbn; [done|].
  destruct (unpackOneMsg m) as [|v vs]; [done|]. cbn. rewrite IH.
  by destruct (f v).
Qed.

Lemma unpackMessages_panic {A} (f : val → option A) ms1 m ms2 :
  Forall (λ m, unpackOneMsg m ≠ []) ms1 → unpackOneMsg m = [] →
  unpackMessages (on_first f) (ms1 ++ m :: ms2) = (omap (λ m, head (unpackOneMsg m) ≫= f) ms1, Panic).
Proof.
  intros H1 H2. induction H1 as [|m1 ms1 Hm1 _ IH]; cbn; [by rewrite H2|].
  destruct (unpackOneMsg m1) as [|v vs]; [done|]. cbn. rewrite IH. by destruct (f v).
Qed.

(** The state of the network and its changes. The state read is the number
    NetworkManager gives, and unknown (0) in every other case; the watch
    passes on exactly the states signalled, in order, ignoring arguments of
    another type, and panics at the first signal without arguments. *)
Theorem network_state Call_bus w ms :
  w "StateChanged" = inr ms →
  (∀ z, GetProperty BusAddress Call_bus "State" = Ok (VUint32 z) → GetState Call_bus = Ok z) ∧
  (GetProperty BusAddress Call_bus "State" ≠ Panic →
     (∀ z, GetProperty BusAddress Call_bus "State" ≠ Ok (VUint32 z)) → GetState Call_bus = Ok 0) ∧
  (Forall (λ m, unpackOneMsg m ≠ []) ms →
     WatchState w = Ok (omap (λ m, head (unpackOneMsg m) ≫= as_uint32) ms, Ok ())) ∧
  (∀ ms1 m ms2, ms = ms1 ++ m :: ms2 → Forall (λ m, unpackOneMsg m ≠ []) ms1 → unpackOneMsg m = [] →
     WatchState w = Ok (omap (λ m, head (unpackOneMsg m) ≫= as_uint32) ms1, Panic)).
Proof.
  intros Hw. unfold GetState, WatchState, WatchSignal. rewrite Hw.
  split_and!.
  - by intros z ->.
  - intros Hp Hz. destruct (GetProperty _ _ _) as [v|e|]; [|done..]. destruct v; try done. by destruct (Hz z).
  - intros Hms. by rewrite unpackMessages_first.
  - intros ms1 m ms2 -> H1 H2. by rewrite unpackMessages_panic.
Qed.

(** The watchers of powerd and polld do not report that the watch failed: the
    caller gets a channel on which nothing ever happens. *)
Theorem watch_error_dropped w member e :
  w member = inl e → watch_ticks true w member = Ok Silent.
Proof. intros Hw. unfold watch_ticks, WatchSignal. by rewrite Hw. Qed.
End props.
End EndpointProps.

(** ** The postal service behind its endpoint *)
Module PostalBus.
Import Endpoint Click Service ServiceSpec.

Definition PostalServiceBusAddress : Address :=
  {| a_Name := "com.ubuntu.Postal"; a_Path := "/com/ubuntu/Postal"; a_Interface := "com.ubuntu.Postal" |}.

Section postal.
Context `{!DBusLib}.
Context (CGetVersion : string → string) (desktop_file_found : string → bool).
Context (valid_json : string → bool) (Tags : AppId → list string) (Clear : AppId → list string → Z).
Context (err_text : svc_err → string).

(** The arguments as the handlers' type switches see them, and the values
    they return. *)
Definition to_dval (v : val) : dval :=
  match v with VStr s => DStr s | VInt32 z => DInt32 z | VBool b => DBool b | _ => DOther end.
Definition of_reply (r : Service.reply) : list val :=
  match r with RStrings l => [VStrs l] | RUint32 n => [VUint32 n] | RNothing => [] end.

Definition methods : list string := ["PopAll"; "Post"; "ListPersistent"; "ClearPersistent"; "SetCounter"].

(** The dispatch map of [PostalService.Start]; [newNid] is the id drawn if
    one is needed. *)
Definition dispatch (newNid : string) : DispatchMap (S := PostalService) := λ member,
  if decide (member ∈ methods) then
    Some (λ path args svc,
      match call CGetVersion desktop_file_found valid_json Tags Clear newNid member path (to_dval <$> args) svc with
      | Some (svc', Ok r) => (svc', Ok (of_reply r))
      | Some (svc', Err e) => (svc', Err (err_text e))
      | Some (svc', Panic) => (svc', Panic)
      | None => (svc, Panic)
      end)
  else None.

(** The messages with the ids drawn for them, answered in turn. *)
Fixpoint serve_bus (msgs : list (string * message)) (svc : PostalService)
    : PostalService * list bus_reply * outcome unit unit :=
  match msgs with
  | [] => (svc, [], Ok ())
  | (nid, msg) :: msgs =>
      match WatchMethod PostalServiceBusAddress (dispatch nid) [msg] svc with
      | (svc', rs, Ok _) => let '(svc'', rs', o) := serve_bus msgs svc' in (svc'', rs ++ rs', o)
      | (svc', rs, o) => (svc', rs, o)
      end
  end.

(** The call a message asks for; nothing, when it is for another interface. *)
Definition to_input (m : string * message) : input :=
  let '(nid, msg) := m in
  if decide (Iface msg = "com.ubuntu.Postal") then Call nid (Member msg) (Path msg) (to_dval <$> m_body msg)
  else Action false None.

(** What a reply hands out for a message: the strings returned to [PopAll]. *)
Definition handed_out (m : string * message) (r : bus_reply) (p : option (string * list string)) : Prop :=
  match p with
  | Some (_, l) => r = MethodReturn [VStrs l] ∧ Member m.2 = "PopAll"
  | None => Member m.2 = "PopAll" → Iface m.2 = "com.ubuntu.Postal" → ∃ e, r = ErrorReply "com.ubuntu.Postal.Error" e
  end.

Lemma ParseAndVerify_no_panic id : ParseAndVerifyAppId CGetVersion desktop_file_found id true ≠ Panic.
Proof.
  unfold ParseAndVerifyAppId. destruct (ParseAppId id) as [app|e|] eqn:E; [|done|].
  - cbn. unfold Installed, DesktopId, Versioned. destruct (Click app) eqn:Hc; [|by rewrite ?Hc].
    cbn. repeat case_decide; done.
  - revert E. unfold ParseAppId, setFromString. by repeat (case_match || case_decide).
Qed.

Lemma grab_no_panic path args n : grabDBusPackageAndAppId CGetVersion desktop_file_found path args n ≠ Panic.
Proof.
  unfold grabDBusPackageAndAppId. pose proof ParseAndVerify_no_panic as Hp.
  repeat (case_match || case_decide); try done. by edestruct Hp.
Qed.

(** No call makes the service panic while its boxes are intact. *)
Lemma call_no_panic Q newNid method path args svc svc' :
  refines svc Q →
  call CGetVersion desktop_file_found valid_json Tags Clear newNid method path args svc ≠ Some (svc', Panic).
Proof.
  intros HR. pose proof grab_no_panic as Hg. unfold call.
  repeat case_decide; unfold popAll, post, setCounter, listPersistent, clearPersistent; [..|done].
  - destruct (grabDBusPackageAndAppId _ _ path args 0) as [app|e|] eqn:E; cbn; [|done|by edestruct Hg].
    specialize (HR (Original app)). unfold boxes in HR. destruct (mbox svc) as [m|]; [|done]. cbn in HR.
    destruct (m !! Original app) as [b|]; [|done]. by rewrite (AllMessages_repr _ _ HR).
  - destruct (grabDBusPackageAndAppId _ _ path args 1) as [app|e|] eqn:E; cbn; [|done|by edestruct Hg].
    by repeat case_match; simplify_eq/=.
  - destruct (grabDBusPackageAndAppId _ _ path args 0) as [app|e|] eqn:E; cbn; [done..|by edestruct Hg].
  - destruct args as [|a rest]; [done|]. cbn.
    destruct (grabDBusPackageAndAppId _ _ path [a] 0) as [app|e|] eqn:E; cbn; [|done|by edestruct Hg].
    by destruct (string_args rest).
  - destruct (grabDBusPackageAndAppId _ _ path args 2) as [app|e|] eqn:E; cbn; [|done|by edestruct Hg].
    by repeat case_match; simplify_eq/=.
Qed.

Context (desk : desktop) (grow : nat → nat).
Context (AppendArgs_ok : ∀ r : Service.reply, AppendArgs (of_reply r) = None).

Abbreviation serve1 := (serve CGetVersion desktop_file_found desk grow valid_json Tags Clear).

Lemma answer_serve Q m svc :
  refines svc Q →
  ∃ r, WatchMethod PostalServiceBusAddress (dispatch m.1) [m.2] svc = ((serve1 (to_input m) svc).1, [r], Ok ()) ∧
       handed_out m r (serve1 (to_input m) svc).2.
Proof using AppendArgs_ok.
  intros HR. destruct m as [nid msg]. cbn. unfold answer, dispatch, handed_out. cbn.
  destruct (decide (Iface msg = "com.ubuntu.Postal")) as [Hi|Hi]; last first.
  { destruct (decide (Member msg ∈ methods)); [rewrite decide_True by done|];
      (eexists; split; [done|]; by intros _ ?). }
  destruct (decide (Member msg ∈ methods)) as [Hm|Hm].
  - rewrite decide_False by (intros Hn; by apply Hn). unfold serve.
    pose proof (call_no_panic Q nid (Member msg) (Path msg) (to_dval <$> m_body msg) svc) as Hp.
    destruct (call _ _ _ _ _ _ _ _ _ _) as [[svc' [r|e|]]|] eqn:Hc; [| |by edestruct Hp|].
    + rewrite AppendArgs_ok. destruct (decide (Member msg = "PopAll")) as [Hpop|Hpop].
      * rewrite Hpop in Hc. unfold call in Hc. rewrite decide_True in Hc by done. unfold popAll in Hc.
        destruct (grabDBusPackageAndAppId _ _ _ _ 0) as [app|e|] eqn:Hg; [|by simplify_eq/=..].
        repeat case_match; simplify_eq/=; rewrite ?Hg; eexists; split; by try reflexivity.
      * eexists; split; [by destruct r|]. destruct r; cbn; by intros.
    + eexists; split; [done|]. intros _ _. by eexists.
    + exfalso. revert Hc. unfold call, methods in *.
      repeat (case_decide; [repeat case_match; done|]). set_solver.
  - assert (call CGetVersion desktop_file_found valid_json Tags Clear nid (Member msg) (Path msg)
      (to_dval <$> m_body msg) svc = None) as Hc.
    { unfold call, methods in *. by repeat (rewrite decide_False by set_solver). }
    unfold serve. rewrite Hc. eexists; split; [done|]. intros Hpop. unfold methods in Hm. set_solver.
Qed.
End postal.

(** C38: The postal service on the bus. From a state whose boxes hold the
    queues [Q], whatever messages arrive (unknown methods, other interfaces,
    wrong arguments, foreign callers), the daemon does not panic and answers
    each message with exactly one reply handed to the bus, in order; a [PopAll]
    is answered with an error, or with the strings that the application's bounded queue holds
    at that point, and afterwards the boxes hold the queues the specification
    is left with. *)
Theorem postal_bus `{!DBusLib} CGetVersion desktop_file_found valid_json Tags Clear err_text Q msgs svc :
  (∀ r : Service.reply, AppendArgs (of_reply r) = None) →
  refines svc Q →
  let '(svc', rs, o) := serve_bus CGetVersion desktop_file_found valid_json Tags Clear err_text msgs svc in
  let '(Q', ps) := spec_serve_all CGetVersion desktop_file_found (to_input <$> msgs) Q in
  o = Ok () ∧ Forall3 handed_out msgs rs ps ∧ refines svc' Q'.
Proof.
  intros Ha. revert svc Q. induction msgs as [|m msgs IH]; intros svc Q HR; [by repeat constructor|].
  set (desk := {| TestURL _ _ := true; IsActive := false; IsAppFocused _ := false; AreNotificationsEnabled _ := true;
                  Presenters := []; emblemCounter _ _ _ := true |}).
  destruct (answer_serve CGetVersion desktop_file_found valid_json Tags Clear err_text desk id Ha Q m svc HR)
    as (r & Hw & Hh).
  destruct (serve_refines CGetVersion desktop_file_found desk id valid_json Tags Clear (to_input m) svc Q HR) as [H2 HR'].
  destruct m as [nid msg]. cbn [serve_bus fmap list_fmap spec_serve_all]. cbn [fst snd] in Hw. rewrite Hw.
  destruct (spec_serve _ _ (to_input (nid, msg)) Q) as [Q1 p]. cbn [fst snd] in *. rewrite H2 in Hh.
  specialize (IH _ _ HR').
  destruct (serve_bus _ _ _ _ _ _ msgs _) as [[svc' rs] o], (spec_serve_all _ _ (to_input <$> msgs) Q1) as [Q' ps].
  destruct IH as (-> & Hf & HR2). split; [done|]. split; [by constructor|done].
Qed.

(** A library that decodes what is there and encodes everything. *)
#[local] Instance plain_dbus : DBusLib := {|
  Args_map b := match b with VMap m :: _ => Some m | _ => None end;
  Args_props b := match b with VStr i :: VMap m :: VStrs l :: _ => Some (i, m, l) | _ => None end;
  Args_string b := match b with VStr s :: _ => Ok s | _ => Err "bad type" end;
  Args_bool b := match b with VBool b :: _ => Ok b | _ => Err "bad type" end;
  AppendArgs _ := None;
|}.

Definition ex_msg (member path id : string) : string * message :=
  ("nid", {| Member := member; Iface := "com.ubuntu.Postal"; Path := path; m_body := [VStr id] |}).

Definition ex_msgs : list (string * message) :=
  [ex_msg "PopAll" "/com/ubuntu/Postal/com_2eexample" "com.example_app";
   ex_msg "Frobnicate" "/com/ubuntu/Postal/com_2eexample" "com.example_app";
   ex_msg "PopAll" "/com/ubuntu/Postal/com_2eother" "com.example_app"].

Lemma ex_serve_bus :
  (serve_bus (λ p, if decide (p = "com.example") then "1.0" else "") (λ _, false) (λ _, true) (λ _, [])
     (λ _ _, 0) (λ _, "failed") ex_msgs {| mbox := None; events := [] |}).1.2
  = [MethodReturn [VStrs []]; ErrorReply "org.freedesktop.DBus.Error.UnknownMethod" "Unknown method";
     ErrorReply "com.ubuntu.Postal.Error" "failed"].
Proof. vm_compute. reflexivity. Qed.

Lemma postal_bus_witness :
  let '(svc', rs, o) := serve_bus (λ p, if decide (p = "com.example") then "1.0" else "") (λ _, false) (λ _, true)
    (λ _, []) (λ _ _, 0) (λ _, "failed") ex_msgs {| mbox := None; events := [] |} in
  let '(Q', ps) := spec_serve_all (λ p, if decide (p = "com.example") then "1.0" else "") (λ _, false)
    (to_input <$> ex_msgs) (λ _, []) in
  o = Ok () ∧ Forall3 handed_out ex_msgs rs ps ∧ refines svc' Q'.
Proof. apply postal_bus; [reflexivity|done]. Defined.
End PostalBus.
