(* ===== verification/Launchers.v ===== *)
(** The launchers of the application helpers: processes of legacy
    applications (launch_helper/legacy/legacy.go), the lookup of a click
    package's helper (launch_helper/helper_finder/helper_finder.go), and
    ubuntu-app-launch (launch_helper/cual/cual.go).

    The processes, the files and the JSON decoder are parameters. *)

From S2P Require Import Prelude Click Nih HelperPool Postal Presenters.
Import Click.

Local Open Scope Z_scope.

(** ** Numbers in base 36, as package strconv writes and reads them *)
Module Strconv.

Definition digit (d : Z) : ascii := ascii_of_nat (Z.to_nat (if d <? 10 then 48 + d else 87 + d)).

Fixpoint format_digits (fuel : nat) (z : Z) (acc : string) : string :=
  match fuel with
  | O => acc
  | S fuel =>
      let acc := String (digit (z `mod` 36)) acc in
      if z <? 36 then acc else format_digits fuel (z / 36) acc
  end.

(** A 64-bit number has 13 digits at most. *)
Definition FormatInt (z : Z) : string :=
  if z <? 0 then String "-" (format_digits 13 (- z) "") else format_digits 13 z "".

Definition digit_val (a : ascii) : option Z :=
  let c := Z.of_nat (nat_of_ascii a) in
  if (48 <=? c) && (c <=? 57) then Some (c - 48)
  else if (97 <=? c) && (c <=? 122) then Some (c - 87)
  else if (65 <=? c) && (c <=? 90) then Some (c - 55)
  else None.

Definition ErrSyntax : string := "invalid syntax".
Definition ErrRange : string := "value out of range".

Fixpoint parse_digits (n : Z) (s : string) : outcome string Z :=
  match s with
  | EmptyString => Ok n
  | String a s =>
      match digit_val a with
      | None => Err ErrSyntax
      | Some d => if 2 ^ 64 <=? 36 * n + d then Err ErrRange else parse_digits (36 * n + d) s
      end
  end.

Definition ParseUint (s : string) : outcome string Z :=
  if decide (s = "") then Err ErrSyntax else parse_digits 0 s.

(** [ParseInt(s, 36, 0)] *)
Definition ParseInt (s : string) : outcome string Z :=
  let '(neg, digits) :=
    match s with
    | String a r => if decide (a = "-"%char) then (true, r) else if decide (a = "+"%char) then (false, r) else (false, s)
    | EmptyString => (false, s)
    end in
  un ← ParseUint digits;
  if (neg : bool) then if 2 ^ 63 <? un then Err ErrRange else mret (- un)
  else if 2 ^ 63 <=? un then Err ErrRange else mret un.

Lemma digit_val_digit d : 0 ≤ d < 36 → digit_val (digit d) = Some d.
Proof.
  intros Hd.
  assert (forallb (λ n, bool_decide (digit_val (digit (Z.of_nat n)) = Some (Z.of_nat n))) (seq 0 36) = true) as H
    by (vm_compute; reflexivity).
  rewrite forallb_forall in H. specialize (H (Z.to_nat d)).
  rewrite Z2Nat.id in H by lia. apply bool_decide_eq_true_1 in H; [done|].
  apply in_seq. lia.
Qed.

Lemma parse_format fuel z acc :
  0 ≤ z < 36 ^ Z.of_nat fuel → 0 ≤ z < 2 ^ 64 → parse_digits 0 (format_digits fuel z acc) = parse_digits z acc.
Proof.
  revert z acc. induction fuel as [|fuel IH]; intros z acc Hz Hw.
  { rewrite Z.pow_0_r in Hz. assert (z = 0) as -> by lia. done. }
  rewrite Nat2Z.inj_succ, Z.pow_succ_r in Hz by lia.
  pose proof (Z.mod_pos_bound z 36 ltac:(lia)). pose proof (Z.div_mod z 36 ltac:(lia)).
  cbn [format_digits]. destruct (Z.ltb_spec z 36) as [Hs|Hs].
  - cbn [parse_digits]. rewrite digit_val_digit by lia. rewrite Z.mod_small by lia.
    destruct (Z.leb_spec (2 ^ 64) (36 * 0 + z)); [lia|]. done.
  - rewrite IH.
    + cbn [parse_digits]. rewrite digit_val_digit by lia.
      destruct (Z.leb_spec (2 ^ 64) (36 * (z / 36) + z `mod` 36)); [lia|]. f_equal. lia.
    + split; [apply Z.div_pos; lia|]. apply Z.div_lt_upper_bound; lia.
    + split; [apply Z.div_pos; lia|]. apply Z.div_lt_upper_bound; lia.
Qed.

Lemma format_digits_first fuel z acc :
  0 ≤ z → fuel ≠ O → ∃ d r, format_digits fuel z acc = String (digit d) r ∧ 0 ≤ d < 36.
Proof.
  revert z acc. induction fuel as [|fuel IH]; intros z acc Hz Hf; [done|]. cbn [format_digits].
  pose proof (Z.mod_pos_bound z 36 ltac:(lia)).
  destruct (z <? 36); [by eauto|]. destruct fuel as [|fuel]; [by cbn; eauto|].
  apply IH; [apply Z.div_pos; lia|done].
Qed.

Lemma digit_not_sign d : 0 ≤ d < 36 → digit d ≠ "-"%char ∧ digit d ≠ "+"%char.
Proof.
  intros Hd%digit_val_digit. split; intros E; rewrite E in Hd; by vm_compute in Hd.
Qed.

(** What is written is read back. *)
Lemma ParseInt_FormatInt z : in_sN 64 z → ParseInt (FormatInt z) = Ok z.
Proof.
  unfold in_sN. intros Hz. change (2 ^ (64 - 1)) with (2 ^ 63) in Hz. unfold FormatInt.
  assert (∀ n, 0 ≤ n ≤ 2 ^ 63 → ParseUint (format_digits 13 n "") = Ok n) as Hu.
  { intros n Hn. unfold ParseUint.
    destruct (format_digits_first 13 n "" ltac:(lia) ltac:(done)) as (d & r & E & _).
    rewrite decide_False by (by rewrite E). rewrite parse_format; [done|..]; split; try lia;
    (eapply Z.le_lt_trans; [apply Hn|]; by vm_compute). }
  destruct (Z.ltb_spec z 0) as [Hneg|Hpos]; unfold ParseInt.
  - rewrite decide_True by done. rewrite Hu by lia. cbn [mbind outcome_bind].
    destruct (Z.ltb_spec (2 ^ 63) (- z)); [lia|]. cbv [mret outcome_ret]. f_equal. lia.
  - destruct (format_digits_first 13 z "" Hpos ltac:(done)) as (d & r & E & Hd). rewrite E.
    destruct (digit_not_sign d Hd) as [H1 H2]. rewrite !decide_False by done. rewrite <- E, Hu by lia.
    cbn [mbind outcome_bind]. destruct (Z.leb_spec (2 ^ 63) z); [lia|]. done.
Qed.
End Strconv.

(** ** Legacy helpers *)
Module Legacy.
Import Strconv.

(** The process table: the helpers' processes that run, by process id. *)
Record legacy := { procs : gmap Z string; dones : list string }.

Definition legacyHelperDir : string := "/usr/lib/ubuntu-push-client/legacy-helpers".

Definition HelperInfo (app : AppId) : string * string := ("", Path.Join legacyHelperDir (Application app)).

(** [Launch]: the goroutine starts the process and hands back its id, or the
    error; [start] is what starting gives. *)
Definition Launch (start : Z + string) (progname : string) (l : legacy) : legacy * outcome string string :=
  match start with
  | inr e => (l, Err e)
  | inl pid => ({| procs := <[pid := progname]> (procs l); dones := dones l |}, Ok (FormatInt pid))
  end.

(** The rest of the goroutine, when the process has ended, well or not. *)
Definition finished (pid : Z) (l : legacy) : legacy :=
  {| procs := delete pid (procs l); dones := dones l ++ [FormatInt pid] |}.

(** [Stop]: the process found by its id is killed; [Kill] is the error the
    system gives. *)
Definition Stop (Kill : Z → option string) (id : string) : outcome string Z :=
  pid ← ParseInt id;
  match Kill pid with Some e => Err e | None => mret pid end.
End Legacy.

(** ** Finding the helper of a click package *)
Module Finder.

Record helperValue := { HelperId : string; hv_Exec : string }.
Record hookFile := { hf_AppId : string; hf_Exec : string }.

Definition hookExt : string := ".json".

(** [filepath.Base]: the last element, without trailing slashes. *)
Definition Base_path (p : string) : string :=
  match filter (λ e, e ≠ "") (split_on "/" p) with
  | [] => if decide (p = "") then "." else "/"
  | e :: es => default e (last es)
  end.

(** [filepath.Dir]: what is before the last slash, cleaned. *)
Fixpoint upto_last (c : ascii) (s : string) : string :=
  match s with
  | EmptyString => EmptyString
  | String a s' => if in_string c s' || bool_decide (a = c) then String a (upto_last c s') else EmptyString
  end.
Definition Dir (p : string) : string := Path.Clean (upto_last "/" p).

(** [s[:len(s)-n]] *)
Definition drop_end (s : string) (n : nat) : option string :=
  if decide (n ≤ String.length s)%nat then Some (String.substring 0 (String.length s - n) s) else None.

Section finder.
(** The files: what matches the hook files' pattern for a package, links,
    contents; and the decoders, which fill a hook file's struct or a map. *)
Context (Glob : string → option (list string)) (EvalSymlinks : string → option string).
Context (ReadFile : string → option string).
Context (Unmarshal_hook : string → st hookFile string unit).
Context (Unmarshal_map : string → st (option (gmap string helperValue)) string unit).
Context (hookPath helpersDataPath : string).

(** The loop over the matching files; [v] is declared outside of it. *)
Fixpoint scan_hooks (app : AppId) (matches : list string) (v : hookFile) : outcome unit (string * string) :=
  match matches with
  | [] => Ok ("", "")
  | m :: matches =>
      match EvalSymlinks m with
      | None => scan_hooks app matches v
      | Some abs =>
          match ReadFile abs with
          | None => scan_hooks app matches v
          | Some data =>
              match Unmarshal_hook data v with
              | (_, Panic) => Panic
              | (v, Err _) => scan_hooks app matches v
              | (v, Ok _) =>
                  if decide (hf_Exec v ≠ "" ∧ (hf_AppId v = "" ∨ hf_AppId v = Base app)) then
                    match drop_end (Base_path m) (String.length hookExt) with
                    | Some helperAppId => Ok (helperAppId, Path.Join (Dir abs) (hf_Exec v))
                    | None => Panic
                    end
                  else scan_hooks app matches v
              end
          end
      end
  end.

Definition helperFromHookFile (app : AppId) : outcome unit (string * string) :=
  match Glob (Path.Join hookPath (Package app +:+ "_*" +:+ hookExt)) with
  | None => Ok ("", "")
  | Some matches => scan_hooks app matches {| hf_AppId := ""; hf_Exec := "" |}
  end.

(** The package's variables; the map is nil after a JSON [null]. *)
Record finder := { helpersInfo : option (gmap string helperValue); helpersDataMtime : Z }.

Definition lookup_info (app : AppId) (info : option (gmap string helperValue)) : string * string :=
  let info := default ∅ info in
  match info !! Base app with
  | Some i => if decide (hv_Exec i ≠ "") then (HelperId i, hv_Exec i) else ("", "")
  | None =>
      match info !! Package app with
      | Some i => if decide (hv_Exec i ≠ "") then (HelperId i, hv_Exec i) else ("", "")
      | None => ("", "")
      end
  end.

(** [Helper]; [Stat] is the modification time of the cache file, if it is
    there. The decoder fills the map that is kept. *)
Definition Helper (Stat : option Z) (app : AppId) (f : finder) : finder * outcome unit (string * string) :=
  if negb (Click app) then (f, Ok ("", ""))
  else
    match Stat with
    | None => (f, helperFromHookFile app)
    | Some mtime =>
        if bool_decide (helpersInfo f = None ∨ helpersDataMtime f < mtime) then
          match ReadFile helpersDataPath with
          | None => (f, Ok ("", ""))
          | Some data =>
              match Unmarshal_map data (helpersInfo f) with
              | (m, Ok _) => ({| helpersInfo := m; helpersDataMtime := mtime |}, Ok (lookup_info app m))
              | (m, Err _) => ({| helpersInfo := m; helpersDataMtime := helpersDataMtime f |}, Ok ("", ""))
              | (_, Panic) => (f, Panic)
              end
          end
        else (f, Ok (lookup_info app (helpersInfo f)))
    end.
End finder.
End Finder.

(** ** ubuntu-app-launch *)
Module Cual.
Inductive cual_err := ErrCantObserve | ErrCantUnobserve | ErrCantLaunch | ErrCantStop.

Section cual.
(** The C functions. *)
Context (add_observer remove_observer : bool) (launch : string → string → string → string → string).
Context (stop : string → string → bool).

(** The state: whether a callback is installed, and the calls to it. *)
Record helperState := { done_set : bool; done_calls : list string }.

Definition InstallObserver (hs : helperState) : helperState * outcome cual_err unit :=
  ({| done_set := true; done_calls := done_calls hs |}, if add_observer then Ok () else Err ErrCantObserve).
Definition RemoveObserver : outcome cual_err unit := if remove_observer then Ok () else Err ErrCantUnobserve.

(** [helperDone], called by C: a nil callback panics. *)
Definition helperDone (iid : string) (hs : helperState) : helperState * outcome cual_err unit :=
  if done_set hs then ({| done_set := true; done_calls := done_calls hs ++ [iid] |}, Ok ()) else (hs, Panic).

(** An empty instance id is a failure. *)
Definition Launch (appId exec f1 f2 : string) : outcome cual_err string :=
  let iid := launch appId exec f1 f2 in
  if decide (iid = "") then Err ErrCantLaunch else Ok iid.

Definition Stop (appId instanceId : string) : outcome cual_err unit :=
  if stop appId instanceId then Ok () else Err ErrCantStop.
End cual.
End Cual.

(** *** Temporary files (launch_helper/kindpool.go)

    Each helper has two, in its package's directory below the user's cache;
    what making the directory, the file and writing it give is the host's. *)
Module TempFiles.
Section host.
Context (xdgCacheHome : string) (MkdirAll : string → option string) (TempFile : string → string → string + string).
Context (WriteFile : string → string → option string).

Definition getTempDir (pkgName : string) : string * option string :=
  let tmpDir := Path.Join xdgCacheHome pkgName in (tmpDir, MkdirAll tmpDir).

Definition getTempFilename (pkgName : string) : string + string :=
  match getTempDir pkgName with
  | (_, Some err) => inr err
  | (tmpDir, None) => TempFile tmpDir "push-helper"
  end.

(** The name is returned also when writing fails, for the clean-up. *)
Definition createInputTempFile (input : HelperPool.HelperInput) : string * option string :=
  match getTempFilename (HelperPool.Package input) with
  | inr err => ("", Some err)
  | inl f1 => (f1, WriteFile f1 (HelperPool.Payload input))
  end.

Definition createOutputTempFile (input : HelperPool.HelperInput) : string + string := getTempFilename (HelperPool.Package input).

(** As the pool takes them in an [answer]. *)
Definition file_in (input : HelperPool.HelperInput) : option (string * bool) :=
  match createInputTempFile input with
  | (EmptyString, Some _) => None
  | (f1, err) => Some (f1, bool_decide (err = None))
  end.
Definition file_out (input : HelperPool.HelperInput) : option string :=
  match createOutputTempFile input with inl f2 => Some f2 | inr _ => None end.
End host.
End TempFiles.

(** ** What the launchers promise *)
Module LaunchersProps.
Import Strconv.

(** Stopping a legacy helper. The instance id that [Launch] gives out for a
    process is read back by [Stop] as that very process, ids of different
    processes differ, and the id reported when the process ends is the one
    that was given out; an id that is no number in base 36 is refused and
    nothing is killed. *)
Theorem legacy_stop start pid progname l l' id Kill :
  start = inl pid → in_sN 64 pid → Legacy.Launch start progname l = (l', Ok id) →
  Legacy.Stop Kill id = (match Kill pid with Some e => Err e | None => Ok pid end) ∧
  Legacy.procs l' !! pid = Some progname ∧
  Legacy.dones (Legacy.finished pid l') = Legacy.dones l ++ [id] ∧
  (∀ pid' l2 id', in_sN 64 pid' → Legacy.Launch (inl pid') progname l' = (l2, Ok id') → id' = id → pid' = pid) ∧
  (∀ bad e, ParseInt bad = Err e → Legacy.Stop Kill bad = Err e).
Proof.
  intros -> Hp. cbn. intros [= <- <-]. unfold Legacy.Stop.
  rewrite ParseInt_FormatInt by done. cbn. split_and!; [done|apply lookup_insert_eq|done|..].
  - intros pid' l2 id' Hp' [= _ <-] E. apply (f_equal ParseInt) in E.
    rewrite !ParseInt_FormatInt in E by done. by injection E.
  - by intros bad e ->.
Qed.

Section finder_props.
Import Finder.
Context (Glob : string → option (list string)) (EvalSymlinks : string → option string).
Context (Unmarshal_hook : string → st hookFile string unit).
Context (Unmarshal_map : string → st (option (gmap string helperValue)) string unit).
Context (hookPath helpersDataPath : string).

(** encoding/json decodes an object into a map that is there by adding its
    members. *)
Context (decode : string → option (gmap string helperValue)).
Hypothesis Unmarshal_map_adds : ∀ data m m0,
  decode data = Some m → Unmarshal_map data m0 = (Some (m ∪ default ∅ m0), Ok ()).

(** The cache file as a call finds it: its time and contents. *)
Definition version : Type := Z * string.

Definition look (app : AppId) (v : version) (f : finder) : finder * outcome unit (string * string) :=
  Helper Glob EvalSymlinks (λ p, if decide (p = helpersDataPath) then Some v.2 else None)
    Unmarshal_hook Unmarshal_map hookPath helpersDataPath (Some v.1) app f.

(** One call with a version newer than the cache. *)
Lemma look_newer app v m f :
  Click app = true → decode v.2 = Some m → helpersDataMtime f < v.1 →
  let info := Some (m ∪ default ∅ (helpersInfo f)) in
  look app v f = ({| helpersInfo := info; helpersDataMtime := v.1 |}, Ok (lookup_info app info)).
Proof using Unmarshal_map_adds.
  intros Hc Hd Ht. cbv zeta. unfold look, Helper. rewrite Hc. cbn [negb].
  rewrite bool_decide_eq_true_2 by auto. rewrite decide_True by done.
  by rewrite (Unmarshal_map_adds _ _ (helpersInfo f) Hd).
Qed.

(** Finding a click package's helper through the cache file. Reading a newer
    version of the file gives the entry that version has for the application,
    or else for its package. But the entries of the versions read before are
    kept: for an application and package the file no longer names, the last
    helper it was read with is still returned. *)
Theorem helper_cache app v1 v2 m1 m2 f :
  Click app = true → decode v1.2 = Some m1 → decode v2.2 = Some m2 →
  helpersDataMtime f < v1.1 → v1.1 < v2.1 →
  let r := (look app v2 (look app v1 f).1).2 in
  (∀ i, m2 !! Base app = Some i → hv_Exec i ≠ "" → r = Ok (HelperId i, hv_Exec i)) ∧
  (∀ i, m2 !! Base app = None → m1 !! Base app = Some i → hv_Exec i ≠ "" → r = Ok (HelperId i, hv_Exec i)) ∧
  (∀ i, m2 !! Base app = None → m1 !! Base app = None → default ∅ (helpersInfo f) !! Base app = None →
     m2 !! Package app = Some i → hv_Exec i ≠ "" → r = Ok (HelperId i, hv_Exec i)).
Proof using Unmarshal_map_adds.
  intros Hc Hd1 Hd2 H1 H2. cbv zeta. rewrite (look_newer app v1 m1 f Hc Hd1 H1). cbn [fst].
  rewrite (look_newer app v2 m2 _ Hc Hd2) by done. cbn [snd helpersInfo].
  unfold lookup_info, default, id. cbn [from_option]. split_and!.
  - intros i Hi Hx. rewrite (lookup_union_Some_l _ _ _ _ Hi). by rewrite decide_True.
  - intros i Hn Hi Hx. rewrite lookup_union_r by done. rewrite (lookup_union_Some_l _ _ _ _ Hi).
    by rewrite decide_True.
  - intros i Hn2 Hn1 Hn Hi Hx. rewrite !lookup_union_r by done.
    unfold default, id in Hn. rewrite Hn. rewrite (lookup_union_Some_l _ _ _ _ Hi). by rewrite decide_True.
Qed.
End finder_props.

(** A file without an [exec] member leaves the one decoded before it in
    place: the helper of the first file, which is for another application,
    is taken for the second one's. *)
Definition leak_decode (data : string) : st Finder.hookFile string unit := λ v,
  if decide (data = "one") then ({| Finder.hf_AppId := "pkg_one"; Finder.hf_Exec := "bin/one" |}, Ok ())
  else ({| Finder.hf_AppId := "pkg_two"; Finder.hf_Exec := Finder.hf_Exec v |}, Ok ()).

Example hook_files_leak :
  let app := {| Package := "pkg"; Application := "two"; Version := ""; Click := true; original := "pkg_two" |} in
  Finder.helperFromHookFile (λ _, Some ["/h/pkg_one.json"; "/h/pkg_two.json"]) Some
    (λ p, if decide (p = "/h/pkg_one.json") then Some "one" else Some "two") leak_decode "/h" app
  = Ok ("pkg_two", "/h/bin/one") ∧
  Finder.helperFromHookFile (λ _, Some ["/h/pkg_two.json"]) Some (λ _, Some "two") leak_decode "/h" app = Ok ("", "").
Proof. vm_compute. by split. Qed.

(** A helper of a package gets its two files where the package may read them. *)
Example temp_files_run :
  let input := {| HelperPool.kind := "click"; HelperPool.App := "com.foo_app"; HelperPool.Package := "com.foo";
                  HelperPool.NotificationId := "n"; HelperPool.Payload := "{}" |} in
  let TempFile dir prefix := inl (dir +:+ "/" +:+ prefix +:+ "1") in
  TempFiles.file_in "/home/u/.cache/" (λ _, None) TempFile (λ _ _, Some "no space") input = Some ("/home/u/.cache/com.foo/push-helper1", false) ∧
  TempFiles.file_in "/home/u/.cache/" (λ _, Some "denied") TempFile (λ _ _, None) input = None ∧
  TempFiles.file_out "/home/u/.cache/" (λ _, None) TempFile input = Some "/home/u/.cache/com.foo/push-helper1".
Proof. by vm_compute. Qed.
End LaunchersProps.
