(* ===== verification/Server.v ===== *)
(** The server's process: the device listener (server/listener/listener.go),
    the runners (server/runner_devices.go, server/runner_http.go), TLS set-up
    (server/tlsconfig.go), and the development server's main and handlers
    (server/dev/server.go).

    Listening, accepting, certificates and the JSON encoder are parameters;
    ending the process through [BootLogFatalf] is an outcome. *)

From S2P Require Import Prelude Base64 Statistics Click Nih HelperPool Postal Presenters Launchers Config.
Import Config.

Local Open Scope Z_scope.

(** ** Accepting devices *)
Module Listener.

(** [Accept]: a connection, or an error, which may be a temporary network
    error. *)
Inductive accept (conn : Type) := Conn (c : conn) | AcceptErr (temporary : bool) (e : string).
Arguments Conn {conn} c.
Arguments AcceptErr {conn} temporary e.

Inductive event (conn : Type) :=
| ConsumeConn
| Serve (c : conn)            (** the goroutine that runs the session *)
| PanicLogged (c : conn)      (** its recovery from a panic *)
| Sleep100ms
| RetryLogged (e : string).
Arguments ConsumeConn {conn}.
Arguments Serve {conn} c.
Arguments PanicLogged {conn} c.
Arguments Sleep100ms {conn}.
Arguments RetryLogged {conn} e.

Section loop.
Context {conn : Type} (session : conn → outcome string unit).

Definition handleTemporary (temporary : bool) : list (event conn) * bool :=
  if temporary then ([Sleep100ms], true) else ([], false).

(** A session's error is dropped, its panic is logged. *)
Definition goroutine (c : conn) : list (event conn) :=
  Serve c :: match session c with Panic => [PanicLogged c] | _ => [] end.

(** [AcceptLoop] over what [Accept] gives: the events, and the error it
    returns; [None] while it waits for the next connection. The events of a
    goroutine are listed where it starts. *)
Fixpoint AcceptLoop (answers : list (accept conn)) : list (event conn) * option string :=
  match answers with
  | [] => ([ConsumeConn], None)
  | Conn c :: answers =>
      let '(evs, r) := AcceptLoop answers in (ConsumeConn :: goroutine c ++ evs, r)
  | AcceptErr temporary e :: answers =>
      let '(evs0, again) := handleTemporary temporary in
      if again then
        let '(evs, r) := AcceptLoop answers in (ConsumeConn :: evs0 ++ RetryLogged e :: evs, r)
      else (ConsumeConn :: evs0, Some e)
  end.
End loop.

(** [DeviceListen]: an adopted listener or a new one, under TLS. *)
Inductive layer := Tcp (addr : string) | Adopted | Tls | Limit (n : Z).
Definition DeviceListen (adopted : bool) (Listen : string → option string) (addr : string)
    : outcome string (list layer) :=
  if adopted then Ok [Tls; Adopted]
  else match Listen addr with Some e => Err e | None => Ok [Tls; Tcp addr] end.
End Listener.

(** ** TLS files (server/tlsconfig.go, [LoadFile] of config/config.go) *)
Module TLS.
Section tls.
Context (ReadFile : string → outcome string string) (X509KeyPair : string → string → outcome string string).

Definition LoadFile (p baseDir : string) : outcome string (option string) :=
  if decide (p = "") then Ok None
  else
    let p := if Path.rooted p then p else Path.Join baseDir p in
    Some <$> ReadFile p.

Record TLSParsedConfig := { ParsedKeyPEMFile : string; ParsedCertPEMFile : string; cert : string }.

Definition prefix_err {A} (prefix : string) (o : outcome string A) : outcome string A :=
  match o with Err e => Err (prefix +:+ e) | o => o end.

(** A nil block is an empty one. *)
Definition LoadPEMs (baseDir : string) (cfg : TLSParsedConfig) : outcome string TLSParsedConfig :=
  keyPEMBlock ← prefix_err "reading key_pem_file: " (LoadFile (ParsedKeyPEMFile cfg) baseDir);
  certPEMBlock ← prefix_err "reading cert_pem_file: " (LoadFile (ParsedCertPEMFile cfg) baseDir);
  c ← X509KeyPair (default "" certPEMBlock) (default "" keyPEMBlock);
  mret {| ParsedKeyPEMFile := ParsedKeyPEMFile cfg; ParsedCertPEMFile := ParsedCertPEMFile cfg; cert := c |}.

Record tls_config := { Certificates : list string; SessionTicketsDisabled : bool; CipherSuites : list Z; MinVersion : Z }.

(** The suites' numbers of crypto/tls. *)
Definition TLSServerConfig (cfg : TLSParsedConfig) : tls_config :=
  {| Certificates := [cert cfg]; SessionTicketsDisabled := true;
     CipherSuites := [49199; 49195; 49171; 49161; 49172; 49162; 47; 53]; MinVersion := 769 |}.
End tls.
End TLS.

(** ** Runners *)
Module Runner.
Import Listener.

(** Set up and then run; [Exit 1] is [BootLogFatalf]. *)
Definition fatal {A} (o : outcome string A) : outcome Config.stop A :=
  match o with Ok a => Ok a | Err _ => Err (Config.Exit 1) | Panic => Panic end.

(** [DevicesRunner]: the set-up, and the function it returns. *)
Definition DevicesRunner {conn} (Getrlimit : option string) (adopted : bool) (Listen : string → option string) (addr : string)
    : outcome Config.stop ((conn → outcome string unit) → list (accept conn) → list (event conn) * option Config.stop) :=
  match Getrlimit with
  | Some _ => Err (Config.Exit 1)
  | None =>
      _ ← fatal (DeviceListen adopted Listen addr);
      mret (λ session answers,
        let '(evs, r) := AcceptLoop session answers in
        (evs, match r with Some _ => Some (Config.Exit 1) | None => None end))
  end.

(** [HTTPServeRunner]: the listener it serves on. *)
Definition HTTPServeRunner (given : bool) (Listen : string → option string) (addr : string) (tlsCfg : bool)
    : outcome Config.stop (list layer) :=
  lst ← (if given then Ok [Adopted]
         else fatal (match Listen addr with Some e => Err e | None => Ok [Limit 2000; Tcp addr] end));
  mret (if tlsCfg then Limit 1000 :: Tls :: lst else lst).
End Runner.

(** ** The development server (server/dev/server.go) *)
Module Dev.

Record Storage (sto : Type) := { s_sto : sto; maxNotificationsPerApplication : Z }.
Arguments s_sto {sto} s.
Arguments maxNotificationsPerApplication {sto} s.
Definition StoreForRequest {sto} (s : Storage sto) : outcome string sto := Ok (s_sto s).
Definition GetMaxNotificationsPerApplication {sto} (s : Storage sto) : Z := maxNotificationsPerApplication s.

(** A response: the status, the headers set, the body. *)
Record http_response := { status : Z; headers : list (string * string); r_body : string }.

Definition not_authorized (msg : string) : http_response :=
  {| status := 401; headers := [("WWW-Authenticate", "Basic realm=" +:+ quoted "Restricted")];
     r_body := msg +:+ String (ascii_of_nat 10) "" |}.

Section handlers.
Context (Marshal : Statistics.StatsData → outcome string string).

(** The message of a decoding error. *)
Context (decode_err : string → string).

(** The [/stats] handler; [auth] is the Authorization header, empty if there
    is none. *)
Definition stats_handler (user password : string) (stats : Statistics.Statistics) (auth : string) : outcome Config.stop http_response :=
  match splitN2 " " auth with
  | [_; s1] =>
      match Base64.DecodeString s1 with
      | None => Ok (not_authorized (decode_err s1))
      | Some b =>
          match splitN2 ":" b with
          | [pair0; pair1] =>
              if decide (pair0 ≠ user ∨ pair1 ≠ password) then Ok (not_authorized "Not authorized")
              else
                match Marshal (Statistics.GetStats stats) with
                | Err _ => Err (Config.Exit 1)
                | Panic => Panic
                | Ok statsJSON =>
                    Ok {| status := 200;
                          headers := [("WWW-Authenticate", "Basic realm=" +:+ quoted "Restricted");
                                      ("Cache-Control", "no-cache"); ("Content-Type", "application/json");
                                      ("Access-Control-Allow-Origin", "*")];
                          r_body := statsJSON |}
                end
          | _ => Ok (not_authorized "Not authorized")
          end
      end
  | _ => Ok (not_authorized "Not authorized")
  end.

(** The [/delivery-hosts] handler: the one host is the listener's address. *)
Definition delivery_hosts (Encode : list string → string → string) (lst_addr domain : string) : http_response :=
  {| status := 200; headers := [("Cache-Control", "no-cache"); ("Content-Type", "application/json")];
     r_body := Encode [lst_addr] domain |}.
End handlers.

(** *** The configuration and [main] *)

Definition field (name tag : string) : StructField :=
  {| Name := name; PkgPath := ""; json_tag := tag; help_tag := "" |}.
Definition hidden_field (name : string) : StructField :=
  {| Name := name; PkgPath := "github.com/ubports/ubuntu-push/server"; json_tag := ""; help_tag := "" |}.

(** [DevicesParsedConfig], [TLSParsedConfig] and [HTTPServeParsedConfig] with
    their zero values. *)
Definition TLS_struct : strct :=
  SField (field "ParsedKeyPEMFile" "key_pem_file") (VString "")
  (SField (field "ParsedCertPEMFile" "cert_pem_file") (VString "")
  (SField (hidden_field "cert") (VOther "tls.Certificate" "") SNil)).
Definition Devices_struct : strct :=
  SField (field "ParsedPingInterval" "ping_interval") (VDuration 0)
  (SField (field "ParsedExchangeTimeout" "exchange_timeout") (VDuration 0)
  (SField (field "ParsedSessionQueueSize" "session_queue_size") (VQueueSize 0)
  (SField (field "ParsedBrokerQueueSize" "broker_queue_size") (VQueueSize 0)
  (SField (field "ParsedAddr" "addr") (VHostPort "")
  (SEmbed (field "TLSParsedConfig" "") TLS_struct SNil))))).
Definition HTTPServe_struct : strct :=
  SField (field "ParsedHTTPAddr" "http_addr") (VHostPort "")
  (SField (field "ParsedHTTPReadTimeout" "http_read_timeout") (VDuration 0)
  (SField (field "ParsedHTTPWriteTimeout" "http_write_timeout") (VDuration 0) SNil)).
Definition configuration : strct :=
  SEmbed (field "DevicesParsedConfig" "") Devices_struct
  (SEmbed (field "HTTPServeParsedConfig" "") HTTPServe_struct
  (SField (field "StatisticsAuthUser" "statistics_auth_user") (VString "")
  (SField (field "StatisticsAuthPassword" "statistics_auth_password") (VString "")
  (SField (field "DeliveryDomain" "delivery_domain") (VString "")
  (SField (field "MaxNotificationsPerApplication" "max_notifications_per_app") (VInt 0) SNil))))).

(** The getters: a field's value by its name. *)
Fixpoint find_field (name : string) (dfs : list destField) : option value :=
  match dfs with
  | [] => None
  | d :: dfs => if decide (Name (fld d) = name) then Some (dest d) else find_field name dfs
  end.
Definition get_field (name : string) (s : strct) : option value := find_field name (traverseStruct s).

Definition as_duration (v : option value) : Z := match v with Some (VDuration d) => d | _ => 0 end.
Definition as_size (v : option value) : Z := match v with Some (VQueueSize n) => n | _ => 0 end.
Definition as_string (v : option value) : string :=
  match v with Some (VString s) | Some (VHostPort s) => s | _ => "" end.
Definition as_int (v : option value) : Z := match v with Some (VInt z) => z | _ => 0 end.

Definition PingInterval (s : strct) : Z := as_duration (get_field "ParsedPingInterval" s).
Definition ExchangeTimeout (s : strct) : Z := as_duration (get_field "ParsedExchangeTimeout" s).
Definition SessionQueueSize (s : strct) : Z := as_size (get_field "ParsedSessionQueueSize" s).
Definition BrokerQueueSize (s : strct) : Z := as_size (get_field "ParsedBrokerQueueSize" s).
Definition Addr (s : strct) : string := as_string (get_field "ParsedAddr" s).

(** What is running when [main] has set the server up. *)
Record running := {
  cfg : strct;
  tls : TLS.tls_config;
  http_layers : list Listener.layer;
  device_layers : list Listener.layer;
  device_addr : string;
  max_notifications : Z;
}.

Section main.
Context `{!Libs}.
Context (X509KeyPair : string → string → outcome string string).
Context (Listen : string → option string) (Getrlimit : option string).

(** [cfgFpaths[len(cfgFpaths)-1]] *)
Definition last_path (cfgFpaths : list string) : outcome Config.stop string :=
  match last cfgFpaths with Some p => Ok p | None => Panic end.

(** [main], up to where it serves: an error anywhere ends the process. *)
Definition main (E : Config.env) (parsed0 : bool) (cfgFpaths : list string) : outcome Config.stop running :=
  let '(d, o) := Config.ReadFiles E parsed0 (PtrStruct "configuration" configuration) cfgFpaths in
  match o, d with
  | Ok _, PtrStruct _ c =>
      p ← last_path cfgFpaths;
      t ← Runner.fatal (TLS.LoadPEMs (λ p, default (Err "no such file") (Config.fs E !! p)) X509KeyPair
            (Finder.Dir p)
            {| TLS.ParsedKeyPEMFile := as_string (get_field "ParsedKeyPEMFile" c);
               TLS.ParsedCertPEMFile := as_string (get_field "ParsedCertPEMFile" c); TLS.cert := "" |});
      _ ← Runner.fatal (match Listen (Addr c) with Some e => Err e | None => Ok () end);
      http ← Runner.HTTPServeRunner false Listen (as_string (get_field "ParsedHTTPAddr" c)) true;
      _ ← Runner.DevicesRunner (conn := unit) Getrlimit true Listen (Addr c);
      mret {| cfg := c; tls := TLS.TLSServerConfig t; http_layers := http;
              device_layers := [Listener.Tls; Listener.Adopted]; device_addr := Addr c;
              max_notifications := as_int (get_field "MaxNotificationsPerApplication" c) |}
  | Err (Config.Returned _), _ => Err (Config.Exit 1)
  | Err e, _ => Err e
  | _, _ => Panic
  end.
End main.
End Dev.

(** ** What the server's process promises *)
Module ServerProps.
Import Listener Dev.

Section accept_props.
Context {conn : Type}.

(** An answer after which the loop goes on. *)
Definition goes_on (a : accept conn) : Prop := match a with Conn _ => True | AcceptErr t _ => t = true end.
Definition conn_of (a : accept conn) : option conn := match a with Conn c => Some c | _ => None end.
Definition served (e : event conn) : option conn := match e with Serve c => Some c | _ => None end.
Definition consumed (e : event conn) : option unit := match e with ConsumeConn => Some () | _ => None end.

Lemma goroutine_events (session : conn → outcome string unit) c :
  omap served (goroutine session c) = [c] ∧ omap consumed (goroutine session c) = [].
Proof. unfold goroutine. by destruct (session c). Qed.

(** Accepting devices. Whatever the sessions do, panics included, the loop
    hands every accepted connection to a session of its own, in order,
    retries after temporary errors, and returns exactly at the first other
    error, with that error; the resource manager is asked once before every
    accept. *)
Theorem accept_loop (session : conn → outcome string unit) answers :
  let '(evs, r) := AcceptLoop session answers in
  ∃ pre rest, answers = pre ++ rest ∧ Forall goes_on pre ∧
    omap served evs = omap conn_of pre ∧ length (omap consumed evs) = S (length pre) ∧
    match r with
    | None => rest = []
    | Some e => ∃ rest', rest = AcceptErr false e :: rest'
    end.
Proof.
  induction answers as [|[c|[] e] answers IH]; cbn [AcceptLoop handleTemporary].
  - by exists [], [].
  - destruct (AcceptLoop session answers) as [evs r]. destruct IH as (pre & rest & -> & Hp & Hs & Hc & Hr).
    exists (Conn c :: pre), rest. destruct (goroutine_events session c) as [H1 H2].
    change (ConsumeConn :: goroutine session c ++ evs) with ([ConsumeConn] ++ goroutine session c ++ evs).
    rewrite !omap_app, H1, H2, Hs. split_and!; [done|by constructor|done|cbn; by rewrite Hc|done].
  - destruct (AcceptLoop session answers) as [evs r]. destruct IH as (pre & rest & -> & Hp & Hs & Hc & Hr).
    exists (AcceptErr true e :: pre), rest. split_and!; [done|by constructor|done|cbn; by rewrite Hc|done].
  - exists [], (AcceptErr false e :: answers). cbn. split_and!; eauto.
Qed.
End accept_props.

Lemma splitN2_two c s a b : splitN2 c s = [a; b] ↔ s = a +:+ String c b ∧ in_string c a = false.
Proof.
  unfold splitN2. split.
  - destruct (cut_at c s) as [[l r]|] eqn:E; [|done]. intros [= -> ->]. by apply cut_at_Some.
  - intros [-> Ha]. by rewrite cut_at_app.
Qed.

(** The header names the configured credentials. *)
Definition authorized (user password auth : string) : Prop :=
  in_string ":" user = false ∧
  ∃ scheme code, auth = scheme +:+ String " " code ∧ in_string " " scheme = false ∧
    Base64.DecodeString code = Some (user +:+ String ":" password).

Lemma authorized_split user password auth :
  authorized user password auth →
  ∃ scheme code b, splitN2 " " auth = [scheme; code] ∧ Base64.DecodeString code = Some b ∧
    splitN2 ":" b = [user; password].
Proof.
  intros (Hu & scheme & code & -> & Hs & Hd). exists scheme, code, (user +:+ String ":" password).
  split_and!; [by apply splitN2_two|done|by apply splitN2_two].
Qed.

(** Who gets the statistics. The handler answers 200 exactly for an
    Authorization header of a word, a space and the base 64 of the configured
    user, a colon and the configured password, provided the user has no colon
    (with one, nobody is let in); every other header gets 401 and nothing of
    the statistics. The encoding a client makes is among those accepted. *)
Theorem stats_auth Marshal decode_err user password stats json :
  Marshal (Statistics.GetStats stats) = Ok json →
  (∀ auth, ∃ resp, stats_handler Marshal decode_err user password stats auth = Ok resp ∧
    (authorized user password auth ∧ status resp = 200 ∧ r_body resp = json ∨
     ¬ authorized user password auth ∧ status resp = 401)) ∧
  (in_string ":" user = false →
   authorized user password ("Basic" +:+ String " " (Base64.EncodeToString (user +:+ String ":" password)))).
Proof.
  intros Hm. split; last first.
  { intros Hu. split; [done|]. eexists _, _. split_and!; [done|done|apply Base64.DecodeString_EncodeToString]. }
  intros auth. pose proof (authorized_split user password auth) as Hsplit. unfold stats_handler.
  assert (∀ msg, ¬ authorized user password auth → ∃ resp,
    @Ok Config.stop _ (not_authorized msg) = Ok resp ∧
    (authorized user password auth ∧ status resp = 200 ∧ r_body resp = json ∨
     ¬ authorized user password auth ∧ status resp = 401)) as Hno.
  { intros msg Hn. eexists. split; [done|]. by right. }
  destruct (splitN2 " " auth) as [|scheme [|s1 [|]]] eqn:E1; try (apply Hno; intros (?&?&?&?&?&?)%Hsplit; congruence).
  destruct (Base64.DecodeString s1) as [b|] eqn:E2; [|apply Hno; intros (?&?&?&?&?&?)%Hsplit; congruence].
  destruct (splitN2 ":" b) as [|pair0 [|pair1 [|]]] eqn:E3; try (apply Hno; intros (?&?&?&?&?&?)%Hsplit; congruence).
  apply splitN2_two in E1 as [-> Hs], E3 as [-> Hp].
  case_decide as Hc.
  - apply Hno. intros (? & ? & ? & E4 & E5 & E6)%Hsplit.
    injection E4 as <- <-.
    rewrite E2 in E5. injection E5 as <-.
    rewrite (proj2 (splitN2_two _ _ pair0 pair1)) in E6 by done. naive_solver.
  - rewrite Hm. eexists. split; [done|]. left. split; [|done].
    assert (pair0 = user) as -> by (destruct (decide (pair0 = user)); naive_solver).
    assert (pair1 = password) as -> by (destruct (decide (pair1 = password)); naive_solver).
    split; [done|]. by eexists _, _.
Qed.

(** *** The server's configuration *)

Section boot.
Context `{!Libs, !LibsLaws}.

Lemma find_field_typed (X : Prop) n l l' v :
  Forall2 (λ d d', fld d = fld d' ∧ ConfigSpec.same_type (dest d) (dest d') ∧ ConfigSpec.go_value (dest d') ∧
    (X → ConfigSpec.value_ok (dest d'))) l l' →
  X → find_field n l = Some v →
  ∃ v', find_field n l' = Some v' ∧ ConfigSpec.same_type v v' ∧ ConfigSpec.value_ok v'.
Proof.
  intros Hl HX. induction Hl as [|d d' l l' (Hf & Ht & _ & Hok) _ IH]; cbn; [done|]. rewrite <- Hf.
  case_decide; [|done]. intros [= <-]. eauto.
Qed.

Lemma configuration_go_values : ConfigProps.go_values configuration.
Proof. unfold ConfigProps.go_values. cbn. repeat (apply Forall_cons; split; [done|]). constructor. Qed.

(** Starting up. When [main] reaches the point where it serves, it read a
    configuration in which both queue sizes are positive (so the broker's and
    the sessions' channels have room), the intervals and the limit are 64-bit
    integers and the addresses split into host and port; it serves HTTP under
    TLS on a new socket and devices under TLS on the listener whose address it
    hands out. Without arguments, or with a configuration it cannot read, the
    process ends with an error before the last argument is looked at. *)
Theorem server_boot X509KeyPair Listen Getrlimit E parsed0 cfgFpaths :
  (∀ run, main X509KeyPair Listen Getrlimit E parsed0 cfgFpaths = Ok run →
     cfgFpaths ≠ [] ∧
     0 < SessionQueueSize (cfg run) < 2 ^ 64 ∧ 0 < BrokerQueueSize (cfg run) < 2 ^ 64 ∧
     in_sN 64 (PingInterval (cfg run)) ∧ in_sN 64 (ExchangeTimeout (cfg run)) ∧ in_sN 64 (max_notifications run) ∧
     is_ok (SplitHostPort (device_addr run)) = true ∧
     (∃ addr, http_layers run = [Limit 1000; Tls; Limit 2000; Tcp addr] ∧ is_ok (SplitHostPort addr) = true)) ∧
  (cfgFpaths = [] → main X509KeyPair Listen Getrlimit E parsed0 cfgFpaths = Err (Config.Exit 1)).
Proof.
  split; [|by intros ->].
  intros run. unfold main.
  destruct (Config.ReadFiles E parsed0 (PtrStruct "configuration" configuration) cfgFpaths) as [d o] eqn:Er.
  assert (cfgFpaths = [] → o = Err (Config.Returned "no config to read")) as Hnil.
  { intros ->. cbn in Er. by injection Er as <- <-. }
  apply ConfigProps.ReadFilesDefaults_typed in Er as (c & -> & Hr); [|apply configuration_go_values].
  destruct o as [[]|[e|code]|]; [|done..].
  apply ConfigProps.refilled_fields in Hr.
  pose proof (λ n v, find_field_typed _ n _ _ v Hr eq_refl) as Hget. clear Hr.
  destruct (last_path cfgFpaths) as [p|e|]; cbn [mbind outcome_bind]; [|done..].
  destruct (Runner.fatal (TLS.LoadPEMs _ _ _ _)) as [t|e|]; cbn [mbind outcome_bind]; [|done..].
  destruct (Listen (Addr c)); cbn [Runner.fatal mbind outcome_bind]; [done|].
  unfold Runner.HTTPServeRunner, Runner.DevicesRunner.
  destruct (Listen (as_string (get_field "ParsedHTTPAddr" c))); cbn [Runner.fatal mbind outcome_bind]; [done|].
  destruct Getrlimit; [done|]. cbn. intros [= <-]. cbn [cfg max_notifications device_addr http_layers].
  destruct (Hget "ParsedSessionQueueSize" (VQueueSize 0) eq_refl) as (v1 & E1 & T1 & O1).
  destruct (Hget "ParsedBrokerQueueSize" (VQueueSize 0) eq_refl) as (v2 & E2 & T2 & O2).
  destruct (Hget "ParsedPingInterval" (VDuration 0) eq_refl) as (v3 & E3 & T3 & O3).
  destruct (Hget "ParsedExchangeTimeout" (VDuration 0) eq_refl) as (v4 & E4 & T4 & O4).
  destruct (Hget "MaxNotificationsPerApplication" (VInt 0) eq_refl) as (v5 & E5 & T5 & O5).
  destruct (Hget "ParsedAddr" (VHostPort "") eq_refl) as (v6 & E6 & T6 & O6).
  destruct (Hget "ParsedHTTPAddr" (VHostPort "") eq_refl) as (v7 & E7 & T7 & O7).
  unfold SessionQueueSize, BrokerQueueSize, PingInterval, ExchangeTimeout, Addr, get_field.
  rewrite E1, E2, E3, E4, E5, E6, E7.
  destruct v1; try done. destruct v2; try done. destruct v3; try done. destruct v4; try done.
  destruct v5; try done. destruct v6; try done. destruct v7; try done.
  split_and!; [by intros Hn; specialize (Hnil Hn)|by apply O1..|by apply O2|by apply O2|exact O3|exact O4|exact O5|exact O6|].
  eexists. split; [done|]. exact O7.
Qed.
End boot.

(** A server configured on its command line. *)
#[local] Existing Instance ConfigProps.plain_libs.
#[local] Existing Instance ConfigProps.plain_laws.

Definition ex_flags : list string :=
  ["-ping_interval=60s"; "-exchange_timeout=5s"; "-session_queue_size=10"; "-broker_queue_size=100"; "-addr=:9090";
   "-key_pem_file="; "-cert_pem_file="; "-http_addr=:8080"; "-http_read_timeout=5s"; "-http_write_timeout=5s";
   "-statistics_auth_user=u"; "-statistics_auth_password=p"; "-delivery_domain=push"; "-max_notifications_per_app=25"].

Definition ex_boot : outcome Config.stop running :=
  main (λ _ _, Ok "cert") (λ _, None) None
    {| Config.fs := ∅; Config.args := ex_flags; Config.formals0 := []; Config.IgnoreParsedFlags := false |}
    false ["<flags>"].

Lemma server_boot_witness :
  ∃ run, ex_boot = Ok run ∧ SessionQueueSize (cfg run) = 10 ∧ 0 < SessionQueueSize (cfg run) < 2 ^ 64 ∧
    is_ok (SplitHostPort (device_addr run)) = true.
Proof.
  assert (∃ run, ex_boot = Ok run ∧ SessionQueueSize (cfg run) = 10) as (run & E & Hn)
    by (eexists; vm_compute; split; reflexivity).
  exists run. split; [exact E|]. split; [exact Hn|].
  destruct (proj1 (server_boot (λ _ _, Ok "cert") (λ _, None) None
    {| Config.fs := ∅; Config.args := ex_flags; Config.formals0 := []; Config.IgnoreParsedFlags := false |}
    false ["<flags>"]) run E) as (_ & Hs & _ & _ & _ & _ & Ha & _).
  exact (conj Hs Ha).
Defined.
End ServerProps.
