(* ===== verification/HttpText.v ===== *)
(** The text side of the patched HTTP client: tokens (http13client/lex.go),
    tokens in header values (http13client/header.go) and cookies
    (http13client/cookie.go).

    Strings are bytes in UTF-8, as in Go. [time.Parse] and [net.ParseIP] are
    parameters. *)

From S2P Require Import Prelude.

Module Text.

Definition byte (a : ascii) : nat := nat_of_ascii a.
Definition chr (n : nat) : ascii := ascii_of_nat n.

Definition rev_string (s : string) : string :=
  String.string_of_list_ascii (rev (String.list_ascii_of_string s)).

Definition bytes (l : list nat) : string := String.string_of_list_ascii (chr <$> l).

(** *** strings.TrimSpace

    The white space of Unicode, as byte sequences: ASCII, U+0085, U+00A0,
    U+1680, U+2000 to U+200A, U+2028, U+2029, U+202F, U+205F, U+3000. *)
Definition spaces : list string :=
  bytes <$> ([[9]; [10]; [11]; [12]; [13]; [32]; [194; 133]; [194; 160]; [225; 154; 128]]
    ++ ((λ n, [226; 128; n]) <$> (seq 128 11 ++ [168; 169; 175])) ++ [[226; 129; 159]; [227; 128; 128]]).

Fixpoint trim_left (sps : list string) (fuel : nat) (s : string) : string :=
  match fuel with
  | O => s
  | S fuel =>
      match list_find (λ sp, String.prefix sp s = true) sps with
      | Some (_, sp) => trim_left sps fuel (str_drop (String.length sp) s)
      | None => s
      end
  end.

Definition TrimLeft (s : string) : string := trim_left spaces (String.length s) s.
Definition TrimRight (s : string) : string :=
  rev_string (trim_left (rev_string <$> spaces) (String.length s) (rev_string s)).
Definition TrimSpace (s : string) : string := TrimRight (TrimLeft s).

(** *** strings.ToLower

    As far as comparing with an ASCII word can tell: two characters outside
    of ASCII have a lower case inside (U+0130 and the Kelvin sign). *)
Definition lower_byte (a : ascii) : ascii :=
  if bool_decide (65 ≤ byte a ≤ 90) then chr (byte a + 32) else a.

Fixpoint ToLower (s : string) : string :=
  match s with
  | EmptyString => EmptyString
  | String a ((String b ((String c s') as s2)) as s1) =>
      if decide (byte a = 196 ∧ byte b = 176) then String "i" (ToLower s2)
      else if decide (byte a = 226 ∧ byte b = 132 ∧ byte c = 170) then String "k" (ToLower s')
      else String (lower_byte a) (ToLower s1)
  | String a (String b EmptyString) =>
      if decide (byte a = 196 ∧ byte b = 176) then "i" else String (lower_byte a) (String (lower_byte b) EmptyString)
  | String a EmptyString => String (lower_byte a) EmptyString
  end.

(** *** strconv.Atoi *)
Local Open Scope Z_scope.

Fixpoint digits (n : Z) (s : string) : option Z :=
  match s with
  | EmptyString => Some n
  | String a s =>
      let d := Z.of_nat (byte a) - 48 in
      if bool_decide (0 ≤ d < 10) then digits (10 * n + d) s else None
  end.

(** A sign, digits, and a result of 64 bits. *)
Definition ParseInt10 (s : string) : option Z :=
  let '(neg, ds) :=
    match s with
    | String a r => if decide (a = "-"%char) then (true, r) else if decide (a = "+"%char) then (false, r) else (false, s)
    | EmptyString => (false, s)
    end in
  if decide (ds = "") then None
  else
    n ← digits 0 ds;
    let n := if (neg : bool) then - n else n in
    if bool_decide (- 2 ^ 63 ≤ n < 2 ^ 63) then Some n else None.
Close Scope Z_scope.

(** *** Characters of a string *)
Fixpoint all_chars (p : ascii → bool) (s : string) : bool :=
  match s with EmptyString => true | String a s => p a && all_chars p s end.
Fixpoint filter_chars (p : ascii → bool) (s : string) : string :=
  match s with EmptyString => EmptyString | String a s => if p a then String a (filter_chars p s) else filter_chars p s end.

Lemma filter_chars_all p s : all_chars p (filter_chars p s) = true.
Proof. induction s as [|a s IH]; cbn; [done|]. destruct (p a) eqn:E; cbn; [by rewrite E|done]. Qed.

Lemma filter_chars_id p s : all_chars p s = true → filter_chars p s = s.
Proof.
  induction s as [|a s IH]; cbn; [done|]. intros [Ha Hs]%andb_true_iff. rewrite Ha. by f_equal; apply IH.
Qed.

Lemma every_char_app p s1 s2 : all_chars p (s1 +:+ s2) = all_chars p s1 && all_chars p s2.
Proof. induction s1; rewrite ?str_app_nil, ?str_app_cons; cbn; [done|]. by rewrite IHs1, andb_assoc. Qed.
End Text.

(** ** lex.go *)
Module Lex.
Import Text.

(** [isTokenTable]: the characters that are in it besides letters and digits. *)
Definition isTokenTable (n : nat) : bool :=
  bool_decide (48 ≤ n ≤ 57) || bool_decide (65 ≤ n ≤ 90) || bool_decide (97 ≤ n ≤ 122)
  || bool_decide (n ∈ [33; 35; 36; 37; 38; 39; 42; 43; 45; 46; 94; 95; 96; 124; 126]).

(** A byte of a character outside of ASCII is no token. *)
Definition isToken (a : ascii) : bool := bool_decide (byte a < 127) && isTokenTable (byte a).
End Lex.

(** ** header.go *)
Module Header.
Import Text.

Definition isTokenBoundary (b : ascii) : bool :=
  bool_decide (b = " "%char ∨ b = ","%char ∨ b = chr 9).

(** [strings.EqualFold] against an ASCII token of the same length in bytes. *)
Fixpoint EqualFold (s t : string) : bool :=
  match s, t with
  | EmptyString, EmptyString => true
  | String a s, String b t => bool_decide (lower_byte a = lower_byte b) && EqualFold s t
  | _, _ => false
  end.

(** The test of the first byte: [b != token[0] && b|0x20 != token[0]]. *)
Definition first_bad (b t : ascii) : bool :=
  negb (bool_decide (b = t)) && negb (bool_decide (chr (Nat.lor (byte b) 32) = t)).

(** One start position: [prev] is the byte before, [v] what follows. *)
Definition token_at (prev : option ascii) (v token : string) : bool :=
  match v, token with
  | String b _, String t _ =>
      if first_bad b t then false
      else if match prev with Some p => negb (isTokenBoundary p) | None => false end then false
      else
        let n := String.length token in
        match String.get n v with
        | Some e => if negb (isTokenBoundary e) then false else EqualFold (String.substring 0 n v) token
        | None => EqualFold (String.substring 0 n v) token
        end
  | _, _ => false
  end.

Fixpoint token_from (prev : option ascii) (v token : string) : bool :=
  (bool_decide (String.length token ≤ String.length v) && token_at prev v token)
  || match v with EmptyString => false | String a v => token_from (Some a) v token end.

Definition hasToken (v token : string) : bool :=
  if decide (String.length v < String.length token ∨ token = "") then false
  else if decide (v = token) then true
  else token_from None v token.
End Header.

(** ** cookie.go *)
Module Cookie.
Import Text Lex.

(** [http.Cookie]; the times as [time.Parse] gives them. *)
Record Cookie := {
  Name : string; Value : string; Path : string; Domain : string;
  Expires : option Z; RawExpires : string; MaxAge : Z;
  Secure : bool; HttpOnly : bool; Raw : string; Unparsed : list string;
}.

Definition validCookieValueByte (b : ascii) : bool :=
  bool_decide (32 ≤ byte b < 127) && negb (bool_decide (byte b = 34 ∨ b = ";"%char ∨ byte b = 92)).

Definition validCookiePathByte (b : ascii) : bool :=
  bool_decide (32 ≤ byte b < 127) && negb (bool_decide (b = ";"%char)).

Definition sanitizeOrWarn (valid : ascii → bool) (v : string) : string :=
  if all_chars valid v then v else filter_chars valid v.

Definition last_char (s : string) : option ascii := String.get (String.length s - 1) s.
Definition first_char (s : string) : option ascii := String.get 0 s.

Definition space_or_comma (c : option ascii) : bool := bool_decide (c = Some " "%char ∨ c = Some ","%char).

Definition sanitizeCookieValue (v : string) : string :=
  let v := sanitizeOrWarn validCookieValueByte v in
  if decide (v = "") then v
  else if space_or_comma (first_char v) || space_or_comma (last_char v) then quoted v else v.

Definition sanitizeCookiePath (v : string) : string := sanitizeOrWarn validCookiePathByte v.

(** Newlines and carriage returns become dashes. *)
Fixpoint sanitizeCookieName (n : string) : string :=
  match n with
  | EmptyString => EmptyString
  | String a n => String (if decide (byte a = 10 ∨ byte a = 13) then "-"%char else a) (sanitizeCookieName n)
  end.

(** [raw[1 : len(raw)-1]] *)
Definition inner (raw : string) : string := String.substring 1 (String.length raw - 2) raw.

Definition parseCookieValue (raw : string) : option string :=
  let raw :=
    if bool_decide (1 < String.length raw ∧ first_char raw = Some (chr 34) ∧ last_char raw = Some (chr 34))
    then inner raw else raw in
  if all_chars validCookieValueByte raw then Some raw else None.

Definition isCookieNameValid (raw : string) : bool := all_chars isToken raw.

(** [name, value := s, ""], split at the first [=] if there is one. *)
Definition cut_eq (s : string) : string * string := default (s, "") (cut_at "=" s).

Section cookies.
Context (Parse_RFC1123 Parse_dashed : string → option Z).

(** An attribute; [None] when it is to be recorded as not parsed. *)
Definition attribute (part : string) (c : Cookie) : Cookie :=
  let '(attr, val) := cut_eq part in
  let lowerAttr := ToLower attr in
  let unparsed c := {| Name := Name c; Value := Value c; Path := Path c; Domain := Domain c; Expires := Expires c;
    RawExpires := RawExpires c; MaxAge := MaxAge c; Secure := Secure c; HttpOnly := HttpOnly c; Raw := Raw c;
    Unparsed := Unparsed c ++ [part] |} in
  match parseCookieValue val with
  | None => unparsed c
  | Some val =>
      if decide (lowerAttr = "secure") then
        {| Name := Name c; Value := Value c; Path := Path c; Domain := Domain c; Expires := Expires c;
           RawExpires := RawExpires c; MaxAge := MaxAge c; Secure := true; HttpOnly := HttpOnly c; Raw := Raw c;
           Unparsed := Unparsed c |}
      else if decide (lowerAttr = "httponly") then
        {| Name := Name c; Value := Value c; Path := Path c; Domain := Domain c; Expires := Expires c;
           RawExpires := RawExpires c; MaxAge := MaxAge c; Secure := Secure c; HttpOnly := true; Raw := Raw c;
           Unparsed := Unparsed c |}
      else if decide (lowerAttr = "domain") then
        {| Name := Name c; Value := Value c; Path := Path c; Domain := val; Expires := Expires c;
           RawExpires := RawExpires c; MaxAge := MaxAge c; Secure := Secure c; HttpOnly := HttpOnly c; Raw := Raw c;
           Unparsed := Unparsed c |}
      else if decide (lowerAttr = "max-age") then
        match ParseInt10 val with
        | None => unparsed c
        | Some secs =>
            if decide (secs ≠ 0%Z ∧ first_char val = Some "0"%char) then unparsed c
            else
              {| Name := Name c; Value := Value c; Path := Path c; Domain := Domain c; Expires := Expires c;
                 RawExpires := RawExpires c; MaxAge := (if (secs <=? 0)%Z then (-1)%Z else secs); Secure := Secure c;
                 HttpOnly := HttpOnly c; Raw := Raw c; Unparsed := Unparsed c |}
        end
      else if decide (lowerAttr = "expires") then
        let e := match Parse_RFC1123 val with Some t => Some t | None => Parse_dashed val end in
        let c := {| Name := Name c; Value := Value c; Path := Path c; Domain := Domain c; Expires := e;
                    RawExpires := val; MaxAge := MaxAge c; Secure := Secure c; HttpOnly := HttpOnly c; Raw := Raw c;
                    Unparsed := Unparsed c |} in
        match e with Some _ => c | None => unparsed c end
      else if decide (lowerAttr = "path") then
        {| Name := Name c; Value := Value c; Path := val; Domain := Domain c; Expires := Expires c;
           RawExpires := RawExpires c; MaxAge := MaxAge c; Secure := Secure c; HttpOnly := HttpOnly c; Raw := Raw c;
           Unparsed := Unparsed c |}
      else unparsed c
  end.

(** One line of a Set-Cookie header. *)
Definition set_cookie (line : string) : option Cookie :=
  match split_on ";" (TrimSpace line) with
  | [] => None
  | p0 :: parts =>
      if decide (parts = [] ∧ p0 = "") then None
      else
        match cut_at "=" (TrimSpace p0) with
        | None => None
        | Some (name, value) =>
            if negb (isCookieNameValid name) then None
            else
              match parseCookieValue value with
              | None => None
              | Some value =>
                  let c := {| Name := name; Value := value; Path := ""; Domain := ""; Expires := None; RawExpires := "";
                              MaxAge := 0; Secure := false; HttpOnly := false; Raw := line; Unparsed := [] |} in
                  Some (foldl (λ c part, let part := TrimSpace part in if decide (part = "") then c else attribute part c)
                              c parts)
              end
        end
  end.

Definition readSetCookies (h : gmap string (list string)) : list Cookie :=
  omap set_cookie (default [] (h !! "Set-Cookie")).
End cookies.

(** A pair of a Cookie header's line. *)
Definition cookie_pair (filter part : string) : option (string * string) :=
  let part := TrimSpace part in
  if decide (part = "") then None
  else
    let '(name, val) := cut_eq part in
    if negb (isCookieNameValid name) then None
    else if decide (filter ≠ "" ∧ filter ≠ name) then None
    else v ← parseCookieValue val; Some (name, v).

Definition readCookies (h : gmap string (list string)) (filter : string) : list (string * string) :=
  match h !! "Cookie" with
  | None => []
  | Some lines => lines ≫= λ line, omap (cookie_pair filter) (split_on ";" (TrimSpace line))
  end.

(** The state of the loop of [isCookieDomainName]: the last byte, whether a
    letter was seen, and the length of the part. *)
Fixpoint domain_loop (s : string) (last : ascii) (ok : bool) (partlen : nat) : bool :=
  match s with
  | EmptyString => if bool_decide (last = "-"%char) || bool_decide (63 < partlen) then false else ok
  | String c s =>
      let n := byte c in
      if bool_decide (97 ≤ n ≤ 122) || bool_decide (65 ≤ n ≤ 90) then domain_loop s c true (S partlen)
      else if bool_decide (48 ≤ n ≤ 57) then domain_loop s c ok (S partlen)
      else if decide (c = "-"%char) then
        if decide (last = "."%char) then false else domain_loop s c ok (S partlen)
      else if decide (c = "."%char) then
        if decide (last = "."%char ∨ last = "-"%char) then false
        else if bool_decide (63 < partlen) || bool_decide (partlen = 0) then false
        else domain_loop s c ok 0
      else false
  end.

Definition isCookieDomainName (s : string) : bool :=
  if decide (s = "") then false
  else if decide (255 < String.length s) then false
  else domain_loop (match s with String a r => if decide (a = "."%char) then r else s | _ => s end) "." false 0.

Definition validCookieDomain (ParseIP : string → bool) (v : string) : bool :=
  isCookieDomainName v || (ParseIP v && negb (in_string ":" v)).
End Cookie.

(** ** What they promise *)
Module HttpTextProps.
Import Text Lex Header Cookie.

Lemma substring_app n s1 s2 : n = String.length s1 → String.substring 0 n (s1 +:+ s2) = s1.
Proof.
  intros ->. induction s1 as [|a s1 IH]; rewrite ?str_app_nil, ?str_app_cons; cbn; [by destruct s2|]. by f_equal.
Qed.

Lemma get_app s1 s2 : String.get (String.length s1) (s1 +:+ s2) = String.get 0 s2.
Proof. induction s1 as [|a s1 IH]; rewrite ?str_app_nil, ?str_app_cons; [done|]. cbn. by rewrite IH. Qed.

Lemma inner_quoted v : inner (quoted v) = v.
Proof.
  unfold inner, quoted, dquote. rewrite !str_app_cons, !str_app_nil. cbn [String.length String.substring].
  rewrite length_str_app. cbn. apply substring_app. lia.
Qed.

Lemma last_quoted v : last_char (quoted v) = Some (chr 34).
Proof.
  unfold last_char, quoted, dquote. rewrite !str_app_cons, !str_app_nil. cbn [String.length].
  replace (S (String.length (v +:+ String (ascii_of_nat 34) "")) - 1) with (S (String.length v))
    by (rewrite length_str_app; cbn; lia).
  cbn. by rewrite get_app.
Qed.

Lemma first_valid p v c : all_chars p v = true → first_char v = Some c → p c = true.
Proof. unfold first_char. destruct v as [|a v]; cbn; [done|]. by intros [Ha _]%andb_true_iff [= ->]. Qed.

Lemma sanitize_filter p v : sanitizeOrWarn p v = filter_chars p v.
Proof. unfold sanitizeOrWarn. destruct (all_chars p v) eqn:E; [by rewrite filter_chars_id|done]. Qed.

(** A cookie's value survives being sent: parsing a sanitized value gives the
    bytes of the value that are legal in a cookie, in order, whether or not
    quotes had to be added. *)
Theorem cookie_value_roundtrip v :
  parseCookieValue (sanitizeCookieValue v) = Some (filter_chars validCookieValueByte v).
Proof.
  unfold sanitizeCookieValue. rewrite sanitize_filter.
  pose proof (filter_chars_all validCookieValueByte v) as Hw. revert Hw.
  generalize (filter_chars validCookieValueByte v). intros w Hw.
  destruct (decide (w = "")) as [->|He]; [by vm_compute|]. unfold parseCookieValue.
  destruct (space_or_comma (first_char w) || space_or_comma (last_char w)).
  - rewrite bool_decide_eq_true_2; [by rewrite inner_quoted, Hw|]. split; [|split; [done|apply last_quoted]].
    unfold quoted, dquote. rewrite !str_app_cons, !str_app_nil. cbn. rewrite length_str_app. cbn. lia.
  - rewrite bool_decide_eq_false_2; [by rewrite Hw|]. intros (_ & Hf & _).
    apply (first_valid validCookieValueByte) in Hf; [by vm_compute in Hf|done].
Qed.

(** Every cookie read has a name of token characters and a legal value, and
    has the name asked for. *)
Theorem readCookies_valid h filter :
  Forall (λ nv, isCookieNameValid nv.1 = true ∧ all_chars validCookieValueByte nv.2 = true ∧
    (filter = "" ∨ nv.1 = filter)) (readCookies h filter).
Proof.
  unfold readCookies. destruct (h !! "Cookie") as [lines|]; [|constructor].
  apply Forall_forall. intros [n v] Hin. apply list_elem_of_bind in Hin as (line & Hin & _).
  apply list_elem_of_omap in Hin as (part & _ & Hp). revert Hp. unfold cookie_pair.
  case_decide; [done|]. destruct (cut_eq (TrimSpace part)) as [name val].
  destruct (isCookieNameValid name) eqn:En; [|done]. cbn [negb]. case_decide as Hf; [done|].
  unfold parseCookieValue.
  match goal with |- context [all_chars _ ?x] => destruct (all_chars validCookieValueByte x) eqn:Ev end; [|done].
  cbn. intros [= <- <-]. split; [done|]. split; [done|].
  destruct (decide (filter = "")); [by left|right]. destruct (decide (name = filter)); [done|]. naive_solver.
Qed.

(** *** Tokens in header values *)

Definition boundary_before (s : string) : Prop := s = "" ∨ ∃ s' b, s = s' +:+ String b "" ∧ isTokenBoundary b = true.
Definition boundary_after (s : string) : Prop := s = "" ∨ ∃ b s', s = String b s' ∧ isTokenBoundary b = true.

Lemma EqualFold_length s t : EqualFold s t = true → String.length s = String.length t.
Proof.
  revert t. induction s as [|a s IH]; intros [|b t]; cbn; try done. intros [_ H]%andb_true_iff. by rewrite (IH t).
Qed.

Lemma EqualFold_refl s : EqualFold s s = true.
Proof. induction s; cbn; [done|]. by rewrite bool_decide_eq_true_2. Qed.

Definition is_lower (a : ascii) : Prop := 97 ≤ byte a ≤ 122.

(** The quick test of the first byte lets every match through. *)
Lemma first_bad_fold b t : is_lower t → lower_byte b = lower_byte t → first_bad b t = false.
Proof.
  intros Ht Hb. unfold is_lower, first_bad, lower_byte in *.
  rewrite (bool_decide_eq_false_2 (65 ≤ byte t ≤ 90)) in Hb by lia.
  destruct (bool_decide (65 ≤ byte b ≤ 90)) eqn:E; [|subst; by rewrite bool_decide_eq_true_2].
  apply bool_decide_eq_true in E. apply andb_false_iff. right. apply negb_false_iff, bool_decide_eq_true.
  rewrite <- Hb. f_equal.
  assert (forallb (λ n, Nat.eqb (Nat.lor n 32) (n + 32)) (seq 65 26) = true) as H by (vm_compute; reflexivity).
  rewrite forallb_forall in H. apply Nat.eqb_eq, H, in_seq. lia.
Qed.

Lemma substring_self n s : String.length s ≤ n → String.substring 0 n s = s.
Proof. revert n. induction s as [|a s IH]; intros [|n]; cbn; try done; try lia. intros Hn. f_equal. apply IH. lia. Qed.

Lemma substring_split n s :
  n ≤ String.length s → ∃ s', s = String.substring 0 n s +:+ s' ∧ String.get n s = String.get 0 s'.
Proof.
  revert n. induction s as [|a s IH]; intros [|n]; cbn; try lia; intros Hn.
  - by exists "".
  - by exists (String a s).
  - destruct (IH n ltac:(lia)) as (s' & E & G). exists s'. rewrite str_app_cons. split; [by f_equal|done].
Qed.

(** A match at a position: the token, in any case, between boundaries. *)
Lemma token_at_spec prev v token t0 tr :
  token = String t0 tr → is_lower t0 → String.length token ≤ String.length v →
  token_at prev v token = true ↔
  (match prev with Some p => isTokenBoundary p = true | None => True end) ∧
  ∃ mid post, v = mid +:+ post ∧ EqualFold mid token = true ∧ boundary_after post.
Proof.
  intros Et Hl Hlen. destruct v as [|b v]; [subst; cbn in Hlen; lia|].
  destruct (substring_split (String.length token) (String b v) Hlen) as (post0 & Ev & Eg).
  unfold token_at. rewrite Et at 1. split.
  - destruct (first_bad b t0); [done|]. intros H. split.
    { destruct prev as [p|]; [|done]. by destruct (isTokenBoundary p). }
    exists (String.substring 0 (String.length token) (String b v)), post0. split; [done|].
    revert H. destruct prev as [p|]; [destruct (isTokenBoundary p); [|done]|]; cbn [negb]; rewrite Eg;
      destruct post0 as [|e post0]; cbn [String.get];
      try (destruct (isTokenBoundary e) eqn:Ee; [|done]); cbn [negb]; intros H; (split; [exact H|]);
      try (by left); right; by eexists _, _.
  - intros (Hp & mid & post & E & Hf & Hpost).
    pose proof (EqualFold_length _ _ Hf) as Hm.
    assert (first_bad b t0 = false) as ->.
    { apply first_bad_fold; [done|]. subst token. destruct mid as [|m mid]; [done|].
      rewrite str_app_cons in E. injection E as -> _. cbn in Hf. apply andb_true_iff in Hf as [Hf _].
      by apply bool_decide_eq_true in Hf. }
    replace (match prev with Some p => negb (isTokenBoundary p) | None => false end) with false
      by (destruct prev; [by rewrite Hp|done]).
    rewrite E, <- Hm, get_app, substring_app by done.
    destruct Hpost as [->|(e & post' & -> & He)]; cbn [String.get]; [done|]. by rewrite He.
Qed.

Lemma token_from_spec prev v token t0 tr :
  token = String t0 tr → is_lower t0 →
  token_from prev v token = true ↔
  ∃ pre mid post, v = pre +:+ mid +:+ post ∧ EqualFold mid token = true ∧ boundary_after post ∧
    match pre with
    | EmptyString => match prev with Some p => isTokenBoundary p = true | None => True end
    | _ => boundary_before pre
    end.
Proof.
  intros Et Hl. revert prev. induction v as [|a v IH]; intros prev; cbn [token_from].
  - rewrite orb_false_r. split; [intros [H _]%andb_true_iff; apply bool_decide_eq_true in H; subst; cbn in H; lia|].
    intros (pre & mid & post & E & Hf & _). apply EqualFold_length in Hf.
    apply (f_equal String.length) in E. rewrite !length_str_app in E. subst. cbn in *. lia.
  - rewrite orb_true_iff, andb_true_iff, bool_decide_eq_true, IH. split.
    + intros [[Hlen H]|(pre & mid & post & -> & Hf & Hpost & Hpre)].
      * apply (token_at_spec _ _ _ t0 tr) in H as (Hp & mid & post & E & Hf & Hpost); [|done..].
        exists "", mid, post. by rewrite str_app_nil.
      * exists (String a pre), mid, post. rewrite !str_app_cons. split; [done|]. split; [done|]. split; [done|].
        right. destruct pre as [|c pre]; [by exists "", a|].
        destruct Hpre as [|(s' & b & -> & Hb)]; [done|]. exists (String a s'), b. by rewrite str_app_cons.
    + intros (pre & mid & post & E & Hf & Hpost & Hpre). destruct pre as [|c pre].
      * left. rewrite str_app_nil in E.
        assert (String.length token ≤ String.length (String a v)) as Hlen.
        { rewrite E, length_str_app, (EqualFold_length _ _ Hf). lia. }
        split; [done|]. apply (token_at_spec _ _ _ t0 tr); [done..|]. split; [done|]. by exists mid, post.
      * right. rewrite str_app_cons in E. injection E as -> ->. exists pre, mid, post.
        split; [done|]. split; [done|]. split; [done|].
        destruct Hpre as [|(s' & b & Es & Hb)]; [done|].
        destruct s' as [|x s'].
        -- rewrite str_app_nil in Es. by injection Es as -> ->.
        -- rewrite str_app_cons in Es. injection Es as -> ->. destruct s' as [|y s'].
           ++ rewrite str_app_nil. right. exists "", b. by rewrite str_app_nil.
           ++ rewrite str_app_cons. right. exists (String y s'), b. by rewrite str_app_cons.
Qed.

(** [hasToken] finds a lower-case token exactly where it stands in the value,
    in any case, between spaces, tabs, commas or the ends: the shortcuts of
    the loop miss nothing and add nothing. *)
Theorem hasToken_spec v token t0 tr :
  token = String t0 tr → is_lower t0 →
  hasToken v token = true ↔
  ∃ pre mid post, v = pre +:+ mid +:+ post ∧ EqualFold mid token = true ∧
    boundary_before pre ∧ boundary_after post.
Proof.
  intros Et Hl. unfold hasToken. case_decide as Hlen.
  - split; [done|]. intros (pre & mid & post & -> & Hf & _ & _). apply EqualFold_length in Hf.
    rewrite !length_str_app in Hlen. destruct Hlen as [Hl'|Hl']; [lia|by rewrite Hl' in Et].
  - case_decide as Heq.
    + split; [|done]. intros _. exists "", v, "". rewrite str_app_nil, str_app_nil_r. subst v.
      split; [done|]. split; [apply EqualFold_refl|]. split; by left.
    + rewrite (token_from_spec None v token t0 tr Et Hl). split; intros (pre & mid & post & E & Hf & H1 & H2).
      * exists pre, mid, post. split_and!; [done..| |done]. destruct pre; [by left|done].
      * exists pre, mid, post. split_and!; [done..|]. by destruct pre.
Qed.
End HttpTextProps.
