(* ===== verification/HttpBody.v ===== *)
(** Bodies of HTTP messages in the patched client: the chunked encoding
    (http13client/chunked.go) over a buffered reader, and the bodies that are
    read from it (the second part of http13client/transfer.go).

    A connection is the segments that its reads give, then an error; the
    buffered reader of package bufio is modelled with its buffer of 4096
    bytes, since the chunked reader looks at what is buffered. *)

From S2P Require Import Prelude HttpText.
Import Text.

(** ** Errors of reading *)
Inductive ioerr :=
| EOF | ErrUnexpectedEOF | ErrLineTooLong | ErrInvalidByte | ErrMalformed
| ErrTrailerEOF | ErrLongTrailer | ErrBodyReadAfterClose | ErrOther (e : string).
#[export] Instance ioerr_eq_dec : EqDecision ioerr.
Proof. solve_decision. Defined.

(** ** A buffered reader *)
Module Bufio.

Definition bufsize : nat := 4096.

Record reader := {
  buf : string;          (** read and not consumed *)
  src : list string;     (** what the next reads give, none empty *)
  end_err : ioerr;       (** then this error, again and again *)
}.

Definition with_buf (b : string) (segs : list string) (r : reader) : reader :=
  {| buf := b; src := segs; end_err := end_err r |}.

(** All that is left. *)
Definition flat (r : reader) : string := buf r +:+ foldr String.append "" (src r).

(** [s[:n]] and [s[n:]] *)
Fixpoint str_split (n : nat) (s : string) : string * string :=
  match n, s with
  | S n, String a s => let '(x, y) := str_split n s in (String a x, y)
  | _, _ => ("", s)
  end.

(** What a read of a segment leaves of it. *)
Definition push (s : string) (segs : list string) : list string :=
  if decide (s = "") then segs else s :: segs.

(** [fill]: one read, as much as there is room for. *)
Definition fill (r : reader) : option reader :=
  match src r with
  | [] => None
  | s :: segs =>
      let '(x, y) := str_split (bufsize - String.length (buf r)) s in
      Some (with_buf (buf r +:+ x) (push y segs) r)
  end.

(** [ReadSlice('\n')]: the line with its newline. A full buffer without one
    and an error give the buffer up. *)
Fixpoint read_slice (fuel : nat) (r : reader) : reader * outcome ioerr string :=
  match cut_at (chr 10) (buf r) with
  | Some (line, rest) => (with_buf rest (src r) r, Ok (line +:+ String (chr 10) ""))
  | None =>
      if bool_decide (bufsize ≤ String.length (buf r)) then (with_buf "" (src r) r, Err ErrLineTooLong)
      else
        match fuel, fill r with
        | S fuel, Some r => read_slice fuel r
        | _, _ => (with_buf "" (src r) r, Err (end_err r))
        end
  end.

(** Every fill adds a byte to the buffer or meets the end. *)
Definition ReadSlice (r : reader) : reader * outcome ioerr string := read_slice bufsize r.

(** [Read(p)] for [n] bytes: what is buffered, or one read. *)
Definition Read (n : nat) (r : reader) : reader * string * option ioerr :=
  if decide (buf r = "") then
    match src r with
    | [] => (r, "", Some (end_err r))
    | s :: segs =>
        if bool_decide (bufsize ≤ n) then
          let '(x, y) := str_split n s in (with_buf "" (push y segs) r, x, None)
        else
          let '(b, y) := str_split bufsize s in
          let '(x, rest) := str_split n b in (with_buf rest (push y segs) r, x, None)
    end
  else let '(x, rest) := str_split n (buf r) in (with_buf rest (src r) r, x, None).

(** [io.ReadFull] of two bytes. *)
Definition ReadFull2 (r : reader) : reader * outcome ioerr string :=
  match Read 2 r with
  | (r, x, Some e) => (r, Err e)
  | (r, x, None) =>
      if bool_decide (2 ≤ String.length x) then (r, Ok x)
      else
        match Read 1 r with
        | (r, _, Some e) => (r, Err (if decide (e = EOF) then ErrUnexpectedEOF else e))
        | (r, y, None) => (r, Ok (x +:+ y))
        end
  end.

(** [Peek(2)]: fills until there are two bytes, or no more. *)
Definition Peek2 (r : reader) : reader * string :=
  let more r := if bool_decide (2 ≤ String.length (buf r)) then r else default r (fill r) in
  let r := more (more r) in (r, (str_split 2 (buf r)).1).
End Bufio.

(** ** chunked.go *)
Module Chunked.
Import Bufio.
Local Open Scope Z_scope.

Definition maxLineLength : nat := 4096.

Definition isASCIISpace (b : ascii) : bool := bool_decide (byte b ∈ [32; 9; 10; 13]%nat).

(** Trailing white space goes: a character stays if it, or a later one, is
    no space. *)
Fixpoint trimTrailingWhitespace (b : string) : string :=
  match b with
  | EmptyString => EmptyString
  | String a b =>
      let t := trimTrailingWhitespace b in
      if decide (t = "" ∧ isASCIISpace a = true) then EmptyString else String a t
  end.

Definition readLine (r : reader) : reader * outcome ioerr string :=
  match ReadSlice r with
  | (r, Err e) => (r, Err (if decide (e = EOF) then ErrUnexpectedEOF else e))
  | (r, Ok p) => (r, if bool_decide (maxLineLength ≤ String.length p)%nat then Err ErrLineTooLong
                     else Ok (trimTrailingWhitespace p))
  | (r, Panic) => (r, Panic)
  end.

Definition hex_val (b : ascii) : option Z :=
  let c := Z.of_nat (byte b) in
  if (48 <=? c) && (c <=? 57) then Some (c - 48)
  else if (97 <=? c) && (c <=? 102) then Some (c - 97 + 10)
  else if (65 <=? c) && (c <=? 70) then Some (c - 65 + 10)
  else None.

(** [n <<= 4; n |= b] on 64 bits. *)
Fixpoint parse_hex (n : Z) (v : string) : option Z :=
  match v with
  | EmptyString => Some n
  | String b v => d ← hex_val b; parse_hex (Z.lor (u64 (Z.shiftl n 4)) d) v
  end.
Definition parseHexUint (v : string) : option Z := parse_hex 0 v.

Record chunkedReader := { br : reader; cn : Z; cerr : option ioerr }.

Definition beginChunk (cr : chunkedReader) : chunkedReader :=
  match readLine (br cr) with
  | (r, Ok line) =>
      match parseHexUint line with
      | None => {| br := r; cn := 0; cerr := Some ErrInvalidByte |}
      | Some n => {| br := r; cn := n; cerr := if decide (n = 0) then Some EOF else None |}
      end
  | (r, Err e) => {| br := r; cn := cn cr; cerr := Some e |}
  | (r, Panic) => {| br := r; cn := cn cr; cerr := None |}
  end.

Definition chunkHeaderAvailable (cr : chunkedReader) : bool := in_string (chr 10) (buf (br cr)).

(** The check at the end of a chunk. *)
Definition endChunk (cr : chunkedReader) : chunkedReader :=
  match ReadFull2 (br cr) with
  | (r, Err e) => {| br := r; cn := cn cr; cerr := Some e |}
  | (r, Ok b) =>
      {| br := r; cn := cn cr;
         cerr := if decide (b = String (chr 13) (String (chr 10) "")) then None else Some ErrMalformed |}
  | (r, Panic) => {| br := r; cn := cn cr; cerr := None |}
  end.

(** [Read(b)] with [m] the bytes that are left of [b], [data] those read. *)
Fixpoint read_loop (fuel : nat) (m : nat) (data : string) (cr : chunkedReader) : chunkedReader * string :=
  match fuel with
  | O => (cr, data)
  | S fuel =>
      match cerr cr with
      | Some _ => (cr, data)
      | None =>
          if decide (cn cr = 0) then
            if decide (data ≠ "" ∧ chunkHeaderAvailable cr = false) then (cr, data)
            else read_loop fuel m data (beginChunk cr)
          else if decide (m = O) then (cr, data)
          else
            let k := if Z.of_nat m <=? cn cr then m else Z.to_nat (cn cr) in
            let '(r, x, e) := Read k (br cr) in
            let cr := {| br := r; cn := cn cr - len x; cerr := e |} in
            let cr := if decide (cn cr = 0 ∧ cerr cr = None) then endChunk cr else cr in
            read_loop fuel (m - String.length x) (data +:+ x) cr
      end
  end.

(** Every second round reads a byte. *)
Definition Read_fuel (cr : chunkedReader) : nat := 2 * String.length (flat (br cr)) + 3.
Definition Read (m : nat) (cr : chunkedReader) : chunkedReader * string := read_loop (Read_fuel cr) m "" cr.

Definition newChunkedReader (r : reader) : chunkedReader := {| br := r; cn := 0; cerr := None |}.

(** [io.Copy] of the rest, in reads of [m] bytes, up to the error. *)
Fixpoint read_all (fuel m : nat) (cr : chunkedReader) : chunkedReader * string :=
  match fuel with
  | O => (cr, "")
  | S fuel =>
      let '(cr, x) := Read m cr in
      match cerr cr with
      | Some _ => (cr, x)
      | None => let '(cr, y) := read_all fuel m cr in (cr, x +:+ y)
      end
  end.
Definition ReadAll (m : nat) (cr : chunkedReader) : chunkedReader * string :=
  read_all (S (String.length (flat (br cr)))) m cr.

(** *** The writer *)

Definition hex_digit (d : Z) : ascii := chr (Z.to_nat (if d <? 10 then 48 + d else 87 + d)).
Fixpoint format_hex (fuel : nat) (z : Z) (acc : string) : string :=
  match fuel with
  | O => acc
  | S fuel =>
      let acc := String (hex_digit (z `mod` 16)) acc in
      if z <? 16 then acc else format_hex fuel (z / 16) acc
  end.
Definition CRLF : string := String (chr 13) (String (chr 10) "").

(** [Write]: what goes to the wire; nothing for no data. *)
Definition chunkedWriter_Write (data : string) : string :=
  if decide (data = "") then ""
  else format_hex 16 (len data) "" +:+ CRLF +:+ data +:+ CRLF.
Definition chunkedWriter_Close : string := "0" +:+ CRLF.

(** *** The encoding itself, as a function of the stream *)

(** A line: up to a newline, which must come within the limit. *)
Definition line_spec (E : ioerr) (s : string) : outcome ioerr (string * string) :=
  match cut_at (chr 10) s with
  | Some (l, rest) =>
      if bool_decide (maxLineLength ≤ String.length l + 1)%nat then Err ErrLineTooLong
      else Ok (trimTrailingWhitespace (l +:+ String (chr 10) ""), rest)
  | None =>
      if bool_decide (bufsize ≤ String.length s)%nat then Err ErrLineTooLong
      else Err (if decide (E = EOF) then ErrUnexpectedEOF else E)
  end.

Definition crlf_spec (E : ioerr) (s : string) : outcome ioerr string :=
  match s with
  | EmptyString => Err E
  | String _ EmptyString => Err (if decide (E = EOF) then ErrUnexpectedEOF else E)
  | String a (String b s) => if decide (a = chr 13 ∧ b = chr 10) then Ok s else Err ErrMalformed
  end.

(** The data and the error that a stream [s], of which [n] bytes belong to
    the chunk under way, decodes to, byte by byte, and what is left of it
    when that error is [EOF]. *)
Fixpoint decode (fuel : nat) (E : ioerr) (n : Z) (s : string) : string * ioerr * string :=
  match fuel with
  | O => ("", E, "")
  | S fuel =>
      if decide (n = 0) then
        match line_spec E s with
        | Ok (l, rest) =>
            match parseHexUint l with
            | None => ("", ErrInvalidByte, "")
            | Some n => if decide (n = 0) then ("", EOF, rest) else decode fuel E n rest
            end
        | Err e => ("", e, "")
        | Panic => ("", E, "")
        end
      else
        match s with
        | EmptyString => ("", E, "")
        | String a s =>
            if decide (n = 1) then
              match crlf_spec E s with
              | Ok s => let '(d, e, rest) := decode fuel E 0 s in (String a d, e, rest)
              | Err e => (String a "", e, "")
              | Panic => (String a "", E, "")
              end
            else let '(d, e, rest) := decode fuel E (n - 1) s in (String a d, e, rest)
        end
  end.

(** Each round takes a byte at least. *)
Definition decode_stream (E : ioerr) (n : Z) (s : string) : string * ioerr * string := decode (S (String.length s)) E n s.
End Chunked.

Module ChunkedProps.
Import Bufio Chunked.

(** *** The buffered reader *)

Definition wf (r : reader) : Prop := Forall (λ s, s ≠ "") (src r) ∧ String.length (buf r) ≤ bufsize.

Lemma str_split_spec n s :
  s = (str_split n s).1 +:+ (str_split n s).2 ∧ String.length (str_split n s).1 = n `min` String.length s.
Proof.
  revert s. induction n as [|n IH]; intros [|a s]; cbn; try done.
  specialize (IH s). destruct (str_split n s) as [x y]. cbn in *. destruct IH as [-> IH].
  rewrite str_app_cons. split; [done|]. by rewrite IH.
Qed.

Lemma str_split_eq n s x y : str_split n s = (x, y) → s = x +:+ y ∧ String.length x = n `min` String.length s.
Proof. intros E. pose proof (str_split_spec n s) as H. by rewrite E in H. Qed.

Lemma length_0 s : String.length s = 0 ↔ s = "".
Proof. by destruct s. Qed.

Lemma length_pos s : s ≠ "" → 0 < String.length s.
Proof. destruct s; cbn; [done|lia]. Qed.

Lemma push_flat y segs : foldr String.append "" (push y segs) = y +:+ foldr String.append "" segs.
Proof. unfold push. case_decide as H; [by rewrite H, str_app_nil|done]. Qed.

Lemma push_wf y segs : Forall (λ s, s ≠ "") segs → Forall (λ s, s ≠ "") (push y segs).
Proof. unfold push. case_decide; [done|]. by constructor. Qed.

(** Filling moves bytes into the buffer, or there are no more. *)
Lemma fill_reads r :
  wf r → String.length (buf r) < bufsize →
  match fill r with
  | Some r' => wf r' ∧ flat r' = flat r ∧ end_err r' = end_err r ∧ ∃ x, x ≠ "" ∧ buf r' = buf r +:+ x
  | None => flat r = buf r
  end.
Proof.
  intros [Hs Hb] Hlt. unfold fill, flat. destruct (src r) as [|s segs] eqn:Es; [cbn; apply str_app_nil_r|].
  destruct (str_split _ s) as [x y] eqn:E. apply str_split_eq in E as [-> Hx].
  apply Forall_cons in Hs as [Hne Hs]. cbn. rewrite push_flat, !str_app_assoc. split_and!; [|done|done|].
  - split; cbn; [by apply push_wf|]. rewrite length_str_app, Hx. lia.
  - exists x. split; [|done]. intros ->. rewrite str_app_nil in *. apply length_pos in Hne.
    change (String.length "") with 0 in Hx. lia.
Qed.

Lemma Read_spec n r :
  wf r → 0 < n →
  let '(r', x, e) := Bufio.Read n r in
  wf r' ∧ end_err r' = end_err r ∧ flat r = x +:+ flat r' ∧
  if decide (flat r = "") then x = "" ∧ e = Some (end_err r) ∧ r' = r
  else x ≠ "" ∧ e = None ∧ String.length x ≤ n.
Proof.
  intros [Hs Hb] Hn. unfold Bufio.Read, flat. case_decide as Eb.
  - rewrite Eb, str_app_nil. destruct (src r) as [|s segs] eqn:Es.
    { cbn. rewrite Es, Eb. split_and!; try done. split; [by rewrite Es|rewrite Eb; cbn; lia]. }
    apply Forall_cons in Hs as [Hne Hs].
    assert (foldr String.append "" (s :: segs) ≠ "") as Hf.
    { cbn. destruct s; [done|]. by rewrite str_app_cons. }
    case_bool_decide.
    + destruct (str_split n s) as [x y] eqn:E. apply str_split_eq in E as [-> Hx].
      rewrite decide_False by done. cbn. rewrite push_flat, str_app_nil, str_app_assoc. split_and!; try done.
      * split; cbn; [by apply push_wf|lia].
      * intros ->. rewrite str_app_nil in *. apply length_pos in Hne. change (String.length "") with 0 in Hx. lia.
      * lia.
    + destruct (str_split bufsize s) as [b y] eqn:E. apply str_split_eq in E as [-> Hbl].
      destruct (str_split n b) as [x rest] eqn:E2. apply str_split_eq in E2 as [-> Hx].
      rewrite decide_False by done. cbn. rewrite push_flat, !str_app_assoc. split_and!; try done.
      * split; cbn; [by apply push_wf|]. rewrite length_str_app in Hbl. lia.
      * intros ->. rewrite str_app_nil in *. apply length_pos in Hne. change (String.length "") with 0 in Hx.
        rewrite length_str_app in *. assert (0 < bufsize) by (unfold bufsize; lia). lia.
      * lia.
  - destruct (str_split n (buf r)) as [x rest] eqn:E. apply str_split_eq in E as [E Hx].
    rewrite decide_False; [|destruct (buf r); [done|]; by rewrite str_app_cons].
    cbn. rewrite E at 1. rewrite str_app_assoc. split_and!; try done.
    + split; cbn; [done|]. rewrite E, length_str_app in Hb. lia.
    + intros ->. apply length_pos in Eb. change (String.length "") with 0 in Hx. lia.
    + lia.
Qed.

(** The newline found in the buffer is the first of the stream. *)
Lemma cut_at_prefix c b s l rest : cut_at c b = Some (l, rest) → cut_at c (b +:+ s) = Some (l, rest +:+ s).
Proof.
  intros Hc. apply cut_at_Some in Hc as [-> Hl]. rewrite <- str_app_assoc, str_app_cons. by apply cut_at_app.
Qed.

Lemma cut_at_length c s l rest : cut_at c s = Some (l, rest) → String.length s = String.length l + S (String.length rest).
Proof. intros [-> _]%cut_at_Some. by rewrite length_str_app. Qed.

Lemma in_string_cut c s1 s2 l rest :
  in_string c s1 = false → cut_at c (s1 +:+ s2) = Some (l, rest) → String.length s1 ≤ String.length l.
Proof.
  revert l. induction s1 as [|a s1 IH]; intros l; rewrite ?str_app_nil, ?str_app_cons; cbn; [lia|].
  intros [Ha Hs]%orb_false_iff. apply bool_decide_eq_false in Ha. rewrite decide_False by done.
  destruct (cut_at c (s1 +:+ s2)) as [[l' r']|]; [|done]. intros [= <- <-]. cbn. specialize (IH l' Hs eq_refl). lia.
Qed.

(** A line read is the first of the stream, if it ends within the buffer. *)
Lemma read_slice_spec fuel r :
  wf r → bufsize ≤ fuel + String.length (buf r) →
  let '(r', o) := read_slice fuel r in
  wf r' ∧ end_err r' = end_err r ∧
  match o with
  | Ok p => ∃ l, p = l +:+ String (chr 10) "" ∧ cut_at (chr 10) (flat r) = Some (l, flat r')
  | Err e =>
      (e = ErrLineTooLong ∧ bufsize ≤ String.length (flat r) ∧
         (∀ l rest, cut_at (chr 10) (flat r) = Some (l, rest) → bufsize ≤ String.length l)) ∨
      (e = end_err r ∧ cut_at (chr 10) (flat r) = None ∧ String.length (flat r) < bufsize)
  | Panic => False
  end.
Proof.
  revert r. induction fuel as [|fuel IH]; intros r Hwf Hfuel; cbn [read_slice];
    (destruct (cut_at (chr 10) (buf r)) as [[l rest]|] eqn:Ec;
     [split_and!; [|done|]; [split; [apply Hwf|]; cbn; apply cut_at_length in Ec; destruct Hwf; lia|];
      exists l; split; [done|]; unfold flat; cbn; by apply cut_at_prefix|]).
  all: assert (wf (with_buf "" (src r) r)) as Hwf' by (split; [apply Hwf|cbn; lia]).
  all: apply cut_at_None in Ec.
  all: case_bool_decide as Hfull;
    [split_and!; [done..|]; left; split_and!; [done|unfold flat; rewrite length_str_app; lia|];
     intros l rest Hc; apply in_string_cut in Hc; [lia|done]|].
  - lia.
  - pose proof (fill_reads r Hwf ltac:(lia)) as Hf. destruct (fill r) as [r1|].
    + destruct Hf as (Hwf1 & Hfl & He & x & Hx & Hb).
      specialize (IH r1 Hwf1). rewrite Hb, length_str_app in IH. apply length_pos in Hx.
      specialize (IH ltac:(lia)). rewrite Hfl, He in IH. by destruct (read_slice fuel r1).
    + split_and!; [done..|]. right. rewrite Hf. split_and!; [done|by apply cut_at_None|lia].
Qed.

Lemma readLine_spec r :
  wf r →
  let '(r', o) := readLine r in
  wf r' ∧ end_err r' = end_err r ∧
  match line_spec (end_err r) (flat r) with
  | Ok (l, rest) => o = Ok l ∧ flat r' = rest
  | Err e => o = Err e
  | Panic => False
  end.
Proof.
  intros Hwf. unfold readLine, ReadSlice. pose proof (read_slice_spec bufsize r Hwf ltac:(lia)) as H.
  destruct (read_slice bufsize r) as [r' [p|e|]]; destruct H as (Hwf' & He & H); [| |done].
  - destruct H as (l & -> & Hc). unfold line_spec. rewrite Hc, length_str_app. cbn [String.length].
    split; [done|]. split; [done|]. by case_bool_decide.
  - split; [done|]. split; [done|]. unfold line_spec.
    destruct H as [(-> & Hl & Hc)|(-> & Hc & Hl)].
    + rewrite (decide_False (P := ErrLineTooLong = EOF)) by done. destruct (cut_at (chr 10) (flat r)) as [[l rest]|] eqn:E.
      * specialize (Hc l rest eq_refl). rewrite bool_decide_eq_true_2; [done|]. unfold maxLineLength. unfold bufsize in *. lia.
      * by rewrite bool_decide_eq_true_2.
    + by rewrite Hc, bool_decide_eq_false_2 by lia.
Qed.

Lemma ReadFull2_spec r :
  wf r →
  let '(r', o) := ReadFull2 r in
  wf r' ∧ end_err r' = end_err r ∧
  match flat r with
  | EmptyString => o = Err (end_err r) ∧ flat r' = ""
  | String _ EmptyString => o = Err (if decide (end_err r = EOF) then ErrUnexpectedEOF else end_err r)
  | String a (String b s) => o = Ok (String a (String b "")) ∧ flat r' = s
  end.
Proof.
  intros Hwf. unfold ReadFull2. pose proof (Read_spec 2 r Hwf ltac:(lia)) as H1.
  destruct (Bufio.Read 2 r) as [[r1 x] e]. destruct H1 as (Hwf1 & He1 & Hf1 & H1). case_decide as E.
  { destruct H1 as (-> & -> & ->). by rewrite E. }
  destruct H1 as (Hx & -> & Hl). case_bool_decide as H2.
  - destruct x as [|a [|b [|c x]]]; cbn in H2, Hl; try lia.
    rewrite Hf1, !str_app_cons, str_app_nil. done.
  - destruct x as [|a [|b x]]; [done| |cbn in H2; lia].
    pose proof (Read_spec 1 r1 Hwf1 ltac:(lia)) as H3.
    destruct (Bufio.Read 1 r1) as [[r2 y] e2]. destruct H3 as (Hwf2 & He2 & Hf2 & H3).
    rewrite Hf1, str_app_cons, str_app_nil. case_decide as E2.
    + destruct H3 as (-> & -> & ->). rewrite E2, He1. done.
    + destruct H3 as (Hy & -> & Hl2). destruct y as [|b [|c y]]; [done| |cbn in Hl2; lia].
      rewrite Hf2, str_app_cons, str_app_nil, He2, He1. done.
Qed.

(** *** Decoding *)

Lemma line_spec_shorter E s l rest : line_spec E s = Ok (l, rest) → String.length rest < String.length s.
Proof.
  unfold line_spec. destruct (cut_at (chr 10) s) as [[l' r']|] eqn:Ec; [|by case_bool_decide].
  case_bool_decide; [done|]. intros [= <- <-]. apply cut_at_length in Ec. lia.
Qed.

Lemma crlf_spec_shorter E s rest : crlf_spec E s = Ok rest → String.length s = S (S (String.length rest)).
Proof. destruct s as [|a [|b s]]; cbn; try done. case_decide; [|done]. by intros [= <-]. Qed.

Lemma crlf_spec_no_panic E s : crlf_spec E s ≠ Panic.
Proof. destruct s as [|a [|b s]]; cbn; try done. by case_decide. Qed.

(** More rounds than bytes are all the same. *)
Lemma decode_fuel f1 f2 E n s :
  String.length s < f1 → String.length s < f2 → decode f1 E n s = decode f2 E n s.
Proof.
  revert f2 n s. induction f1 as [|f1 IH]; intros [|f2] n s H1 H2; try lia. cbn [decode].
  case_decide.
  - destruct (line_spec E s) as [[l rest]|e|] eqn:El; [|done..]. apply line_spec_shorter in El.
    destruct (parseHexUint l) as [n'|]; [|done]. case_decide; [done|]. apply IH; lia.
  - destruct s as [|a s]; [done|]. cbn in H1, H2. case_decide.
    + destruct (crlf_spec E s) as [rest|e|] eqn:Ec; [|done..]. apply crlf_spec_shorter in Ec.
      by rewrite (IH f2) by lia.
    + by rewrite (IH f2) by lia.
Qed.

Lemma decode_stream_fuel f E n s : String.length s < f → decode f E n s = decode_stream E n s.
Proof. intros H. apply decode_fuel; lia. Qed.

Definition prepend (x : string) (r : string * ioerr * string) : string * ioerr * string :=
  let '(d, e, rest) := r in (x +:+ d, e, rest).

Lemma decode_stream_cons E n a s :
  n ≠ 0%Z →
  decode_stream E n (String a s) =
    if decide (n = 1%Z) then
      match crlf_spec E s with
      | Ok s' => prepend (String a "") (decode_stream E 0 s')
      | Err e => (String a "", e, "")
      | Panic => (String a "", E, "")
      end
    else prepend (String a "") (decode_stream E (n - 1) s).
Proof.
  intros Hn. unfold decode_stream at 1.
  assert (∀ f, String.length s < f → decode (S f) E n (String a s) =
    if decide (n = 1%Z) then
      match crlf_spec E s with
      | Ok s' => prepend (String a "") (decode_stream E 0 s')
      | Err e => (String a "", e, "")
      | Panic => (String a "", E, "")
      end
    else prepend (String a "") (decode_stream E (n - 1) s)) as H; [|apply H; cbn; lia].
  intros f Hf. cbn [decode]. rewrite (decide_False (P := n = 0%Z)) by done. case_decide.
  - destruct (crlf_spec E s) as [s'|e|] eqn:Ec; [|done..]. apply crlf_spec_shorter in Ec.
    rewrite decode_stream_fuel by lia. destruct (decode_stream E 0 s') as [[d e] r]. cbn.
    by rewrite str_app_cons, str_app_nil.
  - rewrite decode_stream_fuel by lia. destruct (decode_stream E (n - 1) s) as [[d e] r]. cbn.
    by rewrite str_app_cons, str_app_nil.
Qed.

Lemma decode_stream_nil E n : n ≠ 0%Z → decode_stream E n "" = ("", E, "").
Proof. intros Hn. unfold decode_stream. cbn. by rewrite decide_False. Qed.

Lemma decode_stream_begin E s :
  decode_stream E 0 s =
    match line_spec E s with
    | Ok (l, rest) =>
        match parseHexUint l with
        | None => ("", ErrInvalidByte, "")
        | Some n => if decide (n = 0%Z) then ("", EOF, rest) else decode_stream E n rest
        end
    | Err e => ("", e, "")
    | Panic => ("", E, "")
    end.
Proof.
  unfold decode_stream at 1. cbn [decode]. rewrite decide_True by done.
  destruct (line_spec E s) as [[l rest]|e|] eqn:El; [|done..]. apply line_spec_shorter in El.
  destruct (parseHexUint l) as [n|]; [|done]. case_decide; [done|]. by apply decode_stream_fuel.
Qed.

Lemma prepend_nil r : prepend "" r = r.
Proof. by destruct r as [[??]?]. Qed.

Lemma prepend_prepend x y r : prepend x (prepend y r) = prepend (x +:+ y) r.
Proof. destruct r as [[d e] rest]. cbn. by rewrite str_app_assoc. Qed.

(** Bytes inside of a chunk are data. *)
Lemma decode_take E n x s :
  x ≠ "" → (len x ≤ n)%Z →
  decode_stream E n (x +:+ s) =
    if decide (len x = n) then
      match crlf_spec E s with
      | Ok s' => prepend x (decode_stream E 0 s')
      | Err e => (x, e, "")
      | Panic => (x, E, "")
      end
    else prepend x (decode_stream E (n - len x) s).
Proof.
  revert n. induction x as [|a x IH]; intros n Hx Hn; [done|]. rewrite str_app_cons.
  rewrite decode_stream_cons by (cbn in Hn; lia).
  destruct x as [|b x]; [by rewrite str_app_nil; destruct (decide (n = 1%Z)); [rewrite decide_True by done|
    rewrite decide_False by done; replace (n - len (String a ""))%Z with (n - 1)%Z by (cbn; lia)]|].
  rewrite decide_False by (cbn in Hn; lia). rewrite IH by (done || cbn in *; lia).
  destruct (decide (len (String b x) = n - 1)%Z) as [Hd|Hd].
  - rewrite decide_True by (cbn in *; lia). destruct (crlf_spec E s) as [s'|e|]; cbn [prepend];
      rewrite ?prepend_prepend, ?str_app_cons, ?str_app_nil; done.
  - rewrite decide_False by (cbn in *; lia). rewrite prepend_prepend, str_app_cons, str_app_nil.
    f_equal. f_equal. cbn. lia.
Qed.


(** *** The chunked reader *)

Lemma parse_hex_nonneg v n z : (0 ≤ n)%Z → parse_hex n v = Some z → (0 ≤ z)%Z.
Proof.
  revert n. induction v as [|b v IH]; intros n Hn; cbn; [intros [= <-]; done|].
  destruct (hex_val b) as [d|] eqn:Ed; [|done]. cbn. apply IH.
  apply Z.lor_nonneg. split; [apply uN_range; lia|].
  unfold hex_val in Ed. repeat case_match; simplify_eq; lia.
Qed.

Lemma line_spec_not_EOF E s e : line_spec E s = Err e → e ≠ EOF.
Proof.
  unfold line_spec. destruct (cut_at (chr 10) s) as [[??]|]; case_bool_decide; try (by intros [= <-]).
  case_decide as HE; intros [= <-]; [done|by intros ->].
Qed.

(** What is known when [Read] returns [data'] after [data] was read before:
    [x] is new. *)
Definition read_ok (cr : chunkedReader) (data : string) (cr' : chunkedReader) (data' : string) : Prop :=
  let E := end_err (br cr) in
  wf (br cr') ∧ end_err (br cr') = E ∧ (0 ≤ cn cr')%Z ∧
  match cerr cr with
  | Some _ => cr' = cr ∧ data' = data
  | None => ∃ x, data' = data +:+ x ∧
      match cerr cr' with
      | None => data' ≠ "" ∧ String.length (flat (br cr')) + String.length x ≤ String.length (flat (br cr)) ∧
                decode_stream E (cn cr) (flat (br cr)) = prepend x (decode_stream E (cn cr') (flat (br cr')))
      | Some e => ∃ rest, decode_stream E (cn cr) (flat (br cr)) = (x, e, rest) ∧ (e = EOF → flat (br cr') = rest)
      end
  end.

(** A step that adds [x] to the data and goes on as [cr1]. *)
Lemma read_ok_step cr data x cr1 cr' data' :
  cerr cr = None → end_err (br cr1) = end_err (br cr) →
  (cerr cr1 = None → String.length (flat (br cr1)) + String.length x ≤ String.length (flat (br cr)) ∧
     decode_stream (end_err (br cr)) (cn cr) (flat (br cr))
     = prepend x (decode_stream (end_err (br cr)) (cn cr1) (flat (br cr1)))) →
  (∀ e, cerr cr1 = Some e → ∃ rest, decode_stream (end_err (br cr)) (cn cr) (flat (br cr)) = (x, e, rest) ∧
     (e = EOF → flat (br cr1) = rest)) →
  read_ok cr1 (data +:+ x) cr' data' → read_ok cr data cr' data'.
Proof.
  unfold read_ok. intros -> He Hnone Hsome. rewrite He. intros (Hwf & HE & Hn & H).
  split; [done|]. split; [done|]. split; [done|].
  destruct (cerr cr1) as [e|] eqn:E1.
  - destruct H as [-> ->]. exists x. split; [done|]. rewrite E1. by apply Hsome.
  - destruct (Hnone eq_refl) as [Hlen Hd]. destruct H as (y & -> & H). exists (x +:+ y).
    split; [by rewrite str_app_assoc|]. destruct (cerr cr') as [e|].
    + destruct H as (rest & Hr & Hf). exists rest. rewrite Hd, Hr. done.
    + destruct H as (Hne & Hlen' & Hr). split; [done|]. rewrite length_str_app. split; [lia|].
      by rewrite Hd, Hr, prepend_prepend.
Qed.

Lemma beginChunk_spec cr :
  wf (br cr) → cerr cr = None → cn cr = 0%Z →
  let cr1 := beginChunk cr in
  let E := end_err (br cr) in
  wf (br cr1) ∧ end_err (br cr1) = E ∧ (0 ≤ cn cr1)%Z ∧
  (cerr cr1 = None → String.length (flat (br cr1)) < String.length (flat (br cr)) ∧
     decode_stream E 0 (flat (br cr)) = decode_stream E (cn cr1) (flat (br cr1))) ∧
  (∀ e, cerr cr1 = Some e → ∃ rest, decode_stream E 0 (flat (br cr)) = ("", e, rest) ∧ (e = EOF → flat (br cr1) = rest)).
Proof.
  intros Hwf Hc Hn. cbv zeta. unfold beginChunk. pose proof (readLine_spec (br cr) Hwf) as H.
  destruct (readLine (br cr)) as [r' o]. destruct H as (Hwf' & HE & H).
  rewrite decode_stream_begin. destruct (line_spec _ _) as [[l rest]|e|] eqn:El; [| |done].
  - destruct H as [-> <-]. apply line_spec_shorter in El as Hl.
    destruct (parseHexUint l) as [n|] eqn:Ep; cbn [br cn cerr].
    + apply parse_hex_nonneg in Ep; [|lia]. split_and!; try done; destruct (decide (n = 0%Z)) as [->|]; try done.
      intros e [= <-]. eauto.
    + split_and!; try done. intros e [= <-]. eexists. split; [done|]. done.
  - subst o. apply line_spec_not_EOF in El. cbn [br cn cerr]. rewrite Hn. split_and!; try done.
    intros e' [= <-]. eexists. split; [done|]. intros ->. done.
Qed.

Lemma endChunk_spec cr :
  wf (br cr) →
  let cr1 := endChunk cr in
  let E := end_err (br cr) in
  wf (br cr1) ∧ end_err (br cr1) = E ∧ cn cr1 = cn cr ∧
  match crlf_spec E (flat (br cr)) with
  | Ok s => cerr cr1 = None ∧ flat (br cr1) = s
  | Err e => cerr cr1 = Some e ∧ (e = EOF → flat (br cr1) = "")
  | Panic => False
  end.
Proof.
  intros Hwf. cbv zeta. unfold endChunk. pose proof (ReadFull2_spec (br cr) Hwf) as H.
  destruct (ReadFull2 (br cr)) as [r' o]. destruct H as (Hwf' & HE & H).
  destruct (flat (br cr)) as [|a [|b s]]; cbn [crlf_spec].
  - destruct H as [-> Hf]. done.
  - subst o. split_and!; try done. case_decide; [done|]. naive_solver.
  - destruct H as [-> Hf]. cbn [br cn cerr]. destruct (decide (a = chr 13 ∧ b = chr 10)) as [[-> ->]|Hne].
    + rewrite decide_True by done. done.
    + rewrite decide_False by (intros [= -> ->]; by apply Hne). done.
Qed.

Lemma read_loop_spec fuel m data cr :
  wf (br cr) → (0 ≤ cn cr)%Z → 0 < fuel → (cerr cr = None → String.length (flat (br cr)) + 1 < fuel) →
  (m = 0 → data ≠ "") →
  let '(cr', data') := read_loop fuel m data cr in read_ok cr data cr' data'.
Proof.
  revert m data cr. induction fuel as [|fuel IH]; intros m data cr Hwf Hn Hf Hlen Hm; [lia|]. cbn [read_loop].
  destruct (cerr cr) as [e|] eqn:Ec.
  { unfold read_ok. rewrite Ec. split_and!; done. }
  specialize (Hlen eq_refl).
  assert (data ≠ "" → read_ok cr data cr data) as Hstop.
  { intros Hd. unfold read_ok. rewrite Ec. split_and!; [done..|]. exists "". rewrite str_app_nil_r. split; [done|].
    rewrite prepend_nil. split; [done|]. split; [cbn; lia|done]. }
  destruct (decide (cn cr = 0%Z)) as [Hc0|Hc0].
  - case_decide as Hh; [by destruct Hh; apply Hstop|].
    destruct (beginChunk_spec cr Hwf Ec Hc0) as (Hwf1 & HE1 & Hn1 & Hnone & Hsome).
    specialize (IH m data (beginChunk cr) Hwf1 Hn1 ltac:(lia)).
    destruct (read_loop fuel m data (beginChunk cr)) as [cr' data'].
    apply (read_ok_step cr data "" (beginChunk cr)); rewrite ?Hc0, ?str_app_nil_r; [done|done| |done|].
    + intros H1. destruct (Hnone H1) as [H2 H3]. rewrite H3, prepend_nil. split; [cbn; lia|done].
    + apply IH; [|done]. intros H1. destruct (Hnone H1). lia.
  - destruct (decide (m = 0)) as [->|Hm0]; [by apply Hstop, Hm|].
    set (k := if (Z.of_nat m <=? cn cr)%Z then m else Z.to_nat (cn cr)).
    assert (0 < k ∧ k ≤ m ∧ (Z.of_nat k ≤ cn cr)%Z) as (Hk & Hkm & Hkn).
    { unfold k. destruct (Z.leb_spec (Z.of_nat m) (cn cr)); lia. }
    pose proof (Read_spec k (br cr) Hwf Hk) as HR. clearbody k.
    destruct (Bufio.Read k (br cr)) as [[r1 x] e1]. destruct HR as (Hwf1 & HE1 & Hfl & HR).
    destruct (decide (flat (br cr) = "")) as [Hempty|Hne].
    + destruct HR as (-> & -> & ->). cbn [String.length]. rewrite decide_False by (cbn; naive_solver).
      match goal with |- context [read_loop fuel ?m' ?d' ?c] => specialize (IH m' d' c); set (cr1 := c) in * end.
      specialize (IH Hwf ltac:(cbn; lia) ltac:(lia) ltac:(done)).
      rewrite str_app_nil_r in *. destruct (read_loop fuel _ _ cr1) as [cr' data'].
      apply (read_ok_step cr data "" cr1); rewrite ?str_app_nil_r; [done|done|done| |apply IH; lia].
      intros e [= <-]. rewrite Hempty, decode_stream_nil by done. by exists "".
    + destruct HR as (Hx & -> & Hxl). rewrite Hfl, length_str_app in Hlen. apply length_pos in Hx as Hxp.
      pose proof (decode_take (end_err (br cr)) (cn cr) x (flat r1) Hx ltac:(lia)) as Hdt. rewrite <- Hfl in Hdt.
      set (cr1 := {| br := r1; cn := cn cr - len x; cerr := None |}).
      assert (data +:+ x ≠ "") as Hdx.
      { intros E. apply (f_equal String.length) in E. rewrite length_str_app in E. cbn in E. lia. }
      destruct (decide (cn cr1 = 0%Z ∧ cerr cr1 = None)) as [[Hz _]|Hz].
      * destruct (endChunk_spec cr1 Hwf1) as (Hwf2 & HE2 & Hn2 & H2). cbn [br cn cerr cr1] in *.
        rewrite decide_True in Hdt by lia. rewrite HE1 in H2, HE2.
        specialize (IH (m - String.length x) (data +:+ x) (endChunk cr1) Hwf2 ltac:(lia) ltac:(lia)).
        assert (cerr (endChunk cr1) = None → String.length (flat (br (endChunk cr1))) < String.length (flat r1)) as Hl2.
        { intros Hn'. destruct (crlf_spec _ (flat r1)) as [s|e|] eqn:Es; [|by rewrite (proj1 H2) in Hn'|done].
          destruct H2 as [_ ->]. apply crlf_spec_shorter in Es. lia. }
        destruct (read_loop fuel _ _ (endChunk cr1)) as [cr' data'].
        apply (read_ok_step cr data x (endChunk cr1)); [done|done|..|apply IH; [intros H; specialize (Hl2 H); lia|done]].
        -- intros Hn'. split; [specialize (Hl2 Hn'); rewrite Hfl, length_str_app; lia|].
           destruct (crlf_spec _ (flat r1)) as [s|e|]; [|by rewrite (proj1 H2) in Hn'|done].
           destruct H2 as [_ <-]. rewrite Hdt. do 2 f_equal. lia.
        -- intros e He. destruct (crlf_spec _ (flat r1)) as [s|e'|]; [by rewrite (proj1 H2) in He| |done].
           destruct H2 as [He' Hfl']. rewrite He' in He. injection He as <-. rewrite Hdt. by exists "".
      * rewrite decide_False in Hdt by (intros Hl; apply Hz; cbn; split; [lia|done]).
        specialize (IH (m - String.length x) (data +:+ x) cr1 Hwf1 ltac:(cbn; lia) ltac:(lia)).
        destruct (read_loop fuel _ _ cr1) as [cr' data'].
        apply (read_ok_step cr data x cr1); [done|done| |done|apply IH; [cbn; lia|done]].
        intros _. cbn. rewrite Hfl at 1. rewrite length_str_app. split; [lia|done].
Qed.

Lemma read_all_spec fuel m cr :
  wf (br cr) → (0 ≤ cn cr)%Z → 0 < m → cerr cr = None → String.length (flat (br cr)) < fuel →
  let '(cr', x) := read_all fuel m cr in
  wf (br cr') ∧ end_err (br cr') = end_err (br cr) ∧
  ∃ e rest, cerr cr' = Some e ∧ decode_stream (end_err (br cr)) (cn cr) (flat (br cr)) = (x, e, rest) ∧
    (e = EOF → flat (br cr') = rest).
Proof.
  revert cr. induction fuel as [|fuel IH]; intros cr Hwf Hn Hm Hc Hf; [lia|]. cbn [read_all].
  unfold Read. pose proof (read_loop_spec (Read_fuel cr) m "" cr Hwf Hn) as H.
  specialize (H ltac:(unfold Read_fuel; lia) ltac:(unfold Read_fuel; lia) ltac:(lia)).
  destruct (read_loop _ m "" cr) as [cr1 x]. destruct H as (Hwf1 & HE1 & Hn1 & H). rewrite Hc in H.
  destruct H as (x' & -> & H). rewrite str_app_nil. rewrite str_app_nil in H.
  destruct (cerr cr1) as [e|] eqn:E1.
  - destruct H as (rest & Hd & Hr). split; [done|]. split; [done|]. by exists e, rest.
  - destruct H as (Hne & Hlen & Hd). apply length_pos in Hne.
    specialize (IH cr1 Hwf1 Hn1 Hm E1 ltac:(lia)). destruct (read_all fuel m cr1) as [cr2 y].
    destruct IH as (Hwf2 & HE2 & e & rest & He & Hd2 & Hr). rewrite HE1 in *.
    split; [done|]. split; [done|]. exists e, rest. split; [done|]. split; [|done].
    rewrite Hd, Hd2. done.
Qed.

(** Reading a chunked body to the end, in reads of any size over segments of
    any size, gives exactly what the stream decodes to: neither the
    segmentation nor the buffering shows, and the reads come to an end. *)
Theorem chunked_read_all m r :
  wf r → 0 < m →
  ∃ cr' x e rest, ReadAll m (newChunkedReader r) = (cr', x) ∧ cerr cr' = Some e ∧
    decode_stream (end_err r) 0 (flat r) = (x, e, rest) ∧ (e = EOF → flat (br cr') = rest).
Proof.
  intros Hwf Hm. unfold ReadAll.
  pose proof (read_all_spec (S (String.length (flat r))) m (newChunkedReader r) Hwf ltac:(done) Hm eq_refl) as H.
  cbn [newChunkedReader br] in *. specialize (H ltac:(lia)).
  destruct (read_all _ m _) as [cr' x]. destruct H as (_ & _ & e & rest & He & Hd & Hr). by exists cr', x, e, rest.
Qed.

(** *** What the writer writes is read back *)

Lemma lor_shiftl_4 n d : (0 ≤ d < 16 → Z.lor (Z.shiftl n 4) d = 16 * n + d)%Z.
Proof.
  intros Hd. rewrite <- Z.add_nocarry_lor.
  - rewrite Z.shiftl_mul_pow2 by lia. lia.
  - replace d with (Z.land d (Z.ones 4)) by (rewrite Z.land_ones by lia; apply Z.mod_small; lia).
    rewrite Z.land_comm, <- Z.land_assoc, (Z.land_comm (Z.ones 4)), Z.land_ones by lia.
    rewrite Z.shiftl_mul_pow2, Z.mod_mul by lia. apply Z.land_0_r.
Qed.

Lemma hex_digit_val d : (0 ≤ d < 16 → hex_val (hex_digit d) = Some d ∧ isASCIISpace (hex_digit d) = false ∧ hex_digit d ≠ chr 10)%Z.
Proof.
  intros Hd.
  assert (forallb (λ n, bool_decide (hex_val (hex_digit (Z.of_nat n)) = Some (Z.of_nat n) ∧
    isASCIISpace (hex_digit (Z.of_nat n)) = false ∧ hex_digit (Z.of_nat n) ≠ chr 10)) (seq 0 16) = true) as H
    by (vm_compute; reflexivity).
  rewrite forallb_forall in H. specialize (H (Z.to_nat d)). rewrite Z2Nat.id in H by lia.
  apply bool_decide_eq_true_1 in H; [done|]. apply in_seq. lia.
Qed.

Lemma parse_format_hex fuel z acc :
  (0 ≤ z < 16 ^ Z.of_nat fuel → z < 2 ^ 64 → parse_hex 0 (format_hex fuel z acc) = parse_hex z acc)%Z.
Proof.
  revert z acc. induction fuel as [|fuel IH]; intros z acc Hz Hw.
  { rewrite Z.pow_0_r in Hz. assert (z = 0%Z) as -> by lia. done. }
  rewrite Nat2Z.inj_succ, Z.pow_succ_r in Hz by lia.
  pose proof (Z.mod_pos_bound z 16 ltac:(lia)) as Hm. pose proof (Z.div_mod z 16 ltac:(lia)).
  assert (0 ≤ z / 16)%Z by (apply Z.div_pos; lia).
  assert (z / 16 < 2 ^ 60)%Z by (apply Z.div_lt_upper_bound; lia).
  assert (parse_hex (z / 16) (String (hex_digit (z `mod` 16)) acc) = parse_hex z acc) as Hstep.
  { cbn [parse_hex]. destruct (hex_digit_val _ Hm) as (-> & _ & _). cbn [mbind option_bind].
    rewrite uN_small by (rewrite Z.shiftl_mul_pow2 by lia; lia). rewrite lor_shiftl_4 by done. f_equal. lia. }
  cbn [format_hex]. destruct (Z.ltb_spec z 16) as [Hs|Hs].
  - rewrite <- Hstep. by rewrite (Z.div_small z 16) by lia.
  - rewrite IH; [done| |lia]. split; [done|]. apply Z.div_lt_upper_bound; lia.
Qed.

Lemma format_hex_chars fuel z acc :
  (0 ≤ z)%Z → fuel ≠ 0 → ∃ h, format_hex fuel z acc = h +:+ acc ∧ h ≠ "" ∧ String.length h ≤ fuel ∧
    in_string (chr 10) h = false ∧ all_chars (λ a, negb (isASCIISpace a)) h = true.
Proof.
  revert z acc. induction fuel as [|fuel IH]; intros z acc Hz Hf; [done|]. cbn [format_hex].
  pose proof (Z.mod_pos_bound z 16 ltac:(lia)) as Hm. destruct (hex_digit_val _ Hm) as (_ & Hs & Hnl).
  set (a := hex_digit (z `mod` 16)) in *.
  assert (∃ h, String a acc = h +:+ acc ∧ h ≠ "" ∧ String.length h ≤ 1 ∧ in_string (chr 10) h = false ∧
    all_chars (λ a, negb (isASCIISpace a)) h = true) as (h & Eh & Hne & Hl & Hi & Ha).
  { exists (String a ""). rewrite str_app_cons, str_app_nil. split_and!; try done.
    - cbn. by rewrite bool_decide_eq_false_2.
    - cbn. by rewrite Hs. }
  destruct (z <? 16)%Z; [exists h; split_and!; try done; lia|].
  destruct fuel as [|fuel]; [exists h; cbn; split_and!; try done; lia|].
  destruct (IH (z / 16)%Z (String a acc) ltac:(apply Z.div_pos; lia) ltac:(done)) as (k & -> & Hk & Hkl & Hki & Hka).
  exists (k +:+ h). rewrite Eh, str_app_assoc. split_and!; [done| |rewrite length_str_app; lia|..].
  - destruct k; [done|]. by rewrite str_app_cons.
  - by rewrite in_string_app, Hki, Hi.
  - by rewrite every_char_app, Hka, Ha.
Qed.

Lemma trim_spaces h : all_chars isASCIISpace h = true → trimTrailingWhitespace h = "".
Proof. induction h as [|a h IH]; cbn; [done|]. intros [Ha Hh]%andb_true_iff. rewrite IH by done. by rewrite decide_True. Qed.

Lemma trim_app h sp :
  h ≠ "" → all_chars (λ a, negb (isASCIISpace a)) h = true → all_chars isASCIISpace sp = true →
  trimTrailingWhitespace (h +:+ sp) = h.
Proof.
  intros Hne Hh Hsp. induction h as [|a h IH]; [done|]. rewrite str_app_cons. cbn in Hh |- *.
  apply andb_true_iff in Hh as [Ha Hh]. apply negb_true_iff in Ha.
  rewrite decide_False by (rewrite Ha; naive_solver). f_equal.
  destruct h as [|b h]; [rewrite str_app_nil; by apply trim_spaces|by apply IH].
Qed.

(** A line of hexadecimal digits as the writer ends it. *)
Lemma hex_line h rest E :
  h ≠ "" → String.length h ≤ 16 → in_string (chr 10) h = false → all_chars (λ a, negb (isASCIISpace a)) h = true →
  line_spec E (h +:+ CRLF +:+ rest) = Ok (h, rest).
Proof.
  intros Hne Hl Hi Ha. unfold line_spec, CRLF. rewrite !str_app_cons, str_app_nil.
  replace (h +:+ String (chr 13) (String (chr 10) rest)) with ((h +:+ String (chr 13) "") +:+ String (chr 10) rest)
    by (by rewrite <- str_app_assoc, str_app_cons, str_app_nil).
  rewrite cut_at_app by (by rewrite in_string_app, Hi).
  rewrite bool_decide_eq_false_2 by (rewrite length_str_app; unfold maxLineLength; cbn; lia).
  rewrite <- str_app_assoc. by rewrite trim_app.
Qed.

(** One chunk and what follows it. *)
Lemma decode_chunk E w rest :
  w ≠ "" → (len w < 2 ^ 64)%Z →
  decode_stream E 0 (chunkedWriter_Write w +:+ rest) = prepend w (decode_stream E 0 rest).
Proof.
  intros Hw Hl. unfold chunkedWriter_Write. rewrite decide_False by done.
  destruct (format_hex_chars 16 (len w) "" ltac:(lia) ltac:(done)) as (h & Eh & Hne & Hhl & Hi & Ha).
  rewrite str_app_nil_r in Eh. rewrite Eh, <- !str_app_assoc.
  rewrite decode_stream_begin, hex_line by done.
  assert (parseHexUint h = Some (len w)) as ->.
  { unfold parseHexUint. rewrite <- Eh. rewrite parse_format_hex; [done| |done]. change (16 ^ Z.of_nat 16)%Z with (2 ^ 64)%Z. lia. }
  pose proof (length_pos w Hw). rewrite decide_False by lia.
  rewrite decode_take by (done || lia). rewrite decide_True by done.
  unfold CRLF. by rewrite !str_app_cons, str_app_nil.
Qed.

Lemma decode_chunks E ws rest :
  Forall (λ w, len w < 2 ^ 64)%Z ws →
  decode_stream E 0 (foldr (λ w, String.append (chunkedWriter_Write w)) rest ws)
  = prepend (foldr String.append "" ws) (decode_stream E 0 rest).
Proof.
  induction 1 as [|w ws Hw _ IH]; cbn [foldr]; [by rewrite prepend_nil|].
  destruct (decide (w = "")) as [->|Hne].
  - unfold chunkedWriter_Write at 1. rewrite decide_True by done. by rewrite !str_app_nil.
  - by rewrite decode_chunk, IH, prepend_prepend.
Qed.

Lemma decode_close E rest : decode_stream E 0 (chunkedWriter_Close +:+ rest) = ("", EOF, rest).
Proof.
  unfold chunkedWriter_Close. rewrite <- str_app_assoc, decode_stream_begin, hex_line by (done || cbn; lia). done.
Qed.

(** Writing and closing, then reading: the data written comes out, whatever
    the writes were and however the connection cuts and the reader asks for
    the bytes, with the end of the body, and what follows is left unread. *)
Theorem chunked_roundtrip ws rest m r :
  Forall (λ w, len w < 2 ^ 64)%Z ws → wf r → 0 < m →
  flat r = foldr (λ w, String.append (chunkedWriter_Write w)) (chunkedWriter_Close +:+ rest) ws →
  ∃ cr', ReadAll m (newChunkedReader r) = (cr', foldr String.append "" ws) ∧ cerr cr' = Some EOF ∧
    flat (br cr') = rest.
Proof.
  intros Hws Hwf Hm Hf. destruct (chunked_read_all m r Hwf Hm) as (cr' & x & e & rest' & HR & He & Hd & Hr).
  rewrite Hf, decode_chunks, decode_close in Hd by done. cbn in Hd. rewrite str_app_nil_r in Hd.
  injection Hd as <- <- <-. exists cr'. split; [done|]. split; [done|]. by apply Hr.
Qed.
End ChunkedProps.

(** ** Bodies (transfer.go, from [body] on) *)
Module Body.
Import Bufio Chunked.
Local Open Scope Z_scope.

(** Where a body comes from: a chunked reader, with the message whose trailer
    follows; [io.LimitReader] with the bytes that are left; the connection. *)
Inductive bsrc := SrcChunked (cr : chunkedReader) | SrcLimited (r : reader) (N : Z) | SrcRaw (r : reader).

Record body := {
  source : bsrc;
  hdr : bool;                     (** [hdr != nil]: a trailer is to be read *)
  closing : bool;
  closed : bool;
  trailer : list (string * list string);  (** merged into the message *)
}.

Definition doubleCRLF : string := CRLF +:+ CRLF.

Fixpoint contains_double (s : string) : bool :=
  String.prefix doubleCRLF s || match s with EmptyString => false | String _ s => contains_double s end.

(** Peeks at ever more bytes, until the buffer is full or there are no more. *)
Fixpoint seeUpcomingDoubleCRLF (fuel : nat) (r : reader) : reader * bool :=
  if contains_double (buf r) then (r, true)
  else if bool_decide (bufsize ≤ String.length (buf r))%nat then (r, false)
  else match fuel, fill r with
       | S fuel, Some r => seeUpcomingDoubleCRLF fuel r
       | _, _ => (r, false)
       end.

Section body.
(** [textproto.Reader.ReadMIMEHeader] *)
Context (ReadMIMEHeader : reader → reader * outcome ioerr (list (string * list string))).

Definition readTrailer (r : reader) : reader * outcome ioerr (list (string * list string)) :=
  match Peek2 r with
  | (r, b) =>
      if decide (b = CRLF) then (with_buf (str_split 2 (buf r)).2 (src r) r, Ok [])
      else if bool_decide (String.length b < 2)%nat then (r, Err ErrTrailerEOF)
      else
        let '(r, ok) := seeUpcomingDoubleCRLF bufsize r in
        if ok : bool then
          match ReadMIMEHeader r with
          | (r, Err e) => (r, Err (if decide (e = EOF) then ErrTrailerEOF else e))
          | res => res
          end
        else (r, Err ErrLongTrailer)
  end.

(** [src.Read(p)] of [n] bytes. *)
Definition src_Read (n : nat) (s : bsrc) : bsrc * string * option ioerr :=
  match s with
  | SrcChunked cr => let '(cr, x) := Chunked.Read n cr in (SrcChunked cr, x, cerr cr)
  | SrcLimited r N =>
      if N <=? 0 then (s, "", Some EOF)
      else
        let k := if Z.of_nat n <=? N then n else Z.to_nat N in
        let '(r, x, e) := Bufio.Read k r in (SrcLimited r (N - len x), x, e)
  | SrcRaw r => let '(r, x, e) := Bufio.Read n r in (SrcRaw r, x, e)
  end.

Definition reader_of (s : bsrc) : reader :=
  match s with SrcChunked cr => br cr | SrcLimited r _ | SrcRaw r => r end.
Definition set_reader (r : reader) (s : bsrc) : bsrc :=
  match s with
  | SrcChunked cr => SrcChunked {| br := r; cn := cn cr; cerr := cerr cr |}
  | SrcLimited _ N => SrcLimited r N
  | SrcRaw _ => SrcRaw r
  end.

Definition readLocked (n : nat) (b : body) : body * string * option ioerr :=
  let '(s, x, err) := src_Read n (source b) in
  let b := {| source := s; hdr := hdr b; closing := closing b; closed := closed b; trailer := trailer b |} in
  let '(b, err) :=
    if decide (err = Some EOF) then
      if hdr b then
        let '(r, t) := readTrailer (reader_of s) in
        ({| source := set_reader r s; hdr := false; closing := closing b; closed := closed b;
            trailer := match t with Ok t => t | _ => trailer b end |},
         match t with Err e => Some e | _ => err end)
      else
        (b, match s with SrcLimited _ N => if 0 <? N then Some ErrUnexpectedEOF else err | _ => err end)
    else (b, err) in
  let err :=
    if decide (err = None ∧ x ≠ "") then
      match s with SrcLimited _ N => if N =? 0 then Some EOF else None | _ => None end
    else err in
  (b, x, err).

Definition body_Read (n : nat) (b : body) : body * string * option ioerr :=
  if closed b then (b, "", Some ErrBodyReadAfterClose) else readLocked n b.

(** [io.Copy] of what is left, in reads of [n] bytes. *)
Fixpoint copy_all (fuel n : nat) (b : body) : body * string * option ioerr :=
  match fuel with
  | O => (b, "", None)
  | S fuel =>
      match body_Read n b with
      | (b, x, Some e) => (b, x, Some e)
      | (b, x, None) => let '(b, y, e) := copy_all fuel n b in (b, x +:+ y, e)
      end
  end.

Definition copy_fuel (b : body) : nat := S (String.length (flat (reader_of (source b)))).

(** [Close]: the body is read to its end, unless the connection is closed
    anyway and there is no trailer. *)
Definition Close (b : body) : body * option ioerr :=
  if closed b then (b, None)
  else
    let '(b, err) :=
      if negb (hdr b) && closing b then (b, None)
      else
        let '(b, _, e) := copy_all (copy_fuel b) (Z.to_nat 32768) b in
        (b, if decide (e = Some EOF) then None else e) in
    ({| source := source b; hdr := hdr b; closing := closing b; closed := true; trailer := trailer b |}, err).
End body.
End Body.

Module BodyProps.
Import Bufio Chunked ChunkedProps Body.

(** A cut in the chunked encoding shows: the decoder meets an error, or the
    end with fewer than the two bytes that end a body. *)
Definition cut_short (d : string * ioerr * string) : Prop :=
  let '(_, e, rest) := d in e ≠ EOF ∨ String.length rest < 2.

Lemma cut_short_prepend x d : cut_short d → cut_short (prepend x d).
Proof. by destruct d as [[??]?]. Qed.

Lemma app_split (p q a b : string) :
  p +:+ q = a +:+ b → (∃ c, p = a +:+ c ∧ b = c +:+ q) ∨ (∃ c, a = p +:+ c ∧ c ≠ "" ∧ q = c +:+ b).
Proof.
  revert p. induction a as [|x a IH]; intros p; rewrite ?str_app_nil, ?str_app_cons; [intros <-; left; by exists p|].
  destruct p as [|y p]; rewrite ?str_app_nil, ?str_app_cons.
  - intros ->. right. exists (String x a). rewrite str_app_cons. done.
  - intros [= -> E]. destruct (IH p E) as [(c & -> & ->)|(c & -> & Hc & ->)].
    + left. exists c. by rewrite str_app_cons.
    + right. exists c. by rewrite str_app_cons.
Qed.

Lemma no_newline_cut E s :
  in_string (chr 10) s = false → String.length s < bufsize → cut_short (decode_stream E 0 s).
Proof.
  intros Hn Hl. rewrite decode_stream_begin. unfold line_spec.
  rewrite (proj2 (cut_at_None (chr 10) s) Hn), bool_decide_eq_false_2 by lia. left. case_decide; [done|].
  done.
Qed.

(** A cut inside of the line of a chunk. *)
Lemma cut_line E h p c rest :
  String.length h ≤ 16 → in_string (chr 10) h = false → h +:+ CRLF +:+ rest = p +:+ c → 
  String.length p < String.length h + 2 → cut_short (decode_stream E 0 p).
Proof.
  intros Hl Hi Ep Hp. apply no_newline_cut; [|unfold bufsize; lia].
  assert (∃ t, h +:+ String (chr 13) "" = p +:+ t) as [t Et].
  { unfold CRLF in Ep. rewrite !str_app_cons, str_app_nil in Ep.
    replace (h +:+ String (chr 13) (String (chr 10) rest)) with ((h +:+ String (chr 13) "") +:+ String (chr 10) rest) in Ep
      by (by rewrite <- str_app_assoc, str_app_cons, str_app_nil).
    symmetry in Ep. destruct (app_split _ _ _ _ Ep) as [(t & -> & E2)|(t & Et & _ & _)]; [|by exists t].
    rewrite !length_str_app in Hp. cbn in Hp. destruct t; [|cbn in Hp; lia]. exists "". by rewrite !str_app_nil_r. }
  assert (in_string (chr 10) (p +:+ t) = false) as H by (by rewrite <- Et, in_string_app, Hi).
  rewrite in_string_app in H. by apply orb_false_iff in H as [-> _].
Qed.

Lemma cut_data E w p c rest :
  w ≠ "" → w +:+ CRLF +:+ rest = p +:+ c → String.length p < String.length w + 2 →
  cut_short (decode_stream E (len w) p).
Proof.
  intros Hw Ep Hp. symmetry in Ep.
  pose proof (length_pos w Hw). destruct (decide (p = "")) as [->|Hpne].
  { rewrite decode_stream_nil by lia. right. cbn. lia. }
  destruct (app_split _ _ _ _ Ep) as [(t & -> & E2)|(t & -> & Ht & _)].
  - rewrite decode_take by (done || lia). rewrite decide_True by done.
    rewrite length_str_app in Hp. destruct t as [|a [|b t]]; [| |cbn in Hp; lia]; cbn [crlf_spec].
    + right. cbn. lia.
    + left. by case_decide.
  - rewrite length_str_app. apply length_pos in Ht. set (n := Z.of_nat (String.length p + String.length t)).
    assert (decode_stream E n p = decode_stream E n (p +:+ "")) as -> by (by rewrite str_app_nil_r).
    subst n. rewrite decode_take by (done || lia). rewrite decide_False by lia.
    rewrite decode_stream_nil by lia. right. cbn. lia.
Qed.

(** Every proper prefix of an encoded body is cut short. *)
Lemma decode_cut E ws p q :
  Forall (λ w, len w < 2 ^ 64)%Z ws → q ≠ "" →
  foldr (λ w, String.append (chunkedWriter_Write w)) (chunkedWriter_Close +:+ CRLF) ws = p +:+ q →
  cut_short (decode_stream E 0 p).
Proof.
  intros Hws Hq. revert p. induction Hws as [|w ws Hw _ IH]; intros p Ep; cbn [foldr] in Ep.
  - symmetry in Ep. destruct (app_split _ _ _ _ Ep) as [(t & -> & E2)|(t & Et & Ht & _)].
    + rewrite decode_close. right. apply (f_equal String.length) in E2. rewrite length_str_app in E2.
      apply length_pos in Hq. cbn in E2. lia.
    + unfold chunkedWriter_Close in Et. apply (cut_line E "0" p t ""); [cbn; lia|done| |].
      * by rewrite str_app_nil_r.
      * apply (f_equal String.length) in Et. rewrite !length_str_app in Et. apply length_pos in Ht. cbn in *. lia.
  - destruct (decide (w = "")) as [->|Hne].
    { unfold chunkedWriter_Write in Ep at 1. rewrite decide_True, str_app_nil in Ep by done. by apply IH. }
    symmetry in Ep. destruct (app_split _ _ _ _ Ep) as [(t & -> & E2)|(t & Et & Ht & _)].
    { rewrite decode_chunk by done. apply cut_short_prepend. by apply IH. }
    unfold chunkedWriter_Write in Et. rewrite decide_False in Et by done.
    destruct (format_hex_chars 16 (len w) "" ltac:(lia) ltac:(done)) as (h & Eh & Hhne & Hhl & Hi & Ha).
    rewrite str_app_nil_r in Eh. rewrite Eh in Et.
    destruct (decide (String.length p < String.length h + 2)) as [Hlt|Hge].
    { by apply (cut_line E h p t (w +:+ CRLF)). }
    rewrite (str_app_assoc h CRLF) in Et. symmetry in Et.
    destruct (app_split _ _ _ _ Et) as [(u & -> & E3)|(u & E3 & Hu & _)]; last first.
    { apply (f_equal String.length) in E3. rewrite !length_str_app in E3. apply length_pos in Hu. cbn in *. lia. }
    rewrite <- str_app_assoc, decode_stream_begin, hex_line by done.
    assert (parseHexUint h = Some (len w)) as ->.
    { unfold parseHexUint. rewrite <- Eh. rewrite parse_format_hex; [done| |done]. change (16 ^ Z.of_nat 16)%Z with (2 ^ 64)%Z. lia. }
    pose proof (length_pos w Hne). rewrite decide_False by lia.
    apply (cut_data E w u t ""); [done|by rewrite str_app_nil_r|].
    apply (f_equal String.length) in E3. rewrite !length_str_app in E3. apply length_pos in Ht. cbn in E3. lia.
Qed.

Lemma Peek2_spec r :
  wf r →
  let '(r', b) := Peek2 r in
  wf r' ∧ end_err r' = end_err r ∧ flat r' = flat r ∧ b = (str_split 2 (flat r)).1 ∧
  (2 ≤ String.length b → ∃ y, buf r' = b +:+ y).
Proof.
  intros Hwf. unfold Peek2. set (more := λ r, if bool_decide (2 ≤ String.length (buf r)) then r else default r (fill r)).
  assert (∀ r k, wf r → k < 2 → k ≤ String.length (buf r) →
    wf (more r) ∧ end_err (more r) = end_err r ∧ flat (more r) = flat r ∧
    (S k ≤ String.length (buf (more r)) ∨ flat r = buf (more r))) as Hmore.
  { intros r0 k Hw Hk Hl. unfold more. case_bool_decide as H2; [split_and!; [done..|left; lia]|].
    pose proof (fill_reads r0 Hw ltac:(unfold bufsize; lia)) as Hf. destruct (fill r0) as [r1|]; cbn.
    - destruct Hf as (Hw1 & Hfl & He & x & Hx & Hb). split_and!; [done..|left].
      rewrite Hb, length_str_app. apply length_pos in Hx. lia.
    - split_and!; [done..|by right]. }
  destruct (Hmore r 0 Hwf ltac:(lia) ltac:(lia)) as (Hw1 & He1 & Hf1 & H1).
  assert (wf (more (more r)) ∧ end_err (more (more r)) = end_err r ∧ flat (more (more r)) = flat r ∧
    (2 ≤ String.length (buf (more (more r))) ∨ flat r = buf (more (more r)))) as (Hw2 & He2 & Hf2 & H2).
  { destruct H1 as [H1|H1].
    - destruct (Hmore (more r) 1 Hw1 ltac:(lia) H1) as (Hw2 & He2 & Hf2 & H2). rewrite He2, Hf2, <- Hf1. done.
    - destruct (Hmore (more r) 0 Hw1 ltac:(lia) ltac:(lia)) as (Hw2 & He2 & Hf2 & H2).
      rewrite He2, Hf2. split_and!; [done..|]. right. rewrite H1. unfold more at 2. case_bool_decide; [done|].
      pose proof (fill_reads (more r) Hw1 ltac:(unfold bufsize; lia)) as Hf. destruct (fill (more r)) as [r1|] eqn:E; [|done].
      destruct Hf as (_ & Hfl & _ & x & Hx & Hb). exfalso. rewrite <- Hf1, <- Hfl in H1.
      unfold flat in H1. rewrite Hb in H1. apply (f_equal String.length) in H1. rewrite !length_str_app in H1.
      apply length_pos in Hx. lia. }
  split; [done|]. split; [done|]. split; [done|].
  assert ((str_split 2 (buf (more (more r)))).1 = (str_split 2 (flat r)).1) as Hb.
  { destruct H2 as [H2|H2]; [|by rewrite H2]. rewrite <- Hf2. unfold flat.
    destruct (buf (more (more r))) as [|a [|b s]]; cbn in H2; try lia. by rewrite !str_app_cons. }
  split; [done|]. intros _. exists (str_split 2 (buf (more (more r)))).2.
  apply (proj1 (str_split_spec 2 _)).
Qed.

Section reading.
Context (ReadMIMEHeader : reader → reader * outcome ioerr (list (string * list string))).

Lemma readTrailer_end r rest :
  wf r → flat r = CRLF +:+ rest → ∃ r', readTrailer ReadMIMEHeader r = (r', Ok []) ∧ flat r' = rest.
Proof.
  intros Hwf Hf. unfold readTrailer. pose proof (Peek2_spec r Hwf) as H.
  destruct (Peek2 r) as [r' b]. destruct H as (Hwf' & He & Hf' & Hb & Hy).
  rewrite Hf in Hb. unfold CRLF in Hb. rewrite !str_app_cons, str_app_nil in Hb. cbn in Hb.
  rewrite decide_True by done. eexists. split; [done|].
  destruct (Hy ltac:(by rewrite Hb)) as [y Ey]. rewrite Hf in Hf'. unfold flat in *. rewrite Ey in Hf' |- *. cbn [buf src].
  subst b. rewrite !str_app_cons, str_app_nil in *. cbn. unfold CRLF in Hf'. rewrite !str_app_cons, str_app_nil in Hf'.
  by injection Hf'.
Qed.

Lemma readTrailer_cut r :
  wf r → String.length (flat r) < 2 → ∃ r', readTrailer ReadMIMEHeader r = (r', Err ErrTrailerEOF).
Proof.
  intros Hwf Hl. unfold readTrailer. pose proof (Peek2_spec r Hwf) as H.
  destruct (Peek2 r) as [r' b]. destruct H as (Hwf' & He & Hf' & Hb & Hy).
  pose proof (proj2 (str_split_spec 2 (flat r))) as Hlb. rewrite <- Hb in Hlb.
  rewrite decide_False; [|intros ->; change (String.length CRLF) with 2 in Hlb; lia].
  rewrite bool_decide_eq_true_2 by lia. by eexists.
Qed.

Definition chunked_body (cr : chunkedReader) (closing : bool) : body :=
  {| source := SrcChunked cr; hdr := true; closing := closing; closed := false; trailer := [] |}.

(** Reading a chunked body is reading its chunks, and then the trailer. *)
Lemma copy_chunked fuel n cr closing cr' x e :
  cerr cr = None → read_all fuel n cr = (cr', x) → cerr cr' = Some e →
  copy_all ReadMIMEHeader fuel n (chunked_body cr closing) =
    (if decide (e = EOF) then
       let '(r, t) := readTrailer ReadMIMEHeader (br cr') in
       ({| source := set_reader r (SrcChunked cr'); hdr := false; closing := closing; closed := false;
           trailer := match t with Ok t => t | _ => [] end |}, x, match t with Err e => Some e | _ => Some EOF end)
     else ({| source := SrcChunked cr'; hdr := true; closing := closing; closed := false; trailer := [] |}, x, Some e)).
Proof.
  revert cr cr' x. induction fuel as [|fuel IH]; intros cr cr' x Hc Hr He; cbn [read_all] in Hr.
  { injection Hr as <- <-. by rewrite Hc in He. }
  cbn [copy_all]. unfold body_Read, readLocked. cbn [closed chunked_body source src_Read hdr Body.closing trailer].
  destruct (Chunked.Read n cr) as [cr1 y]. cbn [reader_of].
  destruct (cerr cr1) as [e1|] eqn:E1; cbv beta iota in Hr.
  - injection Hr as <- <-. rewrite E1 in He. injection He as ->.
    destruct (decide (e = EOF)) as [->|Hne].
    + rewrite decide_True by done. destruct (readTrailer _ (br cr1)) as [r t].
      rewrite decide_False by (destruct t; naive_solver). by destruct t.
    + rewrite decide_False by naive_solver. rewrite decide_False by naive_solver. done.
  - destruct (read_all fuel n cr1) as [cr2 z] eqn:Er. injection Hr as <- <-.
    rewrite (decide_False (P := None = Some EOF)) by done.
    specialize (IH cr1 cr2 z E1 Er He). unfold chunked_body in IH.
    destruct (decide (@None ioerr = None ∧ y ≠ "")) as [_|_]; rewrite IH;
      (destruct (decide (e = EOF)); [by destruct (readTrailer _ _)|done]).
Qed.

(** The body of a chunked message, read to its end. If the connection holds
    everything the writer put on it, the data comes out with the end of the
    body, and what follows the message is left for the next one; if it ends
    anywhere before, the reader gets an error, never the end of the body. *)
Theorem chunked_body_complete ws n r closing :
  Forall (λ w, len w < 2 ^ 64)%Z ws → wf r → 0 < n →
  let b := chunked_body (newChunkedReader r) closing in
  let wire := foldr (λ w, String.append (chunkedWriter_Write w)) (chunkedWriter_Close +:+ CRLF) ws in
  (∀ rest, flat r = wire +:+ rest → ∃ b', copy_all ReadMIMEHeader (copy_fuel b) n b
     = (b', foldr String.append "" ws, Some EOF) ∧ flat (reader_of (source b')) = rest) ∧
  (∀ q, q ≠ "" → wire = flat r +:+ q → ∃ b' x e, copy_all ReadMIMEHeader (copy_fuel b) n b = (b', x, Some e) ∧ e ≠ EOF).
Proof.
  intros Hws Hwf Hn b wire.
  destruct (chunked_read_all n r Hwf Hn) as (cr' & x & e & rest' & HR & He & Hd & Hr).
  pose proof (read_all_spec (copy_fuel b) n (newChunkedReader r) Hwf ltac:(done) Hn eq_refl
    ltac:(unfold copy_fuel; cbn; lia)) as Hspec.
  unfold ReadAll in HR. change (S (String.length (flat (br (newChunkedReader r))))) with (copy_fuel b) in HR.
  change (S (String.length (flat r))) with (copy_fuel b) in HR.
  rewrite HR in Hspec. destruct Hspec as (Hwf' & HE' & _).
  pose proof (copy_chunked (copy_fuel b) n (newChunkedReader r) closing cr' x e eq_refl HR He) as Hcopy.
  split.
  - intros rest Hf. subst wire.
    assert (foldr (λ w, String.append (chunkedWriter_Write w)) (chunkedWriter_Close +:+ CRLF) ws +:+ rest =
            foldr (λ w, String.append (chunkedWriter_Write w)) (chunkedWriter_Close +:+ CRLF +:+ rest) ws) as Hw.
    { clear. induction ws as [|w ws IH]; cbn; [by rewrite str_app_assoc|]. by rewrite <- IH, str_app_assoc. }
    rewrite Hf, Hw, decode_chunks, decode_close in Hd by done. cbn in Hd. rewrite str_app_nil_r in Hd.
    injection Hd as <- <- <-.
    destruct (readTrailer_end (br cr') rest Hwf' (Hr eq_refl)) as (r' & Ht & Hrest).
    rewrite Ht, decide_True in Hcopy by done. eexists. split; [exact Hcopy|]. done.
  - intros q Hq Hw. subst wire. pose proof (decode_cut (end_err r) ws (flat r) q Hws Hq Hw) as Hcut.
    rewrite Hd in Hcut. destruct (decide (e = EOF)) as [->|Hne].
    + destruct Hcut as [|Hl]; [done|]. rewrite <- (Hr eq_refl) in Hl.
      destruct (readTrailer_cut (br cr') Hwf' Hl) as (r' & Ht). rewrite Ht in Hcopy.
      eexists _, _, _. split; [exact Hcopy|]. done.
    + eexists _, _, _. split; [exact Hcopy|]. done.
Qed.

(** A body of a declared length: exactly that many bytes and the end of the
    body, leaving the rest; a connection that ends before gives what there
    was and an error that is not the end of the body. *)
Theorem limited_body_complete fuel n r N closing :
  wf r → 0 < n → (0 < N)%Z → String.length (flat r) < fuel →
  let b := {| source := SrcLimited r N; hdr := false; closing := closing; closed := false; trailer := [] |} in
  ∃ b' x e, copy_all ReadMIMEHeader fuel n b = (b', x, Some e) ∧
    if decide (N ≤ len (flat r))%Z
    then e = EOF ∧ len x = N ∧ flat r = x +:+ flat (reader_of (source b'))
    else e ≠ EOF ∧ x = flat r.
Proof.
  revert r N. induction fuel as [|fuel IH]; intros r N Hwf Hn HN Hfuel b; [lia|].
  cbn [copy_all]. unfold body_Read, readLocked. cbn [closed b source src_Read hdr Body.closing trailer].
  destruct (Z.leb_spec N 0) as [|_]; [lia|].
  set (k := if (Z.of_nat n <=? N)%Z then n else Z.to_nat N).
  assert (0 < k ∧ (Z.of_nat k ≤ N)%Z) as [Hk HkN] by (unfold k; destruct (Z.leb_spec (Z.of_nat n) N); lia).
  pose proof (Read_spec k r Hwf Hk) as H. clearbody k. destruct (Bufio.Read k r) as [[r1 x] e1].
  destruct H as (Hwf1 & HE1 & Hfl & H). destruct (decide (flat r = "")) as [Hempty|Hne].
  - destruct H as (-> & -> & ->). rewrite Hempty. cbn [String.length reader_of].
    replace (N - Z.of_nat 0)%Z with N by lia.
    destruct (decide (N ≤ _)%Z) as [Hd|_]; [exfalso; cbn in Hd; lia|].
    destruct (decide (Some (end_err r) = Some EOF)) as [He|He].
    + destruct (Z.ltb_spec 0 N); [|lia]. rewrite decide_False by naive_solver.
      eexists _, _, _. split; [done|]. done.
    + rewrite decide_False by naive_solver. eexists _, _, _. split; [done|]. split; [|done]. intros E. by rewrite E in He.
  - destruct H as (Hx & -> & Hl). apply length_pos in Hx as Hxp.
    rewrite (decide_False (P := None = Some EOF)) by done.
    rewrite (decide_True (P := None = None ∧ x ≠ "")) by done. cbn [reader_of].
    rewrite Hfl, length_str_app in Hfuel |- *.
    destruct (Z.eqb_spec (N - len x) 0) as [Hz|Hz].
    + destruct (decide (N ≤ _)%Z) as [_|Hd]; [|exfalso; lia]. eexists _, _, _. split; [done|]. split; [done|]. split; [lia|done].
    + destruct (IH r1 (N - len x)%Z Hwf1 Hn ltac:(lia) ltac:(lia)) as (b' & y & e & Hc & Hr).
      rewrite Hc. eexists b', _, e. split; [done|].
      destruct (decide (N - len x ≤ len (flat r1))%Z).
      * destruct (decide (N ≤ _)%Z) as [_|Hd]; [|exfalso; lia]. destruct Hr as (He & Hy & ->). split; [done|]. rewrite length_str_app.
        split; [lia|by rewrite str_app_assoc].
      * destruct (decide (N ≤ _)%Z) as [Hd|_]; [exfalso; lia|]. destruct Hr as (He & ->). done.
Qed.
End reading.
End BodyProps.
