(* ===== verification/HttpTransfer.v ===== *)
(** How the length of a message's body is decided in the patched HTTP client
    (the first part of http13client/transfer.go): what a writer announces and
    sends for a message, and what a reader makes of the announcement. *)

From S2P Require Import Prelude HttpText HttpBody.
Import Text.

Local Open Scope Z_scope.

Module Transfer.

(** [http.Header]: the values of a (canonical) key. *)
Notation header := (gmap string (list string)).

Definition Get (h : header) (k : string) : string := default "" (h !! k ≫= head).

Inductive terr :=
| ErrNilBody (n : Z)
| ErrBadTransferEncoding (e : string)
| ErrTooManyEncodings
| ErrBadContentLength (cl : string)
| ErrBadTrailerKey (k : string)
| ErrUnexpectedTrailer
| ErrBody (e : string)
| ErrLengthMismatch (announced sent : Z).

Definition chunked (te : list string) : bool := bool_decide (head te = Some "chunked").
Definition isIdentity (te : list string) : bool := bool_decide (te = ["identity"]).
Definition noBodyExpected (requestMethod : string) : bool := bool_decide (requestMethod = "HEAD").

(** ** Writing *)

(** A body to send: what its reads give, the error after them ([None] is the
    end), and the error of closing it. *)
Record obody := { reads : list string; b_end : option string; b_close : option string }.

Definition data (b : obody) : string := foldr String.append "" (reads b).

(** A message to send. *)
Record out_msg := {
  is_request : bool;
  o_Method : string;          (** of the request; of a response's request, if any *)
  o_Body : option obody;
  o_ContentLength : Z;
  o_Close : bool;
  o_TransferEncoding : list string;
  o_Trailer : option (list (string * list string));
  ProtoMajor : Z;
  ProtoMinor : Z;
}.

Definition ProtoAtLeast (m : out_msg) (major minor : Z) : bool :=
  (major <? ProtoMajor m) || ((ProtoMajor m =? major) && (minor <=? ProtoMinor m)).

Record transferWriter := {
  Method : string;
  Body : option obody;
  ResponseToHEAD : bool;
  ContentLength : Z;
  Close : bool;
  TransferEncoding : list string;
  Trailer : option (list (string * list string));
}.

(** The first byte of a body, by [io.ReadFull]. *)
Inductive probe := HasByte (b : obody) | ProbeErr (e : string) | IsEmpty.
Definition probe_body (b : obody) : probe :=
  match filter (λ s, s ≠ "") (reads b) with
  | String a s :: rs =>
      HasByte {| reads := String a "" :: (if decide (s = "") then rs else s :: rs); b_end := b_end b; b_close := b_close b |}
  | _ => match b_end b with Some e => ProbeErr e | None => IsEmpty end
  end.

(** The length of a request whose length was not set is found out. *)
Definition detect (m : out_msg) : option obody * Z * list string :=
  match o_Body m with
  | Some b =>
      if bool_decide (o_TransferEncoding m = []) && ProtoAtLeast m 1 1 then
        let '(body, cl) :=
          if decide (o_ContentLength m = 0) then
            match probe_body b with
            | ProbeErr e => (Some {| reads := []; b_end := Some e; b_close := b_close b |}, -1)
            | HasByte b => (Some b, -1)
            | IsEmpty => (None, 0)
            end
          else (Some b, o_ContentLength m) in
        (body, cl, if cl <? 0 then ["chunked"] else [])
      else (Some b, o_ContentLength m, o_TransferEncoding m)
  | None => (None, o_ContentLength m, o_TransferEncoding m)
  end.

Definition newTransferWriter (m : out_msg) : outcome terr transferWriter :=
  if is_request m && negb (o_ContentLength m =? 0) && bool_decide (o_Body m = None) then Err (ErrNilBody (o_ContentLength m))
  else
    let '(body, cl, te) :=
      if is_request m then detect m else (o_Body m, o_ContentLength m, o_TransferEncoding m) in
    let toHEAD := negb (is_request m) && noBodyExpected (o_Method m) in
    let '(body, cl, te) :=
      if toHEAD then (None, if chunked te then -1 else cl, te)
      else
        let te := if negb (ProtoAtLeast m 1 1) || bool_decide (body = None) then [] else te in
        (body, if chunked te then -1 else if bool_decide (body = None) then 0 else cl, te) in
    Ok {| Method := o_Method m; Body := body; ResponseToHEAD := toHEAD; ContentLength := cl; Close := o_Close m;
          TransferEncoding := te; Trailer := if chunked te then o_Trailer m else None |}.

Definition shouldSendContentLength (t : transferWriter) : bool :=
  if chunked (TransferEncoding t) then false
  else (0 <? ContentLength t) || bool_decide (Method t = "POST" ∨ Method t = "PUT")
       || ((ContentLength t =? 0) && isIdentity (TransferEncoding t)).

(** Decimal, as [strconv.FormatInt] writes it. *)
Fixpoint format_dec (fuel : nat) (z : Z) (acc : string) : string :=
  match fuel with
  | O => acc
  | S fuel =>
      let acc := String (chr (Z.to_nat (48 + z `mod` 10))) acc in
      if z <? 10 then acc else format_dec fuel (z / 10) acc
  end.
Definition FormatInt (z : Z) : string := if z <? 0 then String "-" (format_dec 19 (- z) "") else format_dec 19 z "".

Section writing.
(** Canonical header keys, the sorting of strings, and a trailer's text. *)
Context (Canonical : string → string) (Sort : list string → list string).
Context (Trailer_Write : list (string * list string) → string).

Definition bad_trailer (k : string) : bool :=
  bool_decide (k = "Transfer-Encoding" ∨ k = "Trailer" ∨ k = "Content-Length").

(** The header fields written, in order. *)
Definition WriteHeader (t : transferWriter) : outcome terr (list (string * string)) :=
  let close := if Close t then [("Connection", "close")] else [] in
  let len :=
    if shouldSendContentLength t then [("Content-Length", FormatInt (ContentLength t))]
    else if chunked (TransferEncoding t) then [("Transfer-Encoding", "chunked")] else [] in
  match Trailer t with
  | None => Ok (close ++ len)
  | Some tr =>
      let keys := Canonical <$> tr.*1 in
      match filter (λ k, bad_trailer k = true) keys with
      | k :: _ => Err (ErrBadTrailerKey k)
      | [] =>
          Ok (close ++ len ++
              match keys with [] => [] | _ => [("Trailer", String.concat "," (Sort keys))] end)
      end
  end.

(** [io.LimitReader]: the first [n] bytes of the reads. *)
Definition limited (n : Z) (s : string) : string := (Bufio.str_split (Z.to_nat n) s).1.

Definition body_copied (b : obody) : outcome terr string :=
  match b_end b with Some e => Err (ErrBody e) | None => Ok (data b) end.

(** The body part of [WriteBody]: the wire text and the number of bytes
    copied; the error comes with what had been written by then. *)
Definition write_body (t : transferWriter) : string * outcome terr Z :=
  match Body t with
  | None => ("", Ok 0)
  | Some b =>
      let '(wire, o) :=
        if chunked (TransferEncoding t) then
          let w := foldr (λ r, String.append (Chunked.chunkedWriter_Write r)) "" (reads b) in
          match b_end b with
          | Some e => (w, Err (ErrBody e))
          | None => (w +:+ Chunked.chunkedWriter_Close, Ok 0)
          end
        else if decide (ContentLength t = -1) then (data b, (λ d, len d) <$> body_copied b)
        else (limited (ContentLength t) (data b), (λ d, len d) <$> body_copied b) in
      match o, b_close b with
      | Ok _, Some e => (wire, Err (ErrBody e))
      | _, _ => (wire, o)
      end
  end.

Definition WriteBody (t : transferWriter) : string * option terr :=
  match write_body t with
  | (wire, Ok ncopy) =>
      if negb (ResponseToHEAD t) && negb (ContentLength t =? -1) && negb (ContentLength t =? ncopy)
      then (wire, Some (ErrLengthMismatch (ContentLength t) ncopy))
      else
        (if chunked (TransferEncoding t)
         then wire +:+ match Trailer t with Some tr => Trailer_Write tr | None => "" end +:+ Chunked.CRLF
         else wire, None)
  | (wire, Err e) => (wire, Some e)
  | (wire, Panic) => (wire, None)
  end.
End writing.

(** ** Reading *)

Definition bodyAllowedForStatus (status : Z) : bool :=
  if (100 <=? status) && (status <=? 199) then false
  else if status =? 204 then false else if status =? 304 then false else true.

Definition suppressedHeaders (status : Z) : list string :=
  if status =? 304 then ["Content-Type"; "Content-Length"; "Transfer-Encoding"]
  else if negb (bodyAllowedForStatus status) then ["Content-Length"; "Transfer-Encoding"] else [].

Definition parseContentLength (cl : string) : outcome terr Z :=
  let cl := TrimSpace cl in
  if decide (cl = "") then Ok (-1)
  else match ParseInt10 cl with
       | Some n => if n <? 0 then Err (ErrBadContentLength cl) else Ok n
       | None => Err (ErrBadContentLength cl)
       end.

Fixpoint read_encodings (encodings : list string) : outcome terr (list string) :=
  match encodings with
  | [] => Ok []
  | e :: encodings =>
      let e := ToLower (TrimSpace e) in
      if decide (e = "identity") then Ok []
      else if decide (e ≠ "chunked") then Err (ErrBadTransferEncoding e)
      else te ← read_encodings encodings; mret (e :: te)
  end.

(** A key without values would be indexed out of range. *)
Definition fixTransferEncoding (h : header) : header * outcome terr (list string) :=
  match h !! "Transfer-Encoding" with
  | None => (h, Ok [])
  | Some [] => (h, Panic)
  | Some (raw :: _) =>
      let h := delete "Transfer-Encoding" h in
      match read_encodings (split_on "," raw) with
      | Err e => (h, Err e)
      | Panic => (h, Panic)
      | Ok (_ :: _ :: _) => (h, Err ErrTooManyEncodings)
      | Ok [te] => (delete "Content-Length" h, Ok [te])
      | Ok [] => (h, Ok [])
      end
  end.

Definition fixLength (isResponse : bool) (status : Z) (requestMethod : string) (h : header) (te : list string)
    : header * outcome terr Z :=
  if noBodyExpected requestMethod then (h, Ok 0)
  else if decide (Z.quot status 100 = 1) then (h, Ok 0)
  else if decide (status = 204 ∨ status = 304) then (h, Ok 0)
  else if chunked te then (h, Ok (-1))
  else
    let cl := TrimSpace (Get h "Content-Length") in
    if decide (cl ≠ "") then (h, parseContentLength cl)
    else
      let h := delete "Content-Length" h in
      if negb isResponse && bool_decide (requestMethod = "GET") then (h, Ok 0) else (h, Ok (-1)).

(** [strings.Contains] *)
Fixpoint contains (s sub : string) : bool :=
  String.prefix sub s || match s with EmptyString => false | String _ s => contains s sub end.

Definition shouldClose (major minor : Z) (h : header) : header * bool :=
  if major <? 1 then (h, true)
  else if (major =? 1) && (minor =? 0) then (h, negb (contains (ToLower (Get h "Connection")) "keep-alive"))
  else if decide (ToLower (Get h "Connection") = "close") then (delete "Connection" h, true)
  else (h, false).

Section reading.
Context (Canonical : string → string).

Fixpoint trailer_keys (keys : list string) : outcome terr (list string) :=
  match keys with
  | [] => Ok []
  | k :: keys =>
      let k := Canonical (TrimSpace k) in
      if bad_trailer k then Err (ErrBadTrailerKey k) else ks ← trailer_keys keys; mret (k :: ks)
  end.

Definition fixTrailer (h : header) (te : list string) : header * outcome terr (option (list string)) :=
  let raw := Get h "Trailer" in
  if decide (raw = "") then (h, Ok None)
  else
    let h := delete "Trailer" h in
    match trailer_keys (split_on "," raw) with
    | Err e => (h, Err e)
    | Panic => (h, Panic)
    | Ok [] => (h, Ok None)
    | Ok ks => if chunked te then (h, Ok (Some ks)) else (h, Err ErrUnexpectedTrailer)
    end.

(** A message received, up to its body. *)
Record in_msg := {
  isResponse : bool;
  i_Header : header;
  StatusCode : Z;
  RequestMethod : option string;   (** of a response's request, if any *)
  i_Major : Z;
  i_Minor : Z;
}.

(** The reader given for the body. *)
Inductive body_kind := BodyEOF | BodyChunked (closing : bool) | BodyLimited (n : Z) (closing : bool) | BodyRaw (closing : bool).

Record transferResult := {
  t_Body : body_kind;
  t_ContentLength : Z;
  t_TransferEncoding : list string;
  t_Close : bool;
  t_Trailer : option (list string);
  t_Header : header;
}.

Definition readTransfer (m : in_msg) : outcome terr transferResult :=
  let method := if isResponse m then default "GET" (RequestMethod m) else "GET" in
  let status := if isResponse m then StatusCode m else 200 in
  let '(h, close) := if isResponse m then shouldClose (i_Major m) (i_Minor m) (i_Header m) else (i_Header m, false) in
  let '(h, te) := fixTransferEncoding h in
  te ← te;
  let '(h, realLength) := fixLength (isResponse m) status method h te in
  realLength ← realLength;
  cl ← (if isResponse m && bool_decide (method = "HEAD") then parseContentLength (Get h "Content-Length")
        else mret realLength);
  let '(h, tr) := fixTrailer h te in
  tr ← tr;
  let close :=
    if isResponse m && (realLength =? -1) && negb (chunked te) && bodyAllowedForStatus status then true else close in
  mret {| t_Body :=
            (if chunked te then if noBodyExpected method then BodyEOF else BodyChunked close
             else if realLength =? 0 then BodyEOF
             else if 0 <? realLength then BodyLimited realLength close
             else if close then BodyRaw close else BodyEOF);
          t_ContentLength := cl; t_TransferEncoding := te; t_Close := close; t_Trailer := tr; t_Header := h |}.
End reading.

(** The body set up over the connection; none for [eofReader]. *)
Definition body_of (k : body_kind) (r : Bufio.reader) : option Body.body :=
  match k with
  | BodyEOF => None
  | BodyChunked closing =>
      Some {| Body.source := Body.SrcChunked (Chunked.newChunkedReader r); Body.hdr := true; Body.closing := closing;
              Body.closed := false; Body.trailer := [] |}
  | BodyLimited n closing =>
      Some {| Body.source := Body.SrcLimited r n; Body.hdr := false; Body.closing := closing;
              Body.closed := false; Body.trailer := [] |}
  | BodyRaw closing =>
      Some {| Body.source := Body.SrcRaw r; Body.hdr := false; Body.closing := closing;
              Body.closed := false; Body.trailer := [] |}
  end.
End Transfer.

Module TransferProps.
Import Bufio Chunked ChunkedProps Body BodyProps Transfer.
#[local] Arguments ProtoAtLeast : simpl never.
#[local] Arguments Get : simpl never.

(** *** Decimal numbers on the wire *)

Definition is_digit (a : ascii) : bool := bool_decide (48 ≤ Z.of_nat (byte a) ≤ 57).
Definition heads_differ (a : ascii) (sps : list string) : bool :=
  forallb (λ sp, match sp with String b _ => negb (bool_decide (b = a)) | "" => false end) sps.

Lemma digit_no_space a :
  is_digit a = true → heads_differ a spaces = true ∧ heads_differ a (rev_string <$> spaces) = true.
Proof.
  unfold is_digit. rewrite bool_decide_eq_true. intros H.
  assert (forallb (λ n, heads_differ (chr n) spaces && heads_differ (chr n) (rev_string <$> spaces)) (seq 48 10) = true) as Hall
    by (by vm_compute).
  rewrite forallb_forall in Hall. specialize (Hall (byte a) ltac:(apply in_seq; lia)).
  unfold chr, byte in Hall. rewrite ascii_nat_embedding in Hall. by apply andb_true_iff in Hall.
Qed.

Lemma trim_left_id a s sps fuel : heads_differ a sps = true → trim_left sps fuel (String a s) = String a s.
Proof.
  intros H. destruct fuel as [|fuel]; [done|]. cbn [trim_left].
  assert (list_find (λ sp, String.prefix sp (String a s) = true) sps = None) as ->; [|done].
  apply list_find_None. unfold heads_differ in H.
  eapply Forall_impl; [apply Forall_forall; rewrite forallb_forall in H; intros sp Hsp; apply (H sp), list_elem_of_In, Hsp|].
  intros [|b sp] Hb; [done|]. cbn in Hb. intros Hp. cbn in Hp. destruct (ascii_dec b a); [|done].
  by rewrite bool_decide_eq_true_2 in Hb.
Qed.

Lemma all_chars_list p s : all_chars p s = true ↔ Forall (λ a, p a = true) (String.list_ascii_of_string s).
Proof.
  induction s as [|a s IH]; cbn; [split; [constructor|done]|]. by rewrite andb_true_iff, Forall_cons, IH.
Qed.

Lemma all_chars_rev p s : all_chars p s = true → all_chars p (rev_string s) = true.
Proof.
  rewrite !all_chars_list. unfold rev_string. rewrite String.list_ascii_of_string_of_list_ascii.
  rewrite !Forall_forall. intros H x Hx. apply H, list_elem_of_In, in_rev. by apply list_elem_of_In.
Qed.

Lemma rev_string_rev s : rev_string (rev_string s) = s.
Proof.
  unfold rev_string. rewrite String.list_ascii_of_string_of_list_ascii, rev_involutive.
  apply String.string_of_list_ascii_of_string.
Qed.

Lemma TrimSpace_digits s : all_chars is_digit s = true → TrimSpace s = s.
Proof.
  intros Hs. unfold TrimSpace.
  assert (TrimLeft s = s) as ->.
  { unfold TrimLeft. destruct s as [|a s]; [done|]. apply andb_true_iff in Hs as [Ha _].
    exact (trim_left_id _ _ _ _ (proj1 (digit_no_space a Ha))). }
  unfold TrimRight. pose proof (all_chars_rev _ _ Hs) as Hr. rewrite <- (rev_string_rev s) at 3. f_equal.
  destruct (rev_string s) as [|a r]; [by destruct (String.length s)|]. apply andb_true_iff in Hr as [Ha _].
  exact (trim_left_id _ _ _ _ (proj2 (digit_no_space a Ha))).
Qed.

Lemma dec_digit d : 0 ≤ d < 10 → byte (chr (Z.to_nat (48 + d))) = Z.to_nat (48 + d).
Proof. intros Hd. unfold byte, chr. apply nat_ascii_embedding. lia. Qed.

Lemma format_dec_spec fuel z acc :
  0 ≤ z < 10 ^ Z.of_nat fuel → fuel ≠ O → all_chars is_digit acc = true →
  all_chars is_digit (format_dec fuel z acc) = true ∧ format_dec fuel z acc ≠ "" ∧
  digits 0 (format_dec fuel z acc) = digits z acc.
Proof.
  revert z acc. induction fuel as [|fuel IH]; intros z acc Hz Hf Ha; [done|]. cbn [format_dec].
  rewrite Nat2Z.inj_succ, Z.pow_succ_r in Hz by lia.
  pose proof (Z.mod_pos_bound z 10 ltac:(lia)) as Hm. pose proof (Z.div_mod z 10 ltac:(lia)).
  set (a := chr (Z.to_nat (48 + z `mod` 10))).
  assert (byte a = Z.to_nat (48 + z `mod` 10)) as Hb by (by apply dec_digit).
  assert (all_chars is_digit (String a acc) = true) as Hacc.
  { cbn. rewrite Ha, andb_true_r. apply bool_decide_eq_true_2. rewrite Hb. lia. }
  assert (∀ q, digits q (String a acc) = digits (10 * q + z `mod` 10) acc) as Hstep.
  { intros q. cbn [digits]. rewrite Hb. rewrite bool_decide_eq_true_2 by lia. f_equal. lia. }
  destruct (Z.ltb_spec z 10) as [Hlt|Hge].
  - split_and!; [done..|]. rewrite Hstep. f_equal. rewrite Z.mod_small by lia. lia.
  - destruct fuel as [|fuel]; [rewrite Z.pow_0_r in Hz; lia|].
    assert (0 ≤ z / 10 < 10 ^ Z.of_nat (S fuel)) as Hq.
    { split; [apply Z.div_pos; lia|apply Z.div_lt_upper_bound; lia]. }
    destruct (IH (z / 10) (String a acc) Hq ltac:(done) Hacc) as (H1 & H2 & H3).
    split_and!; [done..|]. rewrite H3, Hstep. f_equal. lia.
Qed.

Lemma parse_FormatInt z : 0 ≤ z < 2 ^ 63 → parseContentLength (FormatInt z) = Ok z.
Proof.
  intros Hz. unfold FormatInt. destruct (Z.ltb_spec z 0); [lia|].
  destruct (format_dec_spec 19 z "" ltac:(change (Z.of_nat 19) with 19; lia) ltac:(done) eq_refl) as (Hd & Hne & Hv).
  set (s := format_dec 19 z "") in *. unfold parseContentLength. rewrite TrimSpace_digits by done.
  rewrite decide_False by done. unfold ParseInt10. destruct s as [|a s]; [done|].
  assert (a ≠ "-"%char ∧ a ≠ "+"%char) as [Hm Hp].
  { apply andb_true_iff in Hd as [Hd _]. split; intros ->; by vm_compute in Hd. }
  rewrite !decide_False by done. rewrite Hv. cbn [digits mbind option_bind].
  rewrite bool_decide_eq_true_2 by lia. cbn. by destruct (Z.ltb_spec z 0); [lia|].
Qed.

(** *** The framing of a request *)

(** A request that leaves the encoding to the client, or asks for chunks. *)
Definition plain_framing (m : out_msg) : Prop :=
  is_request m = true ∧ ProtoAtLeast m 1 1 = true ∧ o_Trailer m = None ∧
  (o_TransferEncoding m = [] ∨ o_TransferEncoding m = ["chunked"]).

Definition sent_data (m : out_msg) : string := default "" (data <$> o_Body m).

(** What a sanitised request may be. *)
Inductive framed (m : out_msg) (t : transferWriter) : Prop :=
| FramedNone : Body t = None → ContentLength t = 0 → TransferEncoding t = [] → sent_data m = "" → framed m t
| FramedLength b : Body t = Some b → o_Body m = Some b → 0 < ContentLength t → ContentLength t = o_ContentLength m →
    TransferEncoding t = [] → framed m t
| FramedChunked b : Body t = Some b → ContentLength t = -1 → TransferEncoding t = ["chunked"] →
    (b_end b = None → sent_data m = data b) → framed m t.

Lemma data_nonempty rs : foldr String.append "" (filter (λ s, s ≠ "") rs) = foldr String.append "" rs.
Proof.
  induction rs as [|s rs IH]; [done|]. rewrite filter_cons. cbn [foldr].
  destruct (decide (s ≠ "")) as [_|Hs]; [cbn [foldr]; by rewrite IH|].
  apply dec_stable in Hs as ->. by rewrite str_app_nil.
Qed.

(** Looking at the first byte loses nothing of the body. *)
Lemma probe_body_data b :
  match probe_body b with
  | HasByte b' => data b' = data b ∧ b_end b' = b_end b ∧ b_close b' = b_close b ∧ data b ≠ ""
  | ProbeErr e => b_end b = Some e ∧ data b = ""
  | IsEmpty => b_end b = None ∧ data b = ""
  end.
Proof.
  assert (data b = foldr String.append "" (filter (λ s, s ≠ "") (reads b))) as Hd by (symmetry; apply data_nonempty).
  rewrite Hd. clear Hd. unfold probe_body.
  assert (Forall (λ s, s ≠ "") (filter (λ s, s ≠ "") (reads b))) as Hne by (apply Forall_forall; intros s Hs; apply list_elem_of_filter in Hs as [Hs _]; exact Hs).
  destruct (filter _ (reads b)) as [|[|a s] rs]; [by destruct (b_end b)|by inversion Hne|].
  split_and!; try done. unfold data. cbn [reads foldr]. rewrite !str_app_cons, str_app_nil. f_equal.
  case_decide as Hs; [by rewrite Hs, str_app_nil|done].
Qed.

Lemma newTransferWriter_framed m t :
  plain_framing m → newTransferWriter m = Ok t → framed m t ∧ Trailer t = None ∧ ResponseToHEAD t = false.
Proof.
  intros (Hreq & Hproto & Htr & Hte) H. unfold newTransferWriter in H. rewrite Hreq, Htr in H. cbn [negb andb] in H.
  destruct (o_Body m) as [b|] eqn:Eb.
  - rewrite (bool_decide_eq_false_2 (Some b = None)), andb_false_r in H by done. unfold detect in H. rewrite Eb, Hproto in H.
    destruct Hte as [Hte|Hte]; rewrite Hte in H.
    + rewrite bool_decide_eq_true_2 in H by done. cbn [andb] in H. destruct (decide (o_ContentLength m = 0)) as [Hcl|Hcl].
      * pose proof (probe_body_data b) as Hp. destruct (probe_body b) as [b'|e|]; cbn in H; injection H as <-.
        -- split; [|done]. eapply FramedChunked; cbn; try done. intros _. unfold sent_data. rewrite Eb. by destruct Hp as [-> _].
        -- split; [|done]. by eapply FramedChunked; cbn.
        -- split; [|done]. apply FramedNone; cbn; try done. unfold sent_data. rewrite Eb. by destruct Hp as [_ ?].
      * destruct (Z.ltb_spec (o_ContentLength m) 0); cbn in H; injection H as <-.
        -- split; [|done]. eapply FramedChunked; cbn; try done. intros _. unfold sent_data. by rewrite Eb.
        -- split; [|done]. eapply FramedLength; cbn; try done. lia.
    + rewrite (bool_decide_eq_false_2 (["chunked"] = [])) in H by done. cbn in H. injection H as <-.
      split; [|done]. eapply FramedChunked; cbn; try done. intros _. unfold sent_data. by rewrite Eb.
  - rewrite (bool_decide_eq_true_2 (@None obody = None)), andb_true_r in H by done.
    destruct (Z.eqb_spec (o_ContentLength m) 0) as [Hcl|]; [|done]. cbn [negb] in H.
    unfold detect in H. rewrite Eb in H. cbn in H. rewrite Hproto in H. injection H as <-.
    split; [|done]. apply FramedNone; cbn; try done. unfold sent_data. by rewrite Eb.
Qed.

Lemma FormatInt_text z : 0 ≤ z < 2 ^ 63 → TrimSpace (FormatInt z) = FormatInt z ∧ FormatInt z ≠ "".
Proof.
  intros Hz. unfold FormatInt. destruct (Z.ltb_spec z 0); [lia|].
  destruct (format_dec_spec 19 z "" ltac:(change (Z.of_nat 19) with 19; lia) ltac:(done) eq_refl) as (Hd & Hne & _).
  by rewrite TrimSpace_digits.
Qed.

(** *** Reading a request's framing back *)

Definition request_with (h : header) (major minor : Z) : in_msg :=
  {| isResponse := false; i_Header := h; StatusCode := 0; RequestMethod := None; i_Major := major; i_Minor := minor |}.

Definition framing_fields : list string := ["Transfer-Encoding"; "Content-Length"; "Trailer"].
Definition as_header (fs : list (string * string)) : header := list_to_map ((λ f, (f.1, [f.2])) <$> fs).

Section roundtrip.
Context (Canonical : string → string) (Sort : list string → list string).
Context (Trailer_Write : list (string * list string) → string).
Context (ReadMIMEHeader : reader → reader * outcome ioerr (list (string * list string))).

(** The body is read to its end, in reads of [n] bytes. *)
Definition copy_body (k : body_kind) (n : nat) (r : reader) : reader * string * option ioerr :=
  match body_of k r with
  | None => (r, "", Some EOF)
  | Some b => let '(b, x, e) := copy_all ReadMIMEHeader (copy_fuel b) n b in (reader_of (source b), x, e)
  end.

Lemma Get_None h k : h !! k = None → Get h k = "".
Proof. unfold Get. by intros ->. Qed.

Lemma fixLength_chunked h : fixLength false 200 "GET" h ["chunked"] = (h, Ok (-1)).
Proof. done. Qed.

Lemma fixLength_none h : h !! "Content-Length" = None → fixLength false 200 "GET" h [] = (delete "Content-Length" h, Ok 0).
Proof. intros H. unfold fixLength. by rewrite (Get_None h) by done. Qed.

Lemma fixLength_given h n :
  0 ≤ n < 2 ^ 63 → h !! "Content-Length" = Some [FormatInt n] → fixLength false 200 "GET" h [] = (h, Ok n).
Proof.
  intros Hn H. unfold fixLength. assert (Get h "Content-Length" = FormatInt n) as -> by (unfold Get; by rewrite H).
  destruct (FormatInt_text n Hn) as [-> Hne]. cbn -[FormatInt parseContentLength].
  rewrite (decide_True (P := FormatInt n ≠ "")) by done. by rewrite parse_FormatInt.
Qed.

Lemma fixTrailer_none h te : h !! "Trailer" = None → fixTrailer Canonical h te = (h, Ok None).
Proof. intros H. unfold fixTrailer. by rewrite Get_None. Qed.

Lemma read_no_length h major minor :
  h !! "Transfer-Encoding" = None → h !! "Content-Length" = None → h !! "Trailer" = None →
  ∃ res, readTransfer Canonical (request_with h major minor) = Ok res ∧ t_Body res = BodyEOF.
Proof.
  intros Hte Hcl Htr. unfold readTransfer, request_with, fixTransferEncoding. cbn [isResponse i_Header].
  rewrite Hte. cbn [mbind outcome_bind]. rewrite fixLength_none by done. cbn [mbind outcome_bind andb].
  rewrite fixTrailer_none by (by rewrite lookup_delete_ne). by eexists.
Qed.

Lemma read_length h major minor n :
  0 ≤ n < 2 ^ 63 → h !! "Transfer-Encoding" = None → h !! "Content-Length" = Some [FormatInt n] → h !! "Trailer" = None →
  ∃ res, readTransfer Canonical (request_with h major minor) = Ok res ∧
    t_Body res = if n =? 0 then BodyEOF else BodyLimited n false.
Proof.
  intros Hn Hte Hcl Htr. unfold readTransfer, request_with, fixTransferEncoding. cbn [isResponse i_Header].
  rewrite Hte. cbn [mbind outcome_bind]. rewrite (fixLength_given h n) by done. cbn [mbind outcome_bind andb].
  rewrite fixTrailer_none by done. eexists. split; [done|]. cbn.
  destruct (Z.eqb_spec n 0); [done|]. by destruct (Z.ltb_spec 0 n); [|lia].
Qed.

Lemma read_chunked h major minor :
  h !! "Transfer-Encoding" = Some ["chunked"] → h !! "Trailer" = None →
  ∃ res, readTransfer Canonical (request_with h major minor) = Ok res ∧ t_Body res = BodyChunked false.
Proof.
  intros Hte Htr. unfold readTransfer, request_with, fixTransferEncoding. cbn [isResponse i_Header].
  rewrite Hte. assert (read_encodings (split_on "," "chunked") = Ok ["chunked"]) as -> by (by vm_compute).
  cbn [mbind outcome_bind]. rewrite fixLength_chunked. cbn [mbind outcome_bind andb].
  rewrite fixTrailer_none by (by rewrite !lookup_delete_ne). by eexists.
Qed.

(** *** What was written is what is read *)

Lemma as_header_lookup fs k :
  as_header fs !! k = match list_find (λ f, f.1 = k) fs with Some (_, f) => Some [f.2] | None => None end.
Proof.
  unfold as_header. induction fs as [|[k' v] fs IH]; [done|]. cbn. destruct (decide (k' = k)) as [->|Hne].
  - by rewrite lookup_insert_eq.
  - rewrite lookup_insert_ne by done. rewrite IH. by destruct (list_find (λ f, f.1 = k) fs) as [[]|].
Qed.

Definition wire_chunks (b : obody) : string :=
  foldr (λ w, String.append (chunkedWriter_Write w)) (chunkedWriter_Close +:+ CRLF) (reads b).

Lemma wire_chunks_app ws rest :
  foldr (λ r, String.append (chunkedWriter_Write r)) "" ws +:+ rest =
  foldr (λ r, String.append (chunkedWriter_Write r)) rest ws.
Proof. induction ws as [|w ws IH]; cbn; [by rewrite str_app_nil|]. by rewrite <- str_app_assoc, IH. Qed.

Lemma limited_all s : limited (len s) s = s.
Proof.
  unfold limited. destruct (str_split _ s) as [x y] eqn:E. apply str_split_eq in E as [-> Hx].
  rewrite Nat2Z.id, Nat.min_id, length_str_app in Hx. assert (String.length y = O) as Hy by lia.
  apply length_0 in Hy as ->. by rewrite str_app_nil_r.
Qed.

(** What a body that was written without an error put on the wire. *)
Lemma WriteBody_framed m t wire :
  framed m t → Trailer t = None → ResponseToHEAD t = false → WriteBody Trailer_Write t = (wire, None) →
  (ContentLength t = 0 ∧ TransferEncoding t = [] ∧ wire = "" ∧ sent_data m = "") ∨
  (0 < ContentLength t ∧ TransferEncoding t = [] ∧ ContentLength t = len wire ∧ sent_data m = wire) ∨
  (TransferEncoding t = ["chunked"] ∧ ∃ b, Body t = Some b ∧ wire = wire_chunks b ∧ sent_data m = data b).
Proof.
  intros Hf Htr Hh. unfold WriteBody, write_body. destruct Hf as [Hb Hcl Hte Hd|b Hb Hob Hpos Hcl Hte|b Hb Hcl Hte Hd];
    rewrite Hb, Hte, Hh, ?Htr;
    change (chunked ["chunked"]) with true || change (chunked []) with false; cbn [negb andb].
  - rewrite Hcl. intros [= <-]. by left.
  - rewrite decide_False by lia. unfold body_copied. destruct (b_end b); [done|].
    cbn [fmap outcome_fmap]. destruct (b_close b); [done|]. cbn.
    destruct (Z.eqb_spec (ContentLength t) (-1)); [lia|]. destruct (Z.eqb_spec (ContentLength t) (len (data b))) as [E|]; [|done].
    intros [= <-]. right. left. rewrite E, limited_all. split_and!; [lia|done|done|]. unfold sent_data. by rewrite Hob.
  - destruct (b_end b); [done|]. destruct (b_close b); [done|]. rewrite Hcl. cbn.
    intros [= <-]. right. right. split; [done|]. exists b. split; [done|]. split; [|by apply Hd].
    rewrite !str_app_nil, <- str_app_assoc. apply wire_chunks_app.
Qed.

(** The fields a sanitised request announces its body with. *)
Lemma WriteHeader_lookup t fs k :
  Trailer t = None → WriteHeader Canonical Sort t = Ok fs → k ∈ framing_fields →
  as_header fs !! k =
    if decide (k = "Content-Length" ∧ shouldSendContentLength t = true) then Some [FormatInt (ContentLength t)]
    else if decide (k = "Transfer-Encoding" ∧ chunked (TransferEncoding t) = true) then Some ["chunked"] else None.
Proof.
  intros Htr H Hk. unfold WriteHeader in H. rewrite Htr in H. injection H as <-.
  assert (shouldSendContentLength t = true → chunked (TransferEncoding t) = false) as Hexcl.
  { unfold shouldSendContentLength. by destruct (chunked (TransferEncoding t)). }
  rewrite as_header_lookup. unfold framing_fields in Hk. rewrite !elem_of_cons, elem_of_nil in Hk.
  destruct (Close t), (shouldSendContentLength t), (chunked (TransferEncoding t)); try (by exfalso; specialize (Hexcl eq_refl));
    (destruct Hk as [->|[->|[->|[]]]]; done).
Qed.

Lemma copy_chunked_body n r closing ws :
  Forall (λ w, len w < 2 ^ 64) ws → wf r → (0 < n)%nat →
  let wire := foldr (λ w, String.append (chunkedWriter_Write w)) (chunkedWriter_Close +:+ CRLF) ws in
  (∀ rest, flat r = wire +:+ rest → ∃ r', copy_body (BodyChunked closing) n r
     = (r', foldr String.append "" ws, Some EOF) ∧ flat r' = rest) ∧
  (∀ q, q ≠ "" → wire = flat r +:+ q → ∃ r' x e, copy_body (BodyChunked closing) n r = (r', x, Some e) ∧ e ≠ EOF).
Proof.
  intros Hws Hwf Hn wire. destruct (chunked_body_complete ReadMIMEHeader ws n r closing Hws Hwf Hn) as [H1 H2].
  unfold copy_body. cbn [body_of]. split.
  - intros rest Hf. destruct (H1 rest Hf) as (b' & Hc & Hr). unfold chunked_body in Hc. rewrite Hc. by eexists.
  - intros q Hq Hw. destruct (H2 q Hq Hw) as (b' & x & e & Hc & He). unfold chunked_body in Hc. rewrite Hc. by eexists _, _, _.
Qed.

Lemma copy_limited_body n r closing N :
  wf r → (0 < n)%nat → 0 < N →
  ∃ r' x e, copy_body (BodyLimited N closing) n r = (r', x, Some e) ∧
    if decide (N ≤ len (flat r)) then e = EOF ∧ len x = N ∧ flat r = x +:+ flat r' else e ≠ EOF.
Proof.
  intros Hwf Hn HN. unfold copy_body. cbn [body_of].
  destruct (limited_body_complete ReadMIMEHeader (S (String.length (flat r))) n r N closing Hwf Hn HN ltac:(lia))
    as (b' & x & e & Hc & H).
  unfold copy_fuel. cbn [source reader_of] in Hc |- *. rewrite Hc. eexists _, _, _. split; [done|].
  destruct (decide (N ≤ len (flat r))); [done|]. by destruct H.
Qed.

Lemma app_same_length s1 s2 t1 t2 : String.length s1 = String.length s2 → s1 +:+ t1 = s2 +:+ t2 → s1 = s2 ∧ t1 = t2.
Proof.
  revert s2. induction s1 as [|a s1 IH]; intros [|b s2]; cbn; try done; rewrite ?str_app_nil, ?str_app_cons; try done.
  intros [= Hl] [= -> He]. destruct (IH s2 Hl He) as [-> ->]. done.
Qed.

(** The body of a request reaches the other side. When a request of
    HTTP/1.1 or later is sanitised and its header and body are written without
    an error, then reading the announcement back (among other fields that do
    not speak of framing) sets up a body that, on a connection that holds
    what was written, however it is cut into segments and whatever the size
    of the reads, gives exactly the data that was sent and then the end, and
    leaves the bytes of the next message; and when the connection holds only
    a proper prefix of it, the reading ends with an error that is not the end
    of the body. The data is also what the request was given, whether its
    length was declared, had to be found out, or was sent in chunks. *)
Theorem request_body_roundtrip m t fs wire h major minor :
  plain_framing m → o_ContentLength m < 2 ^ 63 →
  (∀ b, Body t = Some b → Forall (λ w, len w < 2 ^ 64) (reads b)) →
  newTransferWriter m = Ok t → WriteHeader Canonical Sort t = Ok fs → WriteBody Trailer_Write t = (wire, None) →
  (∀ k, k ∈ framing_fields → (h : header) !! k = as_header fs !! k) →
  ∃ res, readTransfer Canonical (request_with h major minor) = Ok res ∧
    ∀ r n, wf r → (0 < n)%nat →
      (∀ rest, flat r = wire +:+ rest →
        ∃ r', copy_body (t_Body res) n r = (r', sent_data m, Some EOF) ∧ flat r' = rest) ∧
      (∀ q, q ≠ "" → wire = flat r +:+ q →
        ∃ r' x e, copy_body (t_Body res) n r = (r', x, Some e) ∧ e ≠ EOF).
Proof.
  intros Hplain Hlen Hbound Hnew HwH HwB Hother.
  destruct (newTransferWriter_framed m t Hplain Hnew) as (Hf & Htr & Hh).
  assert (∀ k, k ∈ framing_fields → h !! k = _) as Hl
    by (intros k Hk; rewrite Hother by done; exact (WriteHeader_lookup t fs k Htr HwH Hk)).
  pose proof (Hl "Transfer-Encoding" ltac:(by repeat constructor)) as Hl1.
  pose proof (Hl "Content-Length" ltac:(by repeat constructor)) as Hl2.
  pose proof (Hl "Trailer" ltac:(by repeat constructor)) as Hl3. clear Hl.
  assert (Hsend : TransferEncoding t = [] → h !! "Transfer-Encoding" = None).
  { intros Hte. rewrite Hl1, Hte. by rewrite !decide_False by (intros [H1 H2]; discriminate H1 || discriminate H2). }
  destruct (WriteBody_framed m t wire Hf Htr Hh HwB) as [(Hcl & Hte & -> & ->)|[(Hpos & Hte & Hcl & ->)|(Hte & b & Hb & -> & ->)]].
  - (* no body: no length, or a length of zero *)
    assert (∃ res, readTransfer Canonical (request_with h major minor) = Ok res ∧ t_Body res = BodyEOF)
      as (res & Hres & HB).
    { destruct (shouldSendContentLength t) eqn:Es.
      - apply (read_length _ major minor 0); [lia|by apply Hsend| |done]. by rewrite Hl2, decide_True, Hcl.
      - apply read_no_length; [by apply Hsend| |done]. rewrite Hl2. by rewrite !decide_False by (intros [H1 H2]; discriminate H1 || discriminate H2). }
    exists res. split; [done|]. intros r n Hwf Hn. rewrite HB. split.
    + intros rest Hr. exists r. by rewrite str_app_nil in Hr.
    + intros q Hq Hw. symmetry in Hw. destruct (flat r); [rewrite str_app_nil in Hw|rewrite str_app_cons in Hw]; done.
  - assert (shouldSendContentLength t = true) as Es.
    { unfold shouldSendContentLength. rewrite Hte. cbn. by destruct (Z.ltb_spec 0 (ContentLength t)); [|lia]. }
    assert (ContentLength t < 2 ^ 63) as Hmax by (destruct Hf; congruence || lia).
    destruct (read_length h major minor (ContentLength t)) as (res & Hres & HB);
      [lia|by apply Hsend|by rewrite Hl2, decide_True|done|].
    exists res. split; [done|]. intros r n Hwf Hn. rewrite HB. destruct (Z.eqb_spec (ContentLength t) 0); [lia|].
    destruct (copy_limited_body n r false _ Hwf Hn Hpos) as (r' & x & e & Hc & H). rewrite Hc. split.
    + intros rest Hr. rewrite Hr, length_str_app in H. destruct (decide (ContentLength t ≤ _)) as [_|Hn2]; [|exfalso; lia].
      destruct H as (-> & Hx & Hfl). destruct (app_same_length wire x rest (flat r')) as [-> ->]; [lia|done|by eexists].
    + intros q Hq Hw. exists r', x, e. split; [done|]. destruct (decide (ContentLength t ≤ _)) as [Hd|]; [exfalso|done].
      apply length_pos in Hq. rewrite Hcl, Hw, length_str_app in Hd. lia.
  - destruct (read_chunked h major minor) as (res & Hres & HB); [|done|].
    { rewrite Hl1, Hte. rewrite decide_False by (by intros [H1 _]). by rewrite decide_True by done. }
    exists res. split; [done|]. intros r n Hwf Hn. rewrite HB. by apply (copy_chunked_body n r false (reads b)); [apply Hbound|..].
Qed.

(** A body that is not as long as was declared is not sent as if it were: no
    more than the declared bytes go out, and the writer gets an error. *)
Theorem declared_length_kept m t b :
  plain_framing m → o_Body m = Some b → b_end b = None → b_close b = None →
  o_TransferEncoding m = [] → 0 < o_ContentLength m → o_ContentLength m ≠ len (data b) →
  newTransferWriter m = Ok t →
  WriteBody Trailer_Write t =
    (limited (o_ContentLength m) (data b), Some (ErrLengthMismatch (o_ContentLength m) (len (data b)))) ∧
  len (limited (o_ContentLength m) (data b)) ≤ o_ContentLength m.
Proof.
  intros Hplain Hb He Hc Hte Hpos Hne Hnew. split.
  - destruct (newTransferWriter_framed m t Hplain Hnew) as (Hf & _ & Hh).
    destruct Hplain as (Hreq & Hproto & _ & _). unfold newTransferWriter, detect in Hnew.
    rewrite Hreq, Hb, Hte, Hproto, (bool_decide_eq_false_2 (Some b = None)), andb_false_r in Hnew by done.
    rewrite bool_decide_eq_true_2, decide_False in Hnew by lia || done. cbn in Hnew.
    destruct (Z.ltb_spec (o_ContentLength m) 0); [lia|]. cbn in Hnew. injection Hnew as <-. clear Hf Hh.
    unfold WriteBody, write_body, body_copied. cbn. change (chunked []) with false. rewrite decide_False by lia.
    rewrite He, Hc. cbn. destruct (Z.eqb_spec (o_ContentLength m) (-1)); [lia|].
    by destruct (Z.eqb_spec (o_ContentLength m) (len (data b))).
  - unfold limited. pose proof (proj2 (str_split_spec (Z.to_nat (o_ContentLength m)) (data b))). lia.
Qed.
End roundtrip.

Example request_body_roundtrip_witness :
  let m := {| is_request := true; o_Method := "POST"; o_Body := Some {| reads := ["he"; ""; "llo"]; b_end := None; b_close := None |};
              o_ContentLength := 0; o_Close := true; o_TransferEncoding := []; o_Trailer := None; ProtoMajor := 1; ProtoMinor := 1 |} in
  let RMH (r : reader) := (r, @Err ioerr (list (string * list string)) ErrMalformed) in
  ∃ t fs wire res,
    newTransferWriter m = Ok t ∧ fs = [("Connection", "close"); ("Transfer-Encoding", "chunked")] ∧
    wire = bytes [49; 13; 10; 104; 13; 10; 49; 13; 10; 101; 13; 10; 51; 13; 10; 108; 108; 111; 13; 10; 48; 13; 10; 13; 10]%nat ∧
    readTransfer (λ k, k) (request_with (as_header fs ∪ {["Host" := ["h"]]}) 1 1) = Ok res ∧
    ∃ r', copy_body RMH (t_Body res) 2 {| buf := ""; src := [wire +:+ "GE"; "T"]; end_err := ErrUnexpectedEOF |} = (r', "hello", Some EOF) ∧
      flat r' = "GET".
Proof.
  intros m RMH.
  eassert (newTransferWriter m = Ok _) as Ht by (vm_compute; reflexivity).
  match type of Ht with _ = Ok ?t =>
    eassert (WriteHeader (λ k, k) (λ l, l) t = Ok _) as Hh by (vm_compute; reflexivity);
    eassert (WriteBody (λ _, "") t = (_, None)) as Hb by (vm_compute; reflexivity);
    assert (∀ b, Body t = Some b → Forall (λ w, len w < 2 ^ 64) (reads b)) as Hbd by (intros b [= <-]; repeat constructor)
  end.
  destruct (request_body_roundtrip (λ k, k) (λ l, l) (λ _, "") RMH m _ _ _
    (as_header [("Connection", "close"); ("Transfer-Encoding", "chunked")] ∪ {["Host" := ["h"]]}) 1 1
    ltac:(split_and!; [done..|by left]) ltac:(cbn; lia)
    Hbd Ht Hh Hb
    ltac:(intros k Hk; unfold framing_fields in Hk; rewrite !elem_of_cons, elem_of_nil in Hk;
          destruct Hk as [->|[->|[->|[]]]]; done)) as (res & Hres & H).
  eexists _, _, _, res. split; [exact Ht|].
 split; [reflexivity|]. split; [vm_compute; reflexivity|]. split; [exact Hres|].
  refine (proj1 (H _ 2%nat _ _) "GET" _); [split; [repeat constructor; done|cbn; lia]|lia|vm_compute; reflexivity].
Defined.
End TransferProps.
