(* ===== verification/HttpMessage.v ===== *)
(** Requests and responses of the patched HTTP client (http13client/request.go
    and response.go): writing a request or a response, reading one back, the
    parsed forms, and the limit on the size of a body.

    Package net/url is an interface (the class [URLLib]); the canonical form
    of header keys, the reader of MIME headers and the multipart reader are
    parameters. *)

From stdpp Require Import sorting.
From S2P Require Import Prelude Base64 HttpText HttpBody HttpTransfer.
Import Text.

Local Open Scope Z_scope.

(** ** net/url *)
Record URL := {
  Scheme : string; Opaque : string; User : option (string * option string);
  u_Host : string; Path : string; RawQuery : string; Fragment : string;
}.

Notation values := (gmap string (list string)).

Class URLLib := {
  url_Parse : string → string + URL;   (** an error or a URL *)
  url_ParseRequestURI : string → string + URL;
  url_Resolve : URL → string → string + URL;   (** [base.Parse] *)
  url_String : URL → string;
  url_RequestURI : URL → string;
  url_ParseQuery : string → values * option string;
}.

(** ** Lines, as net/textproto reads them *)
Module TextProto.
Import Bufio Transfer.
Local Close Scope Z_scope.

(** The end of a line without its carriage return. *)
Fixpoint strip_cr (s : string) : string :=
  match s with
  | EmptyString => EmptyString
  | String a EmptyString => if decide (a = chr 13) then EmptyString else s
  | String a s => String a (strip_cr s)
  end.

(** The last byte of a full buffer stays there if it is a carriage return. *)
Fixpoint keep_cr (s : string) : string * string :=
  match s with
  | EmptyString => ("", "")
  | String a EmptyString => if decide (a = chr 13) then ("", s) else (s, "")
  | String a s => let '(x, y) := keep_cr s in (String a x, y)
  end.

(** [ReadLine]: lines may be longer than the buffer; the last one needs no
    newline, but must not be empty. *)
Fixpoint read_line (fuel : nat) (acc : string) (r : reader) : reader * outcome ioerr string :=
  match cut_at (chr 10) (buf r) with
  | Some (l, rest) => (with_buf rest (src r) r, Ok (strip_cr (acc +:+ l)))
  | None =>
      match fuel with
      | O => (r, Err (end_err r))
      | S fuel =>
          if bool_decide (bufsize ≤ String.length (buf r)) then
            let '(x, y) := keep_cr (buf r) in read_line fuel (acc +:+ x) (with_buf y (src r) r)
          else
            match fill r with
            | Some r => read_line fuel acc r
            | None =>
                if decide (buf r = "") then (r, Err (end_err r))
                else (with_buf "" (src r) r, Ok (acc +:+ buf r))
            end
      end
  end.

Definition ReadLine (r : reader) : reader * outcome ioerr string :=
  read_line (2 * String.length (flat r) + 1) "" r.

(** *** Header fields *)

(** [http.Header.Write]: newlines become spaces, and the ends are trimmed. *)
Fixpoint newline_to_space (v : string) : string :=
  match v with
  | EmptyString => EmptyString
  | String a v => String (if decide (a = chr 10 ∨ a = chr 13) then " "%char else a) (newline_to_space v)
  end.

Definition is_trimmed (a : ascii) : bool := bool_decide (byte a ∈ [32; 9; 10; 13]).
Fixpoint trim_start (v : string) : string :=
  match v with
  | String a v' => if is_trimmed a then trim_start v' else v
  | EmptyString => v
  end.
Definition TrimString (v : string) : string := rev_string (trim_start (rev_string (trim_start v))).
Definition clean (v : string) : string := TrimString (newline_to_space v).

Definition string_le (a b : string) : Prop := String.leb a b = true.
#[export] Instance string_le_dec a b : Decision (string_le a b).
Proof. unfold string_le. apply _. Defined.

(** The fields of [WriteSubset], by key. *)
Definition fields (h : header) (exclude : list string) : list (string * string) :=
  filter (λ k, k ∉ exclude) (merge_sort string_le (map_to_list h).*1)
    ≫= λ k, (λ v, (k, clean v)) <$> default [] (h !! k).

Definition field_text (f : string * string) : string := f.1 +:+ ": " +:+ f.2 +:+ Chunked.CRLF.
Definition fields_text (fs : list (string * string)) : string := foldr (λ f, String.append (field_text f)) "" fs.

(** The map that fields amount to: the values of a key in their order. *)
Definition header_of (fs : list (string * string)) : header :=
  foldr (λ f (h : header), <[f.1 := f.2 :: default [] (h !! f.1)]> h) ∅ fs.
End TextProto.

(** ** Errors *)
Inductive herr :=
| EText (e : string)
| EBad (what str : string)
| EIO (e : ioerr)
| ETransfer (e : Transfer.terr).

Module Message.
Import Transfer TextProto.

(** ** Requests *)

Inductive mform := ByReader | Form_ (Value : values) (File : gmap string (list string)).

Record Request := {
  rMethod : string;
  rURL : option URL;
  Proto : string;
  rMajor : Z;
  rMinor : Z;
  rHeader : option header;
  rBody : option obody;
  rContentLength : Z;
  rTransferEncoding : list string;
  rClose : bool;
  Host : string;
  Form : option values;
  PostForm : option values;
  MultipartForm : option mform;
  rTrailer : option (list (string * list string));
  RequestURI : string;
}.

Definition hget (h : option header) (k : string) : string := default "" ((λ h, Get h k) <$> h).

Definition with_rHeader (h : option header) (r : Request) : Request :=
  {| rMethod := rMethod r; rURL := rURL r; Proto := Proto r; rMajor := rMajor r; rMinor := rMinor r; rHeader := h;
     rBody := rBody r; rContentLength := rContentLength r; rTransferEncoding := rTransferEncoding r; rClose := rClose r;
     Host := Host r; Form := Form r; PostForm := PostForm r; MultipartForm := MultipartForm r; rTrailer := rTrailer r;
     RequestURI := RequestURI r |}.

(** [Header.Set]: on a nil map it panics. *)
Definition hset (k v : string) (r : Request) : outcome herr Request :=
  match rHeader r with None => Panic | Some h => Ok (with_rHeader (Some (<[k := [v]]> h)) r) end.

Definition ProtoAtLeast (r : Request) (major minor : Z) : bool :=
  (major <? rMajor r) || ((rMajor r =? major) && (minor <=? rMinor r)).

Definition UserAgent (r : Request) : string := hget (rHeader r) "User-Agent".
Definition Referer (r : Request) : string := hget (rHeader r) "Referer".
Definition Cookies (r : Request) : list (string * string) := Cookie.readCookies (default ∅ (rHeader r)) "".
Definition Cookie_named (r : Request) (name : string) : outcome herr (string * string) :=
  match Cookie.readCookies (default ∅ (rHeader r)) name with c :: _ => Ok c | [] => Err (EText "ErrNoCookie") end.

Definition AddCookie (name value : string) (r : Request) : outcome herr Request :=
  let s := Cookie.sanitizeCookieName name +:+ "=" +:+ Cookie.sanitizeCookieValue value in
  let c := hget (rHeader r) "Cookie" in
  hset "Cookie" (if decide (c = "") then s else c +:+ "; " +:+ s) r.

Definition valueOrDefault (value def : string) : string := if decide (value = "") then def else value.
Definition defaultUserAgent : string := "Go 1.1 package http".

Definition basicAuth (username password : string) : string := EncodeToString (username +:+ ":" +:+ password).
Definition SetBasicAuth (username password : string) (r : Request) : outcome herr Request :=
  hset "Authorization" ("Basic " +:+ basicAuth username password) r.

Definition expectsContinue (r : Request) : bool := Header.hasToken (hget (rHeader r) "Expect") "100-continue".
Definition wantsHttp10KeepAlive (r : Request) : bool :=
  if negb (rMajor r =? 1) || negb (rMinor r =? 0) then false
  else Header.hasToken (hget (rHeader r) "Connection") "keep-alive".
Definition wantsClose (r : Request) : bool := Header.hasToken (hget (rHeader r) "Connection") "close".

(** The number of a version's component. *)
Definition version_part (s : string) : option Z :=
  match ParseInt10 s with Some n => if (n <? 0) || (1000000 <? n) then None else Some n | None => None end.

Definition ParseHTTPVersion (vers : string) : option (Z * Z) :=
  if decide (vers = "HTTP/1.1") then Some (1, 1)
  else if decide (vers = "HTTP/1.0") then Some (1, 0)
  else if negb (String.prefix "HTTP/" vers) then None
  else
    '(major, minor) ← cut_at "." vers;
    major ← version_part (str_drop 5 major); minor ← version_part minor; Some (major, minor).

Definition parseRequestLine (line : string) : option (string * string * string) :=
  '(method, rest) ← cut_at " " line; '(uri, proto) ← cut_at " " rest; Some (method, uri, proto).

(** What [NewRequest] is given for a body: none, one that knows its length
    (a buffer or reader of bytes or of a string), or another. *)
Inductive body_arg := NilBody | SizedBody (b : obody) | OtherBody (b : obody).

Definition reqWriteExcludeHeader : list string := ["Host"; "User-Agent"; "Content-Length"; "Transfer-Encoding"; "Trailer"].

Definition fixPragmaCacheControl (h : header) : header :=
  match h !! "Pragma" with
  | Some (v :: _) =>
      if decide (v = "no-cache" ∧ h !! "Cache-Control" = None) then <["Cache-Control" := ["no-cache"]]> h else h
  | _ => h
  end.

Section messages.
Context `{!URLLib}.
Context (Canonical : string → string) (Sort : list string → list string).
Context (Trailer_Write : list (string * list string) → string).
Context (ReadMIMEHeader : Bufio.reader → Bufio.reader * outcome ioerr header).

Definition NewRequest (method urlStr : string) (body : body_arg) : outcome herr Request :=
  match url_Parse urlStr with
  | inl e => Err (EText e)
  | inr u =>
      Ok {| rMethod := method; rURL := Some u; Proto := "HTTP/1.1"; rMajor := 1; rMinor := 1; rHeader := Some ∅;
            rBody := match body with NilBody => None | SizedBody b | OtherBody b => Some b end;
            rContentLength := match body with SizedBody b => len (data b) | _ => 0 end;
            rTransferEncoding := []; rClose := false; Host := u_Host u; Form := None; PostForm := None;
            MultipartForm := None; rTrailer := None; RequestURI := "" |}
  end.

(** The request as the writer of bodies takes it. *)
Definition out_request (r : Request) : out_msg :=
  {| is_request := true; o_Method := rMethod r; o_Body := rBody r; o_ContentLength := rContentLength r; o_Close := rClose r;
     o_TransferEncoding := rTransferEncoding r; o_Trailer := rTrailer r; ProtoMajor := rMajor r; ProtoMinor := rMinor r |}.

(** The target of the request line. *)
Definition target (r : Request) (u : URL) (host : string) (usingProxy : bool) : string :=
  let ruri := url_RequestURI u in
  if usingProxy && negb (bool_decide (Scheme u = "")) && bool_decide (Opaque u = "") then
    Scheme u +:+ "://" +:+ host +:+ ruri
  else if bool_decide (rMethod r = "CONNECT") && bool_decide (Path u = "") then host else ruri.

Definition user_agent (r : Request) : string :=
  match rHeader r ≫= λ h, h !! "User-Agent" with Some (ua :: _) => ua | _ => defaultUserAgent end.

(** The fields before those of the body. *)
Definition first_fields (r : Request) (host : string) : list (string * string) :=
  ("Host", host) :: (if decide (user_agent r = "") then [] else [("User-Agent", user_agent r)]).

(** [write]: what is handed to the writer, also when it fails. *)
Definition write (r : Request) (usingProxy : bool) (extraHeaders : option header) : string * outcome herr unit :=
  let host := if decide (Host r = "") then default "" (u_Host <$> rURL r) else Host r in
  if decide (Host r = "" ∧ rURL r = None) then
    ("", Err (EText "http: Request.Write on Request with no Host or URL set"))
  else
    match rURL r with
    | None => ("", Panic)
    | Some u =>
        let line := valueOrDefault (rMethod r) "GET" +:+ " " +:+ target r u host usingProxy +:+ " HTTP/1.1" +:+ Chunked.CRLF in
        let text := line +:+ fields_text (first_fields r host) in
        match newTransferWriter (out_request r) with
        | Err e => (text, Err (ETransfer e))
        | Panic => (text, Panic)
        | Ok tw =>
            match WriteHeader Canonical Sort tw with
            | Err e => (text, Err (ETransfer e))
            | Panic => (text, Panic)
            | Ok fs =>
                let text := text +:+ fields_text fs +:+ fields_text (fields (default ∅ (rHeader r)) reqWriteExcludeHeader)
                              +:+ fields_text (default [] ((λ h, fields h []) <$> extraHeaders)) +:+ Chunked.CRLF in
                let '(body, err) := WriteBody Trailer_Write tw in
                (text +:+ body, match err with Some e => Err (ETransfer e) | None => Ok () end)
            end
        end
    end.

Definition Write (r : Request) : string * outcome herr unit := write r false None.
Definition WriteProxy (r : Request) : string * outcome herr unit := write r true None.

(** [EOF] after the first line is unexpected. *)
Definition unexpected (e : ioerr) : ioerr := if decide (e = EOF) then ErrUnexpectedEOF else e.

(** A request read: it and the body set up for it. *)
Record in_request := { q_Request : Request; q_transfer : transferResult }.

Definition received (method uri proto : string) (major minor : Z) (u : URL) (host : string) (t : transferResult) : in_request :=
  {| q_Request :=
       {| rMethod := method; rURL := Some u; Proto := proto; rMajor := major; rMinor := minor;
          rHeader := Some (t_Header t); rBody := None; rContentLength := t_ContentLength t;
          rTransferEncoding := t_TransferEncoding t; rClose := t_Close t; Host := host;
          Form := None; PostForm := None; MultipartForm := None;
          rTrailer := map (λ k, (k, [])) <$> t_Trailer t; RequestURI := uri |};
     q_transfer := t |}.

Definition ReadRequest (b : Bufio.reader) : Bufio.reader * outcome herr in_request :=
  match ReadLine b with
  | (b, Err e) => (b, Err (EIO e))
  | (b, Panic) => (b, Panic)
  | (b, Ok s) =>
      match parseRequestLine s with
      | None => (b, Err (EBad "malformed HTTP request" s))
      | Some (method, uri, proto) =>
          match ParseHTTPVersion proto with
          | None => (b, Err (EBad "malformed HTTP version" proto))
          | Some (major, minor) =>
              let justAuthority := bool_decide (method = "CONNECT") && negb (String.prefix "/" uri) in
              match url_ParseRequestURI (if justAuthority then "http://" +:+ uri else uri) with
              | inl e => (b, Err (EText e))
              | inr u =>
                  let u := if justAuthority
                           then {| Scheme := ""; Opaque := Opaque u; User := User u; u_Host := u_Host u; Path := Path u;
                                   RawQuery := RawQuery u; Fragment := Fragment u |} else u in
                  match ReadMIMEHeader b with
                  | (b, Err e) => (b, Err (EIO (unexpected e)))
                  | (b, Panic) => (b, Panic)
                  | (b, Ok h) =>
                      let host := if decide (u_Host u = "") then Get h "Host" else u_Host u in
                      let h := fixPragmaCacheControl (delete "Host" h) in
                      match readTransfer Canonical {| isResponse := false; i_Header := h; StatusCode := 0;
                                                      RequestMethod := None; i_Major := major; i_Minor := minor |} with
                      | Err e => (b, Err (ETransfer e))
                      | Panic => (b, Panic)
                      | Ok t =>
                          (b, Ok (received method uri proto major minor u host t))
                      end
                  end
              end
          end
      end
  end.
End messages.

(** ** Responses *)

Definition respExcludeHeader : list string := ["Content-Length"; "Transfer-Encoding"; "Trailer"].

Record Response := {
  Status : string;
  sCode : Z;
  sProto : string;
  sMajor : Z;
  sMinor : Z;
  sHeader : header;
  sBody : option obody;           (** of a response to be written *)
  sContentLength : Z;
  sTransferEncoding : list string;
  sClose : bool;
  sTrailer : option (list (string * list string));
  sRequest : option Request;
}.

Definition resp_Cookies (Parse_RFC1123 Parse_dashed : string → option Z) (r : Response) : list Cookie.Cookie :=
  Cookie.readSetCookies Parse_RFC1123 Parse_dashed (sHeader r).

Definition resp_ProtoAtLeast (r : Response) (major minor : Z) : bool :=
  (major <? sMajor r) || ((sMajor r =? major) && (minor <=? sMinor r)).

(** [strings.SplitN(line, " ", 3)] *)
Definition split3 (line : string) : list string :=
  match cut_at " " line with
  | None => [line]
  | Some (a, rest) => match cut_at " " rest with None => [a; rest] | Some (b, c) => [a; b; c] end
  end.

(** [strings.TrimPrefix] *)
Definition TrimPrefix (s p : string) : string := if String.prefix p s then str_drop (String.length p) s else s.

Section responses.
Context `{!URLLib}.
Context (Canonical : string → string) (Sort : list string → list string).
Context (Trailer_Write : list (string * list string) → string).
Context (ReadMIMEHeader : Bufio.reader → Bufio.reader * outcome ioerr header).
Context (StatusText : Z → string).

Definition Location (r : Response) : outcome herr URL :=
  let lv := Get (sHeader r) "Location" in
  if decide (lv = "") then Err (EText "ErrNoLocation")
  else
    match (match sRequest r ≫= rURL with Some u => url_Resolve u lv | None => url_Parse lv end) with
    | inr u => Ok u
    | inl e => Err (EText e)
    end.

(** A response read: it and the body set up for it. *)
Record in_response := { p_Response : Response; p_transfer : transferResult }.

Definition ReadResponse (r : Bufio.reader) (req : option Request) : Bufio.reader * outcome herr in_response :=
  match ReadLine r with
  | (r, Err e) => (r, Err (EIO (unexpected e)))
  | (r, Panic) => (r, Panic)
  | (r, Ok line) =>
      match split3 line with
      | proto :: code :: f =>
          match ParseInt10 code with
          | None => (r, Err (EBad "malformed HTTP status code" code))
          | Some n =>
              match ParseHTTPVersion proto with
              | None => (r, Err (EBad "malformed HTTP version" proto))
              | Some (major, minor) =>
                  match ReadMIMEHeader r with
                  | (r, Err e) => (r, Err (EIO (unexpected e)))
                  | (r, Panic) => (r, Panic)
                  | (r, Ok h) =>
                      match readTransfer Canonical {| isResponse := true; i_Header := fixPragmaCacheControl h; StatusCode := n;
                                                      RequestMethod := rMethod <$> req; i_Major := major; i_Minor := minor |} with
                      | Err e => (r, Err (ETransfer e))
                      | Panic => (r, Panic)
                      | Ok t =>
                          (r, Ok {| p_Response :=
                                      {| Status := code +:+ " " +:+ default "" (head f); sCode := n; sProto := proto;
                                         sMajor := major; sMinor := minor; sHeader := t_Header t; sBody := None;
                                         sContentLength := t_ContentLength t; sTransferEncoding := t_TransferEncoding t;
                                         sClose := t_Close t; sTrailer := map (λ k, (k, [])) <$> t_Trailer t; sRequest := req |};
                                    p_transfer := t |})
                      end
                  end
              end
          end
      | _ => (r, Err (EBad "malformed HTTP response" line))
      end
  end.

(** One read of the first byte: no byte and no error counts as no body. *)
Definition probe_once (b : obody) : outcome herr (option obody) :=
  match reads b with
  | [] => match b_end b with Some e => Err (EText e) | None => Ok None end
  | EmptyString :: _ => Ok None
  | String a s :: rs =>
      Ok (Some {| reads := String a "" :: (if decide (s = "") then rs else s :: rs); b_end := b_end b; b_close := b_close b |})
  end.

Definition empty_body : obody := {| reads := []; b_end := None; b_close := None |}.

Definition status_line (r : Response) : string :=
  let text := if decide (Status r = "") then
                let t := StatusText (sCode r) in if decide (t = "") then "status code " +:+ FormatInt (sCode r) else t
              else Status r in
  let code := FormatInt (sCode r) +:+ " " in
  "HTTP/" +:+ FormatInt (sMajor r) +:+ "." +:+ FormatInt (sMinor r) +:+ " " +:+ code +:+ TrimPrefix text code +:+ Chunked.CRLF.

(** The body and length that are sent. *)
Definition response_body (r : Response) : outcome herr (option obody * Z) :=
  match sBody r with
  | Some b =>
      if decide (sContentLength r = 0) then
        p ← probe_once b; mret (match p with None => (Some empty_body, 0) | Some b => (Some b, -1) end)
      else mret (Some b, sContentLength r)
  | None => mret (None, sContentLength r)
  end.

Definition resp_Write (r : Response) : string * outcome herr unit :=
  let line := status_line r in
  match response_body r with
  | Err e => (line, Err e)
  | Panic => (line, Panic)
  | Ok (body, cl) =>
      let close := if (cl =? -1) && negb (sClose r) && resp_ProtoAtLeast r 1 1 && negb (chunked (sTransferEncoding r))
                   then true else sClose r in
      match newTransferWriter
              {| is_request := false; o_Method := default "" (rMethod <$> sRequest r); o_Body := body; o_ContentLength := cl;
                 o_Close := close; o_TransferEncoding := sTransferEncoding r; o_Trailer := sTrailer r;
                 ProtoMajor := sMajor r; ProtoMinor := sMinor r |} with
      | Err e => (line, Err (ETransfer e))
      | Panic => (line, Panic)
      | Ok tw =>
          match WriteHeader Canonical Sort tw with
          | Err e => (line, Err (ETransfer e))
          | Panic => (line, Panic)
          | Ok fs =>
              let zero := if (cl =? 0) && negb (chunked (sTransferEncoding r)) && negb (shouldSendContentLength tw)
                          then [("Content-Length", "0")] else [] in
              let text := line +:+ fields_text fs +:+ fields_text (fields (sHeader r) respExcludeHeader)
                            +:+ fields_text zero +:+ Chunked.CRLF in
              let '(body, err) := WriteBody Trailer_Write tw in
              (text +:+ body, match err with Some e => Err (ETransfer e) | None => Ok () end)
          end
      end
  end.
End responses.

(** ** The limit on a body *)
Section limit.
Context {R : Type} (Read : nat → R → R * string * option ioerr) (Close_ : R → R * option ioerr).

Record maxBytesReader := { l_r : R; l_n : Z; stopped : bool }.

Inductive max_err := TooLarge | Below (e : ioerr).

Definition max_Read (n : nat) (l : maxBytesReader) : maxBytesReader * string * option max_err :=
  if l_n l <=? 0 then ({| l_r := l_r l; l_n := l_n l; stopped := true |}, "", Some TooLarge)
  else
    let n := if l_n l <? Z.of_nat n then Z.to_nat (l_n l) else n in
    let '(r, x, e) := Read n (l_r l) in
    ({| l_r := r; l_n := l_n l - len x; stopped := stopped l |}, x, Below <$> e).

Definition max_Close (l : maxBytesReader) : maxBytesReader * option ioerr :=
  let '(r, e) := Close_ (l_r l) in ({| l_r := r; l_n := l_n l; stopped := stopped l |}, e).
End limit.

(** ** Forms *)
Section forms.
Context `{!URLLib}.
(** [mime.ParseMediaType]: a type, its parameters and an error; the
    multipart reader's form. *)
Context (ParseMediaType : string → string * gmap string string * option string).
Context (ReadForm : obody → string → Z → outcome herr (values * gmap string (list string))).

Definition add_values (dst src : values) : values := union_with (λ a b, Some (a ++ b)) dst src.
Definition copyValues (dst src : values) : values := add_values dst src.

Definition maxFormSize : Z := Z.shiftl 10 20.

(** [parsePostForm]: the values, nil or not, and the error. The body is
    [*maxBytesReader] or not. *)
Definition parsePostForm (is_max : bool) (r : Request) : option values * option string :=
  match rBody r with
  | None => (None, Some "missing form body")
  | Some b =>
      let ct := hget (rHeader r) "Content-Type" in
      let ct := if decide (ct = "") then "application/octet-stream" else ct in
      let '(ct, _, err) := ParseMediaType ct in
      if decide (ct = "application/x-www-form-urlencoded") then
        let d := data b in
        if negb is_max && (maxFormSize <? len d) then (None, Some "http: POST too large")
        else
          match b_end b with
          | Some e => (None, Some (default e err))
          | None =>
              let '(vs, e) := url_ParseQuery d in
              (Some vs, match err with Some e => Some e | None => e end)
          end
      else (None, err)
  end.

Definition with_forms (form post : option values) (mf : option mform) (r : Request) : Request :=
  {| rMethod := rMethod r; rURL := rURL r; Proto := Proto r; rMajor := rMajor r; rMinor := rMinor r; rHeader := rHeader r;
     rBody := rBody r; rContentLength := rContentLength r; rTransferEncoding := rTransferEncoding r; rClose := rClose r;
     Host := Host r; Form := form; PostForm := post; MultipartForm := mf; rTrailer := rTrailer r; RequestURI := RequestURI r |}.

Definition ParseForm (is_max : bool) (r : Request) : Request * option string :=
  let '(post, err) :=
    match PostForm r with
    | Some vs => (vs, None)
    | None =>
        let '(vs, err) := if decide (rMethod r = "POST" ∨ rMethod r = "PUT" ∨ rMethod r = "PATCH")
                          then parsePostForm is_max r else (None, None) in
        (default ∅ vs, err)
    end in
  match Form r with
  | Some f => (with_forms (Some f) (Some post) (MultipartForm r) r, err)
  | None =>
      let '(new, e) := match rURL r with Some u => url_ParseQuery (RawQuery u) | None => (∅, None) end in
      let err := match err with Some e => Some e | None => e end in
      let form := if decide (post = ∅) then new else copyValues (copyValues ∅ post) new in
      (with_forms (Some form) (Some post) (MultipartForm r) r, err)
  end.

Definition multipart_boundary (r : Request) : outcome herr string :=
  let v := hget (rHeader r) "Content-Type" in
  if decide (v = "") then Err (EText "ErrNotMultipart")
  else
    let '(d, params, err) := ParseMediaType v in
    if decide (err ≠ None ∨ d ≠ "multipart/form-data") then Err (EText "ErrNotMultipart")
    else match params !! "boundary" with None => Err (EText "ErrMissingBoundary") | Some b => Ok b end.

Definition MultipartReader (r : Request) : Request * outcome herr string :=
  match MultipartForm r with
  | Some ByReader => (r, Err (EText "http: MultipartReader called twice"))
  | Some _ => (r, Err (EText "http: multipart handled by ParseMultipartForm"))
  | None => let r := with_forms (Form r) (PostForm r) (Some ByReader) r in (r, multipart_boundary r)
  end.

Definition ParseMultipartForm (is_max : bool) (maxMemory : Z) (r : Request) : Request * outcome herr unit :=
  match MultipartForm r with
  | Some ByReader => (r, Err (EText "http: multipart handled by MultipartReader"))
  | mf =>
      let '(r, err) := match Form r with None => ParseForm is_max r | Some _ => (r, None) end in
      match err with
      | Some e => (r, Err (EText e))
      | None =>
          match mf with
          | Some _ => (r, Ok ())
          | None =>
              match multipart_boundary r with
              | Err e => (r, Err e)
              | Panic => (r, Panic)
              | Ok boundary =>
                  match ReadForm (default {| reads := []; b_end := None; b_close := None |} (rBody r)) boundary maxMemory with
                  | Err e => (r, Err e)
                  | Panic => (r, Panic)
                  | Ok (vs, files) =>
                      (with_forms ((λ f, add_values f vs) <$> Form r) (PostForm r) (Some (Form_ vs files)) r, Ok ())
                  end
              end
          end
      end
  end.

Definition defaultMaxMemory : Z := Z.shiftl 32 20.
Definition first_value (vs : option values) (key : string) : string := default "" (vs ≫= λ vs, vs !! key ≫= head).

Definition FormValue (is_max : bool) (key : string) (r : Request) : Request * string :=
  let r := match Form r with None => (ParseMultipartForm is_max defaultMaxMemory r).1 | Some _ => r end in
  (r, first_value (Form r) key).
Definition PostFormValue (is_max : bool) (key : string) (r : Request) : Request * string :=
  let r := match PostForm r with None => (ParseMultipartForm is_max defaultMaxMemory r).1 | Some _ => r end in
  (r, first_value (PostForm r) key).

(** The name of the file found; opening it is the multipart reader's. *)
Definition FormFile (is_max : bool) (key : string) (r : Request) : Request * outcome herr string :=
  let find r := match MultipartForm r with
                | Some (Form_ _ files) => match files !! key with Some (f :: _) => Ok f | _ => Err (EText "ErrMissingFile") end
                | _ => Err (EText "ErrMissingFile") end in
  match MultipartForm r with
  | Some ByReader => (r, Err (EText "http: multipart handled by MultipartReader"))
  | None =>
      match ParseMultipartForm is_max defaultMaxMemory r with
      | (r, Err e) => (r, Err e)
      | (r, Panic) => (r, Panic)
      | (r, Ok _) => (r, find r)
      end
  | Some _ => (r, find r)
  end.
End forms.
End Message.

Module MessageProps.
Import Bufio Chunked ChunkedProps Body BodyProps Transfer TransferProps TextProto Message.
Local Close Scope Z_scope.

(** *** Reading a line *)

Lemma keep_cr_spec s x y :
  keep_cr s = (x, y) → s = x +:+ y ∧ (y = "" ∨ y = String (chr 13) "").
Proof.
  revert x y. induction s as [|a s IH]; intros x y; [intros [= <- <-]; auto|]. cbn [keep_cr].
  destruct s as [|b s].
  - case_decide; intros [= <- <-]; subst; auto.
  - destruct (keep_cr (String b s)) as [x' y'] eqn:E. intros [= <- <-]. destruct (IH _ _ eq_refl) as [-> Hy].
    by rewrite str_app_cons.
Qed.

Lemma in_string_false_app c s1 s2 : in_string c (s1 +:+ s2) = false ↔ in_string c s1 = false ∧ in_string c s2 = false.
Proof. by rewrite in_string_app, orb_false_iff. Qed.

Lemma cut_at_skip c s1 s2 l rest :
  in_string c s1 = false → cut_at c (s1 +:+ s2) = Some (l, rest) → ∃ l', l = s1 +:+ l' ∧ cut_at c s2 = Some (l', rest).
Proof.
  revert l. induction s1 as [|a s1 IH]; intros l Hs; [rewrite !str_app_nil; eauto|].
  rewrite str_app_cons. cbn in Hs |- *. apply orb_false_iff in Hs as [Ha Hs]. apply bool_decide_eq_false in Ha.
  rewrite decide_False by done. destruct (cut_at c (s1 +:+ s2)) as [[l0 r0]|] eqn:E; [|done]. intros [= <- <-].
  destruct (IH l0 Hs eq_refl) as (l' & -> & Hc). exists l'. by rewrite str_app_cons.
Qed.

Lemma read_line_spec fuel acc r l rest :
  wf r → 2 * String.length (foldr String.append "" (src r)) + String.length (buf r) < fuel →
  cut_at (chr 10) (flat r) = Some (l, rest) →
  ∃ r', read_line fuel acc r = (r', Ok (strip_cr (acc +:+ l))) ∧ wf r' ∧ flat r' = rest ∧ end_err r' = end_err r.
Proof.
  revert acc r l. induction fuel as [|fuel IH]; intros acc r l Hwf Hfuel Hcut; [lia|]. cbn [read_line].
  destruct (cut_at (chr 10) (buf r)) as [[l' rest']|] eqn:Eb.
  - pose proof (cut_at_prefix _ _ (foldr String.append "" (src r)) _ _ Eb) as Hc. unfold flat in Hcut.
    rewrite Hcut in Hc. injection Hc as -> ->. eexists. split; [done|]. destruct Hwf as [Hs Hl]. split; [|done].
    split; [done|]. cbn. apply cut_at_length in Eb. lia.
  - apply cut_at_None in Eb. destruct (bool_decide (bufsize ≤ String.length (buf r))) eqn:Efull.
    + apply bool_decide_eq_true in Efull. destruct (keep_cr (buf r)) as [x y] eqn:Ek.
      apply keep_cr_spec in Ek as [Ek Hy].
      assert (String.length y ≤ 1) as Hyl by (destruct Hy as [-> | ->]; cbn; lia).
      assert (0 < String.length x) as Hxl by (rewrite Ek, length_str_app in Efull; unfold bufsize in Efull; lia).
      unfold flat in Hcut. rewrite Ek, <- str_app_assoc in Hcut. rewrite Ek in Eb. apply in_string_false_app in Eb as [Ex Ey].
      destruct (cut_at_skip _ _ _ _ _ Ex Hcut) as (l' & -> & Hc).
      destruct (IH (acc +:+ x) (with_buf y (src r) r) l') as (r' & Hr & Hwf' & Hfl & He).
      * destruct Hwf. split; cbn; [done|unfold bufsize; lia].
      * cbn. rewrite Ek, length_str_app in Hfuel. lia.
      * exact Hc.
      * exists r'. rewrite Hr. by rewrite str_app_assoc.
    + apply bool_decide_eq_false in Efull. pose proof (fill_reads r Hwf ltac:(lia)) as Hf.
      destruct (fill r) as [r1|] eqn:E1.
      * destruct Hf as (Hwf1 & Hfl1 & He1 & x & Hx & Hb1).
        destruct (IH acc r1 l Hwf1) as (r' & Hr & Hwf' & Hfl & He); [|by rewrite Hfl1|].
        { assert (String.length (flat r1) = String.length (flat r)) as Hll by (by rewrite Hfl1).
          unfold flat in Hll. rewrite !length_str_app in Hll. rewrite Hb1, length_str_app in Hll |- *.
          apply length_pos in Hx. lia. }
        exists r'. split; [exact Hr|]. split; [done|]. split; [done|]. congruence.
      * rewrite Hf in Hcut. apply cut_at_None in Eb. congruence.
Qed.

Lemma strip_cr_line l : strip_cr (l +:+ String (chr 13) "") = l.
Proof.
  induction l as [|a l IH]; [done|]. rewrite str_app_cons. cbn [strip_cr].
  destruct (l +:+ String (chr 13) "") as [|b s] eqn:E; [by destruct l|]. by rewrite IH.
Qed.

(** A line with its ending is read, and what follows is left. *)
Lemma ReadLine_line r l rest :
  wf r → in_string (chr 10) l = false → flat r = l +:+ CRLF +:+ rest →
  ∃ r', ReadLine r = (r', Ok l) ∧ wf r' ∧ flat r' = rest.
Proof.
  intros Hwf Hl Hf. unfold ReadLine.
  destruct (read_line_spec (2 * String.length (flat r) + 1) "" r (l +:+ String (chr 13) "") rest Hwf) as (r' & Hr & Hwf' & Hfl & _).
  - unfold flat. rewrite length_str_app. lia.
  - rewrite Hf. unfold CRLF. rewrite !str_app_cons, str_app_nil.
    replace (l +:+ String (chr 13) (String (chr 10) rest)) with ((l +:+ String (chr 13) "") +:+ String (chr 10) rest)
      by (by rewrite <- str_app_assoc, str_app_cons, str_app_nil).
    apply cut_at_app. by rewrite in_string_app, Hl.
  - exists r'. rewrite Hr, str_app_nil, strip_cr_line. done.
Qed.

(** *** Fields and the map they amount to *)

Lemma header_of_lookup fs k :
  header_of fs !! k = match filter (λ f, f.1 = k) fs with [] => None | vs => Some vs.*2 end.
Proof.
  induction fs as [|[k' v] fs IH]; [done|]. unfold header_of in *. cbn [foldr].
  rewrite filter_cons. cbn [fst snd]. destruct (decide (k' = k)) as [->|Hne].
  - rewrite lookup_insert_eq, IH. by destruct (filter _ fs).
  - by rewrite lookup_insert_ne.
Qed.

Lemma header_of_skip fs1 fs2 k :
  k ∉ fs1.*1 → header_of (fs1 ++ fs2) !! k = header_of fs2 !! k.
Proof.
  intros Hk. rewrite !header_of_lookup, filter_app.
  assert (filter (λ f, f.1 = k) fs1 = []) as ->; [|done].
  induction fs1 as [|f fs1 IH]; [done|]. rewrite filter_cons. cbn in Hk. apply not_elem_of_cons in Hk as [Hne Hk].
  rewrite decide_False by done. by apply IH.
Qed.

Lemma header_of_skip_r fs1 fs2 k :
  k ∉ fs2.*1 → header_of (fs1 ++ fs2) !! k = header_of fs1 !! k.
Proof.
  intros Hk. rewrite !header_of_lookup, filter_app.
  assert (filter (λ f, f.1 = k) fs2 = []) as ->; [|by rewrite app_nil_r].
  induction fs2 as [|f fs2 IH]; [done|]. rewrite filter_cons. cbn in Hk. apply not_elem_of_cons in Hk as [Hne Hk].
  rewrite decide_False by done. by apply IH.
Qed.

(** An excluded key is not written. *)
Lemma fields_excluded h ex k : k ∈ ex → k ∉ (fields h ex).*1.
Proof.
  intros Hk Hin. apply list_elem_of_fmap in Hin as ([k' v] & -> & Hin). unfold fields in Hin.
  apply list_elem_of_bind in Hin as (k2 & Hin & Hk2). apply list_elem_of_filter in Hk2 as [Hex _].
  apply list_elem_of_fmap in Hin as (v2 & [= <- _] & _). done.
Qed.

(** The announced framing is in the map of everything that is sent. *)
Lemma WriteHeader_header_of Canonical Sort t fs k :
  Trailer t = None → WriteHeader Canonical Sort t = Ok fs → header_of fs !! k = as_header fs !! k.
Proof.
  intros Htr H. unfold WriteHeader in H. rewrite Htr in H. injection H as <-.
  assert (∀ f : string * string, header_of [f] !! k = as_header [f] !! k) as H1.
  { intros [k' v]. rewrite header_of_lookup, as_header_lookup, filter_cons. cbn. by destruct (decide (k' = k)). }
  assert (∀ f : string * string, f.1 ≠ "Connection" →
    header_of [("Connection", "close"); f] !! k = as_header [("Connection", "close"); f] !! k) as H2.
  { intros [k' v] Hne. cbn in Hne. rewrite header_of_lookup, as_header_lookup, !filter_cons. cbn.
    destruct (decide ("Connection" = k)) as [<-|]; [by rewrite decide_False by done|].
    by destruct (decide (k' = k)). }
  destruct (Close t), (shouldSendContentLength t), (chunked (TransferEncoding t)); cbn [app];
    lazymatch goal with |- header_of [_; _] !! _ = _ => by apply H2 | |- header_of [_] !! _ = _ => apply H1 | _ => done end.
Qed.

Lemma fixPragma_lookup h k : k ≠ "Cache-Control" → fixPragmaCacheControl h !! k = h !! k.
Proof.
  intros Hk. unfold fixPragmaCacheControl. destruct (h !! "Pragma") as [[|v vs]|]; [done| |done].
  case_decide; [|done]. by rewrite lookup_insert_ne.
Qed.

Lemma fields_text_app fs1 fs2 : fields_text (fs1 ++ fs2) = fields_text fs1 +:+ fields_text fs2.
Proof.
  induction fs1 as [|f fs1 IH]; cbn [app foldr fields_text]; [by rewrite str_app_nil|].
  unfold fields_text in *. cbn [foldr]. by rewrite IH, str_app_assoc.
Qed.

Section roundtrip.
Context `{!URLLib}.
Context (Canonical : string → string) (Sort : list string → list string).
Context (Trailer_Write : list (string * list string) → string).
Context (ReadMIMEHeader : reader → reader * outcome ioerr header).

Definition request_host (r : Request) (u : URL) : string := if decide (Host r = "") then u_Host u else Host r.

(** All the fields a request is written with, in order. *)
Definition sent_fields (r : Request) (u : URL) (fs : list (string * string)) : list (string * string) :=
  first_fields r (request_host r u) ++ fs ++ fields (default ∅ (rHeader r)) reqWriteExcludeHeader.

Lemma write_parts r u wire :
  rURL r = Some u → write Canonical Sort Trailer_Write r false None = (wire, Ok ()) →
  ∃ tw fs body, newTransferWriter (out_request r) = Ok tw ∧ WriteHeader Canonical Sort tw = Ok fs ∧
    WriteBody Trailer_Write tw = (body, None) ∧
    wire = (valueOrDefault (rMethod r) "GET" +:+ " " +:+ target r u (request_host r u) false +:+ " HTTP/1.1") +:+ CRLF +:+
           fields_text (sent_fields r u fs) +:+ CRLF +:+ body.
Proof.
  intros Hu. unfold write. rewrite Hu. cbn [fmap option_fmap default].
  destruct (decide (Host r = "" ∧ Some u = None)) as [[_ ?]|_]; [done|].
  fold (request_host r u). change (default "" (option_map u_Host (Some u))) with (u_Host u). fold (request_host r u).
  destruct (newTransferWriter (out_request r)) as [tw| |]; [|done..].
  destruct (WriteHeader Canonical Sort tw) as [fs| |] eqn:Ew; [|done..].
  destruct (WriteBody Trailer_Write tw) as [body [e|]] eqn:Eb; [done|]. intros [= <-].
  exists tw, fs, body. split_and!; [done..|]. unfold sent_fields.
  rewrite !fields_text_app. change (fields_text []) with "". rewrite str_app_nil.
  
  assert (fields_text (first_fields r (request_host r u)) = field_text ("Host", request_host r u) +:+
    fields_text (if decide (user_agent r = "") then [] else [("User-Agent", user_agent r)])) as -> by done.
  by rewrite <- !str_app_assoc.
Qed.

Lemma parseRequestLine_parts m t proto :
  in_string " " m = false → in_string " " t = false →
  parseRequestLine (m +:+ " " +:+ t +:+ " " +:+ proto) = Some (m, t, proto).
Proof.
  intros Hm Ht. unfold parseRequestLine.
  assert (∀ s x, s +:+ " " +:+ x = s +:+ String " " x) as Hsp by (intros; by rewrite str_app_cons, str_app_nil).
  rewrite !Hsp. rewrite cut_at_app by done. cbn [mbind option_bind]. by rewrite cut_at_app.
Qed.

Lemma readTransfer_header m t k :
  isResponse m = false → readTransfer Canonical m = Ok t → k ∉ framing_fields → t_Header t !! k = i_Header m !! k.
Proof.
  intros Hreq HT Hk. unfold readTransfer in HT. rewrite Hreq in HT. cbn [andb] in HT.
  unfold framing_fields in Hk. rewrite !not_elem_of_cons in Hk. destruct Hk as (Hte & Hcl & Htr & _).
  destruct (fixTransferEncoding (i_Header m)) as [h1 te] eqn:E1.
  assert (h1 !! k = i_Header m !! k) as Hh1.
  { unfold fixTransferEncoding in E1. destruct (i_Header m !! "Transfer-Encoding") as [[|raw vs]|]; [by injection E1 as <- _| |by injection E1 as <- _].
    destruct (read_encodings _) as [[|e [|e' es]]| |]; injection E1 as <- _; by rewrite ?lookup_delete_ne by done. }
  destruct te as [te| |]; [|done..]. cbn [mbind outcome_bind] in HT.
  destruct (fixLength false 200 "GET" h1 te) as [h2 rl] eqn:E2.
  assert (h2 !! k = h1 !! k) as Hh2.
  { change (fixLength false 200 "GET" h1 te) with
      (if chunked te then (h1, Ok (-1)%Z)
       else if decide (TrimSpace (Get h1 "Content-Length") ≠ "")
            then (h1, parseContentLength (TrimSpace (Get h1 "Content-Length")))
            else (delete "Content-Length" h1, Ok 0%Z)) in E2.
    destruct (chunked te); [by injection E2 as <- _|]. destruct (decide _); injection E2 as <- _; [done|].
    by rewrite lookup_delete_ne by done. }
  destruct rl as [rl| |]; [|done..]. cbn [mbind outcome_bind mret outcome_ret] in HT.
  destruct (fixTrailer Canonical h2 te) as [h3 tr] eqn:E3.
  assert (h3 !! k = h2 !! k) as Hh3.
  { unfold fixTrailer in E3. destruct (decide _); [by injection E3 as <- _|].
    destruct (trailer_keys _ _) as [[|? ?]| |], (chunked te); injection E3 as <- _; by rewrite lookup_delete_ne by done. }
  destruct tr as [tr| |]; [|done..]. injection HT as <-. cbn. congruence.
Qed.

(** C34: A request written is the request that is read, if its method and its
    target have neither a space nor a newline, a CONNECT names a target that
    begins with a slash, its version is HTTP/1.1 or higher, it has no trailer and no encoding but chunks, and its
    lengths fit 63 bits (64 for a chunk). Whatever way the connection cuts it
    into segments, reading what a client writes for such a request gives back
    its method, its target, HTTP/1.1, the host it names (unless the target is
    an absolute URL that names one) and, for every key that the framing of
    bodies does not use, the fields that were sent; and a reader of the body
    set up then gets exactly the data of the request's body and the end, with
    the bytes that follow left for the next request. The reader of MIME headers
    is assumed to read this request's fields back, and the URL library to
    accept the target. *)
Theorem request_wire_roundtrip r u u' wire b rest :
  rURL r = Some u → plain_framing (out_request r) → (rContentLength r < 2 ^ 63)%Z →
  (∀ tw b, newTransferWriter (out_request r) = Ok tw → Transfer.Body tw = Some b → Forall (λ w, (len w < 2 ^ 64)%Z) (reads b)) →
  let m := valueOrDefault (rMethod r) "GET" in
  let uri := target r u (request_host r u) false in
  in_string " " m = false → in_string (chr 10) m = false → in_string " " uri = false → in_string (chr 10) uri = false →
  (m = "CONNECT" → String.prefix "/" uri = true) → url_ParseRequestURI uri = inr u' →
  (∀ fs b rest, newTransferWriter (out_request r) ≫= WriteHeader Canonical Sort = Ok fs →
     wf b → flat b = fields_text (sent_fields r u fs) +:+ CRLF +:+ rest →
     ∃ b', ReadMIMEHeader b = (b', Ok (header_of (sent_fields r u fs))) ∧ wf b' ∧ flat b' = rest) →
  write Canonical Sort Trailer_Write r false None = (wire, Ok ()) →
  wf b → flat b = wire +:+ rest →
  ∃ b' q fs, ReadRequest Canonical ReadMIMEHeader b = (b', Ok q) ∧
    rMethod (q_Request q) = m ∧ RequestURI (q_Request q) = uri ∧ rURL (q_Request q) = Some u' ∧
    rMajor (q_Request q) = 1%Z ∧ rMinor (q_Request q) = 1%Z ∧
    Host (q_Request q) = (if decide (u_Host u' = "") then request_host r u else u_Host u') ∧
    newTransferWriter (out_request r) ≫= WriteHeader Canonical Sort = Ok fs ∧
    (∀ k, k ∉ "Host" :: "Cache-Control" :: framing_fields → default ∅ (rHeader (q_Request q)) !! k = header_of (sent_fields r u fs) !! k) ∧
    ∀ RMH n, 0 < n → ∃ r', copy_body RMH (t_Body (q_transfer q)) n b' = (r', sent_data (out_request r), Some EOF) ∧ flat r' = rest.
Proof.
  intros Hu Hplain Hlen Hbound m uri Hm1 Hm2 Hu1 Hu2 Hconn Hparse Hmime Hwrite Hwf Hflat.
  destruct (write_parts r u wire Hu Hwrite) as (tw & fs & body & Htw & HwH & HwB & ->). fold m uri in Hflat.
  rewrite <- !str_app_assoc in Hflat.
  destruct (ReadLine_line b (m +:+ " " +:+ uri +:+ " HTTP/1.1") (fields_text (sent_fields r u fs) +:+ CRLF +:+ body +:+ rest) Hwf)
    as (b1 & Hline & Hwf1 & Hfl1).
  { rewrite !in_string_app, Hm2, Hu2. done. }
  { rewrite Hflat. by rewrite <- !str_app_assoc. }
  assert (newTransferWriter (out_request r) ≫= WriteHeader Canonical Sort = Ok fs) as Hfs by (by rewrite Htw).
  destruct (Hmime fs b1 (body +:+ rest) Hfs Hwf1 Hfl1) as (b2 & HM & Hwf2 & Hfl2).
  set (h := fixPragmaCacheControl (delete "Host" (header_of (sent_fields r u fs)))).
  destruct (newTransferWriter_framed _ _ Hplain Htw) as (_ & Htr & _).
  assert (∀ k, k ∈ framing_fields → h !! k = as_header fs !! k) as Hframe.
  { intros k Hk. subst h. assert (k ≠ "Cache-Control" ∧ k ≠ "Host" ∧ k ≠ "User-Agent" ∧ k ∈ reqWriteExcludeHeader) as (H1 & H2 & H3 & H4).
    { unfold framing_fields in Hk. rewrite !elem_of_cons, elem_of_nil in Hk. destruct Hk as [->|[->|[->|[]]]]; split_and!; try done;
        unfold reqWriteExcludeHeader; rewrite !elem_of_cons; auto 10. }
    rewrite fixPragma_lookup, lookup_delete_ne by done. unfold sent_fields.
    rewrite header_of_skip, header_of_skip_r; [by eapply WriteHeader_header_of|by apply fields_excluded|].
    unfold first_fields. destruct (decide (user_agent r = "")); cbn; rewrite ?not_elem_of_cons; split_and!; done || apply not_elem_of_nil. }
  destruct (request_body_roundtrip Canonical Sort Trailer_Write (λ r, (r, Err EOF)) (out_request r) tw fs body h 1 1 Hplain Hlen
    ltac:(intros bb Hb; by apply (Hbound tw)) Htw HwH HwB Hframe) as (res & Hres & _).
  assert (ReadRequest Canonical ReadMIMEHeader b = (b2, Ok (received m uri "HTTP/1.1" 1 1 u' (if decide (u_Host u' = "") then request_host r u else u_Host u') res))) as HR.
  { unfold ReadRequest. rewrite Hline. change " HTTP/1.1" with (" " +:+ "HTTP/1.1"). rewrite parseRequestLine_parts by done.
    change (ParseHTTPVersion "HTTP/1.1") with (Some (1%Z, 1%Z)). cbv beta iota zeta.
    assert (bool_decide (m = "CONNECT") && negb (String.prefix "/" uri) = false) as Hja.
    { destruct (decide (m = "CONNECT")) as [E|E]; [by rewrite (Hconn E), andb_false_r|by rewrite bool_decide_eq_false_2]. }
    rewrite Hja, Hparse, HM. fold h. unfold request_with in Hres. rewrite Hres.
    do 3 f_equal. destruct (decide (u_Host u' = "")); [|done]. unfold Get, sent_fields, first_fields.
    rewrite header_of_lookup. cbn [app]. by rewrite filter_cons_True by done. }
  eexists b2, _, fs. split; [exact HR|]. do 6 (split; [done|]). split; [done|]. split.
  - intros k Hk. rewrite !not_elem_of_cons in Hk. destruct Hk as (H1 & H2 & Hk).
    etrans; [eapply readTransfer_header; [|exact Hres|done]; done|]. cbn [i_Header request_with].
    subst h. rewrite fixPragma_lookup, lookup_delete_ne by done. done.
  - intros RMH n Hn. destruct (request_body_roundtrip Canonical Sort Trailer_Write RMH (out_request r) tw fs body h 1 1 Hplain Hlen
      ltac:(intros bb Hb; by apply (Hbound tw)) Htw HwH HwB Hframe) as (res' & Hres' & Hcopy).
    rewrite Hres in Hres'. injection Hres' as <-. by apply (proj1 (Hcopy b2 n Hwf2 Hn)).
Qed.
End roundtrip.

(** A reader of a header that is known, for the witness. *)
Definition known_header (text : string) (h : header) (r : reader) : reader * outcome ioerr header :=
  if String.prefix text (flat r)
  then ({| buf := ""; src := push (str_drop (String.length text) (flat r)) []; end_err := end_err r |}, Ok h)
  else (r, Err ErrMalformed).

Lemma known_header_reads text h r rest :
  flat r = text +:+ rest → ∃ r', known_header text h r = (r', Ok h) ∧ wf r' ∧ flat r' = rest.
Proof.
  intros Hf. unfold known_header. rewrite Hf, prefix_app, str_drop_app. eexists. split; [done|]. split.
  - split; cbn; [by apply push_wf|unfold bufsize; lia].
  - unfold flat. cbn. rewrite push_flat. cbn. by rewrite str_app_nil, str_app_nil_r.
Qed.

(** A URL library that knows one path. *)
Definition example_url : URL :=
  {| Scheme := ""; Opaque := ""; User := None; u_Host := ""; Path := "/register"; RawQuery := ""; Fragment := "" |}.
#[local] Instance example_lib : URLLib := {|
  url_Parse s := if decide (s = "/register") then inr example_url else inl "parse";
  url_ParseRequestURI s := if decide (s = "/register") then inr example_url else inl "parse";
  url_Resolve _ s := if decide (s = "/register") then inr example_url else inl "parse";
  url_String u := Path u; url_RequestURI u := Path u; url_ParseQuery _ := (∅, None);
|}.
Definition example_request : Request :=
  {| rMethod := "POST"; rURL := Some example_url; Proto := "HTTP/1.1"; rMajor := 1; rMinor := 1;
     rHeader := Some {["Content-Type" := ["text/plain"]; "Host" := ["ignored"]]};
     rBody := Some {| reads := ["device"; "=D"]; b_end := None; b_close := None |}; rContentLength := 8;
     rTransferEncoding := []; rClose := false; Host := "push.example"; Form := None; PostForm := None;
     MultipartForm := None; rTrailer := None; RequestURI := "" |}.

Lemma request_wire_roundtrip_witness :
  let RMH := known_header
    (fields_text [("Host", "push.example"); ("User-Agent", "Go 1.1 package http"); ("Content-Length", "8"); ("Content-Type", "text/plain")] +:+ CRLF)
    (header_of [("Host", "push.example"); ("User-Agent", "Go 1.1 package http"); ("Content-Length", "8"); ("Content-Type", "text/plain")]) in
  ∃ wire b' q, write (λ k, k) (λ l, l) (λ _, "") example_request false None = (wire, Ok ()) ∧
    ReadRequest (λ k, k) RMH {| buf := ""; src := [wire; "GET "]; end_err := EOF |} = (b', Ok q) ∧
    rMethod (q_Request q) = "POST" ∧ Host (q_Request q) = "push.example" ∧
    ∃ r', copy_body (λ r, (r, Err EOF)) (t_Body (q_transfer q)) 3 b' = (r', "device=D", Some EOF) ∧ flat r' = "GET ".
Proof.
  intros RMH. eassert (write (λ k, k) (λ l, l) (λ _, "") example_request false None = (_, Ok ())) as Hw by (vm_compute; reflexivity).
  match type of Hw with _ = (?w, _) => set (wire := w) in Hw end.
  destruct (request_wire_roundtrip (λ k, k) (λ l, l) (λ _, "") RMH example_request example_url example_url wire
    {| buf := ""; src := [wire; "GET "]; end_err := EOF |} "GET ") as (b' & q & fs & HR & Hm & _ & _ & _ & _ & Hh & _ & _ & Hc).
  - reflexivity.
  - split_and!; [reflexivity..|by left].
  - reflexivity.
  - intros tw b Htw Hb. vm_compute in Htw. injection Htw as <-. injection Hb as <-. repeat constructor.
  - reflexivity.
  - reflexivity.
  - reflexivity.
  - reflexivity.
  - discriminate.
  - reflexivity.
  - intros fs b rest Hfs Hwf Hf. vm_compute in Hfs. injection Hfs as <-.
    apply known_header_reads. rewrite Hf. by rewrite <- str_app_assoc.
  - exact Hw.
  - split; [repeat constructor; discriminate|cbn; lia].
  - vm_compute. reflexivity.
  - exists wire, b', q. split; [exact Hw|]. split; [exact HR|]. split; [exact Hm|]. split; [exact Hh|].
    destruct (Hc (λ r, (r, Err EOF)) 3 ltac:(lia)) as (r' & Hr & Hfl). exists r'. split; [exact Hr|exact Hfl].
Defined.
End MessageProps.

Module FormProps.
Import Transfer TransferProps Message.

(** *** The limit on a body *)
Section limit.
Context {R : Type} (Read : nat → R → R * string * option ioerr).
Context (Read_fits : ∀ n r, Z.of_nat (String.length (Read n r).1.2) ≤ Z.of_nat n).

(** Reads of the sizes [ns], whatever they give. *)
Fixpoint max_reads (ns : list nat) (l : maxBytesReader) : maxBytesReader * string :=
  match ns with
  | [] => (l, "")
  | n :: ns => let '(l, x, _) := max_Read Read n l in let '(l, y) := max_reads ns l in (l, x +:+ y)
  end.

Lemma max_Read_counts n l :
  0 ≤ l_n l → let '(l', x, _) := max_Read Read n l in l_n l' = l_n l - len x ∧ 0 ≤ l_n l'.
Proof using Read_fits.
  intros Hl. unfold max_Read. destruct (Z.leb_spec (l_n l) 0); [cbn; lia|].
  set (k := if l_n l <? Z.of_nat n then Z.to_nat (l_n l) else n).
  pose proof (Read_fits k (l_r l)) as Hf. destruct (Read k (l_r l)) as [[r x] e]. cbn in *.
  subst k. destruct (Z.ltb_spec (l_n l) (Z.of_nat n)); lia.
Qed.

(** Never more than the limit comes out of the body, and once that much has
    come out every further read is refused. *)
Theorem max_reader_limit ns n l l' x :
  0 ≤ l_n l → max_reads ns l = (l', x) →
  len x ≤ l_n l ∧ (len x = l_n l → (max_Read Read n l').2 = Some TooLarge).
Proof using Read_fits.
  intros Hl H. assert (l_n l' = l_n l - len x ∧ 0 ≤ l_n l') as [Hn Hn'].
  { revert l x Hl H. induction ns as [|k ns IH]; intros l x Hl H; cbn in H; [injection H as <- <-; cbn; lia|].
    pose proof (max_Read_counts k l Hl) as Hc. destruct (max_Read Read k l) as [[l1 y] e].
    destruct (max_reads ns l1) as [l2 z] eqn:E. injection H as <- <-. destruct Hc as [Hc Hc'].
    destruct (IH l1 z Hc' E). rewrite length_str_app. lia. }
  split; [lia|]. intros Hx. unfold max_Read. by destruct (Z.leb_spec (l_n l') 0); [|lia].
Qed.
End limit.

(** *** Versions *)
Lemma version_part_digits n : 0 ≤ n ≤ 1000000 → version_part (FormatInt n) = Some n.
Proof.
  intros Hn. pose proof (parse_FormatInt n ltac:(lia)) as Hp. destruct (FormatInt_text n ltac:(lia)) as [Ht Hne].
  unfold parseContentLength in Hp. rewrite Ht, decide_False in Hp by done.
  unfold version_part. destruct (ParseInt10 (FormatInt n)) as [m|]; [|done].
  destruct (Z.ltb_spec m 0); [done|]. injection Hp as ->. by destruct (Z.ltb_spec 1000000 n); [lia|].
Qed.

Lemma no_dot s : all_chars is_digit s = true → in_string "." s = false.
Proof.
  induction s as [|a s IH]; cbn; [done|]. intros [Ha Hs]%andb_true_iff. rewrite IH, orb_false_r by done.
  apply bool_decide_eq_false_2. intros ->. by vm_compute in Ha.
Qed.

Lemma FormatInt_digits n : 0 ≤ n < 2 ^ 63 → all_chars is_digit (FormatInt n) = true.
Proof.
  intros Hn. unfold FormatInt. destruct (Z.ltb_spec n 0); [lia|].
  apply (format_dec_spec 19 n "" ltac:(change (Z.of_nat 19) with 19; lia) ltac:(done) eq_refl).
Qed.

Lemma version_cut a b :
  all_chars is_digit a = true → cut_at "." ("HTTP/" +:+ a +:+ "." +:+ b) = Some ("HTTP/" +:+ a, b).
Proof.
  intros Ha. replace ("HTTP/" +:+ a +:+ "." +:+ b) with (("HTTP/" +:+ a) +:+ String "." b)
    by (rewrite <- str_app_assoc; by rewrite (str_app_cons "." ""), str_app_nil).
  apply cut_at_app. rewrite in_string_app. by rewrite (no_dot a).
Qed.

(** A version printed is the version parsed, up to the bound on its parts. *)
Theorem version_roundtrip major minor :
  0 ≤ major ≤ 1000000 → 0 ≤ minor ≤ 1000000 →
  ParseHTTPVersion ("HTTP/" +:+ FormatInt major +:+ "." +:+ FormatInt minor) = Some (major, minor).
Proof.
  intros Hma Hmi. pose proof (version_cut (FormatInt major) (FormatInt minor) (FormatInt_digits major ltac:(lia))) as Hcut.
  pose proof (version_part_digits _ Hma) as Va. pose proof (version_part_digits _ Hmi) as Vb.
  set (s := "HTTP/" +:+ FormatInt major +:+ "." +:+ FormatInt minor) in *.
  assert (str_drop 5 ("HTTP/" +:+ FormatInt major) = FormatInt major) as Hdrop by apply (str_drop_app "HTTP/").
  unfold ParseHTTPVersion. destruct (decide (s = "HTTP/1.1")) as [E|_].
  { rewrite E in Hcut. change (cut_at "." "HTTP/1.1") with (Some ("HTTP/1", "1")) in Hcut. injection Hcut as Ea Eb.
    rewrite str_app_nil in Ea. rewrite <- Ea in Va. rewrite <- Eb in Vb. vm_compute in Va, Vb. congruence. }
  destruct (decide (s = "HTTP/1.0")) as [E|_].
  { rewrite E in Hcut. change (cut_at "." "HTTP/1.0") with (Some ("HTTP/1", "0")) in Hcut. injection Hcut as Ea Eb.
    rewrite str_app_nil in Ea. rewrite <- Ea in Va. rewrite <- Eb in Vb. vm_compute in Va, Vb. congruence. }
  assert (String.prefix "HTTP/" s = true) as -> by apply prefix_app.
  rewrite Hcut. cbn [negb mbind option_bind]. by rewrite Hdrop, Va, Vb.
Qed.

(** *** Forms *)
Section forms.
Context `{!URLLib} (ParseMediaType : string → string * gmap string string * option string).

(** Parsing a form again changes nothing, and has no error left to give. *)
Theorem ParseForm_idempotent is_max r :
  let r' := (ParseForm ParseMediaType is_max r).1 in ParseForm ParseMediaType is_max r' = (r', None).
Proof.
  cbn zeta. assert (∃ f p mf err, ParseForm ParseMediaType is_max r = (with_forms (Some f) (Some p) mf r, err)) as (f & p & mf & err & ->).
  { unfold ParseForm. destruct (PostForm r) as [p|].
    - destruct (Form r) as [f|]; [by eexists _, _, _, _|]. destruct (rURL r) as [u|]; [destruct (url_ParseQuery _)|]; by eexists _, _, _, _.
    - destruct (if decide _ then _ else _) as [vs e]. destruct (Form r) as [f|]; [by eexists _, _, _, _|].
      destruct (rURL r) as [u|]; [destruct (url_ParseQuery _)|]; by eexists _, _, _, _. }
  by destruct r.
Qed.

(** The first value of a key is the body's, and the query's when the body has none. *)
Theorem body_values_first is_max r u :
  PostForm r = None → Form r = None → rURL r = Some u → (rMethod r = "POST" ∨ rMethod r = "PUT" ∨ rMethod r = "PATCH") →
  let post := default ∅ (parsePostForm ParseMediaType is_max r).1 in
  (∀ k, post !! k ≠ Some []) →
  ∀ k, first_value (Form (ParseForm ParseMediaType is_max r).1) k =
    match post !! k with Some (v :: _) => v | _ => first_value (Some (url_ParseQuery (RawQuery u)).1) k end.
Proof.
  intros Hp Hf Hu Hm post Hne k. unfold ParseForm. rewrite Hp, Hf, Hu. rewrite decide_True by done. subst post.
  destruct (parsePostForm _ _ _) as [vs e]. cbn [fst] in *. destruct (url_ParseQuery _) as [new e'] eqn:En. cbn [fst].
  specialize (Hne k). cbn [with_forms Form]. destruct (decide (default ∅ vs = ∅)) as [E|E].
  - rewrite E in Hne |- *. by rewrite lookup_empty.
  - unfold first_value, copyValues, add_values. cbn [mbind option_bind]. rewrite lookup_union_with, (left_id_L ∅ _).
    destruct (default ∅ vs !! k) as [[|v l]|] eqn:Ek; [done| |]; destruct (new !! k); done.
Qed.
End forms.
End FormProps.
