(* ===== verification/HttpResponse.v ===== *)
(** Responses of the patched HTTP client (http13client/response.go), from one
    end to the other: what [Response.Write] writes is what [ReadResponse]
    reads, and the kinds of response for which it is not.

    The two functions are in HttpMessage.v, the framing of bodies in
    HttpTransfer.v. *)

From stdpp Require Import sorting.
From S2P Require Import Prelude HttpText HttpBody HttpTransfer HttpMessage.
Import Text.

Local Open Scope Z_scope.

Module ResponseTransfer.
Import Bufio Chunked ChunkedProps Body BodyProps Transfer TransferProps TextProto Message MessageProps.
#[local] Arguments Get : simpl never.

(** *** A body that ends with its connection *)

Lemma raw_body_complete ReadMIMEHeader fuel n r closing :
  wf r → (0 < n)%nat → (String.length (flat r) < fuel)%nat →
  let b := {| source := SrcRaw r; hdr := false; Body.closing := closing; closed := false; Body.trailer := [] |} in
  ∃ b', copy_all ReadMIMEHeader fuel n b = (b', flat r, Some (end_err r)) ∧ flat (reader_of (source b')) = "".
Proof.
  revert r. induction fuel as [|fuel IH]; intros r Hwf Hn Hf b; [lia|].
  cbn [copy_all]. unfold body_Read, readLocked. cbn [closed b source src_Read hdr Body.closing Body.trailer].
  pose proof (Read_spec n r Hwf Hn) as H. destruct (Bufio.Read n r) as [[r1 x] e1]. destruct H as (Hwf1 & HE & Hfl & H).
  destruct (decide (flat r = "")) as [Hempty|Hne].
  - destruct H as (-> & -> & ->). rewrite Hempty. destruct (decide (Some (end_err r) = Some EOF)) as [He|He].
    + cbn. rewrite decide_False by naive_solver. by eexists.
    + cbn. rewrite decide_False by naive_solver. by eexists.
  - destruct H as (Hx & -> & Hl). apply length_pos in Hx as Hxp.
    rewrite (decide_False (P := None = Some EOF)) by done.
    rewrite (decide_True (P := None = None ∧ x ≠ "")) by done. cbn [reader_of].
    rewrite Hfl, length_str_app in Hf. destruct (IH r1 Hwf1 Hn ltac:(lia)) as (b' & Hc & Hb'). rewrite Hc. cbn.
    exists b'. by rewrite Hfl, HE.
Qed.

Lemma copy_raw_body RMH n r :
  wf r → (0 < n)%nat → ∃ r', copy_body RMH (BodyRaw true) n r = (r', flat r, Some (end_err r)) ∧ flat r' = "".
Proof.
  intros Hwf Hn. unfold copy_body, copy_fuel. cbn [body_of source reader_of].
  destruct (raw_body_complete RMH (S (String.length (flat r))) n r true Hwf Hn ltac:(lia)) as (b' & -> & Hb). by eexists.
Qed.

(** *** What a reader makes of a response's framing *)

Definition response_with (h : header) (code : Z) (method : option string) (major minor : Z) : in_msg :=
  {| isResponse := true; i_Header := h; StatusCode := code; RequestMethod := method; i_Major := major; i_Minor := minor |}.

(** A status and a method whose responses have a body. *)
Definition has_body (code : Z) (method : option string) : Prop :=
  bodyAllowedForStatus code = true ∧ default "GET" method ≠ "HEAD".

Section reading.
Context (Canonical : string → string).
Context (h : header) (code : Z) (method : option string) (major minor : Z).
Context (Hbody : has_body code method) (Hcode : 0 ≤ code).
Let read := readTransfer Canonical (response_with h code method major minor).
Let h0 := (shouldClose major minor h).1.
Let c0 := (shouldClose major minor h).2.

Lemma shouldClose_lookup k : k ≠ "Connection" → h0 !! k = h !! k.
Proof using.
  clear. intros Hk. subst h0. unfold shouldClose. destruct (major <? 1); [done|]. destruct (_ && _); [done|].
  destruct (decide _); [|done]. by apply lookup_delete_ne.
Qed.

Lemma fixLength_response (h' : header) te :
  fixLength true code (default "GET" method) h' te =
    if chunked te then (h', Ok (-1))
    else if decide (TrimSpace (Get h' "Content-Length") ≠ "")
         then (h', parseContentLength (TrimSpace (Get h' "Content-Length"))) else (delete "Content-Length" h', Ok (-1)).
Proof using Hbody Hcode.
  clear -Hbody Hcode. destruct Hbody as [Ha Hm]. unfold fixLength, noBodyExpected. rewrite bool_decide_eq_false_2 by done.
  unfold bodyAllowedForStatus in Ha.
  rewrite decide_False.
  2: { intros Hq. destruct (Z.leb_spec 100 code), (Z.leb_spec code 199); cbn in Ha; try done;
       pose proof (Z.quot_rem code 100 ltac:(lia)) as Hr; pose proof (Z.rem_bound_pos code 100 ltac:(lia) ltac:(lia)); lia. }
  rewrite decide_False; [done|]. intros [->| ->]; by cbn in Ha.
Qed.

Lemma read_response_length n :
  0 ≤ n < 2 ^ 63 → h !! "Transfer-Encoding" = None → h !! "Content-Length" = Some [FormatInt n] → h !! "Trailer" = None →
  read = Ok {| t_Body := if n =? 0 then BodyEOF else BodyLimited n c0; t_ContentLength := n; t_TransferEncoding := [];
               t_Close := c0; t_Trailer := None; t_Header := h0 |}.
Proof using Hbody Hcode.
  intros Hn Hte Hcl Htr. subst read. unfold readTransfer. cbn [isResponse response_with i_Header i_Major i_Minor RequestMethod StatusCode].
  pose proof (shouldClose_lookup "Transfer-Encoding" ltac:(done)) as L1. pose proof (shouldClose_lookup "Content-Length" ltac:(done)) as L2.
  pose proof (shouldClose_lookup "Trailer" ltac:(done)) as L3. rewrite Hte in L1. rewrite Hcl in L2. rewrite Htr in L3.
  rewrite (surjective_pairing (shouldClose major minor h)). fold h0 c0. unfold fixTransferEncoding. rewrite L1.
  cbn [mbind outcome_bind]. rewrite fixLength_response. change (chunked []) with false. cbn [andb negb].
  assert (Get h0 "Content-Length" = FormatInt n) as -> by (unfold Get; by rewrite L2).
  destruct (FormatInt_text n Hn) as [-> Hne]. rewrite decide_True by done. rewrite parse_FormatInt by done.
  cbn [mbind outcome_bind]. destruct Hbody as [Ha Hm]. rewrite (bool_decide_eq_false_2 (_ = "HEAD")) by done.
  cbn [andb mret outcome_ret outcome_bind]. rewrite fixTrailer_none by done. cbn [mbind outcome_bind].
  destruct (Z.eqb_spec n (-1)); [lia|]. cbn [andb]. destruct (Z.eqb_spec n 0); [done|]. by destruct (Z.ltb_spec 0 n); [|lia].
Qed.

Lemma read_response_chunked :
  h !! "Transfer-Encoding" = Some ["chunked"] → h !! "Trailer" = None →
  read = Ok {| t_Body := BodyChunked c0; t_ContentLength := -1; t_TransferEncoding := ["chunked"]; t_Close := c0; t_Trailer := None;
               t_Header := delete "Content-Length" (delete "Transfer-Encoding" h0) |}.
Proof using Hbody Hcode.
  intros Hte Htr. subst read. unfold readTransfer. cbn [isResponse response_with i_Header i_Major i_Minor RequestMethod StatusCode].
  pose proof (shouldClose_lookup "Transfer-Encoding" ltac:(done)) as L1. pose proof (shouldClose_lookup "Trailer" ltac:(done)) as L3.
  rewrite Hte in L1. rewrite Htr in L3. rewrite (surjective_pairing (shouldClose major minor h)). fold h0 c0.
  unfold fixTransferEncoding. rewrite L1. assert (read_encodings (split_on "," "chunked") = Ok ["chunked"]) as -> by (by vm_compute).
  cbn [mbind outcome_bind]. rewrite fixLength_response. change (chunked ["chunked"]) with true. cbn [mbind outcome_bind andb negb].
  destruct Hbody as [Ha Hm]. rewrite (bool_decide_eq_false_2 (_ = "HEAD")) by done. cbn [mret outcome_ret outcome_bind].
  rewrite fixTrailer_none by (by rewrite !lookup_delete_ne). cbn [mbind outcome_bind]. rewrite andb_false_r.
  unfold noBodyExpected. by rewrite (bool_decide_eq_false_2 (_ = "HEAD")) by done.
Qed.

Lemma read_response_raw :
  h !! "Transfer-Encoding" = None → h !! "Content-Length" = None → h !! "Trailer" = None →
  read = Ok {| t_Body := BodyRaw true; t_ContentLength := -1; t_TransferEncoding := []; t_Close := true; t_Trailer := None;
               t_Header := delete "Content-Length" h0 |}.
Proof using Hbody Hcode.
  intros Hte Hcl Htr. subst read. unfold readTransfer. cbn [isResponse response_with i_Header i_Major i_Minor RequestMethod StatusCode].
  pose proof (shouldClose_lookup "Transfer-Encoding" ltac:(done)) as L1. pose proof (shouldClose_lookup "Content-Length" ltac:(done)) as L2.
  pose proof (shouldClose_lookup "Trailer" ltac:(done)) as L3. rewrite Hte in L1. rewrite Hcl in L2. rewrite Htr in L3.
  rewrite (surjective_pairing (shouldClose major minor h)). fold h0 c0. unfold fixTransferEncoding. rewrite L1.
  cbn [mbind outcome_bind]. rewrite fixLength_response. change (chunked []) with false. cbn [andb negb].
  rewrite Get_None by done. rewrite decide_False by (intros Hx; by apply Hx). cbn [mbind outcome_bind].
  destruct Hbody as [Ha Hm]. rewrite (bool_decide_eq_false_2 (_ = "HEAD")) by done. cbn [andb mret outcome_ret outcome_bind].
  rewrite fixTrailer_none by (by rewrite lookup_delete_ne). cbn [mbind outcome_bind]. by rewrite Ha.
Qed.
End reading.
End ResponseTransfer.

Module ResponseProps.
Import Bufio Chunked ChunkedProps Body BodyProps Transfer TransferProps TextProto Message MessageProps FormProps ResponseTransfer.
#[local] Arguments Get : simpl never.

(** *** The values of a key, as they are written *)

Definition written (h : header) (k : string) : option (list string) :=
  match h !! k with Some (v :: vs) => Some (clean <$> v :: vs) | _ => None end.

Lemma filter_key_fmap (k k' : string) (vs : list string) :
  filter (λ f : string * string, f.1 = k) ((λ v, (k', clean v)) <$> vs) = if decide (k' = k) then (λ v, (k', clean v)) <$> vs else [].
Proof.
  destruct (decide (k' = k)) as [->|Hk].
  - induction vs as [|v vs IH]; [done|]. rewrite fmap_cons, filter_cons_True by done. by f_equal.
  - induction vs as [|v vs IH]; [done|]. by rewrite fmap_cons, filter_cons_False.
Qed.

Lemma filter_key_bind (h : header) (k : string) ks :
  NoDup ks →
  filter (λ f : string * string, f.1 = k) (ks ≫= λ k', (λ v, (k', clean v)) <$> default [] (h !! k')) =
  if decide (k ∈ ks) then (λ v, (k, clean v)) <$> default [] (h !! k) else [].
Proof.
  induction 1 as [|k' ks Hk' Hnd IH]; [done|]. cbn. rewrite filter_app, filter_key_fmap, IH.
  destruct (decide (k' = k)) as [->|Hne].
  - rewrite (decide_False (P := k ∈ ks)) by done. rewrite app_nil_r. rewrite decide_True; [done|by left].
  - cbn. destruct (decide (k ∈ ks)) as [Hin|Hin].
    + rewrite decide_True; [done|by right].
    + rewrite decide_False; [done|]. intros [->|?]%elem_of_cons; done.
Qed.

(** Each key that is not excluded is written with all of its values, in order. *)
Lemma fields_lookup h ex k : k ∉ ex → header_of (fields h ex) !! k = written h k.
Proof.
  intros Hk. rewrite header_of_lookup. unfold fields. rewrite filter_key_bind.
  2: { apply NoDup_filter. rewrite merge_sort_Permutation. apply NoDup_fst_map_to_list. }
  unfold written. destruct (h !! k) as [vs|] eqn:E.
  - rewrite decide_True.
    2: { apply list_elem_of_filter. split; [done|]. rewrite merge_sort_Permutation.
         apply list_elem_of_fmap. exists (k, vs). by rewrite elem_of_map_to_list. }
    cbn. destruct vs as [|v vs]; [done|]. cbn. rewrite <- list_fmap_compose. do 2 f_equal.
  - cbn. by destruct (decide _).
Qed.

(** *** What is written for a response *)

Section writing.
Context `{!URLLib}.
Context (Canonical : string → string) (Sort : list string → list string).
Context (Trailer_Write : list (string * list string) → string).
Context (ReadMIMEHeader : reader → reader * outcome ioerr header).
Context (StatusText : Z → string).

Definition method_of (r : Response) : string := default "" (rMethod <$> sRequest r).
Definition response_data (r : Response) : string := default "" (data <$> sBody r).

(** The text after the status code. *)
Definition reason (r : Response) : string :=
  TrimPrefix (if decide (Status r = "") then
                let t := StatusText (sCode r) in if decide (t = "") then "status code " +:+ FormatInt (sCode r) else t
              else Status r) (FormatInt (sCode r) +:+ " ").

(** The message whose transfer is written: the body once its first byte has
    been looked at, and [Close] when its end is that of the connection. *)
Definition out_response (r : Response) (body : option obody) (cl : Z) : out_msg :=
  {| is_request := false; o_Method := method_of r; o_Body := body; o_ContentLength := cl;
     o_Close := if (cl =? -1) && negb (sClose r) && resp_ProtoAtLeast r 1 1 && negb (chunked (sTransferEncoding r)) then true else sClose r;
     o_TransferEncoding := sTransferEncoding r; o_Trailer := sTrailer r; ProtoMajor := sMajor r; ProtoMinor := sMinor r |}.

Definition zero_length (r : Response) (cl : Z) (tw : transferWriter) : list (string * string) :=
  if (cl =? 0) && negb (chunked (sTransferEncoding r)) && negb (shouldSendContentLength tw) then [("Content-Length", "0")] else [].

(** All the fields of a response, in order. *)
Definition response_fields (r : Response) : outcome herr (list (string * string)) :=
  '(body, cl) ← response_body r;
  match newTransferWriter (out_response r body cl) with
  | Ok tw =>
      match WriteHeader Canonical Sort tw with
      | Ok fs => Ok (fs ++ fields (sHeader r) respExcludeHeader ++ zero_length r cl tw)
      | Err e => Err (ETransfer e)
      | Panic => Panic
      end
  | Err e => Err (ETransfer e)
  | Panic => Panic
  end.

Lemma resp_write_parts r wire :
  resp_Write Canonical Sort Trailer_Write StatusText r = (wire, Ok ()) →
  ∃ body cl tw fs bw,
    response_body r = Ok (body, cl) ∧ newTransferWriter (out_response r body cl) = Ok tw ∧ WriteHeader Canonical Sort tw = Ok fs ∧
    WriteBody Trailer_Write tw = (bw, None) ∧
    wire = status_line StatusText r +:+ fields_text (fs ++ fields (sHeader r) respExcludeHeader ++ zero_length r cl tw) +:+ CRLF +:+ bw.
Proof.
  unfold resp_Write. destruct (response_body r) as [[body cl]|e|] eqn:Er; [|done..]. fold (method_of r). fold (out_response r body cl).
  destruct (newTransferWriter (out_response r body cl)) as [tw| |] eqn:Et; [|done..].
  destruct (WriteHeader Canonical Sort tw) as [fs| |] eqn:Ew; [|done..]. fold (zero_length r cl tw).
  destruct (WriteBody Trailer_Write tw) as [bw [e|]] eqn:Eb; [done|]. intros [= <-].
  exists body, cl, tw, fs, bw. split_and!; [done..|]. by rewrite !fields_text_app, !str_app_assoc.
Qed.

(** A response whose end the receiver can find: its request's method and its
    status allow a body; a body is there if chunks or a length are announced,
    says on its first read if it is not empty, and if its length is not
    known, the request was none that has a length announced anyway. *)
Definition until_close (r : Response) : bool :=
  match response_body r with Ok (_, cl) => (cl =? -1) && negb (chunked (sTransferEncoding r)) | _ => false end.

Record deliverable (r : Response) : Prop := {
  d_version : 0 ≤ sMajor r ≤ 1000000 ∧ 0 ≤ sMinor r ≤ 1000000 ∧ resp_ProtoAtLeast r 1 1 = true;
  d_status : 0 ≤ sCode r < 2 ^ 63 ∧ bodyAllowedForStatus (sCode r) = true;
  d_reason : in_string (chr 10) (reason r) = false;
  d_method : method_of r ≠ "HEAD" ∧ (until_close r = true → method_of r ≠ "POST" ∧ method_of r ≠ "PUT");
  d_encoding : sTrailer r = None ∧ (sTransferEncoding r = [] ∨ sTransferEncoding r = ["chunked"] ∧ sBody r ≠ None);
  d_length : sContentLength r < 2 ^ 63 ∧ (sBody r = None → sContentLength r = 0 ∨ sContentLength r = -1);
  d_body : ∀ b, sBody r = Some b → Forall (λ w, len w < 2 ^ 64) (reads b) ∧ (sContentLength r = 0 → head (reads b) ≠ Some "");
}.

Lemma response_body_keeps r body cl :
  deliverable r → response_body r = Ok (body, cl) →
  cl < 2 ^ 63 ∧ (body = None → sTransferEncoding r = [] ∧ (cl = 0 ∨ cl = -1) ∧ response_data r = "") ∧
  (∀ b, body = Some b → data b = response_data r ∧ Forall (λ w, len w < 2 ^ 64) (reads b)).
Proof.
  intros [_ _ _ _ [_ Hte] [Hmax Hnil] Hb] HR. unfold response_body in HR. unfold response_data.
  destruct (sBody r) as [b|] eqn:Eb; cbn [fmap option_fmap option_map default].
  2: { injection HR as <- <-. split_and!; [done| |done]. intros _. destruct Hte as [?|[_ ?]]; [|done]. split_and!; [done|by apply Hnil|done]. }
  destruct (Hb b eq_refl) as [Hr Hhead]. destruct (decide (sContentLength r = 0)) as [E|].
  2: { injection HR as <- <-. split_and!; [done..|]. by intros b' [= <-]. }
  specialize (Hhead E). unfold probe_once in HR. destruct b as [rs e c]. cbn [reads data b_end b_close] in *.
  destruct rs as [|[|a w] rs]; [|done|].
  - destruct e; [done|]. injection HR as <- <-. split_and!; [lia|done|]. intros b' [= <-]. split; [done|by constructor].
  - injection HR as <- <-. split_and!; [lia|done|]. intros b' [= <-]. apply Forall_cons in Hr as [Hw Hr]. cbn in Hw. unfold data. cbn [reads foldr]. split.
    + case_decide as Ew; [by rewrite Ew|]. cbn [foldr]. by rewrite !str_app_cons, str_app_nil.
    + constructor; [cbn; lia|]. case_decide; [done|]. constructor; [lia|done].
Qed.

Definition response_writer (r : Response) (body : option obody) (cl : Z) : transferWriter :=
  {| Method := method_of r; Body := body; ResponseToHEAD := false;
     ContentLength := if chunked (sTransferEncoding r) then -1 else if bool_decide (body = None) then 0 else cl;
     Transfer.Close := sClose r || until_close r; TransferEncoding := sTransferEncoding r; Transfer.Trailer := None |}.

Lemma writer_of_response r body cl :
  deliverable r → response_body r = Ok (body, cl) → newTransferWriter (out_response r body cl) = Ok (response_writer r body cl).
Proof.
  intros Hd HR. destruct (response_body_keeps r body cl Hd HR) as (_ & Hnil & _). destruct Hd as [(_ & _ & Hp) _ _ [Hm _] [Htr _] _ _].
  unfold newTransferWriter, response_writer, out_response, until_close. rewrite HR. cbn [is_request o_Body o_Method o_ContentLength o_TransferEncoding andb negb o_Trailer o_Close].
  unfold noBodyExpected. rewrite (bool_decide_eq_false_2 (_ = "HEAD")) by done. cbn [andb].
  assert (Transfer.ProtoAtLeast (out_response r body cl) 1 1 = true) as Hp' by exact Hp. unfold out_response in Hp'. rewrite Hp'. rewrite Hp, Htr.
  cbn [negb orb]. assert ((if bool_decide (body = None) then [] else sTransferEncoding r) = sTransferEncoding r) as ->.
  { case_bool_decide as E; [|done]. symmetry. by apply Hnil. }
  do 2 f_equal; [|by destruct (chunked _)]. by destruct (cl =? -1), (sClose r), (chunked _).
Qed.

Definition framing_of (tw : transferWriter) : list (string * string) :=
  (if Transfer.Close tw then [("Connection", "close")] else []) ++
  (if shouldSendContentLength tw then [("Content-Length", FormatInt (ContentLength tw))]
   else if chunked (TransferEncoding tw) then [("Transfer-Encoding", "chunked")] else []).

Lemma excluded_lookup (fs z : list (string * string)) h k :
  k ∈ respExcludeHeader → header_of (fs ++ fields h respExcludeHeader ++ z) !! k = header_of (fs ++ z) !! k.
Proof.
  intros Hk. rewrite !header_of_lookup, !filter_app.
  assert (filter (λ f, f.1 = k) (fields h respExcludeHeader) = []) as ->; [|done].
  pose proof (fields_excluded h _ _ Hk) as Hn. destruct (filter _ _) as [|f l] eqn:E; [done|].
  assert (f ∈ filter (λ f, f.1 = k) (fields h respExcludeHeader)) as Hf by (rewrite E; by left).
  apply list_elem_of_filter in Hf as [<- Hf]. destruct Hn. apply list_elem_of_fmap. by exists f.
Qed.

(** Which of the three framings a response is written with. *)
Lemma response_framing r body cl bw :
  let tw := response_writer r body cl in
  let h := header_of (framing_of tw ++ fields (sHeader r) respExcludeHeader ++ zero_length r cl tw) in
  deliverable r → response_body r = Ok (body, cl) → WriteBody Trailer_Write tw = (bw, None) →
  h !! "Trailer" = None ∧
  ((until_close r = false ∧ h !! "Transfer-Encoding" = None ∧ h !! "Content-Length" = Some [FormatInt (len bw)] ∧ bw = response_data r ∧ len bw < 2 ^ 63) ∨
   (until_close r = false ∧ h !! "Transfer-Encoding" = Some ["chunked"] ∧
      ∃ b, bw = wire_chunks b ∧ data b = response_data r ∧ Forall (λ w, len w < 2 ^ 64) (reads b)) ∨
   (until_close r = true ∧ h !! "Transfer-Encoding" = None ∧ h !! "Content-Length" = None ∧ bw = response_data r)).
Proof.
  intros tw h Hd Hrb HwB. destruct (response_body_keeps r body cl Hd Hrb) as (Hmax & Hnil & Hb).
  destruct Hd as [_ _ _ [_ Hpost] [_ Hte] _ _].
  assert (Hu : until_close r = (cl =? -1) && negb (chunked (sTransferEncoding r))) by (unfold until_close; by rewrite Hrb).
  subst h. rewrite !excluded_lookup by (unfold respExcludeHeader; set_solver).
  rewrite Hu in Hpost |- *. subst tw. unfold response_writer, framing_of, zero_length, shouldSendContentLength in *. cbn [Transfer.Close TransferEncoding ContentLength Method] in *.
  unfold WriteBody, write_body in HwB. cbn [Body TransferEncoding ContentLength ResponseToHEAD Transfer.Trailer] in HwB.
  destruct Hte as [Hte|[Hte Hne]]; rewrite Hte in *.
  - change (chunked []) with false in *. change (isIdentity []) with false. cbn [negb andb orb app] in *. rewrite andb_true_r in *.
    assert (Hlen : (if bool_decide (body = None) then 0 else cl) ≠ -1 →
      (if bool_decide (body = None) then 0 else cl) = len bw ∧ bw = response_data r).
    { destruct body as [b|]; [|intros _; injection HwB as <-; by destruct (Hnil eq_refl) as (_ & _ & ->)].
      rewrite bool_decide_eq_false_2 in HwB |- * by done. intros Hcl. rewrite decide_False in HwB by done. destruct (Hb b eq_refl) as [<- _].
      unfold body_copied in HwB. destruct (b_end b); [done|]. cbn [fmap outcome_fmap] in HwB. destruct (b_close b); [done|]. cbn in HwB.
      destruct (Z.eqb_spec cl (-1)); [done|]. destruct (Z.eqb_spec cl (len (data b))) as [E|]; [|done]. cbn in HwB. injection HwB as <-.
      by rewrite E, limited_all. }
    destruct (Z.eqb_spec cl (-1)) as [->|Hcl].
    + (* the end of the connection *)
      destruct (Hpost eq_refl) as [Hp1 Hp2]. rewrite (bool_decide_eq_false_2 (_ ∨ _)) by (by intros [?|?]).
      assert (bw = response_data r) as ->.
      { destruct body as [b|]; [|by apply Hlen; rewrite bool_decide_eq_true_2]. destruct (Hb b eq_refl) as [<- _].
        rewrite bool_decide_eq_false_2 in HwB by done. rewrite decide_True in HwB by done. unfold body_copied in HwB.
        destruct (b_end b); [done|]. cbn [fmap outcome_fmap] in HwB. destruct (b_close b); [done|]. cbn in HwB. by injection HwB as <-. }
      destruct (sClose r || until_close r), (bool_decide (body = None)); (split; [done|]; right; right; by split_and!).
    + destruct Hlen as [E Hbw]. { case_bool_decide; [lia|done]. }
      assert (cl = len bw) as Ecl. { case_bool_decide as Eb; [|done]. destruct (Hnil Eb) as (_ & [?|?] & _); congruence. }
      rewrite E, <-Ecl, andb_false_r, orb_false_r. clear HwB E. assert (0 ≤ cl) as Hpos by lia.
      destruct (Z.ltb_spec 0 cl) as [Hlt|Hle].
      * rewrite andb_false_r. split; [by destruct (sClose r || until_close r)|]. left.
        split_and!; [done|by destruct (sClose r || until_close r)|by destruct (sClose r || until_close r)|done|lia].
      * assert (cl = 0) as -> by lia. cbn [orb Z.eqb andb].
        destruct (sClose r || until_close r), (bool_decide (method_of r = "POST" ∨ method_of r = "PUT")); (split; [vm_compute; reflexivity|]; left; split_and!; [done|vm_compute; reflexivity..|done|lia]).
  - change (chunked ["chunked"]) with true in *. cbn [negb andb orb app] in *. rewrite andb_false_r in *. cbn [andb] in *.
    destruct body as [b|]; [|by destruct (Hnil eq_refl)]. destruct (Hb b eq_refl) as [Hdata Hbound].
    destruct (b_end b); [done|]. destruct (b_close b); [done|]. injection HwB as <-.
    split; [by destruct (sClose r || until_close r)|]. right. left. split; [by rewrite ?andb_false_r|]. split; [by destruct (sClose r || until_close r)|]. exists b. split_and!; [|done..].
    rewrite !str_app_nil, <- str_app_assoc. apply wire_chunks_app.
Qed.

(** *** Reading it *)

(** The framing of what was written, by the header that was read. *)
Inductive framing (h : header) (until : bool) (bw text : string) : Prop :=
| F_length : until = false → h !! "Transfer-Encoding" = None → h !! "Content-Length" = Some [FormatInt (len bw)] → bw = text → len bw < 2 ^ 63 →
    framing h until bw text
| F_chunks b : until = false → h !! "Transfer-Encoding" = Some ["chunked"] → bw = wire_chunks b → data b = text →
    Forall (λ w, len w < 2 ^ 64) (reads b) → framing h until bw text
| F_close : until = true → h !! "Transfer-Encoding" = None → h !! "Content-Length" = None → bw = text → framing h until bw text.

Lemma response_arrives h code method major minor until bw text :
  has_body code method → 0 ≤ code → h !! "Trailer" = None → framing h until bw text →
  ∃ res, readTransfer Canonical (response_with h code method major minor) = Ok res ∧
    (∀ k, k ∉ "Connection" :: framing_fields → t_Header res !! k = h !! k) ∧
    t_Close res = until || (shouldClose major minor h).2 ∧
    ∀ RMH b n rest, wf b → (0 < n)%nat → flat b = bw +:+ rest →
      ∃ b', copy_body RMH (t_Body res) n b = (b', if until then text +:+ rest else text, Some (if until then end_err b else EOF)) ∧
        flat b' = if until then "" else rest.
Proof.
  intros Hh Hc Ht Hf. assert (Hother : ∀ k, k ∉ "Connection" :: framing_fields →
    k ≠ "Connection" ∧ k ≠ "Transfer-Encoding" ∧ k ≠ "Content-Length").
  { intros k. unfold framing_fields. rewrite !not_elem_of_cons. tauto. }
  destruct Hf as [-> Hte Hcl -> Hmax|ob -> Hte -> <- Hob| -> Hte Hcl ->].
  - eexists. split; [apply (read_response_length Canonical h code method major minor Hh Hc (len text)); [lia|done..]|]. cbn [t_Header t_Close t_Body orb].
    split; [by intros k (? & _)%Hother; apply shouldClose_lookup|]. split; [done|]. intros RMH b n rest Hwf Hn Hfl.
    destruct (Z.eqb_spec (len text) 0) as [E|E].
    + assert (text = "") as -> by (apply length_0; lia). exists b. by rewrite Hfl, str_app_nil.
    + destruct (copy_limited_body RMH n b (shouldClose major minor h).2 (len text) Hwf Hn ltac:(lia)) as (r' & x & e & Hcp & Hr). rewrite Hcp.
      rewrite Hfl, length_str_app, decide_True in Hr by lia. destruct Hr as (-> & Hx & Hr).
      destruct (app_same_length text x rest (flat r')) as [-> ->]; [lia|done|by eexists].
  - eexists. split; [by apply (read_response_chunked Canonical h code method major minor Hh Hc)|]. cbn [t_Header t_Close t_Body orb].
    split; [|split; [done|]].
    + intros k (? & ? & ?)%Hother. rewrite !lookup_delete_ne by done. by apply shouldClose_lookup.
    + intros RMH b n rest Hwf Hn Hfl. by apply (proj1 (copy_chunked_body RMH n b (shouldClose major minor h).2 (reads ob) Hob Hwf Hn)).
  - eexists. split; [by apply (read_response_raw Canonical h code method major minor Hh Hc)|]. cbn [t_Header t_Close t_Body orb].
    split; [|split; [done|]].
    + intros k (? & ? & ?)%Hother. rewrite lookup_delete_ne by done. by apply shouldClose_lookup.
    + intros RMH b n rest Hwf Hn Hfl. rewrite <-Hfl. by apply copy_raw_body.
Qed.

Lemma no_char c s : is_digit c = false → all_chars is_digit s = true → in_string c s = false.
Proof.
  intros Hc. induction s as [|a s IH]; cbn; [done|]. intros [Ha Hs]%andb_true_iff. rewrite IH, orb_false_r by done.
  apply bool_decide_eq_false_2. intros ->. congruence.
Qed.

Lemma split3_parts a b c : in_string " " a = false → in_string " " b = false → split3 (a +:+ " " +:+ b +:+ " " +:+ c) = [a; b; c].
Proof.
  intros Ha Hb. assert (∀ s x, s +:+ " " +:+ x = s +:+ String " " x) as Hsp by (intros; by rewrite str_app_cons, str_app_nil).
  rewrite !Hsp. unfold split3. rewrite cut_at_app by done. by rewrite cut_at_app.
Qed.

Definition proto_of (r : Response) : string := "HTTP/" +:+ FormatInt (sMajor r) +:+ "." +:+ FormatInt (sMinor r).
Definition status_of (r : Response) : string := FormatInt (sCode r) +:+ " " +:+ reason r.

Lemma status_line_parts r : status_line StatusText r = (proto_of r +:+ " " +:+ status_of r) +:+ CRLF.
Proof. unfold status_line, proto_of, status_of. fold (reason r). by rewrite !str_app_assoc. Qed.

Lemma status_line_read r :
  deliverable r → in_string (chr 10) (proto_of r +:+ " " +:+ status_of r) = false ∧
  split3 (proto_of r +:+ " " +:+ status_of r) = [proto_of r; FormatInt (sCode r); reason r] ∧
  ParseInt10 (FormatInt (sCode r)) = Some (sCode r) ∧ ParseHTTPVersion (proto_of r) = Some (sMajor r, sMinor r).
Proof.
  intros [(Hma & Hmi & _) [Hco _] Hre _ _ _ _]. assert (Hd : ∀ n c, 0 ≤ n < 2 ^ 63 → is_digit c = false → in_string c (FormatInt n) = false).
  { intros n c Hn Hc. apply no_char; [done|by apply FormatInt_digits]. }
  assert (Hp : ∀ c, is_digit c = false → c ≠ "."%char → in_string c "HTTP/" = false → in_string c (proto_of r) = false).
  { intros c Hc Hdot Hh. unfold proto_of. rewrite !in_string_app, Hh, !Hd by (done || lia). cbn. rewrite orb_false_r.
    rewrite ?orb_false_r. by apply bool_decide_eq_false_2. }
  unfold status_of. split_and!.
  - rewrite !in_string_app, Hre, Hp, Hd by (done || lia). done.
  - apply split3_parts; [by apply Hp|by apply Hd].
  - pose proof (parse_FormatInt (sCode r) Hco) as Hx. destruct (FormatInt_text (sCode r) Hco) as [Htr Hne].
    unfold parseContentLength in Hx. rewrite Htr, decide_False in Hx by done. destruct (ParseInt10 (FormatInt (sCode r))) as [m|]; [|done].
    destruct (m <? 0); [done|]. by injection Hx as ->.
  - by apply version_roundtrip.
Qed.

(** The value of a key a reader takes: the first of those written. *)
Definition first_written (h : header) (k : string) : string := default "" (written h k ≫= head).

Lemma connection_sent r tw cl :
  Get (header_of (framing_of tw ++ fields (sHeader r) respExcludeHeader ++ zero_length r cl tw)) "Connection" =
    if Transfer.Close tw then "close" else first_written (sHeader r) "Connection".
Proof.
  unfold Get, first_written.
  pose proof (fields_lookup (sHeader r) respExcludeHeader "Connection" ltac:(unfold respExcludeHeader; set_solver)) as Hl.
  assert (filter (λ f, f.1 = "Connection") (zero_length r cl tw) = []) as Hz by (unfold zero_length; by destruct (_ && _)).
  assert (filter (λ f, f.1 = "Connection") (framing_of tw) = if Transfer.Close tw then [("Connection", "close")] else []) as Hf.
  { unfold framing_of. by destruct (Transfer.Close tw), (shouldSendContentLength tw), (chunked (TransferEncoding tw)). }
  rewrite header_of_lookup, !filter_app, Hf, Hz, app_nil_r. rewrite header_of_lookup in Hl. destruct (Transfer.Close tw); [done|].
  rewrite <-Hl. cbn [app]. by destruct (filter _ _).
Qed.

Lemma header_kept r tw cl k :
  k ∉ "Connection" :: framing_fields →
  header_of (framing_of tw ++ fields (sHeader r) respExcludeHeader ++ zero_length r cl tw) !! k = written (sHeader r) k.
Proof.
  unfold framing_fields. rewrite !not_elem_of_cons. intros (H1 & H2 & H3 & H4 & _).
  rewrite header_of_skip, header_of_skip_r; [apply fields_lookup|..].
  - unfold respExcludeHeader. set_solver.
  - unfold zero_length. destruct (_ && _); set_solver.
  - unfold framing_of. destruct (Transfer.Close tw), (shouldSendContentLength tw), (chunked (TransferEncoding tw)); set_solver.
Qed.

(** From HTTP/1.1 on, only a [close] ends the connection. *)
Lemma shouldClose_new r h :
  resp_ProtoAtLeast r 1 1 = true →
  (shouldClose (sMajor r) (sMinor r) h).2 = bool_decide (ToLower (Get h "Connection") = "close").
Proof.
  unfold shouldClose, resp_ProtoAtLeast. intros Hp.
  destruct (Z.ltb_spec (sMajor r) 1); [exfalso; destruct (Z.ltb_spec 1 (sMajor r)), (Z.eqb_spec (sMajor r) 1); lia || done|].
  destruct (Z.eqb_spec (sMajor r) 1), (Z.eqb_spec (sMinor r) 0); cbn [andb];
    try (exfalso; destruct (Z.ltb_spec 1 (sMajor r)), (Z.leb_spec 1 (sMinor r)); lia || done);
    (case_decide; cbn; symmetry; [by apply bool_decide_eq_true_2|by apply bool_decide_eq_false_2]).
Qed.

(** C35: A response written is the response that is read, if its receiver can
    find its end ([deliverable]): the version is HTTP/1.1 or higher, the status
    is one that has a body (not 1xx, 204 or 304) and its text has no newline,
    the request was not HEAD, and not POST or PUT when the length is unknown,
    there is no trailer and no encoding but chunks, the length is below 2^63
    and, without a body, 0 or -1, and a body given with length 0 does not begin
    with an empty read. Whatever way the connection cuts it into segments, reading
    what [Write] writes for such a response gives back its protocol, its status
    code and text, every field that the framing does not use with its values,
    cleaned, in their order, and says the connection is to be closed exactly if the
    response says so, by its flag or as the first value of its Connection field, or
    its length is unknown; and a reader of the body set up then gets exactly the
    data of the response's body. The bytes that follow are left for the next
    response, unless the response was of unknown length: then its end is that of
    the connection. The reader of MIME headers is assumed to read this
    response's fields back. Outside of this responses are not read back:
    [unknown_length_refused], [chunked_head_leaves_line],
    [no_content_body_left] and [first_read_empty]. *)
Theorem response_wire_roundtrip r req wire b rest :
  deliverable r → rMethod <$> req = rMethod <$> sRequest r →
  (∀ f b rest, response_fields r = Ok f → wf b → flat b = fields_text f +:+ CRLF +:+ rest →
     ∃ b', ReadMIMEHeader b = (b', Ok (header_of f)) ∧ wf b' ∧ flat b' = rest) →
  resp_Write Canonical Sort Trailer_Write StatusText r = (wire, Ok ()) →
  wf b → flat b = wire +:+ rest →
  ∃ b' p, ReadResponse Canonical ReadMIMEHeader b req = (b', Ok p) ∧
    sProto (p_Response p) = proto_of r ∧ sMajor (p_Response p) = sMajor r ∧ sMinor (p_Response p) = sMinor r ∧
    sCode (p_Response p) = sCode r ∧ Status (p_Response p) = status_of r ∧
    (∀ k, k ∉ "Cache-Control" :: "Connection" :: framing_fields → sHeader (p_Response p) !! k = written (sHeader r) k) ∧
    sClose (p_Response p) = sClose r || until_close r || bool_decide (ToLower (first_written (sHeader r) "Connection") = "close") ∧
    ∀ RMH n, (0 < n)%nat → ∃ r',
      copy_body RMH (t_Body (p_transfer p)) n b' =
        (r', if until_close r then response_data r +:+ rest else response_data r, Some (if until_close r then end_err b' else EOF)) ∧
      flat r' = if until_close r then "" else rest.
Proof.
  intros Hd Hreq Hmime Hw Hwf Hfl. destruct (resp_write_parts r wire Hw) as (body & cl & tw & fs & bw & Hrb & Htw & Hfs & HwB & ->).
  rewrite (writer_of_response r body cl Hd Hrb) in Htw. injection Htw as <-. set (tw := response_writer r body cl) in *.
  assert (fs = framing_of tw) as -> by (unfold WriteHeader in Hfs; cbn [Transfer.Trailer tw response_writer] in Hfs; by injection Hfs as <-).
  assert (Hf : response_fields r = Ok (framing_of tw ++ fields (sHeader r) respExcludeHeader ++ zero_length r cl tw)).
  { unfold response_fields. rewrite Hrb. cbn [mbind outcome_bind]. rewrite (writer_of_response r body cl Hd Hrb). fold tw. by rewrite Hfs. }
  destruct (response_framing r body cl bw Hd Hrb HwB) as [Htrail Hframe].
  pose proof (header_kept r tw cl) as Hkept. pose proof (connection_sent r tw cl) as Hconn. fold tw in Htrail, Hframe.
  set (f := framing_of tw ++ _) in *. rewrite status_line_parts, <-!str_app_assoc in Hfl.
  destruct (status_line_read r Hd) as (Hlf & Hsplit & Hcode & Hvers).
  destruct (ReadLine_line b (proto_of r +:+ " " +:+ status_of r) (fields_text f +:+ CRLF +:+ bw +:+ rest) Hwf Hlf) as (b1 & Hline & Hwf1 & Hfl1).
  { by rewrite Hfl, <-!str_app_assoc. }
  destruct (Hmime f b1 (bw +:+ rest) Hf Hwf1 Hfl1) as (b2 & HM & Hwf2 & Hfl2). set (h := fixPragmaCacheControl (header_of f)).
  assert (Hh : ∀ k, k ≠ "Cache-Control" → h !! k = header_of f !! k) by (intros; by apply fixPragma_lookup).
  destruct (response_arrives h (sCode r) (rMethod <$> req) (sMajor r) (sMinor r) (until_close r) bw (response_data r)) as (res & Hres & Hother & Hclose & Hbody).
  { destruct Hd as [_ [_ ?] _ [Hm _] _ _ _]. split; [done|]. rewrite Hreq. unfold method_of in Hm. by destruct (sRequest r). }
  { by destruct Hd as [_ [? _] _ _ _ _ _]; lia. }
  { by rewrite Hh. }
  { rewrite <-!Hh in Hframe by done. destruct Hframe as [(? & ? & ? & ? & ?)|[(? & ? & ob & ? & ? & ?)|(? & ? & ? & ?)]];
      [by apply F_length|by eapply F_chunks|by apply F_close]. }
  eexists b2, _. split.
  { unfold ReadResponse. rewrite Hline, Hsplit, Hcode, Hvers, HM. fold h. unfold response_with in Hres. rewrite Hres. reflexivity. }
  cbn [p_Response p_transfer sProto sMajor sMinor sCode Status sHeader sClose head default]. do 5 (split; [done|]). split; [|split].
  - intros k Hk. rewrite not_elem_of_cons in Hk. destruct Hk as [Hk1 Hk]. rewrite Hother by done. rewrite Hh by done. by apply Hkept.
  - rewrite Hclose. destruct Hd as [(_ & _ & Hp) _ _ _ _ _ _]. rewrite (shouldClose_new r h Hp), orb_comm.
    unfold Get. rewrite Hh by done. fold (Get (header_of f) "Connection"). rewrite Hconn. cbn [tw response_writer Transfer.Close].
    by destruct (sClose r), (until_close r); cbn [orb]; rewrite ?orb_false_r.
  - intros RMH n Hn. by apply Hbody.
Qed.

(** A status that begins with its code is read back as it was given. *)
Lemma status_given r x : Status r = FormatInt (sCode r) +:+ " " +:+ x → status_of r = Status r.
Proof.
  intros E. unfold status_of, reason. rewrite decide_False.
  2: { rewrite E. intros Hs. apply (f_equal String.length) in Hs. rewrite !length_str_app in Hs. cbn in Hs. lia. }
  rewrite E. unfold TrimPrefix. replace (FormatInt (sCode r) +:+ " " +:+ x) with ((FormatInt (sCode r) +:+ " ") +:+ x) by (by rewrite <-str_app_assoc).
  by rewrite prefix_app, str_drop_app, <-str_app_assoc.
Qed.

(** *** Responses that are not read back *)

(** A response of unknown length to POST or PUT announces the length -1,
    which no reader takes. *)
Theorem unknown_length_refused r b f method :
  method_of r = "POST" ∨ method_of r = "PUT" → resp_ProtoAtLeast r 1 1 = true → 0 ≤ sCode r → has_body (sCode r) method →
  sTransferEncoding r = [] → response_body r = Ok (Some b, -1) → response_fields r = Ok f →
  header_of f !! "Content-Length" = Some ["-1"] ∧
  readTransfer Canonical (response_with (header_of f) (sCode r) method (sMajor r) (sMinor r)) = Err (ErrBadContentLength "-1").
Proof.
  intros Hm Hp Hc Hb Hte Hrb Hf. unfold response_fields in Hf. rewrite Hrb in Hf. cbn [mbind outcome_bind] in Hf.
  set (tw := {| Method := method_of r; Body := Some b; ResponseToHEAD := false; ContentLength := -1;
                Transfer.Close := o_Close (out_response r (Some b) (-1)); TransferEncoding := []; Transfer.Trailer := None |}).
  assert (Htw : newTransferWriter (out_response r (Some b) (-1)) = Ok tw).
  { unfold newTransferWriter. cbn [out_response is_request o_Body o_Method o_ContentLength o_TransferEncoding andb negb o_Trailer].
    unfold noBodyExpected. rewrite (bool_decide_eq_false_2 (_ = "HEAD")) by (destruct Hm as [-> | ->]; done).
    cbn [andb]. rewrite Hte, (bool_decide_eq_false_2 (Some b = None)) by done. by destruct (negb _ || false). }
  rewrite Htw in Hf. cbn [WriteHeader Transfer.Trailer tw] in Hf. injection Hf as <-. fold (framing_of tw).
  assert (Hs : shouldSendContentLength tw = true).
  { unfold shouldSendContentLength. cbn [tw TransferEncoding ContentLength Method]. change (chunked []) with false. by rewrite (bool_decide_eq_true_2 (_ ∨ _)) by done. }
  unfold WriteHeader, zero_length. cbn [Transfer.Trailer tw]. fold tw. rewrite Hs, andb_false_r.
  assert (Hl : ∀ k, k ∈ respExcludeHeader → header_of (((if Transfer.Close tw then [("Connection", "close")] else []) ++
    [("Content-Length", FormatInt (-1))]) ++ fields (sHeader r) respExcludeHeader ++ []) !! k = if decide (k = "Content-Length") then Some ["-1"] else None).
  { intros k Hk. rewrite excluded_lookup by done. unfold respExcludeHeader in Hk. rewrite !elem_of_cons, elem_of_nil in Hk.
    destruct (Transfer.Close tw); destruct Hk as [->|[->|[->|[]]]]; done. }
  change (ContentLength tw) with (-1). set (h := header_of _) in *.
  pose proof (Hl "Content-Length" ltac:(unfold respExcludeHeader; set_solver)) as H1.
  pose proof (Hl "Transfer-Encoding" ltac:(unfold respExcludeHeader; set_solver)) as H2.
  rewrite decide_True in H1 by done. rewrite decide_False in H2 by done. split; [done|].
  unfold readTransfer. cbn [isResponse response_with i_Header i_Major i_Minor RequestMethod StatusCode].
  pose proof (shouldClose_lookup h (sMajor r) (sMinor r) "Transfer-Encoding" ltac:(done)) as L1.
  pose proof (shouldClose_lookup h (sMajor r) (sMinor r) "Content-Length" ltac:(done)) as L2.
  destruct (shouldClose (sMajor r) (sMinor r) h) as [h' c]. cbn [fst] in L1, L2. unfold fixTransferEncoding. rewrite L1, H2.
  cbn [mbind outcome_bind]. rewrite (fixLength_response (sCode r) method Hb Hc). change (chunked []) with false. cbn [negb].
  assert (Get h' "Content-Length" = "-1") as -> by (unfold Get; by rewrite L2, H1). reflexivity.
Qed.

(** A response to HEAD that is in chunks leaves a line behind. *)
Theorem chunked_head_leaves_line m t :
  is_request m = false → o_Method m = "HEAD" → chunked (o_TransferEncoding m) = true → o_Trailer m = None →
  newTransferWriter m = Ok t →
  WriteBody Trailer_Write t = (CRLF, None) ∧
  ∀ h code major minor, 0 ≤ code → h !! "Transfer-Encoding" = Some ["chunked"] → h !! "Trailer" = None → h !! "Content-Length" = None →
    ∃ res, readTransfer Canonical (response_with h code (Some "HEAD") major minor) = Ok res ∧
      ∀ RMH n b, copy_body RMH (t_Body res) n b = (b, "", Some EOF).
Proof.
  intros Hq Hm Hc Ht Hnew. unfold newTransferWriter in Hnew. rewrite Hq, Hm, Hc, Ht in Hnew. cbn in Hnew. injection Hnew as <-. split.
  { unfold WriteBody, write_body. cbn. by rewrite Hc. }
  intros h code major minor Hcode Hte Htr Hcl. unfold readTransfer. cbn [isResponse response_with i_Header i_Major i_Minor RequestMethod StatusCode].
  pose proof (shouldClose_lookup h major minor "Transfer-Encoding" ltac:(done)) as L1.
  pose proof (shouldClose_lookup h major minor "Trailer" ltac:(done)) as L3.
  destruct (shouldClose major minor h) as [h' c]. cbn [fst] in L1, L3. unfold fixTransferEncoding. rewrite L1, Hte.
  assert (read_encodings (split_on "," "chunked") = Ok ["chunked"]) as -> by (by vm_compute).
  cbn [mbind outcome_bind]. change (default "GET" (Some "HEAD")) with "HEAD". set (h2 := delete "Content-Length" (delete "Transfer-Encoding" h')).
  change (fixLength true code "HEAD" h2 ["chunked"]) with (h2, @Ok terr Z 0). cbn [mbind outcome_bind].
  rewrite (bool_decide_eq_true_2 ("HEAD" = "HEAD")), Get_None by (done || by subst h2; rewrite lookup_delete_eq).
  change (if true && true then parseContentLength "" else mret 0) with (@Ok terr Z (-1)). cbn [mbind outcome_bind].
  rewrite fixTrailer_none by (subst h2; by rewrite !lookup_delete_ne, L3). by eexists.
Qed.

(** The body of a response whose status has none is written all the same,
    and left on the connection by who reads it. *)
Theorem no_content_body_left h code method major minor n :
  bodyAllowedForStatus code = false → 0 ≤ code → default "GET" method ≠ "HEAD" →
  h !! "Transfer-Encoding" = None → h !! "Content-Length" = Some [FormatInt n] → h !! "Trailer" = None →
  ∃ res, readTransfer Canonical (response_with h code method major minor) = Ok res ∧
    ∀ RMH k b, copy_body RMH (t_Body res) k b = (b, "", Some EOF).
Proof.
  intros Hs Hc Hm Hte Hcl Htr. unfold readTransfer. cbn [isResponse response_with i_Header i_Major i_Minor RequestMethod StatusCode].
  pose proof (shouldClose_lookup h major minor "Transfer-Encoding" ltac:(done)) as L1.
  pose proof (shouldClose_lookup h major minor "Trailer" ltac:(done)) as L3.
  destruct (shouldClose major minor h) as [h' c]. cbn [fst] in L1, L3. unfold fixTransferEncoding. rewrite L1, Hte. cbn [mbind outcome_bind].
  assert (fixLength true code (default "GET" method) h' [] = (h', Ok 0)) as ->.
  { unfold fixLength, noBodyExpected. rewrite bool_decide_eq_false_2 by done. unfold bodyAllowedForStatus in Hs.
    destruct (Z.leb_spec 100 code), (Z.leb_spec code 199); cbn [andb] in Hs.
    1: { rewrite decide_True; [done|]. pose proof (Z.quot_rem code 100 ltac:(lia)). pose proof (Z.rem_bound_pos code 100 ltac:(lia) ltac:(lia)). lia. }
    all: case_decide; [done|]; rewrite decide_True; [done|]; destruct (Z.eqb_spec code 204), (Z.eqb_spec code 304); auto; done. }
  cbn [mbind outcome_bind]. rewrite (bool_decide_eq_false_2 (_ = "HEAD")) by done. cbn [andb mret outcome_ret outcome_bind].
  rewrite fixTrailer_none by (by rewrite L3). by eexists.
Qed.

(** A body whose first read gives nothing, with no error, is taken for empty. *)
Theorem first_read_empty r rs e c :
  sBody r = Some {| reads := "" :: rs; b_end := e; b_close := c |} → sContentLength r = 0 → response_body r = Ok (Some empty_body, 0).
Proof. intros Hb Hc. unfold response_body. by rewrite Hb, Hc. Qed.
End writing.

(** *** An example: the answer to a registration *)

#[local] Existing Instance example_lib.

Definition example_response : Response :=
  {| Status := "200 OK"; sCode := 200; sProto := "HTTP/1.1"; sMajor := 1; sMinor := 1;
     sHeader := {["Content-Type" := ["application/json"]; "Content-Length" := ["ignored"]]};
     sBody := Some {| reads := ["{tok"; "en}"]; b_end := None; b_close := None |}; sContentLength := 7;
     sTransferEncoding := []; sClose := false; sTrailer := None; sRequest := Some example_request |}.
Definition example_fields : list (string * string) := [("Content-Length", "7"); ("Content-Type", "application/json")].
Definition example_MIME : reader → reader * outcome ioerr header := known_header (fields_text example_fields +:+ CRLF) (header_of example_fields).

Lemma example_deliverable : deliverable (λ _, "") example_response.
Proof.
  split; [cbn; lia|split; [cbn; lia|reflexivity]|reflexivity|split; [discriminate|discriminate]|split; [reflexivity|by left]|split; [cbn; lia|discriminate]|].
  intros b [= <-]. split; [repeat constructor|discriminate].
Qed.

Lemma response_wire_roundtrip_witness :
  ∃ wire b' p, resp_Write (λ k, k) (λ l, l) (λ _, "") (λ _, "") example_response = (wire, Ok ()) ∧
    ReadResponse (λ k, k) example_MIME {| buf := ""; src := [wire; "HTTP"]; end_err := EOF |} (Some example_request) = (b', Ok p) ∧
    Status (p_Response p) = "200 OK" ∧ sHeader (p_Response p) !! "Content-Type" = Some ["application/json"] ∧
    ∃ r', copy_body (λ r, (r, Err EOF)) (t_Body (p_transfer p)) 3 b' = (r', "{token}", Some EOF) ∧ flat r' = "HTTP".
Proof.
  eassert (resp_Write (λ k, k) (λ l, l) (λ _, "") (λ _, "") example_response = (_, Ok ())) as Hw by (vm_compute; reflexivity).
  match type of Hw with _ = (?w, _) => set (wire := w) in Hw end.
  destruct (response_wire_roundtrip (λ k, k) (λ l, l) (λ _, "") example_MIME (λ _, "") example_response (Some example_request) wire
    {| buf := ""; src := [wire; "HTTP"]; end_err := EOF |} "HTTP") as (b' & p & HR & _ & _ & _ & _ & Hs & Hh & _ & Hc).
  - exact example_deliverable.
  - reflexivity.
  - intros f b rest Hf Hwf Hfl. vm_compute in Hf. injection Hf as <-. apply known_header_reads. rewrite Hfl. by rewrite <- str_app_assoc.
  - exact Hw.
  - split; [repeat constructor; discriminate|cbn; lia].
  - vm_compute. reflexivity.
  - exists wire, b', p. split; [exact Hw|]. split; [exact HR|]. split; [by rewrite Hs|]. split.
    + rewrite Hh; [vm_compute; reflexivity|]. apply (bool_decide_unpack _). vm_compute. exact I.
    + destruct (Hc (λ r, (r, Err EOF)) 3%nat ltac:(lia)) as (r' & Hr & Hfl). exists r'. split; [exact Hr|exact Hfl].
Defined.
End ResponseProps.
