(* ===== verification/HttpLogging.v ===== *)
(** The small types around the connections of the patched HTTP client: the
    connection that logs what is done to it (http13client/server.go), and the
    errors of the transport (http13client/transport.go). *)

From S2P Require Import Prelude HttpBody HttpTransfer HttpMessage.
Import Transfer.

Module LoggingConn.
Local Open Scope Z_scope.

(** The counters of names, and the log, under the package's lock. *)
Record logging := { uniqNameNext : gmap string Z; log : list string }.

Section conn.
(** The connection underneath: writing bytes, reading at most [n], closing. *)
Context {C : Type} (Write_ : string → C → C * Z * option string) (Read_ : Z → C → C * string * option string) (Close_ : C → C * option string).

Record loggingConn := { name : string; inner : C }.

Definition newLoggingConn (baseName : string) (c : C) (w : logging) : logging * loggingConn :=
  let n := default 0 (uniqNameNext w !! baseName) + 1 in
  ({| uniqNameNext := <[baseName := n]> (uniqNameNext w); log := log w |}, {| name := baseName +:+ "-" +:+ FormatInt n; inner := c |}).

Definition Printf (line : string) (w : logging) : logging := {| uniqNameNext := uniqNameNext w; log := log w ++ [line] |}.
(** [%v] of an error. *)
Definition show_err (err : option string) : string := default "<nil>" err.

Definition Write (p : string) (c : loggingConn) (w : logging) : logging * loggingConn * (Z * option string) :=
  let call := name c +:+ ".Write(" +:+ FormatInt (len p) +:+ ") = " in
  let w := Printf (call +:+ "....") w in
  let '(i, n, err) := Write_ p (inner c) in
  (Printf (call +:+ FormatInt n +:+ ", " +:+ show_err err) w, {| name := name c; inner := i |}, (n, err)).

Definition Read (n : Z) (c : loggingConn) (w : logging) : logging * loggingConn * (string * option string) :=
  let call := name c +:+ ".Read(" +:+ FormatInt n +:+ ") = " in
  let w := Printf (call +:+ "....") w in
  let '(i, x, err) := Read_ n (inner c) in
  (Printf (call +:+ FormatInt (len x) +:+ ", " +:+ show_err err) w, {| name := name c; inner := i |}, (x, err)).

Definition Close (c : loggingConn) (w : logging) : logging * loggingConn * option string :=
  let call := name c +:+ ".Close() = " in
  let w := Printf (call +:+ "...") w in
  let '(i, err) := Close_ (inner c) in
  (Printf (call +:+ show_err err) w, {| name := name c; inner := i |}, err).
End conn.
End LoggingConn.

(** ** Errors of the transport *)
Module Errors.
Import Bufio.

Record httpError := { err : string; timeout : bool }.
Definition Error (e : httpError) : string := err e.
Definition Timeout (e : httpError) : bool := timeout e.
Definition Temporary (_ : httpError) : bool := true.
Definition errTimeout : httpError := {| err := "net/http: timeout awaiting response headers"; timeout := true |}.
Definition errClosed : httpError := {| err := "net/http: transport closed before response was received"; timeout := false |}.
Definition tlsHandshakeTimeoutError : httpError := {| err := "net/http: TLS handshake timeout"; timeout := true |}.

(** Whether an error says that the other side closed: the end of the
    connection, or what the platform's function says. *)
Definition remoteSideClosed (remoteSideClosedFunc : option (ioerr → bool)) (e : ioerr) : bool :=
  if decide (e = EOF) then true else match remoteSideClosedFunc with Some f => f e | None => false end.
End Errors.

(** ** Laws *)
Module LoggingProps.
Import LoggingConn TransferProps FormProps.
Local Open Scope Z_scope.

Section conn.
Context {C : Type} (Write_ : string → C → C * Z * option string) (Read_ : Z → C → C * string * option string) (Close_ : C → C * option string).

(** Logging changes nothing but the log, which gets two lines. *)
Theorem logging_transparent p n (c : loggingConn (C := C)) w :
  (let '(w', c', r) := Write Write_ p c w in
   (inner c', r.1, r.2) = Write_ p (inner c) ∧ name c' = name c ∧ take (length (log w)) (log w') = log w ∧ length (log w') = (length (log w) + 2)%nat) ∧
  (let '(w', c', r) := Read Read_ n c w in
   (inner c', r.1, r.2) = Read_ n (inner c) ∧ name c' = name c ∧ take (length (log w)) (log w') = log w ∧ length (log w') = (length (log w) + 2)%nat) ∧
  (let '(w', c', r) := Close Close_ c w in
   (inner c', r) = Close_ (inner c) ∧ name c' = name c ∧ take (length (log w)) (log w') = log w ∧ length (log w') = (length (log w) + 2)%nat).
Proof.
  assert (Hl : ∀ (l : list string) x y, take (length l) ((l ++ [x]) ++ [y]) = l ∧ length ((l ++ [x]) ++ [y]) = (length l + 2)%nat).
  { intros l x y. rewrite <-app_assoc, take_app_length, !length_app. cbn. split; [done|lia]. }
  unfold Write, Read, Close. destruct (Write_ p (inner c)) as [[i k] e], (Read_ n (inner c)) as [[i' x] e'], (Close_ (inner c)) as [i2 e2].
  split_and!; try done; apply Hl.
Qed.

(** *** Names *)

Lemma dash_split a b x y :
  in_string "-" x = false → in_string "-" y = false → a +:+ "-" +:+ x = b +:+ "-" +:+ y → a = b ∧ x = y.
Proof.
  intros Hx Hy. rewrite !(str_app_cons "-" ""), !str_app_nil. revert b.
  assert (Hd : ∀ s z, in_string "-" (s +:+ String "-" z) = true) by (intros; by rewrite in_string_app, orb_true_r).
  induction a as [|c a IH]; intros [|d b]; rewrite ?str_app_nil, ?str_app_cons; intros E.
  - by injection E as ->.
  - injection E as _ E. by rewrite E, Hd in Hx.
  - injection E as _ E. by rewrite <-E, Hd in Hy.
  - injection E as -> E. by destruct (IH b E) as [-> ->].
Qed.

Lemma FormatInt_inj m n : 0 ≤ m < 2 ^ 63 → 0 ≤ n < 2 ^ 63 → FormatInt m = FormatInt n → m = n.
Proof. intros Hm Hn E. pose proof (parse_FormatInt m Hm) as H1. rewrite E, parse_FormatInt in H1 by done. by injection H1. Qed.

Lemma no_dash n : 0 ≤ n < 2 ^ 63 → in_string "-" (FormatInt n) = false.
Proof.
  intros Hn. pose proof (FormatInt_digits n Hn) as Hd. induction (FormatInt n) as [|a s IH]; [done|]. cbn in *.
  apply andb_true_iff in Hd as [Ha Hd]. rewrite IH, orb_false_r by done. apply bool_decide_eq_false_2. intros ->. by vm_compute in Ha.
Qed.

Lemma name_inj a b m n :
  0 ≤ m < 2 ^ 63 → 0 ≤ n < 2 ^ 63 → a +:+ "-" +:+ FormatInt m = b +:+ "-" +:+ FormatInt n → a = b ∧ m = n.
Proof. intros Hm Hn E. apply dash_split in E as [-> E]; [|by apply no_dash..]. split; [done|]. by apply FormatInt_inj. Qed.

(** Wrapping one connection after the other. *)
Fixpoint wrap (cs : list (string * C)) (w : logging) : logging * list (loggingConn (C := C)) :=
  match cs with
  | [] => (w, [])
  | (b, c) :: cs => let '(w, l) := newLoggingConn b c w in let '(w, ls) := wrap cs w in (w, l :: ls)
  end.

Lemma wrap_names cs w :
  (∀ b, 0 ≤ default 0 (uniqNameNext w !! b) < 2 ^ 63 - Z.of_nat (length cs)) →
  NoDup (name <$> (wrap cs w).2) ∧
  (∀ x, x ∈ name <$> (wrap cs w).2 → ∃ b n, x = b +:+ "-" +:+ FormatInt n ∧ default 0 (uniqNameNext w !! b) < n < 2 ^ 63).
Proof.
  revert w. induction cs as [|[b c] cs IH]; intros w Hw; cbn [wrap]; [split; [constructor|by intros x ?%elem_of_nil]|].
  cbn [newLoggingConn]. set (n := default 0 (uniqNameNext w !! b) + 1). set (w1 := {| uniqNameNext := _ |}).
  cbn [length] in Hw. assert (Hn : 0 < n < 2 ^ 63) by (subst n; specialize (Hw b); lia).
  assert (Hnext : ∀ b', default 0 (uniqNameNext w1 !! b') = if decide (b = b') then n else default 0 (uniqNameNext w !! b')).
  { intros b'. subst w1. cbn. case_decide as E; [by subst b'; rewrite lookup_insert_eq|by rewrite lookup_insert_ne]. }
  destruct (IH w1) as [Hnd Hin]. { intros b'. rewrite Hnext. pose proof (Hw b'). case_decide; subst; lia. }
  destruct (wrap cs w1) as [w2 ls]. cbn in *. split.
  - constructor; [|done]. intros (b' & m & E & Hm)%Hin. rewrite Hnext in Hm. pose proof (Hw b').
    apply name_inj in E as [-> ->]; [rewrite decide_True in Hm by done; lia|lia|case_decide; lia].
  - intros x [->|(b' & m & -> & Hm)%Hin]%elem_of_cons; [exists b, n; split; [done|lia]|].
    exists b', m. split; [done|]. rewrite Hnext in Hm. case_decide; subst; lia.
Qed.

(** No two connections have the same name. *)
Theorem names_unique cs w :
  uniqNameNext w = ∅ → Z.of_nat (length cs) < 2 ^ 63 → NoDup (name <$> (wrap cs w).2).
Proof. intros Hw Hl. apply wrap_names. intros b. rewrite Hw, lookup_empty. cbn. lia. Qed.
End conn.
End LoggingProps.
