(* ===== verification/HttpClient.v ===== *)
(** The client of the patched HTTP package (http13client/client.go): sending a
    request with its cookies and credentials, and following redirects.

    What a transport and a cookie jar answer depends on a state of theirs
    that is a parameter. Responses are numbered as they come, so that the
    bodies still open can be counted. *)

From S2P Require Import Prelude HttpText HttpBody HttpTransfer HttpMessage.
Import Text Transfer Message.

Module Client.

(** The last index of a character, -1 for none. *)
Fixpoint last_index (c : ascii) (s : string) (i : Z) (found : Z) : Z :=
  match s with
  | EmptyString => found
  | String a s => last_index c s (i + 1)%Z (if decide (a = c) then i else found)
  end.
Definition LastIndex (c : ascii) (s : string) : Z := last_index c s 0 (-1).
Definition hasPort (s : string) : bool := (LastIndex "]" s <? LastIndex ":" s)%Z.

Definition shouldRedirectGet (statusCode : Z) : bool := bool_decide (statusCode ∈ [301; 302; 303; 307]%Z).
Definition shouldRedirectPost (statusCode : Z) : bool := bool_decide (statusCode ∈ [302; 303]%Z).

Section client.
Context `{!URLLib} {W : Type}.
Context (Parse_RFC1123 Parse_dashed : string → option Z).

(** A transport, and whether it can cancel requests. *)
Record transport := { RoundTrip : W → Request → W * outcome string Response; can_cancel : bool }.
Record jar := { jar_Cookies : W → URL → list (string * string); jar_SetCookies : W → URL → list Cookie.Cookie → W }.

Record client := {
  Transport : option transport;
  CheckRedirect : option (Request → list Request → option string);
  Jar : option jar;
  Timeout : Z;
}.

Context (DefaultTransport : option transport).

(** A request handed to the transport: what its answer depends on, and the
    answer. *)
Record exchange := Exchange { x_world : W; x_req : Request; x_answer : outcome string Response }.

Record cstate := {
  world : W;
  wire : list exchange;      (** what went over the wire so far *)
  answers : nat;             (** responses so far *)
  open : gset nat;           (** the responses whose bodies are open *)
  closed_bodies : nat;       (** request bodies closed unsent *)
  current : option Request;  (** the request a timeout cancels *)
  timer : bool;
}.

Definition with_world (w : W) (s : cstate) : cstate :=
  {| world := w; wire := wire s; answers := answers s; open := open s; closed_bodies := closed_bodies s;
     current := current s; timer := timer s |}.
Definition with_current (r : option Request) (s : cstate) : cstate :=
  {| world := world s; wire := wire s; answers := answers s; open := open s; closed_bodies := closed_bodies s;
     current := r; timer := timer s |}.
Definition with_timer (t : bool) (s : cstate) : cstate :=
  {| world := world s; wire := wire s; answers := answers s; open := open s; closed_bodies := closed_bodies s;
     current := current s; timer := t |}.

(** [resp.Body.Close] *)
Definition close_resp (n : nat) (s : cstate) : cstate :=
  {| world := world s; wire := wire s; answers := answers s; open := open s ∖ {[n]}; closed_bodies := closed_bodies s;
     current := current s; timer := timer s |}.
(** [req.closeBody] *)
Definition closeBody (r : Request) (s : cstate) : cstate :=
  {| world := world s; wire := wire s; answers := answers s; open := open s;
     closed_bodies := (match rBody r with Some _ => S (closed_bodies s) | None => closed_bodies s end);
     current := current s; timer := timer s |}.

(** One transaction; the response gets the next number. *)
Definition round_trip (t : transport) (r : Request) (s : cstate) : cstate * outcome herr (nat * Response) :=
  let '(w, o) := RoundTrip t (world s) r in
  let s := {| world := w; wire := wire s ++ [Exchange (world s) r o]; answers := answers s; open := open s; closed_bodies := closed_bodies s;
              current := current s; timer := timer s |} in
  match o with
  | Ok p =>
      ({| world := w; wire := wire s; answers := S (answers s); open := {[answers s]} ∪ open s;
          closed_bodies := closed_bodies s; current := current s; timer := timer s |}, Ok (answers s, p))
  | Err e => (s, Err (EText e))
  | Panic => (s, Panic)
  end.

(** [send]: the request as it is sent, and the answer. *)
Definition send (r : Request) (t : option transport) (s : cstate) : cstate * outcome herr (Request * (nat * Response)) :=
  match t with
  | None => (closeBody r s, Err (EText "http: no Client.Transport or DefaultTransport"))
  | Some t =>
      match rURL r with
      | None => (closeBody r s, Err (EText "http: nil Request.URL"))
      | Some u =>
          if decide (RequestURI r ≠ "") then (closeBody r s, Err (EText "http: Request.RequestURI can't be set in client requests."))
          else
            let h := default ∅ (rHeader r) in
            let h := match User u with
                     | Some (name, pw) => <["Authorization" := ["Basic " +:+ basicAuth name (default "" pw)]]> h
                     | None => h
                     end in
            let r := with_rHeader (Some h) r in
            let '(s, o) := round_trip t r s in
            (s, (λ p, (r, p)) <$> o)
      end
  end.

Definition the_transport (c : client) : option transport :=
  match Transport c with Some t => Some t | None => DefaultTransport end.

Fixpoint add_cookies (cs : list (string * string)) (r : Request) : outcome herr Request :=
  match cs with [] => Ok r | (n, v) :: cs => r ← AddCookie n v r; add_cookies cs r end.

(** [c.send] *)
Definition c_send (c : client) (r : Request) (s : cstate) : cstate * outcome herr (Request * (nat * Response)) :=
  match Jar c with
  | None => send r (the_transport c) s
  | Some j =>
      match rURL r with
      | None => send r (the_transport c) s
      | Some u =>
          match add_cookies (jar_Cookies j (world s) u) r with
          | Err e => (s, Err e)
          | Panic => (s, Panic)
          | Ok r =>
              match send r (the_transport c) s with
              | (s, Ok (r, (n, p))) =>
                  match resp_Cookies Parse_RFC1123 Parse_dashed p with
                  | [] => (s, Ok (r, (n, p)))
                  | rc => (with_world (jar_SetCookies j (world s) u rc) s, Ok (r, (n, p)))
                  end
              | res => res
              end
          end
      end
  end.

Definition defaultCheckRedirect (req : Request) (via : list Request) : option string :=
  if bool_decide (10 ≤ length via) then Some "stopped after 10 redirects" else None.

Definition redirect_method (m : string) : string := if decide (m = "POST" ∨ m = "PUT") then "GET" else m.

(** A request for a redirect: [new(Request)] with some fields. *)
Definition new_request (m : string) (u : URL) (h : header) : Request :=
  {| rMethod := m; rURL := Some u; Proto := ""; rMajor := 0; rMinor := 0; rHeader := Some h; rBody := None;
     rContentLength := 0; rTransferEncoding := []; rClose := false; Host := ""; Form := None; PostForm := None;
     MultipartForm := None; rTrailer := None; RequestURI := "" |}.

(** Why the loop ends: with a response, or broken off at a URL with an error
    (from the redirect policy or not) and the last response. *)
Inductive ending :=
| Done (n : nat) (p : Response)
| Broke (urlStr : string) (err : herr) (redirectFailed : bool) (resp : option (nat * Response)).

Inductive progress := Stop (e : ending) | Go (last : Request) (via : list Request) (urlStr : string) (resp : nat * Response).

(** The next request of the loop. *)
Definition next_request (c : client) (ireq last : Request) (via : list Request) (urlStr : string) (resp : nat * Response)
    : ending + Request :=
  match rURL last with
  | None => inl (Broke urlStr (EText "http: nil Request.URL") false (Some resp))
  | Some base =>
      match url_Resolve base urlStr with
      | inl e => inl (Broke urlStr (EText e) false (Some resp))
      | inr u =>
          let h : header := if decide (Scheme base ≠ "https") then {["Referer" := [url_String base]]} else ∅ in
          let nreq := new_request (redirect_method (rMethod ireq)) u h in
          match default defaultCheckRedirect (CheckRedirect c) nreq via with
          | Some e => inl (Broke urlStr (EText e) true (Some resp))
          | None => inr nreq
          end
      end
  end.

(** Sending it and looking at the answer. *)
Definition one_request (c : client) (shouldRedirect : Z → bool) (req : Request) (via : list Request) (s : cstate)
    : cstate * outcome herr progress :=
  let urlStr := default "" (url_String <$> rURL req) in
  match c_send c req (with_current (Some req) s) with
  | (s, Err e) => (s, Ok (Stop (Broke urlStr e false None)))
  | (s, Panic) => (s, Panic)
  | (s, Ok (req, (n, p))) =>
      if shouldRedirect (sCode p) then
        let s := close_resp n s in
        let loc := Get (sHeader p) "Location" in
        if decide (loc = "") then
          (s, Ok (Stop (Broke loc (EText "response missing Location header") false (Some (n, p)))))
        else (s, Ok (Go req (via ++ [req]) loc (n, p)))
      else (s, Ok (Stop (Done n p)))
  end.

(** The loop after a first answer. *)
Fixpoint redirects (fuel : nat) (c : client) (shouldRedirect : Z → bool) (ireq last : Request) (via : list Request)
    (urlStr : string) (resp : nat * Response) (s : cstate) : option (cstate * outcome herr ending) :=
  match fuel with
  | O => None
  | S fuel =>
      match next_request c ireq last via urlStr resp with
      | inl e => Some (s, Ok e)
      | inr req =>
          match one_request c shouldRedirect req via s with
          | (s, Ok (Stop e)) => Some (s, Ok e)
          | (s, Ok (Go req via urlStr resp)) => redirects fuel c shouldRedirect ireq req via urlStr resp s
          | (s, Err e) => Some (s, Err e)
          | (s, Panic) => Some (s, Panic)
          end
      end
  end.

(** [url.Error]: the operation, the URL and the error. *)
Record url_error := { Op : string; e_URL : string; e_Err : herr }.
Definition op_name (m : string) : string :=
  match m with EmptyString => "" | String a m => String a (ToLower m) end.

Definition result : Type := option (nat * Response) * option url_error.

(** What is returned, and the last response is closed. *)
Definition finish (m : string) (e : ending) (s : cstate) : cstate * result :=
  match e with
  | Done n p => (s, (Some (n, p), None))
  | Broke urlStr err failed resp =>
      let ue := Some {| Op := op_name m; e_URL := urlStr; e_Err := err |} in
      if failed then (s, (resp, ue))
      else (match resp with Some (n, _) => close_resp n s | None => s end, (None, ue))
  end.

Definition doFollowingRedirects (fuel : nat) (c : client) (ireq : Request) (shouldRedirect : Z → bool) (s : cstate)
    : option (cstate * outcome herr result) :=
  match rURL ireq with
  | None => Some (closeBody ireq s, Err (EText "http: nil Request.URL"))
  | Some _ =>
      if (0 <? Timeout c)%Z && negb (default false (can_cancel <$> the_transport c)) then
        Some (s, Err (EText "net/http: Client Transport doesn't support CancelRequest; Timeout not supported"))
      else
        let s := if (0 <? Timeout c)%Z then with_timer true s else s in
        match one_request c shouldRedirect ireq [] s with
        | (s, Ok (Stop e)) => let '(s, r) := finish (rMethod ireq) e s in Some (s, Ok r)
        | (s, Ok (Go req via urlStr resp)) =>
            match redirects fuel c shouldRedirect ireq req via urlStr resp s with
            | None => None
            | Some (s, Ok e) => let '(s, r) := finish (rMethod ireq) e s in Some (s, Ok r)
            | Some (s, Err e) => Some (s, Err e)
            | Some (s, Panic) => Some (s, Panic)
            end
        | (s, Err e) => Some (s, Err e)
        | (s, Panic) => Some (s, Panic)
        end
  end.

Definition Do (fuel : nat) (c : client) (req : Request) (s : cstate) : option (cstate * outcome herr result) :=
  if decide (rMethod req = "GET" ∨ rMethod req = "HEAD") then doFollowingRedirects fuel c req shouldRedirectGet s
  else if decide (rMethod req = "POST" ∨ rMethod req = "PUT") then doFollowingRedirects fuel c req shouldRedirectPost s
  else
    Some (match c_send c req s with
          | (s, Ok (_, p)) => (s, Ok (Some p, None))
          | (s, Err e) => (s, Err e)
          | (s, Panic) => (s, Panic)
          end).

Definition request_then (o : outcome herr Request) (f : Request → option (cstate * outcome herr result)) (s : cstate)
    : option (cstate * outcome herr result) :=
  match o with Ok r => f r | Err e => Some (s, Err e) | Panic => Some (s, Panic) end.

Definition c_Get (fuel : nat) (c : client) (url : string) (s : cstate) :=
  request_then (NewRequest "GET" url NilBody) (λ r, doFollowingRedirects fuel c r shouldRedirectGet s) s.
Definition c_Head (fuel : nat) (c : client) (url : string) (s : cstate) :=
  request_then (NewRequest "HEAD" url NilBody) (λ r, doFollowingRedirects fuel c r shouldRedirectGet s) s.
Definition c_Post (fuel : nat) (c : client) (url bodyType : string) (body : body_arg) (s : cstate) :=
  request_then (r ← NewRequest "POST" url body; hset "Content-Type" bodyType r)
    (λ r, doFollowingRedirects fuel c r shouldRedirectPost s) s.
Definition c_PostForm (Encode : values → string) (fuel : nat) (c : client) (url : string) (d : values) (s : cstate) :=
  c_Post fuel c url "application/x-www-form-urlencoded"
    (SizedBody {| reads := [Encode d]; b_end := None; b_close := None |}) s.

Definition DefaultClient : client := {| Transport := None; CheckRedirect := None; Jar := None; Timeout := 0 |}.
Definition Get_ (fuel : nat) := c_Get fuel DefaultClient.
Definition Head (fuel : nat) := c_Head fuel DefaultClient.
Definition Post (fuel : nat) := c_Post fuel DefaultClient.
Definition PostForm_ (Encode : values → string) (fuel : nat) := c_PostForm Encode fuel DefaultClient.

(** [cancelTimerBody]: the timer stops at the end of the body. *)
Definition timer_Read {R} (Read : R → R * string * option ioerr) (b : R) (s : cstate) : R * string * option ioerr * cstate :=
  let '(b, x, e) := Read b in (b, x, e, if decide (e = Some EOF) then with_timer false s else s).
Definition timer_Close (n : nat) (s : cstate) : cstate := with_timer false (close_resp n s).

(** What a timeout cancels. *)
Definition timeout_fires (s : cstate) : option Request := if timer s then current s else None.
End client.
End Client.

Module RedirectProps.
Import Client.

Section props.
Context `{!URLLib} {W : Type}.
Context (Parse_RFC1123 Parse_dashed : string → option Z) (DefaultTransport : option (@transport W)).
Implicit Types (s : @cstate W) (c : @client W) (r : Request).

Definition hdr (r : Request) : header := default ∅ (rHeader r).
#[local] Abbreviation transport_for := (the_transport DefaultTransport).
#[local] Abbreviation exchange := (@exchange W).

(** *** What sending adds to a request *)

(** The Cookie field [cs] extend, and the jar's cookies for a URL. *)
Definition add_pair (line : string) (c : string * string) : string :=
  let s := Cookie.sanitizeCookieName c.1 +:+ "=" +:+ Cookie.sanitizeCookieValue c.2 in
  if decide (line = "") then s else line +:+ "; " +:+ s.
Definition cookie_field (cs : list (string * string)) (old : option (list string)) : option (list string) :=
  match cs with [] => old | _ => Some [foldl add_pair (default "" (old ≫= head)) cs] end.
Definition jar_cookies c (w : W) (u : URL) : list (string * string) :=
  match Jar c with Some j => jar_Cookies j w u | None => [] end.

(** The credentials of the URL, if it has some. *)
Definition auth_field (u : URL) (old : option (list string)) : option (list string) :=
  match User u with Some (name, pw) => Some ["Basic " +:+ basicAuth name (default "" pw)] | None => old end.

(** [r'] is [r] as it is sent in the world [w]: its own fields, the Cookie field
    extended by the jar's cookies for its URL, the credentials of its URL. *)
Definition sent_as c (w : W) (r r' : Request) : Prop :=
  r' = with_rHeader (Some (hdr r')) r ∧ ∃ u, rURL r = Some u ∧
  ∀ k, hdr r' !! k =
    if decide (k = "Cookie") then cookie_field (jar_cookies c w u) (hdr r !! k)
    else if decide (k = "Authorization") then auth_field u (hdr r !! k) else hdr r !! k.

Lemma sent_as_keeps c w r r' : sent_as c w r r' → rURL r' = rURL r ∧ rMethod r' = rMethod r ∧ rBody r' = rBody r.
Proof. intros (-> & _). done. Qed.

Definition with_credentials (u : URL) (r r' : Request) : Prop :=
  r' = with_rHeader (Some (hdr r')) r ∧
  ∀ k, hdr r' !! k = if decide (k = "Authorization") then auth_field u (hdr r !! k) else hdr r !! k.

(** *** What goes over the wire *)

(** What the jar makes of the answer. *)
Definition world_after c (w : W) (x : exchange) : W :=
  match Jar c, rURL (x_req x), x_answer x with
  | Some j, Some u, Ok p =>
      match resp_Cookies Parse_RFC1123 Parse_dashed p with [] => w | rc => jar_SetCookies j w u rc end
  | _, _, _ => w
  end.

(** The answers are the transport's, one after the other. *)
Fixpoint transcript c (w : W) (xs : list exchange) (w' : W) : Prop :=
  match xs with
  | [] => w' = w
  | x :: xs => x_world x = w ∧ ∃ t w1, transport_for c = Some t ∧
      RoundTrip t w (x_req x) = (w1, x_answer x) ∧ transcript c (world_after c w1 x) xs w'
  end.

Lemma transcript_app c w xs w1 ys w2 : transcript c w xs w1 → transcript c w1 ys w2 → transcript c w (xs ++ ys) w2.
Proof.
  revert w. induction xs as [|x xs IH]; intros w; cbn; [by intros ->|].
  intros (? & t & w0 & ? & ? & Hx) Hy. split; [done|]. exists t, w0. split_and!; [done..|]. by apply IH.
Qed.

(** The steps: no answer, or the next one. *)
Definition no_answer (s s' : @cstate W) (xs : list exchange) : Prop :=
  answers s' = answers s ∧ open s' = open s ∧ wire s' = wire s ++ xs.
Definition one_answer (s s' : @cstate W) (n : nat) (x : exchange) : Prop :=
  n = answers s ∧ answers s' = S n ∧ open s' = {[n]} ∪ open s ∧ wire s' = wire s ++ [x].

Definition answered_in (w : W) (t : option transport) (x : exchange) (w1 : W) : Prop :=
  x_world x = w ∧ ∃ t0, t = Some t0 ∧ RoundTrip t0 w (x_req x) = (w1, x_answer x).

Lemma send_spec r t s :
  match send r t s with
  | (s', Ok (r', (n, p))) => ∃ x u, x_req x = r' ∧ x_answer x = Ok p ∧ one_answer s s' n x ∧
      answered_in (world s) t x (world s') ∧ rURL r = Some u ∧ with_credentials u r r'
  | (s', _) => no_answer s s' [] ∧ world s' = world s ∨
      ∃ x u, no_answer s s' [x] ∧ is_ok (x_answer x) = false ∧ answered_in (world s) t x (world s') ∧
        rURL r = Some u ∧ with_credentials u r (x_req x)
  end.
Proof.
  unfold send. assert (∀ s : @cstate W, no_answer s s []) as Hnil by (intros; split_and!; auto using app_nil_r).
  assert (no_answer s (closeBody r s) []) as Hclose by (split_and!; cbn; auto using app_nil_r).
  destruct t as [t|]; [|left; auto]. destruct (rURL r) as [u|] eqn:Hu; [|left; auto].
  destruct (decide _); [left; auto|].
  set (h := match User u with Some _ => _ | None => _ end).
  assert (with_credentials u r (with_rHeader (Some h) r)) as Hd.
  { split; [done|]. intros k. unfold hdr at 1. cbn. subst h. unfold auth_field, hdr.
    destruct (User u) as [[name pw]|] eqn:Eu; [|by case_decide].
    case_decide as Hk; [by rewrite Hk, lookup_insert_eq|by rewrite lookup_insert_ne]. }
  unfold round_trip. destruct (RoundTrip t (world s) _) as [w o] eqn:Er. destruct o as [p|e|]; cbn [fmap outcome_fmap].
  - exists (Exchange (world s) (with_rHeader (Some h) r) (Ok p)), u. do 3 (split; [done|]). split; [split; [done|by exists t]|done].
  - right. exists (Exchange (world s) (with_rHeader (Some h) r) (Err e)), u. do 2 (split; [done|]). split; [split; [done|by exists t]|done].
  - right. exists (Exchange (world s) (with_rHeader (Some h) r) Panic), u. do 2 (split; [done|]). split; [split; [done|by exists t]|done].
Qed.

Lemma add_cookies_spec cs r r1 :
  add_cookies cs r = Ok r1 →
  r1 = with_rHeader (rHeader r1) r ∧
  ∀ k, hdr r1 !! k = if decide (k = "Cookie") then cookie_field cs (hdr r !! k) else hdr r !! k.
Proof.
  revert r. induction cs as [|[n v] cs IH]; intros r; cbn [add_cookies].
  { intros [= <-]. split; [by destruct r|]. intros k. by case_decide. }
  destruct (AddCookie n v r) as [r2| |] eqn:E; [|done..]. cbn [mbind outcome_bind]. intros H1.
  destruct (IH r2 H1) as [Hr Hk]. unfold AddCookie, hset in E. destruct (rHeader r) as [h|] eqn:Eh; [|done].
  injection E as <-. split; [exact Hr|]. intros k. rewrite Hk. unfold hdr. rewrite Eh. cbn.
  destruct (decide (k = "Cookie")) as [Hc|]; [|by rewrite lookup_insert_ne]. rewrite Hc, lookup_insert_eq. cbn. unfold add_pair, hget, Get. cbn.
  by destruct cs.
Qed.

(** The exchange of a request: what is sent, the answer, the world left. *)
Definition exchanged c r s s' (x : exchange) : Prop :=
  sent_as c (world s) r (x_req x) ∧ transcript c (world s) [x] (world s').

Lemma c_send_spec c r s :
  match c_send Parse_RFC1123 Parse_dashed DefaultTransport c r s with
  | (s', Ok (r', (n, p))) => ∃ x, x_req x = r' ∧ x_answer x = Ok p ∧ exchanged c r s s' x ∧ one_answer s s' n x
  | (s', _) => no_answer s s' [] ∧ world s' = world s ∨ ∃ x, no_answer s s' [x] ∧ exchanged c r s s' x
  end.
Proof.
  assert (∀ r1 u x w1, rURL r = Some u →
    r1 = with_rHeader (rHeader r1) r → (∀ k, hdr r1 !! k = if decide (k = "Cookie") then cookie_field (jar_cookies c (world s) u) (hdr r !! k) else hdr r !! k) →
    with_credentials u r1 (x_req x) → answered_in (world s) (transport_for c) x w1 →
    sent_as c (world s) r (x_req x) ∧ transcript c (world s) [x] (world_after c w1 x)) as Hx.
  { intros r1 u x w1 Hu Hr1 Hk1 [Hr2 Hk2] (Hw & t & Ht & Hrt). split; [|split; [done|]; by exists t, w1].
    split; [rewrite Hr2 at 1; rewrite Hr1; done|]. exists u. split; [done|]. intros k. rewrite Hk2, Hk1.
    destruct (decide (k = "Authorization")) as [->|]; [|done]. by rewrite !decide_False by done. }
  unfold c_send. destruct (rURL r) as [u|] eqn:Hu.
  2: { pose proof (send_spec r (transport_for c) s) as Hs. destruct (Jar c); destruct (send r _ s) as [s' [[r' [n p]]|e|]].
       all: first [destruct Hs as [Hs|(x & u & ? & ? & ? & ? & ?)]; [by left|congruence]|destruct Hs as (x & u & ? & ? & ? & ? & ? & ?); congruence]. }
  destruct (Jar c) as [j|] eqn:Ej.
  - assert (jar_cookies c (world s) u = jar_Cookies j (world s) u) as Hjc by (unfold jar_cookies; by rewrite Ej).
    destruct (add_cookies _ r) as [r1| |] eqn:Ec; [|left; split; [split_and!; auto using app_nil_r|done]..].
    apply add_cookies_spec in Ec as [Hr1 Hk1]. rewrite <- Hjc in Hk1.
    pose proof (send_spec r1 (transport_for c) s) as Hs. destruct (send r1 _ s) as [s1 [[r2 [n p]]|e|]].
    + destruct Hs as (x & u' & <- & Ha & Ho & Hin & Hu' & Hd).
      assert (u' = u) as -> by (rewrite Hr1 in Hu'; cbn in Hu'; congruence).
      destruct (Hx r1 u x _ eq_refl Hr1 Hk1 Hd Hin) as [H1 H2].
      assert (rURL (x_req x) = Some u) as Hux by (destruct (sent_as_keeps _ _ _ _ H1) as (-> & _); done).
      unfold world_after in H2. rewrite Ej, Hux, Ha in H2.
      destruct (resp_Cookies _ _ p); exists x; (split; [done|]); (split; [done|]); (split; [split; [exact H1|exact H2]|done]).
    + destruct Hs as [?|(x & u' & Hn & Hok & Hin & Hu' & Hd)]; [by left|right].
      assert (u' = u) as -> by (rewrite Hr1 in Hu'; cbn in Hu'; congruence).
      destruct (Hx r1 u x _ eq_refl Hr1 Hk1 Hd Hin) as [H1 H2]. exists x. split; [done|]. split; [done|].
      unfold world_after in H2. destruct (Jar c), (rURL (x_req x)), (x_answer x); done.
    + destruct Hs as [?|(x & u' & Hn & Hok & Hin & Hu' & Hd)]; [by left|right].
      assert (u' = u) as -> by (rewrite Hr1 in Hu'; cbn in Hu'; congruence).
      destruct (Hx r1 u x _ eq_refl Hr1 Hk1 Hd Hin) as [H1 H2]. exists x. split; [done|]. split; [done|].
      unfold world_after in H2. destruct (Jar c), (rURL (x_req x)), (x_answer x); done.
  - assert (jar_cookies c (world s) u = []) as Hjc by (unfold jar_cookies; by rewrite Ej).
    assert (∀ k, hdr r !! k = if decide (k = "Cookie") then cookie_field (jar_cookies c (world s) u) (hdr r !! k) else hdr r !! k) as Hk1.
    { intros k. rewrite Hjc. by case_decide. }
    assert (∀ x w1, world_after c w1 x = w1) as Haft by (intros; unfold world_after; by rewrite Ej).
    pose proof (send_spec r (transport_for c) s) as Hs. destruct (send r _ s) as [s1 [[r2 [n p]]|e|]].
    + destruct Hs as (x & u' & <- & Ha & Ho & Hin & Hu' & Hd). assert (u' = u) as -> by congruence.
      destruct (Hx r u x _ eq_refl ltac:(by destruct r) Hk1 Hd Hin) as [H1 H2]. rewrite Haft in H2. by exists x.
    + destruct Hs as [?|(x & u' & Hn & Hok & Hin & Hu' & Hd)]; [by left|right]. assert (u' = u) as -> by congruence.
      destruct (Hx r u x _ eq_refl ltac:(by destruct r) Hk1 Hd Hin) as [H1 H2]. rewrite Haft in H2. by exists x.
    + destruct Hs as [?|(x & u' & Hn & Hok & Hin & Hu' & Hd)]; [by left|right]. assert (u' = u) as -> by congruence.
      destruct (Hx r u x _ eq_refl ltac:(by destruct r) Hk1 Hd Hin) as [H1 H2]. rewrite Haft in H2. by exists x.
Qed.

(** The exchange [y] follows [x]: [x] was answered with a redirect, and [y]'s
    request was made anew for the URL that its Location names, relative to the
    URL of [x]: with no body, GET instead of POST and PUT, and no field but, unless
    [x] went over https, its URL as the referer, before what sending adds. *)
Definition follows c (sr : Z → bool) (m : string) (x y : exchange) : Prop :=
  ∃ base p u req,
    rURL (x_req x) = Some base ∧ x_answer x = Ok p ∧ sr (sCode p) = true ∧
    Get (sHeader p) "Location" ≠ "" ∧ url_Resolve base (Get (sHeader p) "Location") = inr u ∧
    rURL req = Some u ∧ rMethod req = redirect_method m ∧ rBody req = None ∧ Host req = "" ∧
    hdr req = (if decide (Scheme base = "https") then ∅ else {["Referer" := [url_String base]]}) ∧
    sent_as c (x_world y) req (x_req y).

Fixpoint chain c (sr : Z → bool) (m : string) (x : exchange) (xs : list exchange) : Prop :=
  match xs with [] => True | y :: xs => follows c sr m x y ∧ chain c sr m y xs end.

(** What the loop knows of the last answer when it goes on. *)
Definition redirected (sr : Z → bool) (x : exchange) (last : Request) (urlStr : string) (p : Response) : Prop :=
  x_req x = last ∧ x_answer x = Ok p ∧ sr (sCode p) = true ∧ urlStr = Get (sHeader p) "Location" ∧ urlStr ≠ "".

Lemma follows_intro c sr ireq x last via urlStr resp req y :
  redirected sr x last urlStr resp.2 → next_request c ireq last via urlStr resp = inr req →
  sent_as c (x_world y) req (x_req y) → follows c sr (rMethod ireq) x y.
Proof.
  intros (<- & Ha & Hsr & -> & Hne). unfold next_request. destruct (rURL (x_req x)) as [base|] eqn:Eb; [|done].
  destruct (url_Resolve base _) as [|u] eqn:Eu; [done|].
  destruct (default _ _ _ _); [done|]. intros [= <-] Hs. match type of Hs with sent_as _ _ ?rq _ => exists base, resp.2, u, rq end.
  do 9 (split; [done|]). split; [|exact Hs]. unfold hdr, new_request. cbn. by repeat case_decide.
Qed.

Definition fresh (s : @cstate W) : Prop := ∀ n, n ∈ open s → n < answers s.

(** How many requests the loop sends, and what it leaves open. *)
Definition left_open (o : outcome herr ending) : gset nat := match o with Ok (Done n _) => {[n]} | _ => ∅ end.

(** The last response of a loop that was broken off is closed already. *)
Definition resp_closed (o : outcome herr ending) (s : @cstate W) : Prop :=
  match o with Ok (Broke _ _ _ (Some (n, _))) => n ∉ open s | _ => True end.

(** A response is the last answer, and no redirect. *)
Definition last_answer (sr : Z → bool) (xs : list exchange) (p : Response) : Prop :=
  ∃ x, last xs = Some x ∧ x_answer x = Ok p ∧ sr (sCode p) = false.
Definition ended (sr : Z → bool) (xs : list exchange) (o : outcome herr ending) : Prop :=
  match o with Ok (Done _ p) => last_answer sr xs p | _ => True end.

(** One round that ends the loop. *)
Definition last_round c sr req s s' (o : outcome herr ending) : Prop :=
  ∃ xs, wire s' = wire s ++ xs ∧ transcript c (world s) xs (world s') ∧
    (xs = [] ∨ ∃ x, xs = [x] ∧ x_world x = world s ∧ sent_as c (world s) req (x_req x)) ∧
    fresh s' ∧ open s' = left_open o ∪ open s ∧ resp_closed o s' ∧ ended sr xs o.

Lemma one_request_spec c sr req via s :
  fresh s →
  match one_request Parse_RFC1123 Parse_dashed DefaultTransport c sr req via s with
  | (s', Ok (Go req' via' urlStr (n, p))) => via' = via ++ [req'] ∧ n < answers s' ∧ n ∉ open s' ∧ fresh s' ∧ open s' = open s ∧
      ∃ x, redirected sr x req' urlStr p ∧ wire s' = wire s ++ [x] ∧ x_world x = world s ∧
        sent_as c (world s) req (x_req x) ∧ transcript c (world s) [x] (world s')
  | (s', Ok (Stop e)) => last_round c sr req s s' (Ok e)
  | (s', Err e) => last_round c sr req s s' (Err e)
  | (s', Panic) => last_round c sr req s s' Panic
  end.
Proof.
  intros Hf. unfold one_request. pose proof (c_send_spec c req (with_current (Some req) s)) as Hs.
  destruct (c_send _ _ _ c req _) as [s1 [[req' [n p]]|e|]].
  - destruct Hs as (x & Hreq & Hans & [Hsent Htr] & Hn & Ha & Ho & Hw). cbn in Hn, Ha, Ho, Hw, Hsent, Htr.
    assert (x_world x = world s) as Hxw by (by destruct Htr).
    assert (open s1 ∖ {[n]} = open s) as Hclose.
    { rewrite Ho. assert (n ∉ open s) by (intros Hin; apply Hf in Hin; lia). set_solver. }
    assert (fresh (close_resp n s1)) as Hf1.
    { intros k Hk. cbn in *. rewrite Hclose in Hk. apply Hf in Hk. lia. }
    destruct (sr (sCode p)) eqn:Esr.
    + case_decide as Hloc.
      * exists [x]. cbn -[transcript]. split; [done|]. split; [exact Htr|]. split; [right; by exists x|].
        split; [exact Hf1|]. split; [rewrite Hclose; set_solver|]. split; [set_solver|done].
      * cbn -[transcript]. split; [done|]. split; [lia|]. split; [set_solver|]. split; [exact Hf1|]. split; [exact Hclose|].
        exists x. done.
    + exists [x]. split; [done|]. split; [exact Htr|]. split; [right; by exists x|]. split.
      { intros k Hk. rewrite Ho in Hk. apply elem_of_union in Hk as [Hk|Hk]; [apply elem_of_singleton in Hk; lia|apply Hf in Hk; lia]. }
      split; [exact Ho|]. split; [done|]. by exists x.
  - destruct Hs as [[(Ha & Ho & Hw) Hwd]|(x & (Ha & Ho & Hw) & Hsent & Htr)]; cbn in *; [exists []|exists [x]].
    all: split; [done|]; split; [done|]; split; [first [by left|right; exists x; split; [done|]; split; [by destruct Htr|done]]|].
    all: split; [intros k Hk; rewrite Ho in Hk; rewrite Ha; by apply Hf|]; split; [cbn; rewrite Ho; set_solver|done].
  - destruct Hs as [[(Ha & Ho & Hw) Hwd]|(x & (Ha & Ho & Hw) & Hsent & Htr)]; cbn in *; [exists []|exists [x]].
    all: split; [done|]; split; [done|]; split; [first [by left|right; exists x; split; [done|]; split; [by destruct Htr|done]]|].
    all: split; [intros k Hk; rewrite Ho in Hk; rewrite Ha; by apply Hf|]; split; [cbn; rewrite Ho; set_solver|done].
Qed.

Lemma next_request_stops c ireq last via urlStr resp e :
  next_request c ireq last via urlStr resp = inl e → ∃ u err f, e = Broke u err f (Some resp).
Proof. unfold next_request. destruct (rURL last); [destruct (url_Resolve _ _)|]; [|destruct (default _ _ _ _)|]; intros [= <-]; eauto. Qed.

Lemma redirects_spec fuel c sr ireq x last via urlStr resp s :
  CheckRedirect c = None → fresh s → resp.1 < answers s → resp.1 ∉ open s → redirected sr x last urlStr resp.2 →
  length via ≤ 10 → 11 ≤ fuel + length via →
  ∃ s' o xs, redirects Parse_RFC1123 Parse_dashed DefaultTransport fuel c sr ireq last via urlStr resp s = Some (s', o) ∧
    wire s' = wire s ++ xs ∧ length xs + length via ≤ 10 ∧ chain c sr (rMethod ireq) x xs ∧
    transcript c (world s) xs (world s') ∧ open s' = left_open o ∪ open s ∧ resp_closed o s' ∧ ended sr xs o.
Proof.
  intros Hc. revert x last via urlStr resp s. induction fuel as [|fuel IH]; intros x last via urlStr resp s Hf Hr Hr' Hx Hv Hfuel; [lia|].
  cbn [redirects]. destruct (next_request c ireq last via urlStr resp) as [e|req] eqn:En.
  - apply next_request_stops in En as (u & err & f & ->). destruct resp as [n p].
    eexists _, _, []. split; [done|]. rewrite app_nil_r. split_and!; [done|cbn; lia|done|done|cbn; set_solver|done|done].
  - assert (length via < 10) as Hlt.
    { unfold next_request in En. rewrite Hc in En. destruct (rURL last); [|done]. destruct (url_Resolve _ _); [done|].
      cbn [default] in En. unfold defaultCheckRedirect in En. case_bool_decide; [done|lia]. }
    pose proof (one_request_spec c sr req via s Hf) as Ho.
    assert (∀ y, x_world y = world s → sent_as c (world s) req (x_req y) → follows c sr (rMethod ireq) x y) as Hfol.
    { intros y Hy Hs. eapply follows_intro; [exact Hx|exact En|by rewrite Hy]. }
    assert (∀ s1 o, last_round c sr req s s1 o → ∃ s' o' xs, Some (s1, o) = Some (s', o') ∧
      wire s' = wire s ++ xs ∧ length xs + length via ≤ 10 ∧ chain c sr (rMethod ireq) x xs ∧
      transcript c (world s) xs (world s') ∧ open s' = left_open o' ∪ open s ∧ resp_closed o' s' ∧ ended sr xs o') as Hlast.
    { intros s1 o (xs & Hw & Htr & Hxs & _ & Hop & Hcl & He). exists s1, o, xs. split; [done|]. split; [done|].
      destruct Hxs as [->|(y & -> & Hy & Hsy)]; cbn [length]; (split; [lia|]); [done|]. split; [split; [by apply Hfol|done]|done]. }
    destruct (one_request _ _ _ c sr req via s) as [s1 [[e|req' via' loc [n p]]|e|]]; [by apply Hlast| |by apply Hlast..].
    destruct Ho as (-> & Hn & Hno & Hf1 & Hop & y & Hy & Hw & Hyw & Hsy & Htr).
    destruct (IH y req' (via ++ [req']) loc (n, p) s1 Hf1 Hn Hno Hy) as (s' & o & xs & Heq & Hw' & Hlen & Hch & Htr' & Hop' & Hcl & He);
      [rewrite length_app; cbn; lia..|].
    exists s', o, (y :: xs). split; [done|]. rewrite length_app in Hlen. cbn [length] in Hlen |- *.
    split; [rewrite Hw', Hw; by rewrite <-app_assoc|]. split; [lia|]. split; [split; [by apply Hfol|done]|].
    split; [by apply (transcript_app c _ [y] (world s1))|]. split; [congruence|]. split; [done|].
    destruct o as [[n' p'|]| |]; try done. destruct He as (z & Hz & ?). exists z. split; [|done]. by destruct xs.
Qed.

(** The body that is left open for the caller. *)
Definition returned (o : outcome herr result) : gset nat := match o with Ok (Some (n, _), None) => {[n]} | _ => ∅ end.
Definition returns_last (sr : Z → bool) (xs : list exchange) (o : outcome herr result) : Prop :=
  match o with Ok (Some (_, p), None) => last_answer sr xs p | _ => True end.

Lemma finish_open sr xs m e s s0 :
  open s = left_open (Ok e) ∪ open s0 → resp_closed (Ok e) s → ended sr xs (Ok e) →
  let '(s', r) := finish m e s in
  open s' = returned (Ok r) ∪ open s0 ∧ wire s' = wire s ∧ world s' = world s ∧ returns_last sr xs (Ok r).
Proof.
  unfold finish. destruct e as [n p|u err f resp]; cbn; [done|]. intros Ho Hcl _. destruct f.
  - destruct resp as [[n p]|]; (split; [|done]); set_solver.
  - destruct resp as [[n p]|]; cbn; (split; [|done]); set_solver.
Qed.

(** C33: Following redirects ends, keeps to its bounds, goes where it is sent and
    leaks nothing. With the default policy a call returns after at most ten
    requests, the caller's and nine redirects, whatever the transport answers
    and the cookie jar holds. What goes over the wire are exchanges with the
    transport, one after the other: first the caller's request; then, each for
    an answer that is a redirect, a request for the URL that this answer's
    Location field names, relative to the URL of the request before, with no
    body, GET where the caller's was POST or PUT, and no field of the caller's:
    only, unless the request before went over https, that request's URL as the
    referer. Each request is sent with the cookies the jar holds at that time
    for its URL added to its own, and with the credentials in its URL. Every
    response has its body closed, except the one that is returned without an
    error, which is the last answer and no redirect. *)
Theorem client_redirects c sr ireq s :
  CheckRedirect c = None → fresh s →
  ∃ s' o xs, doFollowingRedirects Parse_RFC1123 Parse_dashed DefaultTransport 10 c ireq sr s = Some (s', o) ∧
    wire s' = wire s ++ xs ∧ length xs ≤ 10 ∧ transcript c (world s) xs (world s') ∧
    match xs with [] => True | x :: xs => sent_as c (x_world x) ireq (x_req x) ∧ chain c sr (rMethod ireq) x xs end ∧
    open s' = returned o ∪ open s ∧ returns_last sr xs o.
Proof.
  intros Hc Hf. unfold doFollowingRedirects. destruct (rURL ireq) as [u|] eqn:Hu; last first.
  { eexists _, _, []. split; [done|]. cbn. rewrite app_nil_r. split_and!; [done|lia|done|done|set_solver|done]. }
  destruct (_ && _); [eexists _, _, []; split; [done|]; cbn; rewrite app_nil_r; split_and!; [done|lia|done|done|set_solver|done]|].
  set (s0 := if (0 <? Timeout c)%Z then with_timer true s else s).
  assert (fresh s0 ∧ wire s0 = wire s ∧ world s0 = world s ∧ open s0 = open s) as (Hf0 & <- & <- & <-)
    by (subst s0; destruct (0 <? Timeout c)%Z; done).
  clearbody s0. pose proof (one_request_spec c sr ireq [] s0 Hf0) as Ho.
  destruct (one_request _ _ _ c sr ireq [] s0) as [s1 [[e|req' via' loc [n p]]|e|]].
  - destruct Ho as (xs & Hw & Htr & Hxs & _ & Hop & Hcl & He). pose proof (finish_open sr xs (rMethod ireq) e s1 s0 Hop Hcl He) as Hfin.
    destruct (finish (rMethod ireq) e s1) as [s2 r]. destruct Hfin as (Hop2 & Hw2 & Hwd2 & Hret). eexists _, _, xs. split; [done|].
    rewrite Hw2, Hwd2. split; [done|]. destruct Hxs as [->|(x & -> & Hx & Hs)]; cbn [length chain]; [by split_and!; try done; lia|].
    split; [lia|]. split; [done|]. rewrite Hx. done.
  - destruct Ho as (-> & Hn & Hno & Hf1 & Hop & x & Hx & Hw & Hxw & Hs & Htr). cbn [app].
    destruct (redirects_spec 10 c sr ireq x req' [req'] loc (n, p) s1 Hc Hf1 Hn Hno Hx ltac:(cbn; lia) ltac:(cbn; lia))
      as (s' & o & xs & -> & Hw' & Hlen & Hch & Htr' & Hop' & Hcl & He). cbn in Hlen.
    assert (wire s' = wire s0 ++ x :: xs) as Hw2 by (rewrite Hw', Hw; by rewrite <- app_assoc).
    pose proof (transcript_app c _ [x] _ xs _ Htr Htr') as Htr2. cbn [app] in Htr2. rewrite Hop in Hop'. rewrite <- Hxw in Hs.
    assert (∀ e, o = Ok e → ended sr (x :: xs) (Ok e)) as He'.
    { intros e ->. destruct e as [n' p'|]; [|done]. destruct He as (z & Hz & ?). exists z. split; [|done]. by destruct xs. }
    destruct o as [e|e|].
    + pose proof (finish_open sr (x :: xs) (rMethod ireq) e s' s0 Hop' Hcl (He' e eq_refl)) as Hfin.
      destruct (finish (rMethod ireq) e s') as [s2 r]. destruct Hfin as (Hop2 & Hw3 & Hwd3 & Hret).
      eexists _, _, (x :: xs). rewrite Hw3, Hwd3. cbn [length]. by split_and!; try done; lia.
    + eexists _, _, (x :: xs). cbn [length]. by split_and!; try done; lia.
    + eexists _, _, (x :: xs). cbn [length]. by split_and!; try done; lia.
  - destruct Ho as (xs & Hw & Htr & Hxs & _ & Hop & _). eexists _, _, xs. split; [done|]. split; [done|].
    destruct Hxs as [->|(x & -> & Hx & Hs)]; cbn [length chain]; [by split_and!; try done; lia|]. rewrite Hx. by split_and!; try done; lia.
  - destruct Ho as (xs & Hw & Htr & Hxs & _ & Hop & _). eexists _, _, xs. split; [done|]. split; [done|].
    destruct Hxs as [->|(x & -> & Hx & Hs)]; cbn [length chain]; [by split_and!; try done; lia|]. rewrite Hx. by split_and!; try done; lia.
Qed.
End props.
End RedirectProps.

Module RedirectExample.
Import Client RedirectProps MessageProps.
#[local] Existing Instance example_lib.

(** A server that sends the first request on and answers the second. *)
Definition answer (code : Z) (h : header) : Response :=
  {| Status := ""; sCode := code; sProto := "HTTP/1.1"; sMajor := 1; sMinor := 1; sHeader := h; sBody := None;
     sContentLength := 0; sTransferEncoding := []; sClose := false; sTrailer := None; sRequest := None |}.
Definition example_transport : @transport nat :=
  {| RoundTrip n _ := (S n, Ok (match n with O => answer 302 {["Location" := ["/register"]]} | _ => answer 200 ∅ end));
     can_cancel := true |}.
Definition example_start : @cstate nat :=
  {| world := 0; wire := []; answers := 0; open := ∅; closed_bodies := 0; current := None; timer := false |}.

Lemma client_redirects_witness :
  ∃ s' p xs, doFollowingRedirects (λ _, None) (λ _, None) (Some example_transport) 10 DefaultClient example_request shouldRedirectPost
      example_start = Some (s', Ok (Some (1, p), None)) ∧
    wire s' = xs ∧ length xs ≤ 10 ∧ open s' = {[1]} ∪ ∅ ∧ last_answer shouldRedirectPost xs p.
Proof.
  eassert (doFollowingRedirects (λ _, None) (λ _, None) (Some example_transport) 10 DefaultClient example_request shouldRedirectPost
    example_start = Some (_, Ok (Some (1, _), None))) as E by (vm_compute; reflexivity).
  destruct (client_redirects (λ _, None) (λ _, None) (Some example_transport) DefaultClient shouldRedirectPost example_request
    example_start eq_refl ltac:(intros n Hn; cbn in Hn; by apply elem_of_empty in Hn)) as (s' & o & xs & Heq & Hw & Hlen & _ & _ & Hopen & Hlast).
  rewrite Heq in E. injection E as _ Eo. exists s'. rewrite Eo in Heq, Hopen, Hlast. eexists _, xs. split; [exact Heq|].
  split; [exact Hw|]. split; [exact Hlen|]. split; [exact Hopen|exact Hlast].
Defined.
End RedirectExample.
