(* ===== verification/HttpTransport.v ===== *)
(** The transport of the patched HTTP client, up to its connections
    (http13client/transport.go): proxies, the keys of connections, the checks
    of a round trip and what it adds to a request, dialing through proxies,
    and the body that tells when it has been read.

    The pool of connections and its goroutines are in HttpPool.v. The
    environment, package net, TLS and the wire are parameters. *)

From S2P Require Import Prelude HttpText HttpBody HttpTransfer HttpMessage HttpClient.
Import Text Transfer Message Client.

Module Transport.
Local Open Scope Z_scope.

(** *** Slices *)
Definition str_take (n : Z) (s : string) : string := String.substring 0 (Z.to_nat n) s.
Definition first_byte (s : string) : option ascii := String.get 0 s.
Definition HasSuffix (s p : string) : bool :=
  bool_decide (String.length p ≤ String.length s)%nat && bool_decide (str_drop (String.length s - String.length p) s = p).

(** *** Addresses *)
Definition portMap (scheme : string) : string :=
  if decide (scheme = "http") then "80" else if decide (scheme = "https") then "443" else "".

Definition canonicalAddr (u : URL) : string :=
  let addr := u_Host u in if hasPort addr then addr else addr +:+ ":" +:+ portMap (Scheme u).

Definition strip_port (h : string) : string := if hasPort h then str_take (LastIndex ":" h) h else h.

Record connectMethod := { proxyURL : option URL; targetScheme : string; targetAddr : string }.
Record connectMethodKey := { k_proxy : string; k_scheme : string; k_addr : string }.
#[export] Instance connectMethodKey_eq_dec : EqDecision connectMethodKey.
Proof. solve_decision. Defined.
#[export] Instance connectMethodKey_countable : Countable connectMethodKey.
Proof.
  refine (inj_countable' (λ k, (k_proxy k, k_scheme k, k_addr k))
    (λ k, {| k_proxy := k.1.1; k_scheme := k.1.2; k_addr := k.2 |}) _). by intros [].
Defined.

Definition key_String (k : connectMethodKey) : string := k_proxy k +:+ "|" +:+ k_scheme k +:+ "|" +:+ k_addr k.

(** An environment variable under several names, looked up once. *)
Record envOnce := { names : list string; once : option string }.
Definition env_lookup (Getenv : string → string) (ns : list string) : string :=
  default "" (snd <$> list_find (λ v, v ≠ "") (Getenv <$> ns)).
Definition env_Get (Getenv : string → string) (e : envOnce) : envOnce * string :=
  match once e with
  | Some v => (e, v)
  | None => let v := env_lookup Getenv (names e) in ({| names := names e; once := Some v |}, v)
  end.
Definition env_reset (e : envOnce) : envOnce := {| names := names e; once := None |}.
Definition httpProxyEnv : envOnce := {| names := ["HTTP_PROXY"; "http_proxy"]; once := None |}.
Definition noProxyEnv : envOnce := {| names := ["NO_PROXY"; "no_proxy"]; once := None |}.

Section net.
Context `{!URLLib}.
(** [net.SplitHostPort] (an error, or the host), and whether a host is the
    text of a loopback address. *)
Context (SplitHost : string → option string) (is_loopback : string → bool).

(** One entry of NO_PROXY against an address without its port. An entry that
    is a port alone is cut down to nothing, whose first byte is then looked
    at. *)
Definition no_proxy_entry (addr p : string) : outcome string bool :=
  let p := ToLower (TrimSpace p) in
  if decide (p = "") then Ok false
  else
    let p := strip_port p in
    if decide (addr = p) then Ok true
    else
      match first_byte p with
      | None => Panic
      | Some c =>
          if decide (c = "."%char) then Ok (HasSuffix addr p || bool_decide (addr = str_drop 1 p))
          else Ok (HasSuffix addr p
                   && bool_decide (String.get (String.length addr - String.length p - 1) addr = Some "."%char))
      end.

Fixpoint no_proxy_any (addr : string) (ps : list string) : outcome string bool :=
  match ps with
  | [] => Ok false
  | p :: ps => m ← no_proxy_entry addr p; if m : bool then Ok true else no_proxy_any addr ps
  end.

Definition useProxy (no_proxy addr : string) : outcome string bool :=
  if decide (addr = "") then Ok true
  else
    match SplitHost addr with
    | None => Ok false
    | Some host =>
        if decide (host = "localhost") then Ok false
        else if is_loopback host then Ok false
        else if decide (no_proxy = "*") then Ok false
        else
          let addr := strip_port (ToLower (TrimSpace addr)) in
          negb <$> no_proxy_any addr (split_on "," no_proxy)
    end.

(** The proxy: none, a URL, or an error. *)
Definition ProxyFromEnvironment (proxy no_proxy : string) (u : URL) : outcome string (option URL) :=
  if decide (proxy = "") then Ok None
  else
    use ← useProxy no_proxy (canonicalAddr u);
    if negb use then Ok None
    else
      let p := url_Parse proxy in
      let bogus := match p with inl _ => true | inr pu => negb (String.prefix "http" (Scheme pu)) end in
      match (if bogus then url_Parse ("http://" +:+ proxy) else inl "") with
      | inr pu => Ok (Some pu)
      | inl _ => match p with inl e => Err ("invalid proxy address: " +:+ e) | inr pu => Ok (Some pu) end
      end.

Definition ProxyURL (fixedURL : option URL) : URL → outcome string (option URL) := λ _, Ok fixedURL.

(** *** Connection methods *)

(** The error of the proxy function is dropped. *)
Definition connectMethodForRequest (Proxy : option (URL → outcome string (option URL))) (u : URL) : outcome string connectMethod :=
  let cm p := {| proxyURL := p; targetScheme := Scheme u; targetAddr := canonicalAddr u |} in
  match Proxy with
  | None => Ok (cm None)
  | Some f => match f u with Ok p => Ok (cm p) | Err _ => Ok (cm None) | Panic => Panic end
  end.

Definition proxyAuth (cm : connectMethod) : string :=
  match proxyURL cm ≫= User with Some (name, pw) => "Basic " +:+ basicAuth name (default "" pw) | None => "" end.

Definition cm_key (cm : connectMethod) : connectMethodKey :=
  match proxyURL cm with
  | None => {| k_proxy := ""; k_scheme := targetScheme cm; k_addr := targetAddr cm |}
  | Some p => {| k_proxy := url_String p; k_scheme := targetScheme cm;
                 k_addr := if decide (targetScheme cm = "http") then "" else targetAddr cm |}
  end.
Definition cm_addr (cm : connectMethod) : string :=
  match proxyURL cm with Some p => canonicalAddr p | None => targetAddr cm end.
Definition tlsHost (cm : connectMethod) : string := strip_port (targetAddr cm).

(** *** A round trip, up to its connection *)

Inductive route := ByAlt (rt : nat) | ByConn (cm : connectMethod).

(** The checks of [RoundTrip]; [alt] is the table of other protocols. Every
    error closes the request's body. *)
Definition RoundTrip_route (alt : gmap string nat) (Proxy : option (URL → outcome string (option URL))) (r : Request)
    : outcome herr route :=
  match rURL r with
  | None => Err (EText "http: nil Request.URL")
  | Some u =>
      if decide (rHeader r = None) then Err (EText "http: nil Request.Header")
      else if decide (Scheme u ≠ "http" ∧ Scheme u ≠ "https") then
        match alt !! Scheme u with
        | Some rt => Ok (ByAlt rt)
        | None => Err (EBad "unsupported protocol scheme" (Scheme u))
        end
      else if decide (u_Host u = "") then Err (EText "http: no Host in request URL")
      else match connectMethodForRequest Proxy u with
           | Ok cm => Ok (ByConn cm)
           | Err e => Err (EText e)
           | Panic => Panic
           end
  end.

Definition RegisterProtocol (scheme : string) (rt : nat) (alt : gmap string nat) : outcome herr (gmap string nat) :=
  if decide (scheme = "http" ∨ scheme = "https") then Panic
  else match alt !! scheme with Some _ => Panic | None => Ok (<[scheme := rt]> alt) end.

(** The fields that [persistConn.roundTrip] adds to a request: those of a
    proxy, and the wish for a compressed answer. *)
Definition extra_headers (DisableCompression : bool) (proxy_auth : option string) (r : Request) : option header * bool :=
  let extra : option header := (λ pa, {["Proxy-Authorization" := [pa]]}) <$> proxy_auth in
  if negb DisableCompression && bool_decide (hget (rHeader r) "Accept-Encoding" = "") && negb (bool_decide (rMethod r = "HEAD"))
  then (Some (<["Accept-Encoding" := ["gzip"]]> (default ∅ extra)), true)
  else (extra, false).

(** What [readLoop] makes of a response: whether it has a body to wait for,
    whether the body is to be uncompressed, its header and length, and
    whether the connection may live on. *)
Record handled := { h_hasBody : bool; h_gunzip : bool; h_Header : header; h_Length : Z; h_alive : bool }.

Definition handle_response (addedGzip : bool) (req : Request) (p : Response) : handled :=
  let hasBody := negb (bool_decide (rMethod req = "HEAD")) && negb (sContentLength p =? 0) in
  let gunzip := addedGzip && hasBody && bool_decide (Get (sHeader p) "Content-Encoding" = "gzip") in
  {| h_hasBody := hasBody; h_gunzip := gunzip;
     h_Header := if gunzip then delete "Content-Length" (delete "Content-Encoding" (sHeader p)) else sHeader p;
     h_Length := if gunzip then -1 else sContentLength p;
     h_alive := negb (sClose p) && negb (rClose req) && negb (sCode p <=? 199) |}.

(** *** Dialing *)

(** A connection: what was written to it, what can be read from it, whether
    it was closed, whether it speaks TLS. *)
Record conn := { c_written : string; c_read : Bufio.reader; c_closed : bool; c_tls : bool }.

Record pconn_start := { s_key : connectMethodKey; s_conn : conn; s_isProxy : bool; s_proxyAuth : option string }.

(** A CONNECT request for the target. *)
Definition connect_request (cm : connectMethod) : Request :=
  {| rMethod := "CONNECT";
     rURL := Some {| Scheme := ""; Opaque := targetAddr cm; User := None; u_Host := ""; Path := ""; RawQuery := ""; Fragment := "" |};
     Proto := ""; rMajor := 0; rMinor := 0;
     rHeader := Some (if decide (proxyAuth cm = "") then ∅ else {["Proxy-Authorization" := [proxyAuth cm]]});
     rBody := None; rContentLength := 0; rTransferEncoding := []; rClose := false; Host := targetAddr cm; Form := None;
     PostForm := None; MultipartForm := None; rTrailer := None; RequestURI := "" |}.

(** The server name TLS is to be used with. *)
Definition server_name (configured : option string) (cm : connectMethod) : string :=
  match configured with Some n => if decide (n = "") then tlsHost cm else n | None => tlsHost cm end.

Section dial.
Context (Canonical : string → string) (Sort : list string → list string).
Context (Trailer_Write : list (string * list string) → string).
Context (ReadMIMEHeader : Bufio.reader → Bufio.reader * outcome ioerr header).
Context (dial : string → string + conn).
(** The TLS handshake (or its timeout), and the check of the host name. *)
Context (handshake : string → conn → option string) (VerifyHostname : string → conn → option string).
Context (ServerName : option string) (InsecureSkipVerify : bool).

Definition write_conn (text : string) (c : conn) : conn :=
  {| c_written := c_written c +:+ text; c_read := c_read c; c_closed := c_closed c; c_tls := c_tls c |}.
Definition read_conn (r : Bufio.reader) (c : conn) : conn :=
  {| c_written := c_written c; c_read := r; c_closed := c_closed c; c_tls := c_tls c |}.
Definition close_conn (c : conn) : conn :=
  {| c_written := c_written c; c_read := c_read c; c_closed := true; c_tls := c_tls c |}.
Definition start_tls (c : conn) : conn :=
  {| c_written := c_written c; c_read := c_read c; c_closed := c_closed c; c_tls := true |}.

(** The text of a response's status after its code. *)
Definition reason (status : string) : outcome herr unit := match cut_at " " status with Some (_, r) => Err (EText r) | None => Panic end.

(** Through the proxy to the target: the connection, and an error. *)
Definition tunnel (cm : connectMethod) (c : conn) : conn * outcome herr unit :=
  let c := write_conn (Write Canonical Sort Trailer_Write (connect_request cm)).1 c in
  match ReadResponse Canonical ReadMIMEHeader (c_read c) (Some (connect_request cm)) with
  | (r, Err e) => (close_conn (read_conn r c), Err e)
  | (r, Panic) => (read_conn r c, Panic)
  | (r, Ok p) =>
      let c := read_conn r c in
      if decide (sCode (p_Response p) = 200) then (c, Ok ())
      else (close_conn c, reason (Status (p_Response p)))
  end.

Definition secure (cm : connectMethod) (c : conn) : conn * outcome herr unit :=
  let name := server_name ServerName cm in
  match handshake name c with
  | Some e => (close_conn c, Err (EText e))
  | None =>
      match (if InsecureSkipVerify then None else VerifyHostname name c) with
      | Some e => (close_conn c, Err (EText e))
      | None => (start_tls c, Ok ())
      end
  end.

(** [dialConn]: the last state of the connection, and the persistent
    connection or an error. *)
Definition dialConn (cm : connectMethod) : option conn * outcome herr pconn_start :=
  match dial (cm_addr cm) with
  | inl e => (None, Err (EText (match proxyURL cm with
                                | Some p => "http: error connecting to proxy " +:+ url_String p +:+ ": " +:+ e
                                | None => e
                                end)))
  | inr c =>
      let pa := proxyAuth cm in
      let proxied := bool_decide (proxyURL cm ≠ None) in
      let isProxy := proxied && bool_decide (targetScheme cm = "http") in
      let '(c, o) := if proxied && bool_decide (targetScheme cm = "https") then tunnel cm c else (c, Ok ()) in
      match o with
      | Err e => (Some c, Err e)
      | Panic => (Some c, Panic)
      | Ok _ =>
          let '(c, o) := if decide (targetScheme cm = "https") then secure cm c else (c, Ok ()) in
          match o with
          | Err e => (Some c, Err e)
          | Panic => (Some c, Panic)
          | Ok _ =>
              (Some c, Ok {| s_key := cm_key cm; s_conn := c; s_isProxy := isProxy;
                             s_proxyAuth := if isProxy && negb (bool_decide (pa = "")) then Some pa else None |})
          end
      end
  end.
End dial.
End net.

(** *** The body that tells when it has been read *)
Section signal.
Context {B : Type} (Read : B → B * string * option ioerr) (Close : B → B * option ioerr).

Inductive call := Fn (e : option ioerr) | EarlyClose.

Record bodyEOFSignal := {
  es_body : B;
  es_closed : bool;
  rerr : option ioerr;
  fn : bool;             (** there is a function to call *)
  earlyCloseFn : bool;
  calls : list call;     (** those made *)
}.

Definition condfn (e : option ioerr) (es : bodyEOFSignal) : bodyEOFSignal :=
  if fn es then
    {| es_body := es_body es; es_closed := es_closed es; rerr := rerr es; fn := false; earlyCloseFn := earlyCloseFn es;
       calls := calls es ++ [Fn (if decide (e = Some EOF) then None else e)] |}
  else es.

Definition es_Read (es : bodyEOFSignal) : bodyEOFSignal * string * option ioerr :=
  if es_closed es then (es, "", Some (ErrOther "http: read on closed response body"))
  else
    match rerr es with
    | Some e => (es, "", Some e)
    | None =>
        let '(b, x, e) := Read (es_body es) in
        let es := {| es_body := b; es_closed := es_closed es; rerr := e; fn := fn es; earlyCloseFn := earlyCloseFn es; calls := calls es |} in
        (match e with Some _ => condfn e es | None => es end, x, e)
    end.

Definition es_Close (es : bodyEOFSignal) : bodyEOFSignal * option ioerr :=
  if es_closed es then (es, None)
  else if earlyCloseFn es && negb (bool_decide (rerr es = Some EOF)) then
    ({| es_body := es_body es; es_closed := true; rerr := rerr es; fn := fn es; earlyCloseFn := earlyCloseFn es;
        calls := calls es ++ [EarlyClose] |}, None)
  else
    let '(b, e) := Close (es_body es) in
    (condfn e {| es_body := b; es_closed := true; rerr := rerr es; fn := fn es; earlyCloseFn := earlyCloseFn es; calls := calls es |}, e).
End signal.

(** A response's body that is uncompressed when it is first read. *)
Section gzip.
Context {B Z_ : Type} (NewReader : B → Z_ + ioerr) (zRead : Z_ → Z_ * string * option ioerr).
Record gzipReader := { gz_body : B; zr : option Z_ }.
Definition gz_Read (g : gzipReader) : gzipReader * string * option ioerr :=
  match (match zr g with Some z => inl z | None => NewReader (gz_body g) end) with
  | inr e => (g, "", Some e)
  | inl z => let '(z, x, e) := zRead z in ({| gz_body := gz_body g; zr := Some z |}, x, e)
  end.
End gzip.

(** A reader that notes the end of its connection. *)
Definition note_Read {B : Type} (Read : B → B * string * option ioerr) (b : B) (sawEOF : bool) : B * string * option ioerr * bool :=
  let '(b, x, e) := Read b in (b, x, e, sawEOF || bool_decide (e = Some EOF)).
End Transport.

Module TransportProps.
Import Transport.

(** *** NO_PROXY *)

Lemma str_drop_length n s : n ≤ String.length s → String.length (str_drop n s) = String.length s - n.
Proof. revert s. induction n as [|n IH]; intros [|a s]; cbn; [lia..|]. intros. rewrite IH; lia. Qed.

Lemma str_drop_split n s : ∃ x, s = x +:+ str_drop n s ∧ String.length x = n `min` String.length s.
Proof.
  revert s. induction n as [|n IH]; intros [|a s]; [by exists ""..|]. cbn [str_drop].
  destruct (IH s) as (x & E & Hx). exists (String a x). rewrite str_app_cons. split; [by f_equal|]. cbn. lia.
Qed.

Lemma HasSuffix_spec s p : HasSuffix s p = true ↔ ∃ x, s = x +:+ p.
Proof.
  unfold HasSuffix. rewrite andb_true_iff, !bool_decide_eq_true. split.
  - intros [Hl Hs]. destruct (str_drop_split (String.length s - String.length p) s) as (x & E & _). exists x. by rewrite Hs in E.
  - intros (x & ->). rewrite length_str_app. split; [lia|].
    replace (String.length x + String.length p - String.length p) with (String.length x) by lia. apply str_drop_app.
Qed.

Lemma get_app_last x c p : String.get (String.length (x +:+ String c p) - String.length p - 1) (x +:+ String c p) = Some c.
Proof.
  rewrite length_str_app. cbn [String.length]. replace (String.length x + S (String.length p) - String.length p - 1) with (String.length x) by lia.
  induction x as [|a x IH]; [done|]. by rewrite str_app_cons.
Qed.

Lemma split_last x c : ∃ y b, String c x = y +:+ String b "".
Proof.
  revert c. induction x as [|a x IH]; intros c; [by exists "", c|]. destruct (IH a) as (y & b & E).
  exists (String c y), b. by rewrite str_app_cons, E.
Qed.

(** An entry names a host, a domain, or, with a leading dot, a domain and
    everything below it. *)
Definition entry_matches (addr p : string) : Prop :=
  addr = p ∨
  (∃ d, p = String "." d ∧ (addr = d ∨ ∃ x, addr = x +:+ p)) ∨
  (first_byte p ≠ Some "."%char ∧ ∃ x, addr = x +:+ String "." p).

Lemma no_proxy_entry_spec addr p :
  strip_port (ToLower (TrimSpace p)) ≠ "" ∨ ToLower (TrimSpace p) = "" →
  ∃ b, no_proxy_entry addr p = Ok b ∧
    (b = true ↔ ToLower (TrimSpace p) ≠ "" ∧ entry_matches addr (strip_port (ToLower (TrimSpace p)))).
Proof.
  unfold no_proxy_entry. set (q := ToLower (TrimSpace p)). clearbody q. intros Hq.
  destruct (decide (q = "")) as [->|Hne]; [exists false; split; [done|naive_solver]|].
  destruct Hq as [Hq|]; [|done]. set (r := strip_port q) in *. clearbody r.
  destruct (decide (addr = r)) as [->|Hneq]; [exists true; split; [done|]; split; [|done]; split; [done|by left]|].
  destruct r as [|c r]; [done|]. cbn [first_byte String.get]. destruct (decide (c = "."%char)) as [->|Hc].
  - eexists. split; [done|]. rewrite orb_true_iff, HasSuffix_spec, bool_decide_eq_true. cbn [str_drop]. split.
    + intros H. split; [done|]. right. left. exists r. naive_solver.
    + intros [_ [?|[(d & [= <-] & [->|(x & ->)])|(Hd & _)]]]; [done|by right|by left; eexists|done].
  - eexists. split; [done|]. rewrite andb_true_iff, HasSuffix_spec, bool_decide_eq_true. split.
    + intros [(x & ->) Hg]. split; [done|]. right. right. split; [by intros [= ->]|].
      destruct x as [|a x]; [done|]. destruct (split_last x a) as (y & b & E). rewrite E in Hg |- *.
      rewrite <- str_app_assoc, str_app_cons, str_app_nil in Hg |- *. rewrite get_app_last in Hg. injection Hg as ->. by exists y.
    + intros [_ [?|[(d & [= ->] & _)|(_ & x & ->)]]]; [done..|]. rewrite get_app_last. split; [|done].
      exists (x +:+ "."). by rewrite <- str_app_assoc, (str_app_cons "." ""), str_app_nil.
Qed.

Section net.
Context (SplitHost : string → option string) (is_loopback : string → bool).

(** When a proxy is used: not for an address that cannot be split, this host,
    or one that NO_PROXY excludes by name, by domain or altogether. *)
Theorem useProxy_spec no_proxy addr :
  addr ≠ "" →
  (∀ p, p ∈ split_on "," no_proxy → strip_port (ToLower (TrimSpace p)) ≠ "" ∨ ToLower (TrimSpace p) = "") →
  ∃ b, useProxy SplitHost is_loopback no_proxy addr = Ok b ∧
    (b = true ↔ ∃ host, SplitHost addr = Some host ∧ host ≠ "localhost" ∧ is_loopback host = false ∧ no_proxy ≠ "*" ∧
       ¬ ∃ p, p ∈ split_on "," no_proxy ∧ ToLower (TrimSpace p) ≠ "" ∧
              entry_matches (strip_port (ToLower (TrimSpace addr))) (strip_port (ToLower (TrimSpace p)))).
Proof.
  intros Ha Hp. unfold useProxy. rewrite decide_False by done.
  destruct (SplitHost addr) as [host|]; [|exists false; split; [done|naive_solver]].
  destruct (decide (host = "localhost")) as [->|Hh]; [exists false; split; [done|naive_solver]|].
  destruct (is_loopback host) eqn:El; [exists false; split; [done|naive_solver]|].
  destruct (decide (no_proxy = "*")) as [->|Hs]; [exists false; split; [done|naive_solver]|].
  set (a := strip_port (ToLower (TrimSpace addr))). clearbody a.
  assert (∃ b, no_proxy_any a (split_on "," no_proxy) = Ok b ∧
    (b = true ↔ ∃ p, p ∈ split_on "," no_proxy ∧ ToLower (TrimSpace p) ≠ "" ∧ entry_matches a (strip_port (ToLower (TrimSpace p)))))
    as (b & -> & Hb).
  { revert Hp. generalize (split_on "," no_proxy). intros ps Hps. induction ps as [|p ps IH].
    - exists false. split; [done|]. split; [done|]. intros (p & Hp & _). by apply elem_of_nil in Hp.
    - destruct (no_proxy_entry_spec a p (Hps p ltac:(by left))) as (b & Eb & Hb). cbn. rewrite Eb. cbn.
      destruct b.
      + exists true. split; [done|]. split; [|done]. intros _. exists p. split; [by left|]. by apply Hb.
      + destruct IH as (b & -> & Hb'); [intros q Hq; apply Hps; by right|]. exists b. split; [done|]. rewrite Hb'. split.
        * intros (q & Hq & H). exists q. split; [by right|done].
        * intros (q & [->|Hq]%elem_of_cons & H); [apply Hb in H; done|by exists q]. }
  exists (negb b). split; [done|]. rewrite negb_true_iff, <- not_true_iff_false, Hb. split; [by exists host|].
  intros (h & [= <-] & _ & _ & _ & H). done.
Qed.

(** An entry that is only a port ends the program. *)
Lemma useProxy_port_entry : useProxy (λ _, Some "h") (λ _, false) ":80" "example.com:80" = Panic.
Proof. by vm_compute. Qed.
End net.

(** A proxy that cannot be used is passed over: the request goes to its
    target itself. *)
Theorem proxy_error_bypassed Proxy u e :
  Proxy u = Err e →
  ∃ cm, connectMethodForRequest (Some Proxy) u = Ok cm ∧ proxyURL cm = None ∧ cm_addr cm = canonicalAddr u.
Proof. unfold connectMethodForRequest. intros ->. by eexists. Qed.

(** Connections shared under a key reach the same server for a request:
    the target itself, unless a proxy takes requests for any of them. *)
Theorem key_same_target `{!URLLib} cm cm' :
  cm_key cm = cm_key cm' →
  targetScheme cm = targetScheme cm' ∧
  (targetScheme cm = "https" ∨ (proxyURL cm = None ∧ proxyURL cm' = None) → targetAddr cm = targetAddr cm') ∧
  (∀ p p', proxyURL cm = Some p → proxyURL cm' = Some p' → url_String p = url_String p').
Proof.
  unfold cm_key. intros Hk. pose proof (f_equal k_proxy Hk) as H1. pose proof (f_equal k_scheme Hk) as H2. pose proof (f_equal k_addr Hk) as H3.
  clear Hk. destruct (proxyURL cm) as [p|], (proxyURL cm') as [p'|]; cbn in H1, H2, H3; (split; [done|]; split; [|intros; simplify_eq; done]).
  - intros [E|[? _]]; [|done]. rewrite <- H2, !decide_False in H3 by (by rewrite E). done.
  - intros [E|[? _]]; [|done]. rewrite decide_False in H3 by (by rewrite E). done.
  - intros [E|[_ ?]]; [|done]. rewrite <- H2, decide_False in H3 by (by rewrite E). done.
  - done.
Qed.

(** *** The body's signal *)
Section signal.
Context {B : Type} (Read : B → B * string * option ioerr) (Close : B → B * option ioerr).

(** Reads ([true]) and closes in any order. *)
Definition es_op (op : bool) (es : bodyEOFSignal) : bodyEOFSignal :=
  if op then (es_Read Read es).1.1 else (es_Close Close es).1.

Definition signal_inv (es : @bodyEOFSignal B) : Prop :=
  earlyCloseFn es = true ∧
  match calls es with
  | [] => fn es = true ∧ es_closed es = false ∧ rerr es = None
  | [EarlyClose] => es_closed es = true
  | [Fn None] => fn es = false ∧ rerr es = Some EOF
  | [Fn (Some e)] => fn es = false ∧ es_closed es = false ∧ rerr es = Some e ∧ e ≠ EOF
  | [Fn (Some e); EarlyClose] => es_closed es = true
  | _ => False
  end.

(** The possible signals so far. *)
Ltac by_signal es H :=
  destruct (calls es) as [|[[?|]|] [|[|] [|]]] eqn:?; try done; destruct_and?; try congruence.

Lemma es_op_inv op es : signal_inv es → signal_inv (es_op op es).
Proof.
  intros Hi. pose proof Hi as [He Hc]. destruct op; cbn [es_op].
  - unfold es_Read. destruct (es_closed es) eqn:Ecl; [exact Hi|].
    destruct (rerr es) as [e|] eqn:Er; [exact Hi|].
    assert (calls es = [] ∧ fn es = true) as [Ecs Hfn] by (by_signal es Hc; done).
    destruct (Read (es_body es)) as [[b x] [e|]]; cbn.
    + unfold condfn. cbn [fn]. rewrite Hfn. split; [done|]. cbn [calls]. rewrite Ecs. cbn [app].
      destruct (decide (Some e = Some EOF)) as [[= ->]|Hne]; cbn; [done|]. split_and!; [done..|congruence].
    + split; [done|]. cbn. by rewrite Ecs.
  - unfold es_Close. destruct (es_closed es) eqn:Ecl; [exact Hi|]. rewrite He. cbn [andb].
    case_bool_decide as Hr; cbn [negb].
    + assert (calls es = [Fn None] ∧ fn es = false) as [Ecs Hfn] by (by_signal es Hc; done).
      destruct (Close (es_body es)) as [b e]. unfold condfn. cbn [fst fn]. rewrite Hfn. split; [done|]. cbn. by rewrite Ecs.
    + split; [done|]. cbn. by_signal es Hc; done.
Qed.

(** Success is signalled at most once, only once the end of the body has been
    read, and never together with an early close; there are at most two
    signals, as many as the connection's channel holds. *)
Theorem body_signal ops es es' :
  calls es = [] → fn es = true → earlyCloseFn es = true → es_closed es = false → rerr es = None →
  es' = foldl (λ es op, es_op op es) es ops →
  length (calls es') ≤ 2 ∧ (Fn None ∈ calls es' → calls es' = [Fn None] ∧ rerr es' = Some EOF).
Proof.
  intros Hc Hf He Hcl Hr ->. assert (signal_inv es) as Hi by (split; [done|]; by rewrite Hc).
  clear Hc Hf He Hcl Hr. revert es Hi. induction ops as [|op ops IH]; intros es Hi; cbn; [|apply IH; by apply es_op_inv].
  destruct Hi as [_ Hi]. destruct (calls es) as [|[[e|]|] [|[|] [|]]]; cbn; try done; (split; [lia|]);
    rewrite ?elem_of_cons, ?elem_of_nil; naive_solver.
Qed.
End signal.
End TransportProps.
