(* ===== verification/HttpPool.v ===== *)
(** The connections of the patched HTTP client's transport
    (http13client/transport.go): the pool of idle connections, the requests
    that wait for one, dial one or use one, and the two goroutines of every
    connection, as a labelled state machine.

    A label is one step of a goroutine or an event of the environment (what
    the network gives, a dial that ends, a timeout, a user who reads a body
    or cancels). Locked sections are one step. *)

From S2P Require Import Prelude HttpTransport.
Import Transport.

Module Pool.

Notation key := connectMethodKey.

(** *** A connection and its goroutines *)

(** [readLoop] *)
Inductive rpc :=
| RPeek                                 (** at [br.Peek(1)] *)
| RTake (ok : bool)                     (** at [<-pc.reqch] *)
| RRead (q : nat) (ok : bool)           (** reading the response *)
| RCheck (q : nat)                      (** no body: may the connection be kept? *)
| RPut (q : nat)
| RDeliver (q : nat) (ok alive : bool)  (** at [rc.ch <-], without a body *)
| RDeliverBody (q : nat) (alive : bool)
| RBody (q : nat) (alive : bool)        (** waits for the body to be read *)
| RExit.

(** The function of a response's body, run by its reader. *)
Inductive bpc := BNone | BOpen | BCheck | BPut | BVerdict (b : bool).

(** [writeLoop] *)
Inductive wpc := WIdle | WWrite (q : nat) | WReport (q : nat) (ok : bool) | WAnswer (q : nat) (ok : bool) | WExit.

Record pconn := {
  p_key : key;
  broken : bool;
  closed : bool;                 (** also [closech] *)
  expected : nat;                (** [numExpectedResponses] *)
  reqch : option nat;            (** the buffers, of one each *)
  writech : option nat;
  writeErrCh : option bool;      (** true for a nil error *)
  reader : rpc;
  body : bpc;
  writer : wpc;
  handed : list nat;             (** requests handed over, in order (a history) *)
  answering : list nat;          (** those the reader took *)
  writing : list nat;            (** those the writer began to write *)
}.

Definition new_pconn (k : key) : pconn :=
  {| p_key := k; broken := false; closed := false; expected := 0; reqch := None; writech := None; writeErrCh := None;
     reader := RPeek; body := BNone; writer := WIdle; handed := []; answering := []; writing := [] |}.

Definition set_flags (b c : bool) (e : nat) (p : pconn) : pconn :=
  {| p_key := p_key p; broken := b; closed := c; expected := e; reqch := reqch p; writech := writech p;
     writeErrCh := writeErrCh p; reader := reader p; body := body p; writer := writer p; handed := handed p;
     answering := answering p; writing := writing p |}.
Definition set_reader (r : rpc) (p : pconn) : pconn :=
  {| p_key := p_key p; broken := broken p; closed := closed p; expected := expected p; reqch := reqch p; writech := writech p;
     writeErrCh := writeErrCh p; reader := r; body := body p; writer := writer p; handed := handed p;
     answering := answering p; writing := writing p |}.
Definition set_body (b : bpc) (p : pconn) : pconn :=
  {| p_key := p_key p; broken := broken p; closed := closed p; expected := expected p; reqch := reqch p; writech := writech p;
     writeErrCh := writeErrCh p; reader := reader p; body := b; writer := writer p; handed := handed p;
     answering := answering p; writing := writing p |}.
Definition set_writer (w : wpc) (p : pconn) : pconn :=
  {| p_key := p_key p; broken := broken p; closed := closed p; expected := expected p; reqch := reqch p; writech := writech p;
     writeErrCh := writeErrCh p; reader := reader p; body := body p; writer := w; handed := handed p;
     answering := answering p; writing := writing p |}.
Definition set_writeErr (e : option bool) (p : pconn) : pconn :=
  {| p_key := p_key p; broken := broken p; closed := closed p; expected := expected p; reqch := reqch p; writech := writech p;
     writeErrCh := e; reader := reader p; body := body p; writer := writer p; handed := handed p;
     answering := answering p; writing := writing p |}.

(** [markBroken] and [close]; a second close does nothing more. *)
Definition markBroken (p : pconn) : pconn := set_flags true (closed p) (expected p) p.
Definition close_ (p : pconn) : pconn := set_flags true true (expected p) p.
Definition expect_more (p : pconn) : pconn := set_flags (broken p) (closed p) (S (expected p)) p.
Definition expect_less (p : pconn) : pconn := set_flags (broken p) (closed p) (pred (expected p)) p.

(** A request put into the writer's and the reader's buffer, and taken out. *)
Definition push_write (q : nat) (p : pconn) : pconn :=
  {| p_key := p_key p; broken := broken p; closed := closed p; expected := expected p; reqch := reqch p; writech := Some q;
     writeErrCh := writeErrCh p; reader := reader p; body := body p; writer := writer p; handed := handed p ++ [q];
     answering := answering p; writing := writing p |}.
Definition push_req (q : nat) (p : pconn) : pconn :=
  {| p_key := p_key p; broken := broken p; closed := closed p; expected := expected p; reqch := Some q; writech := writech p;
     writeErrCh := writeErrCh p; reader := reader p; body := body p; writer := writer p; handed := handed p;
     answering := answering p; writing := writing p |}.
Definition take_req (q : nat) (ok : bool) (p : pconn) : pconn :=
  {| p_key := p_key p; broken := broken p; closed := closed p; expected := expected p; reqch := None; writech := writech p;
     writeErrCh := writeErrCh p; reader := RRead q ok; body := body p; writer := writer p; handed := handed p;
     answering := answering p ++ [q]; writing := writing p |}.
Definition take_write (q : nat) (p : pconn) : pconn :=
  {| p_key := p_key p; broken := broken p; closed := closed p; expected := expected p; reqch := reqch p; writech := None;
     writeErrCh := writeErrCh p; reader := reader p; body := body p; writer := WWrite q; handed := handed p;
     answering := answering p; writing := writing p ++ [q] |}.
Definition drop_write (p : pconn) : pconn :=
  {| p_key := p_key p; broken := broken p; closed := closed p; expected := expected p; reqch := reqch p; writech := None;
     writeErrCh := writeErrCh p; reader := reader p; body := body p; writer := writer p; handed := handed p;
     answering := answering p; writing := writing p |}.

(** *** Requests and dials *)

(** A caller of [RoundTrip]. *)
Inductive qpc :=
| QGet (k : key)                     (** found no idle connection; a dial is under way *)
| QChan (k : key) (ch : option nat)  (** has the key's channel *)
| QWait (k : key) (ch : option nat)  (** in the [select] of [getConn] *)
| QConn (k : key) (c : nat)          (** has a connection *)
| QWrite (c : nat)                   (** at [pc.writech <-] *)
| QReq (c : nat)                     (** at [pc.reqch <-] *)
| QResp (c : nat)                    (** waits for the response *)
| QDone (ok : bool).

(** The goroutine that dials for a request. *)
Inductive dpc := DDialing (k : key) | DReady (k : key) (c : nat) | DFailed.

Record state := {
  conns : gmap nat pconn;
  idle : gmap key (list nat);      (** [idleConn] *)
  idleCh : gmap key nat;           (** [idleConnCh], a channel being a number *)
  reqs : gmap nat qpc;
  dials : gmap nat dpc;
  cancelc : gmap nat bool;         (** cancelers of waiting requests; true when closed *)
  resc : gmap nat bool;            (** the answers delivered; false for an error *)
  wrote : gmap nat bool;           (** the writer's answers *)
  next : nat;                      (** the next connection or channel *)
  panicked : bool;                 (** a channel closed twice *)
  fatal : bool;                    (** a connection put twice *)
}.

Definition init : state :=
  {| conns := ∅; idle := ∅; idleCh := ∅; reqs := ∅; dials := ∅; cancelc := ∅; resc := ∅; wrote := ∅; next := 0;
     panicked := false; fatal := false |}.

Definition with_conns (f : gmap nat pconn → gmap nat pconn) (s : state) : state :=
  {| conns := f (conns s); idle := idle s; idleCh := idleCh s; reqs := reqs s; dials := dials s; cancelc := cancelc s;
     resc := resc s; wrote := wrote s; next := next s; panicked := panicked s; fatal := fatal s |}.
Definition with_idle (i : gmap key (list nat)) (s : state) : state :=
  {| conns := conns s; idle := i; idleCh := idleCh s; reqs := reqs s; dials := dials s; cancelc := cancelc s;
     resc := resc s; wrote := wrote s; next := next s; panicked := panicked s; fatal := fatal s |}.
Definition with_idleCh (i : gmap key nat) (s : state) : state :=
  {| conns := conns s; idle := idle s; idleCh := i; reqs := reqs s; dials := dials s; cancelc := cancelc s;
     resc := resc s; wrote := wrote s; next := next s; panicked := panicked s; fatal := fatal s |}.
Definition set_req (q : nat) (r : qpc) (s : state) : state :=
  {| conns := conns s; idle := idle s; idleCh := idleCh s; reqs := <[q := r]> (reqs s); dials := dials s; cancelc := cancelc s;
     resc := resc s; wrote := wrote s; next := next s; panicked := panicked s; fatal := fatal s |}.
Definition with_dials (d : gmap nat dpc) (s : state) : state :=
  {| conns := conns s; idle := idle s; idleCh := idleCh s; reqs := reqs s; dials := d; cancelc := cancelc s;
     resc := resc s; wrote := wrote s; next := next s; panicked := panicked s; fatal := fatal s |}.
Definition with_cancel (m : gmap nat bool) (p : bool) (s : state) : state :=
  {| conns := conns s; idle := idle s; idleCh := idleCh s; reqs := reqs s; dials := dials s; cancelc := m;
     resc := resc s; wrote := wrote s; next := next s; panicked := p; fatal := fatal s |}.
Definition with_resc (q : nat) (ok : bool) (s : state) : state :=
  {| conns := conns s; idle := idle s; idleCh := idleCh s; reqs := reqs s; dials := dials s; cancelc := cancelc s;
     resc := <[q := ok]> (resc s); wrote := wrote s; next := next s; panicked := panicked s; fatal := fatal s |}.
Definition with_wrote (q : nat) (ok : bool) (s : state) : state :=
  {| conns := conns s; idle := idle s; idleCh := idleCh s; reqs := reqs s; dials := dials s; cancelc := cancelc s;
     resc := resc s; wrote := <[q := ok]> (wrote s); next := next s; panicked := panicked s; fatal := fatal s |}.
Definition with_next (n : nat) (s : state) : state :=
  {| conns := conns s; idle := idle s; idleCh := idleCh s; reqs := reqs s; dials := dials s; cancelc := cancelc s;
     resc := resc s; wrote := wrote s; next := n; panicked := panicked s; fatal := fatal s |}.
Definition with_fatal (s : state) : state :=
  {| conns := conns s; idle := idle s; idleCh := idleCh s; reqs := reqs s; dials := dials s; cancelc := cancelc s;
     resc := resc s; wrote := wrote s; next := next s; panicked := panicked s; fatal := true |}.

(** A change of one connection. *)
Definition upd (c : nat) (f : pconn → pconn) : state → state := with_conns (alter f c).

Definition get_idle (k : key) (s : state) : list nat := default [] (idle s !! k).

Section pool.
(** The transport's settings. *)
Context (DisableKeepAlives : bool) (MaxIdleConnsPerHost : Z).

Definition max_idle : nat :=
  Z.to_nat (if decide (MaxIdleConnsPerHost = 0%Z) then 2%Z else MaxIdleConnsPerHost).

(** A request that receives on a channel, with its key. *)
Definition waiting (ch : nat) (r : qpc) : option key :=
  match r with QWait k (Some ch') => if decide (ch' = ch) then Some k else None | _ => None end.

(** Into the list, unless it is full; [log.Fatalf] when it is there already. *)
Definition put_list (c : nat) (k : key) (s : state) : state * bool :=
  if bool_decide (max_idle ≤ length (get_idle k s)) then (upd c close_ s, false)
  else if bool_decide (c ∈ get_idle k s) then (with_fatal s, false)
  else (with_idle (<[k := get_idle k s ++ [c]]> (idle s)) s, true).

(** [putIdleConn]: to a request [to] that waits on the key's channel, if there is
    one, and into the list otherwise. [None] when the choice is not open. *)
Definition putIdleConn (c : nat) (to : option nat) (s : state) : option (state * bool) :=
  match conns s !! c with
  | None => None
  | Some p =>
      if DisableKeepAlives || (MaxIdleConnsPerHost <? 0)%Z then
        match to with None => Some (upd c close_ s, false) | Some _ => None end
      else if broken p then match to with None => Some (s, false) | Some _ => None end
      else
        let k := p_key p in
        match idleCh s !! k with
        | None => match to with None => Some (put_list c k s) | Some _ => None end
        | Some ch =>
            match to with
            | Some q => k' ← (reqs s !! q ≫= waiting ch); Some (set_req q (QConn k' c) s, true)
            | None =>
                if bool_decide (map_Exists (λ _ r, is_Some (waiting ch r)) (reqs s)) then None
                else Some (put_list c k (with_idleCh (delete k (idleCh s)) s))
            end
        end
  end.

(** [getIdleConn]: the last one that is not broken; those after it go. *)
Fixpoint pop_idle (cs : gmap nat pconn) (rl : list nat) : option nat * list nat :=
  match rl with
  | [] => (None, [])
  | c :: rl => if default true (broken <$> cs !! c) then pop_idle cs rl else (Some c, rl)
  end.
Definition getIdleConn (k : key) (s : state) : state * option nat :=
  match idle s !! k with
  | None => (s, None)
  | Some l =>
      let '(c, rl) := pop_idle (conns s) (rev l) in
      (with_idle (match rl with [] => delete k (idle s) | _ => <[k := rev rl]> (idle s) end) s, c)
  end.

Inductive label :=
| LStart (q : nat) (k : key)
| LGetCh (q : nat)
| LSelect (q : nat)
| LDial (q : nat) (ok : bool)
| LDialed (q : nat)
| LPendingDial (q : nat) (to : option nat)
| LCancel (q : nat)
| LCancelled (q : nat)
| LEnter (q : nat)
| LSendWrite (q : nat)
| LSendReq (q : nat)
| LAnswer (q : nat)
| LWriteFailed (q : nat)
| LTimeout (q : nat)
| LDead (q : nat)
| LWTake (c : nat)
| LWDone (c : nat) (ok : bool)
| LWReport (c : nat)
| LWAnswer (c : nat)
| LWExit (c : nat)
| LPeek (c : nat) (ok : bool)
| LRTake (c : nat)
| LRead (c : nat) (resp : option (bool * bool))   (** has a body; may stay alive *)
| LCheck (c : nat) (sawEOF late : bool)
| LPut (c : nat) (to : option nat)
| LDeliver (c : nat)
| LDeliverBody (c : nat)
| LBody (c : nat) (eof : bool)
| LBCheck (c : nat) (sawEOF late : bool)
| LBPut (c : nat) (to : option nat)
| LBodyDone (c : nat)
| LBodyDead (c : nat)
| LCloseIdle.

(** [wroteRequest]: the writer's error, or none in time. *)
Definition wroteRequest (late : bool) (p : pconn) : option (pconn * bool) :=
  match writeErrCh p with
  | Some ok => Some (set_writeErr None p, ok)
  | None => if late then Some (p, false) else None
  end.

(** A request ends, its connection expecting one response less. *)
Definition finish_req (q c : nat) (ok : bool) (s : state) : state := upd c expect_less (set_req q (QDone ok) s).

(** [CancelRequest]: closes the channel, or the connection (the network's doing). *)
Definition CancelRequest (q : nat) (s : state) : state :=
  match cancelc s !! q with
  | Some false => with_cancel (<[q := true]> (cancelc s)) (panicked s) s
  | Some true => with_cancel (cancelc s) true s
  | None => s
  end.

Definition CloseIdleConnections (s : state) : state :=
  with_idleCh ∅ (with_idle ∅ (with_conns (λ cs, foldr (alter close_) cs (concat (map_to_list (idle s)).*2)) s)).

(** [getConn], its dial and what is done with a dial nobody waits for. *)
Definition step_get (l : label) (s : state) : option state :=
  match l with
  | LStart q k =>
      match reqs s !! q with
      | Some _ => None
      | None =>
          let '(s, c) := getIdleConn k s in
          match c with
          | Some c => Some (set_req q (QConn k c) s)
          | None => Some (set_req q (QGet k) (with_cancel (<[q := false]> (cancelc s)) (panicked s)
                            (with_dials (<[q := DDialing k]> (dials s)) s)))
          end
      end
  | LGetCh q =>
      match reqs s !! q with
      | Some (QGet k) =>
          if DisableKeepAlives then Some (set_req q (QChan k None) s)
          else match idleCh s !! k with
               | Some ch => Some (set_req q (QChan k (Some ch)) s)
               | None => Some (set_req q (QChan k (Some (next s))) (with_next (S (next s)) (with_idleCh (<[k := next s]> (idleCh s)) s)))
               end
      | _ => None
      end
  | LSelect q =>
      match reqs s !! q with Some (QChan k ch) => Some (set_req q (QWait k ch) s) | _ => None end
  | LDial q ok =>
      match dials s !! q with
      | Some (DDialing k) =>
          if ok : bool then
            Some (with_dials (<[q := DReady k (next s)]> (dials s)) (with_next (S (next s)) (with_conns (<[next s := new_pconn k]>) s)))
          else Some (with_dials (<[q := DFailed]> (dials s)) s)
      | _ => None
      end
  | LDialed q =>
      match reqs s !! q, dials s !! q with
      | Some (QWait k _), Some (DReady _ c) => Some (set_req q (QConn k c) (with_dials (delete q (dials s)) s))
      | Some (QWait _ _), Some DFailed => Some (set_req q (QDone false) (with_cancel (delete q (cancelc s)) (panicked s)
                                                  (with_dials (delete q (dials s)) s)))
      | _, _ => None
      end
  | LPendingDial q to =>
      match reqs s !! q, dials s !! q with
      | Some (QGet _), _ | Some (QChan _ _), _ | Some (QWait _ _), _ => None
      | _, Some (DReady _ c) => fst <$> putIdleConn c to (with_dials (delete q (dials s)) s)
      | _, Some DFailed => Some (with_dials (delete q (dials s)) s)
      | _, _ => None
      end
  | LCancelled q =>
      match reqs s !! q, cancelc s !! q with
      | Some (QWait _ _), Some true => Some (set_req q (QDone false) (with_cancel (delete q (cancelc s)) (panicked s) s))
      | _, _ => None
      end
  | _ => None
  end.

(** [roundTrip] on a connection. *)
Definition step_use (l : label) (s : state) : option state :=
  match l with
  | LEnter q =>
      match reqs s !! q with
      | Some (QConn _ c) => Some (upd c expect_more (set_req q (QWrite c) (with_cancel (delete q (cancelc s)) (panicked s) s)))
      | _ => None
      end
  | LSendWrite q =>
      match reqs s !! q with
      | Some (QWrite c) =>
          if decide ((conns s !! c ≫= writech) = None) then Some (upd c (push_write q) (set_req q (QReq c) s)) else None
      | _ => None
      end
  | LSendReq q =>
      match reqs s !! q with
      | Some (QReq c) =>
          if decide ((conns s !! c ≫= reqch) = None) then Some (upd c (push_req q) (set_req q (QResp c) s)) else None
      | _ => None
      end
  | LAnswer q =>
      match reqs s !! q, resc s !! q with Some (QResp c), Some ok => Some (finish_req q c ok s) | _, _ => None end
  | LWriteFailed q =>
      match reqs s !! q, wrote s !! q with
      | Some (QResp c), Some false => Some (finish_req q c false (upd c close_ s))
      | _, _ => None
      end
  | LTimeout q =>
      match reqs s !! q, wrote s !! q with
      | Some (QResp c), Some true => Some (finish_req q c false (upd c close_ s))
      | _, _ => None
      end
  | LDead q =>
      match reqs s !! q with
      | Some (QResp c) => if default false (closed <$> conns s !! c) then Some (finish_req q c false s) else None
      | _ => None
      end
  | _ => None
  end.

Definition step_req (l : label) (s : state) : option state :=
  match l with
  | LCancel q => Some (CancelRequest q s)
  | LCloseIdle => Some (CloseIdleConnections s)
  | _ => match step_get l s with Some s => Some s | None => step_use l s end
  end.

Definition step_writer (l : label) (s : state) : option state :=
  match l with
  | LWTake c =>
      p ← conns s !! c;
      match writer p, writech p with
      | WIdle, Some q => Some (if broken p then with_wrote q false (upd c drop_write s) else upd c (take_write q) s)
      | _, _ => None
      end
  | LWDone c ok =>
      p ← conns s !! c;
      match writer p with
      | WWrite q => Some (upd c (λ p, set_writer (WReport q ok) (if ok : bool then p else markBroken p)) s)
      | _ => None
      end
  | LWReport c =>
      p ← conns s !! c;
      match writer p, writeErrCh p with
      | WReport q ok, None => Some (upd c (λ p, set_writer (WAnswer q ok) (set_writeErr (Some ok) p)) s)
      | _, _ => None
      end
  | LWAnswer c =>
      p ← conns s !! c;
      match writer p with WAnswer q ok => Some (with_wrote q ok (upd c (set_writer WIdle) s)) | _ => None end
  | LWExit c =>
      p ← conns s !! c;
      match writer p with WIdle => if closed p then Some (upd c (set_writer WExit) s) else None | _ => None end
  | _ => None
  end.

Definition step_reader (l : label) (s : state) : option state :=
  match l with
  | LPeek c ok =>
      p ← conns s !! c;
      match reader p with
      | RPeek => Some (upd c (λ p, if decide (expected p = 0) then set_reader RExit (close_ p) else set_reader (RTake ok) p) s)
      | _ => None
      end
  | LRTake c =>
      p ← conns s !! c;
      match reader p, reqch p with RTake ok, Some q => Some (upd c (take_req q ok) s) | _, _ => None end
  | LRead c resp =>
      p ← conns s !! c;
      match reader p with
      | RRead q ok =>
          match (if ok then resp else None) with
          | None => Some (upd c (λ p, set_reader (RDeliver q false false) (close_ p)) s)
          | Some (true, alive) => Some (upd c (set_reader (RDeliverBody q alive)) s)
          | Some (false, true) => Some (upd c (set_reader (RCheck q)) s)
          | Some (false, false) => Some (upd c (set_reader (RDeliver q true false)) s)
          end
      | _ => None
      end
  | LCheck c sawEOF late =>
      p ← conns s !! c;
      match reader p with
      | RCheck q =>
          if sawEOF : bool then Some (upd c (set_reader (RDeliver q true false)) s)
          else
            '(p, ok) ← wroteRequest late p;
            Some (upd c (λ _, set_reader (if ok : bool then RPut q else RDeliver q true false) p) s)
      | _ => None
      end
  | LPut c to =>
      p ← conns s !! c;
      match reader p with
      | RPut q =>
          '(s, b) ← putIdleConn c to (upd c (set_reader (RDeliver q true false)) s);
          Some (upd c (set_reader (RDeliver q true b)) s)
      | _ => None
      end
  | LDeliver c =>
      p ← conns s !! c;
      match reader p with
      | RDeliver q ok alive =>
          Some (upd c (λ p, if alive : bool then set_reader RPeek p else set_reader RExit (close_ p)) (with_resc q ok s))
      | _ => None
      end
  | LDeliverBody c =>
      p ← conns s !! c;
      match reader p with
      | RDeliverBody q alive => Some (upd c (λ p, set_body BOpen (set_reader (RBody q alive) p)) (with_resc q true s))
      | _ => None
      end
  | LBody c eof =>
      p ← conns s !! c;
      match body p with
      | BOpen =>
          let alive := match reader p with RBody _ alive => alive | _ => false end in
          Some (upd c (set_body (if (eof : bool) && alive then BCheck else BVerdict false)) s)
      | _ => None
      end
  | LBCheck c sawEOF late =>
      p ← conns s !! c;
      match body p with
      | BCheck =>
          if sawEOF : bool then Some (upd c (set_body (BVerdict false)) s)
          else
            '(p, ok) ← wroteRequest late p;
            Some (upd c (λ _, set_body (if ok : bool then BPut else BVerdict false) p) s)
      | _ => None
      end
  | LBPut c to =>
      p ← conns s !! c;
      match body p with
      | BPut =>
          '(s, b) ← putIdleConn c to (upd c (set_body (BVerdict false)) s);
          Some (upd c (set_body (BVerdict b)) s)
      | _ => None
      end
  | LBodyDone c =>
      p ← conns s !! c;
      match reader p, body p with
      | RBody q _, BVerdict b =>
          Some (upd c (λ p, if b then set_reader RPeek (set_body BNone p) else set_reader RExit (close_ (set_body BNone p))) s)
      | _, _ => None
      end
  | LBodyDead c =>
      p ← conns s !! c;
      match reader p with
      | RBody q _ => if closed p then Some (upd c (λ p, set_reader RExit (close_ p)) s) else None
      | _ => None
      end
  | _ => None
  end.

Definition step (l : label) (s : state) : option state :=
  if panicked s || fatal s then None
  else
    match step_req l s with
    | Some s => Some s
    | None => match step_writer l s with Some s => Some s | None => step_reader l s end
    end.

Fixpoint run (ls : list label) (s : state) : option state :=
  match ls with [] => Some s | l :: ls => s ← step l s; run ls s end.
End pool.
End Pool.

(** ** The invariant of the pool

    A connection is in one place: an idle list, the hands of a dial, of one
    request on its way to use it, or those of its own goroutines. The owner
    of every connection is a ghost function of the state. *)

Module PoolInv.
Import Pool.

Inductive place :=
| PIdle (k : key) | PDial (q : nat) (k : key) | PConn (q : nat) (k : key) | PWrite (q : nat) | PSend (q : nat) | PReader.

#[export] Instance place_eq_dec : EqDecision place.
Proof. solve_decision. Defined.

(** What a state says of who holds a connection. *)
Definition held (s : state) (pl : place) (c : nat) : Prop :=
  match pl with
  | PIdle k => c ∈ get_idle k s
  | PDial q k => dials s !! q = Some (DReady k c)
  | PConn q k => reqs s !! q = Some (QConn k c)
  | PWrite q => reqs s !! q = Some (QWrite c)
  | PSend q => reqs s !! q = Some (QReq c)
  | PReader => False
  end.

Definition count (b : bool) : nat := if b then 1 else 0.

(** The rights to use the connection that its own goroutines have, and the
    requests written of which the reader did not ask the outcome. *)
Definition tokens (p : pconn) : nat :=
  count (bool_decide (is_Some (reqch p))) +
  count (match reader p with RRead _ _ | RCheck _ | RPut _ | RDeliverBody _ _ => true | _ => false end) +
  count (match body p with BOpen | BCheck | BPut => true | _ => false end).
Definition outstanding (p : pconn) : nat :=
  count (bool_decide (is_Some (writech p))) +
  count (match writer p with WWrite _ | WReport _ _ => true | _ => false end) +
  count (bool_decide (is_Some (writeErrCh p))).
Definition putting (p : pconn) : bool :=
  match reader p, body p with RPut _, _ | _, BPut => true | _, _ => false end.

(** Nothing of an earlier request is left in it. *)
Definition quiet (p : pconn) : Prop := tokens p = 0 ∧ outstanding p = 0 ∧ answering p = handed p.

Definition owned (pl : place) (p : pconn) : Prop :=
  match pl with
  | PIdle k | PDial _ k | PConn _ k => quiet p ∧ p_key p = k
  | PWrite _ => quiet p
  | PSend q => tokens p = 0 ∧ answering p ++ [q] = handed p
  | PReader => answering p ++ option_list (reqch p) = handed p
  end.

Record local (pl : place) (p : pconn) : Prop := {
  l_tokens : tokens p ≤ 1;
  l_out : outstanding p ≤ 1;
  l_put : putting p = true → outstanding p = 0;
  l_writing : writing p ++ option_list (writech p) = handed p ∨ broken p = true ∧ writing p `prefix_of` handed p;
  l_owned : owned pl p;
}.

(** The key and the channel of a request that waits. *)
Definition req_key (r : qpc) : option key := match r with QGet k | QChan k _ | QWait k _ => Some k | _ => None end.
Definition req_chan (r : qpc) : option nat := match r with QChan _ ch | QWait _ ch => ch | _ => None end.
Definition dial_key (d : dpc) : option key := match d with DDialing k | DReady k _ => Some k | DFailed => None end.

Record wf (maxIdle : nat) (s : state) : Prop := {
  w_fatal : fatal s = false;
  w_nodup k : NoDup (get_idle k s);
  w_bound k : length (get_idle k s) ≤ maxIdle;
  w_chan k ch : idleCh s !! k = Some ch → ch < next s;
  w_inj k k' ch : idleCh s !! k = Some ch → idleCh s !! k' = Some ch → k = k';
  w_wait q r k ch : reqs s !! q = Some r → req_key r = Some k → req_chan r = Some ch →
    ch < next s ∧ ∀ k', idleCh s !! k' = Some ch → k' = k;
  w_dial q r d k k' : reqs s !! q = Some r → req_key r = Some k → dials s !! q = Some d → dial_key d = Some k' → k = k';
}.

Record inv (maxIdle : nat) (s : state) (own : nat → place) : Prop := {
  i_wf : wf maxIdle s;
  i_held pl c : held s pl c → own c = pl ∧ is_Some (conns s !! c);
  i_conn c p : conns s !! c = Some p → c < next s ∧ local (own c) p;
}.

Definition set_own (c : nat) (pl : place) (own : nat → place) : nat → place :=
  λ x, if decide (x = c) then pl else own x.

Lemma set_own_eq c pl own : set_own c pl own c = pl.
Proof. unfold set_own. by rewrite decide_True. Qed.
Lemma set_own_ne c pl own x : x ≠ c → set_own c pl own x = own x.
Proof. intros. unfold set_own. by rewrite decide_False. Qed.

(** A state with the same bookkeeping and a change in one connection. *)
Lemma inv_upd m s own c f :
  inv m s own → (∀ p, conns s !! c = Some p → local (own c) p → local (own c) (f p)) → inv m (upd c f s) own.
Proof.
  intros [W Hh Hc] Hf. split.
  - destruct W; by split.
  - intros pl x Hx. assert (Hx' : held s pl x) by (destruct pl; exact Hx).
    destruct (Hh _ _ Hx') as [E1 E2]. split; [done|]. cbn. destruct (decide (x = c)) as [->|N].
    + rewrite lookup_alter_eq. by apply fmap_is_Some.
    + by rewrite lookup_alter_ne.
  - intros x p. cbn. destruct (decide (x = c)) as [->|N].
    + rewrite lookup_alter_eq. intros E. destruct (conns s !! c) as [p0|] eqn:E0; [|done]. cbn in E. simplify_eq.
      destruct (Hc _ _ E0). split; [done|]. by apply Hf.
    + rewrite lookup_alter_ne by done. apply Hc.
Qed.

(** A connection that changes hands, and may be changed by it. *)
Lemma inv_move_upd m s s' own c p pl f :
  inv m s own → wf m s' → conns s' = alter f c (conns s) → next s ≤ next s' → conns s !! c = Some p →
  (local (own c) p → local pl (f p)) →
  (∀ pl' x, held s' pl' x → x = c ∧ pl' = pl ∨ x ≠ c ∧ held s pl' x) →
  inv m s' (set_own c pl own).
Proof.
  intros [W Hh Hc] W' Ec En Ep Hl Hm. split; [done| |].
  - intros pl' x Hx. rewrite Ec. destruct (Hm _ _ Hx) as [[-> ->]|[N Hx']].
    + by rewrite set_own_eq, lookup_alter_eq, Ep.
    + rewrite set_own_ne, lookup_alter_ne by done. by apply Hh.
  - intros x px. rewrite Ec. destruct (decide (x = c)) as [->|N].
    + rewrite lookup_alter_eq, Ep, set_own_eq. intros [= <-]. destruct (Hc _ _ Ep). split; [lia|auto].
    + rewrite lookup_alter_ne, set_own_ne by done. intros E. destruct (Hc _ _ E). split; [lia|done].
Qed.
Lemma inv_move m s s' own c p pl :
  inv m s own → wf m s' → conns s' = conns s → next s ≤ next s' → conns s !! c = Some p → (local (own c) p → local pl p) →
  (∀ pl' x, held s' pl' x → x = c ∧ pl' = pl ∨ x ≠ c ∧ held s pl' x) →
  inv m s' (set_own c pl own).
Proof.
  intros I W' Ec En Ep Hl Hm. apply (inv_move_upd m s s' own c p pl id); try done. rewrite Ec. symmetry. apply alter_id. done.
Qed.

(** No connection changes hands. *)
Lemma inv_keep m s s' own :
  inv m s own → wf m s' → conns s' = conns s → next s ≤ next s' → (∀ pl x, held s' pl x → held s pl x) → inv m s' own.
Proof.
  intros [W Hh Hc] W' Ec En Hm. split; [done| |].
  - intros pl x Hx. rewrite Ec. auto.
  - intros x p. rewrite Ec. intros E. destruct (Hc _ _ E). split; [lia|done].
Qed.

(** *** What a change of a request does *)

Definition place_of (q : nat) (r : qpc) : option (place * nat) :=
  match r with QConn k c => Some (PConn q k, c) | QWrite c => Some (PWrite q, c) | QReq c => Some (PSend q, c) | _ => None end.
Definition place_req (pl : place) : option nat :=
  match pl with PConn q _ | PWrite q | PSend q => Some q | _ => None end.

Lemma held_set_req q r s pl c :
  held (set_req q r s) pl c → place_of q r = Some (pl, c) ∨ place_req pl ≠ Some q ∧ held s pl c.
Proof.
  destruct pl; cbn; try solve [intros Hx; right; split; [done|exact Hx]];
    (intros [[-> ->]|[N Hx]]%lookup_insert_Some; [by left|right; split; [congruence|done]]).
Qed.

Lemma wf_conns m f s : wf m s → wf m (with_conns f s).
Proof. intros []. by split. Qed.
Lemma wf_cancel m c p s : wf m s → wf m (with_cancel c p s).
Proof. intros []. by split. Qed.
Lemma wf_resc m q ok s : wf m s → wf m (with_resc q ok s).
Proof. intros []. by split. Qed.
Lemma wf_wrote m q ok s : wf m s → wf m (with_wrote q ok s).
Proof. intros []. by split. Qed.
Lemma wf_del_dial m q s : wf m s → wf m (with_dials (delete q (dials s)) s).
Proof.
  intros []. split; try done. intros q' r d k k' Hr Hk Hd. cbn in Hd. apply lookup_delete_Some in Hd as [_ Hd]. eauto.
Qed.

(** A request that waits no more, and one that waits for the key it did. *)
Lemma wf_set_req m q r s : wf m s → req_key r = None → wf m (set_req q r s).
Proof.
  intros [] Hr. split; try done; cbn.
  - intros q' r' k ch [[-> ->]|[N Hx]]%lookup_insert_Some; [congruence|eauto].
  - intros q' r' d k k' [[-> ->]|[N Hx]]%lookup_insert_Some; [congruence|eauto].
Qed.
Lemma wf_wait m q r0 r k s :
  wf m s → reqs s !! q = Some r0 → req_key r0 = Some k → req_key r = Some k →
  (∀ ch, req_chan r = Some ch → ch < next s ∧ ∀ k', idleCh s !! k' = Some ch → k' = k) → wf m (set_req q r s).
Proof.
  intros [] E0 K0 K Hch. split; try done; cbn.
  - intros q' r' k' ch [[-> ->]|[N Hx]]%lookup_insert_Some; [intros ??; simplify_eq; eauto|eauto].
  - intros q' r' d k1 k' [[-> ->]|[N Hx]]%lookup_insert_Some; [intros; simplify_eq; eauto|eauto].
Qed.
Lemma wf_del_chan m k s : wf m s → wf m (with_idleCh (delete k (idleCh s)) s).
Proof.
  intros []. split; try done; cbn.
  - intros k' ch [_ Hx]%lookup_delete_Some. eauto.
  - intros k1 k2 ch [_ H1]%lookup_delete_Some [_ H2]%lookup_delete_Some. eauto.
  - intros q r k' ch Hr Hk Hc. destruct (w_wait0 _ _ _ _ Hr Hk Hc) as [L Hu]. split; [done|].
    intros k1 [_ H1]%lookup_delete_Some. auto.
Qed.
Lemma wf_idle m s i :
  wf m s → (∀ k, NoDup (default [] (i !! k)) ∧ length (default [] (i !! k)) ≤ m) → wf m (with_idle i s).
Proof. intros [] Hi. split; try done; intros k; apply Hi. Qed.

(** *** Local steps *)

Lemma local_close pl p : local pl p → local pl (close_ p).
Proof.
  intros [T O P Wr Ow]. split; try done.
  right. split; [done|]. cbn. destruct Wr as [<-|[_ Hp]]; [by apply prefix_app_r|done].
Qed.
Lemma local_flags pl b c e p : local pl p → (broken p = true → b = true) → local pl (set_flags b c e p).
Proof.
  intros [T O P Wr Ow] Hb. split; try done.
  destruct Wr as [Hw|[H1 H2]]; [by left|right; split; [by apply Hb|done]].
Qed.

(** The reader, or the reader of a body, at a point where it has nothing. *)
Definition calm_reader (r : rpc) : bool :=
  match r with RRead _ _ | RCheck _ | RPut _ | RDeliverBody _ _ => false | _ => true end.
Definition calm_body (b : bpc) : bool := match b with BOpen | BCheck | BPut => false | _ => true end.

Lemma owned_fewer pl p p' :
  tokens p' ≤ tokens p → outstanding p' = outstanding p → answering p' = answering p → handed p' = handed p →
  reqch p' = reqch p → p_key p' = p_key p → owned pl p → owned pl p'.
Proof.
  intros T O A Hh R K. destruct pl; cbn; unfold quiet; rewrite ?O, ?A, ?Hh, ?R, ?K; try done; intros; destruct_and?; repeat split; auto; lia.
Qed.

Lemma local_reader pl r p : local pl p → calm_reader r = true → local pl (set_reader r p).
Proof.
  intros [T O P Wr Ow] Hr. assert (Ht : tokens (set_reader r p) ≤ tokens p).
  { unfold tokens. destruct r; cbn in Hr |- *; try done; lia. }
  split; try done; [lia| |by eapply owned_fewer].
  intros Hp. apply P. revert Hp. unfold putting. cbn. destruct r; try done; by destruct (reader p), (body p).
Qed.
Lemma local_body pl b p : local pl p → calm_body b = true → local pl (set_body b p).
Proof.
  intros [T O P Wr Ow] Hr. assert (Ht : tokens (set_body b p) ≤ tokens p).
  { unfold tokens. destruct b; cbn in Hr |- *; try done; lia. }
  split; try done; [lia| |by eapply owned_fewer].
  intros Hp. apply P. revert Hp. unfold putting. cbn. destruct b; try done; by destruct (reader p), (body p).
Qed.

(** An owner other than the goroutines means they have nothing. *)
Lemma owned_calm pl p : owned pl p → pl = PReader ∨ tokens p = 0.
Proof. destruct pl; cbn; unfold quiet; tauto. Qed.

(** What is left when nothing is on its way. *)
Lemma quiet_intro p : owned PReader p → tokens p = 0 → outstanding p = 0 → quiet p.
Proof.
  cbn. intros Hh T O. repeat split; try done. unfold tokens in T. destruct (reqch p); cbn in *; [lia|]. by rewrite app_nil_r in Hh.
Qed.
Lemma quiet_elim p : quiet p → owned PReader p.
Proof.
  intros (T & _ & Hh). cbn. unfold tokens in T. destruct (reqch p); cbn in *; [lia|]. by rewrite app_nil_r.
Qed.
Lemma local_owned pl pl' p : local pl p → owned pl' p → local pl' p.
Proof. intros []. by split. Qed.

(** *** The pool's operations *)

Section ops.
Context (noKeep : bool) (maxPerHost : Z).
#[local] Abbreviation max := (max_idle maxPerHost).
#[local] Abbreviation inv := (inv max).

Lemma get_idle_insert k k' l s :
  get_idle k' (with_idle (<[k := l]> (idle s)) s) = if decide (k' = k) then l else get_idle k' s.
Proof. unfold get_idle. cbn. destruct (decide (k' = k)) as [->|N]; [by rewrite lookup_insert_eq|by rewrite lookup_insert_ne]. Qed.

Lemma held_put k c s pl x l :
  held (with_idle (<[k := l ++ [c]]> (idle s)) s) pl x → l = get_idle k s → x = c ∧ pl = PIdle k ∨ held s pl x.
Proof.
  intros Hx ->. destruct pl as [k'| | | | |]; try (by right). cbn [held] in Hx. rewrite get_idle_insert in Hx.
  destruct (decide _) as [->|]; [|by right]. apply elem_of_app in Hx as [Hx|Hx%list_elem_of_singleton]; [by right|by left].
Qed.

Lemma put_list_inv s own c p s' b :
  inv s own → conns s !! c = Some p → own c = PReader → quiet p → put_list maxPerHost c (p_key p) s = (s', b) →
  ∃ own', inv s' own'.
Proof.
  intros I Ep Eo Q. pose proof I as [W Hh Hc]. unfold put_list.
  destruct (decide (max ≤ length (get_idle (p_key p) s))) as [Hm|Hm].
  { rewrite bool_decide_true by done. intros [= <- <-]. exists own. apply inv_upd; [done|]. intros p' _. apply local_close. }
  rewrite bool_decide_false by done.
  assert (Hn : c ∉ get_idle (p_key p) s). { intros Hx. destruct (Hh (PIdle (p_key p)) c Hx). congruence. }
  rewrite bool_decide_false by done. intros [= <- <-]. exists (set_own c (PIdle (p_key p)) own).
  eapply inv_move; try done.
  - apply wf_idle; [done|]. intros k'.
    pose proof (get_idle_insert (p_key p) k' (get_idle (p_key p) s ++ [c]) s) as G. unfold get_idle in G at 1. cbn in G. rewrite G.
    destruct (decide _) as [->|]; [|split; [apply W..]]. split.
    + apply NoDup_app. split; [apply W|]. split; [|apply NoDup_singleton]. by intros x Hx ->%list_elem_of_singleton.
    + rewrite length_app. cbn. lia.
  - intros L. by eapply local_owned.
  - intros pl x Hx. destruct (held_put _ _ _ _ _ _ Hx eq_refl) as [[-> ->]|Hx']; [by left|].
    right. split; [|done]. intros ->. destruct (Hh _ _ Hx') as [E' _]. rewrite Eo in E'. by subst pl.
Qed.

Lemma putIdleConn_inv s own c p to s' b :
  inv s own → conns s !! c = Some p → own c = PReader → quiet p → putIdleConn noKeep maxPerHost c to s = Some (s', b) →
  ∃ own', inv s' own'.
Proof.
  intros I Ep Eo Q. unfold putIdleConn. rewrite Ep.
  destruct (noKeep || _).
  { destruct to; [done|]. intros [= <- <-]. exists own. apply inv_upd; [done|]. intros p' _. apply local_close. }
  destruct (broken p). { destruct to; [done|]. intros [= <- <-]. by exists own. }
  destruct (idleCh s !! p_key p) as [ch|] eqn:Ech.
  2: { destruct to; [done|]. intros [= E]. by eapply put_list_inv. }
  destruct to as [q|].
  - destruct (reqs s !! q) as [r|] eqn:Er; [|done]. cbn. destruct (waiting ch r) as [k'|] eqn:Ew; [|done].
    intros [= <- <-]. pose proof I as [W Hh Hc].
    assert (p_key p = k') as Ek.
    { destruct r as [| |k0 [ch'|]| | | | |]; try done. cbn in Ew. destruct (decide (ch' = ch)) as [->|]; [|done]. simplify_eq.
      destruct (w_wait _ _ W q _ _ ch Er eq_refl eq_refl) as [_ Hu]. by apply Hu. }
    exists (set_own c (PConn q k') own). eapply inv_move; try done.
    + by apply wf_set_req.
    + intros L. eapply local_owned; [done|]. by split.
    + intros pl x Hx. destruct (held_set_req _ _ _ _ _ Hx) as [[= <- <-]|[N Hx']]; [by left|].
      right. split; [|done]. intros ->. destruct (Hh _ _ Hx') as [E' _]. rewrite Eo in E'. by subst pl.
  - destruct (bool_decide _); [done|]. intros [= E].
    eapply (put_list_inv (with_idleCh (delete (p_key p) (idleCh s)) s)); try done.
    eapply inv_keep; try done. by eapply wf_del_chan, i_wf.
Qed.

(** What [getIdleConn] takes from the list: the last good one and all after it. *)
Lemma pop_idle_split cs rl : ∃ bad, rl = bad ++ option_list (pop_idle cs rl).1 ++ (pop_idle cs rl).2.
Proof.
  induction rl as [|c rl [bad IH]]; [by exists []|]. cbn. destruct (default true _).
  - exists (c :: bad). cbn. by f_equal.
  - by exists [].
Qed.

Lemma getIdleConn_split k s :
  let '(s', o) := getIdleConn k s in
  s' = with_idle (idle s') s ∧ (∀ k', k' ≠ k → get_idle k' s' = get_idle k' s) ∧
  ∃ bad, get_idle k s = get_idle k s' ++ option_list o ++ bad.
Proof.
  unfold getIdleConn. destruct (idle s !! k) as [l|] eqn:El.
  - destruct (pop_idle_split (conns s) (rev l)) as [bad E]. destruct (pop_idle (conns s) (rev l)) as [o rl]. cbn in E.
    assert (El' : l = rev rl ++ option_list o ++ rev bad).
    { rewrite <-(rev_involutive l), E, !rev_app_distr, <-app_assoc. by destruct o. }
    split; [done|]. split.
    + intros k' N. unfold get_idle. cbn. destruct rl; [by rewrite lookup_delete_ne|by rewrite lookup_insert_ne].
    + exists (rev bad). unfold get_idle at 1. rewrite El. cbn [default]. rewrite El' at 1. f_equal.
      unfold get_idle. cbn. destruct rl; [by rewrite lookup_delete_eq|by rewrite lookup_insert_eq].
  - split; [by destruct s|]. split; [done|]. exists []. by rewrite !app_nil_r.
Qed.

(** The connection it gives is in no other place, quiet, and of the key. *)
Lemma getIdleConn_inv k s own s' o :
  inv s own → getIdleConn k s = (s', o) →
  ∃ own', inv s' own' ∧ ∀ c, o = Some c → own' c = PReader ∧ ∃ p, conns s' !! c = Some p ∧ quiet p ∧ p_key p = k.
Proof.
  intros I E. pose proof I as [W Hh Hc]. pose proof (getIdleConn_split k s) as G. rewrite E in G. destruct G as (Es & Hne & bad & Hsp).
  assert (Hin : ∀ x k', x ∈ get_idle k' s' → x ∈ get_idle k' s).
  { intros x k' Hx. destruct (decide (k' = k)) as [->|N]; [rewrite Hsp; apply elem_of_app; by left|by rewrite <-Hne]. }
  assert (Hnd : NoDup (get_idle k s)) by apply W. rewrite Hsp in Hnd.
  set (own' := λ x, if decide (own x = PIdle k ∧ x ∉ get_idle k s') then PReader else own x). exists own'.
  assert (Hq : ∀ c p, own c = PIdle k → conns s !! c = Some p → quiet p ∧ p_key p = k).
  { intros c p Eo Ep. destruct (Hc _ _ Ep) as [_ L]. rewrite Eo in L. apply L. }
  split; [split|].
  - rewrite Es. apply wf_idle; [done|]. intros k'. change (default [] (idle s' !! k')) with (get_idle k' s').
    destruct (decide (k' = k)) as [->|N]; [|rewrite Hne by done; split; apply W]. split.
    + by apply NoDup_app in Hnd as [? _].
    + pose proof (w_bound _ _ W k) as B. rewrite Hsp, length_app in B. lia.
  - intros pl x Hx. assert (Hx' : held s pl x) by (rewrite Es in Hx; destruct pl; try exact Hx; apply Hin; rewrite Es; exact Hx).
    destruct (Hh _ _ Hx') as [E1 E2]. split; [|by rewrite Es]. unfold own'. destruct (decide _) as [[E3 N]|]; [|done].
    rewrite E1 in E3. rewrite E3 in Hx. destruct (N Hx).
  - intros c p Ep. rewrite Es in Ep. destruct (Hc _ _ Ep) as [L1 L2]. split; [by rewrite Es|]. unfold own'.
    destruct (decide _) as [[E1 _]|]; [|done]. eapply local_owned; [done|]. apply quiet_elim. by eapply Hq.
  - intros c ->. assert (Hc' : held s (PIdle k) c). { cbn. rewrite Hsp. apply elem_of_app. right. by left. }
    destruct (Hh _ _ Hc') as [Eo [p Ep]]. split.
    + unfold own'. rewrite decide_True; [done|]. split; [done|]. apply NoDup_app in Hnd as (_ & N & _). intros Hx.
      apply (N c Hx). by left.
    + exists p. split; [by rewrite Es|]. by apply Hq with c.
Qed.

(** A request with a new state: of no place, or of one it takes a connection to. *)
Lemma inv_set_req s own q r : inv s own → wf max (set_req q r s) → place_of q r = None → inv (set_req q r s) own.
Proof.
  intros I W Hp. eapply inv_keep; try done. intros pl x Hx. destruct (held_set_req _ _ _ _ _ Hx) as [|[_ ?]]; [congruence|done].
Qed.
Lemma inv_give s own q r c p pl f :
  inv s own → req_key r = None → conns s !! c = Some p → own c = PReader ∨ place_req (own c) = Some q →
  place_of q r = Some (pl, c) ∨ place_of q r = None → (local (own c) p → local pl (f p)) →
  inv (upd c f (set_req q r s)) (set_own c pl own).
Proof.
  intros I Hk Ep Eo Hp Hl. eapply inv_move_upd; try done; [apply wf_conns, wf_set_req; [apply I|done]|].
  intros pl' x Hx. change (held (set_req q r s) pl' x) in Hx.
  destruct (held_set_req _ _ _ _ _ Hx) as [E|[N Hx']]; [destruct Hp; [left; split; congruence|congruence]|].
  right. split; [|done]. intros ->. destruct (i_held _ _ _ I _ _ Hx') as [E _]. rewrite <-E in N, Hx'. destruct Eo as [Eo|Eo]; [|done].
  by rewrite Eo in Hx'.
Qed.
Lemma inv_take s own q k c p :
  inv s own → conns s !! c = Some p → own c = PReader → quiet p → p_key p = k →
  inv (set_req q (QConn k c) s) (set_own c (PConn q k) own).
Proof.
  intros I Ep Eo Q Ek. assert (Eu : upd c id (set_req q (QConn k c) s) = set_req q (QConn k c) s).
  { unfold upd, with_conns. by rewrite alter_id. }
  rewrite <-Eu. eapply inv_give; eauto. intros L. by eapply local_owned.
Qed.

(** A dial that ends gives up its connection. *)
Lemma take_dial s own q k c :
  inv s own → dials s !! q = Some (DReady k c) →
  ∃ p own', conns s !! c = Some p ∧ quiet p ∧ p_key p = k ∧ own' c = PReader ∧ inv (with_dials (delete q (dials s)) s) own'.
Proof.
  intros I Ed. destruct (i_held _ _ _ I (PDial q k) c Ed) as [Eo [p Ep]]. destruct (i_conn _ _ _ I _ _ Ep) as [_ L].
  rewrite Eo in L. destruct (l_owned _ _ L) as [Q Ek]. exists p, (set_own c PReader own). rewrite set_own_eq.
  repeat (split; [done|]). eapply inv_move; try done; [by apply wf_del_dial, I| |].
  - intros _. eapply local_owned; [done|]. by apply quiet_elim.
  - intros pl x Hx. right. assert (Hx' : held s pl x ∧ pl ≠ PDial q k).
    { destruct pl; try done. cbn in Hx. apply lookup_delete_Some in Hx as [N Hx]. split; [done|congruence]. }
    destruct Hx' as [Hx' N]. split; [|done]. intros ->. destruct (i_held _ _ _ I _ _ Hx') as [E _]. congruence.
Qed.

(** *** The steps of requests *)

Lemma local_push_write pl q p : local (PWrite q) p → pl = PSend q → local pl (push_write q p).
Proof.
  intros [T O P Wr (Q1 & Q2 & Q3)] ->. assert (Ew : writech p = None). { unfold outstanding in Q2. destruct (writech p); cbn in *; [lia|done]. }
  split; try done.
  - unfold outstanding in *. rewrite Ew in Q2. cbn in *. lia.
  - intros Hp. unfold tokens in Q1. unfold putting in Hp. cbn in Hp. destruct (reader p), (body p); cbn in *; try done; lia.
  - cbn. rewrite Ew in Wr. cbn in Wr. rewrite app_nil_r in Wr. destruct Wr as [->|[Hb Hp]]; [by left|right].
    split; [done|]. by apply prefix_app_r.
  - cbn. split; [exact Q1|]. by rewrite Q3.
Qed.
Lemma local_push_req q p : local (PSend q) p → local PReader (push_req q p).
Proof.
  intros [T O P Wr [Q1 Q2]]. split; try done.
  unfold tokens in *. cbn in *. destruct (reqch p); cbn in *; lia.
Qed.

Lemma inv_finish s own q c ok : inv s own → inv (finish_req q c ok s) own.
Proof.
  intros I. apply inv_upd; [apply inv_set_req; [done| |done]; apply wf_set_req; [apply I|done]|].
  intros p _ L. by apply local_flags.
Qed.
Lemma inv_closes s own l : inv s own → inv (with_conns (λ cs, foldr (alter close_) cs l) s) own.
Proof.
  intros I. induction l as [|c l IH].
  - eapply inv_keep; try done. by apply wf_conns, I.
  - apply (inv_upd _ _ _ c close_) in IH; [exact IH|]. intros p _. apply local_close.
Qed.

Lemma start_inv s own q k :
  inv s own → reqs s !! q = None →
  inv (set_req q (QGet k) (with_cancel (<[q := false]> (cancelc s)) (panicked s) (with_dials (<[q := DDialing k]> (dials s)) s))) own.
Proof.
  intros I Eq. pose proof (i_wf _ _ _ I) as W. eapply inv_keep; try done.
  - destruct W. split; try done; cbn.
    + intros q' r k' ch [[-> <-]|[N Hx]]%lookup_insert_Some; [done|eauto].
    + intros q' r d k1 k2 [[-> <-]|[N Hx]]%lookup_insert_Some; [rewrite lookup_insert_eq|rewrite lookup_insert_ne by done; eauto].
      intros. by simplify_eq/=.
  - intros pl x Hx. destruct (held_set_req _ _ _ _ _ Hx) as [|[_ Hx']]; [done|]. destruct pl; try done.
    cbn in Hx'. by apply lookup_insert_Some in Hx' as [[_ ?]|[_ ?]].
Qed.

Lemma getch_inv s own q k :
  inv s own → reqs s !! q = Some (QGet k) → idleCh s !! k = None →
  inv (set_req q (QChan k (Some (next s))) (with_next (S (next s)) (with_idleCh (<[k := next s]> (idleCh s)) s))) own.
Proof.
  intros I Eq Ek. pose proof (i_wf _ _ _ I) as W. eapply inv_keep; try done; [|cbn; lia|].
  - destruct W. split; try done; cbn.
    + intros k' ch [[-> <-]|[N Hx]]%lookup_insert_Some; [lia|]. specialize (w_chan0 _ _ Hx). lia.
    + intros k1 k2 ch [[-> <-]|[N1 H1]]%lookup_insert_Some [[-> E2]|[N2 H2]]%lookup_insert_Some; eauto.
      * specialize (w_chan0 _ _ H2). lia.
      * specialize (w_chan0 _ _ H1). lia.
    + intros q' r k' ch [[-> <-]|[N Hx]]%lookup_insert_Some Hk Hc.
      * cbn in *. simplify_eq. split; [lia|]. intros k1 [[-> _]|[N H1]]%lookup_insert_Some; [done|].
        specialize (w_chan0 _ _ H1). lia.
      * destruct (w_wait0 _ _ _ _ Hx Hk Hc) as [L Hu]. split; [lia|].
        intros k1 [[-> E]|[N1 H1]]%lookup_insert_Some; [lia|auto].
    + intros q' r d k1 k2 [[-> <-]|[N Hx]]%lookup_insert_Some; [|eauto]. cbn. intros [= <-]. by eapply w_dial0.
  - intros pl x Hx. destruct (held_set_req _ _ _ _ _ Hx) as [|[_ Hx']]; [done|]. by destruct pl.
Qed.

Lemma dialed_inv s own q k :
  inv s own → dials s !! q = Some (DDialing k) →
  inv (with_dials (<[q := DReady k (next s)]> (dials s)) (with_next (S (next s)) (with_conns (<[next s := new_pconn k]>) s)))
    (set_own (next s) (PDial q k) own).
Proof.
  intros I Eq. pose proof I as [W Hh Hc]. assert (Hf : ∀ pl x, held s pl x → x ≠ next s).
  { intros pl x Hx ->. destruct (Hh _ _ Hx) as [_ [p Ep]]. destruct (Hc _ _ Ep). lia. }
  split.
  - destruct W. split; try done; cbn.
    + intros k' ch Hx. specialize (w_chan0 _ _ Hx). lia.
    + intros q' r k' ch Hr Hk Hch. destruct (w_wait0 _ _ _ _ Hr Hk Hch). split; [lia|done].
    + intros q' r d k1 k2 Hr Hk [[-> <-]|[N Hx]]%lookup_insert_Some; [|eauto]. cbn. intros [= <-]. by eapply w_dial0.
  - intros pl x Hx. cbn. assert (x = next s ∧ pl = PDial q k ∨ held s pl x) as [[-> ->]|Hx'].
    { destruct pl; try (by right). cbn in Hx. apply lookup_insert_Some in Hx as [[-> [= -> ->]]|[N Hx]]; [by left|by right]. }
    + by rewrite set_own_eq, lookup_insert_eq.
    + pose proof (Hf _ _ Hx'). rewrite set_own_ne, lookup_insert_ne by done. by apply Hh.
  - intros x p. cbn. intros [[<- <-]|[N Hx]]%lookup_insert_Some.
    + rewrite set_own_eq. split; [lia|]. split; cbn; try lia; try done. by left.
    + rewrite set_own_ne by done. destruct (Hc _ _ Hx). split; [lia|done].
Qed.

Lemma close_idle_inv s own : inv s own → ∃ own', inv (with_idleCh ∅ (with_idle ∅ s)) own'.
Proof.
  intros [W Hh Hc]. exists (λ c, match own c with PIdle _ => PReader | pl => pl end). split.
  - destruct W. split; try done.
    + intros k. apply NoDup_nil_2.
    + intros k. apply Nat.le_0_l.
    + intros q r k ch Hr Hk Hch. destruct (w_wait0 _ _ _ _ Hr Hk Hch). by split.
  - intros pl x Hx. assert (Hx' : held s pl x ∧ ∀ k, pl ≠ PIdle k).
    { destruct pl; try done. cbn in Hx. by apply not_elem_of_nil in Hx. }
    destruct Hx' as [Hx' N]. destruct (Hh _ _ Hx') as [-> ?]. split; [|done]. destruct pl; try done. by destruct (N k).
  - intros c p Ep. destruct (Hc _ _ Ep) as [L1 L2]. split; [done|]. destruct (own c) eqn:E; try done.
    eapply local_owned; [done|]. apply quiet_elim. apply L2.
Qed.

(** *** Every step *)

Lemma start_step s own q k s' : inv s own → step_get noKeep maxPerHost (LStart q k) s = Some s' → ∃ own', inv s' own'.
Proof.
  intros I. cbn [step_get]. destruct (reqs s !! q) eqn:Eq; [done|]. destruct (getIdleConn k s) as [s1 o] eqn:Eg.
  destruct (getIdleConn_inv _ _ _ _ _ I Eg) as (own1 & I1 & Ho). destruct o as [c|]; intros [= <-].
  - destruct (Ho c eq_refl) as (Eo & p & Ep & Q & Ek). exists (set_own c (PConn q k) own1). by eapply inv_take.
  - exists own1. apply start_inv; [done|]. pose proof (getIdleConn_split k s) as G. rewrite Eg in G. by destruct G as [-> _].
Qed.

Lemma getch_step s own q s' : inv s own → step_get noKeep maxPerHost (LGetCh q) s = Some s' → inv s' own.
Proof.
  intros I. pose proof (i_wf _ _ _ I) as W. cbn [step_get]. destruct (reqs s !! q) as [[k| | | | | | |]|] eqn:Eq; try done.
  destruct noKeep.
  { intros [= <-]. apply inv_set_req; [done| |done]. by eapply wf_wait. }
  destruct (idleCh s !! k) as [ch|] eqn:Ek; intros [= <-]; [|by apply getch_inv].
  apply inv_set_req; [done| |done]. eapply wf_wait; try done. intros ? [= <-]. split; [by eapply w_chan|].
  intros k' Ek'. by eapply w_inj.
Qed.

Lemma dial_step s own q ok s' : inv s own → step_get noKeep maxPerHost (LDial q ok) s = Some s' → ∃ own', inv s' own'.
Proof.
  intros I. pose proof (i_wf _ _ _ I) as W. cbn [step_get]. destruct (dials s !! q) as [[k|k c|]|] eqn:Eq; try done.
  destruct ok; intros [= <-]; [eexists; by apply dialed_inv|]. exists own. eapply inv_keep; try done.
  - destruct W. split; try done. cbn. intros q' r d k1 k2 Hr Hk [[-> <-]|[N Hx]]%lookup_insert_Some; [done|eauto].
  - intros pl x Hx. destruct pl; try done. cbn in Hx. by apply lookup_insert_Some in Hx as [[_ ?]|[_ ?]].
Qed.

Lemma drop_dial s own q : inv s own → inv (with_dials (delete q (dials s)) s) own.
Proof.
  intros I. eapply inv_keep; try done; [by apply wf_del_dial, I|].
  intros pl x Hx. destruct pl; try done. cbn in Hx. by apply lookup_delete_Some in Hx as [_ ?].
Qed.
Lemma cancel_inv s own m p : inv s own → inv (with_cancel m p s) own.
Proof. intros I. eapply inv_keep; try done. by apply wf_cancel, I. Qed.
Lemma end_req s own q ok : inv s own → inv (set_req q (QDone ok) s) own.
Proof. intros I. apply inv_set_req; [done| |done]. apply wf_set_req; [apply I|done]. Qed.

Lemma dialed_step s own q s' : inv s own → step_get noKeep maxPerHost (LDialed q) s = Some s' → ∃ own', inv s' own'.
Proof.
  intros I. cbn [step_get]. destruct (reqs s !! q) as [[| |k ch| | | | |]|] eqn:Eq; try done.
  destruct (dials s !! q) as [[|k' c|]|] eqn:Ed; try done; intros [= <-].
  - destruct (take_dial _ _ _ _ _ I Ed) as (p & own1 & Ep & Q & Ek & Eo & I1).
    exists (set_own c (PConn q k) own1). eapply inv_take; try done. rewrite Ek. symmetry. by eapply (w_dial _ _ (i_wf _ _ _ I)).
  - exists own. by apply end_req, cancel_inv, drop_dial.
Qed.

Lemma pending_step s own q to s' : inv s own → step_get noKeep maxPerHost (LPendingDial q to) s = Some s' → ∃ own', inv s' own'.
Proof.
  intros I. cbn [step_get]. assert (Hp : ∀ d, dials s !! q = Some d →
    match d with
    | DReady _ c => fst <$> putIdleConn noKeep maxPerHost c to (with_dials (delete q (dials s)) s)
    | DFailed => Some (with_dials (delete q (dials s)) s)
    | DDialing _ => None
    end = Some s' → ∃ own', inv s' own').
  { intros [k|k c|] Ed; [done| |intros [= <-]; exists own; by apply drop_dial].
    destruct (take_dial _ _ _ _ _ I Ed) as (p & own1 & Ep & Q & Ek & Eo & I1). intros E.
    apply fmap_Some in E as ([s1 b] & E & ->). by eapply putIdleConn_inv. }
  destruct (reqs s !! q) as [[]|]; try done; destruct (dials s !! q) as [d|]; try done; intros E; apply (Hp d); try done; by destruct d.
Qed.

(** A request that uses its connection. *)
Lemma use_step s own q r c pl0 pl f :
  inv s own → held s pl0 c → place_req pl0 = Some q → req_key r = None →
  place_of q r = Some (pl, c) ∨ place_of q r = None → (∀ p, local pl0 p → local pl (f p)) →
  ∃ own', inv (upd c f (set_req q r s)) own'.
Proof.
  intros I Hh Hq Hk Hp Hl. destruct (i_held _ _ _ I _ _ Hh) as [Eo [p Ep]]. exists (set_own c pl own).
  eapply inv_give; try done; rewrite Eo; auto.
Qed.

Lemma step_get_inv s own l s' : inv s own → step_get noKeep maxPerHost l s = Some s' → ∃ own', inv s' own'.
Proof.
  intros I. pose proof (i_wf _ _ _ I) as W.
  destruct l; [by eapply start_step|by exists own; eapply getch_step| |by eapply dial_step|by eapply dialed_step|by eapply pending_step|..];
    cbn [step_get]; try done.
  - destruct (reqs s !! q) as [[|k ch| | | | | |]|] eqn:Eq; try done. intros [= <-]. exists own.
    apply inv_set_req; [done| |done]. eapply wf_wait; try done. intros ch' E. by eapply (w_wait _ _ W q).
  - destruct (reqs s !! q) as [[]|]; try done. destruct (cancelc s !! q) as [[]|]; try done. intros [= <-]. exists own.
    by apply end_req, cancel_inv.
Qed.

Lemma step_use_inv s own l s' : inv s own → step_use l s = Some s' → ∃ own', inv s' own'.
Proof.
  intros I. destruct l; cbn [step_use]; try done.
  - destruct (reqs s !! q) as [[| | |k c| | | |]|] eqn:Eq; try done. intros [= <-].
    eapply (use_step _ _ _ _ _ (PConn q k) (PWrite q)); [eapply cancel_inv; exact I|done..|by left|].
    intros p L. apply local_flags; [|done]. eapply local_owned; [done|]. apply L.
  - destruct (reqs s !! q) as [[| | | |c| | |]|] eqn:Eq; try done. destruct (decide _); [|done]. intros [= <-].
    eapply (use_step _ _ _ _ _ (PWrite q) (PSend q)); try done; [by left|]. intros p L. by apply local_push_write.
  - destruct (reqs s !! q) as [[| | | | |c| |]|] eqn:Eq; try done. destruct (decide _); [|done]. intros [= <-].
    eapply (use_step _ _ _ _ _ (PSend q) PReader); try done; [by right|]. intros p. apply local_push_req.
  - destruct (reqs s !! q) as [[]|]; try done. destruct (resc s !! q); [|done]. intros [= <-]. exists own. by apply inv_finish.
  - destruct (reqs s !! q) as [[]|]; try done. destruct (wrote s !! q) as [[]|]; try done. intros [= <-]. exists own.
    apply inv_finish, inv_upd; [done|]. intros p _. apply local_close.
  - destruct (reqs s !! q) as [[]|]; try done. destruct (wrote s !! q) as [[]|]; try done. intros [= <-]. exists own.
    apply inv_finish, inv_upd; [done|]. intros p _. apply local_close.
  - destruct (reqs s !! q) as [[]|]; try done. destruct (default _ _); [|done]. intros [= <-]. exists own. by apply inv_finish.
Qed.

Lemma step_req_inv s own l s' : inv s own → step_req noKeep maxPerHost l s = Some s' → ∃ own', inv s' own'.
Proof.
  intros I. assert (Hgu : match step_get noKeep maxPerHost l s with Some s1 => Some s1 | None => step_use l s end = Some s' → ∃ own', inv s' own').
  { destruct (step_get _ _ l s) eqn:E; [intros [= <-]; by eapply step_get_inv|by eapply step_use_inv]. }
  destruct l; try exact Hgu; cbn [step_req]; intros [= <-].
  - exists own. unfold CancelRequest. destruct (cancelc s !! q) as [[]|]; auto using cancel_inv.
  - apply (close_idle_inv (with_conns (λ cs, foldr (alter close_) cs (concat (map_to_list (idle s)).*2)) s) own).
    by apply inv_closes.
Qed.

(** The writer's steps and those on its buffers. *)
Lemma local_writer pl p p' :
  local pl p → tokens p' = tokens p → outstanding p' ≤ outstanding p → putting p' = putting p →
  answering p' = answering p → handed p' = handed p → reqch p' = reqch p → p_key p' = p_key p →
  (writing p' ++ option_list (writech p') = handed p ∨ broken p' = true ∧ writing p' `prefix_of` handed p) → local pl p'.
Proof.
  intros [T O P Wr Ow] Et Eo Epu Ea Eh Er Ek Hw. split; rewrite ?Et, ?Epu, ?Eh; try done; [lia|intros Hp; specialize (P Hp); lia|].
  destruct pl; cbn in *; unfold quiet in *; rewrite ?Et, ?Ea, ?Eh, ?Er, ?Ek; try done; destruct_and?; repeat split; auto; lia.
Qed.

(** A goroutine that has the right to use its connection keeps it. *)
Lemma local_busy pl p p' :
  local pl p → tokens p ≠ 0 → tokens p' = tokens p → outstanding p' ≤ outstanding p →
  (putting p' = true → outstanding p' = 0) →
  handed p' = handed p → writing p' = writing p → writech p' = writech p → broken p' = broken p →
  answering p' ++ option_list (reqch p') = answering p ++ option_list (reqch p) → local pl p'.
Proof.
  intros [T O P Wr Ow] N Et Eo Hp Eh Ew Ec Eb Ea. destruct (owned_calm _ _ Ow) as [->|?]; [|done].
  split; rewrite ?Et, ?Eh, ?Ew, ?Ec, ?Eb; try done; [lia|]. cbn in *. congruence.
Qed.

Lemma step_writer_inv s own l s' : inv s own → step_writer l s = Some s' → inv s' own.
Proof.
  intros I. destruct l; cbn [step_writer]; try done; destruct (conns s !! c) as [p|] eqn:Ep; try done; cbn [mbind option_bind];
    pose proof (proj2 (i_conn _ _ _ I _ _ Ep)) as Lp.
  - destruct (writer p) eqn:Ew; try done. destruct (writech p) as [q|] eqn:Eq; try done. destruct (broken p) eqn:Eb; intros [= <-].
    + assert (I1 : inv (upd c drop_write s) own).
      { apply inv_upd; [done|]. intros p' ? _. simplify_eq. apply (local_writer _ p); try done.
        - unfold outstanding. cbn. lia.
        - right. split; [done|]. destruct (l_writing _ _ Lp) as [<-|[_ ?]]; [by apply prefix_app_r|done]. }
      eapply inv_keep; try done. by apply wf_wrote, I1.
    + apply inv_upd; [done|]. intros p' ? _. simplify_eq. apply (local_writer _ p); try done.
      * unfold outstanding. cbn. rewrite Ew, Eq. cbn. lia.
      * left. cbn. destruct (l_writing _ _ Lp) as [<-|[? _]]; [|congruence]. by rewrite Eq, app_nil_r.
  - destruct (writer p) eqn:Ew; try done. intros [= <-]. apply inv_upd; [done|]. intros p' ? _. simplify_eq.
    apply (local_writer _ p); try done; try by destruct ok.
    + unfold outstanding. rewrite Ew. by destruct ok.
    + destruct (l_writing _ _ Lp) as [<-|[Hb Hp]]; destruct ok; try (by left); right; (split; [done|done || by apply prefix_app_r]).
  - destruct (writer p) eqn:Ew; try done. destruct (writeErrCh p) eqn:Ee; try done. intros [= <-].
    apply inv_upd; [done|]. intros p' ? _. simplify_eq. apply (local_writer _ p); try done; [|apply Lp].
    unfold outstanding. cbn. rewrite Ew, Ee. cbn. lia.
  - destruct (writer p) eqn:Ew; try done. intros [= <-].
    assert (I1 : inv (upd c (set_writer WIdle) s) own).
    { apply inv_upd; [done|]. intros p' ? _. simplify_eq. apply (local_writer _ p); try done; [|apply Lp].
      unfold outstanding. cbn. rewrite Ew. cbn. lia. }
    eapply inv_keep; try done. by apply wf_wrote, I1.
  - destruct (writer p) eqn:Ew; try done. destruct (closed p); try done. intros [= <-].
    apply inv_upd; [done|]. intros p' ? _. simplify_eq. apply (local_writer _ p); try done; [|apply Lp].
    unfold outstanding. cbn. rewrite Ew. cbn. lia.
Qed.

(** *** The reader's steps *)

Lemma tokens_reader p : tokens p ≤ 1 → calm_reader (reader p) = false → reqch p = None ∧ calm_body (body p) = true.
Proof. unfold tokens. destruct (reqch p), (reader p), (body p); cbn; intros; try done; lia. Qed.
Lemma tokens_body p : tokens p ≤ 1 → calm_body (body p) = false → reqch p = None ∧ calm_reader (reader p) = true.
Proof. unfold tokens. destruct (reqch p), (reader p), (body p); cbn; intros; try done; lia. Qed.
Lemma tokens_busy p : calm_reader (reader p) = false ∨ calm_body (body p) = false → tokens p ≠ 0.
Proof. unfold tokens. intros [E|E]; [destruct (reader p)|destruct (body p)]; cbn in *; try done; lia. Qed.
Lemma tokens_same p p' :
  reqch p' = reqch p → calm_reader (reader p') = calm_reader (reader p) → calm_body (body p') = calm_body (body p) → tokens p' = tokens p.
Proof. unfold tokens. intros -> E1 E2. f_equal; [f_equal|]; [destruct (reader p), (reader p')|destruct (body p), (body p')]; done. Qed.

(** [wroteRequest] succeeds when nothing written is left unanswered. *)
Lemma wroteRequest_spec late p p' ok :
  wroteRequest late p = Some (p', ok) → p' = set_writeErr None p ∨ p' = p ∧ ok = false ∧ writeErrCh p = None.
Proof. unfold wroteRequest. destruct (writeErrCh p); [intros [= <- <-]; by left|]. destruct late; intros [= <- <-]; by right. Qed.
Lemma local_writeErr pl p : local pl p → local pl (set_writeErr None p).
Proof. intros L. eapply local_writer; try done; [|apply L]. unfold outstanding. cbn. lia. Qed.
Lemma wroteRequest_local late pl p p' ok : local pl p → wroteRequest late p = Some (p', ok) → local pl p'.
Proof. intros L [->|(-> & _)]%wroteRequest_spec; [by apply local_writeErr|done]. Qed.
Lemma wroteRequest_done late pl p p' : local pl p → wroteRequest late p = Some (p', true) → p' = set_writeErr None p ∧ outstanding p' = 0.
Proof.
  intros L. unfold wroteRequest. destruct (writeErrCh p) eqn:E; [|by destruct late].
  intros [= <- ->]. split; [done|]. pose proof (l_out _ _ L) as O. unfold outstanding in *. rewrite E in O. cbn in *. lia.
Qed.

(** A connection put back by its own reader. *)
Lemma put_step s own c p p1 to s1 b :
  inv s own → conns s !! c = Some p → tokens p ≠ 0 → local (own c) p1 → tokens p1 = 0 → outstanding p1 = 0 →
  putIdleConn noKeep maxPerHost c to (upd c (λ _, p1) s) = Some (s1, b) → ∃ own', inv s1 own'.
Proof.
  intros I Ep T L1 T1 O1 E. destruct (i_conn _ _ _ I _ _ Ep) as [_ L]. destruct (owned_calm _ _ (l_owned _ _ L)) as [Eo|]; [|done].
  assert (I1 : inv (upd c (λ _, p1) s) own) by (apply inv_upd; [done|]; intros; done).
  eapply (putIdleConn_inv _ own c p1); try done.
  - cbn. by rewrite lookup_alter_eq, Ep.
  - rewrite Eo in L1. apply quiet_intro; try done. apply L1.
Qed.

Lemma upd_const c p f s : conns s !! c = Some p → upd c f s = upd c (λ _, f p) s.
Proof.
  intros E. unfold upd, with_conns. f_equal. apply map_eq. intros x. destruct (decide (x = c)) as [->|N].
  - by rewrite !lookup_alter_eq, E.
  - by rewrite !lookup_alter_ne.
Qed.

Lemma upd_reader s own c r : inv s own → calm_reader r = true → inv (upd c (set_reader r) s) own.
Proof. intros I Hr. apply inv_upd; [done|]. intros p _ L. by apply local_reader. Qed.
Lemma upd_body s own c b : inv s own → calm_body b = true → inv (upd c (set_body b) s) own.
Proof. intros I Hr. apply inv_upd; [done|]. intros p _ L. by apply local_body. Qed.

Lemma put_reader_step s own c to s' : inv s own → step_reader noKeep maxPerHost (LPut c to) s = Some s' → ∃ own', inv s' own'.
Proof.
  intros I. cbn [step_reader]. destruct (conns s !! c) as [p|] eqn:Ep; [|done]. cbn. destruct (reader p) as [| | | |q| | | |] eqn:Er; try done.
  pose proof (proj2 (i_conn _ _ _ I _ _ Ep)) as L. rewrite (upd_const _ _ _ _ Ep).
  destruct (putIdleConn _ _ _ _ _) as [[s1 b]|] eqn:E; [|done]. intros [= <-].
  destruct (tokens_reader p) as [E1 E2]; [apply L|by rewrite Er|].
  eapply put_step in E as [own1 I1]; try done.
  - exists own1. by apply upd_reader.
  - apply tokens_busy. left. by rewrite Er.
  - by apply local_reader.
  - unfold tokens. cbn. rewrite E1. by destruct (body p).
  - apply (l_put _ _ L). unfold putting. by rewrite Er.
Qed.
Lemma put_body_step s own c to s' : inv s own → step_reader noKeep maxPerHost (LBPut c to) s = Some s' → ∃ own', inv s' own'.
Proof.
  intros I. cbn [step_reader]. destruct (conns s !! c) as [p|] eqn:Ep; [|done]. cbn. destruct (body p) eqn:Er; try done.
  pose proof (proj2 (i_conn _ _ _ I _ _ Ep)) as L. rewrite (upd_const _ _ _ _ Ep).
  destruct (putIdleConn _ _ _ _ _) as [[s1 b]|] eqn:E; [|done]. intros [= <-].
  destruct (tokens_body p) as [E1 E2]; [apply L|by rewrite Er|].
  eapply put_step in E as [own1 I1]; try done.
  - exists own1. by apply upd_body.
  - apply tokens_busy. right. by rewrite Er.
  - by apply local_body.
  - unfold tokens. cbn. rewrite E1. by destruct (reader p).
  - apply (l_put _ _ L). unfold putting. rewrite Er. by destruct (reader p).
Qed.

Lemma upd_local s own c p f :
  inv s own → conns s !! c = Some p → (local (own c) p → local (own c) (f p)) → inv (upd c f s) own.
Proof. intros I E Hf. apply inv_upd; [done|]. intros p' ?. by simplify_eq. Qed.
Lemma resc_inv s own q ok : inv s own → inv (with_resc q ok s) own.
Proof. intros I. eapply inv_keep; try done. by apply wf_resc, I. Qed.

(** A reader that still has the right to use the connection goes on with it. *)
Lemma local_reader_busy pl r p :
  local pl p → calm_reader (reader p) = false → calm_reader r = false → (∀ q, r = RPut q → outstanding p = 0) → local pl (set_reader r p).
Proof.
  intros L E Er Hp. apply (local_busy _ p); try done.
  - apply tokens_busy. by left.
  - apply tokens_same; [done|cbn; congruence|done].
  - destruct (tokens_reader _ (l_tokens _ _ L) E) as [_ Eb]. unfold putting. cbn. intros H.
    change (outstanding (set_reader r p)) with (outstanding p). destruct r; try done; [by destruct (body p)..|by eapply Hp|by destruct (body p)].
Qed.
Lemma local_body_busy pl b p :
  local pl p → calm_body (body p) = false → calm_body b = false → (b = BPut → outstanding p = 0) → local pl (set_body b p).
Proof.
  intros L E Er Hp. apply (local_busy _ p); try done.
  - apply tokens_busy. by right.
  - apply tokens_same; [done|done|cbn; congruence].
  - destruct (tokens_body _ (l_tokens _ _ L) E) as [_ Eb]. unfold putting. cbn. intros H.
    change (outstanding (set_body b p)) with (outstanding p). destruct b; try done; [by destruct (reader p)..|by apply Hp].
Qed.

Lemma take_req_local pl q ok p : local pl p → reader p = RTake ok → reqch p = Some q → local pl (take_req q ok p).
Proof.
  intros L Er Eq. assert (T : tokens (take_req q ok p) = tokens p) by (unfold tokens; cbn; by rewrite Er, Eq).
  apply (local_busy _ p); try done.
  - unfold tokens. rewrite Eq. cbn. lia.
  - intros Hp. apply (l_put _ _ L). revert Hp. unfold putting. cbn. rewrite Er. by destruct (body p).
  - cbn. by rewrite Eq, app_nil_r.
Qed.

Lemma deliver_body_local pl q alive p : local pl p → reader p = RDeliverBody q alive → local pl (set_body BOpen (set_reader (RBody q alive) p)).
Proof.
  intros L Er. destruct (tokens_reader _ (l_tokens _ _ L)) as [E1 E2]; [by rewrite Er|]. apply (local_busy _ p); try done.
  - apply tokens_busy. left. by rewrite Er.
  - unfold tokens. cbn. rewrite Er. destruct (body p); cbn in *; try done; lia.
Qed.

(** The verdict on a connection, of the reader and of a body. *)
Lemma check_step s own c sawEOF late s' : inv s own → step_reader noKeep maxPerHost (LCheck c sawEOF late) s = Some s' → inv s' own.
Proof.
  intros I. cbn [step_reader]. destruct (conns s !! c) as [p|] eqn:Ep; [|done]. cbn. destruct (reader p) eqn:Er; try done.
  destruct sawEOF; [intros [= <-]; by apply upd_reader|]. destruct (wroteRequest late p) as [[p' ok]|] eqn:Ew; [|done]. cbn. intros [= <-].
  eapply upd_local; [done..|]. intros L. pose proof (wroteRequest_local _ _ _ _ _ L Ew) as L'. destruct ok; [|by apply local_reader].
  destruct (wroteRequest_done _ _ _ _ L Ew) as [-> O]. apply local_reader_busy; try done. cbn. by rewrite Er.
Qed.
Lemma body_check_step s own c sawEOF late s' : inv s own → step_reader noKeep maxPerHost (LBCheck c sawEOF late) s = Some s' → inv s' own.
Proof.
  intros I. cbn [step_reader]. destruct (conns s !! c) as [p|] eqn:Ep; [|done]. cbn. destruct (body p) eqn:Er; try done.
  destruct sawEOF; [intros [= <-]; by apply upd_body|]. destruct (wroteRequest late p) as [[p' ok]|] eqn:Ew; [|done]. cbn. intros [= <-].
  eapply upd_local; [done..|]. intros L. pose proof (wroteRequest_local _ _ _ _ _ L Ew) as L'. destruct ok; [|by apply local_body].
  destruct (wroteRequest_done _ _ _ _ L Ew) as [-> O]. apply local_body_busy; try done. cbn. by rewrite Er.
Qed.

Lemma step_reader_inv s own l s' : inv s own → step_reader noKeep maxPerHost l s = Some s' → ∃ own', inv s' own'.
Proof.
  intros I. destruct l; try done;
    [| | |intros; exists own; by eapply check_step|by eapply put_reader_step| | | |intros; exists own; by eapply body_check_step|by eapply put_body_step| |];
    cbn [step_reader]; destruct (conns s !! c) as [p|] eqn:Ep; try done; cbn [mbind option_bind]; intros E; exists own; revert E.
  - destruct (reader p); try done. intros [= <-]. eapply upd_local; [done..|]. intros L. destruct (decide _); apply local_reader; auto using local_close.
  - destruct (reader p) eqn:Er; try done. destruct (reqch p) eqn:Eq; try done. intros [= <-]. eapply upd_local; [done..|].
    intros L. by apply take_req_local.
  - destruct (reader p) eqn:Er; try done. assert (Hr : calm_reader (reader p) = false) by by rewrite Er.
    destruct (if ok then resp else None) as [[[] []]|]; intros [= <-]; eapply upd_local; try done; intros L;
      first [by apply local_reader|by apply local_reader_busy|apply local_reader; auto using local_close].
  - destruct (reader p); try done. intros [= <-]. eapply upd_local; [by apply resc_inv|done|]. intros L.
    destruct alive; apply local_reader; auto using local_close.
  - destruct (reader p) eqn:Er; try done. intros [= <-]. eapply upd_local; [by apply resc_inv|done|]. intros L. by apply deliver_body_local.
  - destruct (body p) eqn:Eb; try done. intros [= <-]. eapply upd_local; [done..|]. intros L. destruct (eof && _); [|by apply local_body].
    apply local_body_busy; try done. by rewrite Eb.
  - destruct (reader p); try done. destruct (body p); try done. intros [= <-]. eapply upd_local; [done..|]. intros L.
    destruct b; apply local_reader; auto using local_close, local_body.
  - destruct (reader p); try done. destruct (closed p); try done. intros [= <-]. eapply upd_local; [done..|]. intros L.
    apply local_reader; auto using local_close.
Qed.

Lemma transport_step_inv s own l s' : inv s own → step noKeep maxPerHost l s = Some s' → ∃ own', inv s' own'.
Proof.
  intros I. unfold step. destruct (panicked s || fatal s); [done|]. destruct (step_req _ _ l s) eqn:E; [intros [= <-]; by eapply step_req_inv|].
  destruct (step_writer l s) eqn:E'; [intros [= <-]; exists own; by eapply step_writer_inv|by eapply step_reader_inv].
Qed.

Lemma init_inv : inv init (λ _, PReader).
Proof.
  split; [split|..]; try done.
  - intros k. apply NoDup_nil_2.
  - intros k. apply Nat.le_0_l.
  - intros pl c Hx. destruct pl; try done. by apply not_elem_of_nil in Hx.
Qed.

Lemma transport_run_inv ls s own s' : inv s own → run noKeep maxPerHost ls s = Some s' → ∃ own', inv s' own'.
Proof.
  revert s own. induction ls as [|l ls IH]; intros s own I; cbn; [intros [= <-]; by exists own|].
  destruct (step _ _ l s) as [s1|] eqn:E; [|done]. cbn. destruct (transport_step_inv _ _ _ _ I E) as [own1 I1]. by eapply IH.
Qed.
End ops.
End PoolInv.

(** ** What the pool keeps *)

Module PoolProps.
Import Pool PoolInv.

(** A connection is with its own goroutines while one of them serves a request. *)
Definition at_place (s : state) (pl : place) (c : nat) : Prop :=
  held s pl c ∨ pl = PReader ∧ ∃ p, conns s !! c = Some p ∧ tokens p ≠ 0.

(** Requests one after the other on one connection of the key ["http"]. *)
Definition example_key : key := {| k_proxy := ""; k_scheme := "http"; k_addr := "example.com:80" |}.
Definition example_dial : list label := [LStart 1 example_key; LGetCh 1; LSelect 1; LDial 1 true; LDialed 1].
Definition example_send (q : nat) : list label :=
  [LEnter q; LSendWrite q; LSendReq q; LWTake 1; LWDone 1 true; LWReport 1; LWAnswer 1].
Definition example_put : list label :=
  [LPeek 1 true; LRTake 1; LRead 1 (Some (false, true)); LCheck 1 false false; LPut 1 None; LDeliver 1].
Definition example_run : list label := example_dial ++ example_send 1 ++ example_put ++ [LAnswer 1; LStart 2 example_key].

(** C31: whatever the network, the server, the users and the scheduler do, a
    connection of the transport is in one place at a time - in one idle list, in
    the hands of one dial, of one request that has not handed itself over, or of
    the goroutines that serve one request - so no two requests ever use it
    together; the idle lists hold no connection twice (the [log.Fatalf] of
    [putIdleConn] is out of reach), no more than the limit, and only
    connections of their own key, and a request gets a connection of the key
    it asked for. *)
Theorem transport_pool noKeep maxPerHost ls s (Hrun : run noKeep maxPerHost ls init = Some s) :
  (∀ c pl pl', at_place s pl c → at_place s pl' c → pl = pl') ∧
  (∀ k, NoDup (get_idle k s) ∧ length (get_idle k s) ≤ max_idle maxPerHost) ∧
  (∀ k c, c ∈ get_idle k s → p_key <$> conns s !! c = Some k) ∧
  (∀ q k c, reqs s !! q = Some (QConn k c) → p_key <$> conns s !! c = Some k) ∧
  fatal s = false.
Proof.
  destruct (transport_run_inv _ _ _ _ _ _ (init_inv _) Hrun) as [own [W Hh Hc]].
  assert (Hat : ∀ c pl, at_place s pl c → own c = pl).
  { intros c pl [Hx|(-> & p & Ep & T)]; [by apply Hh|]. destruct (Hc _ _ Ep) as [_ L].
    by destruct (owned_calm _ _ (l_owned _ _ L)). }
  assert (Hkey : ∀ c pl, held s pl c → ∃ p, conns s !! c = Some p ∧ owned pl p).
  { intros c pl Hx. destruct (Hh _ _ Hx) as [<- [p Ep]]. exists p. split; [done|]. by apply Hc. }
  split_and!; try apply W.
  - intros c pl pl' H1%Hat H2%Hat. congruence.
  - intros k. split; apply W.
  - intros k c Hx. destruct (Hkey c (PIdle k) Hx) as (p & -> & _ & <-). done.
  - intros q k c Hx. destruct (Hkey c (PConn q k) Hx) as (p & -> & _ & <-). done.
Qed.
Lemma transport_pool_witness : ∃ s, run false 0 example_run init = Some s ∧ reqs s !! 2 = Some (QConn example_key 1) ∧ fatal s = false.
Proof.
  eexists. split; [vm_compute; reflexivity|]. split; [vm_compute; reflexivity|].
  refine (proj2 (proj2 (proj2 (proj2 (transport_pool false 0 example_run _ _))))). vm_compute. reflexivity.
Defined.

Lemma owned_prefix pl p : owned pl p → answering p `prefix_of` handed p.
Proof.
  destruct pl; cbn; [intros [(_ & _ & ->) _]; reflexivity..|intros (_ & _ & ->); reflexivity|intros [_ <-]; by eexists|intros <-; by eexists].
Qed.

(** C32: on one connection the requests are written in the order in which they
    were handed over and the responses go to them in that order; a request
    never has to wait to hand itself over, its buffers being empty, and the
    writer never waits to report; a connection is put back only when all that
    was written on it is accounted for. *)
Theorem requests_in_order noKeep maxPerHost ls s c p (Hrun : run noKeep maxPerHost ls init = Some s) (Hp : conns s !! c = Some p) :
  writing p `prefix_of` handed p ∧ answering p `prefix_of` handed p ∧
  (∀ q, reqs s !! q = Some (QWrite c) → writech p = None ∧ writeErrCh p = None) ∧
  (∀ q, reqs s !! q = Some (QReq c) → reqch p = None) ∧
  (∀ q ok, writer p = WReport q ok → writeErrCh p = None) ∧
  (∀ k, c ∈ get_idle k s → answering p = handed p ∧ (broken p = false → writing p = handed p)).
Proof.
  destruct (transport_run_inv _ _ _ _ _ _ (init_inv _) Hrun) as [own [W Hh Hc]]. destruct (Hc _ _ Hp) as [_ L].
  assert (Hq : ∀ pl, held s pl c → owned pl p). { intros pl Hx. destruct (Hh _ _ Hx) as [<- _]. apply L. }
  assert (Ho : outstanding p = 0 → writech p = None ∧ writeErrCh p = None).
  { unfold outstanding. destruct (writech p), (writeErrCh p); cbn; lia || done. }
  split_and!.
  - destruct (l_writing _ _ L) as [<-|[_ ?]]; [by apply prefix_app_r|done].
  - eapply owned_prefix, L.
  - intros q Hx. apply Ho, (Hq (PWrite q) Hx).
  - intros q Hx. destruct (Hq (PSend q) Hx) as [T _]. unfold tokens in T. destruct (reqch p); cbn in T; [lia|done].
  - intros q ok Ew. pose proof (l_out _ _ L) as O. unfold outstanding in O. rewrite Ew in O. destruct (writeErrCh p); cbn in O; [lia|done].
  - intros k Hx. destruct (Hq (PIdle k) Hx) as [(T & O & A) _]. split; [done|]. intros Hb. destruct (Ho O) as [Ew _].
    destruct (l_writing _ _ L) as [E|[? _]]; [|congruence]. by rewrite Ew, app_nil_r in E.
Qed.
Lemma requests_in_order_witness : ∃ s p, run false 0 example_run init = Some s ∧ conns s !! 1 = Some p ∧
  handed p = [1] ∧ answering p `prefix_of` handed p.
Proof.
  eexists _, _. split; [vm_compute; reflexivity|]. split; [vm_compute; reflexivity|]. split; [reflexivity|].
  refine (proj1 (proj2 (requests_in_order false 0 example_run _ 1 _ _ _))); vm_compute; reflexivity.
Defined.

(** *** What the pool does not keep *)

(** A request canceled twice while it waits for a connection closes a channel twice. *)
Lemma cancel_twice : panicked <$> run false 0 [LStart 1 example_key; LCancel 1; LCancel 1] init = Some true.
Proof. vm_compute. reflexivity. Qed.

(** A connection the server closes before the last caller has counted its
    response stays in the pool, unbroken, and its reader waits for the next
    request to fail it. *)
Definition example_dead : list label :=
  example_dial ++ example_send 1 ++ example_put ++ [LPeek 1 false; LAnswer 1; LStart 2 example_key] ++ example_send 2 ++
  [LRTake 1; LRead 1 None; LDeliver 1; LAnswer 2].
Lemma dead_connection_pooled :
  (λ s, (reqs s !! 1, reqs s !! 2)) <$> run false 0 example_dead init = Some (Some (QDone true), Some (QDone false)).
Proof. vm_compute. reflexivity. Qed.

(** Broken connections keep their places: with two of them in the list, a third
    that is good is closed. *)
Definition example_conn (q c : nat) : list label :=
  [LEnter q; LSendWrite q; LSendReq q; LWTake c; LWDone c true; LWReport c; LWAnswer c;
   LPeek c true; LRTake c; LRead c (Some (false, true)); LCheck c false false].
Definition example_full : list label :=
  flat_map (λ q, [LStart q example_key; LGetCh q; LSelect q; LDial q true; LDialed q]) [1; 2; 3] ++
  example_conn 1 1 ++ example_conn 2 2 ++ example_conn 3 3 ++ [LPut 1 None; LDeliver 1; LAnswer 1; LPeek 1 false;
  LPut 2 None; LDeliver 2; LAnswer 2; LPeek 2 false; LPut 3 None].
Lemma broken_keep_places :
  (λ s, (get_idle example_key s, map (λ c, broken <$> conns s !! c) [1; 2; 3], closed <$> conns s !! 3)) <$> run false 0 example_full init =
  Some ([1; 2], [Some true; Some true; Some true], Some true).
Proof. vm_compute. reflexivity. Qed.
End PoolProps.
