(* ===== verification/EndToEnd.v ===== *)
(** The two ends of a connection together: a session of the server and the
    loop of the client, with the wire between them.

    Each side is the model of its own file, run with its own script. A link
    says how the scripts of the two fit: the client reads a prefix of what
    the server sent, and the server's replies are a prefix of what the client
    wrote. How far each got, and how each side ends, is open. *)

From S2P Require Import Prelude Protocol Store Broker ServerSession SeenState ClientSession.
Import Msg Store StoreSpec Broker SplitProof SeenState.

Module EndToEnd.
Import ServerSession SessionSpec SessionDelivery ClientSession ClientLoop SeenSpec.

(** *** What goes over the wire *)

(** The messages of a session's loop, and the answers to them. *)
Definition loop_sent (tr : list tev) : list out :=
  omap (λ e, match e with Sent (OConnAck _) => None | Sent m => Some m | _ => None end) tr.
Definition replies (tr : list tev) : list (option string) :=
  omap (λ e, match e with Received T => Some T | _ => None end) tr.
Definition answers (tr : list cev) : list string :=
  omap (λ e, match e with Wrote MPong => Some "pong" | Wrote (MAck t) => Some t | _ => None end) tr.

(** The type a message is sent with is the one of its kind; CONNACK is not
    sent in the loop. *)
Definition oneway_type (m : OnewayMsg) : string :=
  match m with ConnBroken m => cb_Type m | ConnWarn m => cw_Type m | SetParams m => sp_Type m end.
Definition typed (m : out) : Prop :=
  match m with
  | OConnAck _ => False
  | OPing => True
  | OBroadcast b => b_Type b = "broadcast"
  | ONotifications n => n_Type n = "notifications"
  | OOneway m =>
      match m with
      | ConnBroken m => cb_Type m = "connbroken"
      | ConnWarn m => cw_Type m = "warn" ∨ cw_Type m = "connwarn"
      | SetParams m => sp_Type m = "setparams"
      end
  end.

(** What a message of the server is to the client. *)
Definition means (m : out) (r : serverMsg) : Prop :=
  match m with
  | OConnAck _ => False
  | OPing => sm_Type r = "ping"
  | OBroadcast b => sm_Type r = "broadcast" ∧ sm_ChanId r = b_ChanId b ∧ sm_TopLevel r = b_TopLevel b ∧ sm_Payloads r = b_shown b
  | ONotifications n => sm_Type r = "notifications" ∧ sm_Notifications r = n_shown n
  | OOneway m => sm_Type r = oneway_type m ∧ sm_Type r ∉ ["ping"; "broadcast"; "notifications"]
  end.

Section link.
Context {S : Type} `{PendingStore S}.
Context {D : Type} `{SeenState D} {C : Type} `{AddresseeChecking C}.
Abbreviation sess := (@clientSession D C).

(** The codec: [encode] is [json.Marshal], and a message is read back as what
    it means, whatever the variable it is read into held before. *)
Definition decodes (encode : out → string) (cfg : config) : Prop :=
  ∀ m recv, typed m → ∃ r, Unmarshal cfg (encode m) recv = Some r ∧ means m r.

Record link (encode : out → string) (server : list tev) (s : sess) (client : list cev) : Prop := {
  link_frames : ∃ k errs, reads s = (inl ∘ encode <$> take k (loop_sent server)) ++ (inr <$> errs);
  link_replies : ∃ j, replies server = Some <$> take j (answers client);
}.
End link.

(** *** The client's rounds *)

Section client.
Context {D : Type} `{SeenStateLaws D} {C : Type} `{AddresseeChecking C}.
Context (cfg : config).
Abbreviation sess := (@clientSession D C).

(** The application of a notification is not installed, as the checker sees it. *)
Definition refused (n : Notification) : Prop := ∃ c, (CheckForAddressee n c).2 = None.

(** A notification with this id was handed on, or its application is missing. *)
Definition settled (tr : list cev) (id : string) : Prop :=
  ∃ n, MsgId n = id ∧ ((∃ to, PutNotification to n ∈ tr) ∨ refused n).

Definition handing (e : cev) : Prop := match e with PutBroadcast _ | PutNotification _ _ => True | _ => False end.

(** What the client does about a message, with the ids it has seen. *)
Inductive round (m : serverMsg) (sn sn' : list string) : list cev → Prop :=
| r_ping : sm_Type m = "ping" → sn' = sn → round m sn sn' [Wrote MPong]
| r_broadcast tr : sm_Type m = "broadcast" → sn' = sn → Forall handing tr → round m sn sn' (Wrote (MAck "ack") :: tr)
| r_notifications tr :
    sm_Type m = "notifications" → Forall handing tr →
    (∀ n, n ∈ sm_Notifications m → MsgId n ∈ sn ∨ settled tr (MsgId n)) →
    (∀ id, id ∈ sn' → id ∈ sn ∨ id ∈ ids (sm_Notifications m)) →
    round m sn sn' (Wrote (MAck "ack") :: tr)
| r_other : sm_Type m ∉ ["ping"; "broadcast"; "notifications"] → sn' = sn → round m sn sn' [].

Inductive rounds : list (string + string) → list string → list cev → Prop :=
| rs_end rs sn : rounds rs sn []
| rs_last fr rs sn recv m tr :
    Unmarshal cfg fr recv = Some m → tr = [] ∨ tr = [Wrote (MAck "nak")] → rounds (inl fr :: rs) sn (Read m :: tr)
| rs_round fr rs sn sn' recv m tr tr' :
    Unmarshal cfg fr recv = Some m → round m sn sn' tr → rounds rs sn' tr' → rounds (inl fr :: rs) sn (Read m :: tr ++ tr').

Definition seen_of (s : sess) : list string := seen_view (SeenState_ s).

(** The result of a handler: as in [ClientLoop.round_ok], with what becomes of
    each notification. *)
Definition round_done (m : serverMsg) (s : sess) (r : sess * outcome cerr ()) : Prop :=
  reads r.1 = reads s ∧ ∃ tr, trace r.1 = trace s ++ tr ∧
  match r.2 with
  | Ok _ => round m (seen_of s) (seen_of r.1) tr
  | Err _ => tr = [] ∨ tr = [Wrote (MAck "nak")]
  | Panic => False
  end.

Lemma forward_settles ns (s : sess) :
  ∃ s' tr, forward ns s = (s', Ok ()) ∧ trace s' = trace s ++ tr ∧ Forall handing tr ∧
    (∀ n, n ∈ ns → (∃ to, PutNotification to n ∈ tr) ∨ refused n) ∧ SeenState_ s' = SeenState_ s ∧ reads s' = reads s.
Proof.
  revert s. induction ns as [|n ns IH]; intros s.
  { exists s, []. rewrite app_nil_r. split_and!; try done. by intros ? ?%elem_of_nil. }
  cbn. unfold mbind, st_bind, CheckForAddressee_.
  destruct (CheckForAddressee n (checker s)) as [c [to|]] eqn:E; cbn.
  - destruct (IH (upd_trace (trace s ++ [PutNotification to n]) (upd_checker c s))) as (s' & tr & -> & Ht & Hp & Hs & HS & Hr).
    cbn in *. exists s', (PutNotification to n :: tr). rewrite Ht, <- app_assoc. split_and!; try done; [by constructor|].
    intros n' [->|Hn]%elem_of_cons; [left; exists to; by left|].
    destruct (Hs n' Hn) as [[to' ?]|?]; [left; exists to'; by right|by right].
  - destruct (IH (upd_checker c s)) as (s' & tr & -> & Ht & Hp & Hs & HS & Hr).
    exists s', tr. split_and!; try done. intros n' [->|Hn]%elem_of_cons; [right; exists (checker s); by rewrite E|auto].
Qed.

Lemma ping_done m (s : sess) : sm_Type m = "ping" → round_done m s (handlePing s).
Proof.
  intros HT. unfold handlePing, or_fail, fail, WriteMessage, clearShouldDelay, modify, mbind, st_bind, st_try.
  destruct (conn_op_cases [Wrote MPong] s) as [->|[err ->]]; (split; [done|]); eexists; cbn;
    [split; [done|by constructor]|split; [by rewrite app_nil_r|by left]].
Qed.

Lemma nak_done {A} m e (s s0 : sess) :
  reads s = reads s0 → trace s = trace s0 → round_done m s0 ((fail_nak (A := A) e s).1, Err e).
Proof.
  intros Hr Ht. destruct (fail_nak_spec (A := A) e s) as (s' & tr & -> & ? & _ & _ & _ & _ & E & ?).
  split; [by etrans|]. exists tr. split; [by rewrite <-Ht|done].
Qed.

Lemma broadcast_done m (s : sess) : sm_Type m = "broadcast" → round_done m s (handleBroadcast cfg m s).
Proof.
  intros HT. unfold handleBroadcast, mbind, st_bind, st_try, in_seen.
  pose proof (SetLevel_law (SeenState_ s) (sm_ChanId m) (sm_TopLevel m)) as HL.
  destruct (SetLevel (sm_ChanId m) (sm_TopLevel m) (SeenState_ s)) as [ss [u|e|]]; destruct HL as (HS & _ & HL); [| |done].
  - unfold or_fail, fail, modify, WriteMessage, mbind, st_bind, st_try.
    destruct (conn_op_cases [Wrote (MAck "ack")] (upd_SeenState ss s)) as [->|[err ->]]; cbn.
    + unfold clearShouldDelay, emit, modify; cbn. case_decide; cbn; (split; [done|]); eexists (_ :: _);
        rewrite <-?app_assoc; (split; [done|]); apply r_broadcast; try done; by repeat constructor.
    + split; [done|]. exists []. rewrite app_nil_r. split; [done|by left].
  - pose proof (nak_done (A := ()) m (ErrSeen e) (upd_SeenState ss s) s eq_refl eq_refl) as Hn.
    destruct (fail_nak_spec (A := ()) (ErrSeen e) (upd_SeenState ss s)) as (s' & tr & E & _). by rewrite E in Hn |- *.
Qed.

Lemma fresh_covers sn ns n : n ∈ ns → MsgId n ∈ sn ∨ ∃ n', n' ∈ fresh sn ns ∧ MsgId n' = MsgId n.
Proof.
  revert sn. induction ns as [|x ns IH]; intros sn; [by intros ?%elem_of_nil|]. cbn. intros [->|Hn]%elem_of_cons.
  - case_decide; [by left|]. right. exists x. split; [by left|done].
  - case_decide; [by apply IH|]. destruct (IH (sn ++ [MsgId x]) Hn) as [Hx|(n' & Hn' & E)].
    + apply elem_of_app in Hx as [?|Hx%list_elem_of_singleton]; [by left|]. right. exists x. split; [by left|done].
    + right. exists n'. split; [by right|done].
Qed.

Lemma notifications_done m (s : sess) : sm_Type m = "notifications" → round_done m s (handleNotifications m s).
Proof.
  intros HT. unfold handleNotifications, mbind, st_bind, st_try, in_seen.
  pose proof (FilterBySeen_law (SeenState_ s) (sm_Notifications m)) as HF.
  destruct (FilterBySeen (sm_Notifications m) (SeenState_ s)) as [ss [ns|e|]]; destruct HF as (_ & HS & HF); [| |done].
  - destruct HF as [-> _]. unfold or_fail, fail, modify, WriteMessage, mbind, st_bind, st_try.
    destruct (conn_op_cases [Wrote (MAck "ack")] (upd_SeenState ss s)) as [->|[err ->]]; cbn.
    + match goal with |- context [forward ?ns ?s1] =>
        destruct (forward_settles ns s1) as (s' & tr & -> & Ht & Hp & Hs & ES & Hr) end.
      cbn in *. split; [done|]. exists (Wrote (MAck "ack") :: tr). cbn. rewrite Ht, <- app_assoc. split; [done|].
      apply r_notifications; try done.
      * intros n Hn. destruct (fresh_covers (seen_view (SeenState_ s)) _ _ Hn) as [?|(n' & Hn' & E)]; [by left|right].
        exists n'. split; [done|auto].
      * unfold seen_of. rewrite ES. exact HS.
    + split; [done|]. exists []. rewrite app_nil_r. split; [done|by left].
  - pose proof (nak_done (A := ()) m (ErrSeen e) (upd_SeenState ss s) s eq_refl eq_refl) as Hn.
    destruct (fail_nak_spec (A := ()) (ErrSeen e) (upd_SeenState ss s)) as (s' & tr & E & _). by rewrite E in Hn |- *.
Qed.

Lemma dispatch_done m (s : sess) : round_done m s (dispatch cfg m s).
Proof.
  unfold dispatch. case_decide; [by apply ping_done|]. case_decide; [by apply broadcast_done|].
  case_decide; [by apply notifications_done|]. case_decide.
  { unfold handleConnBroken, mbind, st_bind, setState, modify, resetHosts.
    case_decide; cbn; (split; [done|]); exists []; rewrite app_nil_r; (split; [done|by left]). }
  assert (∀ s', reads s' = reads s → SeenState_ s' = SeenState_ s → trace s' = trace s → round_done m s (s', Ok ())) as Hother.
  { intros s' Hr HS Ht. split; [done|]. exists []. rewrite app_nil_r. split; [done|].
    apply r_other; [set_solver|]. unfold seen_of. cbn. by rewrite HS. }
  case_decide; [|by apply Hother]. unfold handleSetParams, setCookie, modify. case_decide; by apply Hother.
Qed.

Lemma loop_rounds_done fuel recv (s : sess) :
  length (reads s) < fuel →
  ∃ tr, trace (loop_rounds cfg fuel recv s).1 = trace s ++ tr ∧ rounds (reads s) (seen_of s) tr.
Proof.
  revert recv s. induction fuel as [|fuel IH]; intros recv s Hf; [lia|].
  cbn [loop_rounds]. unfold mbind at 1, st_bind at 1.
  destruct (SetDeadline_cases cfg s) as [->|[-> _]]; [|exists []; cbn; rewrite app_nil_r; split; [done|constructor]].
  unfold or_fail, fail, ClientSession.ReadMessage, read_frame, emit, mbind, st_bind, st_try, get, modify.
  cbn. destruct (reads s) as [|[frame|e] rs] eqn:Er; cbn.
  - exists []. rewrite app_nil_r. split; [done|constructor].
  - destruct (Unmarshal cfg frame recv) as [m|] eqn:Eu; cbn; [|exists []; rewrite app_nil_r; split; [done|constructor]].
    match goal with |- context [dispatch cfg m ?s1] =>
      pose proof (dispatch_done m s1) as (Hr & tr & Ht & Hd); destruct (dispatch cfg m s1) as [s2 [[]|e|]] end; cbn in *; [| |done].
    + specialize (IH m s2). rewrite Hr in IH. destruct IH as (tr' & Ht' & Hc); [lia|].
      exists (Read m :: tr ++ tr'). rewrite Ht', Ht, <- !app_assoc. split; [done|]. by eapply rs_round.
    + exists (Read m :: tr). rewrite Ht, <- app_assoc. split; [done|]. by eapply rs_last.
  - exists []. rewrite app_nil_r. split; [done|constructor].
Qed.

Lemma loop_done (s : sess) : ∃ tr, trace (loop cfg s).1 = trace s ++ tr ∧ rounds (reads s) (seen_of s) tr.
Proof.
  unfold loop, setState, modify, get, mbind, st_bind. cbn -[loop_rounds].
  exact (loop_rounds_done (Datatypes.S (length (reads s))) zero_serverMsg (upd_state Running s) ltac:(cbn; lia)).
Qed.
End client.

(** *** The session's messages have their types *)

(** The oneway messages that the rest of the server gives to the session. *)
Definition event_typed (e : event) : Prop :=
  match e with EvExchange (Some (ConnMeta m)) => typed (OOneway m) | _ => True end.
Definition sent_typed (e : tev) : Prop := match e with Sent (OConnAck _) => True | Sent m => typed m | _ => True end.

Section session.
Context {S : Type} `{PendingStore S}.
Context (pingInterval : Z) (clock : nat → Z).
Abbreviation M := (st (ServerSession.loop S) berr).

Definition all_typed (P : S * BrokerSession → Prop) (l : ServerSession.loop S) : Prop :=
  Forall sent_typed (l_trace l) ∧ P (l_world l).
Abbreviation keeps_typed P m := (triple (all_typed P) m (λ _, all_typed P) (λ _, all_typed P)).

Lemma typed_quiet {A} P (m : M A) : quiet m → keeps_typed P m.
Proof. intros Hm l Hl. destruct (Hm l) as (l' & a & -> & Ht & Hw & _). unfold all_typed. by rewrite Ht, Hw. Qed.
Lemma typed_bind {A B} P (m : M A) (f : A → M B) : keeps_typed P m → (∀ a, keeps_typed P (f a)) → keeps_typed P (m ≫= f).
Proof. apply triple_bind. Qed.
Lemma typed_err {A} P (e : berr) : keeps_typed P (st_err e : M A).
Proof. by apply triple_err. Qed.

Lemma typed_Write P m : typed m → keeps_typed P (ServerSession.WriteMessage m).
Proof.
  intros Hm l [Hl HP]. unfold ServerSession.WriteMessage. assert (Forall sent_typed (l_trace l ++ [Sent m])).
  { apply Forall_app. split; [done|]. constructor; [|done]. by destruct m. }
  by destruct (l_writes l) as [|[e|] ws].
Qed.
Lemma typed_Read P : keeps_typed P (ServerSession.ReadMessage (S := S)).
Proof.
  intros l [Hl HP]. unfold ServerSession.ReadMessage. destruct (l_reads l) as [|[T|e] rs]; try done.
  split; [|done]. apply Forall_app. by repeat constructor.
Qed.
Lemma typed_exchange P m a c : typed m → keeps_typed P (exchange clock m a c).
Proof.
  intros Hm. unfold exchange. apply typed_bind; [apply typed_quiet, quiet_Now|]. intros ?.
  apply typed_bind; [by apply typed_Write|]. intros ?. destruct (negb a); [destruct c; apply typed_err|apply typed_Read].
Qed.
Lemma typed_doPing P : keeps_typed P (doPing pingInterval clock).
Proof.
  unfold doPing. apply typed_bind; [apply typed_quiet, quiet_Now|]. intros ?.
  apply typed_bind; [by apply typed_exchange|]. intros T. case_decide; [apply typed_quiet, quiet_reset_|apply typed_err].
Qed.

(** The message of an exchange stays of its type while it is split and sent. *)
Definition ready (m : out_msg) (w : S * BrokerSession) : Prop := typed (deref m w.2).

Lemma BroadcastMsg_Split_type m d m' : BroadcastMsg_Split m = Some (d, m') → b_Type m' = b_Type m.
Proof.
  unfold BroadcastMsg_Split. intros E. apply bind_Some in E as ([top m1] & E1 & E).
  assert (b_Type m1 = b_Type m) as <-.
  { destruct (bool_decide _); [by injection E1 as <- <-|]. by apply bind_Some in E1 as (P & _ & [= <- <-]). }
  destruct (split_scan _ _ _ _); [|by injection E as <- <-]. by apply bind_Some in E as (P & _ & [= <- <-]).
Qed.
Lemma NotificationsMsg_Split_type m d m' : NotificationsMsg_Split m = Some (d, m') → n_Type m' = n_Type m.
Proof.
  unfold NotificationsMsg_Split. intros E. apply bind_Some in E as (m1 & E1 & E).
  assert (n_Type m1 = n_Type m) as <-.
  { destruct (bool_decide _); [by injection E1 as <-|]. by apply bind_Some in E1 as (P & _ & [= <-]). }
  destruct (split_scan _ _ _ _); [|by injection E as <- <-]. by apply bind_Some in E as (P & _ & [= <- <-]).
Qed.

Lemma typed_Split m : keeps_typed (ready m) (Split m).
Proof.
  destruct m; [..|by intros l Hl]; intros l [Hl Hr]; cbn; unfold mbind, st_bind; cbn; unfold ready in Hr; cbn in Hr.
  - destruct (BroadcastMsg_Split _) as [[d m]|] eqn:E; [|by split]. apply BroadcastMsg_Split_type in E.
    split; [done|]. unfold ready. cbn. congruence.
  - destruct (NotificationsMsg_Split _) as [[d m]|] eqn:E; [|by split]. apply NotificationsMsg_Split_type in E.
    split; [done|]. unfold ready. cbn. congruence.
Qed.

Lemma typed_exchange_msg m a : keeps_typed (ready m) (exchange_msg clock m a).
Proof.
  unfold exchange_msg. apply (triple_bind _ _ _ (λ w l, typed (deref m w.2) ∧ all_typed (ready m) l)).
  { intros l Hl. split; [apply Hl|done]. }
  intros w. apply triple_pure. intros Hw. apply typed_bind; [by apply typed_exchange|].
  intros [T|] l [Hl Hr]; (split; [done|]); [|done]. unfold ready in *. cbn. by destruct m.
Qed.

Lemma typed_Acked m e d : keeps_typed (ready m) (in_world (Acked (S := S) e d)).
Proof.
  intros l [Hl Hr]. unfold in_world. assert (Hw : ready m (Acked e d (l_world l)).1).
  { unfold ready in *. destruct e as [sbe|o|sue]; cbn [Acked]; [|done|].
    - unfold BroadcastExchange_Acked, mbind, st_bind, get_session. case_decide; [|done]. by destruct m.
    - unfold UnicastExchange_Acked, mbind, st_bind, get_session, with_store. case_decide; [|done]. cbn.
      by destruct (ps_DropByMsgId _ _ _) as [x [[]|err|]]. }
  destruct (Acked e d (l_world l)) as [w [[]|err|]]; by split.
Qed.

Lemma typed_send_loop fuel e m a : keeps_typed (ready m) (send_loop pingInterval clock fuel e m a).
Proof.
  induction fuel as [|fuel IH]; cbn [send_loop]; [by apply triple_panic|].
  apply typed_bind; [apply typed_Split|]. intros d. eapply triple_bind.
  { eapply triple_try; [apply typed_exchange_msg|]. done. }
  intros [[]|err]; cbn beta iota.
  - apply typed_bind; [apply typed_quiet; destruct d; [apply quiet_reset_|apply quiet_ret]|]. intros ?.
    apply typed_bind; [apply typed_Acked|]. intros ?. destruct d; [by apply triple_ret|apply IH].
  - destruct err; try apply typed_err. apply typed_quiet, quiet_reset_.
Qed.

Lemma typed_Prepare now e (w : S * BrokerSession) m a w' :
  event_typed (EvExchange (Some e)) → Prepare now e w = (w', Ok (m, a)) → ready m w'.
Proof.
  intros He. destruct e as [sbe|o|sue]; cbn [Prepare].
  - unfold BroadcastExchange_Prepare, mbind, st_bind, get_session, lift.
    destruct (channelFilter _ _ _ _); [|done]. cbn. case_match; [done|].
    destruct (InternalChannelIdToHex _); [|done]. cbn. by intros [= <- <- <-].
  - by intros [= <- <- <-].
  - unfold UnicastExchange_Prepare, mbind, st_bind, with_store.
    destruct (ps_GetChannelSnapshot _ _ _) as [x [[top ns]|err|]]; try done.
    case_decide; [done|]. cbn. by intros [= <- <- <-].
Qed.

Definition any_world (w : S * BrokerSession) : Prop := True.
Lemma typed_forget {A} P (m : M A) : keeps_typed P m → triple (all_typed P) m (λ _, all_typed any_world) (λ _, all_typed any_world).
Proof. intros Hm. eapply triple_weaken; [exact Hm|done|..]; intros ? l [? _]; by split. Qed.

Lemma typed_run_exchange e : event_typed (EvExchange (Some e)) → keeps_typed any_world (run_exchange pingInterval clock e).
Proof.
  intros He. unfold run_exchange. apply typed_bind; [apply typed_quiet, quiet_Now|]. intros now.
  apply (triple_bind _ _ _ (λ r, all_typed (match r with inl (m, _) => ready m | inr _ => any_world end))).
  { intros l [Hl _]. unfold st_try, in_world. destruct (Prepare now e (l_world l)) as [w [[m a]|err|]] eqn:E; cbn;
      (split; [done|]); try done. by eapply typed_Prepare. }
  intros [[m a]|err]; cbn beta iota.
  - apply typed_forget, typed_bind; [apply typed_quiet, quiet_gets|]. intros fuel. apply typed_send_loop.
  - destruct err; try apply typed_err. apply typed_bind; [apply typed_quiet, quiet_reset|]. intros ok.
    destruct (negb ok); [apply typed_doPing|by apply triple_ret].
Qed.

Lemma typed_run es : Forall event_typed es → keeps_typed any_world (ServerSession.run pingInterval clock es).
Proof.
  induction 1 as [|e es He _ IH]; cbn [ServerSession.run]; [by apply triple_ret|].
  apply typed_bind; [|by intros ?]. destruct e as [| |[exchg|]|now o]; cbn [run_event].
  - apply typed_quiet, quiet_modify. intros l. by destruct (t_armed _).
  - apply typed_bind; [apply typed_quiet, quiet_gets|]. intros fired. destruct fired; [|by apply triple_ret].
    apply typed_bind; [by apply typed_quiet, quiet_modify|]. intros ?. apply typed_doPing.
  - apply typed_bind; [by apply typed_quiet, quiet_modify|]. intros ?. by apply typed_run_exchange.
  - apply typed_bind; [by apply typed_quiet, quiet_modify|]. intros ?. apply typed_err.
  - by intros l [Hl _].
Qed.
End session.

(** *** Both ends *)

Lemma acked_replies tr : (∀ T, T ∈ replies tr → is_ack T = false) → acked tr = [].
Proof.
  induction tr as [|e tr IH]; [done|]. intros Hr. assert (Hr' : ∀ T, T ∈ replies tr → is_ack T = false).
  { intros T HT. apply Hr. destruct e; cbn; try exact HT. by right. }
  specialize (IH Hr'). cbn [acked]. destruct e as [[| | |m|]| | |]; try done. destruct tr as [|[|T| |] tr]; try done.
  rewrite (Hr' T); [done|by left].
Qed.
Lemma acked_silent tr : replies tr = [] → acked tr = [].
Proof. intros E. apply acked_replies. rewrite E. by intros T ?%elem_of_nil. Qed.

Section both.
Context {D : Type} `{SeenStateLaws D} {C : Type} `{AddresseeChecking C}.
Context (cfg : config) (encode : out → string) (Hcodec : decodes encode cfg).
Abbreviation settled := (settled (C := C)).
Abbreviation rounds := (rounds (C := C) cfg).

Lemma settled_app tr tr' id : settled tr id ∨ settled tr' id → settled (tr ++ tr') id.
Proof.
  intros [(n & E & [[to Hn]|Hn])|(n & E & [[to Hn]|Hn])]; exists n; (split; [done|]); try (by right); left; exists to;
    apply elem_of_app; auto.
Qed.
Lemma settled_cons e tr id : settled tr id → settled (e :: tr) id.
Proof. intros Hs. apply (settled_app [e]). by right. Qed.

(** The frames a client reads: those of messages, then errors. *)
Definition frames (ms : list out) (k : nat) (errs : list string) : list (string + string) :=
  (inl ∘ encode <$> take k ms) ++ (inr <$> errs).

Lemma handing_answers tr : Forall handing tr → answers tr = [].
Proof. induction 1 as [|e tr He _ IH]; [done|]. by destruct e. Qed.
Lemma answers_app tr tr' : answers (tr ++ tr') = answers tr ++ answers tr'.
Proof. apply omap_app. Qed.

(** A client that answers has read a message and made a round of it, or refuses to go on. *)
Lemma first_round m ms k errs sn tr :
  typed m → rounds (frames (m :: ms) k errs) sn tr →
  (∀ a, a ∈ answers tr → a = "nak") ∨
  ∃ k' r sn' tr1 tr2, k = S k' ∧ means m r ∧ round (C := C) r sn sn' tr1 ∧ rounds (frames ms k' errs) sn' tr2 ∧ tr = Read r :: tr1 ++ tr2.
Proof.
  intros Hm Hr. unfold frames in Hr. destruct k as [|k]; cbn in Hr.
  { left. destruct errs; cbn in Hr; inversion Hr; subst; by intros a ?%elem_of_nil. }
  inversion Hr as [|fr rs sn0 recv r tr0 Eu Ht|fr rs sn0 sn' recv r tr1 tr2 Eu Hd Hr']; subst.
  - left. by intros a ?%elem_of_nil.
  - left. destruct Ht as [->| ->]; cbn; [by intros a ?%elem_of_nil|]. by intros a ->%list_elem_of_singleton.
  - right. destruct (Hcodec m recv Hm) as (r' & Eu' & Hmean). rewrite Eu in Eu'. injection Eu' as <-. by exists k, r, sn', tr1, tr2.
Qed.

(** What an acknowledging round settles, given what the ones after it do. *)
Lemma round_settles r sn sn' tr1 tr2 id :
  round (C := C) r sn sn' tr1 → id ∈ sn' ∨ settled tr2 id → id ∈ sn ∨ settled (Read r :: tr1 ++ tr2) id.
Proof.
  intros Hd [Hid|Hid]; [|right; apply settled_cons, settled_app; by right].
  destruct Hd as [_ ->|tr _ -> _|tr _ _ Hn Hsub|_ ->]; try (by left).
  destruct (Hsub id Hid) as [?|Hin]; [by left|]. apply list_elem_of_fmap in Hin as (n & -> & Hin).
  destruct (Hn n Hin) as [?|?]; [by left|]. right. apply settled_cons, settled_app. left. by apply settled_cons.
Qed.

Lemma naks_acked tr_s tr_c j : replies tr_s = Some <$> take j (answers tr_c) → (∀ a, a ∈ answers tr_c → a = "nak") → acked tr_s = [].
Proof.
  intros E Hn. apply acked_replies. rewrite E. intros T HT. apply list_elem_of_fmap in HT as (a & -> & Ha).
  rewrite (Hn a); [done|]. apply elem_of_take in Ha as (i & Ha & _). by eapply list_elem_of_lookup_2.
Qed.

(** The answer to a message that waits for one. *)
Lemma answered_round m r sn sn' tr1 : means m r → round (C := C) r sn sn' tr1 →
  match m with
  | OPing => answers tr1 = ["pong"]
  | OBroadcast _ | ONotifications _ => answers tr1 = ["ack"]
  | OOneway _ => answers tr1 = []
  | OConnAck _ => False
  end.
Proof.
  intros Hm Hd. destruct m as [p| |b|n|o]; cbn in Hm; try done; destruct_and?;
    destruct Hd as [Ht|tr Ht _ Hh|tr Ht Hh|Ht]; rewrite ?Ht in *; cbn; try done; try (by rewrite handing_answers); try congruence; set_solver.
Qed.

Lemma round_shown m r sn sn' tr1 id :
  means (ONotifications m) r → round (C := C) r sn sn' tr1 → id ∈ MsgId <$> n_shown m → id ∈ sn ∨ settled tr1 id.
Proof.
  intros [Ht En] Hd Hin. apply list_elem_of_fmap in Hin as (n & -> & Hin). rewrite <-En in Hin.
  destruct Hd as [Ht'|tr Ht' _ _|tr Ht' _ Hn|Ht']; try congruence; [|set_solver].
  destruct (Hn n Hin); [by left|]. right. by apply settled_cons.
Qed.

(** How the trace of a session's loop goes on. *)
Definition waits (m : out) : bool := match m with OPing | OBroadcast _ | ONotifications _ => true | _ => false end.
Definition ids_of (m : out) : list string := match m with ONotifications n => MsgId <$> n_shown n | _ => [] end.

Lemma stopped_silent tr q : proto_run PStop tr = Some q ∨ proto_run PUnregistered tr = Some q → replies tr = [].
Proof. destruct tr as [|[]]; try done; [by intros []..|]. destruct tr as [|[]]; try done; by intros []. Qed.

Lemma session_head tr q : proto_run PLoop tr = Some q →
  acked tr = [] ∨
  (∃ m T rest, tr = Sent m :: Received T :: rest ∧ waits m = true ∧ (proto_run PLoop rest = Some q ∨ acked rest = [])) ∨
  (∃ m rest, tr = Sent (OOneway m) :: rest ∧ proto_run PLoop rest = Some q).
Proof.
  destruct tr as [|[m|T| |] tr]; cbn [proto_run proto_step mbind option_bind]; try done; [by left| |].
  2: { intros Hs. left. apply (acked_silent (Unregistered :: tr)). apply (stopped_silent tr q). by right. }
  destruct m as [p| |b|n|o]; cbn [mbind option_bind]; [done|..|].
  1-3: destruct tr as [|[|T| |] tr]; cbn [proto_run proto_step mbind option_bind]; try done; try (by left);
    [intros Hs; right; left; eexists _, _, _; (split; [reflexivity|]); (split; [reflexivity|]); case_match; [by left|right; apply acked_silent, (stopped_silent _ q); by left]
    |intros Hs; left; apply (acked_silent (Unregistered :: tr)), (stopped_silent tr q); by right].
  destruct (OnewayContinue o); intros Hs; [right; right; by exists o, tr|left].
  apply (acked_silent tr), (stopped_silent _ q). by left.
Qed.

(** The messages that were acknowledged are dealt with. *)
Lemma acked_settled tr_s tr_c k errs j sn q :
  proto_run PLoop tr_s = Some q → Forall sent_typed tr_s → rounds (frames (loop_sent tr_s) k errs) sn tr_c →
  replies tr_s = Some <$> take j (answers tr_c) → ∀ id, id ∈ acked tr_s → id ∈ sn ∨ settled tr_c id.
Proof.
  remember (length tr_s) as n eqn:En. revert tr_s tr_c k j sn En.
  induction (lt_wf n) as [n _ IH]. intros tr_s tr_c k j sn -> Hp Hty Hr Hj id Hid.
  destruct (session_head _ _ Hp) as [E|[(m & T & rest & -> & Hw & Hrest)|(o & rest & -> & Hrest)]].
  - rewrite E in Hid. by apply elem_of_nil in Hid.
  - inversion Hty as [|? ? Hm0 Hty1]; subst. inversion Hty1 as [|? ? _ Hty2]; subst.
    assert (Hm : typed m) by (by destruct m).
    replace (loop_sent _) with (m :: loop_sent rest) in Hr by (destruct m; done).
    destruct (first_round _ _ _ _ _ _ Hm Hr) as [Hn|(k' & r & sn' & tr1 & tr2 & -> & Hmr & Hd & Hr2 & ->)].
    { rewrite (naks_acked _ _ _ Hj Hn) in Hid. by apply elem_of_nil in Hid. }
    assert (Hans : ∃ a, answers (Read r :: tr1 ++ tr2) = a :: answers tr2).
    { pose proof (answered_round _ _ _ _ _ Hmr Hd) as Ha. cbn. rewrite answers_app. destruct m; try done; rewrite Ha; by eexists. }
    destruct Hans as [a Ea]. rewrite Ea in Hj. destruct j as [|j]; cbn in Hj; [done|]. injection Hj as -> Hj.
    assert (Hid' : id ∈ ids_of m ∨ id ∈ acked rest).
    { destruct m; try done; try (by right). rewrite acked_answer, elem_of_app in Hid. destruct Hid as [Hid|Hid]; [|by right].
      left. destruct (is_ack _); [done|by apply elem_of_nil in Hid]. }
    destruct Hid' as [Hid'|Hid'].
    + destruct m; try (by apply elem_of_nil in Hid'). destruct (round_shown _ _ _ _ _ _ Hmr Hd Hid'); [by left|].
      right. apply settled_cons, settled_app. by left.
    + eapply round_settles; [done|]. destruct Hrest as [Hrest|E]; [|rewrite E in Hid'; by apply elem_of_nil in Hid'].
      eapply (IH (length rest)); try done. cbn. lia.
  - inversion Hty as [|? ? Hm Hty2]; subst.
    destruct (first_round (OOneway o) (loop_sent rest) k errs sn tr_c) as [Hn|(k' & r & sn' & tr1 & tr2 & -> & Hmr & Hd & Hr2 & ->)]; [done|exact Hr|..].
    { rewrite (naks_acked _ _ _ Hj Hn) in Hid. by apply elem_of_nil in Hid. }
    eapply round_settles; [done|]. eapply (IH (length rest)); try done; [cbn; lia|].
    pose proof (answered_round _ _ _ _ _ Hmr Hd) as Ha. cbn in Hj, Ha. by rewrite answers_app, Ha in Hj.
Qed.
End both.

(** A session's trace from its start, without the handshake. *)
Lemma session_start tr q : proto_run PStart tr = Some q →
  acked tr = [] ∨ ∃ rest, proto_run PLoop rest = Some q ∧ rest `suffix_of` tr ∧ acked rest = acked tr ∧ loop_sent rest = loop_sent tr ∧ replies rest = replies tr.
Proof.
  destruct tr as [|[[]| | |] tr]; cbn [proto_run proto_step mbind option_bind]; try done; [by left|].
  destruct tr as [|[| | |] tr]; cbn [proto_run proto_step mbind option_bind]; try done; [by left|]. intros Hp. right. exists tr. split_and!; try done. by eexists [_; _].
Qed.

Section end_to_end.
Context {S : Type} `{PendingStoreLaws S}.
Context {D : Type} `{SeenStateLaws D} {C : Type} `{AddresseeChecking C}.
Context (pingInterval : Z) (clock : nat → Z) (cfg : config) (encode : out → string).

(** What is pending stays so, was seen before, or is settled. *)
Lemma run_link (used : list (string * string)) (es : list event) (l : ServerSession.loop S) (c p : string)
    (s : @clientSession D C) (tr : list cev) :
  decodes encode cfg →
  ps_inv (l_world l).1 → (∀ c' i, i ∈ StoreSpec.ids (entries l c') → (c', i) ∈ used) → events_ok used es →
  Forall event_typed es →
  l_trace l = [Sent (OConnAck p); Registered] →
  let l' := (ServerSession.run pingInterval clock es l).1 in
  trace (loop cfg s).1 = trace s ++ tr → link encode (l_trace l') s tr →
  ∀ x, x ∈ entries l c → x ∈ entries l' c ∨ MsgId x.1 ∈ seen_of s ∨ settled (C := C) tr (MsgId x.1).
Proof.
  intros Hcodec Hi Hu Hes Hty Hl l' Htr Hlink x Hx.
  assert (kept used c (entries l c) l) as Hk by (split_and!; auto).
  pose proof (kept_run pingInterval clock used c (entries l c) es Hes l Hk) as Hr.
  assert (conf PLoop l) as Hc by (unfold conf; by rewrite Hl).
  pose proof (run_conf pingInterval clock es l Hc) as Hp.
  assert (kept' : x ∈ entries l' c ∨ MsgId x.1 ∈ acked (l_trace l')).
  { unfold l'. destruct (ServerSession.run _ _ es l) as [l1 [a|e|]]; destruct Hr as (u & _ & _ & Hk'); by apply Hk'. }
  assert (Hty' : Forall sent_typed (l_trace l')).
  { assert (Hl0 : all_typed any_world l) by (split; [rewrite Hl; by repeat constructor|done]).
    pose proof (typed_run pingInterval clock es Hty l Hl0) as Hl1. unfold l'.
    by destruct (ServerSession.run _ _ es l) as [l1 [a|e|]]; destruct Hl1. }
  assert (Hq : ∃ q, proto_run PStart (l_trace l') = Some q).
  { unfold l'. destruct (ServerSession.run _ _ es l) as [l1 [a|e|]]; [by eexists|by destruct Hp as (q & ? & _); exists q..]. }
  destruct kept' as [?|Hid]; [by left|right]. destruct Hq as [q Hq].
  destruct (session_start _ _ Hq) as [E|(rest & Hrest & Hsuf & E1 & E2 & E3)]; [rewrite E in Hid; by apply elem_of_nil in Hid|].
  destruct (loop_done cfg s) as (tr' & Htr' & Hrounds). rewrite Htr in Htr'. apply app_inv_head in Htr' as <-.
  destruct Hlink as [(k & errs & Hf) (j & Hj)]. rewrite Hf, <-E2 in Hrounds. rewrite <-E3 in Hj. rewrite <-E1 in Hid.
  eapply (acked_settled cfg encode Hcodec rest tr k errs j (seen_of s) q Hrest); try done.
  destruct Hsuf as [pre E]. rewrite E in Hty'. by apply Forall_app in Hty' as [_ ?].
Qed.

(** From the server's store to the device. A session of the server and
    the loop of a client, joined by a wire that keeps order and may break at
    any point in either direction: a notification that was pending on the
    server, and that the client had not seen before, is still pending, to be
    sent again, unless the client has handed a notification with its id on to
    its application, or found that the application is not installed. The
    session and the loop may end in any way, and the rest of the server goes
    on meanwhile. *)
Theorem delivered_end_to_end (used : list (string * string)) (es : list event) (l : ServerSession.loop S) (c p : string)
    (s : @clientSession D C) (tr : list cev) :
  decodes encode cfg →
  ps_inv (l_world l).1 → (∀ c' i, i ∈ StoreSpec.ids (entries l c') → (c', i) ∈ used) → events_ok used es →
  Forall event_typed es →
  l_trace l = [Sent (OConnAck p); Registered] →
  let l' := (ServerSession.run pingInterval clock es l).1 in
  trace (loop cfg s).1 = trace s ++ tr → link encode (l_trace l') s tr →
  ∀ x, x ∈ entries l c → MsgId x.1 ∉ seen_of s → x ∈ entries l' c ∨ settled (C := C) tr (MsgId x.1).
Proof.
  intros Hcodec Hi Hu Hes Hty Hl l' Htr Hlink x Hx Hnew.
  destruct (run_link used es l c p s tr Hcodec Hi Hu Hes Hty Hl Htr Hlink x Hx) as [?|[?|?]]; [by left|done|by right].
Qed.
End end_to_end.

(** *** Everything arrives *)

Section serving.
Context {D : Type} `{SeenStateLaws D} {C : Type} `{AddresseeChecking C}.
Context (cfg : config) (encode : out → string) (Hcodec : decodes encode cfg).

(** A database whose filter does not fail. *)
Definition mindful : Prop := ∀ ns (d : D), is_ok (FilterBySeen ns d).2 = true.

Lemma forward_writes ns (s : @clientSession D C) : writes (forward ns s).1 = writes s.
Proof.
  revert s. induction ns as [|n ns IH]; intros s; [done|]. cbn. unfold mbind, st_bind, CheckForAddressee_.
  destruct (CheckForAddressee n (checker s)) as [c [to|]]; cbn; by rewrite IH.
Qed.

Lemma SetDeadline_Ok (s : @clientSession D C) :
  writes s = [] → SetDeadline cfg s = (upd_writes [] (upd_ticks (Datatypes.S (ticks s)) s), Ok ()).
Proof. intros Hw. destruct (SetDeadline_cases cfg s) as [->|[_ [e He]]]; rewrite Hw in *; [done|by apply not_elem_of_nil in He]. Qed.

Lemma conn_op_Ok e (s : @clientSession D C) :
  writes s = [] → conn_op e s = (upd_trace (trace s ++ e) (upd_writes [] s), Ok ()).
Proof. intros Hw. unfold conn_op, next_write, mbind, st_bind, get, modify; cbn. by rewrite Hw. Qed.

Lemma notifications_Ok m (s : @clientSession D C) :
  mindful → writes s = [] → ∃ s', handleNotifications m s = (s', Ok ()) ∧ writes s' = [].
Proof.
  intros Hm Hw. unfold handleNotifications, mbind, st_bind, st_try, in_seen.
  pose proof (Hm (sm_Notifications m) (SeenState_ s)) as Hok.
  destruct (FilterBySeen (sm_Notifications m) (SeenState_ s)) as [ss [ns|e|]]; [|done..]. cbn in Hok.
  unfold or_fail, fail, modify, WriteMessage, mbind, st_bind, st_try. rewrite conn_op_Ok by done. cbn.
  match goal with |- context [forward ?ns ?s1] =>
    pose proof (forward_writes ns s1) as Hf; destruct (forward_settles ns s1) as (s' & tr & E & _) end.
  rewrite E in Hf |- *. exists s'. split; [done|]. cbn in Hf. by rewrite Hf.
Qed.

Lemma dispatch_notifications m (s : @clientSession D C) :
  sm_Type m = "notifications" → dispatch cfg m s = handleNotifications m s.
Proof.
  intros T. unfold dispatch. rewrite T. rewrite decide_False by done. rewrite decide_False by done. by rewrite decide_True by done.
Qed.

(** The loop of a client that can write and whose database works answers
    each message of notifications with an ACK and settles all it contains. *)
Lemma rounds_serve ms fuel recv (s : @clientSession D C) :
  mindful → Forall (λ m, n_Type m = "notifications") ms →
  reads s = inl ∘ encode ∘ ONotifications <$> ms → writes s = [] → length ms < fuel →
  ∃ tr, trace (loop_rounds cfg fuel recv s).1 = trace s ++ tr ∧ answers tr = replicate (length ms) "ack" ∧
    ∀ id, id ∈ MsgId <$> concat (n_shown <$> ms) → id ∈ seen_of s ∨ settled (C := C) tr id.
Proof.
  intros Hm. revert fuel recv s. induction ms as [|m ms IH]; intros fuel recv s Hty Hr Hw Hf; (destruct fuel as [|fuel]; [cbn in Hf; lia|]);
    cbn [loop_rounds]; unfold mbind at 1, st_bind at 1; rewrite (SetDeadline_Ok s Hw);
    unfold or_fail, fail, ClientSession.ReadMessage, read_frame, emit, mbind, st_bind, st_try, get, modify;
    cbn; rewrite Hr; cbn.
  { exists []. rewrite app_nil_r. split_and!; [done|done|]. by intros id ?%elem_of_nil. }
  apply Forall_cons in Hty as [Ht Hty]. destruct (Hcodec (ONotifications m) recv Ht) as (r & -> & Hmr). cbn.
  match goal with |- context [dispatch cfg r ?s1] =>
    pose proof (dispatch_done cfg r s1) as (Hr' & tr & Ht' & Hd); pose proof (dispatch_notifications r s1 (proj1 Hmr)) as Ed;
    destruct (notifications_Ok r s1 Hm) as (s2 & E & Hw2); [done|] end.
  rewrite <-Ed in E. rewrite E in Hr', Ht', Hd |- *. cbn in Hr', Ht', Hd |- *.
  destruct (IH fuel r s2) as (tr' & Htr & Ha & Hs); [done|done|done|cbn in Hf; lia|].
  exists (Read r :: tr ++ tr'). rewrite Htr, Ht', <-!app_assoc. split; [done|]. split.
  - assert (Hans : answers tr = ["ack"]) by (by eapply (answered_round cfg encode Hcodec (ONotifications m))). cbn. by rewrite answers_app, Hans, Ha.
  - intros id. rewrite fmap_app, elem_of_app. intros [Hid|Hid].
    + assert (id ∈ seen_of s ∨ settled (C := C) tr id) as [?|?] by (by eapply (round_shown cfg encode)); [by left|]. right. apply settled_cons, settled_app. by left.
    + eapply round_settles; [done|]. by apply Hs.
Qed.
End serving.

Section liveness.
Context {S : Type} `{PendingStoreLaws S}.
Context {D : Type} `{SeenStateLaws D} {C : Type} `{AddresseeChecking C}.
Context (pingInterval : Z) (clock : nat → Z) (cfg : config) (encode : out → string).

Lemma delivery_sent ms : loop_sent (delivery_trace ms) = ONotifications <$> ms.
Proof. induction ms as [|m ms IH]; [done|]. cbn. by f_equal. Qed.
Lemma delivery_replies ms : replies (delivery_trace ms) = replicate (length ms) (Some "ack").
Proof. induction ms as [|m ms IH]; [done|]. cbn. by f_equal. Qed.
Lemma delivery_typed ms : Forall sent_typed (delivery_trace ms) → Forall (λ m, n_Type m = "notifications") ms.
Proof. induction ms as [|m ms IH]; [done|]. cbn. intros [Hm [_ ?]%Forall_cons]%Forall_cons. constructor; [done|by apply IH]. Qed.

(** A delivery without failures, for the theorems below. *)
Lemma delivery_arrives (l : ServerSession.loop S) (c : string) (b : bool) (rs : list reply) (s : @clientSession D C) :
  let ns := pending_now clock l c in
  decodes encode cfg → reliable (S := S) → mindful (D := D) →
  UnicastChannel c = Some true → ps_inv (l_world l).1 →
  ns ≠ [] → Forall (λ n, notification_size n ≤ maxPayloadSize)%Z ns →
  l_trace l = [] → l_writes l = [] → l_reads l = replicate (length ns) (Reply (Some "ack")) ++ rs → writes s = [] →
  let l' := (run_event pingInterval clock (EvExchange (Some (Unicast (MkUnicastExchange c b)))) l).1 in
  (run_event pingInterval clock (EvExchange (Some (Unicast (MkUnicastExchange c b)))) l).2 = Ok () ∧
  entries l' c = without_ids ns fst (entries l c) ∧
  (reads s = inl ∘ encode <$> loop_sent (l_trace l') →
   ∃ tr, trace (loop cfg s).1 = trace s ++ tr ∧ replies (l_trace l') = Some <$> answers tr ∧
     ∀ n, n ∈ ns → MsgId n ∈ seen_of s ∨ settled (C := C) tr (MsgId n)).
Proof.
  intros ns Hcodec Hrel Hm Hc Hi Hne Hfit Htr Hw Hr Hws l'.
  destruct (run_event_delivers pingInterval clock l c b rs Hrel Hc Hi Hne Hfit Hr Hw) as (ms & l1 & E & Ht & Hcat & _ & _ & Hlog).
  subst l'. pose proof (typed_run pingInterval clock [EvExchange (Some (Unicast (MkUnicastExchange c b)))] ltac:(by repeat constructor) l) as Hty.
  cbn [ServerSession.run] in Hty. unfold mbind, st_bind in Hty. rewrite E in Hty |- *. cbn [fst snd] in *.
  assert (Ht' : l_trace l1 = delivery_trace ms) by (rewrite Ht, Htr; done).
  assert (Hms : Forall (λ m, n_Type m = "notifications") ms).
  { apply delivery_typed. rewrite <-Ht'. apply Hty. split; [by rewrite Htr|done]. }
  split; [done|]. split.
  { unfold entries. rewrite Hlog. unfold dropped, channel_of. rewrite lookup_alter_eq. by destruct (ps_log _ !! c). }
  rewrite Ht', delivery_sent, delivery_replies. intros Hrd. rewrite <-list_fmap_compose in Hrd.
  unfold loop, setState, modify, get, mbind, st_bind. cbn -[loop_rounds].
  destruct (rounds_serve cfg encode Hcodec ms (Datatypes.S (length (reads s))) zero_serverMsg (upd_state Running s)) as (tr & Htr' & Ha & Hs); try done.
  { rewrite Hrd, length_fmap. lia. }
  exists tr. split; [exact Htr'|]. split; [by rewrite Ha, fmap_replicate|]. intros n Hn. apply Hs.
  rewrite Hcat. by apply list_elem_of_fmap_2.
Qed.

(** C3: Everything arrives. When the server's session takes a unicast
    exchange for a channel with pending notifications, each small enough, and
    neither end's connection or database fails, then the messages it sends,
    read by a client in the order they are sent, get from the client exactly
    the answers that the session went on with; the session is back in its
    loop, nothing is left in the channel of what was pending, and the client
    has handed each notification that it had not seen on to its application,
    or found that the application is not installed. *)
Theorem everything_arrives (l : ServerSession.loop S) (c : string) (b : bool) (rs : list reply) (s : @clientSession D C) :
  let ns := pending_now clock l c in
  decodes encode cfg → reliable (S := S) → mindful (D := D) →
  UnicastChannel c = Some true → ps_inv (l_world l).1 →
  ns ≠ [] → Forall (λ n, notification_size n ≤ maxPayloadSize)%Z ns →
  l_trace l = [] → l_writes l = [] → l_reads l = replicate (length ns) (Reply (Some "ack")) ++ rs → writes s = [] →
  let l' := (run_event pingInterval clock (EvExchange (Some (Unicast (MkUnicastExchange c b)))) l).1 in
  (run_event pingInterval clock (EvExchange (Some (Unicast (MkUnicastExchange c b)))) l).2 = Ok () ∧
  entries l' c = without_ids ns fst (entries l c) ∧
  (reads s = inl ∘ encode <$> loop_sent (l_trace l') →
   ∃ tr, trace (loop cfg s).1 = trace s ++ tr ∧ replies (l_trace l') = Some <$> answers tr ∧
     ∀ n, n ∈ ns → MsgId n ∈ seen_of s ∨ settled (C := C) tr (MsgId n)).
Proof. apply delivery_arrives. Qed.
End liveness.

(** *** An example: a codec, and a session that delivers two notifications *)

Import SeenProps ClientProps.

Fixpoint bits (p : positive) : string :=
  match p with xH => "" | xO p => String "0" (bits p) | xI p => String "1" (bits p) end.
Fixpoint unbits (s : string) : positive :=
  match s with "" => 1%positive | String c s => if decide (c = "1"%char) then xI (unbits s) else xO (unbits s) end.
Lemma unbits_bits p : unbits (bits p) = p.
Proof. induction p as [p IH|p IH|]; cbn [bits unbits]; [rewrite decide_True by done|rewrite decide_False by done|done]; by rewrite IH. Qed.

Definition example_wire (m : out) : serverMsg :=
  let z := zero_serverMsg in
  match m with
  | OBroadcast b =>
      {| sm_Type := b_Type b; sm_ChanId := b_ChanId b; sm_AppId := b_AppId b; sm_TopLevel := b_TopLevel b; sm_Payloads := b_shown b;
         sm_Notifications := []; sm_Reason := ""; sm_SetCookie := "" |}
  | ONotifications n =>
      {| sm_Type := n_Type n; sm_ChanId := ""; sm_AppId := ""; sm_TopLevel := 0; sm_Payloads := []; sm_Notifications := n_shown n;
         sm_Reason := ""; sm_SetCookie := "" |}
  | OOneway m =>
      {| sm_Type := oneway_type m; sm_ChanId := ""; sm_AppId := ""; sm_TopLevel := 0; sm_Payloads := []; sm_Notifications := [];
         sm_Reason := ""; sm_SetCookie := "" |}
  | OPing =>
      {| sm_Type := "ping"; sm_ChanId := ""; sm_AppId := ""; sm_TopLevel := 0; sm_Payloads := []; sm_Notifications := [];
         sm_Reason := ""; sm_SetCookie := "" |}
  | OConnAck _ => z
  end.
Definition tuple_of (m : serverMsg) : string * string * string * Z * list string * list (string * string * string) :=
  (sm_Type m, sm_ChanId m, sm_AppId m, sm_TopLevel m, sm_Payloads m, (λ n, (Msg.AppId n, MsgId n, Payload n)) <$> sm_Notifications m).
Definition of_tuple (t : string * string * string * Z * list string * list (string * string * string)) : serverMsg :=
  let '(T, c, a, top, ps, ns) := t in
  {| sm_Type := T; sm_ChanId := c; sm_AppId := a; sm_TopLevel := top; sm_Payloads := ps;
     sm_Notifications := (λ n, {| Msg.AppId := n.1.1; MsgId := n.1.2; Payload := n.2 |}) <$> ns; sm_Reason := ""; sm_SetCookie := "" |}.
Definition example_encode (m : out) : string := bits (encode (tuple_of (example_wire m))).
Definition example_decode (frame : string) (recv : serverMsg) : option serverMsg := of_tuple <$> decode (unbits frame).

Definition example_cfg : config :=
  {| ExchangeTimeout := 5; HostsCachingExpiryTime := 100; ExpectAllRepairedTime := 50; DeviceId := "dev"; Info := ∅; has_getHost := true;
     fallbackHosts := []; redialDelays := [1%Z; 2%Z]; has_Protocolator := true; ClientSession.clock := Z.of_nat; Unmarshal := example_decode;
     UnmarshalMap := λ _, None; UnmarshalConnAck := λ _, None; ParseDuration := λ _, None |}.

Lemma example_decodes : decodes example_encode example_cfg.
Proof.
  intros m recv Hm. exists (of_tuple (tuple_of (example_wire m))). split.
  - cbn. unfold example_decode, example_encode. by rewrite unbits_bits, decode_encode.
  - assert (Hn : ∀ ns : list Notification, (λ n, {| Msg.AppId := n.1.1; MsgId := n.1.2; Payload := n.2 |}) <$>
      ((λ n, (Msg.AppId n, MsgId n, Payload n)) <$> ns) = ns).
    { intros ns. rewrite <-list_fmap_compose. induction ns as [|[] ns IH]; [done|]. cbn. by f_equal. }
    destruct m as [p| |b|n|[m|m|m]]; cbn in *; try done; split; try done; [rewrite Hm|destruct Hm as [->| ->]|rewrite Hm]; set_solver.
Qed.

Definition example_server (reads : list reply) : ServerSession.loop (gmap string channel) :=
  Loop (example_store, Broker.Session "d" "m" "c" ∅ empty_scratch) (Timer true false) 0 0 reads [] [Sent (OConnAck "10s"); Registered].
Definition example_es : list event := [EvExchange (Some (Unicast (MkUnicastExchange "Ud:d" true)))].
Definition example_server' := (ServerSession.run 10 Z.of_nat example_es (example_server [Reply (Some "ack")])).1.
Definition example_client : @clientSession toyDb () :=
  ClientProps.example_session None 0 true [] [] (inl ∘ example_encode <$> loop_sent (l_trace example_server')) [].

Lemma example_link : link example_encode (l_trace example_server') example_client (trace (loop example_cfg example_client).1).
Proof.
  split.
  - exists 1, []. vm_compute. reflexivity.
  - exists 1. vm_compute. reflexivity.
Qed.

Lemma example_trace : trace (loop example_cfg example_client).1 = trace example_client ++ trace (loop example_cfg example_client).1.
Proof. change (trace example_client) with (@nil cev). rewrite app_nil_l. reflexivity. Qed.

Lemma delivered_end_to_end_witness :
  let x := (Build_Notification "app" "m1" "{}", MkMeta 100 "" false) in
  let tr := trace (loop example_cfg example_client).1 in
  x ∈ entries example_server' "Ud:d" ∨ settled (C := ()) tr "m1".
Proof.
  refine (delivered_end_to_end 10 Z.of_nat example_cfg example_encode [("Ud:d", "m1"); ("Ud:d", "m2")] example_es
    (example_server [Reply (Some "ack")]) "Ud:d" "10s" example_client (trace (loop example_cfg example_client).1) example_decodes
    example_store_inv _ _ _ eq_refl example_trace example_link (Build_Notification "app" "m1" "{}", MkMeta 100 "" false) _ _).
  - intros c' i. change (entries (example_server _) c') with (entries (example_loop []) c').
    rewrite example_entries. unfold channel_of, example_log.
    destruct (decide (c' = "Ud:d")) as [->|].
    + rewrite lookup_singleton_eq. cbn. set_solver.
    + rewrite lookup_singleton_ne by done. cbn. set_solver.
  - by split.
  - by repeat constructor.
  - change (entries (example_server _) "Ud:d") with (entries (example_loop []) "Ud:d").
    rewrite example_entries. unfold channel_of, example_log. rewrite lookup_singleton_eq. cbn. set_solver.
  - intros Hid. by apply elem_of_nil in Hid.
Defined.

(** The same with an in-memory record of what was seen, and no failures. *)
Lemma mem_mindful : mindful (D := memSeenState).
Proof. intros ns d. cbn. unfold mem_FilterBySeen. by destruct (mem_filter_loop _ _ _). Qed.

Definition arriving : ServerSession.loop (gmap string channel) := example_loop [Reply (Some "ack"); Reply (Some "ack")].
Definition arriving_event : event := EvExchange (Some (Unicast (MkUnicastExchange "Ud:d" true))).
Definition arrived : ServerSession.loop (gmap string channel) := (run_event 10 Z.of_nat arriving_event arriving).1.
Definition arriving_client : @clientSession memSeenState () :=
  Sess NewSeenState () None 0 0 0 0 true "" 10 false "cookie" Disconnected false 0 0 true false 0
    [] [] (inl ∘ example_encode <$> loop_sent (l_trace arrived)) [] [] [].

Lemma arriving_pending : pending_now Z.of_nat arriving "Ud:d" = [Build_Notification "app" "m1" "{}"; Build_Notification "app" "m2" "{}"].
Proof. by vm_compute. Qed.

Lemma arriving_reads :
  reads arriving_client = inl ∘ example_encode <$> loop_sent (l_trace
    (run_event 10 Z.of_nat (EvExchange (Some (Unicast (MkUnicastExchange "Ud:d" true)))) arriving).1).
Proof. unfold arriving_client. cbn [reads]. unfold arrived, arriving_event. reflexivity. Qed.

Lemma everything_arrives_witness :
  entries arrived "Ud:d" = without_ids (pending_now Z.of_nat arriving "Ud:d") fst (entries arriving "Ud:d") ∧
  ∃ tr, trace (loop example_cfg arriving_client).1 = trace arriving_client ++ tr ∧
    ∀ n, n ∈ pending_now Z.of_nat arriving "Ud:d" → MsgId n ∈ seen_of arriving_client ∨ settled (C := ()) tr (MsgId n).
Proof.
  destruct (everything_arrives 10 Z.of_nat example_cfg example_encode arriving "Ud:d" true [] arriving_client) as (_ & He & Hc);
    [exact example_decodes|exact InMemory_reliable|exact mem_mindful|done|exact example_store_inv| | |done|done| |done|].
  - by rewrite arriving_pending.
  - rewrite arriving_pending. apply (bool_decide_unpack _). by vm_compute.
  - by rewrite arriving_pending.
  - split; [exact He|]. destruct (Hc arriving_reads) as (tr & Htr & _ & Hs). exists tr. exact (conj Htr Hs).
Defined.

(** Both are handed on. *)
Example arrived_both :
  omap (λ e, match e with PutNotification _ n => Some (MsgId n) | _ => None end) (trace (loop example_cfg arriving_client).1) = ["m1"; "m2"].
Proof. by vm_compute. Qed.
End EndToEnd.
