(* ===== verification/Answering.v ===== *)
(** Why a connection ends: the server's session gives up on a device only for
    a missing or a wrong answer, and the client answers everything; joined,
    the connection stays.

    The setting is that of EndToEnd.v, with ends that do not fail
    themselves. *)

From S2P Require Import Prelude Protocol Store Broker ServerSession SeenState ClientSession EndToEnd.
Import Msg Store StoreSpec Broker SplitProof SeenState.

Module Answering.
Import ServerSession SessionSpec SessionDelivery EndToEnd SeenSpec.

(** *** The session *)

(** What the rest of the server gives a session: no order to end, exchanges
    that were made as the broker makes them. *)
Definition sound_broadcast (sbe : BroadcastExchange) : Prop :=
  in_sN 64 (be_TopLevel sbe) ∧ is_Some (InternalChannelIdToHex (be_ChanId sbe)) ∧
  (be_ChanId sbe = SystemInternalChannelId → length (be_Notifications sbe) ≤ length (be_Decoded sbe)).
Definition lasting (e : event) : Prop :=
  match e with
  | EvExchange None => False
  | EvExchange (Some (ConnMeta m)) => OnewayContinue m = true
  | EvExchange (Some (Broadcast sbe)) => sound_broadcast sbe
  | EvExchange (Some (Unicast sue)) => UnicastChannel (ue_ChanId sue) = Some true
  | _ => True
  end.

Definition right_answer (m : out) (T : option string) : bool :=
  match m with OPing => bool_decide (default "" T = "pong") | _ => bool_decide (T = Some "ack") end.

(** The trace ends in a message that waits for an answer, and there is none
    any more, or it has a wrong one. *)
Definition blamed (rs : list reply) (tr : list tev) : Prop :=
  ∃ tr' m, waits m = true ∧
    (tr = tr' ++ [Sent m] ∧ rs = [] ∨ ∃ T, tr = tr' ++ [Sent m; Received T] ∧ right_answer m T = false).

(** A script of replies, up to the first error, which is as good as its end. *)
Definition is_reply (r : reply) : Prop := match r with Reply _ => True | ReplyErr _ => False end.

Lemma filterByLevel_length a b ns : length (filterByLevel a b ns) ≤ length ns.
Proof. unfold filterByLevel. case_decide; [cbn; lia|]. case_decide; [|done]. rewrite length_drop. lia. Qed.

Section session.
Context {S : Type} `{PendingStoreLaws S}.
Context (pingInterval : Z) (clock : nat → Z).
Implicit Types (l : loop S).

Definition good l : Prop := ps_inv (l_world l).1 ∧ l_writes l = [] ∧ Forall is_reply (l_reads l).
Definition fine (r : loop S * outcome berr ()) : Prop :=
  match r.2 with Ok _ => good r.1 | Err _ => blamed (l_reads r.1) (l_trace r.1) | Panic => False end.

Lemma exchange_cases m c l :
  l_writes l = [] → Forall is_reply (l_reads l) →
  (∃ l' T, exchange clock m true c l = (l', Ok T) ∧ l_trace l' = l_trace l ++ [Sent m; Received T] ∧
     l_reads l = Reply T :: l_reads l' ∧ l_world l' = l_world l ∧ l_writes l' = []) ∨
  (∃ l' e, exchange clock m true c l = (l', Err (ErrWire e)) ∧ l_trace l' = l_trace l ++ [Sent m] ∧ l_reads l' = []).
Proof.
  intros Hw Hr. unfold exchange, mbind, st_bind, WriteMessage, ReadMessage. cbn. rewrite Hw. cbn.
  destruct (l_reads l) as [|[T|e] rs] eqn:Er; cbn; [right; by do 2 eexists| |by inversion Hr].
  left. eexists _, T. split; [done|]. cbn. by rewrite <-app_assoc.
Qed.

Lemma blamed_silent m tr : waits m = true → blamed [] (tr ++ [Sent m]).
Proof. intros Hm. exists tr, m. auto. Qed.
Lemma blamed_wrong m rs tr T : waits m = true → right_answer m T = false → blamed rs (tr ++ [Sent m; Received T]).
Proof. intros Hm HT. exists tr, m. split; [done|]. right. by exists T. Qed.

Lemma quiet_fine (m : st (loop S) berr ()) l : quiet m → good l → fine (m l).
Proof.
  intros Hm (Hi & Hw & Hr). destruct (Hm l) as (l' & [] & -> & _ & Ew & Er & Ewr). split_and!; cbn; congruence.
Qed.

Lemma doPing_fine l : good l → fine (doPing pingInterval clock l).
Proof.
  intros (Hi & Hw & Hrs). unfold doPing. destruct (quiet_Now clock l) as (l0 & t & E0 & Ht0 & Hw0 & Hr0 & Hwr0). erewrite st_bind_Ok by exact E0.
  destruct (exchange_cases OPing false l0) as [(l1 & T & E & Ht & Hr & Hwo & Hwr)|(l1 & e & E & Ht & Hr)]; [congruence|congruence| |].
  - erewrite st_bind_Ok by exact E. case_decide as HT.
    + apply quiet_fine; [apply quiet_reset_|]. rewrite <-Hr0, Hr in Hrs. apply Forall_cons in Hrs as [_ Hrs]. split_and!; congruence.
    + cbn. rewrite Ht. apply blamed_wrong; [done|]. by apply bool_decide_eq_false.
  - unfold mbind, st_bind. rewrite E. cbn. rewrite Ht, Hr. by apply blamed_silent.
Qed.

(** The message of the exchange that runs, in the scratch area. *)
Definition windowed (m : out_msg) (sess : BrokerSession) : Prop :=
  match m with
  | OutBroadcast => b_wf (broadcastMsg (exchgScratch sess)) ∧ in_sN 64 (b_TopLevel (broadcastMsg (exchgScratch sess)))
  | OutNotifications => n_wf (notificationsMsg (exchgScratch sess))
  | OutOneway _ => True
  end.

Lemma windowed_ack m a sess : windowed m sess → windowed m (set_ackMsg a sess).
Proof. by destruct m. Qed.

Lemma Split_windowed m l : windowed m (l_world l).2 →
  ∃ l' d, Split m l = (l', Ok d) ∧ l_trace l' = l_trace l ∧ (l_world l').1 = (l_world l).1 ∧ l_reads l' = l_reads l ∧
    l_writes l' = l_writes l ∧ (d = false → windowed m (l_world l').2).
Proof.
  destruct m as [| |o]; cbn [windowed].
  - intros [Hwf Htop]. pose proof (BroadcastMsg_Split_spec _ Hwf Htop) as Hs. cbn [Split]. unfold mbind, st_bind. cbn.
    destruct (split_scan _ _ _ _); [destruct Hs as (m' & -> & Hwf' & _ & _ & _ & Htl)|destruct Hs as (m' & -> & _)]; cbn;
      eexists _, _; (split; [done|]); split_and!; try done.
    intros _. split; [done|]. cbn. rewrite Htl. apply in_sN_i64.
  - intros Hwf. pose proof (NotificationsMsg_Split_spec _ Hwf) as Hs. cbn [Split]. unfold mbind, st_bind. cbn.
    destruct (split_scan _ _ _ _); [destruct Hs as (m' & -> & Hwf' & _)|destruct Hs as (m' & -> & _)]; cbn;
      eexists _, _; (split; [done|]); by split_and!.
  - intros _. by eexists l, _.
Qed.

Lemma exchange_msg_cases m l :
  l_writes l = [] → Forall is_reply (l_reads l) → (∀ o, m ≠ OutOneway o) →
  (∃ l' T, exchange_msg clock m true l = (l', Ok ()) ∧
     l_trace l' = l_trace l ++ [Sent (deref m (l_world l).2); Received T] ∧ l_reads l = Reply T :: l_reads l' ∧
     (l_world l').1 = (l_world l).1 ∧ l_writes l' = [] ∧ (windowed m (l_world l).2 → windowed m (l_world l').2) ∧
     (T = Some "ack" → acked_type l' = "ack")) ∨
  (∃ l' e, exchange_msg clock m true l = (l', Err (ErrWire e)) ∧ l_trace l' = l_trace l ++ [Sent (deref m (l_world l).2)] ∧ l_reads l' = []).
Proof.
  intros Hw Hrs Hm. unfold exchange_msg. erewrite st_bind_Ok by done.
  destruct (exchange_cases (deref m (l_world l).2) (continues m) l Hw Hrs) as [(l1 & T & E & Ht & Hr & Hwo & Hwr)|(l1 & e & E & Ht & Hr)].
  - left. erewrite st_bind_Ok by exact E. unfold ServerSession.modify. exists (match T with
        | Some T => set_world ((l_world l1).1, set_ackMsg {| ack_Type := T |} (l_world l1).2) l1 | None => l1 end), T.
    split; [done|]. split; [by destruct T|]. split; [by destruct T|]. split; [destruct T; cbn; by rewrite Hwo|]. split; [by destruct T|]. split.
    + rewrite <-Hwo. destruct T; [apply windowed_ack|done].
    + intros ->. done.
  - right. unfold mbind, st_bind. rewrite E. by exists l1, e.
Qed.

Lemma waits_deref m sess : (∀ o, m ≠ OutOneway o) → waits (deref m sess) = true ∧ ∀ T, right_answer (deref m sess) T = bool_decide (T = Some "ack").
Proof. intros Hm. destruct m as [| |o]; [done|done|by destruct (Hm o)]. Qed.

(** [Acked] takes an ACK, and complains of anything else. *)
Lemma Acked_cases e d l :
  reliable (S := S) → lasting (EvExchange (Some e)) → (∀ o, e ≠ ConnMeta o) → ps_inv (l_world l).1 →
  (∃ w, in_world (Acked e d) l = (set_world w l, Ok ()) ∧ ps_inv w.1 ∧ exchgScratch w.2 = exchgScratch (l_world l).2) ∨
  (acked_type l ≠ "ack" ∧ ∃ l' err, in_world (Acked e d) l = (l', Err err) ∧ l_trace l' = l_trace l).
Proof.
  intros Hrel He Hne Hi. unfold in_world, acked_type. destruct e as [sbe|o|sue]; [|by destruct (Hne o)|].
  - cbn [Acked]. unfold BroadcastExchange_Acked, mbind, st_bind, get_session, modify_session. case_decide as Ha.
    + left. eexists. by split.
    + right. split; [done|]. by do 2 eexists.
  - cbn [Acked]. unfold UnicastExchange_Acked, mbind, st_bind, get_session, with_store. case_decide as Ha.
    + destruct (reliable_drop (ue_ChanId sue) (s_elems (n_Notifications (notificationsMsg (exchgScratch (l_world l).2)))) _ Hrel Hi He)
        as (s' & Es & Hi' & _). cbn [fst snd]. rewrite Es. left. eexists. by split.
    + right. split; [done|]. by do 2 eexists.
Qed.

Lemma st_try_Err {E' A} (m : st (loop S) berr A) s s' e : m s = (s', Err e) → st_try (E' := E') m s = (s', Ok (inr e)).
Proof. intros Hm. unfold st_try. by rewrite Hm. Qed.

Lemma send_loop_fine fuel e m answer l :
  reliable (S := S) → lasting (EvExchange (Some e)) → prepared e m answer → good l → windowed m (l_world l).2 →
  length (l_reads l) < fuel → fine (send_loop pingInterval clock fuel e m answer l).
Proof.
  intros Hrel He Hp. revert l. induction fuel as [|fuel IH]; intros l (Hi & Hw & Hrs) Hm Hf; [lia|]. cbn [send_loop].
  destruct (Split_windowed m l Hm) as (l1 & d & E1 & Ht1 & Hw1 & Hr1 & Hwr1 & Hd). erewrite st_bind_Ok by exact E1.
  destruct (decide (answer = true)) as [->|Ha].
  2: { destruct e as [sbe|o|sue]; destruct Hp as [-> ->]; try done. cbn [lasting] in He.
    assert (∃ l2, exchange_msg clock (OutOneway o) false l1 = (l2, Err ErrOneway) ∧ l_world l2 = l_world l1 ∧ l_writes l2 = [] ∧ l_reads l2 = l_reads l1) as (l2 & E2 & Hw2 & Hwr2 & Hr2).
    { unfold exchange_msg, exchange, mbind, st_bind, WriteMessage. cbn. rewrite Hwr1, Hw. cbn. rewrite He. by eexists. }
    erewrite st_bind_Ok by (apply st_try_Err, E2). cbn beta iota. apply quiet_fine; [apply quiet_reset_|]. split_and!; [by rewrite Hw2, Hw1|done|by rewrite Hr2, Hr1]. }
  assert (Hno : (∀ o, m ≠ OutOneway o) ∧ ∀ o, e ≠ ConnMeta o) by (destruct e; destruct Hp as [-> ?]; done). destruct Hno as [Hno Hne].
  destruct (waits_deref m (l_world l1).2 Hno) as [Hwait Hright].
  destruct (exchange_msg_cases m l1) as [(l2 & T & E2 & Ht2 & Hr2 & Hw2 & Hwr2 & Hm2 & HT)|(l2 & err & E2 & Ht2 & Hr2)]; [congruence|congruence|done| |].
  2: { erewrite st_bind_Ok by (apply st_try_Err, E2). cbn. rewrite Ht2, Hr2. by apply blamed_silent. }
  erewrite st_bind_Ok by (apply st_try_Ok, E2). cbn beta iota.
  assert (Hrs2 : Forall is_reply (l_reads l2)) by (rewrite <-Hr1, Hr2 in Hrs; by apply Forall_cons in Hrs as [_ ?]).
  assert (∃ l3, (if d then pingTimerReset pingInterval clock true;; mret () else mret ()) l2
    = (l3, Ok (E := berr) ()) ∧ keeps l2 l3) as (l3 & E3 & Ht3 & Hw3 & Hr3 & Hwr3).
  { destruct d; [destruct (quiet_reset_ pingInterval clock true l2) as (l3 & [] & ? & ?)|]; by eexists. }
  erewrite st_bind_Ok by exact E3.
  destruct (Acked_cases e d l3) as [(w & E4 & Hi4 & Hs4)|(Hnack & l4 & err & E4 & Ht4)]; [done|done|done|by rewrite Hw3, Hw2, Hw1| |].
  - erewrite st_bind_Ok by exact E4. assert (Hg : good (set_world w l3)) by (split_and!; cbn; [done|congruence..]). destruct d; [exact Hg|]. apply IH; [exact Hg|..].
    + cbn. assert (Hm3 : windowed m (l_world l3).2) by (rewrite Hw3; auto). clear -Hm3 Hs4. destruct m; cbn in *; by rewrite ?Hs4.
    + cbn. rewrite Hr3. rewrite <-Hr1, Hr2 in Hf. cbn in Hf. lia.
  - unfold mbind, st_bind. rewrite E4. cbn. rewrite Ht4, Ht3, Ht2. apply blamed_wrong; [done|]. rewrite Hright.
    apply bool_decide_eq_false. intros ->. apply Hnack. unfold acked_type. rewrite Hw3. by apply HT.
Qed.

Lemma Prepare_cases now e (w : S * BrokerSession) :
  reliable (S := S) → lasting (EvExchange (Some e)) → ps_inv w.1 →
  (∃ w', Prepare now e w = (w', Err ErrNop) ∧ ps_inv w'.1) ∨
  ∃ w' m answer, Prepare now e w = (w', Ok (m, answer)) ∧ ps_inv w'.1 ∧ windowed m w'.2.
Proof.
  intros Hrel He Hi. destruct e as [sbe|o|sue]; cbn [Prepare].
  - destruct He as (Htop & [hexId Hh] & Hsys). unfold BroadcastExchange_Prepare, mbind, st_bind, get_session, lift, modify_session.
    destruct (channelFilter _ _ _ _) as [ps|] eqn:Ec; cbn.
    2: { exfalso. unfold channelFilter in Ec. case_decide as Hd; [|done]. case_decide as Hl; [done|]. apply Hl. destruct Hd as [_ Hd].
      etrans; [apply filterByLevel_length|by apply Hsys]. }
    case_match; [left; by eexists|]. rewrite Hh. cbn. right. eexists _, _, _. split; [done|]. split; [done|]. cbn.
    split; [apply initial_window_wf|done].
  - right. eexists _, _, _. split; [done|]. by split.
  - destruct w as [s sess]. destruct (reliable_snapshot now (ue_ChanId sue) s Hrel Hi) as (s' & Es & Hi' & _).
    erewrite BrokerSpec.UnicastExchange_Prepare_spec by exact Es. case_decide; [left; by eexists|].
    right. eexists _, _, _. split; [done|]. split; [done|]. apply initial_window_wf.
Qed.

Lemma run_exchange_fine e l :
  reliable (S := S) → lasting (EvExchange (Some e)) → good l → fine (run_exchange pingInterval clock e l).
Proof.
  intros Hrel He (Hi & Hw & Hrs). unfold run_exchange. destruct (quiet_Now clock l) as (l0 & t & E0 & Ht0 & Hw0 & Hr0 & Hwr0).
  erewrite st_bind_Ok by exact E0. rewrite <-Hw0 in Hi. rewrite <-Hr0 in Hrs. assert (Hwr : l_writes l0 = []) by congruence. clear - Hrel He Hi Hwr Hrs.
  destruct (Prepare_cases t e (l_world l0) Hrel He Hi) as [(w & E & Hi')|(w & m & a & E & Hi' & Hm)].
  - erewrite st_bind_Ok by (apply st_try_Err; unfold in_world; by rewrite E). cbn beta iota.
    destruct (quiet_reset pingInterval clock false (set_world w l0)) as (l1 & ok & E1 & _ & Hw1 & Hr1 & Hwr1). erewrite st_bind_Ok by exact E1.
    assert (good l1) by (split_and!; [by rewrite Hw1|by rewrite Hwr1|by rewrite Hr1]). by destruct ok; [|apply doPing_fine].
  - erewrite st_bind_Ok by (apply st_try_Ok; unfold in_world; by rewrite E). cbn beta iota. erewrite st_bind_Ok by done.
    apply send_loop_fine; [done|done|by eapply Prepare_prepared|done|done|cbn; lia].
Qed.

Lemma run_event_fine used e l :
  reliable (S := S) → lasting e → event_ok used e → kept used "" [] l → good l → fine (run_event pingInterval clock e l).
Proof.
  intros Hrel He Hok Hk Hg. destruct e as [| |[exchg|]|now o]; cbn [run_event].
  - apply quiet_fine; [|done]. apply quiet_modify. intros l'. by destruct (t_armed _).
  - erewrite st_bind_Ok by done. destruct (t_fired _); [|done]. erewrite st_bind_Ok by done. by apply doPing_fine.
  - erewrite st_bind_Ok by done. by apply run_exchange_fine.
  - done.
  - split; [|apply Hg]. by apply (kept_store used "" [] now o l).
Qed.

Lemma run_fine used es l :
  reliable (S := S) → Forall lasting es → events_ok used es → kept used "" [] l → good l →
  fine (run pingInterval clock es l).
Proof.
  intros Hrel Hl. revert used l. induction Hl as [|e es He _ IH]; intros used l Hok Hk Hg; [done|].
  cbn [run]. destruct Hok as [Hoke Hok]. pose proof (run_event_fine used e l Hrel He Hoke Hk Hg) as Hf.
  pose proof (kept_event pingInterval clock used "" [] e Hoke l Hk) as Hk'.
  unfold mbind, st_bind. destruct (run_event pingInterval clock e l) as [l' [[]|err|]]; [|exact Hf|done].
  by eapply IH.
Qed.

(** Every reply that is read is in the trace. *)
Definition tracks {A} (m : st (loop S) berr A) : Prop :=
  ∀ l, Forall is_reply (l_reads l) →
    ∃ k, l_trace (m l).1 = l_trace l ++ k ∧ l_reads l = (Reply <$> replies k) ++ l_reads (m l).1.

Lemma replies_app k k' : replies (k ++ k') = replies k ++ replies k'.
Proof. apply omap_app. Qed.
Lemma tracks_bind {A B} (m : st (loop S) berr A) (f : A → st (loop S) berr B) :
  tracks m → (∀ a, tracks (f a)) → tracks (m ≫= f).
Proof.
  intros Hm Hf l Hl. unfold mbind, st_bind. destruct (Hm l Hl) as (k & Ht & Hr).
  destruct (m l) as [l' [a|e|]]; cbn in *; [|by exists k..].
  rewrite Hr in Hl. apply Forall_app in Hl as [_ Hl]. destruct (Hf a l' Hl) as (k' & Ht' & Hr').
  exists (k ++ k'). rewrite Ht', Ht, <-app_assoc. split; [done|]. by rewrite Hr, Hr', replies_app, fmap_app, <-app_assoc.
Qed.
Lemma tracks_same {A} (m : st (loop S) berr A) :
  (∀ l, l_trace (m l).1 = l_trace l ∧ l_reads (m l).1 = l_reads l) → tracks m.
Proof. intros Hm l _. exists []. destruct (Hm l) as [-> ->]. by rewrite app_nil_r. Qed.
Lemma tracks_quiet {A} (m : st (loop S) berr A) : quiet m → tracks m.
Proof. intros Hm. apply tracks_same. intros l. destruct (Hm l) as (l' & a & -> & ? & _ & ? & _). done. Qed.
Lemma tracks_try {A} (m : st (loop S) berr A) : tracks m → tracks (st_try m : st (loop S) berr _).
Proof. intros Hm l Hl. specialize (Hm l Hl). unfold st_try. by destruct (m l) as [l' [a|e|]]. Qed.
Lemma tracks_in_world {A} (m : st (S * BrokerSession) berr A) : tracks (in_world m).
Proof. apply tracks_same. intros l. unfold in_world. by destruct (m _). Qed.
Lemma tracks_Split m : tracks (Split m).
Proof.
  apply tracks_same. intros l. destruct m; [..|done]; cbn; unfold mbind, st_bind; cbn;
    [by destruct (BroadcastMsg_Split _) as [[]|]|by destruct (NotificationsMsg_Split _) as [[]|]].
Qed.
Lemma tracks_err {A} (e : berr) : tracks (A := A) (st_err e).
Proof. by apply tracks_same. Qed.
Lemma tracks_Write m : tracks (WriteMessage m).
Proof.
  intros l _. unfold WriteMessage. destruct (l_writes l) as [|[e|] ws]; cbn; [by exists [Sent m]|exists []; by rewrite app_nil_r|by exists [Sent m]].
Qed.
Lemma tracks_Read : tracks ReadMessage.
Proof.
  intros l Hl. unfold ReadMessage. destruct (l_reads l) as [|[T|e] rs] eqn:E; cbn; [|by exists [Received T]|by inversion Hl].
  exists []. by rewrite E, app_nil_r.
Qed.
Lemma tracks_exchange m a c : tracks (exchange clock m a c).
Proof.
  unfold exchange. apply tracks_bind; [apply tracks_quiet, quiet_Now|]. intros _. apply tracks_bind; [apply tracks_Write|]. intros _.
  destruct (negb a); [destruct c; apply tracks_err|apply tracks_Read].
Qed.
Lemma tracks_doPing : tracks (doPing pingInterval clock).
Proof.
  unfold doPing. apply tracks_bind; [apply tracks_quiet, quiet_Now|]. intros _. apply tracks_bind; [apply tracks_exchange|].
  intros T. case_decide; [apply tracks_quiet, quiet_reset_|apply tracks_err].
Qed.
Lemma tracks_exchange_msg m a : tracks (exchange_msg clock m a).
Proof.
  unfold exchange_msg. apply tracks_bind; [apply tracks_quiet, quiet_gets|]. intros w. apply tracks_bind; [apply tracks_exchange|].
  intros T. apply tracks_same. by destruct T.
Qed.
Lemma tracks_send_loop fuel e m a : tracks (send_loop pingInterval clock fuel e m a).
Proof.
  induction fuel as [|fuel IH]; cbn [send_loop]; [by apply tracks_same|]. apply tracks_bind; [apply tracks_Split|]. intros d.
  apply tracks_bind; [apply tracks_try, tracks_exchange_msg|]. intros [[]|err]; [|destruct err; try apply tracks_err; apply tracks_quiet, quiet_reset_].
  apply tracks_bind; [apply tracks_quiet; destruct d; [apply quiet_reset_|apply quiet_ret]|]. intros ?.
  apply tracks_bind; [apply tracks_in_world|]. intros ?. destruct d; [by apply tracks_same|exact IH].
Qed.
Lemma tracks_run_event e : tracks (run_event pingInterval clock e).
Proof.
  destruct e as [| |[exchg|]|now o]; cbn [run_event].
  - apply tracks_same. intros l. cbn. by destruct (t_armed _).
  - apply tracks_bind; [apply tracks_quiet, quiet_gets|]. intros []; [|by apply tracks_same].
    apply tracks_bind; [by apply tracks_same|]. intros ?. apply tracks_doPing.
  - apply tracks_bind; [by apply tracks_same|]. intros ?. unfold run_exchange.
    apply tracks_bind; [apply tracks_quiet, quiet_Now|]. intros now. apply tracks_bind; [apply tracks_try, tracks_in_world|].
    intros [[m0 a0]|err].
    + apply tracks_bind; [apply tracks_quiet, quiet_gets|]. intros ?. apply tracks_send_loop.
    + destruct err; try apply tracks_err. apply tracks_bind; [apply tracks_quiet, quiet_reset|]. intros ok.
      destruct (negb ok); [apply tracks_doPing|by apply tracks_same].
  - apply tracks_bind; [by apply tracks_same|]. intros ?. apply tracks_err.
  - by apply tracks_same.
Qed.
Lemma tracks_run es : tracks (run pingInterval clock es).
Proof. induction es as [|e es IH]; cbn [run]; [by apply tracks_same|]. apply tracks_bind; [apply tracks_run_event|]. by intros ?. Qed.
End session.

(** *** What is owed *)

(** The answers a message gets from a client that answers. *)
Definition answer_to (m : out) : list string :=
  match m with OPing => ["pong"] | OBroadcast _ | ONotifications _ => ["ack"] | _ => [] end.
Definition pend (q : pstate) : nat := match q with PPongWait | PAckWait => 1 | _ => 0 end.
Definition owed (tr : list tev) : list string := loop_sent tr ≫= answer_to.

Lemma owed_app k k' : owed (k ++ k') = owed k ++ owed k'.
Proof. unfold owed, loop_sent. by rewrite omap_app, bind_app. Qed.

Lemma proto_unregistered tr q : proto_run PUnregistered tr = Some q → tr = [].
Proof. by destruct tr. Qed.

(** Between rounds there is a reply for each message that waits for one. *)
Lemma replies_owed tr q q' :
  proto_run q tr = Some q' → q' ≠ PUnregistered → q ≠ PStart → length (replies tr) + pend q' = length (owed tr) + pend q.
Proof.
  revert q. induction tr as [|e tr IH]; intros q; cbn [proto_run]; [by intros [= ->]|].
  destruct (proto_step q e) as [q1|] eqn:E; cbn [mbind option_bind]; [|done]. intros Hr Hq Hs.
  assert (Hq1 : q1 ≠ PUnregistered) by (intros ->; pose proof (proto_unregistered _ _ Hr) as ->; cbn in Hr; congruence).
  assert (Hs1 : q1 ≠ PStart) by (intros ->; by destruct q, e as [[]|T| |]; cbn in E; repeat case_match; simplify_eq).
  specialize (IH q1 Hr Hq Hs1). change (e :: tr) with ([e] ++ tr). rewrite owed_app, replies_app, !length_app.
  enough (length (replies [e]) + pend q1 = length (owed [e]) + pend q) by lia.
  clear -E Hq1 Hs. destruct q, e as [[]|T| |]; cbn in E; repeat case_match; simplify_eq; done.
Qed.

Lemma blamed_owes p rs tr q :
  blamed rs ([Sent (OConnAck p); Registered] ++ tr) → proto_run PLoop tr = Some q → ∀ ts,
  (replies tr) ++ ts = Some <$> owed tr → (rs = [] → ts = []) → False.
Proof.
  intros (tr' & m & Hm & Hb) Hp ts Hr Hrs.
  assert (Hcut : ∀ k q1, proto_run PLoop (k ++ [Sent m]) = Some q1 → length (replies k) = length (owed k)).
  { intros k q1 Hk. rewrite proto_run_app in Hk. apply bind_Some in Hk as (q2 & Hk & Hl). cbn in Hl.
    assert (q2 = PLoop) as -> by (destruct q2, m; cbn in Hl, Hm; done).
    pose proof (replies_owed _ _ _ Hk ltac:(done) ltac:(done)) as E. cbn in E. lia. }
  assert (Hone : ∃ a, answer_to m = [a] ∧ right_answer m (Some a) = true) by (destruct m; try done; by eexists).
  destruct Hone as (a & Ha & Hright).
  assert (Hlast : ∀ e, tr' ++ [Sent m] ++ e = [Sent (OConnAck p); Registered] ++ tr → ∃ k, tr = k ++ [Sent m] ++ e).
  { intros e E. destruct tr' as [|x [|y k]]; cbn in E; simplify_eq. by exists k. }
  destruct Hb as [[E ->]|(T & E & HT)].
  - destruct (Hlast [] ltac:(done)) as (k & ->). rewrite app_nil_r in *. pose proof (Hcut _ _ Hp) as Hl.
    rewrite (Hrs eq_refl), app_nil_r in Hr. apply (f_equal length) in Hr.
    rewrite length_fmap, owed_app, replies_app, !length_app in Hr. unfold owed in Hr at 2. cbn in Hr.
    destruct m; cbn in *; try done; lia.
  - destruct (Hlast [Received T] ltac:(done)) as (k & ->). rewrite app_assoc, proto_run_app in Hp. apply bind_Some in Hp as (q1 & Hp & _).
    pose proof (Hcut _ _ Hp) as Hl. rewrite replies_app, owed_app, fmap_app, <-app_assoc in Hr.
    apply app_inj_1 in Hr as [_ Hr]; [|by rewrite length_fmap]. 
    assert (Ho : owed ([Sent m] ++ [Received T]) = [a]) by (unfold owed; destruct m; cbn in *; by simplify_eq).
    rewrite Ho in Hr. cbn in Hr. injection Hr as -> _. by rewrite Hright in HT.
Qed.

(** A session in its loop has sent no order to end. *)
Definition stays (m : out) : Prop := match m with OOneway o => OnewayContinue o = true | _ => True end.
Lemma loop_stays tr q q' : proto_run q tr = Some q' → q' ≠ PStop → q' ≠ PUnregistered → Forall stays (loop_sent tr).
Proof.
  revert q. induction tr as [|e tr IH]; intros q; cbn [proto_run]; [constructor|].
  destruct (proto_step q e) as [q1|] eqn:E; cbn [mbind option_bind]; [|done]. intros Hr Hs Hu. specialize (IH q1 Hr Hs Hu).
  assert (Hq1 : q1 = PStop → False).
  { intros ->. destruct tr as [|e' tr]; cbn in Hr; [congruence|]. destruct e'; cbn in Hr; try done. apply proto_unregistered in Hr as E'. subst tr. cbn in Hr. congruence. }
  destruct e as [m|T| |]; [|exact IH..]. destruct m; try exact IH; (constructor; [|exact IH]); try done.
  cbn. destruct q; cbn in E; try done. destruct (OnewayContinue m); [done|]. injection E as <-. by destruct Hq1.
Qed.

(** Nor has one that ends in a message that waits. *)
Lemma blamed_stays tr p m k q :
  waits m = true → proto_run PLoop k = Some q →
  tr ++ [Sent m] = [Sent (OConnAck p); Registered] ++ k ∨ (∃ T, tr ++ [Sent m; Received T] = [Sent (OConnAck p); Registered] ++ k) →
  Forall stays (loop_sent k).
Proof.
  intros Hm Hp Hb.
  assert (∃ k' e, k = k' ++ [Sent m] ++ e ∧ loop_sent e = []) as (k' & e & -> & He).
  { destruct tr as [|x [|y k']]; destruct Hb as [Hb|(T & Hb)]; cbn in Hb; simplify_eq; [by exists k', []|by exists k', [Received T]]. }
  rewrite app_assoc, proto_run_app in Hp. apply bind_Some in Hp as (q1 & Hp & _).
  assert (q1 ≠ PStop ∧ q1 ≠ PUnregistered) as [].
  { rewrite proto_run_app in Hp. apply bind_Some in Hp as (q2 & _ & Hp). destruct q2, m; cbn in Hp, Hm; simplify_eq; done. }
  rewrite app_assoc. unfold loop_sent in *. rewrite omap_app, He, app_nil_r. by eapply loop_stays.
Qed.

(** *** The client *)

Section client.
Context {D : Type} `{SeenStateLaws D} {C : Type} `{ClientSession.AddresseeChecking C}.
Context (cfg : ClientSession.config) (encode : out → string) (Hcodec : decodes encode cfg).
Abbreviation sess := (@ClientSession.clientSession D C).

(** A database that does not fail. *)
Definition diligent : Prop := mindful (D := D) ∧ ∀ c top (d : D), is_ok (SetLevel c top d).2 = true.

Lemma dispatch_serves r (s : sess) :
  diligent → ClientSession.writes s = [] → ClientSession.sm_Type r ≠ "connbroken" →
  ∃ s', ClientSession.dispatch cfg r s = (s', Ok ()) ∧ ClientSession.writes s' = [].
Proof.
  intros [Hm HL] Hw Hb. unfold ClientSession.dispatch. case_decide.
  { unfold ClientSession.handlePing, ClientSession.or_fail, ClientSession.fail, ClientSession.WriteMessage, ClientSession.clearShouldDelay, ClientSession.modify, mbind, st_bind, st_try.
    rewrite conn_op_Ok by done. by eexists. }
  case_decide.
  { unfold ClientSession.handleBroadcast, mbind, st_bind, st_try, ClientSession.in_seen.
    specialize (HL (ClientSession.sm_ChanId r) (ClientSession.sm_TopLevel r) (ClientSession.SeenState_ s)).
    destruct (SetLevel _ _ (ClientSession.SeenState_ s)) as [ss [[]|e|]]; [|done..].
    unfold ClientSession.or_fail, ClientSession.fail, ClientSession.modify, ClientSession.WriteMessage, mbind, st_bind, st_try.
    rewrite conn_op_Ok by done. cbn. unfold ClientSession.clearShouldDelay, ClientSession.emit, ClientSession.modify; cbn. case_decide; by eexists. }
  case_decide; [by apply notifications_Ok|]. rewrite decide_False by done. case_decide; [|by eexists].
  unfold ClientSession.handleSetParams, ClientSession.setCookie, ClientSession.modify. case_decide; by eexists.
Qed.

Lemma stays_type m r : typed m → stays m → means m r → ClientSession.sm_Type r ≠ "connbroken".
Proof.
  intros Ht Hs Hm Hb. destruct m as [p| |b|n|[o|o|o]]; cbn in *; destruct_and?; try congruence; try done. destruct Ht; congruence.
Qed.

(** A client whose connection and database work answers every message of a
    session that goes on, as it should. *)
Lemma rounds_answer ms fuel recv (s : sess) :
  diligent → Forall typed ms → Forall stays ms →
  ClientSession.reads s = inl ∘ encode <$> ms → ClientSession.writes s = [] → length ms < fuel →
  ∃ tr, ClientSession.trace (ClientSession.loop_rounds cfg fuel recv s).1 = ClientSession.trace s ++ tr ∧ answers tr = ms ≫= answer_to.
Proof.
  intros Hm. revert fuel recv s. induction ms as [|m ms IH]; intros fuel recv s Hty Hst Hr Hw Hf; (destruct fuel as [|fuel]; [cbn in Hf; lia|]);
    cbn [ClientSession.loop_rounds]; unfold mbind at 1, st_bind at 1; rewrite (SetDeadline_Ok cfg s Hw);
    unfold ClientSession.or_fail, ClientSession.fail, ClientSession.ReadMessage, ClientSession.read_frame,
      ClientSession.emit, mbind, st_bind, st_try, ClientSession.get, ClientSession.modify;
    cbn; rewrite Hr; cbn.
  { exists []. by rewrite app_nil_r. }
  apply Forall_cons in Hty as [Ht Hty]. apply Forall_cons in Hst as [Hst1 Hst]. destruct (Hcodec m recv Ht) as (r & -> & Hmr). cbn.
  match goal with |- context [ClientSession.dispatch cfg r ?s1] =>
    pose proof (dispatch_done cfg r s1) as (Hr' & tr & Ht' & Hd);
    destruct (dispatch_serves r s1 Hm) as (s2 & E & Hw2); [done|by eapply stays_type|] end.
  rewrite E in Hr', Ht', Hd |- *. cbn in Hr', Ht', Hd |- *.
  destruct (IH fuel r s2) as (tr' & Htr & Ha); [done|done|done|done|cbn in Hf; lia|].
  exists (ClientSession.Read r :: tr ++ tr'). rewrite Htr, Ht', <-!app_assoc. split; [done|].
  assert (Hans : answers tr = answer_to m).
  { assert (Hans : match m with OPing => answers tr = ["pong"] | OBroadcast _ | ONotifications _ => answers tr = ["ack"]
      | OOneway _ => answers tr = [] | OConnAck _ => False end) by (by eapply (answered_round cfg encode Hcodec m)).
    by destruct m. }
  cbn. by rewrite answers_app, Hans, Ha.
Qed.
End client.

(** *** Joined *)

Section joined.
Context {S : Type} `{PendingStoreLaws S}.
Context {D : Type} `{SeenStateLaws D} {C : Type} `{ClientSession.AddresseeChecking C}.
Context (pingInterval : Z) (clock : nat → Z) (cfg : ClientSession.config) (encode : out → string).

(** C4: A client that answers is kept. Over any sequence of pings, broadcasts,
    unicast deliveries, warnings and operations of others on the store, if
    neither end's connection or database fails, and each end reads what the
    other has written, then the session does not end on its own, whatever is
    split, expires or comes late: it is back in its loop, and has read every
    answer. *)
Theorem answering_client_kept (used : list (string * string)) (es : list event) (l : loop S) (p : string)
    (s : @ClientSession.clientSession D C) :
  decodes encode cfg → reliable (S := S) → diligent (D := D) →
  ps_inv (l_world l).1 → (∀ c' i, i ∈ StoreSpec.ids (entries l c') → (c', i) ∈ used) → events_ok used es →
  Forall event_typed es → Forall lasting es →
  l_trace l = [Sent (OConnAck p); Registered] → l_writes l = [] → ClientSession.writes s = [] →
  let l' := (run pingInterval clock es l).1 in
  let s' := (ClientSession.loop cfg s).1 in
  ClientSession.reads s = inl ∘ encode <$> loop_sent (l_trace l') →
  l_reads l = Reply ∘ Some <$> answers (drop (length (ClientSession.trace s)) (ClientSession.trace s')) →
  (run pingInterval clock es l).2 = Ok () ∧ l_reads l' = [].
Proof.
  intros Hcodec Hrel Hdil Hi Hu Hes Hty Hlast Hl Hw Hws l' s' Hrd Hrp.
  assert (Hrs : Forall is_reply (l_reads l)) by (rewrite Hrp; by apply Forall_fmap, Forall_true).
  assert (Hg : good l) by done. assert (Hk : kept used "" [] l) by (split_and!; [done|done|by intros x ?%elem_of_nil]).
  pose proof (run_fine pingInterval clock used es l Hrel Hlast Hes Hk Hg) as Hf.
  destruct (tracks_run pingInterval clock es l Hrs) as (k & Htr & Hreads). fold l' in Htr, Hreads.
  assert (Hp : ∃ q, proto_run PLoop k = Some q ∧ (is_ok (run pingInterval clock es l).2 = true → q = PLoop)).
  { assert (conf PLoop l) as Hc by (unfold conf; by rewrite Hl). pose proof (run_conf pingInterval clock es l Hc) as Hp.
    unfold l' in Htr. destruct (run pingInterval clock es l) as [l1 [a|e|]]; cbn in Htr;
      [|destruct Hp as (q & Hp & _)..]; unfold conf in Hp; rewrite Htr, Hl in Hp; [by exists PLoop|by exists q..]. }
  destruct Hp as (q & Hp & Hok).
  assert (Htyped : Forall typed (loop_sent k)).
  { assert (Hl0 : all_typed any_world l) by (split; [rewrite Hl; by repeat constructor|done]).
    assert (Hl1 : Forall sent_typed (l_trace l')).
    { pose proof (typed_run pingInterval clock es Hty l Hl0) as Hl1. unfold l'. by destruct (run _ _ es l) as [l1 [a|e|]]; destruct Hl1. }
    rewrite Htr in Hl1. apply Forall_app in Hl1 as [_ Hl1]. clear -Hl1. induction Hl1 as [|e k He _ IH]; [done|]. destruct e as [[]|T| |]; by try constructor. }
  assert (Hsent : loop_sent (l_trace l') = loop_sent k) by (by rewrite Htr, Hl).
  assert (Hq : Forall stays (loop_sent k)).
  { destruct (run pingInterval clock es l) as [l1 [a|e|]] eqn:Er; [|destruct Hf as (tr' & m & Hm & Hb)|done].
    - eapply loop_stays; [exact Hp|..]; by rewrite Hok.
    - unfold l' in Htr. cbn in Hb, Htr. rewrite Htr, Hl in Hb. eapply (blamed_stays tr' p m); [exact Hm|exact Hp|]. destruct Hb as [[Hb _]|(T & Hb & _)]; [by left|right; by exists T]. }
  assert (Howed : l_reads l = Reply ∘ Some <$> owed k).
  { rewrite Hrp. f_equal. unfold s', ClientSession.loop, ClientSession.setState, ClientSession.modify, ClientSession.get, mbind, st_bind. cbn -[ClientSession.loop_rounds].
    destruct (rounds_answer cfg encode Hcodec (loop_sent k) (Datatypes.S (length (ClientSession.reads s))) ClientSession.zero_serverMsg
      (ClientSession.upd_state ClientSession.Running s)) as (tr & Ht & Ha); try done.
    { by rewrite <-Hsent. }
    { rewrite Hrd, length_fmap, Hsent. lia. }
    rewrite Ht. change (ClientSession.trace (ClientSession.upd_state _ s)) with (ClientSession.trace s). by rewrite drop_app_length. }
  assert (Hts : ∃ ts, l_reads l' = Reply <$> ts ∧ replies k ++ ts = Some <$> owed k).
  { rewrite Howed in Hreads. rewrite list_fmap_compose in Hreads. apply fmap_app_inv in Hreads as (r1 & ts & E1 & E2 & E).
    exists ts. split; [done|]. rewrite E. f_equal. assert (Inj (=) (=) Reply) by (by intros ? ? [=]). by apply (inj (fmap (M := list) Reply)). }
  destruct Hts as (ts & Hts & Hsum).
  destruct (run pingInterval clock es l) as [l1 [[]|e|]] eqn:Er; [|exfalso|done].
  - split; [done|]. rewrite Hok in Hp by done. pose proof (replies_owed _ _ _ Hp ltac:(done) ltac:(done)) as E. cbn in E.
    apply (f_equal length) in Hsum. rewrite length_app, length_fmap in Hsum. rewrite Hts. destruct ts; [done|cbn in Hsum; lia].
  - unfold l' in *. cbn in *. rewrite Htr, Hl in Hf. eapply (blamed_owes p); [exact Hf|exact Hp|exact Hsum|].
    intros E. rewrite Hts in E. by destruct ts.
Qed.
End joined.

(** *** An example: a ping, a warning and a delivery *)

Import ClientProps.

Definition kept_es : list event :=
  [EvTimerExpires; EvPing; EvExchange (Some (ConnMeta (ConnWarn {| cw_Type := "warn"; cw_Reason := WarnUnauthorized |})));
   EvExchange (Some (Unicast (MkUnicastExchange "Ud:d" true)))].
Definition kept_server : loop (gmap string channel) :=
  Loop (example_store, Broker.Session "d" "m" "c" ∅ empty_scratch) (Timer true false) 0 0 [Reply (Some "pong"); Reply (Some "ack")] []
    [Sent (OConnAck "10s"); Registered].
Definition kept_server' : loop (gmap string channel) := (run 10 Z.of_nat kept_es kept_server).1.
Definition kept_client : @ClientSession.clientSession memSeenState () :=
  ClientSession.Sess NewSeenState () None 0 0 0 0 true "" 10 false "cookie" ClientSession.Disconnected false 0 0 true false 0
    [] [] (inl ∘ example_encode <$> loop_sent (l_trace kept_server')) [] [] [].

Lemma mem_diligent : diligent (D := memSeenState).
Proof. split; [exact mem_mindful|done]. Qed.

Lemma kept_entries c i : i ∈ StoreSpec.ids (entries kept_server c) → (c, i) ∈ [("Ud:d", "m1"); ("Ud:d", "m2")].
Proof.
  change (entries kept_server c) with (entries (example_loop []) c). rewrite example_entries. unfold channel_of, example_log.
  destruct (decide (c = "Ud:d")) as [->|]; [rewrite lookup_singleton_eq|rewrite lookup_singleton_ne by done]; cbn; set_solver.
Qed.

Lemma kept_reads : ClientSession.reads kept_client = inl ∘ example_encode <$> loop_sent (l_trace (run 10 Z.of_nat kept_es kept_server).1).
Proof. unfold kept_client. cbn [ClientSession.reads]. unfold kept_server'. reflexivity. Qed.

Lemma kept_answers :
  l_reads kept_server = Reply ∘ Some <$> answers (drop (length (ClientSession.trace kept_client))
    (ClientSession.trace (ClientSession.loop example_cfg kept_client).1)).
Proof. by vm_compute. Qed.

Lemma kept_lasting : Forall event_typed kept_es ∧ Forall lasting kept_es.
Proof. split; repeat constructor. Qed.

Lemma answering_client_kept_witness :
  (run 10 Z.of_nat kept_es kept_server).2 = Ok () ∧ l_reads (run 10 Z.of_nat kept_es kept_server).1 = [].
Proof.
  exact (answering_client_kept 10 Z.of_nat example_cfg example_encode [("Ud:d", "m1"); ("Ud:d", "m2")] kept_es kept_server "10s" kept_client
    example_decodes InMemory_reliable mem_diligent example_store_inv kept_entries ltac:(by repeat split) (proj1 kept_lasting) (proj2 kept_lasting)
    eq_refl eq_refl eq_refl kept_reads kept_answers).
Defined.
End Answering.
