(* ===== verification/Reconnect.v ===== *)
(** Connections one after the other: each begins with the handshake of the
    two ends, goes on with their loops, and breaks somewhere; the server keeps
    its store and the device its record of what it has seen.

    The two ends are those of EndToEnd.v. *)

From S2P Require Import Prelude Protocol Store Broker ServerSession SeenState ClientSession EndToEnd Answering.
Import Msg Store StoreSpec Broker SplitProof SeenState.

Module Reconnect.
Import ServerSession SessionSpec SessionDelivery EndToEnd Answering SeenSpec.
Import ClientSession(clientSession, AddresseeChecking, cev, WroteVersion, Wrote, MConnect, Unmarshal, SeenState_, Connection).
Abbreviation trace := ClientSession.trace.
Abbreviation reads := ClientSession.reads.
Abbreviation writes := ClientSession.writes.

(** *** The client *)

Section client.
Context {D : Type} `{SeenStateLaws D} {C : Type} `{AddresseeChecking C}.
Context (cfg : ClientSession.config).
Abbreviation sess := (@clientSession D C).
Abbreviation settled := (EndToEnd.settled (C := C)).

Lemma round_seen m sn sn' tr id : round (C := C) m sn sn' tr → id ∈ sn' → id ∈ sn ∨ settled tr id.
Proof.
  intros Hd Hid. destruct Hd as [_ ->|tr _ -> _|tr _ _ Hn Hsub|_ ->]; try (by left).
  destruct (Hsub id Hid) as [?|Hin]; [by left|]. apply list_elem_of_fmap in Hin as (n & -> & Hin).
  destruct (Hn n Hin) as [?|?]; [by left|]. right. by apply settled_cons.
Qed.

(** A handler fails only on CONNBROKEN, and then records nothing. *)
Lemma dispatch_seen r (s : sess) :
  diligent (D := D) → writes s = [] →
  (∃ s', ClientSession.dispatch cfg r s = (s', Ok ()) ∧ writes s' = []) ∨
  ∃ s' e, ClientSession.dispatch cfg r s = (s', Err e) ∧ SeenState_ s' = SeenState_ s.
Proof.
  intros Hm Hw. destruct (decide (ClientSession.sm_Type r = "connbroken")) as [Hb|Hb]; [|left; by apply dispatch_serves].
  right. unfold ClientSession.dispatch. rewrite Hb. rewrite !decide_False by done. rewrite decide_True by done.
  unfold ClientSession.handleConnBroken, ClientSession.setState, ClientSession.resetHosts, ClientSession.modify, mbind, st_bind.
  case_decide; by do 2 eexists.
Qed.

(** What the loop records as seen it settles, whatever it reads, if its
    connection takes what is written and its database works. *)
Lemma loop_rounds_seen fuel recv (s : sess) :
  diligent (D := D) → writes s = [] → length (reads s) < fuel →
  ∃ tr, trace (ClientSession.loop_rounds cfg fuel recv s).1 = trace s ++ tr ∧
    ∀ id, id ∈ seen_of (ClientSession.loop_rounds cfg fuel recv s).1 → id ∈ seen_of s ∨ settled tr id.
Proof.
  intros Hm. revert recv s. induction fuel as [|fuel IH]; intros recv s Hw Hf; [lia|].
  cbn [ClientSession.loop_rounds]. unfold mbind, st_bind. rewrite !(SetDeadline_Ok cfg s Hw).
  unfold ClientSession.or_fail, ClientSession.fail, ClientSession.ReadMessage, ClientSession.read_frame,
    ClientSession.emit, mbind, st_bind, st_try, ClientSession.get, ClientSession.modify; cbn.
  destruct (reads s) as [|[frame|e] rs] eqn:Er; cbn; [exists []; rewrite app_nil_r; split; [done|by left]| |
    exists []; rewrite app_nil_r; split; [done|by left]].
  destruct (Unmarshal cfg frame recv) as [m|] eqn:Eu; cbn; [|exists []; rewrite app_nil_r; split; [done|by left]].
  match goal with |- context [ClientSession.dispatch cfg m ?s1] =>
    pose proof (dispatch_done cfg m s1) as (Hr & tr & Ht & Hd); destruct (dispatch_seen m s1 Hm) as [(s2 & E & Hw2)|(s2 & e & E & HS)];
    [done|rewrite E in Hr, Ht, Hd |- *..] end; cbn in Hr, Ht, Hd |- *.
  - destruct (IH m s2 Hw2) as (tr' & Ht' & Hs); [rewrite Hr; cbn in Hf; lia|].
    exists (ClientSession.Read m :: tr ++ tr'). rewrite Ht', Ht, <- !app_assoc. split; [done|].
    intros id Hid. destruct (Hs id Hid) as [Hid'|?]; [|right; by apply settled_cons, settled_app; right].
    destruct (round_seen _ _ _ _ _ Hd Hid'); [by left|right; by apply settled_cons, settled_app; left].
  - exists (ClientSession.Read m :: tr). rewrite Ht, <- app_assoc. split; [done|]. unfold seen_of. rewrite HS. by left.
Qed.

Lemma loop_seen (s : sess) :
  diligent (D := D) → writes s = [] →
  ∃ tr, trace (ClientSession.loop cfg s).1 = trace s ++ tr ∧
    ∀ id, id ∈ seen_of (ClientSession.loop cfg s).1 → id ∈ seen_of s ∨ settled tr id.
Proof.
  intros Hm Hw. unfold ClientSession.loop, ClientSession.setState, ClientSession.modify, ClientSession.get, mbind, st_bind. cbn -[ClientSession.loop_rounds].
  exact (loop_rounds_seen (Datatypes.S (length (reads s))) ClientSession.zero_serverMsg (ClientSession.upd_state ClientSession.Running s) Hm Hw ltac:(cbn; lia)).
Qed.

(** [Dial] after the connection: [start], and [loop] in its goroutine. *)
Definition talk : st sess ClientSession.cerr () := ClientSession.start cfg;; ClientSession.loop cfg.

Definition hello (levels : gmap string Z) (s : sess) : ConnectMsg :=
  {| cm_Type := "connect"; cm_ClientVer := ""; cm_DeviceId := ClientSession.DeviceId cfg; cm_Authorization := "";
     cm_Cookie := ClientSession.cookie s; cm_Info := ClientSession.Info cfg; cm_Levels := levels |}.

(** [start] succeeds when the first frame is a CONNACK, and has then sent the
    version and the levels it has on record. *)
Lemma start_cases (s : sess) :
  Connection s = true → writes s = [] →
  let '(s', r) := ClientSession.start cfg s in
  SeenState_ s' = SeenState_ s ∧ writes s' = [] ∧
  match r with
  | Ok _ => ∃ frame ack, reads s = inl frame :: reads s' ∧ ClientSession.UnmarshalConnAck cfg frame = Some ack ∧ ca_Type ack = "connack" ∧
      trace s' = trace s ++ [WroteVersion; Wrote (MConnect (hello (level_view (SeenState_ s)) s))]
  | Err _ => ∃ pre, trace s' = trace s ++ pre ∧ answers pre = []
  | Panic => False
  end.
Proof.
  intros Hc Hw. unfold ClientSession.start, ClientSession.or_fail, ClientSession.fail, ClientSession.time_Now, ClientSession.modify, ClientSession.get, mbind, st_bind, st_try.
  rewrite Hc. cbn. rewrite conn_op_Ok by done. cbn. rewrite conn_op_Ok by done. cbn. rewrite SetDeadline_Ok by done. cbn. unfold ClientSession.in_seen. cbn.
  pose proof (GetAllLevels_law (SeenState_ s)) as HL. destruct (GetAllLevels (SeenState_ s)) as [ss [levels|e|]]; destruct HL as [-> HL]; cbn; [subst levels| |done].
  2: { split_and!; [done|done|]. exists [WroteVersion]. by rewrite app_nil_r. }
  unfold ClientSession.WriteMessage. rewrite conn_op_Ok by done. cbn. unfold ClientSession.read_frame, ClientSession.get, ClientSession.modify, mbind, st_bind. cbn.
  set (m := MConnect _).
  assert (Htr : ((trace s ++ []) ++ [WroteVersion]) ++ [Wrote m] = trace s ++ [WroteVersion; Wrote m]) by (by rewrite app_nil_r, <-app_assoc).
  rewrite Htr.
  destruct (reads s) as [|[frame|e] rs] eqn:Er; cbn; [split_and!; [done|done|by eexists]| |split_and!; [done|done|by eexists]].
  destruct (ClientSession.UnmarshalConnAck cfg frame) as [ack|] eqn:Eu; cbn; [|split_and!; [done|done|by eexists]].
  case_decide; [|cbn; split_and!; [done|done|by eexists]].
  destruct (ClientSession.ParseDuration cfg (ca_PingInterval ack)); cbn; [|split_and!; [done|done|by eexists]].
  unfold ClientSession.started, ClientSession.setState, ClientSession.modify, ClientSession.get, mbind, st_bind. cbn.
  case_decide; cbn; (split_and!; [done|done|]); by exists frame, ack.
Qed.

(** The whole of it: without a CONNACK nothing is answered. *)
Lemma talk_cases (s : sess) :
  diligent (D := D) → Connection s = true → writes s = [] →
  ∃ tr, trace (talk s).1 = trace s ++ tr ∧ (∀ id, id ∈ seen_of (talk s).1 → id ∈ seen_of s ∨ settled tr id) ∧
    (answers tr = [] ∨ ∃ frame s2 tr2, reads s = inl frame :: reads s2 ∧ seen_of s2 = seen_of s ∧
       trace (ClientSession.loop cfg s2).1 = trace s2 ++ tr2 ∧ tr = [WroteVersion; Wrote (MConnect (hello (level_view (SeenState_ s)) s))] ++ tr2).
Proof.
  intros Hm Hc Hw. unfold talk, mbind, st_bind. pose proof (start_cases s Hc Hw) as Hs.
  destruct (ClientSession.start cfg s) as [s2 [[]|e|]]; destruct Hs as (HS & Hw2 & Hs); [| |done].
  - destruct Hs as (frame & ack & Hr & _ & _ & Ht). destruct (loop_seen s2 Hm Hw2) as (tr & Htr & Hseen).
    exists ([WroteVersion; Wrote (MConnect (hello (level_view (SeenState_ s)) s))] ++ tr). rewrite Htr, Ht, <-app_assoc. split; [done|].
    assert (Es : seen_of s2 = seen_of s) by (unfold seen_of; by rewrite HS). split.
    + intros id Hid. destruct (Hseen id Hid) as [?|?]; [left; by rewrite <-Es|right]. by apply settled_app; right.
    + right. exists frame, s2, tr. by rewrite Htr, Ht.
  - destruct Hs as (pre & Ht & Ha). exists pre. split; [done|]. split; [|by left]. intros id. unfold seen_of. cbn. rewrite HS. by left.
Qed.
End client.

(** *** The server *)

Section server.
Context {S : Type} `{PendingStoreLaws S}.
Context (pingInterval : Z) (pis : string) (clock : nat → Z).
Implicit Types (l : loop S).

(** The (channel, message id) pairs handed out by the end of the events. *)
Definition uses (used : list (string * string)) (es : list event) : list (string * string) := foldl event_used used es.

Lemma event_used_sub used e p : p ∈ used → p ∈ event_used used e.
Proof. destruct e as [| | |now o]; try done. destruct o; cbn; try done; apply list_elem_of_further. Qed.
Lemma uses_sub used es p : p ∈ used → p ∈ uses used es.
Proof. revert used. induction es as [|e es IH]; intros used Hp; [done|]. by apply IH, event_used_sub. Qed.

Lemma kept_run_uses used c L0 es :
  events_ok used es → triple (kept used c L0) (run pingInterval clock es) (λ _, kept (uses used es) c L0) (λ _, kept (uses used es) c L0).
Proof.
  revert used. induction es as [|e es IH]; intros used; cbn [run events_ok]; [intros _; by apply triple_ret|]. intros [He Hes].
  eapply triple_bind.
  - eapply triple_fail; [by apply kept_event|]. intros ? l Hl. eapply kept_used; [|exact Hl]. intros p Hp. by apply (uses_sub _ es).
  - intros ?. by apply IH.
Qed.

(** Registering reads the store at most. *)
Definition reads_store (Register : ConnectMsg → st S berr BrokerSession) : Prop :=
  ∀ cm x, ps_inv x → ps_inv (Register cm x).1 ∧ ps_log (Register cm x).1 = ps_log x.

(** A session either ends before its loop, having said no more than CONNACK,
    or runs its loop, on the same pending notifications. *)
Lemma Session_cases version connMsg Register es l :
  reads_store Register → ps_inv (l_world l).1 → l_trace l = [] →
  let l' := (Session pingInterval pis clock version connMsg Register es l).1 in
  (replies (l_trace l') = [] ∧ ps_inv (l_world l').1 ∧ ps_log (l_world l').1 = ps_log (l_world l).1) ∨
  ∃ l1 cm, version = Ok Wire.ProtocolWireVersion ∧ connMsg = Ok cm ∧ l_trace l1 = [Sent (OConnAck pis); Registered] ∧
    ps_inv (l_world l1).1 ∧ ps_log (l_world l1).1 = ps_log (l_world l).1 ∧ l_reads l1 = l_reads l ∧
    l_world l' = l_world (run pingInterval clock es l1).1 ∧
    (l_trace l' = l_trace (run pingInterval clock es l1).1 ∨ l_trace l' = l_trace (run pingInterval clock es l1).1 ++ [Unregistered]).
Proof.
  intros HR Hi Ht. unfold Session. destruct version as [v|e|]; [|left; cbn; by rewrite Ht..].
  case_decide as Hv; [subst v|left; cbn; by rewrite Ht].
  unfold sessionStart, mbind, st_bind. cbn.
  destruct connMsg as [cm|e|]; cbn; [|left; cbn; by rewrite Ht..].
  case_decide; cbn; [|left; by rewrite Ht].
  assert (Hw : ∀ l0, l_trace l0 = [] → ps_inv (l_world l0).1 → ps_log (l_world l0).1 = ps_log (l_world l).1 → l_reads l0 = l_reads l →
    let r := WriteMessage (OConnAck pis) l0 in
    (∃ l1 e, r = (l1, Err e) ∧ l_trace l1 = [] ∧ l_world l1 = l_world l0) ∨
    ∃ l1, r = (l1, Ok ()) ∧ l_trace l1 = [Sent (OConnAck pis)] ∧ l_world l1 = l_world l0 ∧ l_reads l1 = l_reads l).
  { intros l0 Ht0 Hi0 Hl0 Hr0. unfold WriteMessage. destruct (l_writes l0) as [|[e|] ws]; cbn; rewrite Ht0;
      [right; by eexists|left; by do 2 eexists|right; by eexists]. }
  match goal with |- context [WriteMessage _ ?l0] => destruct (Hw l0) as [(l1 & e & -> & Ht1 & Hw1)|(l1 & -> & Ht1 & Hw1 & Hr1)]; [done..|left|] end; clear Hw.
  { cbn. by rewrite Ht1, Hw1. }
  cbn in Hw1. unfold register_session. rewrite Hw1. destruct (HR cm _ Hi) as [HRi HRl].
  destruct (Register cm (l_world l).1) as [x [sess|e|]]; cbn in HRi, HRl; [|left; cbn; by rewrite Ht1..].
  right. unfold with_unregister, sessionLoop, mbind, st_bind, ServerSession.modify. cbn.
  match goal with |- context [run pingInterval clock es ?l0] => exists l0, cm end. cbn. rewrite Ht1, Hr1. split_and!; try done.
  - by destruct (run _ _ es _) as [l2 [[]|e|]].
  - destruct (run _ _ es _) as [l2 [[]|e|]]; [by left|by right..].
Qed.
End server.

(** *** One connection *)

(** All that a session sends, the CONNACK first. *)
Definition all_sent (tr : list tev) : list out := omap (λ e, match e with Sent m => Some m | _ => None end) tr.

Lemma all_sent_loop tr q q' : proto_run q tr = Some q' → q ≠ PStart → all_sent tr = loop_sent tr.
Proof.
  revert q. induction tr as [|e tr IH]; intros q; cbn [proto_run]; [done|].
  destruct (proto_step q e) as [q1|] eqn:E; cbn [mbind option_bind]; [|done]. intros Hr Hq.
  assert (Hq1 : q1 ≠ PStart) by (intros ->; by destruct q, e as [[]|T| |]; cbn in E; repeat case_match; simplify_eq).
  specialize (IH q1 Hr Hq1). destruct e as [m|T| |]; [|exact IH..]. destruct m; cbn in *; try by f_equal. by destruct q.
Qed.

Section connection.
Context {S : Type} `{PendingStoreLaws S}.
Context {D : Type} `{SeenStateLaws D} {C : Type} `{AddresseeChecking C}.
Context (pingInterval : Z) (pis : string) (clock : nat → Z) (cfg : ClientSession.config) (encode : out → string).
Abbreviation sess := (@clientSession D C).
Abbreviation settled := (EndToEnd.settled (C := C)).

Definition pending_in (x : S) (c : string) : list entry := (channel_of (ps_log x) c).2.
Definition covers (used : list (string * string)) (x : S) : Prop := ∀ c i, i ∈ StoreSpec.ids (pending_in x c) → (c, i) ∈ used.

(** The two ends of a connection, from the first byte on. What the server
    reads first is what the client wrote, if anything; the client reads a
    prefix of what the server sent, and then errors; the server's replies are
    a prefix of what the client answered. *)
Record connected (used : list (string * string)) (es : list event) (version : outcome Wire.wire_err Z) (connMsg : outcome Wire.wire_err ConnectMsg)
    (Register : ConnectMsg → st S berr BrokerSession) (l : loop S) (s : sess) (tr : list cev) : Prop := {
  cn_server : l_trace l = [];
  cn_register : reads_store Register;
  cn_events : events_ok used es ∧ Forall event_typed es;
  cn_client : Connection s = true ∧ writes s = [];
  cn_trace : trace (talk cfg s).1 = trace s ++ tr;
  cn_hello : (∀ v, version = Ok v → v = Wire.ProtocolWireVersion ∧ WroteVersion ∈ tr) ∧ (∀ cm, connMsg = Ok cm → Wrote (MConnect cm) ∈ tr);
  cn_frames : let l' := (Session pingInterval pis clock version connMsg Register es l).1 in
    ∃ k errs, reads s = (inl ∘ encode <$> take k (all_sent (l_trace l'))) ++ (inr <$> errs);
  cn_replies : let l' := (Session pingInterval pis clock version connMsg Register es l).1 in
    ∃ j, replies (l_trace l') = Some <$> take j (answers tr);
}.

(** A session's messages are its CONNACK, if it got that far, and those of
    its loop. *)
Lemma session_sent es (l1 l' : loop S) :
  l_trace l1 = [Sent (OConnAck pis); Registered] →
  l_trace l' = l_trace (run pingInterval clock es l1).1 ∨ l_trace l' = l_trace (run pingInterval clock es l1).1 ++ [Unregistered] →
  (all_sent (l_trace l') = [] ∨ ∃ p, all_sent (l_trace l') = OConnAck p :: loop_sent (l_trace (run pingInterval clock es l1).1)) ∧
  replies (l_trace l') = replies (l_trace (run pingInterval clock es l1).1).
Proof.
  intros Ht Hl'. assert (conf PLoop l1) as Hc by (unfold conf; by rewrite Ht).
  pose proof (run_conf pingInterval clock es l1 Hc) as Hp.
  assert (Hq : ∃ q, proto_run PStart (l_trace (run pingInterval clock es l1).1) = Some q).
  { destruct (run _ _ es l1) as [l2 [a|e|]]; [by eexists|by destruct Hp as (q & ? & _); exists q..]. }
  destruct Hq as [q Hq]. set (t := l_trace (run pingInterval clock es l1).1) in *. clearbody t. clear Hp.
  assert (Hsent : all_sent t = [] ∨ ∃ p, all_sent t = OConnAck p :: loop_sent t).
  { destruct t as [|[[p| | | |]| | |] t]; cbn [proto_run proto_step mbind option_bind] in Hq; try done; [by left|].
    right. exists p. cbn. f_equal. by eapply all_sent_loop. }
  destruct Hl' as [->| ->]; [done|]. unfold all_sent in *. rewrite omap_app, replies_app. cbn. by rewrite !app_nil_r.
Qed.

(** One connection loses nothing: what was pending still is, or was seen
    before, or is settled; and what the device now has on record it had
    before, or is settled. *)
Lemma connected_kept used es version connMsg Register l s tr :
  decodes encode cfg → diligent (D := D) → ps_inv (l_world l).1 → covers used (l_world l).1 →
  connected used es version connMsg Register l s tr →
  let x' := (l_world (Session pingInterval pis clock version connMsg Register es l).1).1 in
  ps_inv x' ∧ covers (uses used es) x' ∧
  (∀ c e, e ∈ pending_in (l_world l).1 c → e ∈ pending_in x' c ∨ MsgId e.1 ∈ seen_of s ∨ settled tr (MsgId e.1)) ∧
  (∀ id, id ∈ seen_of (talk cfg s).1 → id ∈ seen_of s ∨ settled tr id).
Proof.
  intros Hcodec Hm Hi Hu [Hl HR [Hok Hty] [Hc Hw] Htr _ Hframes Hreplies] x'.
  destruct (talk_cases cfg s Hm Hc Hw) as (tr' & Htr' & Hseen & Hans). rewrite Htr in Htr'. apply app_inv_head in Htr' as <-.
  pose proof (Session_cases pingInterval pis clock version connMsg Register es l HR Hi Hl) as Hs. cbn zeta in Hs, Hframes, Hreplies.
  subst x'. set (l' := (Session _ _ _ _ _ _ _ _).1) in *. clearbody l'.
  enough (ps_inv (l_world l').1 ∧ covers (uses used es) (l_world l').1 ∧
    (∀ c e, e ∈ pending_in (l_world l).1 c → e ∈ pending_in (l_world l').1 c ∨ MsgId e.1 ∈ seen_of s ∨ settled tr (MsgId e.1))) by tauto.
  destruct Hs as [(_ & Hi' & El)|(l1 & cm & _ & _ & Ht1 & Hi1 & El & _ & Ewo & Et)].
  { unfold covers, pending_in in *. rewrite El. split_and!; [done| |by auto]. intros c i Hin. apply uses_sub. by apply Hu. }
  destruct (session_sent es l1 l' Ht1 Et) as [Hsent Hrep]. set (l2 := (run pingInterval clock es l1).1) in *.
  assert (Hu1 : ∀ c' i, i ∈ StoreSpec.ids (entries l1 c') → (c', i) ∈ used) by (unfold entries; rewrite El; exact Hu).
  assert (Hk : ∀ c, kept (uses used es) c (entries l1 c) l2).
  { intros c. assert (Hk1 : kept used c (entries l1 c) l1) by (split_and!; auto).
    pose proof (kept_run_uses pingInterval clock used c (entries l1 c) es Hok l1 Hk1) as Hr. unfold l2. by destruct (run _ _ es l1) as [l3 [a|e|]]. }
  rewrite Ewo. destruct (Hk "") as (Hi2 & Hu2 & _). split_and!; [done|exact Hu2|]. intros c e He.
  assert (He1 : e ∈ entries l1 c) by (unfold entries; by rewrite El).
  destruct Hreplies as (j & Hj). rewrite Hrep in Hj. destruct Hans as [Ha|(frame & s2 & tr2 & Er & Es & Ht2 & ->)].
  - rewrite Ha, take_nil in Hj. destruct (Hk c) as (_ & _ & Hkc). destruct (Hkc e He1) as [?|Hin]; [by left|].
    rewrite (acked_silent (l_trace l2) Hj) in Hin. by apply elem_of_nil in Hin.
  - destruct Hframes as (k & errs & Hf). rewrite Er in Hf.
    destruct Hsent as [E|(p & E)]; rewrite E in Hf; [rewrite take_nil in Hf; by destruct errs|].
    destruct k as [|k]; [by destruct errs|]. cbn in Hf. injection Hf as _ Hf.
    destruct (run_link pingInterval clock cfg encode used es l1 c pis s2 tr2 Hcodec Hi1 Hu1 Hok Hty Ht1 Ht2) with (x := e) as [?|[?|?]]; [|done|by left|right; left; by rewrite <-Es|].
    { split; [by exists k, errs|]. exists j. exact Hj. }
    right. right. by apply settled_app; right.
Qed.
End connection.

(** *** Many connections *)

Section connections.
Context {S : Type} `{PendingStoreLaws S}.
Context {D : Type} `{SeenStateLaws D} {C : Type} `{AddresseeChecking C}.
Context (pingInterval : Z) (pis : string) (clock : nat → Z) (cfg : ClientSession.config) (encode : out → string).
Abbreviation sess := (@clientSession D C).
Abbreviation settled := (EndToEnd.settled (C := C)).
Abbreviation connected_ := (connected (S := S) (D := D) (C := C) pingInterval pis clock cfg encode).

(** One after the other: each takes the server's store and the device's
    record as the one before left them. What others do to the store between
    two connections is done at the beginning of the next. *)
Inductive connections : list (string * string) → S → D → list cev → list (string * string) → S → D → Prop :=
| cs_done used x d : connections used x d [] used x d
| cs_next used es version connMsg Register l s tr trs used' x' d' :
    connected_ used es version connMsg Register l s tr →
    connections (uses used es) (l_world (Session pingInterval pis clock version connMsg Register es l).1).1
      (SeenState_ (talk cfg s).1) trs used' x' d' →
    connections used (l_world l).1 (SeenState_ s) (tr ++ trs) used' x' d'.

Lemma connections_keep used x d tr used' x' d' :
  decodes encode cfg → diligent (D := D) → connections used x d tr used' x' d' → ps_inv x → covers used x →
  ps_inv x' ∧ (∀ c e, e ∈ pending_in x c → e ∈ pending_in x' c ∨ MsgId e.1 ∈ seen_view d ∨ settled tr (MsgId e.1)) ∧
  (∀ id, id ∈ seen_view d' → id ∈ seen_view d ∨ settled tr id).
Proof.
  intros Hcodec Hm. induction 1 as [used x d|used es version connMsg Register l s tr trs used' x' d' Hc _ IH]; intros Hi Hu; [by split_and!; auto|].
  destruct (connected_kept pingInterval pis clock cfg encode used es version connMsg Register l s tr Hcodec Hm Hi Hu Hc) as (Hi1 & Hu1 & Hk & Hs).
  destruct (IH Hi1 Hu1) as (Hi' & Hk' & Hs'). assert (Hl : ∀ id, settled tr id → settled (tr ++ trs) id) by (intros; apply settled_app; by left).
  assert (Hr : ∀ id, settled trs id → settled (tr ++ trs) id) by (intros; apply settled_app; by right). split_and!; [done|..].
  - intros c e He. destruct (Hk c e He) as [He'|[?|?]]; [|by auto..]. destruct (Hk' c e He') as [?|[Hid|?]]; [by auto| |by auto].
    destruct (Hs _ Hid); auto.
  - intros id Hid. destruct (Hs' id Hid) as [Hid'|?]; [|by auto]. destruct (Hs id Hid'); auto.
Qed.

(** C1: Nothing is lost over reconnections. Through any number of connections,
    each from its handshake to wherever it breaks, on either side and in
    either direction, with the rest of the server going on: a notification
    that was pending at the beginning and that the device had not seen is
    still pending, unless the device has handed one with its id on to its
    application, or found that it is not installed. The device's own writes
    and its database are to work ([unacked_notifications_lost] shows why). *)
Theorem reconnections_lose_nothing used x d tr used' x' d' :
  decodes encode cfg → diligent (D := D) → ps_inv x → covers used x → connections used x d tr used' x' d' →
  ∀ c e, e ∈ pending_in x c → MsgId e.1 ∉ seen_view d → e ∈ pending_in x' c ∨ settled tr (MsgId e.1).
Proof.
  intros Hcodec Hm Hi Hu Hc c e He Hn.
  destruct (connections_keep used x d tr used' x' d' Hcodec Hm Hc Hi Hu) as (_ & Hk & _).
  destruct (Hk c e He) as [?|[?|?]]; [by left|done|by right].
Qed.

(** C2: The first delivery that goes through completes it. After any number
    of connections that broke, a unicast exchange of notifications each of
    which fits a message by itself, in which no write fails and every message
    is acknowledged, with a client that took its record of what it has seen
    through all of them, empties the channel of what is pending; and each of
    those notifications has by then been handed on, in this connection or in
    one before, or its application was found missing, unless the device had
    seen it before the first. *)
Theorem reconnected_delivery used x d tr used' x' d' (l : loop S) (c : string) (b : bool) (rs : list reply) (s : sess) :
  let ns := pending_now clock l c in
  let l' := (run_event pingInterval clock (EvExchange (Some (Unicast (MkUnicastExchange c b)))) l).1 in
  decodes encode cfg → reliable (S := S) → diligent (D := D) → ps_inv x → covers used x → connections used x d tr used' x' d' →
  (l_world l).1 = x' → SeenState_ s = d' →
  UnicastChannel c = Some true → ns ≠ [] → Forall (λ n, notification_size n ≤ maxPayloadSize)%Z ns →
  l_trace l = [] → l_writes l = [] → l_reads l = replicate (length ns) (Reply (Some "ack")) ++ rs → writes s = [] →
  reads s = inl ∘ encode <$> loop_sent (l_trace l') →
  entries l' c = without_ids ns fst (entries l c) ∧
  ∃ tr', trace (ClientSession.loop cfg s).1 = trace s ++ tr' ∧
    ∀ n, n ∈ ns → MsgId n ∈ seen_view d ∨ settled (tr ++ tr') (MsgId n).
Proof.
  intros ns l' Hcodec Hrel Hm Hi Hu Hc Hl Hd Hch Hne Hfit Ht Hw Hr Hws Hrd.
  destruct (connections_keep used x d tr used' x' d' Hcodec Hm Hc Hi Hu) as (Hi' & _ & Hs). rewrite <-Hl in Hi'.
  destruct (delivery_arrives pingInterval clock cfg encode l c b rs s Hcodec Hrel (proj1 Hm) Hch Hi' Hne Hfit Ht Hw Hr Hws) as (_ & He & Hall).
  split; [exact He|]. destruct (Hall Hrd) as (tr' & Htr & _ & Hn). exists tr'. split; [exact Htr|]. intros n Hin.
  destruct (Hn n Hin) as [Hid|Hid]; [|right; by apply settled_app; right]. unfold seen_of in Hid. rewrite Hd in Hid.
  destruct (Hs _ Hid); [by left|right; by apply settled_app; left].
Qed.
End connections.

(** *** An example: an acknowledgement is lost *)

Import ClientProps.

Definition ack_cfg : ClientSession.config :=
  {| ClientSession.ExchangeTimeout := 5; ClientSession.HostsCachingExpiryTime := 100; ClientSession.ExpectAllRepairedTime := 50;
     ClientSession.DeviceId := "d"; ClientSession.Info := ∅; ClientSession.has_getHost := true; ClientSession.fallbackHosts := [];
     ClientSession.redialDelays := [1%Z]; ClientSession.has_Protocolator := true; ClientSession.clock := Z.of_nat; Unmarshal := example_decode;
     ClientSession.UnmarshalMap := λ _, None; ClientSession.UnmarshalConnAck := λ _, Some {| ca_Type := "connack"; ca_PingInterval := "10s" |};
     ClientSession.ParseDuration := λ _, Some 10%Z |}.
Lemma ack_decodes : decodes example_encode ack_cfg.
Proof. exact example_decodes. Qed.

Definition ack_used : list (string * string) := [("Ud:d", "m1"); ("Ud:d", "m2")].
Definition ack_hello : outcome Wire.wire_err ConnectMsg :=
  Ok {| cm_Type := "connect"; cm_ClientVer := ""; cm_DeviceId := "d"; cm_Authorization := ""; cm_Cookie := "cookie"; cm_Info := ∅; cm_Levels := ∅ |}.
Definition ack_Register (_ : ConnectMsg) : st (gmap string channel) berr BrokerSession := mret (Broker.Session "d" "m" "c" ∅ empty_scratch).
Definition ack_loop (x : gmap string channel) (rs : list reply) (tr : list tev) : loop (gmap string channel) :=
  Loop (x, Broker.Session "d" "m" "c" ∅ empty_scratch) (Timer false false) 0 0 rs [] tr.
Definition ack_client (d : memSeenState) (rs : list (string + string)) : @clientSession memSeenState () :=
  ClientSession.Sess d () None 0 0 0 0 true "" 10 false "cookie" ClientSession.Disconnected false 0 0 true false 0 [] [] rs [] [] [].

(** The server sends both notifications and reads nothing back; the device
    got them, and acknowledged them. *)
Definition lost : loop (gmap string channel) := ack_loop example_store [] [].
Definition lost' : loop (gmap string channel) := (Session 10 "10s" Z.of_nat (Ok Wire.ProtocolWireVersion) ack_hello ack_Register example_es lost).1.
Definition lost_client : @clientSession memSeenState () :=
  ack_client NewSeenState (inl ∘ example_encode <$> take 2 (all_sent (l_trace lost'))).
Definition lost_record : memSeenState := SeenState_ (talk ack_cfg lost_client).1.

Lemma lost_trace : trace (talk ack_cfg lost_client).1 = trace lost_client ++ trace (talk ack_cfg lost_client).1.
Proof. change (trace lost_client) with (@nil cev). rewrite app_nil_l. reflexivity. Qed.

Lemma lost_greets : WroteVersion ∈ trace (talk ack_cfg lost_client).1 ∧
  ∀ cm, ack_hello = Ok cm → Wrote (MConnect cm) ∈ trace (talk ack_cfg lost_client).1.
Proof.
  assert (E : trace (talk ack_cfg lost_client).1 = WroteVersion :: Wrote (MConnect (hello ack_cfg ∅ lost_client)) :: drop 2 (trace (talk ack_cfg lost_client).1))
    by (vm_compute; reflexivity).
  rewrite E. split; [by left|]. intros cm [= <-]. by right; left.
Qed.

Lemma lost_connected :
  connected 10 "10s" Z.of_nat ack_cfg example_encode ack_used example_es (Ok Wire.ProtocolWireVersion) ack_hello ack_Register lost lost_client
    (trace (talk ack_cfg lost_client).1).
Proof.
  split.
  - done.
  - intros cm x Hi. by split.
  - split; [by repeat split|by repeat constructor].
  - by split.
  - exact lost_trace.
  - destruct lost_greets as [Hv Hc]. split; [by intros v [= <-]|exact Hc].
  - exists 2, []. unfold lost_client, lost'. cbn [ClientSession.reads ack_client]. by rewrite app_nil_r.
  - exists 0. vm_compute. reflexivity.
Qed.

Lemma lost_covers : covers ack_used example_store.
Proof.
  intros c i. unfold pending_in, ack_used. change (ps_log example_store) with (ps_log (l_world (example_loop [])).1).
  change (channel_of (ps_log (l_world (example_loop [])).1) c).2 with (entries (example_loop []) c).
  rewrite example_entries. unfold channel_of, example_log.
  destruct (decide (c = "Ud:d")) as [->|]; [rewrite lookup_singleton_eq|rewrite lookup_singleton_ne by done]; cbn; set_solver.
Qed.

Lemma lost_connections :
  connections 10 "10s" Z.of_nat ack_cfg example_encode ack_used example_store NewSeenState (trace (talk ack_cfg lost_client).1 ++ [])
    (uses ack_used example_es) (l_world lost').1 lost_record.
Proof.
  exact (cs_next 10 "10s" Z.of_nat ack_cfg example_encode ack_used example_es _ _ _ lost lost_client _ _ _ _ _ lost_connected
    (cs_done 10 "10s" Z.of_nat ack_cfg example_encode _ _ _)).
Qed.

(** Nothing was acknowledged, as the server sees it; the device has both. *)
Example lost_state :
  MsgId ∘ fst <$> pending_in (l_world lost').1 "Ud:d" = ["m1"; "m2"] ∧ "m1" ∈ seen_view lost_record ∧ "m2" ∈ seen_view lost_record.
Proof. split_and!; [vm_compute; reflexivity|apply (bool_decide_unpack _); vm_compute; exact I..]. Qed.

Lemma lost_pending : (Build_Notification "app" "m1" "{}", MkMeta 100 "" false) ∈ pending_in example_store "Ud:d".
Proof. apply (bool_decide_unpack _). vm_compute. exact I. Qed.

Lemma reconnections_lose_nothing_witness :
  (Build_Notification "app" "m1" "{}", MkMeta 100 "" false) ∈ pending_in (l_world lost').1 "Ud:d" ∨
  settled (C := ()) (trace (talk ack_cfg lost_client).1 ++ []) "m1".
Proof.
  refine (reconnections_lose_nothing 10 "10s" Z.of_nat ack_cfg example_encode ack_used example_store NewSeenState _ _ _ _
    ack_decodes mem_diligent example_store_inv lost_covers lost_connections "Ud:d" (Build_Notification "app" "m1" "{}", MkMeta 100 "" false) lost_pending _).
  intros Hid. by apply elem_of_nil in Hid.
Defined.

(** The next connection delivers them again, and gets its acknowledgement:
    the channel is empty, and the application was told of each once. *)
Definition again : loop (gmap string channel) := ack_loop (l_world lost').1 [Reply (Some "ack"); Reply (Some "ack")] [].
Definition again_event : event := EvExchange (Some (Unicast (MkUnicastExchange "Ud:d" true))).
Definition again' : loop (gmap string channel) := (run_event 10 Z.of_nat again_event again).1.

Definition again_client : @clientSession memSeenState () :=
  ack_client lost_record (inl ∘ example_encode <$> loop_sent (l_trace again')).

Lemma again_pending : pending_now Z.of_nat again "Ud:d" = [Build_Notification "app" "m1" "{}"; Build_Notification "app" "m2" "{}"].
Proof. vm_compute. reflexivity. Qed.
Lemma again_reads : reads again_client = inl ∘ example_encode <$> loop_sent (l_trace
  (run_event 10 Z.of_nat (EvExchange (Some (Unicast (MkUnicastExchange "Ud:d" true)))) again).1).
Proof. unfold again_client. cbn [ClientSession.reads ack_client]. unfold again', again_event. reflexivity. Qed.

Lemma reconnected_delivery_witness :
  entries again' "Ud:d" = without_ids (pending_now Z.of_nat again "Ud:d") fst (entries again "Ud:d") ∧
  ∃ tr', trace (ClientSession.loop ack_cfg again_client).1 = trace again_client ++ tr' ∧
    ∀ n, n ∈ pending_now Z.of_nat again "Ud:d" →
      MsgId n ∈ seen_view NewSeenState ∨ settled (C := ()) ((trace (talk ack_cfg lost_client).1 ++ []) ++ tr') (MsgId n).
Proof.
  refine (reconnected_delivery 10 "10s" Z.of_nat ack_cfg example_encode ack_used example_store NewSeenState _ _ _ _ again "Ud:d" true [] again_client
    ack_decodes InMemory_reliable mem_diligent example_store_inv lost_covers lost_connections eq_refl eq_refl eq_refl _ _ eq_refl eq_refl _ eq_refl again_reads).
  - by rewrite again_pending.
  - rewrite again_pending. apply (bool_decide_unpack _). vm_compute. exact I.
  - rewrite again_pending. reflexivity.
Defined.

(** Both left the store, and the second time neither was handed on. *)
Example again_done :
  MsgId ∘ fst <$> entries again' "Ud:d" = [] ∧
  omap (λ e, match e with ClientSession.PutNotification _ n => Some (MsgId n) | _ => None end) (trace (talk ack_cfg lost_client).1) = ["m1"; "m2"] ∧
  omap (λ e, match e with ClientSession.PutNotification _ n => Some (MsgId n) | _ => None end) (trace (ClientSession.loop ack_cfg again_client).1) = [].
Proof. split_and!; vm_compute; reflexivity. Qed.
End Reconnect.
