(* ===== verification/AcceptanceClient.v ===== *)
(** The acceptance client: a second client of the server, used to try it out
    (server/acceptance/acceptanceclient.go, the command cmd/, and kit/: its
    configuration, the client of the HTTP API and the command's loop).

    TLS, JSON, net/http, formatting of addresses and regular expressions are
    parameters; what the network answers is a script. *)

From S2P Require Import Prelude Base64 Protocol SeenState ClientSession Hosts Presenters HttpText HttpTransfer.
Import Msg.

Module Acceptance.
Import ClientSession.

(** *** The session *)

Inductive aev :=
| WireVersion                 (** the version byte is written *)
| Written (m : cmsg)
| Event (text : string)       (** sent to the caller's channel *)
| Closed.

Record config := {
  a_DeviceId : string;
  Model : string;
  ImageChannel : string;
  BuildNumber : Z;
  a_Levels : gmap string Z;
  ReportPings : bool;
  Prefix : string;
  Auth : string;
  ReportSetParams : bool;
  DontClose : bool;
}.

(** The session's cookie, and the script: frames or read errors, write errors. *)
Record asess := { a_cookie : string; a_reads : list (string + string); a_writes : list (option string); a_trace : list aev }.

Abbreviation M := (st asess string).

Definition emit (e : aev) : M unit := λ s,
  ({| a_cookie := a_cookie s; a_reads := a_reads s; a_writes := a_writes s; a_trace := a_trace s ++ [e] |}, Ok ()).
Definition SetCookie (c : string) : M unit := λ s,
  ({| a_cookie := c; a_reads := a_reads s; a_writes := a_writes s; a_trace := a_trace s |}, Ok ()).
Definition GetCookie : M string := λ s, (s, Ok (a_cookie s)).

(** A write, which the script may fail. *)
Definition write (e : aev) : M unit := λ s,
  let s1 tr := {| a_cookie := a_cookie s; a_reads := a_reads s; a_writes := tail (a_writes s); a_trace := tr |} in
  match a_writes s with
  | Some err :: _ => (s1 (a_trace s), Err err)
  | _ => (s1 (a_trace s ++ [e]), Ok ())
  end.
Definition read : M string := λ s,
  let s1 rs := {| a_cookie := a_cookie s; a_reads := rs; a_writes := a_writes s; a_trace := a_trace s |} in
  match a_reads s with
  | [] => (s, Err "EOF")
  | inr e :: rs => (s1 rs, Err e)
  | inl frame :: rs => (s1 rs, Ok frame)
  end.

Section run.
Context (cfg : config).
Context (LocalAddr : string) (ParseDuration : string → option string).
(** [json.Unmarshal] into a message and [json.Marshal] of payloads. *)
Context (Unmarshal : string → serverMsg → option serverMsg) (UnmarshalConnAck : string → option ConnAckMsg).
Context (MarshalPayload : string → option string) (MarshalPayloads : list string → option string).

Definition event (text : string) : M unit := emit (Event (Prefix cfg +:+ text)).
Definition orelse {A} (e : string) (o : option A) : M A := match o with Some a => mret a | None => st_err e end.

Definition connect_info : list (string * jvalue) :=
  [("device", JStr (Model cfg)); ("channel", JStr (ImageChannel cfg))] ++
  (if decide (BuildNumber cfg = -1)%Z then [] else [("build_number", JNum (BuildNumber cfg) 0)]).

(** The parts of a unicast event, in order; the first payload that cannot be
    marshalled ends the run. *)
Fixpoint unicast_parts (ns : list Notification) : option (list string) :=
  match ns with
  | [] => Some []
  | n :: ns =>
      pack ← MarshalPayload (Payload n);
      parts ← unicast_parts ns;
      Some (("app:" +:+ AppId n +:+ " payload:" +:+ pack +:+ ";") :: parts)
  end.

(** One message of the loop. *)
Definition handle (recv : serverMsg) : M unit :=
  let T := sm_Type recv in
  if decide (T = "ping") then
    write (Written MPong);;
    if ReportPings cfg then event "ping" else mret ()
  else if decide (T = "notifications") then
    write (Written (MAck "ack"));;
    parts ← orelse "marshal" (unicast_parts (sm_Notifications recv));
    event ("unicast " +:+ Path.join_with " " parts)
  else if decide (T = "broadcast") then
    write (Written (MAck "ack"));;
    pack ← orelse "marshal" (MarshalPayloads (sm_Payloads recv));
    event ("broadcast chan:" +:+ sm_ChanId recv +:+ " app:" +:+ sm_AppId recv +:+ " topLevel:" +:+
           Transfer.FormatInt (sm_TopLevel recv) +:+ " payloads:" +:+ pack)
  else if decide (T = "warn" ∨ T = "connwarn") then event ("connwarn " +:+ sm_Reason recv)
  else if decide (T = "connbroken") then event ("connbroken " +:+ sm_Reason recv)
  else if decide (T = "setparams") then
    SetCookie (sm_SetCookie recv);;
    if ReportSetParams cfg then event "setparams" else mret ()
  else mret ().

(** The loop, with one variable for all messages; every round takes a frame
    or ends. *)
Fixpoint loop (fuel : nat) (recv : serverMsg) : M unit :=
  match fuel with
  | O => st_panic
  | S fuel =>
      frame ← read;
      recv ← orelse "unmarshal" (Unmarshal frame recv);
      handle recv;;
      loop fuel recv
  end.

Definition connect_msg (cookie : string) : ConnectMsg :=
  {| cm_Type := "connect"; cm_ClientVer := ""; cm_DeviceId := a_DeviceId cfg; cm_Authorization := Auth cfg; cm_Cookie := cookie;
     cm_Info := list_to_map connect_info; cm_Levels := a_Levels cfg |}.

Definition session : M unit :=
  write WireVersion;;
  cookie ← GetCookie;
  write (Written (MConnect (connect_msg cookie)));;
  frame ← read;
  connAck ← orelse "unmarshal" (UnmarshalConnAck frame);
  orelse "duration" (ParseDuration (ca_PingInterval connAck));;
  event ("connected " +:+ LocalAddr);;
  fuel ← (λ s, (s, Ok (S (length (a_reads s)))));
  loop fuel zero_serverMsg.

(** [Run], with the deferred close. *)
Definition Run : M unit := λ s,
  let '(s, r) := session s in
  if DontClose cfg then (s, r)
  else ({| a_cookie := a_cookie s; a_reads := a_reads s; a_writes := a_writes s; a_trace := a_trace s ++ [Closed] |}, r).
End run.
End Acceptance.

(** *** kit/: requests of the API *)
Module Kit.
Import Acceptance.

Record http_request := { Method : string; rq_URL : string; rq_Body : string; ContentLength : Z; ContentType : option string }.

Inductive api_err :=
| APIError (Msg : string) (Body : string)
| ErrNOk
| ErrDo (e : string).

Section api.
Context (ServerAPIURL : string) (MassageRequest : option (http_request → string → http_request)).
(** [http.NewRequest] fails on some URLs; its error is ignored, and the nil
    request it gives is dereferenced. *)
Context (url_ok : string → bool).
(** [httpClient.Do]: an error, or the body, or the error of reading it. *)
Context (Do : http_request → string + (string + string)).
Context (Unmarshal : string → string + gmap string jvalue) (EncodeQuery : gmap string string → string).

Definition readBody (body : string + string) : outcome api_err (gmap string jvalue) :=
  match body with
  | inl e => Err (ErrDo e)
  | inr text => match Unmarshal text with inl e => Err (APIError e text) | inr m => Ok m end
  end.

(** The reply, also with [ErrNOk]. *)
Definition PostRequest (path : string) (message : option string) : outcome unit (option (gmap string jvalue) * option api_err) :=
  match message with
  | None => Panic   (* cannot be marshalled *)
  | Some packed =>
      let url := ServerAPIURL +:+ path in
      if negb (url_ok url) then Panic
      else
        let request := {| Method := "POST"; rq_URL := url; rq_Body := packed; ContentLength := Z.of_nat (String.length packed);
                          ContentType := Some "application/json" |} in
        let request := match MassageRequest with Some f => f request packed | None => request end in
        match Do request with
        | inl e => Ok (None, Some (ErrDo e))
        | inr body =>
            match readBody body with
            | Err e => Ok (None, Some e)
            | Panic => Panic
            | Ok res => Ok (Some res, match res !! "ok" with Some (JBool true) => None | _ => Some ErrNOk end)
            end
        end
  end.

Definition GetRequest (path : string) (params : gmap string string) : outcome api_err (gmap string jvalue) :=
  let url := ServerAPIURL +:+ path +:+ (if decide (params = ∅) then "" else "?" +:+ EncodeQuery params) in
  if negb (url_ok url) then Panic
  else match Do {| Method := "GET"; rq_URL := url; rq_Body := ""; ContentLength := 0; ContentType := None |} with
       | inl e => Err (ErrDo e)
       | inr body => readBody body
       end.
End api.

Record tls_config := { ServerName : string; InsecureSkipVerify : bool; RootCAs : option string }.

Definition MakeTLSConfig (LoadFile : string → string → outcome string string) (AppendCertsFromPEM : string → bool)
    (domain : string) (insecure : bool) (certPEMFile relDir : string) : outcome string tls_config :=
  if negb insecure && negb (bool_decide (certPEMFile = "")) then
    match LoadFile certPEMFile relDir with
    | Err e => Err ("reading cert: " +:+ e)
    | Panic => Panic
    | Ok block =>
        if AppendCertsFromPEM block then Ok {| ServerName := domain; InsecureSkipVerify := insecure; RootCAs := Some block |}
        else Err "could not parse certificate"
    end
  else Ok {| ServerName := domain; InsecureSkipVerify := insecure; RootCAs := None |}.

(** *** kit/: the command's loop *)

Record Configuration := {
  Target : string; Addr : string; Vnode : string; CertPEMFile : string; Insecure : bool; Domain : string;
  APIURL : string; APICertPEMFile : string; k_ReportPings : bool; DeviceModel : string; k_ImageChannel : string; k_BuildNumber : Z
}.

(** How the command ends before it has a session: [log.Fatal], or
    [os.Exit(2)] after the usage. *)
Inductive ending := Fatalf (text : string) | Usage.

Definition PickByTarget (cfg : Configuration) (what productionValue stagingValue : string) : string + string :=
  if decide (Target cfg = "production") then inr productionValue
  else if decide (Target cfg = "staging") then inr stagingValue
  else if decide (Target cfg = "") then inl ("either " +:+ what +:+ " or target must be given")
  else inl "if specified target should be production|staging".

(** Where the session goes, from the configuration and the arguments. *)
Record target := { t_deviceId : string; t_addr : string; t_domain : string; t_api : string }.

Section setup.
Context (get : string → string → gmap string string → outcome api_err (gmap string jvalue)) (err_text : api_err → string).
Context (api_tls : bool → string → option string).   (** the error of making the API's TLS configuration *)

Definition device_id (cfg : Configuration) (args : list string) : outcome ending string :=
  if decide (Vnode cfg = "") then match args with [] => Err Usage | a :: _ => Ok a end
  else if decide (Addr cfg = ":0") then Err (Fatalf "-vnode needs -addr specified")
  else Ok (Addr cfg +:+ "|" +:+ Vnode cfg).

(** The first host of a reply, by type assertions that panic. *)
Definition first_host (m : gmap string jvalue) : outcome ending (string * string) :=
  match m !! "hosts" with
  | Some (JArr (JStr h :: _)) => match m !! "domain" with Some (JStr d) => Ok (h, d) | _ => Panic end
  | _ => Panic
  end.

Definition setup (cfg : Configuration) (args : list string) : outcome ending target :=
  deviceId ← device_id cfg args;
  (if negb (bool_decide (APICertPEMFile cfg = "")) || Insecure cfg
   then match api_tls (Insecure cfg) (APICertPEMFile cfg) with
        | Some e => Err (Fatalf ("api tls config: " +:+ e))
        | None => Ok ()
        end
   else Ok ());;
  api ← (if decide (APIURL cfg = "")
         then match PickByTarget cfg "api" "https://push.ubuntu.com" "https://push.staging.ubuntu.com" with
              | inl e => Err (Fatalf e) | inr u => Ok u
              end
         else Ok (APIURL cfg));
  '(addr, domain) ←
    (if decide (Addr cfg = ":0") then
       let hash := GetHost.hex_string 16 (Murmur.Sum64 (byte_val <$> String.list_ascii_of_string deviceId)) "" in
       match get api "/delivery-hosts" {["h" := hash]} with
       | Err e => Err (Fatalf ("querying hosts: " +:+ err_text e))
       | Panic => Panic
       | Ok hosts => first_host hosts
       end
     else Ok (Addr cfg, Domain cfg));
  mret {| t_deviceId := deviceId; t_addr := addr; t_domain := domain; t_api := api |}.
End setup.

(** The goroutine that takes the events: the calls of [onConnect], and whether
    an event matched, which ends the process with success. *)
Fixpoint take_events (matches : option (string → bool)) (evs : list string) : nat * bool :=
  match evs with
  | [] => (0, false)
  | ev :: evs =>
      let c := if has_prefix ev "connected" then 1 else 0 in
      if match matches with Some f => f ev | None => false end then (c, true)
      else let '(n, b) := take_events matches evs in (c + n, b)
  end.

(** [auth] of the command: the output of a helper, if there is one. *)
Definition auth (AuthHelper : string) (exec : string → string → string + string) (url : string) : outcome ending string :=
  if decide (AuthHelper = "") then Ok ""
  else match exec AuthHelper url with inl e => Err (Fatalf ("auth helper: " +:+ e)) | inr out => Ok (Text.TrimSpace out) end.

Section loop.
Context (session_tls : string → bool → string → option string) (authenticate : string → outcome ending string).
Context (waitFor : string) (Compile : string → string + (string → bool)) (Dial : string → option string).
(** A run of the session: its events, and its error; it does not end without one. *)
Context (run : Acceptance.config → list string * string).

Definition session_config (cfg : Configuration) (t : target) (a : string) : Acceptance.config :=
  {| a_DeviceId := t_deviceId t; Model := DeviceModel cfg; ImageChannel := k_ImageChannel cfg; BuildNumber := k_BuildNumber cfg;
     a_Levels := ∅; ReportPings := k_ReportPings cfg; Prefix := ""; Auth := a; ReportSetParams := false; DontClose := false |}.

(** After the set-up: [None] is the exit with success when an awaited event
    came. The run timeout, which ends the command at any moment, is left out. *)
Definition connect_and_run (cfg : Configuration) (t : target) : outcome ending (option string) :=
  (match session_tls (t_domain t) (Insecure cfg) (CertPEMFile cfg) with
   | Some e => Err (Fatalf ("tls config: " +:+ e)) | None => Ok ()
   end);;
  a ← authenticate "https://push.ubuntu.com/";
  m ← (if decide (waitFor = "") then Ok None
       else match Compile waitFor with
            | inl e => Err (Fatalf ("wait_for regexp: " +:+ e)) | inr f => Ok (Some f)
            end);
  (match Dial (t_addr t) with Some e => Err (Fatalf e) | None => Ok () end);;
  let '(evs, e) := run (session_config cfg t a) in
  if (take_events m evs).2 then Ok None else Err (Fatalf e).

(** The whole command, on what reading the configuration gave. *)
Definition CliLoop (get : string → string → gmap string string → outcome api_err (gmap string jvalue)) (err_text : api_err → string)
    (api_tls : bool → string → option string) (read_config : string + Configuration) (args : list string)
    : outcome ending (option string) :=
  match read_config with
  | inl e => Err (Fatalf ("reading config: " +:+ e))
  | inr cfg => t ← setup get err_text api_tls cfg args; connect_and_run cfg t
  end.
End loop.
End Kit.

(** ** What the client answers *)
Module AcceptanceProps.
Import ClientSession Acceptance.

Definition answer_of (m : serverMsg) : list cmsg :=
  if decide (sm_Type m = "ping") then [MPong]
  else if decide (sm_Type m = "notifications" ∨ sm_Type m = "broadcast") then [MAck "ack"] else [].
Definition written (tr : list aev) : list cmsg := omap (λ e, match e with Written m => Some m | _ => None end) tr.

Section run.
Context (cfg : Acceptance.config) (LocalAddr : string) (ParseDuration : string → option string).
Context (Unmarshal : string → serverMsg → option serverMsg) (UnmarshalConnAck : string → option ConnAckMsg).
Context (MarshalPayload : string → option string) (MarshalPayloads : list string → option string).
#[local] Abbreviation handle_ := (handle cfg MarshalPayload MarshalPayloads).
#[local] Abbreviation loop_ := (loop cfg Unmarshal MarshalPayload MarshalPayloads).

(** Messages read from a script, each into what the one before left. *)
Inductive reads_as : list (string + string) → serverMsg → list serverMsg → Prop :=
| rd_stop rs recv : reads_as rs recv []
| rd_next fr rs recv m ms : Unmarshal fr recv = Some m → reads_as rs m ms → reads_as (inl fr :: rs) recv (m :: ms).

Definition handled_as (m : serverMsg) (s : asess) (r : asess * outcome string unit) : Prop :=
  a_reads r.1 = a_reads s ∧ ∃ tr, a_trace r.1 = a_trace s ++ tr ∧
  match r.2 with Ok _ => written tr = answer_of m | Err _ => written tr = [] ∨ written tr = answer_of m | Panic => False end.

Lemma write_cases e (s : asess) :
  ∃ s1, a_reads s1 = a_reads s ∧
    (write e s = (s1, Ok ()) ∧ a_trace s1 = a_trace s ++ [e] ∨ ∃ err, write e s = (s1, Err err) ∧ a_trace s1 = a_trace s).
Proof. unfold write. destruct (a_writes s) as [|[err|] ws]; eexists; (split; [|eauto]); done. Qed.

Lemma handle_answers m s : handled_as m s (handle_ m s).
Proof.
  unfold handle, handled_as, answer_of, mbind, st_bind, event, orelse, emit.
  destruct (decide (sm_Type m = "ping")).
  { destruct (write_cases (Written MPong) s) as (s1 & Hr & [[-> Ht]|(err & -> & Ht)]).
    - destruct (ReportPings cfg); cbn; (split; [done|]); rewrite Ht, <-?app_assoc; eexists; by split.
    - split; [done|]. exists []. cbn. rewrite app_nil_r. auto. }
  destruct (decide (sm_Type m = "notifications")) as [T|].
  { rewrite decide_True by auto. destruct (write_cases (Written (MAck "ack")) s) as (s1 & Hr & [[-> Ht]|(err & -> & Ht)]).
    - destruct (unicast_parts _ _); cbn; (split; [done|]); rewrite Ht, <-?app_assoc; eexists; (split; [done|]); first [reflexivity|right; reflexivity].
    - split; [done|]. exists []. cbn. rewrite app_nil_r. auto. }
  destruct (decide (sm_Type m = "broadcast")) as [T|].
  { rewrite decide_True by auto. destruct (write_cases (Written (MAck "ack")) s) as (s1 & Hr & [[-> Ht]|(err & -> & Ht)]).
    - destruct (MarshalPayloads _); cbn; (split; [done|]); rewrite Ht, <-?app_assoc; eexists; (split; [done|]); first [reflexivity|right; reflexivity].
    - split; [done|]. exists []. cbn. rewrite app_nil_r. auto. }
  rewrite (decide_False (P := sm_Type m = "notifications" ∨ sm_Type m = "broadcast")) by (by intros [?|?]).
  assert (Hq : ∀ s' tr, a_reads s' = a_reads s → a_trace s' = a_trace s ++ tr → written tr = [] →
    a_reads s' = a_reads s ∧ ∃ tr, a_trace s' = a_trace s ++ tr ∧ written tr = []) by eauto.
  destruct (decide _); [by eapply Hq|]. destruct (decide _); [by eapply Hq|]. destruct (decide _); [|eapply (Hq _ []); rewrite ?app_nil_r; done].
  cbn. destruct (ReportSetParams cfg); [by eapply Hq|eapply (Hq _ []); cbn; rewrite ?app_nil_r; done].
Qed.

(** The loop answers what it reads, each message once and in order; only the
    last may go without its answer, and then the run is over. *)
Theorem acceptance_answers fuel recv s :
  length (a_reads s) < fuel →
  ∃ s' e tr ms, loop_ fuel recv s = (s', Err e) ∧ a_trace s' = a_trace s ++ tr ∧ reads_as (a_reads s) recv ms ∧
    (written tr = ms ≫= answer_of ∨ ∃ ms' m, ms = ms' ++ [m] ∧ written tr = ms' ≫= answer_of).
Proof.
  revert recv s. induction fuel as [|fuel IH]; intros recv s Hf; [lia|]. cbn [loop]. unfold mbind, st_bind, read, orelse.
  destruct (a_reads s) as [|[fr|e] rs] eqn:Er.
  - eexists s, _, [], []. rewrite app_nil_r. split_and!; try done; [by constructor|by left].
  - destruct (Unmarshal fr recv) as [m|] eqn:Eu; cbn.
    2: { eexists _, _, [], []. split; [done|]. cbn. rewrite app_nil_r. split_and!; try done; [by constructor|by left]. }
    match goal with |- context [handle _ _ _ m ?s1] => pose proof (handle_answers m s1) as (Hr & tr & Ht & Ha);
      destruct (handle_ m s1) as [s2 [[]|e|]] end; cbn in Hr, Ht, Ha; [| |done].
    + destruct (IH m s2) as (s' & e & tr' & ms & E & Ht' & Hrd & Hw); [rewrite Hr; cbn in Hf; lia|].
      eexists s', e, (tr ++ tr'), (m :: ms). split; [exact E|]. rewrite Ht', Ht, <-app_assoc. split; [done|].
      rewrite Hr in Hrd. split; [by eapply rd_next|]. unfold written in *. rewrite omap_app, Ha.
      destruct Hw as [->|(ms' & m' & -> & ->)]; [by left|right]. by exists (m :: ms'), m'.
    + eexists s2, e, tr, [m]. split; [done|]. split; [done|]. split; [by eapply rd_next; [done|constructor]|].
      destruct Ha as [->| ->]; [right; by exists [], m|left]. cbn. by rewrite app_nil_r.
  - eexists _, _, [], []. split; [done|]. cbn. rewrite app_nil_r. split_and!; try done; [by constructor|by left].
Qed.
End run.
End AcceptanceProps.
