(* ===== verification/Condition.v ===== *)
(** Conditions for tests (testing/condition/condition.go): strategies that say
    when a double works, which the doubles of the bus consult.

    Conditions are shared by reference (a [Fail2Work] may sit in two chains),
    so they live in a heap and name each other by their position. *)

From S2P Require Import Prelude HttpTransfer Presenters.

Module Condition.

Inductive cond :=
| work (c : bool)
| fail2Work (Left : Z)
| not_ (sub : nat)
| chain (subs : list (nat * Z)).   (** each with its [remaining] *)

Abbreviation heap := (list cond).

Definition alloc (c : cond) (h : heap) : heap * nat := (h ++ [c], length h).
Definition Work (wk : bool) : heap → heap * nat := alloc (work wk).
Definition Fail2Work (n : Z) : heap → heap * nat := alloc (fail2Work n).
Definition Not (sub : nat) : heap → heap * nat := alloc (not_ sub).

(** The arguments of [Chain]; an odd one at the end is dropped, and one of
    the wrong type panics. *)
Inductive arg := AInt (n : Z) | ACond (c : nat).
Fixpoint chain_iters (args : list arg) : option (list (nat * Z)) :=
  match args with
  | AInt rem :: ACond sub :: args => iters ← chain_iters args; Some ((sub, rem) :: iters)
  | _ :: _ :: _ => None
  | _ => Some []
  end.
Definition Chain (args : list arg) (h : heap) : outcome unit (heap * nat) :=
  match chain_iters args with Some iters => Ok (alloc (chain iters) h) | None => Panic end.

(** The part of a chain that is asked: the first that has some left, one less
    afterwards, and otherwise the last. *)
Fixpoint pick (subs : list (nat * Z)) : option (list (nat * Z) * nat) :=
  match subs with
  | [] => None
  | (s, r) :: subs =>
      if decide (0 < r)%Z then Some ((s, (r - 1)%Z) :: subs, s)
      else match subs with
           | [] => Some ([(s, r)], s)
           | _ => '(subs, s') ← pick subs; Some ((s, r) :: subs, s')
           end
  end.

(** [OK], on all kinds of conditions. The last part of an empty chain is a
    nil pointer. *)
Fixpoint OK (fuel : nat) (i : nat) (h : heap) : outcome unit (heap * bool) :=
  match fuel with
  | O => Err ()
  | S fuel =>
      match h !! i with
      | None => Panic
      | Some (work c) => Ok (h, c)
      | Some (fail2Work n) =>
          if decide (0 < n)%Z then Ok (<[i := fail2Work (n - 1)]> h, false) else Ok (h, true)
      | Some (not_ sub) => '(h, b) ← OK fuel sub h; mret (h, negb b)
      | Some (chain subs) =>
          match pick subs with
          | None => Panic
          | Some (subs, s) => OK fuel s (<[i := chain subs]> h)
          end
      end
  end.

(** [String]. *)
Fixpoint String_ (fuel : nat) (h : heap) (i : nat) : string :=
  match fuel, h !! i with
  | S fuel, Some (work c) => if c then "Always Working." else "Never Working."
  | S fuel, Some (fail2Work n) =>
      if decide (0 < n)%Z then "Still Broken, " +:+ Transfer.FormatInt n +:+ " to go." else "Working."
  | S fuel, Some (not_ sub) => "Not " +:+ String_ fuel h sub
  | S fuel, Some (chain subs) =>
      Path.join_with " Then: " ((λ s, Transfer.FormatInt s.2 +:+ " of " +:+ String_ fuel h s.1) <$> subs)
  | _, _ => ""
  end.

(** A row of calls of [OK]. *)
Fixpoint calls (n : nat) (i : nat) (h : heap) : outcome unit (heap * list bool) :=
  match n with
  | O => Ok (h, [])
  | S n => '(h, b) ← OK (S i) i h; '(h, bs) ← calls n i h; mret (h, b :: bs)
  end.
End Condition.

(** ** Laws *)
Module ConditionProps.
Import Condition.

(** Conditions name only older ones, as their constructors see to. *)
Definition refs (c : cond) : list nat :=
  match c with not_ s => [s] | chain subs => subs.*1 | _ => [] end.
Definition built (h : heap) : Prop := ∀ i c, h !! i = Some c → Forall (λ s, s < i) (refs c).
Definition no_empty_chain (h : heap) : Prop := ∀ i, h !! i ≠ Some (chain []).

Lemma pick_some subs : subs ≠ [] → ∃ subs' s, pick subs = Some (subs', s) ∧ subs'.*1 = subs.*1 ∧ s ∈ subs.*1.
Proof.
  induction subs as [|[s r] subs IH]; [done|]. intros _. cbn [pick].
  destruct (decide _); [eexists _, _; split_and!; [done|done|by left]|].
  destruct subs as [|p subs]; [eexists _, _; split_and!; [done|done|by left]|].
  destruct IH as (subs' & s' & -> & Hs & Hin); [done|]. eexists _, _. split_and!; [done|by rewrite !fmap_cons, Hs|by right].
Qed.

Lemma built_insert h i c c' : h !! i = Some c → refs c' = refs c → built h → built (<[i := c']> h).
Proof.
  intros E R B j d. rewrite list_lookup_insert. case_decide as D; [|apply B].
  intros [= <-]. destruct D as [-> _]. rewrite R. by apply B.
Qed.
Lemma nonempty_insert h i c' : c' ≠ chain [] → no_empty_chain h → no_empty_chain (<[i := c']> h).
Proof. intros E B j. rewrite list_lookup_insert. case_decide as D; [congruence|apply B]. Qed.

Lemma built_alloc c h : built h → Forall (λ s, s < length h) (refs c) → built (alloc c h).1.
Proof.
  intros B R j d. cbn. rewrite lookup_app_Some, list_lookup_singleton_Some.
  intros [E|(? & ? & <-)]; [by eapply B|]. replace j with (length h) by lia. done.
Qed.

Lemma chain_refs h i subs s : built h → h !! i = Some (chain subs) → s ∈ subs.*1 → s < i.
Proof. intros B E Hin. pose proof (B _ _ E) as R. cbn [refs] in R. rewrite list.Forall_forall in R. by apply R. Qed.

(** [OK] always answers, and leaves conditions that answer again. *)
Lemma condition_answers fuel i h :
  built h → no_empty_chain h → i < length h → i < fuel →
  ∃ h' b, OK fuel i h = Ok (h', b) ∧ built h' ∧ no_empty_chain h' ∧ length h' = length h.
Proof.
  revert i h. induction fuel as [|fuel IH]; intros i h B N Hi Hf; [lia|]. cbn [OK].
  destruct (lookup_lt_is_Some_2 _ _ Hi) as [c E]. rewrite E. pose proof (B _ _ E) as R.
  destruct c as [c|n|sub|subs]; cbn in R.
  - eauto 10.
  - destruct (decide _); eexists _, _; (split; [done|]); rewrite ?length_insert; split_and!; try done;
      [by eapply built_insert|by apply nonempty_insert].
  - rewrite Forall_singleton in R. cbn in R. destruct (IH sub h) as (h' & b & -> & ?); [done|done|lia|lia|]. cbn. eauto 10.
  - destruct (pick_some subs) as (subs' & s & -> & Hs & Hin); [intros ->; by apply (N i)|].
    assert (s < i) by exact (chain_refs _ _ _ _ B E Hin).
    destruct (IH s (<[i := chain subs']> h)) as (h' & b & -> & ? & ? & L).
    + eapply built_insert; [done..|]. done.
    + apply nonempty_insert; [|done]. intros [= ->]. destruct subs; [by apply (N i)|done].
    + rewrite length_insert. lia.
    + lia.
    + rewrite length_insert in L. eauto 10.
Qed.

Lemma empty_chain_panics h i fuel : h !! i = Some (chain []) → OK (S fuel) i h = Panic.
Proof. intros E. cbn. by rewrite E. Qed.

(** A [Fail2Work] fails as often as it was told to, then works for good. *)
Lemma fail2work_calls n k i h :
  h !! i = Some (fail2Work (Z.of_nat n)) →
  ∃ h', calls (n + k) i h = Ok (h', replicate n false ++ replicate k true).
Proof.
  revert h. induction n as [|n IH]; intros h E.
  - induction k as [|k IH]; [by exists h|]. destruct IH as [h' IH]. cbn [Nat.add calls OK replicate app] in *. rewrite E. cbn [mbind outcome_bind].
    rewrite decide_False by lia. cbn [mbind outcome_bind]. rewrite IH. by exists h'.
  - cbn [Nat.add calls OK]. rewrite E, decide_True by lia. cbn [mbind outcome_bind].
    destruct (IH (<[i := fail2Work (Z.of_nat (S n) - 1)]> h)) as [h' ->]; [|by exists h'].
    rewrite list_lookup_insert_eq by (by eapply lookup_lt_Some). f_equal. f_equal. lia.
Qed.

(** The answers of a chain of constant parts: each as often as it was told. *)
Fixpoint answers (parts : list (bool * nat)) (n : nat) : list bool :=
  match parts with
  | [] => []
  | [(b, _)] => replicate n b
  | (b, k) :: parts => replicate (n `min` k) b ++ answers parts (n - k)
  end.
Definition part_of (h : heap) (p : nat * Z) (q : bool * nat) : Prop := h !! p.1 = Some (work q.1) ∧ p.2 = Z.of_nat q.2.

Fixpoint pick_answer (parts : list (bool * nat)) : option (list (bool * nat) * bool) :=
  match parts with
  | [] => None
  | (b, S k) :: parts => Some ((b, k) :: parts, b)
  | [(b, O)] => Some ([(b, O)], b)
  | (b, O) :: parts => '(parts, c) ← pick_answer parts; Some ((b, O) :: parts, c)
  end.

Lemma pick_answer_cons b p parts : pick_answer ((b, O) :: p :: parts) = '(ps, c) ← pick_answer (p :: parts); Some ((b, O) :: ps, c).
Proof. done. Qed.

Lemma answers_cons b k p parts n : answers ((b, k) :: p :: parts) n = replicate (n `min` k) b ++ answers (p :: parts) (n - k).
Proof. done. Qed.
Lemma answers_0 parts : answers parts 0 = [].
Proof. induction parts as [|[b k] [|p parts] IH]; [done|done|]. by rewrite answers_cons. Qed.
Lemma pick_answer_nonempty parts ps c : pick_answer parts = Some (ps, c) → ps ≠ [].
Proof.
  destruct parts as [|[b [|k]] [|p parts]]; rewrite ?pick_answer_cons; cbn -[pick_answer]; try (intros ? ->; simplify_eq/=; done).
  destruct (pick_answer (p :: parts)) as [[]|]; cbn; intros; by simplify_eq.
Qed.

Lemma answers_step parts n parts' b : pick_answer parts = Some (parts', b) → answers parts (S n) = b :: answers parts' n.
Proof.
  revert parts' b. induction parts as [|[b [|k]] parts IH]; intros parts' c; [done| |].
  - destruct parts as [|p parts]; [by intros E; cbn in E; simplify_eq|]. rewrite pick_answer_cons.
    destruct (pick_answer (p :: parts)) as [[ps d]|] eqn:E; cbn [mbind option_bind]; [|done]. intros [= <- <-].
    apply pick_answer_nonempty in E. destruct ps as [|q ps]; [done|].
    by rewrite !answers_cons, !Nat.min_0_r, !Nat.sub_0_r, (IH _ _ eq_refl).
  - intros E. cbn in E. simplify_eq. by destruct parts.
Qed.

Lemma pick_parts h subs parts :
  Forall2 (part_of h) subs parts → subs ≠ [] →
  ∃ subs' s parts' b, pick subs = Some (subs', s) ∧ pick_answer parts = Some (parts', b) ∧
    h !! s = Some (work b) ∧ Forall2 (part_of h) subs' parts'.
Proof.
  induction 1 as [|[s r] [b k] subs parts [Hw Hr] F IH]; [done|]. intros _. cbn in Hw, Hr. subst r. destruct k as [|k].
  - cbn [pick]. rewrite decide_False by lia. destruct F as [|p q subs parts Hp F].
    + eexists _, _, _, _. split_and!; try done. by repeat constructor.
    + destruct IH as (subs' & s' & parts' & c & E1 & E2 & ? & ?); [done|]. rewrite E1, pick_answer_cons, E2. cbn.
      eexists _, _, _, _. split_and!; try done. by constructor.
  - cbn [pick]. rewrite decide_True by lia. eexists _, _, _, _. split_and!; try done. constructor; [|done].
    split; cbn; [done|lia].
Qed.

(** A chain asks its parts in turn, each as often as it was told to, and the
    last from then on. *)
Theorem chain_in_turn n i h subs parts :
  built h → h !! i = Some (chain subs) → Forall2 (part_of h) subs parts → subs ≠ [] →
  ∃ h', calls n i h = Ok (h', answers parts n).
Proof.
  revert h subs parts. induction n as [|n IH]; intros h subs parts B E F N.
  { exists h. by rewrite answers_0. }
  cbn [calls OK]. rewrite E. destruct (pick_parts _ _ _ F N) as (subs' & s & parts' & b & Hp & Ha & Hs & F').
  rewrite Hp. destruct (pick_some _ N) as (subs2 & s2 & Hp2 & Hr & Hin). rewrite Hp in Hp2. injection Hp2 as <- <-.
  assert (Hlt : s < i) by exact (chain_refs _ _ _ _ B E Hin).
  destruct i as [|i]; [lia|]. cbn [OK]. rewrite list_lookup_insert_ne by lia. rewrite Hs. cbn -[calls].
  destruct (IH (<[S i := chain subs']> h) subs' parts') as [h' ->].
  - eapply built_insert; [done..|]. done.
  - apply list_lookup_insert_eq. by eapply lookup_lt_Some.
  - eapply Forall2_impl; [done|]. intros [j r] [c k] [Hw ?]. split; [|done]. cbn in *.
    rewrite list_lookup_insert_ne; [done|]. intros <-. congruence.
  - intros ->. by destruct subs.
  - cbn. rewrite (answers_step _ _ _ _ Ha). eauto.
Qed.

Example chain_run :
  let '(h, a) := Work true [] in let '(h, b) := Fail2Work 2 h in
  match Chain [AInt 1; ACond a; AInt 3; ACond b; AInt 0; ACond a] h with
  | Ok (h, c) => (String_ (S c) h c, snd <$> match calls 6 c h with Ok r => Some r | _ => None end)
  | _ => ("", None)
  end = ("1 of Always Working. Then: 3 of Still Broken, 2 to go. Then: 0 of Always Working.",
         Some [true; false; false; true; true; true]).
Proof. by vm_compute. Qed.
End ConditionProps.
