(* ===== verification/TestingEndpoint.v ===== *)
(** The bus double (bus/testing/): an endpoint that asks a condition before
    it works, answers calls from a list of return values, hands these or the
    values of a given source to watches, and keeps a record of how it was
    called.

    A watch is a goroutine, with a second one that feeds it when it has no
    source of its own; both, and who cancels the watch, take their steps in
    any order. Channels are unbuffered, so handing over is one step of the
    two. *)

From S2P Require Import Prelude Condition Endpoint.
Import Condition.

Module Double.

(** The arguments that are recorded. *)
Inductive targ := TVal (v : val) | TVals (vs : list val) | TDispatch (methods : list string).
Record callArgs := { c_Member : string; c_Args : list targ }.

(** *** Watches *)

(** Where values come from: a channel of the test, or a feeder of the watch's own. *)
Inductive source := Given (chan : nat) | Own.

(** The watch's goroutine: not started; without a given source, about to take
    an index; receiving; with a value, before its
    callback; out of the loop; after [d]; after the channel [done] was closed. *)
Inductive receiver := RStart | RIndex | RLoop (s : source) | RGot (s : source) (v : list val) | RLeft | REnded | RDone.

(** The feeder: none; started with an index; with values left to send;
    waiting 10ms; out of its loop; after the channel was closed; or the index
    was out of range, which ends the program. *)
Inductive feeder := FNone | FStart (idx : nat) | FSend (vs : list (list val)) | FWait (vs : list (list val)) | FLeft | FClosed | FCrash.

(** [Cancel], under its lock: not called, waiting for [done], returned. *)
Inductive canceller := CNone | CWaiting | CReturned.

Record watch := {
  w_member : string;
  w_recv : receiver;
  w_feed : feeder;
  w_cancel : canceller;      (** [cancelled] is closed once it is not [CNone] *)
  got : list (list val);     (** the calls of [f] *)
  ends : nat;                (** the calls of [d] *)
}.

Definition new_watch (member : string) : watch :=
  {| w_member := member; w_recv := RStart; w_feed := FNone; w_cancel := CNone; got := []; ends := 0 |}.
Definition with_recv (r : receiver) (w : watch) : watch :=
  {| w_member := w_member w; w_recv := r; w_feed := w_feed w; w_cancel := w_cancel w; got := got w; ends := ends w |}.
Definition with_feed (f : feeder) (w : watch) : watch :=
  {| w_member := w_member w; w_recv := w_recv w; w_feed := f; w_cancel := w_cancel w; got := got w; ends := ends w |}.
Definition with_cancel (c : canceller) (w : watch) : watch :=
  {| w_member := w_member w; w_recv := w_recv w; w_feed := w_feed w; w_cancel := c; got := got w; ends := ends w |}.
Definition call_f (v : list val) (w : watch) : watch :=
  {| w_member := w_member w; w_recv := w_recv w; w_feed := w_feed w; w_cancel := w_cancel w; got := got w ++ [v]; ends := ends w |}.
Definition call_d (w : watch) : watch :=
  {| w_member := w_member w; w_recv := w_recv w; w_feed := w_feed w; w_cancel := w_cancel w; got := got w; ends := S (ends w) |}.

Definition cancelled (w : watch) : bool := match w_cancel w with CNone => false | _ => true end.

(** *** The endpoint *)

Record tendpoint := {
  dialCond : nat;
  callCond : nat;
  conds : heap;
  used : nat;
  retvals : list (list val);
  watchSources : gmap string nat;   (** a nil channel is none *)
  calls : list callArgs;
  watches : list watch;
}.

Definition NewMultiValuedTestingEndpoint (dial call : nat) (retvalses : list (list val)) (h : heap) : tendpoint :=
  {| dialCond := dial; callCond := call; conds := h; used := 0; retvals := retvalses; watchSources := ∅; calls := []; watches := [] |}.
Definition NewTestingEndpoint (dial call : nat) (retvals : list val) (h : heap) : tendpoint :=
  NewMultiValuedTestingEndpoint dial call ((λ x, [x]) <$> retvals) h.

Definition with_conds (h : heap) (e : tendpoint) : tendpoint :=
  {| dialCond := dialCond e; callCond := callCond e; conds := h; used := used e; retvals := retvals e;
     watchSources := watchSources e; calls := calls e; watches := watches e |}.
Definition take_used (e : tendpoint) : tendpoint :=
  {| dialCond := dialCond e; callCond := callCond e; conds := conds e; used := S (used e); retvals := retvals e;
     watchSources := watchSources e; calls := calls e; watches := watches e |}.
Definition record_call (c : callArgs) (e : tendpoint) : tendpoint :=
  {| dialCond := dialCond e; callCond := callCond e; conds := conds e; used := used e; retvals := retvals e;
     watchSources := watchSources e; calls := calls e ++ [c]; watches := watches e |}.
Definition with_watches (ws : list watch) (e : tendpoint) : tendpoint :=
  {| dialCond := dialCond e; callCond := callCond e; conds := conds e; used := used e; retvals := retvals e;
     watchSources := watchSources e; calls := calls e; watches := ws |}.

Definition SetWatchSource (member : string) (watchSource : option nat) (e : tendpoint) : tendpoint :=
  {| dialCond := dialCond e; callCond := callCond e; conds := conds e; used := used e; retvals := retvals e;
     watchSources := match watchSource with Some c => <[member := c]> (watchSources e) | None => delete member (watchSources e) end;
     calls := calls e; watches := watches e |}.
Definition GetCallArgs (e : tendpoint) : list callArgs := calls e.

(** [cond.OK()] *)
Definition ask (c : nat) (e : tendpoint) : tendpoint * outcome string bool :=
  match OK (S c) c (conds e) with
  | Ok (h, b) => (with_conds h e, Ok b)
  | Err _ | Panic => (e, Panic)
  end.

Abbreviation M := (st tendpoint string).
Definition modify (f : tendpoint → tendpoint) : M unit := λ e, (f e, Ok ()).
Definition get {A} (f : tendpoint → A) : M A := λ e, (e, Ok (f e)).

Definition Dial : M unit :=
  c ← get dialCond; ok ← ask c;
  if ok : bool then mret () else st_err "dialCond said No.".

(** [WatchSignal]: the watch and its goroutine. *)
Definition WatchSignal (member : string) : M nat :=
  c ← get callCond; ok ← ask c;
  if ok : bool then
    n ← get (length ∘ watches);
    modify (λ e, with_watches (watches e ++ [new_watch member]) e);;
    mret n
  else st_err "no way".
Definition WatchProperties : M nat := WatchSignal "PropertiesChanged".

(** [translate]: the callback of [WatchProperties]; the type assertions panic. *)
Definition translate (vals : list val) : outcome string (list (string * val) * list string) :=
  match vals with VMap changed :: VStrs invalidated :: _ => Ok (changed, invalidated) | _ => Panic end.

Section calls.
Context `{Lib : DBusLib}.

(** [Call], for [expected] results that [Args] decodes; nothing is decoded
    when nothing is expected. *)
Definition Call {A} (Args : list val → outcome string A) (expected : nat) (member : string) (args : list val) : M (option A) :=
  modify (record_call {| c_Member := member; c_Args := TVal <$> args |});;
  c ← get callCond; ok ← ask c;
  if ok : bool then
    idx ← get used;
    modify take_used;;
    rvs ← get retvals;
    match rvs !! idx with
    | None => if decide (expected = 0) then mret None else st_panic   (** "No return values provided!" *)
    | Some vals =>
        if decide (length vals = expected) then
          if decide (length vals = 0) then mret None
          else match AppendArgs vals with
               | Some err => st_err err
               | None => match Args vals with Ok a => mret (Some a) | Err err => st_err err | Panic => st_panic end
               end
        else st_err "provided/expected return vals mismatch"
    end
  else st_err "no way".

(** One result of any type, as the library decodes it. *)
Definition GetProperty (Args_any : list val → outcome string val) (property : string) : M (option val) := Call Args_any 1 property [].
End calls.

(** What only leaves a record. *)
Definition SetProperty (property suffix : string) (value : val) : M unit :=
  modify (record_call {| c_Member := "::SetProperty"; c_Args := [TVal (VStr property); TVal (VStr suffix); TVal value] |}).
Definition Close : M unit := modify (record_call {| c_Member := "::Close"; c_Args := [] |}).
(** The channel that is returned is nil. *)
Definition GrabName (allowReplacement : bool) : M unit :=
  modify (record_call {| c_Member := "::GrabName"; c_Args := [TVal (VBool allowReplacement)] |}).
Definition WatchMethod (dispatch : list string) (extra : list val) : M unit :=
  modify (record_call {| c_Member := "::WatchMethod"; c_Args := [TDispatch dispatch; TVals extra] |}).
Definition Signal (member suffix : string) (args : list val) : M unit :=
  modify (record_call {| c_Member := "::Signal"; c_Args := [TVal (VStr member); TVal (VStr suffix); TVals args] |}).

(** *** The bus (testing_bus.go): one endpoint for every address *)
Record testingBus := { endp : tendpoint }.
Definition NewTestingBus (dial call : nat) (retvals : list val) (h : heap) : testingBus := {| endp := NewTestingEndpoint dial call retvals h |}.
Definition NewMultiValuedTestingBus (dial call : nat) (retvalses : list (list val)) (h : heap) : testingBus :=
  {| endp := NewMultiValuedTestingEndpoint dial call retvalses h |}.
Definition bus_Endpoint (tb : testingBus) (info : Address) : tendpoint := endp tb.

(** *** Running *)

(** The steps of a watch. *)
Inductive act :=
| Start              (** the goroutine looks up its source *)
| TakeIndex          (** [idx := tc.used; tc.used++] *)
| FeedStart          (** [tc.retvals[idx:]] *)
| Hand               (** [source <- v] meets [v, ok := <-source] *)
| Pause              (** the 10ms have passed *)
| FeedCancelled | FeedExhausted | CloseSource
| Take (v : list val)   (** a value of a given channel *)
| SourceClosed | RecvCancelled
| Callback | CallD | CloseDone
| Cancel | CancelReturns.

Definition watch_step (rvs : list (list val)) (a : act) (w : watch) : option watch :=
  match a, w_recv w, w_feed w, w_cancel w with
  | FeedStart, _, FStart idx, _ => Some (with_feed (if decide (idx ≤ length rvs) then FSend (drop idx rvs) else FCrash) w)
  | Hand, RLoop Own, FSend (v :: vs), _ => Some (with_recv (RGot Own v) (with_feed (FWait vs) w))
  | Pause, _, FWait vs, _ => Some (with_feed (FSend vs) w)
  | FeedCancelled, _, (FSend (_ :: _) | FWait _), (CWaiting | CReturned) => Some (with_feed FLeft w)
  | FeedExhausted, _, FSend [], _ => Some (with_feed FLeft w)
  | CloseSource, _, FLeft, _ => Some (with_feed FClosed w)
  | Take v, RLoop (Given c), _, _ => Some (with_recv (RGot (Given c) v) w)
  | SourceClosed, RLoop (Given _), _, _ => Some (with_recv RLeft w)
  | SourceClosed, RLoop Own, FClosed, _ => Some (with_recv RLeft w)
  | RecvCancelled, RLoop _, _, (CWaiting | CReturned) => Some (with_recv RLeft w)
  | Callback, RGot s v, _, _ => Some (with_recv (RLoop s) (call_f v w))
  | CallD, RLeft, _, _ => Some (with_recv REnded (call_d w))
  | CloseDone, REnded, _, _ => Some (with_recv RDone w)
  | Cancel, _, _, CNone => Some (with_cancel CWaiting w)
  | Cancel, _, _, CReturned => Some w
  | CancelReturns, RDone, _, CWaiting => Some (with_cancel CReturned w)
  | _, _, _, _ => None
  end.

(** [tc.watchSources[member]] *)
Definition look_up (w : watch) (e : tendpoint) : watch :=
  with_recv (match watchSources e !! w_member w with Some c => RLoop (Given c) | None => RIndex end) w.
Definition take_index (w : watch) (e : tendpoint) : watch := with_recv (RLoop Own) (with_feed (FStart (used e)) w).

#[export] Instance feeder_crash_dec f : Decision (f = FCrash).
Proof. destruct f; first [by left|by right]. Defined.
Definition crashed (e : tendpoint) : bool := existsb (λ w, bool_decide (w_feed w = FCrash)) (watches e).

Definition step (i : nat) (a : act) (e : tendpoint) : option tendpoint :=
  if crashed e then None
  else
    w ← watches e !! i;
    match a, w_recv w with
    | Start, RStart => Some (with_watches (<[i := look_up w e]> (watches e)) e)
    | TakeIndex, RIndex => Some (with_watches (<[i := take_index w e]> (watches e)) (take_used e))
    | (Start | TakeIndex), _ => None
    | _, _ => w ← watch_step (retvals e) a w; Some (with_watches (<[i := w]> (watches e)) e)
    end.

(** What the test and the code under test do meanwhile. *)
Inductive op :=
| OSetWatchSource (member : string) (s : option nat) | ODial | OWatchSignal (member : string)
| OCall (expected : nat) (member : string) (args : list val) | OSetProperty (property suffix : string) (v : val)
| OClose | OGrabName (b : bool) | OWatchMethod (dispatch : list string) (extra : list val)
| OSignal (member suffix : string) (args : list val).

Definition run_op `{Lib : DBusLib} (o : op) (e : tendpoint) : tendpoint :=
  match o with
  | OSetWatchSource m s => SetWatchSource m s e
  | ODial => (Dial e).1
  | OWatchSignal m => (WatchSignal m e).1
  | OCall n m args => (Call (λ _, Ok ()) n m args e).1
  | OSetProperty p s v => (SetProperty p s v e).1
  | OClose => (Close e).1
  | OGrabName b => (GrabName b e).1
  | OWatchMethod d x => (WatchMethod d x e).1
  | OSignal m s args => (Signal m s args e).1
  end.

Inductive label := Op (o : op) | Act (i : nat) (a : act).
Definition run_label `{Lib : DBusLib} (l : label) (e : tendpoint) : option tendpoint :=
  match l with Op o => Some (run_op o e) | Act i a => step i a e end.
Fixpoint run `{Lib : DBusLib} (ls : list label) (e : tendpoint) : option tendpoint :=
  match ls with [] => Some e | l :: ls => e ← run_label l e; run ls e end.
End Double.

(** ** Laws *)
Module DoubleProps.
Import Double.

Definition inhand (w : watch) : list (list val) := match w_recv w with RGot _ v => [v] | _ => [] end.
Definition own (w : watch) : Prop := w_feed w ≠ FNone.
Definition left_loop (r : receiver) : Prop := match r with RLeft | REnded | RDone => True | _ => False end.

(** What a watch with a feeder has been given is a stretch of the return
    values, from the index that was free when it started. *)
Definition content (rvs : list (list val)) (n : nat) (w : watch) : Prop :=
  match w_feed w with
  | FNone | FCrash => True
  | FStart idx => idx < n ∧ got w = [] ∧ inhand w = []
  | FSend vs | FWait vs => ∃ idx, idx < n ∧ got w ++ inhand w ++ vs = drop idx rvs
  | FLeft | FClosed => ∃ idx vs, idx < n ∧ got w ++ inhand w ++ vs = drop idx rvs ∧ (cancelled w = false → vs = [])
  end.

Definition source_fits (w : watch) : Prop :=
  match w_recv w with
  | RStart | RIndex => w_feed w = FNone ∧ got w = []
  | RLoop Own | RGot Own _ => own w
  | RLoop (Given _) | RGot (Given _) _ => w_feed w = FNone
  | _ => True
  end.

Record watch_inv (rvs : list (list val)) (n : nat) (w : watch) : Prop := {
  wi_ends : ends w = match w_recv w with REnded | RDone => 1 | _ => 0 end;
  wi_cancel : w_cancel w = CReturned → w_recv w = RDone;
  wi_source : source_fits w;
  wi_left : left_loop (w_recv w) → own w → cancelled w = false → w_feed w = FClosed;
  wi_content : content rvs n w;
}.

Lemma watch_inv_mono rvs n n' w : n ≤ n' → watch_inv rvs n w → watch_inv rvs n' w.
Proof.
  intros Hn [H1 H2 H3 H4 H5]. split; try done. unfold content in *.
  assert (∀ i, i < n → i < n') by (intros; lia). destruct (w_feed w); naive_solver.
Qed.

Lemma new_watch_inv rvs n m : watch_inv rvs n (new_watch m).
Proof. by split. Qed.

Ltac split_step H := repeat (match type of H with context [match ?x with _ => _ end] => destruct x eqn:? end; try discriminate H).

Lemma watch_step_inv rvs n a w w' : watch_inv rvs n w → watch_step rvs a w = Some w' → watch_inv rvs n w'.
Proof.
  intros [He Hc Hs Hl Hk] H. destruct w as [m r f c g k]. unfold source_fits, own, content, inhand, cancelled in *. cbn in *.
  unfold watch_step in H. cbn in H.
  split_step H; injection H as <-; subst; (split; unfold source_fits, own, content, inhand, cancelled; cbn in *; subst; try done).
  all: try (destruct r as [| |[?|]|[?|] ?| | |]; naive_solver).
  all: try naive_solver.
  - destruct f as [| |vs|vs| | |]; try done; [by destruct Hk as (_ & _ & ?)|destruct Hk as (j & Hj & Hk)..|destruct Hk as (j & vs & Hj & Hk & Hv)|
      destruct Hk as (j & vs & Hj & Hk & Hv)]; [exists j|exists j|exists j, vs|exists j, vs]; by rewrite <-app_assoc.
  - destruct f as [| |vs|vs| | |]; try done; destruct Hk as (j & vs & Hj & Hk & Hv); by exists j, vs.
Qed.

(** *** The endpoint *)

Definition endpoint_inv (e : tendpoint) : Prop := Forall (watch_inv (retvals e) (used e)) (watches e).

Lemma with_watch_inv e i w :
  endpoint_inv e → watch_inv (retvals e) (used e) w → endpoint_inv (with_watches (<[i := w]> (watches e)) e).
Proof. intros He Hw. by apply Forall_insert. Qed.

Lemma endpoint_inv_used e n : used e ≤ n → endpoint_inv e → Forall (watch_inv (retvals e) n) (watches e).
Proof. intros Hn He. eapply Forall_impl; [exact He|]. intros w. by apply watch_inv_mono. Qed.

Lemma endpoint_step_inv i a e e' : endpoint_inv e → step i a e = Some e' → endpoint_inv e'.
Proof.
  intros He H. unfold step in H. destruct (crashed e); [done|]. destruct (watches e !! i) as [w|] eqn:Ew; [|done].
  pose proof (proj1 (Forall_lookup _ _) He i w Ew) as Hw. cbn [mbind option_bind] in H.
  assert (Hother : (w ← watch_step (retvals e) a w; Some (with_watches (<[i := w]> (watches e)) e)) = Some e' → endpoint_inv e').
  { destruct (watch_step _ a w) as [w'|] eqn:Es; [|done]. intros [= <-]. apply with_watch_inv; [done|]. by eapply watch_step_inv. }
  destruct a; try by apply Hother.
  all: destruct (w_recv w) eqn:Er; try done; injection H as <-; destruct Hw as [H1 H2 H3 H4 H5]; unfold source_fits in H3; rewrite Er in *;
    destruct H3 as [H3 Hg].
  - apply with_watch_inv; [done|]. unfold look_up. destruct (watchSources e !! w_member w);
      (split; unfold source_fits, own, content in *; cbn; rewrite ?H3; try done; intros Hc; by specialize (H2 Hc)).
  - assert (Hf : endpoint_inv (take_used e)) by (apply (endpoint_inv_used e (S (used e))); [lia|done]).
    apply (with_watch_inv (take_used e)); [done|]. unfold take_index. split; unfold source_fits, own, content in *; cbn; try done.
    + intros Hc. by specialize (H2 Hc).
    + split_and!; [lia|done|done].
Qed.

(** What an operation may do to the watches there are: nothing; it may use up
    return values, and start a watch. *)
Definition op_keeps (e e' : tendpoint) : Prop :=
  retvals e' = retvals e ∧ used e ≤ used e' ∧ (watches e' = watches e ∨ ∃ m, watches e' = watches e ++ [new_watch m]).

Lemma ask_keeps c e : let e' := (ask c e).1 in retvals e' = retvals e ∧ used e' = used e ∧ watches e' = watches e.
Proof. unfold ask. by destruct (OK _ _ _) as [[h b]| |]. Qed.

Lemma run_op_keeps `{Lib : DBusLib} o e : op_keeps e (run_op o e).
Proof.
  assert (H : ∀ e', retvals e' = retvals e → used e' = used e → watches e' = watches e → op_keeps e e').
  { intros e' H1 H2 H3. split_and!; [done|lia|by left]. }
  destruct o; cbn [run_op]; try (by apply H);
    unfold Dial, WatchSignal, Call, modify, get, mbind, st_bind; cbn -[ask].
  - destruct (ask_keeps (dialCond e) e) as (? & ? & ?). destruct (ask _ _) as [e1 [[]|?|]]; by apply H.
  - pose proof (ask_keeps (callCond e) e) as Ha. destruct (ask _ _) as [e1 [[]|?|]]; destruct Ha as (? & ? & ?); cbn in *; try by apply H.
    split_and!; [done|cbn; lia|]. right. exists member. cbn. congruence.
  - match goal with |- context [ask ?c ?e0] => pose proof (ask_keeps c e0) as Ha end.
    destruct (ask _ _) as [e1 [[]|?|]]; destruct Ha as (H1 & H2 & H3); cbn in *; try by apply H.
    assert (Hu : op_keeps e (take_used e1)) by (split_and!; [done|cbn; lia|by left]).
    repeat (case_match; cbn; try exact Hu).
Qed.

Lemma run_op_inv `{Lib : DBusLib} o e : endpoint_inv e → endpoint_inv (run_op o e).
Proof.
  intros He. destruct (run_op_keeps o e) as (Hr & Hu & Hw). unfold endpoint_inv. rewrite Hr.
  pose proof (endpoint_inv_used e (used (run_op o e)) Hu He) as Hf. destruct Hw as [->|[m ->]]; [done|].
  apply Forall_app. split; [done|]. constructor; [apply new_watch_inv|done].
Qed.

Section runs.
Context `{Lib : DBusLib}.

Lemma endpoint_run_inv ls e e' : endpoint_inv e → run ls e = Some e' → endpoint_inv e'.
Proof.
  revert e. induction ls as [|l ls IH]; intros e He; cbn [run]; [by intros [= <-]|].
  destruct (run_label l e) as [e1|] eqn:E; [|done]. apply IH. destruct l as [o|i a]; cbn in E; [|by eapply endpoint_step_inv].
  injection E as <-. by apply run_op_inv.
Qed.

Lemma step_retvals i a e e' : step i a e = Some e' → retvals e' = retvals e.
Proof.
  unfold step. destruct (crashed e); [done|]. destruct (watches e !! i) as [w|]; [|done]. cbn [mbind option_bind]. intros H.
  destruct a; try (destruct (watch_step _ _ w); [by injection H as <-|done]); destruct (w_recv w); try done; by injection H as <-.
Qed.

Lemma run_retvals ls e e' : run ls e = Some e' → retvals e' = retvals e.
Proof.
  revert e. induction ls as [|l ls IH]; intros e; cbn [run]; [by intros [= <-]|].
  destruct (run_label l e) as [e1|] eqn:E; [|done]. intros H. rewrite (IH _ H).
  destruct l as [o|i a]; cbn in E; [injection E as <-; apply run_op_keeps|by eapply step_retvals].
Qed.

(** What a watch without a source of its own delivers: whatever is done to
    the endpoint meanwhile, its callback has been called with the return values
    from some index on, in order and without a gap; [d] was called once if
    the goroutine is through, and then, unless the watch was cancelled, after
    all of them; and when [Cancel] has returned it was called. *)
Theorem watch_in_order dial call rvs h ls e i w :
  run ls (NewMultiValuedTestingEndpoint dial call rvs h) = Some e → watches e !! i = Some w →
  ends w ≤ 1 ∧ (w_cancel w = CReturned → ends w = 1) ∧
  (own w → w_feed w ≠ FCrash → ∃ idx, idx < used e ∧ got w `prefix_of` drop idx rvs ∧
     (ends w = 1 → cancelled w = false → got w = drop idx rvs)).
Proof.
  intros Hr Hw. assert (He : endpoint_inv e) by (eapply endpoint_run_inv; [|exact Hr]; by constructor).
  pose proof (proj1 (Forall_lookup _ _) He i w Hw) as [H1 H2 H3 H4 H5]. rewrite (run_retvals _ _ _ Hr) in H5. cbn [retvals NewMultiValuedTestingEndpoint] in H5.
  split; [rewrite H1; destruct (w_recv w); lia|]. split; [intros Hc; by rewrite H1, (H2 Hc)|]. intros Ho Hcr. unfold content in H5.
  assert (Hleft : ends w = 1 → left_loop (w_recv w) ∧ inhand w = []) by (rewrite H1; unfold inhand; by destruct (w_recv w)).
  destruct (w_feed w) eqn:Ef; try done.
  - destruct H5 as (? & -> & _). exists idx. split_and!; [done|apply prefix_nil|]. intros [Hl _]%Hleft Hn. specialize (H4 Hl Ho Hn). congruence.
  - destruct H5 as (idx & ? & E). exists idx. rewrite <-E. split_and!; [done|by apply prefix_app_r|]. intros [Hl _]%Hleft Hn. specialize (H4 Hl Ho Hn). congruence.
  - destruct H5 as (idx & ? & E). exists idx. rewrite <-E. split_and!; [done|by apply prefix_app_r|]. intros [Hl _]%Hleft Hn. specialize (H4 Hl Ho Hn). congruence.
  - destruct H5 as (idx & vs & ? & E & Hv). exists idx. rewrite <-E. split_and!; [done|by apply prefix_app_r|]. intros [Hl _]%Hleft Hn. specialize (H4 Hl Ho Hn). congruence.
  - destruct H5 as (idx & vs & ? & E & Hv). exists idx. rewrite <-E. split_and!; [done|by apply prefix_app_r|]. intros [Hl Hi]%Hleft Hn. by rewrite Hi, Hv, !app_nil_r.
Qed.

(** After [Cancel] has returned nothing more is called. *)
Lemma done_step rvs a w w' : w_recv w = RDone → watch_step rvs a w = Some w' → w_recv w' = RDone ∧ got w' = got w ∧ ends w' = ends w.
Proof.
  intros Hr H. unfold watch_step in H. rewrite Hr in H. by split_step H; injection H as <-.
Qed.

Lemma done_kept l e e' i w :
  run_label l e = Some e' → watches e !! i = Some w → w_recv w = RDone →
  ∃ w', watches e' !! i = Some w' ∧ w_recv w' = RDone ∧ got w' = got w ∧ ends w' = ends w.
Proof.
  intros Hl Hw Hd. destruct l as [o|j a]; cbn in Hl.
  - injection Hl as <-. destruct (run_op_keeps o e) as (_ & _ & [->|[m ->]]); exists w; [done|]. split; [|done]. by apply lookup_app_l_Some.
  - unfold step in Hl. destruct (crashed e); [done|]. destruct (watches e !! j) as [v|] eqn:Ev; [|done]. cbn [mbind option_bind] in Hl.
    assert (Hset : ∀ e1 v', watches e1 = watches e → Some (with_watches (<[j := v']> (watches e1)) e1) = Some e' →
      (j = i → w_recv v' = RDone ∧ got v' = got w ∧ ends v' = ends w) →
      ∃ w', watches e' !! i = Some w' ∧ w_recv w' = RDone ∧ got w' = got w ∧ ends w' = ends w).
    { intros e1 v' He1 [= <-] Hv. cbn. rewrite He1. destruct (decide (j = i)) as [->|Hne].
      - exists v'. rewrite list_lookup_insert_eq by (by eapply lookup_lt_Some). by split; [|apply Hv].
      - exists w. by rewrite list_lookup_insert_ne. }
    assert (Hstep : (v ← watch_step (retvals e) a v; Some (with_watches (<[j := v]> (watches e)) e)) = Some e' →
      ∃ w', watches e' !! i = Some w' ∧ w_recv w' = RDone ∧ got w' = got w ∧ ends w' = ends w).
    { destruct (watch_step (retvals e) a v) as [v'|] eqn:Es; [|done]. cbn. intros H. eapply (Hset e v'); [done|exact H|].
      intros ->. rewrite Hw in Ev. injection Ev as <-. by eapply done_step. }
    destruct a; try by apply Hstep.
    all: destruct (w_recv v) eqn:Er; try done; (eapply (Hset e); [done|exact Hl|]) || (eapply (Hset (take_used e)); [done|exact Hl|]); intros ->; congruence.
Qed.

Theorem cancel_is_final ls e e' i w :
  endpoint_inv e → watches e !! i = Some w → w_cancel w = CReturned → run ls e = Some e' →
  ∃ w', watches e' !! i = Some w' ∧ got w' = got w ∧ ends w' = ends w.
Proof.
  intros He Hw Hc. pose proof (proj1 (Forall_lookup _ _) He i w Hw) as [_ H2 _ _ _]. specialize (H2 Hc). clear He Hc.
  revert e w Hw H2. induction ls as [|l ls IH]; intros e w Hw Hd; cbn [run]; [intros [= <-]; by exists w|].
  destruct (run_label l e) as [e1|] eqn:E; [|done]. destruct (done_kept l e e1 i w E Hw Hd) as (w1 & Hw1 & Hd1 & Hg & He). cbn. intros Hr.
  destruct (IH e1 w1 Hw1 Hd1 Hr) as (w' & ? & ? & ?). exists w'. split_and!; congruence.
Qed.
End runs.

(** *** A watch with a feeder comes to its end *)

Definition recv_left (r : receiver) : nat := match r with RStart => 6 | RIndex => 5 | RLoop _ => 3 | RGot _ _ => 4 | RLeft => 2 | REnded => 1 | RDone => 0 end.
Definition feed_left (n : nat) (f : feeder) : nat :=
  match f with
  | FNone | FClosed | FCrash => 0
  | FStart _ => 3 * n + 4
  | FSend vs => 3 * length vs + 3
  | FWait vs => 3 * length vs + 4
  | FLeft => 1
  end.
Definition steps_left (rvs : list (list val)) (w : watch) : nat := recv_left (w_recv w) + feed_left (length rvs) (w_feed w).

Definition goroutine_act (a : act) : Prop := match a with Cancel | CancelReturns => False | _ => True end.

(** Each step of the two goroutines is one of finitely many. *)
Lemma goroutine_step_decreases rvs a w w' :
  goroutine_act a → source_fits w → own w → watch_step rvs a w = Some w' → steps_left rvs w' < steps_left rvs w.
Proof.
  intros Ha Hs Ho H. unfold watch_step in H. destruct w as [m r f c g k]. unfold steps_left, own, source_fits in *. cbn in *.
  split_step H; injection H as <-; cbn in *; subst; try done; rewrite ?length_drop; try lia.
  all: destruct s as [?|]; naive_solver lia.
Qed.

(** One of the two can always go on, until both are through. *)
Lemma goroutine_progress rvs n w :
  watch_inv rvs n w → own w → w_feed w ≠ FCrash → (w_recv w = RDone ∧ w_feed w = FClosed) ∨
  ∃ a w', goroutine_act a ∧ a ≠ Start ∧ a ≠ TakeIndex ∧ watch_step rvs a w = Some w'.
Proof.
  intros [_ _ Hs Hl _] Ho Hc. destruct w as [m r f c g k]. unfold own, source_fits, cancelled in *. cbn in *.
  destruct f as [|idx|[|v vs]|vs| | |]; try done.
  - right. by exists FeedStart; eexists.
  - right. by exists FeedExhausted; eexists.
  - right. destruct r as [| |[?|]|[?|] ?| | |]; try (by destruct Hs).
    + by exists Hand; eexists.
    + by exists Callback; eexists.
    + by exists CallD; eexists.
    + by exists CloseDone; eexists.
    + exists FeedCancelled. destruct c; [by specialize (Hl I Ho eq_refl)|by eexists..].
  - right. by exists Pause; eexists.
  - right. by exists CloseSource; eexists.
  - destruct r as [| |[?|]|[?|] ?| | |]; try (by destruct Hs); try (by left); right.
    + by exists SourceClosed; eexists.
    + by exists Callback; eexists.
    + by exists CallD; eexists.
    + by exists CloseDone; eexists.
Qed.

Fixpoint watch_run (rvs : list (list val)) (acts : list act) (w : watch) : option watch :=
  match acts with [] => Some w | a :: acts => w ← watch_step rvs a w; watch_run rvs acts w end.

(** From wherever it is, a watch with a feeder whose index is in range gets
    through, and has delivered all of its values if it was not cancelled. *)
Theorem watch_completes rvs n w :
  watch_inv rvs n w → own w → w_feed w ≠ FCrash → (∀ idx, w_feed w = FStart idx → idx ≤ length rvs) →
  ∃ acts w', watch_run rvs acts w = Some w' ∧ length acts ≤ steps_left rvs w ∧ w_recv w' = RDone ∧ ends w' = 1 ∧
    (cancelled w = false → ∃ idx, got w' = drop idx rvs).
Proof.
  remember (steps_left rvs w) as k eqn:Ek. revert w Ek. induction k as [k IH] using lt_wf_ind. intros w Ek Hi Ho Hc Hf.
  destruct (goroutine_progress rvs n w Hi Ho Hc) as [[Hr Hfc]|(a & w1 & Ha & _ & _ & Hs)].
  - exists [], w. destruct Hi as [H1 _ _ _ H5]. rewrite Hr in H1. split_and!; [done|cbn; lia|done|done|]. intros Hcn.
    unfold content, inhand in H5. rewrite Hfc, Hr in H5. destruct H5 as (idx & vs & _ & E & Hv). exists idx. by rewrite <-E, Hv, !app_nil_r.
  - pose proof (goroutine_step_decreases rvs a w w1 Ha (wi_source _ _ _ Hi) Ho Hs) as Hlt.
    assert (Hw1 : own w1 ∧ w_feed w1 ≠ FCrash ∧ cancelled w1 = cancelled w ∧ ∀ idx, w_feed w1 = FStart idx → idx ≤ length rvs).
    { clear -Ha Ho Hc Hf Hs. unfold watch_step in Hs. destruct w as [m r f c g k]. unfold own, cancelled in *. cbn in *.
      split_step Hs; injection Hs as <-; cbn in *; subst; try done. exfalso. specialize (Hf _ eq_refl). done. }
    destruct Hw1 as (Ho1 & Hc1 & Hcn & Hf1).
    destruct (IH (steps_left rvs w1) ltac:(lia) w1 eq_refl (watch_step_inv rvs n a w w1 Hi Hs) Ho1 Hc1 Hf1) as (acts & w' & Hrun & Hlen & Hd & He & Hg).
    exists (a :: acts), w'. cbn. rewrite Hs. cbn. split_and!; [done|cbn; lia|done|done|by rewrite <-Hcn].
Qed.

(** *** What a call gives *)

(** A call takes the next of the return values, so two calls do not get the
    same, and a watch without a source starts where the calls left off. *)
Theorem call_takes_next `{Lib : DBusLib} {A} (Args : list val → outcome string A) e h vals member args a :
  OK (S (callCond e)) (callCond e) (conds e) = Ok (h, true) → retvals e !! used e = Some vals → vals ≠ [] →
  AppendArgs vals = None → Args vals = Ok a →
  let '(e', r) := Call Args (length vals) member args e in r = Ok (Some a) ∧ used e' = S (used e) ∧ GetCallArgs e' = GetCallArgs e ++ [{| c_Member := member; c_Args := TVal <$> args |}].
Proof.
  intros Hok Hv Hne Ha Hr. unfold Call, modify, get, mbind, st_bind, ask. cbn -[OK]. rewrite Hok. cbn.
  rewrite Hv, decide_True, decide_False by (done || by destruct vals). by rewrite Ha, Hr.
Qed.

(** Calls past the return values fail loudly when something is expected. *)
Theorem call_exhausted `{Lib : DBusLib} {A} (Args : list val → outcome string A) e h expected member args :
  OK (S (callCond e)) (callCond e) (conds e) = Ok (h, true) → retvals e !! used e = None →
  (Call Args expected member args e).2 = if decide (expected = 0) then Ok None else Panic.
Proof.
  intros Hok Hv. unfold Call, modify, get, mbind, st_bind, ask. cbn -[OK]. rewrite Hok. cbn. rewrite Hv. by case_decide.
Qed.

(** Two watches on an endpoint without return values end the program: the
    second starts to read past the end of the list. *)
Example second_watch_crashes (Lib : DBusLib) :
  let '(h, c) := Work true [] in
  crashed <$> run [Op (OWatchSignal "A"); Op (OWatchSignal "B"); Act 0 Start; Act 1 Start; Act 0 TakeIndex; Act 1 TakeIndex; Act 0 FeedStart; Act 1 FeedStart]
                  (NewTestingEndpoint c c [] h) = Some true.
Proof. reflexivity. Qed.

(** A watch that is cancelled between its two values. *)
Example cancelled_watch (Lib : DBusLib) :
  let '(h, c) := Work true [] in
  (λ e, (λ w, (got w, ends w)) <$> watches e) <$>
    run (Op (OWatchSignal "A") :: (Act 0 <$> [Start; TakeIndex; FeedStart; Hand; Cancel; Callback; FeedCancelled; RecvCancelled; CallD; CloseDone; CancelReturns]))
        (NewTestingEndpoint c c [VBool true; VBool false] h) = Some [([[VBool true]], 1)].
Proof. reflexivity. Qed.
End DoubleProps.
