(* ===== verification/CBindings.v ===== *)
(** The bindings to C libraries: [urldispatcher/curldispatcher/],
    [click/cappinfo/], [click/cclick/], [launch_helper/cual/] and
    [messaging/cmessaging/], the C of their preambles included.

    The state is the C heap: strings that [C.CString] or a library allocated,
    and reference-counted objects. Using or freeing what is not there is
    undefined, which is a panic here; what is left behind is a leak. The
    libraries' answers are parameters, and what they return is allocated, as
    they document. *)

From S2P Require Import Prelude Click Presenters Launchers Messaging.

Module CHeap.
(** C sees a string up to its first NUL. *)
Fixpoint c_string (s : string) : string :=
  match s with
  | "" => ""
  | String a s => if decide (a = "000"%char) then "" else String a (c_string s)
  end.

Inductive cell := Str (s : string) | Obj (refs : nat).

(** The heap, with whatever else the C side keeps. *)
Record heap (W : Type) := Heap { brk : nat; cells : gmap nat cell; ext : W }.
Arguments Heap {W} _ _ _.
Arguments brk {W} _.
Arguments cells {W} _.
Arguments ext {W} _.

(** A pointer; [None] is [NULL]. *)
Abbreviation ptr := (option nat).

Section heap.
Context {W : Type}.
Abbreviation M := (st (heap W) string).

Definition alloc (c : cell) : M nat := λ h,
  (Heap (S (brk h)) (<[brk h := c]> (cells h)) (ext h), Ok (brk h)).
Definition set_cells (cs : gmap nat cell) (h : heap W) : heap W := Heap (brk h) cs (ext h).

(** A string that C code or a library allocates. *)
Definition new_string (s : string) : M ptr := a ← alloc (Str s); mret (Some a).

(** [C.CString(s)], the [gchar] and [gstring] of the packages. *)
Definition gchar (s : string) : M ptr := new_string (c_string s).

Definition new_string_opt (s : option string) : M ptr :=
  match s with None => mret None | Some s => new_string s end.

(** [C.GoString], and reading a string in C: [GoString] of [NULL] is empty. *)
Definition GoString (p : ptr) : M string := λ h,
  match p with
  | None => (h, Ok "")
  | Some a => match cells h !! a with Some (Str s) => (h, Ok s) | _ => (h, Panic) end
  end.

(** [C.g_free], the [gfree] of the packages. *)
Definition gfree (p : ptr) : M unit := λ h,
  match p with
  | None => (h, Ok ())
  | Some a =>
      match cells h !! a with
      | Some (Str _) => (set_cells (delete a (cells h)) h, Ok ())
      | _ => (h, Panic)
      end
  end.

Definition g_object_ref (a : nat) : M unit := λ h,
  match cells h !! a with
  | Some (Obj n) => (set_cells (<[a := Obj (S n)]> (cells h)) h, Ok ())
  | _ => (h, Panic)
  end.
Definition g_object_unref (a : nat) : M unit := λ h,
  match cells h !! a with
  | Some (Obj 1) => (set_cells (delete a (cells h)) h, Ok ())
  | Some (Obj (S n)) => (set_cells (<[a := Obj n]> (cells h)) h, Ok ())
  | _ => (h, Panic)
  end.

Fixpoint new_strings (ss : list string) : M (list ptr) :=
  match ss with [] => mret [] | s :: ss => p ← new_string s; ps ← new_strings ss; mret (p :: ps) end.
Definition gchars (ss : list string) : M (list ptr) := new_strings (c_string <$> ss).
Fixpoint GoStrings (ps : list ptr) : M (list string) :=
  match ps with [] => mret [] | p :: ps => s ← GoString p; ss ← GoStrings ps; mret (s :: ss) end.
Fixpoint gfrees (ps : list ptr) : M unit :=
  match ps with [] => mret () | p :: ps => gfree p;; gfrees ps end.

(** [x := gchar(s); defer gfree(x)] for each string, around a body; the
    deferred calls run last in, first out. *)
Definition with_gchars {A} (ss : list string) (body : list ptr → M A) : M A :=
  ps ← gchars ss; a ← body ps; gfrees (reverse ps);; mret a.

(** *** What is on the heap *)

Definition fresh (h : heap W) : Prop := ∀ a, brk h ≤ a → cells h !! a = None.

Fixpoint put (b : nat) (ss : list string) (cs : gmap nat cell) : gmap nat cell :=
  match ss with [] => cs | s :: ss => put (S b) ss (<[b := Str s]> cs) end.

Lemma lookup_put b ss cs a :
  put b ss cs !! a = if decide (b ≤ a < b + length ss) then Str <$> ss !! (a - b) else cs !! a.
Proof.
  revert b cs. induction ss as [|s ss IH]; intros b cs; cbn.
  { rewrite decide_False by lia. done. }
  rewrite IH. destruct (decide (a = b)) as [->|Hne].
  - rewrite decide_False, lookup_insert_eq, decide_True by lia. by rewrite Nat.sub_diag.
  - rewrite lookup_insert_ne by done. repeat case_decide; try lia; [|done].
    by replace (a - b) with (S (a - S b)) by lia.
Qed.

Lemma new_strings_put ss (h : heap W) :
  new_strings ss h = (Heap (brk h + length ss) (put (brk h) ss (cells h)) (ext h),
                 Ok (Some <$> seq (brk h) (length ss))).
Proof.
  revert h. induction ss as [|s ss IH]; intros [b cs e]; cbn.
  { by rewrite Nat.add_0_r. }
  unfold new_string, mbind, st_bind. cbn. rewrite IH. cbn. by rewrite Nat.add_succ_r.
Qed.

Lemma gchars_put ss (h : heap W) :
  gchars ss h = (Heap (brk h + length ss) (put (brk h) (c_string <$> ss) (cells h)) (ext h),
                 Ok (Some <$> seq (brk h) (length ss))).
Proof. unfold gchars. by rewrite new_strings_put, length_fmap. Qed.

(** Reading strings that are there. *)
Lemma GoStrings_read b ss (h : heap W) :
  (∀ i s, ss !! i = Some s → cells h !! (b + i) = Some (Str s)) →
  GoStrings (Some <$> seq b (length ss)) h = (h, Ok ss).
Proof.
  revert b. induction ss as [|s ss IH]; intros b Hs; cbn; [done|].
  pose proof (Hs 0 s eq_refl) as H0. rewrite Nat.add_0_r in H0. unfold mbind, st_bind. cbn. rewrite H0.
  rewrite IH; [done|]. intros i s' Hi. rewrite Nat.add_succ_l, <-Nat.add_succ_r. by apply Hs.
Qed.

(** Freeing strings that are there, each once. *)
Lemma gfrees_gone la (h : heap W) :
  NoDup la → (∀ a, a ∈ la → ∃ s, cells h !! a = Some (Str s)) →
  ∃ cs, gfrees (Some <$> la) h = (set_cells cs h, Ok ()) ∧
        ∀ a, cs !! a = if decide (a ∈ la) then None else cells h !! a.
Proof.
  intros Hnd. revert h. induction Hnd as [|a la Ha Hnd IH]; intros [b cs e] Hs.
  { exists cs. split; [done|]. intros a. by rewrite decide_False by apply not_elem_of_nil. }
  destruct (Hs a) as [s Has]; [by left|]. cbn in Has.
  destruct (IH (Heap b (delete a cs) e)) as (cs' & Hf & Hl).
  { intros a' Ha'. cbn. rewrite lookup_delete_ne by (by intros ->). apply Hs. by right. }
  exists cs'. split.
  - cbn. unfold mbind, st_bind. cbn. rewrite Has. unfold set_cells. cbn. exact Hf.
  - intros a'. rewrite Hl. cbn. destruct (decide (a' = a)) as [->|Hne].
    + rewrite lookup_delete_eq. rewrite (decide_True (P := a ∈ a :: la)) by (by left). by case_decide.
    + rewrite lookup_delete_ne by done. destruct (decide (a' ∈ la)) as [Hi|Hi].
      * by rewrite decide_True by (by right).
      * rewrite decide_False; [done|]. by intros [?|?]%elem_of_cons.
Qed.

(** The body of [with_gchars] finds its strings, and what it leaves allocated
    is what remains. *)
Lemma with_gchars_spec {A} ss (body : list ptr → M A) (h h1 : heap W) r :
  let h0 := Heap (brk h + length ss) (put (brk h) (c_string <$> ss) (cells h)) (ext h) in
  fresh h →
  body (Some <$> seq (brk h) (length ss)) h0 = (h1, Ok r) →
  (∀ a, a < brk h0 → cells h1 !! a = cells h0 !! a) →
  ∃ cs, with_gchars ss body h = (set_cells cs h1, Ok r) ∧
    ∀ a, cs !! a = if decide (a < brk h0) then cells h !! a else cells h1 !! a.
Proof.
  intros h0 Hf Hb Hk. unfold with_gchars, mbind, st_bind. rewrite gchars_put.
  fold h0. rewrite Hb.
  destruct (gfrees_gone (reverse (seq (brk h) (length ss))) h1) as (cs & Hg & Hl).
  { rewrite reverse_Permutation. apply NoDup_seq. }
  { intros a Ha. rewrite elem_of_reverse, elem_of_seq in Ha. rewrite Hk by (cbn; lia). cbn.
    rewrite lookup_put, length_fmap, decide_True by lia. rewrite list_lookup_fmap.
    destruct (lookup_lt_is_Some_2 ss (a - brk h)) as [s ->]; [lia|]. by exists (c_string s). }
  rewrite <-fmap_reverse, Hg. exists cs. split; [done|]. intros a. rewrite Hl.
  assert (a ∈ reverse (seq (brk h) (length ss)) ↔ brk h ≤ a < brk h + length ss) as Hin
    by (rewrite elem_of_reverse, elem_of_seq; done).
  change (brk h0) with (brk h + length ss) in *.
  destruct (decide (a < brk h)); [|destruct (decide (a < brk h + length ss))].
  - rewrite decide_False, decide_True by (rewrite ?Hin; lia). rewrite Hk by lia. cbn.
    rewrite lookup_put, length_fmap. by rewrite decide_False by lia.
  - rewrite decide_True by (apply Hin; lia). symmetry. apply Hf. lia.
  - by rewrite decide_False by (rewrite Hin; lia).
Qed.

(** … when it leaves nothing: the heap is as it was. *)
Lemma with_gchars_clean {A} ss (body : list ptr → M A) (h : heap W) r w :
  fresh h →
  (∀ cs, (∀ i s, ss !! i = Some s → cs !! (brk h + i) = Some (Str (c_string s))) →
     ∃ b', body (Some <$> seq (brk h) (length ss)) (Heap (brk h + length ss) cs (ext h))
     = (Heap b' cs w, Ok r)) →
  ∃ b', with_gchars ss body h = (Heap b' (cells h) w, Ok r).
Proof.
  intros Hf Hb. edestruct (Hb (put (brk h) (c_string <$> ss) (cells h))) as [b' Hb'].
  { intros i s Hi. rewrite lookup_put, length_fmap. pose proof (lookup_lt_Some _ _ _ Hi).
    rewrite decide_True, list_lookup_fmap by lia. replace (brk h + i - brk h) with i by lia.
    by rewrite Hi. }
  edestruct (with_gchars_spec ss body h) as (cs & Hw & Hl); [done|exact Hb'|done|].
  exists b'. rewrite Hw. unfold set_cells. cbn. do 2 f_equal. apply map_eq. intros a. rewrite Hl.
  case_decide as Hd; [done|]. cbn in *. rewrite lookup_put, length_fmap.
  by rewrite decide_False by lia.
Qed.
End heap.

Lemma lookup_write (cs : gmap nat cell) a b c :
  <[a := c]> cs !! b = if decide (a = b) then Some c else cs !! b.
Proof. apply lookup_insert. Qed.
Lemma lookup_free (cs : gmap nat cell) a b : delete a cs !! b = if decide (a = b) then None else cs !! b.
Proof. apply lookup_delete. Qed.

Lemma heap_eq {W A} b cs cs' (e : W) (r : outcome string A) :
  cs = cs' → (Heap b cs e, r) = (Heap b cs' e, r).
Proof. by intros ->. Qed.

(** Running straight-line code on the heap: every address is a number of cells
    past the first free one. *)
Ltac c_unfold :=
  unfold new_string_opt, gchar, new_string, GoString, gfree, g_object_ref, g_object_unref, set_cells, alloc,
    mbind, mret, st_bind, st_ret in *.
Ltac c_run :=
  c_unfold;
  repeat (cbn; try c_unfold; cbn; rewrite ?lookup_write, ?lookup_free;
          first [rewrite decide_True by lia | rewrite decide_False by lia]); cbn.

(** The same cells, where what was written was free before. *)
Ltac same_cells Hf :=
  let a := fresh "a" in
  apply map_eq; intros a; rewrite ?lookup_write, ?lookup_free;
  repeat (case_decide; rewrite ?lookup_write, ?lookup_free); simplify_eq/=; try done; try lia;
  try (apply Hf; cbn; lia); try (symmetry; apply Hf; cbn; lia).
End CHeap.

(** [urldispatcher/curldispatcher/] *)
Module CurlDispatcher.
Import CHeap.

Section curl.
Context {W : Type}.
Abbreviation M := (st (heap W) string).
(** [url_dispatch_url_appid], the vector it returns up to its [NULL]; and
    [url_dispatch_send], as the boolean its callback is given. *)
Context (url_dispatch_url_appid : list string → option (list string)).
Context (url_dispatch_send : string → Z).

Definition test_url (urls : list ptr) : M (option (list ptr)) :=
  ss ← GoStrings urls;
  match url_dispatch_url_appid ss with
  | None => mret None
  | Some ids => ps ← new_strings ids; mret (Some ps)
  end.

(** [packages[i] = pkg] for each entry; there are as many places as URLs. *)
Fixpoint collect (i : nat) (packages : list string) (results : list ptr) : M (list string) :=
  match results with
  | [] => mret packages
  | p :: results =>
      pkg ← GoString p;
      if decide (i < length packages) then collect (S i) (<[i := pkg]> packages) results
      else st_panic
  end.

Definition TestURL (urls : list string) : M (list string) :=
  with_gchars urls (λ c_urls,
    results ← test_url c_urls;
    match results with
    | None => mret []
    | Some results => collect 0 (replicate (length urls) "") results
    end).

(** The callback: anything but [TRUE] is a failure. *)
Definition handleDispatchURLResult (c_success : Z) : bool := bool_decide (c_success = 1%Z).

(** [success := <-doneCh] waits for the callback. *)
Definition DispatchURL (url appPackage : string) : M (option string) :=
  with_gchars [url; appPackage] (λ ps,
    u ← GoString (default None (ps !! 0));
    mret (if handleDispatchURLResult (url_dispatch_send u) then None
          else Some ("failed to DispatchURL: " +:+ url +:+ " for " +:+ appPackage))).

Lemma collect_read b ids k (h : heap W) pre :
  (∀ i s, ids !! i = Some s → cells h !! (b + i) = Some (Str s)) → length ids ≤ k →
  collect (length pre) (pre ++ replicate k "") (Some <$> seq b (length ids)) h
  = (h, Ok (pre ++ ids ++ replicate (k - length ids) "")).
Proof.
  revert b k pre. induction ids as [|s ids IH]; intros b k pre Hs Hk; cbn in *.
  { by rewrite Nat.sub_0_r. }
  pose proof (Hs 0 s eq_refl) as H0. rewrite Nat.add_0_r in H0.
  unfold mbind, st_bind. cbn. rewrite H0. destruct k as [|k]; [lia|].
  rewrite decide_True by (rewrite length_app; cbn; lia).
  rewrite insert_app_r_alt, Nat.sub_diag by done. cbn [replicate].
  change (<[0:=s]> ("" :: replicate k "")) with (s :: replicate k "").
  rewrite (cons_middle s pre), app_assoc.
  replace (S (length pre)) with (length (pre ++ [s])) by (rewrite length_app; cbn; lia).
  rewrite IH; [|intros i s' Hi; rewrite Nat.add_succ_l, <-Nat.add_succ_r; by apply Hs|lia].
  cbn. by rewrite <-app_assoc.
Qed.

Lemma collect_panics b ids k (h : heap W) pre :
  (∀ i s, ids !! i = Some s → cells h !! (b + i) = Some (Str s)) → k < length ids →
  collect (length pre) (pre ++ replicate k "") (Some <$> seq b (length ids)) h = (h, Panic).
Proof.
  revert b k pre. induction ids as [|s ids IH]; intros b k pre Hs Hk; cbn in *; [lia|].
  pose proof (Hs 0 s eq_refl) as H0. rewrite Nat.add_0_r in H0.
  unfold mbind, st_bind. cbn. rewrite H0. destruct k as [|k].
  { rewrite decide_False; [done|]. rewrite length_app. cbn. lia. }
  rewrite decide_True by (rewrite length_app; cbn; lia).
  rewrite insert_app_r_alt, Nat.sub_diag by done. cbn [replicate].
  change (<[0:=s]> ("" :: replicate k "")) with (s :: replicate k "").
  rewrite (cons_middle s pre), app_assoc.
  replace (S (length pre)) with (length (pre ++ [s])) by (rewrite length_app; cbn; lia).
  apply IH; [|lia]. intros i s' Hi. rewrite Nat.add_succ_l, <-Nat.add_succ_r. by apply Hs.
Qed.

(** What [TestURL] answers, and what it leaves on the C heap: the strings of the
    URLs are freed, those the dispatcher returned are not. With more answers
    than URLs it panics. *)
Theorem TestURL_spec urls (h : heap W) :
  fresh h →
  match url_dispatch_url_appid (c_string <$> urls) with
  | None => ∃ b, TestURL urls h = (Heap b (cells h) (ext h), Ok [])
  | Some ids =>
      if decide (length ids ≤ length urls) then
        ∃ b cs, TestURL urls h = (Heap b cs (ext h), Ok (ids ++ replicate (length urls - length ids) "")) ∧
          ∀ a, cs !! a = if decide (brk h + length urls ≤ a < brk h + length urls + length ids)
                         then Str <$> ids !! (a - (brk h + length urls)) else cells h !! a
      else (TestURL urls h).2 = Panic
  end.
Proof.
  intros Hf. unfold TestURL.
  set (us := c_string <$> urls). set (cs0 := put (brk h) us (cells h)).
  assert (length us = length urls) as Hus by apply length_fmap.
  assert (∀ i s, us !! i = Some s → cs0 !! (brk h + i) = Some (Str s)) as Hrd.
  { intros i s Hi. unfold cs0. rewrite lookup_put. pose proof (lookup_lt_Some _ _ _ Hi).
    rewrite decide_True by lia. replace (brk h + i - brk h) with i by lia. by rewrite Hi. }
  destruct (url_dispatch_url_appid us) as [ids|] eqn:Hd.
  - set (h0 := Heap (brk h + length urls) cs0 (ext h)).
    set (h1 := Heap (brk h0 + length ids) (put (brk h0) ids cs0) (ext h)).
    assert (∀ i s, ids !! i = Some s → cells h1 !! (brk h0 + i) = Some (Str s)) as Hrd1.
    { intros i s Hi. cbn. rewrite lookup_put. pose proof (lookup_lt_Some _ _ _ Hi).
      rewrite decide_True by lia.
      replace (brk h + length urls + i - (brk h + length urls)) with i by lia. by rewrite Hi. }
    set (body := λ c_urls, results ← test_url c_urls;
      match results with
      | Some results => collect 0 (replicate (length urls) "") results
      | None => mret []
      end).
    assert (body (Some <$> seq (brk h) (length urls)) h0
      = collect 0 (replicate (length urls) "") (Some <$> seq (brk h0) (length ids)) h1) as Hbody.
    { unfold body, test_url, mbind, st_bind. rewrite <-Hus, GoStrings_read by done. rewrite Hd, Hus.
      by rewrite new_strings_put. }
    case_decide as Hl.
    + pose proof (collect_read (brk h0) ids (length urls) h1 [] Hrd1 Hl) as Hc. cbn [app length] in Hc.
      rewrite Hc in Hbody. edestruct (with_gchars_spec urls body h) as (cs & Hw & Hcs);
        [done|exact Hbody| |].
      { intros a Ha. cbn. rewrite lookup_put, decide_False by (cbn in Ha; lia). done. }
      eexists _, cs. split; [exact Hw|]. intros a. rewrite Hcs. cbn.
      destruct (decide (a < brk h + length urls)).
      * by rewrite decide_False by lia.
      * rewrite lookup_put. case_decide; [done|].
        unfold cs0. by rewrite lookup_put, decide_False by lia.
    + pose proof (collect_panics (brk h0) ids (length urls) h1 [] Hrd1 ltac:(lia)) as Hc.
      cbn [app length] in Hc. rewrite Hc in Hbody. change ((with_gchars urls body h).2 = Panic).
      unfold with_gchars. rewrite (st_bind_Ok _ _ _ _ _ (gchars_put urls h)).
      fold us cs0 h0. unfold mbind at 1, st_bind at 1. by rewrite Hbody.
  - apply with_gchars_clean; [done|]. intros cs Hcs. eexists. unfold test_url, mbind, st_bind.
    rewrite <-Hus, GoStrings_read; [by rewrite Hd|]. intros i s. unfold us. rewrite list_lookup_fmap_Some.
    intros (s' & -> & Hi). by apply Hcs.
Qed.
End curl.
End CurlDispatcher.

(** [click/cappinfo/] *)
Module CAppInfo.
Import CHeap.

(** What a desktop file says: the icon, and [X-Ubuntu-SymbolicIcon]. *)
Record desktop_info := { icon : option string; x_symbolic_icon : option string }.

Section appinfo.
Context {W : Type}.
Abbreviation M := (st (heap W) string).
(** [g_desktop_app_info_new], by what the object will answer, and
    [g_icon_to_string] of a file's icon. *)
Context (g_desktop_app_info_new : string → option desktop_info).
Context (g_file_icon_to_string : string → string).

Definition app_icon_filename_from_desktop_id (desktop_id : ptr) : M ptr :=
  id ← GoString desktop_id;
  filename ← match g_desktop_app_info_new id with
             | None => mret None
             | Some info =>
                 app_info ← alloc (Obj 1);
                 filename ← new_string_opt (icon info);
                 g_object_unref app_info;; mret filename
             end;
  gfree desktop_id;; mret filename.

(** [g_file_icon_new] keeps a reference to the file. *)
Definition app_symbolic_icon_from_desktop_id (desktop_id : ptr) : M ptr :=
  id ← GoString desktop_id;
  match g_desktop_app_info_new id with
  | None => gfree desktop_id;; mret None
  | Some info =>
      app_info ← alloc (Obj 1);
      x ← new_string_opt (x_symbolic_icon info);
      match x with
      | None => g_object_unref app_info;; gfree desktop_id;; mret None
      | Some _ =>
          path ← GoString x;
          file ← alloc (Obj 1);
          symbolic_icon ← alloc (Obj 1);
          g_object_ref file;; g_object_unref file;;
          gfree x;;
          g_object_unref app_info;;
          new_string (g_file_icon_to_string path)
      end
  end.

Definition AppIconFromDesktopId (desktopId : string) : M string :=
  id ← gchar desktopId;
  name ← app_icon_filename_from_desktop_id id;
  r ← GoString name; gfree name;; mret r.

Definition appSymbolicIconFromDesktopId (desktopId : string) : M string :=
  id ← gchar desktopId;
  name ← app_symbolic_icon_from_desktop_id id;
  match name with
  | None => mret ""
  | Some _ => r ← GoString name; gfree name;; mret r
  end.

Theorem AppIconFromDesktopId_spec id (h : heap W) :
  fresh h →
  ∃ b, AppIconFromDesktopId id h
       = (Heap b (cells h) (ext h), Ok (default "" (g_desktop_app_info_new (c_string id) ≫= icon))).
Proof.
  intros Hf. destruct h as [b cs e]. unfold AppIconFromDesktopId, app_icon_filename_from_desktop_id.
  destruct (g_desktop_app_info_new (c_string id)) as [[[i|] x]|] eqn:E; c_run; rewrite E; c_run;
    eexists; apply heap_eq; same_cells Hf.
Qed.

(** [appSymbolicIconFromDesktopId] answers the symbolic icon of the desktop
    file, if it has one. Then the copy of the id that was made for C, and the
    icon with its file, stay allocated at every call; otherwise nothing does. *)
Theorem appSymbolicIconFromDesktopId_spec id (h : heap W) :
  fresh h →
  ∃ b, appSymbolicIconFromDesktopId id h =
    match g_desktop_app_info_new (c_string id) ≫= x_symbolic_icon with
    | None => (Heap b (cells h) (ext h), Ok "")
    | Some x =>
        (Heap b (<[brk h + 4 := Obj 1]> (<[brk h + 3 := Obj 1]> (<[brk h := Str (c_string id)]> (cells h)))) (ext h),
         Ok (g_file_icon_to_string x))
    end.
Proof.
  intros Hf. destruct h as [b cs e]. unfold appSymbolicIconFromDesktopId, app_symbolic_icon_from_desktop_id.
  destruct (g_desktop_app_info_new (c_string id)) as [[i [x|]]|] eqn:E; c_run; rewrite E; c_run;
    eexists; apply heap_eq; same_cells Hf.
Qed.
End appinfo.
End CAppInfo.

(** [click/cclick/] *)
Module CClick.
Import CHeap.

Section cclick.
Context {W : Type}.
Abbreviation M := (st (heap W) string).
(** [click_user_new_for_user]: a [GError]'s message, or none; and
    [click_user_get_version]. A [GError] is on the heap as its message. *)
Context (click_user_new_for_user : option string).
Context (click_user_get_version : string → string + string).

(** [CClickUser] with its [cref]; the finalizer that [CInit] sets drops it. *)
Definition CInit : M (option nat * option string) :=
  match click_user_new_for_user with
  | Some msg =>
      gerr ← new_string msg;
      m ← GoString gerr;
      gfree gerr;;                                   (** [g_clear_error] *)
      mret (None, Some ("faild to make ClickUser: " +:+ m))
  | None => cref ← alloc (Obj 1); mret (Some cref, None)
  end.

Definition CGetVersion (pkgName : string) : M string :=
  with_gchars [pkgName] (λ ps,
    name ← GoString (default None (ps !! 0));
    match click_user_get_version name with
    | inr msg => gerr ← new_string msg; gfree gerr;; mret ""
    | inl version =>
        ver ← new_string version;
        r ← GoString ver;
        gfree ver;; mret r
    end).

(** The version the library knows, or nothing, and nothing left behind. *)
Theorem CGetVersion_spec pkgName (h : heap W) :
  fresh h →
  ∃ b, CGetVersion pkgName h
       = (Heap b (cells h) (ext h),
          Ok match click_user_get_version (c_string pkgName) with inl v => v | inr _ => "" end).
Proof.
  intros Hf. destruct h as [b cs e].
  destruct (click_user_get_version (c_string pkgName)) as [v|msg] eqn:E; unfold CGetVersion, with_gchars, gchars, new_strings, fmap, list_fmap;
    c_run; rewrite E; c_run; eexists; apply heap_eq; same_cells Hf.
Qed.
End cclick.
End CClick.

(** [launch_helper/cual/] *)
Module CUal.
Import CHeap.

Section cual.
Context {W : Type}.
Abbreviation M := (st (heap W) string).
(** [ubuntu_app_launch_start_multiple_helper] with the application and the three
    uris, and [ubuntu_app_launch_stop_multiple_helper]. *)
Context (start_multiple_helper : string → list string → option string).
Context (stop_multiple_helper : string → string → bool).

(** They take over the strings they are given. *)
Definition launch (app_id exec f1 f2 : ptr) : M ptr :=
  app ← GoString app_id; uris ← GoStrings [exec; f1; f2];
  iid ← new_string_opt (start_multiple_helper app uris);
  gfree app_id;; gfree exec;; gfree f1;; gfree f2;; mret iid.

Definition stop (app_id iid : ptr) : M bool :=
  app ← GoString app_id; i ← GoString iid;
  gfree app_id;; gfree iid;; mret (stop_multiple_helper app i).

Definition Launch (appId exec f1 f2 : string) : M (string + Cual.cual_err) :=
  a ← gchar appId; x ← gchar exec; p1 ← gchar f1; p2 ← gchar f2;
  ciid ← launch a x p1 p2;
  iid ← GoString ciid;
  mret (if decide (iid = "") then inr Cual.ErrCantLaunch else inl iid).

Definition Stop (appId instanceId : string) : M (option Cual.cual_err) :=
  a ← gchar appId; i ← gchar instanceId;
  ok ← stop a i;
  mret (if (ok : bool) then None else Some Cual.ErrCantStop).

(** [Launch] answers as [Cual.Launch] says, for a library that gives an empty
    or no instance id when it fails; the instance id it was given stays
    allocated, and nothing else. *)
Theorem Launch_spec appId exec f1 f2 (h : heap W) :
  fresh h →
  let iid := start_multiple_helper (c_string appId) (c_string <$> [exec; f1; f2]) in
  let r := match Cual.Launch (λ a x p q, default "" (start_multiple_helper (c_string a) (c_string <$> [x; p; q]))) appId exec f1 f2 with
           | Ok i => inl i | _ => inr Cual.ErrCantLaunch end in
  ∃ b, Launch appId exec f1 f2 h
       = (Heap b match iid with Some i => <[brk h + 4 := Str i]> (cells h) | None => cells h end (ext h), Ok r).
Proof.
  intros Hf iid r. destruct h as [b cs e]. subst iid r. unfold Launch, launch, Cual.Launch, GoStrings.
  cbn [fmap list_fmap].
  destruct (start_multiple_helper (c_string appId) [c_string exec; c_string f1; c_string f2]) as [i|] eqn:E; c_run; rewrite E; c_run.
  - eexists. destruct (decide (i = "")); apply heap_eq; same_cells Hf.
  - eexists. apply heap_eq; same_cells Hf.
Qed.

Theorem Stop_spec appId instanceId (h : heap W) :
  fresh h →
  ∃ b, Stop appId instanceId h
       = (Heap b (cells h) (ext h),
          Ok match Cual.Stop (λ a i, stop_multiple_helper (c_string a) (c_string i)) appId instanceId with Ok _ => None | _ => Some Cual.ErrCantStop end).
Proof.
  intros Hf. destruct h as [b cs e]. unfold Stop, stop, Cual.Stop. c_run.
  destruct (stop_multiple_helper (c_string appId) (c_string instanceId)); eexists; apply heap_eq; same_cells Hf.
Qed.
End cual.
End CUal.

(** [messaging/cmessaging/]: the table of applications, and its entry points *)
Module CMessaging.
Import CHeap.
Local Open Scope Z_scope.

Abbreviation message := Messaging.message.

(** A [MessagingMenuApp]: its messages, by id. *)
Class MenuApp (A : Type) := {
  messaging_menu_app_new : string → A;
  append_message : message → A → A;
  remove_message_by_id : string → A → A;
  get_message : string → A → option message;
}.
Class MenuAppLaws (A : Type) `{MenuApp A} := {
  get_new d n : get_message n (messaging_menu_app_new d) = None;
  get_append_new m a :
    get_message (Messaging.m_id m) a = None → get_message (Messaging.m_id m) (append_message m a) = Some m;
  get_append_again m a :
    is_Some (get_message (Messaging.m_id m) a) → is_Some (get_message (Messaging.m_id m) (append_message m a));
  get_append_other m a n : Messaging.m_id m ≠ n → get_message n (append_message m a) = get_message n a;
  get_remove n' a n : get_message n (remove_message_by_id n' a) = if decide (n' = n) then None else get_message n a;
}.

Section menu.
Context {A : Type} `{MenuAppLaws A}.

(** [static GHashTable* map], [NULL] until it is needed. *)
Abbreviation table := (option (gmap string A)).
Abbreviation M := (st (heap table) string).

Definition get_table : M table := λ h, (h, Ok (ext h)).
Definition set_table (t : table) : M unit := λ h, (Heap (brk h) (cells h) t, Ok ()).

Definition put_message (d : string) (m : message) (t : table) : table :=
  let map := default ∅ t in
  Some (<[d := append_message m (default (messaging_menu_app_new d) (map !! d))]> map).
Definition drop_message (d n : string) (t : table) : table :=
  map ← t; Some (match map !! d with None => map | Some a => <[d := remove_message_by_id n a]> map end).
Definition the_message (d n : string) (t : table) : option message :=
  a ← (map ← t; map !! d); get_message n a.
Definition has_message (d n : string) (t : table) : bool := bool_decide (is_Some (the_message d n t)).

(** The C functions read their strings; the library keeps copies. The payload
    is a pointer that only comes back to [handleActivate]. *)
Definition add_notification (desktop_id notification_id icon_path summary body : ptr) (timestamp : Z)
    (obj : Messaging.Payload) : M unit :=
  d ← GoString desktop_id; i ← GoString icon_path; n ← GoString notification_id;
  s ← GoString summary; b ← GoString body;
  t ← get_table;
  set_table (put_message d {| Messaging.m_id := n; Messaging.m_icon := i; Messaging.m_summary := s;
    Messaging.m_body := b; Messaging.m_time := timestamp; Messaging.m_obj := obj |} t).
Definition remove_notification (desktop_id notification_id : ptr) : M unit :=
  d ← GoString desktop_id; n ← GoString notification_id;
  t ← get_table; set_table (drop_message d n t).
Definition notification_exists (desktop_id notification_id : ptr) : M bool :=
  d ← GoString desktop_id; n ← GoString notification_id;
  t ← get_table; mret (has_message d n t).

Definition nth_ptr (ps : list ptr) (i : nat) : ptr := default None (ps !! i).

(** In microseconds, as a [gint64]. *)
Definition AddNotification (now : Z) (desktopId notificationId : string) (card : HelperPool.HelperOutput.Card)
    (payload : Messaging.Payload) : M unit :=
  with_gchars [desktopId; notificationId; HelperPool.HelperOutput.Icon card;
               HelperPool.HelperOutput.Summary card; HelperPool.HelperOutput.Body card] (λ ps,
    add_notification (nth_ptr ps 0) (nth_ptr ps 1) (nth_ptr ps 2) (nth_ptr ps 3) (nth_ptr ps 4)
      (i64 (HelperPool.HelperOutput.Timestamp now card * 1000000)) payload).

Definition RemoveNotification (desktopId notificationId : string) : M unit :=
  with_gchars [desktopId; notificationId] (λ ps, remove_notification (nth_ptr ps 0) (nth_ptr ps 1)).

Definition NotificationExists (desktopId notificationId : string) : M bool :=
  with_gchars [notificationId; desktopId] (λ ps, notification_exists (nth_ptr ps 1) (nth_ptr ps 0)).

(** The message a card becomes: that of [Messaging], its strings as C's. *)
Definition c_message (m : message) : message :=
  {| Messaging.m_id := c_string (Messaging.m_id m); Messaging.m_icon := c_string (Messaging.m_icon m);
     Messaging.m_summary := c_string (Messaging.m_summary m); Messaging.m_body := c_string (Messaging.m_body m);
     Messaging.m_time := Messaging.m_time m; Messaging.m_obj := Messaging.m_obj m |}.

(** The entry points change the menu as they should and give back every string
    they allocate. *)
Theorem menu_entry_points now d n card payload (h : heap table) :
  fresh h →
  (∃ b, AddNotification (now `div` 1000000000) d n card payload h
        = (Heap b (cells h) (put_message (c_string d) (c_message (Messaging.card_message now n card payload)) (ext h)), Ok ())) ∧
  (∃ b, RemoveNotification d n h = (Heap b (cells h) (drop_message (c_string d) (c_string n) (ext h)), Ok ())) ∧
  (∃ b, NotificationExists d n h = (Heap b (cells h) (ext h), Ok (has_message (c_string d) (c_string n) (ext h)))).
Proof.
  intros Hf. destruct h as [b cs e].
  split_and!; unfold AddNotification, RemoveNotification, NotificationExists, add_notification,
    remove_notification, notification_exists, with_gchars, gchars, new_strings, get_table, set_table, nth_ptr; c_run;
    eexists; apply heap_eq; same_cells Hf.
Qed.

(** The table keeps the laws that [Messaging] asks of a menu. *)
#[export] Instance table_menu : Messaging.MenuLib table := {
  Messaging.add_notification := put_message;
  Messaging.remove_notification := drop_message;
  Messaging.message_of := the_message;
}.

Lemma the_message_put d m d' n' t :
  the_message d' n' (put_message d m t)
  = if decide (d = d') then get_message n' (append_message m (default (messaging_menu_app_new d) (t ≫= λ map, map !! d)))
    else the_message d' n' t.
Proof.
  unfold the_message, put_message. cbn. case_decide as Hd.
  - subst d'. rewrite lookup_insert_eq. cbn. by destruct t as [map|]; [|cbn; rewrite lookup_empty].
  - rewrite lookup_insert_ne by done. by destruct t as [map|]; [|cbn; rewrite lookup_empty].
Qed.

(** The messages of an application, which may not be there yet. *)
Lemma the_message_app d n t :
  get_message n (default (messaging_menu_app_new d) (t ≫= λ map, map !! d)) = the_message d n t.
Proof.
  unfold the_message. destruct t as [map|]; cbn; [|apply get_new]. destruct (map !! d); cbn; [done|apply get_new].
Qed.

#[export] Instance table_menu_laws : Messaging.MenuLaws table.
Proof.
  split; cbn -[the_message put_message drop_message].
  - intros d m t Hn. rewrite the_message_put, decide_True by done. apply get_append_new. by rewrite the_message_app.
  - intros d m t Hn. rewrite the_message_put, decide_True by done. apply get_append_again. by rewrite the_message_app.
  - intros d m d' n' t Hne. rewrite the_message_put. case_decide; [|done]. subst d'.
    rewrite get_append_other by naive_solver. apply the_message_app.
  - intros d n d' n' t. unfold the_message, drop_message. destruct t as [map|]; cbn; [|by case_decide].
    destruct (decide (d = d')) as [<-|Hd].
    + destruct (map !! d) as [a|] eqn:E; [rewrite lookup_insert_eq; cbn; rewrite get_remove|rewrite E; cbn];
        repeat case_decide; naive_solver.
    + rewrite decide_False by naive_solver. destruct (map !! d); [by rewrite lookup_insert_ne|done].
Qed.
End menu.
End CMessaging.

(** The question whether a card's actions are the application's own, from the
    daemon to the C library. *)
Module TestURLSpec.
Import CHeap.

Lemma all_versioned_spec l app v :
  Click.Versioned app = Ok v →
  Desktop.all_versioned l app = Ok (bool_decide (Forall (λ a, a = v) l)).
Proof.
  intros Hv. induction l as [|a l IH]; [done|].
  cbn [Desktop.all_versioned]. rewrite Hv. cbn [mbind outcome_bind]. case_decide as Ha.
  - rewrite IH. f_equal. apply bool_decide_ext. rewrite Forall_cons. naive_solver.
  - rewrite bool_decide_false; [done|]. rewrite Forall_cons. naive_solver.
Qed.

(** It is answered with yes only if the dispatcher names the application for
    every one of the URLs: an answer that is missing counts as another one. *)
Theorem TestURL_own_app {W} lib app v urls ids (h : heap W) :
  fresh h → Click.Versioned app = Ok v → v ≠ "" → lib (c_string <$> urls) = Some ids → length ids ≤ length urls →
  ∃ packages, (CurlDispatcher.TestURL lib urls h).2 = Ok packages ∧
    Desktop.TestURL (λ _, packages) app urls = Ok (bool_decide (urls ≠ [] ∧ ids = replicate (length urls) v)).
Proof.
  intros Hf Hv Hne Hlib Hl. pose proof (CurlDispatcher.TestURL_spec lib urls h Hf) as Hs.
  rewrite Hlib, decide_True in Hs by done. destruct Hs as (b & cs & -> & _). eexists. split; [done|].
  set (ps := ids ++ replicate (length urls - length ids) "").
  assert (length ps = length urls) as Hlen by (unfold ps; rewrite length_app, length_replicate; lia).
  assert (Desktop.TestURL (λ _, ps) app urls = Ok (bool_decide (ps ≠ [] ∧ Forall (λ a, a = v) ps))) as ->.
  { unfold Desktop.TestURL. destruct ps as [|p ps'] eqn:E.
    - rewrite Hv. rewrite bool_decide_false by naive_solver. done.
    - rewrite (all_versioned_spec _ _ _ Hv). f_equal. apply bool_decide_ext. naive_solver. }
  f_equal. apply bool_decide_ext. assert (ps ≠ [] ↔ urls ≠ []) as ->.
  { rewrite <-!length_zero_iff_nil, Hlen. done. }
  apply and_iff_compat_l. unfold ps. rewrite Forall_app. split.
  - intros [Hi Hr]. destruct (length urls - length ids) as [|k] eqn:Ek.
    + symmetry. apply replicate_as_Forall. split; [lia|]. eapply Forall_impl; [exact Hi|]. done.
    + cbn in Hr. inversion Hr; subst. done.
  - intros Hi. assert (length ids = length urls) as Hll by (rewrite Hi; apply length_replicate).
    rewrite Hll, Nat.sub_diag. split; [|constructor]. rewrite Hi. by apply Forall_replicate.
Qed.
End TestURLSpec.

(** [nih/cnih/] *)
Module CNih.
Import CHeap.

Section cnih.
Context {W : Type}.
(** [nih_dbus_path] of the root [""]: a slash and the quoted element. *)
Context (nih_dbus_element : string → string).

Definition cuote (id : ptr) : st (heap W) string ptr :=
  s ← GoString id; new_string (String "/"%char (nih_dbus_element s)).

Definition Quote (s : string) : st (heap W) string string :=
  cs ← gchar s;
  cq ← cuote cs;
  q ← GoString cq;
  match q with
  | "" => st_panic
  | String _ q => gfree cq;; gfree cs;; mret q      (** [[1:]] *)
  end.

(** The C library's quoting of what C sees of the string. *)
Theorem Quote_spec s (h : heap W) :
  fresh h → ∃ b, Quote s h = (Heap b (cells h) (ext h), Ok (nih_dbus_element (c_string s))).
Proof.
  intros Hf. destruct h as [b cs e]. unfold Quote, cuote. c_run. eexists. apply heap_eq; same_cells Hf.
Qed.
End cnih.
End CNih.
