(* ===== verification/Tracker.v ===== *)
(** The log of sessions: [server/session/tracker.go].

    A tracker gives a session an id, from the time it started, and logs its
    start, its registration and its end through the logger; the texts of
    addresses and errors are the library's. *)

From S2P Require Import Prelude HttpBody.
Import Chunked ChunkedProps.

Module Tracker.
Local Open Scope Z_scope.

Inductive line := Debugf (s : string) | Infof (s : string).

Record tracker := Trk { sessionId : string; logged : list line }.

(** 1 January 2013, in nanoseconds since the Unix epoch. *)
Definition sessionsEpoch : Z := 1356998400 * 1000000000.

(** [fmt.Sprintf("%x", n)] *)
Definition Sprintf_x (n : Z) : string :=
  if n <? 0 then "-" +:+ format_hex 16 (- n) "" else format_hex 16 n "".

Definition NewTracker (log : list line) : tracker := Trk "" log.

Definition Start (UnixNano : Z) (RemoteAddr : string) (trk : tracker) : tracker :=
  let id := Sprintf_x (i64 (UnixNano - sessionsEpoch)) in
  Trk id (logged trk ++ [Debugf ("session(" +:+ id +:+ ") connected " +:+ RemoteAddr)]).

Definition SessionId (trk : tracker) : string := sessionId trk.

Definition Registered (DeviceIdentifier : string) (trk : tracker) : tracker :=
  Trk (sessionId trk)
    (logged trk ++ [Infof ("session(" +:+ sessionId trk +:+ ") registered " +:+ DeviceIdentifier)]).

Definition EffectivePingInterval (interval : Z) (trk : tracker) : tracker := trk.

(** [err] is handed on; [text] is how it prints, with [<nil>] for none. *)
Definition End_ {E} (text : option E → string) (err : option E) (trk : tracker) : tracker * option E :=
  (Trk (sessionId trk)
     (logged trk ++ [Debugf ("session(" +:+ sessionId trk +:+ ") ended with: " +:+ text err)]), err).

(** Sessions that start at different times, from 2013 on, have different ids. *)
Theorem session_ids_differ t1 t2 a1 a2 k1 k2 :
  sessionsEpoch ≤ t1 < 2 ^ 63 → sessionsEpoch ≤ t2 < 2 ^ 63 →
  SessionId (Start t1 a1 k1) = SessionId (Start t2 a2 k2) → t1 = t2.
Proof.
  assert (∀ t, sessionsEpoch ≤ t < 2 ^ 63 →
    parse_hex 0 (Sprintf_x (i64 (t - sessionsEpoch))) = Some (t - sessionsEpoch)) as Hp.
  { intros t Ht. unfold sessionsEpoch in *. unfold Sprintf_x.
    rewrite sN_small by (split; lia). rewrite (proj2 (Z.ltb_ge _ _)) by lia.
    rewrite parse_format_hex; [done| |lia]. change (16 ^ Z.of_nat 16) with (2 ^ 64). lia. }
  intros H1 H2 Hid. unfold SessionId, Start in Hid. cbn [sessionId] in Hid.
  pose proof (Hp t1 H1) as E1. rewrite Hid, (Hp t2 H2) in E1. injection E1. lia.
Qed.

(** What the log says of a session, and that its error is the caller's. *)
Theorem tracked_session {E} (text : option E → string) now addr dev d err log :
  let trk := Start now addr (NewTracker log) in
  let id := SessionId trk in
  let '(trk', err') := End_ text err (EffectivePingInterval d (Registered dev trk)) in
  err' = err ∧ SessionId trk' = id ∧
  logged trk' = log ++ [Debugf ("session(" +:+ id +:+ ") connected " +:+ addr);
                        Infof ("session(" +:+ id +:+ ") registered " +:+ dev);
                        Debugf ("session(" +:+ id +:+ ") ended with: " +:+ text err)].
Proof. cbn. split_and!; [done..|]. by rewrite <-!app_assoc. Qed.
End Tracker.
